(* ===== verification/_CoqProject ===== *)
-Q . S2P
Prelude.v
Ids.v
Runbook.v
Bytes.v
Slug.v
Vars.v
Entities.v
Job.v
Timer.v
Event.v
State.v
StateEquiv.v
StateIdem.v
StateInv.v
Scheduler.v
Effect.v
Executor.v
Runtime.v
WorkerQueue.v
WorkerQueueSpec.v
DecisionBuilder.v
JobRun.v
JobRunSpec.v
JobCreate.v
Dispatch.v
DispatchSpec.v
Monitor.v
AgentRuns.v
JobAgents.v
AgentHandlers.v
Cron.v
HandleEvent.v
RuntimeWitness.v
TimerSpec.v
EventSpec.v
Wal.v
WalSpec.v
Checkpoint.v
Recovery.v
Engine.v
ShellAst.v
ShellLexer.v
ShellParser.v
ShellLexerSpec.v
ShellParserSpec.v
ShellValidate.v
RunbookParse.v
RunbookSpec.v
CommandArgs.v
CommandArgsSpec.v
RunbookImport.v
RunbookImportSpec.v
RunbookFind.v
Protocol.v
Breadcrumb.v
Suggest.v
SessionLog.v
SessionLogSpec.v
Diagnostics.v
ShellExpand.v
ShellExec.v
ClaudeAgent.v
ClaudeAgentSpec.v
Listener.v
Mutations.v
ListenRun.v
ListenQueues.v
Query.v
Reconcile.v
ListenRequest.v
RequestSpec.v
RunbookSearch.v
ShellExecSpec.v
QueueSpec.v
RestartSpec.v
QuerySpec.v
Lifecycle.v
UsageMetrics.v
AgentFiles.v
