(* ===== verification/Prelude.v ===== *)
(** * Odd Jobs: the event-sourced core

    Odd Jobs ([oj]) runs agents and shell steps as multi-step jobs.  A daemon
    keeps one materialized state.  Everything that changes it is an event: the
    runtime's handlers return effects, the executor runs them and applies the
    events they emit at once, the events go to a write-ahead log, and the engine
    loop reads them back, applies them again and runs the handlers.  A
    checkpoint saves the state with the number of the last processed event, and
    a restart loads it and replays the log.  This library models that cycle,
    with the whole of the runtime's event handlers in it, and proves what it
    promises.

    ** Files

    The data and the state:
    - [Prelude] (this file): machine integers, strings, maps, the environment of
      a state change, automation.  It models no code of the repository.
    - [Ids]: [crates/core/src/id.rs], [namespace.rs], [owner.rs], [time_fmt.rs].
    - [Runbook]: the definitions a runbook holds ([crates/runbook/src]).
    - [Bytes]: UTF-8, trimming and lines, as [str] and [BufRead] treat them.
    - [Vars]: [crates/engine/src/vars.rs], [crates/runbook/src/template.rs] and
      [parse_duration] of [monitor.rs], and what templates promise; [Slug]:
      [crates/runbook/src/slug.rs].
    - [Entities]: the records and enums of [agent.rs], [agent_record.rs],
      [action_tracker.rs], [agent_run.rs], [decision.rs], [workspace.rs].
    - [Job]: [job.rs], with the invariant [Job_wf] of a step history.
    - [Timer]: [timer.rs], timer ids and how their owner is read back.
    - [Event]: [event.rs], the event type, its names and log lines.
    - [State]: [crates/storage/src/state.rs], one [apply_*] handler for each
      event and the dispatch [apply_event]; [replay] folds it over a log.
    - [StateEquiv]: the state up to clock stamps ([≡]); every handler respects it.
    - [StateIdem]: each event applied twice in a row.
    - [StateInv]: the invariant [State_wf] and its preservation; prefix lookup
      and the job events, branch by branch.

    Effects and the runtime:
    - [Scheduler]: [crates/engine/src/scheduler.rs].
    - [Effect]: [crates/core/src/effect.rs], [crates/engine/src/steps.rs].
    - [Executor]: [crates/engine/src/executor.rs] over a class of adapters.
    - [Runtime]: [crates/engine/src/runtime/mod.rs]: the state of the runtime
      and the state and error monad of its handlers; running single effects,
      and what a handler keeps.
    - [WorkerQueue]: [completion.rs], [polling.rs] and [lifecycle.rs] of the
      worker handlers and the retry timer of [timer.rs]; [WorkerQueueSpec]: the
      slots of workers and the outcome of queue items.
    - [DecisionBuilder]: [crates/engine/src/decision_builder.rs].
    - [JobRun]: [crates/engine/src/runtime/job.rs]; [JobRunSpec]: how jobs
      end, and how steps start.
    - [JobCreate]: [handlers/job_create.rs].
    - [Dispatch]: [handlers/worker/dispatch.rs]; [DispatchSpec]: what job creation
      and dispatch promise.
    - [Monitor]: the pure part of [crates/engine/src/monitor.rs]: prompts,
      gates, and the effects of an action; [crates/engine/src/spawn.rs].
    - [AgentRuns]: [runtime/agent_run.rs], the life of standalone agents;
      [JobAgents]: [runtime/monitor.rs], the same for the agents of jobs;
      [AgentHandlers]: [handlers/agent.rs], [agent_run.rs], [decision.rs] and
      [lifecycle.rs].
    - [Cron]: [handlers/cron.rs] and [handlers/command.rs].
    - [HandleEvent]: [handlers/timer.rs]; [handlers/mod.rs], the dispatch of every
      event; [TimerSpec]: routing and cooldowns;
      [EventSpec]: stale agents, deleted jobs, crons that share a name.
    - [RuntimeWitness]: the theorems about the runtime at concrete ones.

    Storage and the daemon:
    - [Wal]: [crates/storage/src/wal.rs] on the bytes of the file; [WalSpec]: the
      abstract log it implements, and what a crash leaves.
    - [Checkpoint]: [migration.rs], [checkpoint.rs], [snapshot.rs]
      (the record) and the checkpoint task of [crates/daemon/src/main.rs].
    - [Recovery]: the startup of [crates/daemon/src/lifecycle/mod.rs], and the
      invariant that ties snapshot, log and live state.
    - [Lifecycle]: startup, shutdown and clean-up of [daemon/src/lifecycle/mod.rs],
      the log of starts in [main.rs], and the command line's side of them
      ([cli/src/daemon_process.rs], [client_lifecycle.rs]).
    - [Engine]: the loop of [main.rs], [event_bus.rs] and [process_event], over
      the real [HandleEvent.handle_event].

    Requests, queries and restarts:
    - [Protocol]: [crates/daemon/src/protocol*.rs], the messages and their frames.
    - [Breadcrumb]: [crates/engine/src/log_paths.rs] and the class of files; the
      dates of breadcrumbs, written by [breadcrumb.rs] and read by
      [listener/query_orphans.rs]; breadcrumbs and the orphans of a start.
    - [Suggest]: [listener/suggest.rs].  [Listener]: the context of
      [listener/mod.rs] as a state and error monad.  [Mutations]:
      [listener/mutations.rs]; [ListenRun]: [workers.rs], [crons.rs], [commands.rs];
      [ListenQueues]: [queues.rs] and [decisions.rs].
    - [Query]: [query.rs] and the other [query_*.rs].
    - [ListenRequest]: the dispatch of requests and a connection, what handlers
      send, and a concrete listener for the witnesses.
    - [Reconcile]: [lifecycle/reconcile.rs] and the event forwarder.
    - [SessionLog]: the readers of Claude's session log in
      [crates/adapters/src/agent/watcher.rs], [log_entry.rs] and
      [crates/engine/src/usage_metrics.rs]; [SessionLogSpec]: what they promise.
    - [UsageMetrics]: the collector of [crates/engine/src/usage_metrics.rs].
    - [AgentFiles]: [crates/engine/src/env.rs], [workspace.rs],
      [activity_logger.rs], [agent_logger.rs], the prime of
      [crates/runbook/src/agent.rs] and [oj env] ([cli/src/commands/env.rs]).
    - [ClaudeAgent]: [crates/adapters/src/session], [traced.rs], [subprocess.rs],
      what the tmux adapter promises, [agent/claude.rs], the watchers of
      [watcher.rs], [env.rs]; [ClaudeAgentSpec]: what they promise, under the
      [Executor] too.
    - [RequestSpec], [QueueSpec], [QuerySpec], [RestartSpec]: what
      they promise.

    Shell commands and runbooks:
    - [ShellAst]: the data of [crates/shell/src] (spans, tokens, the syntax
      tree, errors) and the error monad [Res] with its [loop]; [ShellLexer]:
      [lexer]; [ShellParser]: [parser]; [ShellLexerSpec], [ShellParserSpec]: what
      they promise.
    - [ShellValidate]: [ast/visitor.rs], [ast/utils.rs], [ast/args.rs],
      [validator.rs], [validation.rs].
    - [Diagnostics]: the texts of errors, where they are shown, and snippets.
    - [ShellExpand]: [crates/shell/src/exec/expand] and [expand_glob.rs], the
      expansion of words over the class [ShellOS] of the system's calls;
      [ShellExec]: [run.rs], [redirect.rs], [result.rs] and [mod.rs] of [exec];
      [ShellExecSpec]: what they promise.
    - [RunbookParse]: [crates/runbook/src/parser.rs] and [validate.rs];
      [RunbookSpec]: what validation promises.
    - [CommandArgs], [CommandArgsSpec]: [command.rs], the arguments of commands.
    - [RunbookSearch]: [RunbookFind] put in place of the search that [Listener]
      and [Runtime] take as a class, and the start of a worker through both.
    - [RunbookFind]: [find.rs]; [RunbookImport], [RunbookImportSpec]: [import.rs]
      and the comments of a runbook.

    ** What the theorems show

    - The state.  Every replayed state is well formed ([StateInv]); an event
      applied twice in a row is applied once ([StateIdem]); the result depends
      on wall clocks only in its time stamps ([StateEquiv]); prefix lookup never
      guesses, [JobAdvanced] does what it should on every branch, and agents
      cannot change a job that has ended ([StateInv]).
    - Effects.  What a batch returns, replayed later, rebuilds what it did, as long
      as no agent signal among it finds two jobs or runs ([Executor]).  Timers
      fire exactly when due ([Scheduler]); owners are read back from timer ids
      ([Timer]); every timer id the code makes reaches its own handler, a cooldown's
      with its trigger up to a colon, and a cooldown that expires while attempts are
      left only counts ([TimerSpec]).
    - Jobs.  Completing, failing or cancelling a job ends it, with its session,
      timers, worker slots and open decisions released, whatever goes wrong
      afterwards ([JobRunSpec]); the circuit breaker stops a step that is
      entered too often, and within its limit a shell step starts exactly one
      task ([JobRunSpec]); a job whose workspace cannot be made fails and is
      not left running ([DispatchSpec]).
    - Workers.  The end of a job frees exactly its slot on every path, and its
      outcome reaches the queue item: completed, waiting for a retry, or dead
      ([WorkerQueueSpec]); a poll starts at most the free slots ([DispatchSpec]).
    - Agents.  The handlers ignore an event of an agent the job or run no longer
      uses, though its application may change the job ([EventSpec]).
    - Templates.  Escaped values cannot break out of double quotes, variables
      get a namespace once, durations are exact while they fit ([Vars]);
      slugs have the promised shape ([Slug]).
    - Shell commands.  Lexing and parsing end on every text, with tokens in
      order and a well-formed tree, and errors point into the text; an escaped
      value between double quotes is one literal word of the command
      ([ShellLexerSpec], [ShellParserSpec]).  Execution ends on every script
      if the system's calls do, whatever the loops of nested substitutions and
      here-documents; it leaves the context as it was; an escaped value reaches
      the program as one argument; an unquoted value is split into the pieces
      between its separators, and captured output stays text ([ShellExecSpec]).
      A diagnosis shows the line and the column of its span ([Diagnostics]).
    - Runbooks.  What is accepted is well typed in terms of the look-ups of the
      runtime, also after imports; the verdict does not depend on the order of
      hash maps; a duration is accepted exactly if the engine can read it
      ([RunbookSpec], [RunbookImportSpec]).  Directives in libraries are nested
      blocks ([RunbookImportSpec]); the search for a runbook reads every file
      and reports duplicates ([RunbookFind]); a worker that is started finds its
      runbook, its queue and its job again ([RunbookSearch]); the usage line of a command's
      arguments reads back, and arguments that validate are complete
      ([CommandArgsSpec]).
    - Storage.  The log refines a list of entries with a read position, a crash
      keeps a prefix of it, and reopening resumes after it ([WalSpec]); a
      checkpoint is atomic under crashes and the log is truncated only behind
      it ([Checkpoint]); snapshot and log together restore the live state, whatever
      the orders of hash maps are by then, if no agent signal of the history finds
      two jobs or runs ([Recovery.history_clear]), and checkpoint rounds keep it so
      while other tasks go on with the log ([Recovery]); migrations end
      ([Checkpoint]).
    - The daemon.  A start ends, runs exactly if it has the lock, and otherwise
      touches nothing or leaves nothing; two daemons are never up unless somebody
      takes the PID file away; what a shutdown leaves restores the state; the
      error of a failed start is found in its log ([Lifecycle]).
    - The loop.  No event blocks it ([Engine]).
    - Requests.  A request sends only the events its kind allows, also when it
      fails midway, and queries and dry runs send none ([RequestSpec]); a prune
      deletes only what has ended, and its dry run says what it would delete
      ([QueueSpec]); a push does not repeat an item, a retry accounts for every
      item ([QueueSpec]); each option of an escalation means what it says
      ([QueueSpec]); messages survive their framing ([Protocol]); the hints
      are ordered by the true edit distance ([Suggest]); the overview of the
      status is complete ([QuerySpec]).
    - Restarts.  A job that the state has lost is shown, and can be resumed, from
      its breadcrumb; an agent that died while the daemon was down is heard of,
      unless its job waits for a decision ([RestartSpec]).
    - Agents' sessions.  A parser that keeps its place in a log that grows by whole
      characters, or is replaced by a shorter one, gives what a reading of the
      whole gives; no line is read twice, and a piece tells the exit codes that the
      whole log of its time tells ([SessionLogSpec]); the adapter has, for each
      registered agent, one watcher it has not told to stop, and a watcher reports
      exactly the changes of such a log and its end ([ClaudeAgentSpec]); a session
      of a plain name that tmux reports as started is alive ([ClaudeAgent]); names
      of sessions are plain ([ClaudeAgentSpec.session_name_safe]).  The token
      totals follow the logs ([UsageMetrics]).
    - Files of agents.  A variable that is set reaches the agents of its project,
      the settings of an agent keep the project's but for the engine's hooks, and
      each prime script holds its commands ([AgentFiles]).
    - Where the code falls short of what its comments say, a theorem shows it:
      a failover applied live and again from the log counts twice ([Engine]);
      [CreateWorkspace] does not log the workspace ([Executor]); a terminal
      failure does not put its error in the step record ([JobRunSpec]);
      advancing from an agent step does not log the end of its session
      ([JobRunSpec]); automatic retries reset the failure count they are
      limited by ([WorkerQueueSpec]); long durations wrap around ([Vars]); a
      reopened log skips an
      unprocessed first entry, glues an entry to a line that lost its newline,
      and reuses sequence numbers after a corrupt start ([WalSpec]); snapshot
      versions are compared modulo [2^32] ([Checkpoint]); a job id that starts
      with ["ar:"] loses its timers' owner ([Timer]); deleting a job does not
      clean up its agent, and crons of two projects share their timers
      ([EventSpec]); a late failure of a
      replaced agent marks the job ([EventSpec]); a trigger with a colon is cut in
      its timer ([TimerSpec]); a log emptied early leaves its old state
      ([SessionLogSpec]); two daemons can run, and a failed start can clean up
      after the one that runs ([Lifecycle]); values of variables can be lost or cut
      ([AgentFiles]); the cooldown of an action is not validated ([RunbookSpec]);
      conflicting imports are no error ([RunbookImportSpec]); a list of agents by
      job shows standalone runs, a list of decisions can panic ([QuerySpec]); a
      job whose agent has no name in its history is not watched after a restart
      ([RestartSpec]); an unquoted literal of a command is taken byte by byte, a
      quoted variable behind one is split, a modifier can panic, every failed
      chain ends a script, a failed group loses its output, and a pattern behind
      a long character is not expanded ([ShellExecSpec]); a long command can end a
      watcher, exit codes and durations are lost between two looks at a log, and a
      replaced log is skipped ([SessionLogSpec], [ClaudeAgentSpec]); the wrapper of
      sessions drops their configuration ([ClaudeAgent]).

    ** Conventions

    Integers are [Z] with the wrap-around of [u32] and [u64] written out where
    the code adds ([+u32], [+u64]).  A [String] is its UTF-8 bytes, a [HashMap] a
    [gmap]; where code takes the first match of an iteration, the order comes
    from the environment [Env] and is any permutation of the keys.  Handlers take
    the clocks from [Env]; time is a parameter everywhere else.  JSON values are
    a type parameter with the classes [JsonValue], [JsonItem] and [JsonBuild];
    JSON and zstd encodings, regular expressions, tmux, git, processes and file
    operations are parameters or classes ([Codec], [Adapters], [RuntimeIO],
    [Processes], [AgentIO], [SpawnIO], [CronIO], [TemplateRegex],
    [TemplateCaptures], [RunbookFormat], [ConstPatterns], [Libraries], [RunbookFiles],
    [CheckpointWriter], [ListenIO], [Files], [BreadcrumbJson], [ShellOS], [SessionJson], [Commands], [SessionAdapter],
    [AgentHost], [FileLocks], [MetricsIO], [StateFiles], [SettingsJson]) with laws stated as classes ([CodecLaws],
    [WriterLaws], [TmuxLaws], [FileLocksLaws], [StateFilesLaws], [JsonObjectLaws]), each with an instance in a witness.  Errors are values of a
    sum type; a panic is [None] or a constructor of its own.

    Recursion is structural but for a few places with fuel: trimming, with the
    length of the string ([Bytes.drop_ws]), where every round drops a byte; the
    migration loop, where the target version is enough
    ([Checkpoint.migrate_to_terminates]).  The loops of the shell's lexer and
    parser run in the monad [Res], where [NoFuel] is a result of its own: a loop
    gets the number of bytes (or tokens) that are left and one more, and a
    nested substitution is shorter than its text ([ShellLexerSpec.tokenize_total],
    [ShellParserSpec.parse_post]); [CommandArgsSpec.parse_arg_spec_ends] is the same
    for argument specifications.  The search of directories has fuel as an
    argument, and ends if directories are finite ([RunbookFind.collect_ends]).
    The interpreter of shell commands has fuel for the depth of its calls;
    [ShellExecSpec.script_ends] shows that some fuel is enough for every script.
    A start makes at most 17 calls, which [Lifecycle.startup] has as its fuel and
    [Lifecycle.startup_outcome] shows to be enough.

    ** Not modelled

    The command line ([crates/cli]) but for its side of the daemon's start and stop
    and of environment files: it parses arguments, sends requests and prints
    tables.  Desktop notifications, help pages ([runbook/src/help.rs]), tracing, and
    [parse_with_recovery], which the program does not call.  Test doubles.  Formats
    and libraries outside the repository (JSON, TOML, HCL, zstd, regular
    expressions, file locks, tmux, git) are the classes named above.

    Reads of the log and the snapshot are taken to succeed.  A request sees the
    state each time it takes the lock, and between two locks the engine may have
    changed it ([ls_engine], any function), so handlers are proved against every
    interleaving with the loop; two requests at once are not modelled. *)

From Stdlib Require Export Ascii.
From stdpp Require Export gmap strings list pretty fin_maps sorting.
From Stdlib Require Import Lia.

Declare Scope oj_scope.
Delimit Scope oj_scope with oj.

(** ** Machine integers

    The Rust code is built in release mode, where the arithmetic of [u32]
    and [u64] wraps silently. *)

Definition u32_wrap (z : Z) : Z := (z `mod` 2 ^ 32)%Z.
Definition u64_wrap (z : Z) : Z := (z `mod` 2 ^ 64)%Z.
Definition is_u32 (z : Z) : Prop := (0 ≤ z < 2 ^ 32)%Z.
Definition is_u64 (z : Z) : Prop := (0 ≤ z < 2 ^ 64)%Z.

Notation "a +u32 b" := (u32_wrap (a + b)%Z) (at level 50, left associativity) : oj_scope.
Notation "a +u64 b" := (u64_wrap (a + b)%Z) (at level 50, left associativity) : oj_scope.

Lemma u32_wrap_range z : is_u32 (u32_wrap z).
Proof. apply Z.mod_pos_bound. lia. Qed.

Lemma u64_wrap_range z : is_u64 (u64_wrap z).
Proof. apply Z.mod_pos_bound. lia. Qed.

Lemma u32_wrap_small z : is_u32 z → u32_wrap z = z.
Proof. apply Z.mod_small. Qed.

Lemma u64_wrap_small z : is_u64 z → u64_wrap z = z.
Proof. apply Z.mod_small. Qed.

Lemma u32_wrap_add_l a b : u32_wrap (u32_wrap a + b) = u32_wrap (a + b).
Proof. apply Zplus_mod_idemp_l. Qed.

(** ** Strings

    A Rust [String] is its UTF-8 bytes: a Rocq [string] is a list of bytes,
    so [String.length] is Rust's [len]. *)

#[global] Arguments String.append : simpl nomatch.

(** [str::strip_prefix]. *)
Fixpoint strip_prefix (p s : string) : option string :=
  match p, s with
  | EmptyString, _ => Some s
  | String a p', String b s' =>
      if Ascii.eqb a b then strip_prefix p' s' else None
  | String _ _, EmptyString => None
  end.

(** [str::starts_with]. *)
Definition starts_with (p s : string) : bool :=
  match strip_prefix p s with Some _ => true | None => false end.

(** [str::split_once] on a one-byte pattern. *)
Fixpoint split_once (c : ascii) (s : string) : option (string * string) :=
  match s with
  | EmptyString => None
  | String a s' =>
      if Ascii.eqb a c then Some (EmptyString, s')
      else match split_once c s' with
           | Some (l, r) => Some (String a l, r)
           | None => None
           end
  end.

(** [s.split(c).next()]: the part before the first [c], or all of [s]. *)
Definition split_next (c : ascii) (s : string) : string :=
  match split_once c s with
  | Some (l, _) => l
  | None => s
  end.

(** Whether the byte [c] occurs in [s]. *)
Fixpoint has_char (c : ascii) (s : string) : bool :=
  match s with
  | EmptyString => false
  | String a s' => Ascii.eqb a c || has_char c s'
  end.

Definition is_empty (s : string) : bool :=
  match s with EmptyString => true | String _ _ => false end.

Lemma string_app_assoc (a b c : string) : (a +:+ b) +:+ c = a +:+ (b +:+ c).
Proof. induction a as [|x a IH]; simpl; [done | by rewrite IH]. Qed.

Lemma string_app_nil_r (a : string) : a +:+ "" = a.
Proof. induction a as [|x a IH]; simpl; [done | by rewrite IH]. Qed.

Lemma string_length_app (a b : string) :
  String.length (a +:+ b) = String.length a + String.length b.
Proof. induction a as [|x a IH]; simpl; [done | by rewrite IH]. Qed.

Lemma is_empty_spec s : is_empty s = true ↔ s = "".
Proof. destruct s; naive_solver. Qed.

Lemma strip_prefix_app p s : strip_prefix p (p +:+ s) = Some s.
Proof. induction p as [|a p IH]; simpl; [done |]. by rewrite Ascii.eqb_refl. Qed.

Lemma strip_prefix_Some p s r : strip_prefix p s = Some r ↔ s = p +:+ r.
Proof.
  split; [| intros ->; apply strip_prefix_app].
  revert s. induction p as [|a p IH]; intros s; simpl; [congruence |].
  destruct s as [|b s]; [done |].
  destruct (Ascii.eqb_spec a b) as [->|]; [|done]. intros H. f_equal. by apply IH.
Qed.

Lemma starts_with_spec p s : starts_with p s = true ↔ ∃ r, s = p +:+ r.
Proof.
  unfold starts_with. split.
  - destruct (strip_prefix p s) as [r|] eqn:E; [| done]. apply strip_prefix_Some in E. eauto.
  - intros [r ->]. by rewrite strip_prefix_app.
Qed.

Lemma starts_with_app p s : starts_with p (p +:+ s) = true.
Proof. apply starts_with_spec. eauto. Qed.

Lemma split_once_app c l r :
  has_char c l = false → split_once c (l +:+ String c r) = Some (l, r).
Proof.
  induction l as [|a l IH]; simpl.
  - by rewrite Ascii.eqb_refl.
  - intros [Ha Hl]%orb_false_iff. by rewrite Ha, IH.
Qed.

Lemma split_once_Some c s l r :
  split_once c s = Some (l, r) ↔ s = l +:+ String c r ∧ has_char c l = false.
Proof.
  split; [| intros [-> ?]; by apply split_once_app].
  revert l. induction s as [|a s IH]; intros l; simpl; [done |].
  destruct (Ascii.eqb_spec a c) as [->|Hne]; [by intros [= <- <-] |].
  destruct (split_once c s) as [[l' r']|]; [| done].
  intros [= <- <-]. destruct (IH l' eq_refl) as [-> Hl].
  simpl. rewrite (proj2 (Ascii.eqb_neq a c) Hne). done.
Qed.

Lemma split_once_None c s : split_once c s = None ↔ has_char c s = false.
Proof.
  induction s as [|a s IH]; simpl; [done |].
  destruct (Ascii.eqb a c); [done |]. simpl. rewrite <- IH.
  by destruct (split_once c s) as [[??]|].
Qed.

Lemma split_next_app c l r :
  has_char c l = false → split_next c (l +:+ String c r) = l.
Proof. intros H. unfold split_next. by rewrite split_once_app. Qed.

(** [split_once] and [starts_with] on a concatenation whose first part is known. *)
Lemma has_char_app c a b : has_char c (a +:+ b) = has_char c a || has_char c b.
Proof. induction a as [|x a IH]; simpl; [done |]. by rewrite IH, orb_assoc. Qed.

(** ** Hash maps

    A Rust [HashMap<String, V>] is a [gmap string V].  [get_mut] followed by
    an in-place update is [alter], [insert] is [<[k := v]>], [remove] is
    [delete], [retain] is [filter], and [for x in map.values_mut()] with a
    body that touches only [x] is [fmap].

    Where the code takes the first match of an iteration, the result depends
    on the iteration order, which the standard library leaves unspecified:
    [find_key] takes that order as an argument. *)

Section find_key.
Context {V : Type}.
Implicit Types (m : gmap string V) (p : V → bool) (order : list string).

Fixpoint find_key p order m : option string :=
  match order with
  | [] => None
  | k :: order' =>
      match m !! k with
      | Some v => if p v then Some k else find_key p order' m
      | None => find_key p order' m
      end
  end.

Lemma find_key_Some p order m k :
  find_key p order m = Some k → ∃ v, m !! k = Some v ∧ p v = true.
Proof.
  induction order as [|k' order IH]; simpl; [done |].
  destruct (m !! k') as [v|] eqn:Hk; [| done].
  destruct (p v) eqn:Hp; [| done]. intros [= <-]. eauto.
Qed.

Lemma find_key_None p order m k v :
  find_key p order m = None → k ∈ order → m !! k = Some v → p v = false.
Proof.
  induction order as [|k' order IH]; simpl; [set_solver |].
  intros Hf [->|Hk]%elem_of_cons Hm.
  - rewrite Hm in Hf. by destruct (p v).
  - apply IH; [| done | done]. destruct (m !! k') as [v'|]; [by destruct (p v') | done].
Qed.

(** With an order that lists every key, [find_key] fails exactly when no
    value satisfies the test. *)
Lemma find_key_None_iff p order m :
  order ≡ₚ elements (dom m) →
  find_key p order m = None ↔ ∀ k v, m !! k = Some v → p v = false.
Proof.
  intros Ho. split.
  - intros Hf k v Hk. eapply find_key_None; [done | | done].
    rewrite Ho, elem_of_elements, elem_of_dom. eauto.
  - intros Hall. destruct (find_key p order m) as [k|] eqn:Hf; [| done].
    apply find_key_Some in Hf as (v & Hk & Hp). by rewrite (Hall k v Hk) in Hp.
Qed.

(** When one key at most satisfies the test, the order does not matter. *)
Lemma find_key_unique p order m k v :
  order ≡ₚ elements (dom m) →
  m !! k = Some v → p v = true →
  (∀ k' v', m !! k' = Some v' → p v' = true → k' = k) →
  find_key p order m = Some k.
Proof.
  intros Ho Hk Hp Huniq. destruct (find_key p order m) as [k'|] eqn:Hf.
  - apply find_key_Some in Hf as (v' & ? & ?). f_equal. eauto.
  - assert (p v = false) as Hp'; [| congruence].
    by eapply (proj1 (find_key_None_iff p order m Ho)).
Qed.

End find_key.

Lemma find_key_ext {V W : Type} (p : V → bool) (q : W → bool) order
    (m : gmap string V) (m' : gmap string W) :
  (∀ k, p <$> m !! k = q <$> m' !! k) → find_key p order m = find_key q order m'.
Proof.
  intros Heq. induction order as [|k order IH]; simpl; [done |].
  specialize (Heq k). destruct (m !! k), (m' !! k); simpl in Heq; try done.
  injection Heq as ->. by rewrite IH.
Qed.

Lemma alter_idemp {V : Type} (f : V → V) (k : string) (m : gmap string V) :
  (∀ x, f (f x) = f x) → alter f k (alter f k m) = alter f k m.
Proof.
  intros Hf. rewrite alter_alter_eq. apply alter_ext. intros x _. apply Hf.
Qed.

Lemma fmap_alter_commute {V W : Type} (e : V → W) (f : V → V) (g : W → W) k
    (m : gmap string V) :
  (∀ x, e (f x) = g (e x)) → e <$> alter f k m = alter g k (e <$> m).
Proof. intros H. apply fmap_alter. eauto. Qed.

Lemma fmap_idemp {V : Type} (f : V → V) (m : gmap string V) :
  (∀ x, f (f x) = f x) → f <$> (f <$> m) = f <$> m.
Proof. intros Hf. rewrite <- map_fmap_compose. apply map_fmap_ext. naive_solver. Qed.

Lemma filter_idemp {V : Type} (P : string * V → Prop) `{!∀ x, Decision (P x)}
    (m : gmap string V) :
  filter P (filter P m) = filter P m.
Proof. apply map_filter_filter_l. done. Qed.

Lemma map_Forall_alter {V : Type} (P : string → V → Prop) (f : V → V) k (m : gmap string V) :
  (∀ x, m !! k = Some x → P k x → P k (f x)) → map_Forall P m → map_Forall P (alter f k m).
Proof.
  intros Hf Hm i x Hi. apply lookup_alter_Some in Hi as [(<- & y & Hy & ->)|[? Hi]];
    [by apply Hf, Hm | by apply Hm].
Qed.

Lemma map_Forall_fmap_mono {V : Type} (P : string → V → Prop) (f : V → V) (m : gmap string V) :
  (∀ k x, P k x → P k (f x)) → map_Forall P m → map_Forall P (f <$> m).
Proof.
  intros Hf Hm i x Hi. apply lookup_fmap_Some in Hi as (y & <- & Hy). by apply Hf, Hm.
Qed.

Lemma map_Forall_filter_mono {V : Type} (P : string → V → Prop) (Q : string * V → Prop)
    `{!∀ x, Decision (Q x)} (m : gmap string V) :
  map_Forall P m → map_Forall P (filter Q m).
Proof. intros Hm i x [Hi _]%map_lookup_filter_Some. by apply Hm. Qed.

Lemma map_Forall_insert_mono {V : Type} (P : string → V → Prop) k v (m : gmap string V) :
  P k v → map_Forall P m → map_Forall P (<[k := v]> m).
Proof. intros. by apply map_Forall_insert_2. Qed.

Lemma map_Forall_delete_mono {V : Type} (P : string → V → Prop) k (m : gmap string V) :
  map_Forall P m → map_Forall P (delete k m).
Proof. apply map_Forall_delete. Qed.

Lemma delete_alter {V : Type} (f : V → V) k (m : gmap string V) :
  delete k (alter f k m) = delete k m.
Proof.
  apply map_eq. intros i. destruct (decide (i = k)) as [->|].
  - by rewrite !lookup_delete_eq.
  - by rewrite !lookup_delete_ne, lookup_alter_ne.
Qed.

(** ** The environment of a state change

    What an event handler reads besides the event and the state: the system
    clock in epoch milliseconds ([clock n] is the [n]-th reading the handler
    takes), the monotonic clock, and the iteration order of the hash maps the
    code searches. *)

Inductive Table :=
  | TJobs | TAgentRuns | TWorkers | TCrons | TTimers
  | TWorkspaces | TVars | TLocals | TWorkerStates | TActiveJobs
  | TSessions | TQueues | TDecisions | TAgents | TNamespaces.

Record Env := mkEnv {
  clock : nat → Z;
  instant : nat → Z;
  iter_order : Table → gset string → list string;
  iter_order_perm : ∀ t X, iter_order t X ≡ₚ elements X
}.

(** An environment with fixed clocks and stdpp's order. *)
Definition env_at (now : Z) : Env :=
  mkEnv (λ _, now) (λ _, now) (λ _ X, elements X) (λ _ _, Permutation_refl _).

(** The same map iteration orders, at any clock readings. *)
Definition same_order (e1 e2 : Env) : Prop :=
  ∀ t X, iter_order e1 t X = iter_order e2 t X.

#[export] Instance same_order_equiv : Equivalence same_order.
Proof.
  split; unfold same_order; [done | by intros e1 e2 H t X; rewrite H |].
  intros e1 e2 e3 H1 H2 t X. by rewrite H1, H2.
Qed.

(** The environment with every clock at zero. *)
Definition env_zero (e : Env) : Env :=
  mkEnv (λ _, 0%Z) (λ _, 0%Z) (iter_order e) (iter_order_perm e).

Lemma env_zero_order e : same_order (env_zero e) e.
Proof. done. Qed.

(** The iteration of a table: [iter] and [values]. *)
Definition table_entries {V} (e : Env) (t : Table) (m : gmap string V) : list (string * V) :=
  omap (λ k, pair k <$> m !! k) (iter_order e t (dom m)).

Definition table_values {V} (e : Env) (t : Table) (m : gmap string V) : list V :=
  (table_entries e t m).*2.

Lemma elem_of_table_entries {V} e t (m : gmap string V) k v :
  (k, v) ∈ table_entries e t m ↔ m !! k = Some v.
Proof.
  unfold table_entries. rewrite list_elem_of_omap. split.
  - intros (k' & _ & H). destruct (m !! k') as [v'|] eqn:E; [| done]. simpl in H. by simplify_eq.
  - intros H. exists k. rewrite H. split; [| done].
    rewrite (iter_order_perm e t (dom m)). apply elem_of_elements, elem_of_dom. by exists v.
Qed.

Lemma elem_of_table_values {V} e t (m : gmap string V) v :
  v ∈ table_values e t m ↔ ∃ k, m !! k = Some v.
Proof.
  unfold table_values. rewrite list_elem_of_fmap. split.
  - intros ([k v'] & -> & H%elem_of_table_entries). by exists k.
  - intros [k H]. exists (k, v). by rewrite elem_of_table_entries.
Qed.

Lemma table_entries_NoDup {V} e t (m : gmap string V) : NoDup (table_entries e t m).*1.
Proof.
  unfold table_entries.
  assert (∀ l, NoDup l → NoDup (omap (λ k, pair k <$> m !! k) l).*1) as H.
  { induction l as [|k l IH]; simpl; [intros; constructor |]. intros [Hn Hl]%NoDup_cons.
    destruct (m !! k) as [v|]; simpl; [| by apply IH]. apply NoDup_cons. split; [| by apply IH].
    intros ([k' v'] & Heq & Hin)%list_elem_of_fmap. simpl in Heq. subst k'.
    apply list_elem_of_omap in Hin as (k2 & Hin & Hk2).
    destruct (m !! k2); simpl in Hk2; by simplify_eq. }
  apply H. rewrite (iter_order_perm e t (dom m)). apply NoDup_elements.
Qed.

(** ** Automation *)

Create HintDb oj discriminated.
#[export] Hint Resolve map_Forall_alter map_Forall_fmap_mono map_Forall_filter_mono
  map_Forall_insert_mono map_Forall_delete_mono : oj.
#[export] Hint Resolve u32_wrap_range u64_wrap_range : oj.


(** Split every [match] and [if] of the goal, keeping the equations. *)
Ltac split_matches :=
  repeat match goal with
  | |- context [match ?x with _ => _ end] => destruct x eqn:?; simplify_eq/=
  end.

(** Destruct a record argument, then compute. *)
Tactic Notation "by_record" ident(x) := destruct x; reflexivity.
