(* ===== verification/Ids.v ===== *)
(** Identifiers, namespaces and owners: [crates/core/src/id.rs],
    [namespace.rs], [owner.rs] and the duration formatting of [time_fmt.rs].

    The id newtypes ([JobId], [AgentId], ...) all come from [define_id!] and
    wrap a [String]; they are [string] here. *)

From S2P Require Import Prelude.

Abbreviation JobId := string (only parsing).
Abbreviation AgentId := string (only parsing).
Abbreviation AgentRunId := string (only parsing).
Abbreviation SessionId := string (only parsing).
Abbreviation WorkspaceId := string (only parsing).
Abbreviation DecisionId := string (only parsing).
Abbreviation TimerId := string (only parsing).
Abbreviation PathBuf := string (only parsing).

Local Open Scope string_scope.

(** ** Short ids *)

(** [str::is_char_boundary]: byte [n] exists and does not continue a
    multi-byte character, or [n] is the length. *)
Definition is_char_boundary (s : string) (n : nat) : bool :=
  match String.get n s with
  | Some b => let c := Ascii.N_of_ascii b in (c <? 128)%N || (192 <=? c)%N
  | None => Nat.eqb n (String.length s)
  end.

(** [ShortId::short]: the slice [&self[..n]] panics off a character boundary,
    which is [None]. *)
Definition short (s : string) (n : nat) : option string :=
  if (String.length s <=? n)%nat then Some s
  else if is_char_boundary s n then Some (String.substring 0 n s)
  else None.

(** ** Namespaces *)

Definition namespace_to_option (ns : string) : option string :=
  if is_empty ns then None else Some ns.

Definition scoped_name (namespace name : string) : string :=
  if is_empty namespace then name else namespace +:+ "/" +:+ name.

Definition split_scoped_name (scoped : string) : string * string :=
  match split_once "/"%char scoped with
  | Some (ns, name) => (ns, name)
  | None => ("", scoped)
  end.

(** [resolve_namespace]: the configured project name first, then the base
    name of the root, then ["default"].  The file read and the path operation
    are arguments. *)
Definition resolve_namespace (config_name : option string) (file_name : option string) : string :=
  match config_name with
  | Some name => name
  | None => default "default" file_name
  end.

(** ** Owners *)

Inductive OwnerId :=
  | Owner_Job (id : JobId)
  | Owner_AgentRun (id : AgentRunId).

#[export] Instance OwnerId_eq_dec : EqDecision OwnerId.
Proof. solve_decision. Defined.

#[export] Instance OwnerId_countable : Countable OwnerId.
Proof.
  refine (inj_countable'
    (λ o, match o with Owner_Job i => inl i | Owner_AgentRun i => inr i end)
    (λ s, match s with inl i => Owner_Job i | inr i => Owner_AgentRun i end) _).
  by intros [].
Defined.

(** ** Durations *)

Definition format_elapsed (secs : N) : string :=
  if (secs <? 60)%N then pretty secs +:+ "s"
  else if (secs <? 3600)%N then pretty (secs / 60)%N +:+ "m"
  else if (secs <? 86400)%N then
    let h := (secs / 3600)%N in
    let m := ((secs mod 3600) / 60)%N in
    if (0 <? m)%N then pretty h +:+ "h" +:+ pretty m +:+ "m"
    else pretty h +:+ "h"
  else pretty (secs / 86400)%N +:+ "d".

Definition format_elapsed_ms (ms : N) : string := format_elapsed (ms / 1000)%N.

(** ** Lemmas *)

Lemma scoped_name_nonempty ns name :
  ns ≠ "" → scoped_name ns name = ns +:+ String "/"%char name.
Proof. intros Hns. unfold scoped_name. by destruct ns. Qed.

Lemma short_length s n r : short s n = Some r → (String.length r ≤ n)%nat.
Proof.
  unfold short. destruct (Nat.leb_spec (String.length s) n) as [Hle|Hlt]; [naive_solver |].
  destruct (is_char_boundary s n); [| done]. intros [= <-].
  clear. revert s. induction n as [|n IH]; intros [|a s]; simpl; try lia.
  specialize (IH s). lia.
Qed.

Lemma short_prefix s n r : short s n = Some r → starts_with r s = true.
Proof.
  unfold short. destruct (Nat.leb_spec (String.length s) n) as [Hle|Hlt].
  - intros [= ->]. rewrite <- (string_app_nil_r r) at 2. apply starts_with_app.
  - destruct (is_char_boundary s n); [| done]. intros [= <-].
    rewrite starts_with_spec. clear Hlt. revert s.
    induction n as [|n IH]; intros [|a s]; simpl; [by exists "" | by exists (String a s) | by exists "" |].
    destruct (IH s) as [r Hr]. exists r. by rewrite <- Hr.
Qed.

(** Splitting a scoped key gives back its parts. *)
Lemma split_scoped_name_scoped ns name :
  has_char "/"%char ns = false → (ns = "" → has_char "/"%char name = false) →
  split_scoped_name (scoped_name ns name) = (ns, name).
Proof.
  intros Hns Hname. destruct (decide (ns = "")) as [->|Hne].
  - unfold split_scoped_name, scoped_name. cbn [is_empty].
    by rewrite (proj2 (split_once_None "/"%char name) (Hname eq_refl)).
  - rewrite scoped_name_nonempty by done. unfold split_scoped_name.
    by rewrite split_once_app.
Qed.

Lemma scoped_name_inj ns name ns' name' :
  has_char "/"%char ns = false → has_char "/"%char ns' = false →
  (ns = "" → has_char "/"%char name = false) → (ns' = "" → has_char "/"%char name' = false) →
  scoped_name ns name = scoped_name ns' name' → ns = ns' ∧ name = name'.
Proof.
  intros H1 H2 H3 H4 Heq.
  pose proof (split_scoped_name_scoped ns name H1 H3) as E1.
  rewrite Heq, split_scoped_name_scoped in E1 by done. by injection E1.
Qed.
