(* ===== verification/Runbook.v ===== *)
(** Runbook definitions: the data of [crates/runbook/src] ([agent.rs],
    [command.rs], [cron.rs], [import.rs], [job.rs], [queue.rs], [worker.rs],
    [parser.rs]) and the accessors the engine uses.
    [RunbookParse] is the parser. *)

From S2P Require Import Prelude.

Local Open Scope string_scope.

(** ** Commands *)

Inductive RunDirective :=
  | Run_Shell (cmd : string)
  | Run_Job (job : string)
  | Run_Agent (agent : string) (attach : option bool).

Definition run_is_agent (r : RunDirective) : bool :=
  match r with Run_Agent _ _ => true | _ => false end.

Record ArgDef := mkArgDef { arg_name : string; arg_required : bool }.
Record FlagDef := mkFlagDef { flag_name : string; flag_short : option string }.
Record OptionDef := mkOptionDef {
  opt_name : string;
  opt_short : option string;
  opt_required : bool
}.
Record VariadicDef := mkVariadicDef { variadic_name : string; variadic_required : bool }.

Record ArgSpec := mkArgSpec {
  spec_positional : list ArgDef;
  spec_flags : list FlagDef;
  spec_options : list OptionDef;
  spec_variadic : option VariadicDef
}.

Record CommandDef := mkCommandDef {
  command_name : string;
  command_description : option string;
  command_args : ArgSpec;
  command_defaults : gmap string string;
  command_run : RunDirective
}.

(** ** Jobs *)

Record StepTransition := mkStepTransition { transition_step : string }.

Record NotifyConfig := mkNotifyConfig {
  notify_on_start : option string;
  notify_on_done : option string;
  notify_on_fail : option string
}.

Inductive RunbookWorkspaceType := Ws_Folder.
Inductive GitWorkspaceMode := Git_Worktree.

Record WorkspaceBlock := mkWorkspaceBlock {
  block_git : GitWorkspaceMode;
  block_branch : option string;
  block_from_ref : option string
}.

Inductive WorkspaceConfig :=
  | Workspace_Simple (ty : RunbookWorkspaceType)
  | Workspace_Block (block : WorkspaceBlock).

Definition is_git_worktree (w : WorkspaceConfig) : bool :=
  match w with
  | Workspace_Block (mkWorkspaceBlock Git_Worktree _ _) => true
  | Workspace_Simple _ => false
  end.

Record StepDef := mkStepDef {
  def_step_name : string;
  def_run : RunDirective;
  def_on_done : option StepTransition;
  def_on_fail : option StepTransition;
  def_on_cancel : option StepTransition
}.

Record JobDef := mkJobDef {
  def_kind : string;
  def_job_name : option string;
  def_vars : list string;
  def_defaults : gmap string string;
  def_cwd : option string;
  def_workspace : option WorkspaceConfig;
  def_job_on_done : option StepTransition;
  def_job_on_fail : option StepTransition;
  def_job_on_cancel : option StepTransition;
  def_locals : gmap string string;
  def_notify : NotifyConfig;
  def_steps : list StepDef
}.

Definition get_step (name : string) (d : JobDef) : option StepDef :=
  List.find (λ p, String.eqb (def_step_name p) name) (def_steps d).

Definition first_step (d : JobDef) : option StepDef := head (def_steps d).

(** ** Agents *)

Record SessionStatusConfig := mkSessionStatusConfig {
  status_left : option string;
  status_right : option string
}.

Record TmuxSessionConfig := mkTmuxSessionConfig {
  tmux_color : option string;
  tmux_title : option string;
  tmux_status : option SessionStatusConfig
}.

Inductive PrimeDef :=
  | Prime_Script (script : string)
  | Prime_Commands (cmds : list string)
  | Prime_PerSource (defs : gmap string PrimeDef).

Inductive Attempts := Finite (max : Z) | Forever.

Definition Attempts_default : Attempts := Finite 1.

Definition is_exhausted (a : Attempts) (current : Z) : bool :=
  match a with
  | Finite max => (max <=? current)%Z
  | Forever => false
  end.

Inductive AgentAction := Act_Nudge | Act_Done | Act_Fail | Act_Resume | Act_Escalate | Act_Gate.

#[export] Instance AgentAction_eq_dec : EqDecision AgentAction.
Proof. solve_decision. Defined.

Definition action_as_str (a : AgentAction) : string :=
  match a with
  | Act_Nudge => "nudge"
  | Act_Done => "done"
  | Act_Fail => "fail"
  | Act_Resume => "resume"
  | Act_Escalate => "escalate"
  | Act_Gate => "gate"
  end.

Inductive ActionTrigger := OnIdle | OnDead | OnError | OnPrompt.

Definition is_valid_for_trigger (a : AgentAction) (t : ActionTrigger) : bool :=
  match t with
  | OnIdle =>
      match a with
      | Act_Nudge | Act_Done | Act_Escalate | Act_Fail | Act_Gate => true
      | Act_Resume => false
      end
  | OnDead =>
      match a with
      | Act_Done | Act_Resume | Act_Escalate | Act_Fail | Act_Gate => true
      | Act_Nudge => false
      end
  | OnError =>
      match a with
      | Act_Fail | Act_Resume | Act_Escalate | Act_Gate => true
      | Act_Nudge | Act_Done => false
      end
  | OnPrompt =>
      match a with
      | Act_Done | Act_Escalate | Act_Fail | Act_Gate => true
      | Act_Nudge | Act_Resume => false
      end
  end.

Inductive ActionConfig :=
  | Config_Simple (action : AgentAction)
  | Config_WithOptions (action : AgentAction) (message : option string) (append : bool)
      (run : option string) (attempts : Attempts) (cooldown : option string).

Definition ActionConfig_default : ActionConfig := Config_Simple Act_Escalate.

Definition config_action (c : ActionConfig) : AgentAction :=
  match c with Config_Simple a => a | Config_WithOptions a _ _ _ _ _ => a end.

Definition config_message (c : ActionConfig) : option string :=
  match c with Config_Simple _ => None | Config_WithOptions _ m _ _ _ _ => m end.

Definition config_append (c : ActionConfig) : bool :=
  match c with Config_Simple _ => false | Config_WithOptions _ _ b _ _ _ => b end.

Definition config_run (c : ActionConfig) : option string :=
  match c with Config_Simple _ => None | Config_WithOptions _ _ _ r _ _ => r end.

Definition config_attempts (c : ActionConfig) : Attempts :=
  match c with Config_Simple _ => Attempts_default | Config_WithOptions _ _ _ _ n _ => n end.

Definition config_cooldown (c : ActionConfig) : option string :=
  match c with Config_Simple _ => None | Config_WithOptions _ _ _ _ _ d => d end.

Inductive ErrorType := Ty_Unauthorized | Ty_OutOfCredits | Ty_NoInternet | Ty_RateLimited.

#[export] Instance ErrorType_eq_dec : EqDecision ErrorType.
Proof. solve_decision. Defined.

Record ErrorMatch := mkErrorMatch {
  error_match : option ErrorType;
  match_action : AgentAction;
  match_message : option string;
  match_append : bool
}.

Inductive ErrorActionConfig :=
  | Error_Simple (config : ActionConfig)
  | Error_ByType (matches : list ErrorMatch).

(** The first matching entry, or escalation. *)
Definition action_for (c : ErrorActionConfig) (error_type : option ErrorType) : ActionConfig :=
  match c with
  | Error_Simple config => config
  | Error_ByType ms =>
      match List.find (λ m, bool_decide (error_match m = None) ||
                            bool_decide (error_match m = error_type)) ms with
      | Some m => Config_WithOptions (match_action m) (match_message m) (match_append m) None
                    Attempts_default None
      | None => Config_Simple Act_Escalate
      end
  end.

Inductive StopAction := Stop_Signal | Stop_Idle | Stop_Escalate.

Inductive StopActionConfig :=
  | Stop_Simple (action : StopAction)
  | Stop_WithOptions (action : StopAction).

Definition stop_action (c : StopActionConfig) : StopAction :=
  match c with Stop_Simple a | Stop_WithOptions a => a end.

Record AgentDef := mkAgentDef {
  agent_def_name : string;
  agent_run : string;
  agent_prompt : option string;
  agent_prompt_file : option string;
  agent_env : gmap string string;
  agent_cwd : option string;
  agent_prime : option PrimeDef;
  agent_on_idle : ActionConfig;
  agent_on_dead : ActionConfig;
  agent_on_prompt : ActionConfig;
  agent_on_error : ErrorActionConfig;
  agent_on_stop : option StopActionConfig;
  agent_max_concurrency : option Z;
  agent_notify : NotifyConfig;
  agent_session : gmap string TmuxSessionConfig
}.

(** ** Queues, workers and crons *)

Inductive QueueType := External | Persisted.

#[export] Instance QueueType_eq_dec : EqDecision QueueType.
Proof. solve_decision. Defined.

Record RetryConfig := mkRetryConfig { retry_attempts : Z; retry_cooldown : string }.

Record QueueDef := mkQueueDef {
  qdef_name : string;
  qdef_type : QueueType;
  qdef_list : option string;
  qdef_take : option string;
  qdef_vars : list string;
  qdef_defaults : gmap string string;
  qdef_retry : option RetryConfig;
  qdef_poll : option string
}.

Record WorkerDef := mkWorkerDef {
  worker_def_name : string;
  worker_source_queue : string;
  worker_handler_job : string;
  worker_def_concurrency : Z
}.

Record CronDef := mkCronDef {
  cron_def_name : string;
  cron_interval : string;
  cron_run : RunDirective;
  cron_concurrency : option Z
}.

(** ** Runbooks *)

Record ConstDef := mkConstDef { const_default : option string }.

Record ImportConst := mkImportConst { import_const_value : string }.

Record ImportDef := mkImportDef {
  import_alias : option string;
  import_consts : gmap string ImportConst
}.

Record Runbook := mkRunbook {
  rb_imports : gmap string ImportDef;
  rb_consts : gmap string ConstDef;
  rb_commands : gmap string CommandDef;
  rb_jobs : gmap string JobDef;
  rb_agents : gmap string AgentDef;
  rb_queues : gmap string QueueDef;
  rb_workers : gmap string WorkerDef;
  rb_crons : gmap string CronDef
}.

Definition get_command (name : string) (r : Runbook) : option CommandDef := rb_commands r !! name.
Definition get_job_def (name : string) (r : Runbook) : option JobDef := rb_jobs r !! name.
Definition get_agent (name : string) (r : Runbook) : option AgentDef := rb_agents r !! name.
Definition get_queue (name : string) (r : Runbook) : option QueueDef := rb_queues r !! name.
Definition get_worker (name : string) (r : Runbook) : option WorkerDef := rb_workers r !! name.
Definition get_cron (name : string) (r : Runbook) : option CronDef := rb_crons r !! name.

Local Close Scope string_scope.

(** ** Lemmas *)

Lemma get_step_in name d p :
  get_step name d = Some p → p ∈ def_steps d ∧ def_step_name p = name.
Proof.
  intros [Hin Heq]%List.find_some. apply String.eqb_eq in Heq.
  split; [by apply list_elem_of_In | done].
Qed.
