(* ===== verification/Bytes.v ===== *)
(** Text files read line by line: what [wal.rs] uses of [str] and [BufRead].

    A file is its bytes.  [read_line] takes the bytes up to and including the
    next newline and fails with [InvalidData] when they are not UTF-8;
    [str::trim] removes the characters with the Unicode property [White_Space]
    at both ends. *)

From S2P Require Import Prelude.

Local Open Scope string_scope.

Definition newline : ascii := "010"%char.
Definition newline_str : string := String newline EmptyString.

Definition byte (a : ascii) : N := Ascii.N_of_ascii a.
Definition in_range (lo hi : N) (a : ascii) : bool := (lo <=? byte a)%N && (byte a <=? hi)%N.
Definition is_cont (a : ascii) : bool := in_range 128 191 a.

(** ** UTF-8 validity, as [str::from_utf8] checks it *)

Fixpoint utf8_valid (s : string) : bool :=
  match s with
  | EmptyString => true
  | String a s1 =>
      if (byte a <? 128)%N then utf8_valid s1
      else
        match s1 with
        | EmptyString => false
        | String b s2 =>
            if in_range 194 223 a then is_cont b && utf8_valid s2
            else
              match s2 with
              | EmptyString => false
              | String c s3 =>
                  if in_range 224 239 a then
                    (if (byte a =? 224)%N then in_range 160 191 b
                     else if (byte a =? 237)%N then in_range 128 159 b
                     else is_cont b)
                    && is_cont c && utf8_valid s3
                  else
                    match s3 with
                    | EmptyString => false
                    | String d s4 =>
                        in_range 240 244 a
                        && (if (byte a =? 240)%N then in_range 144 191 b
                            else if (byte a =? 244)%N then in_range 128 143 b
                            else is_cont b)
                        && is_cont c && is_cont d && utf8_valid s4
                    end
              end
        end
  end.

(** ** Trimming *)

(** The number of bytes of the white-space character at the start, 0 if there
    is none. *)
Definition ws_prefix (s : string) : nat :=
  match s with
  | EmptyString => 0
  | String a s1 =>
      if in_range 9 13 a || (byte a =? 32)%N then 1
      else
        match s1 with
        | EmptyString => 0
        | String b s2 =>
            if (byte a =? 194)%N && ((byte b =? 133)%N || (byte b =? 160)%N) then 2
            else
              match s2 with
              | EmptyString => 0
              | String c _ =>
                  if ((byte a =? 225) && (byte b =? 154) && (byte c =? 128)
                      || (byte a =? 226) && (byte b =? 128)
                         && (in_range 128 138 c || (byte c =? 168) || (byte c =? 169)
                             || (byte c =? 175))
                      || (byte a =? 226) && (byte b =? 129) && (byte c =? 159)
                      || (byte a =? 227) && (byte b =? 128) && (byte c =? 128))%N
                  then 3 else 0
              end
        end
  end.

(** The same at the end, on the reversed bytes. *)
Definition ws_suffix (r : string) : nat :=
  match r with
  | EmptyString => 0
  | String a r1 =>
      if in_range 9 13 a || (byte a =? 32)%N then 1
      else
        match r1 with
        | EmptyString => 0
        | String b r2 =>
            if Nat.eqb (ws_prefix (String b (String a EmptyString))) 2 then 2
            else
              match r2 with
              | EmptyString => 0
              | String c _ =>
                  if Nat.eqb (ws_prefix (String c (String b (String a EmptyString)))) 3
                  then 3 else 0
              end
        end
  end.

Fixpoint drop_str (n : nat) (s : string) : string :=
  match n, s with
  | O, _ => s
  | S n', String _ s' => drop_str n' s'
  | S _, EmptyString => EmptyString
  end.

Fixpoint take_str (n : nat) (s : string) : string :=
  match n, s with
  | S n', String a s' => String a (take_str n' s')
  | _, _ => EmptyString
  end.

(** Drop white space as [f] finds it; every round drops a byte, so the length
    of the string is enough fuel. *)
Fixpoint drop_ws (f : string → nat) (fuel : nat) (s : string) : string :=
  match fuel with
  | O => s
  | S fuel' => match f s with O => s | n => drop_ws f fuel' (drop_str n s) end
  end.

Definition trim_start (s : string) : string := drop_ws ws_prefix (String.length s) s.

Fixpoint rev_str (s : string) : string :=
  match s with
  | EmptyString => EmptyString
  | String a s' => rev_str s' +:+ String a EmptyString
  end.

Definition trim_end (s : string) : string :=
  rev_str (drop_ws ws_suffix (String.length s) (rev_str s)).

Definition trim (s : string) : string := trim_end (trim_start s).

(** ** Lines *)

(** The raw lines of a file, each with its newline, the last one perhaps
    without. *)
Fixpoint raw_lines (s : string) : list string :=
  match s with
  | EmptyString => []
  | String a s' =>
      if Ascii.eqb a newline then String a EmptyString :: raw_lines s'
      else match raw_lines s' with
           | [] => [String a EmptyString]
           | l :: ls => String a l :: ls
           end
  end.

Local Close Scope string_scope.

(** ** Lemmas *)

Lemma drop_str_app a b : drop_str (String.length a) (a +:+ b) = b.
Proof. induction a as [|c a IH]; [done | exact IH]. Qed.

Lemma take_str_app a b : take_str (String.length a) (a +:+ b) = a.
Proof. induction a as [|c a IH]; simpl; [by destruct b | by rewrite IH]. Qed.

Lemma rev_str_app a b : rev_str (a +:+ b) = rev_str b +:+ rev_str a.
Proof.
  induction a as [|c a IH]; simpl; [by rewrite string_app_nil_r |].
  by rewrite IH, string_app_assoc.
Qed.

Lemma rev_str_involutive s : rev_str (rev_str s) = s.
Proof. induction s as [|a s IH]; [done |]. simpl. by rewrite rev_str_app, IH. Qed.

Lemma length_rev_str s : String.length (rev_str s) = String.length s.
Proof. induction s as [|a s IH]; [done |]. simpl. rewrite string_length_app. simpl. lia. Qed.

(** A first line that ends in a newline. *)
Lemma raw_lines_cons l rest :
  has_char newline l = false →
  raw_lines (l +:+ String newline rest) = (l +:+ newline_str) :: raw_lines rest.
Proof.
  induction l as [|a l IH]; simpl; [done |].
  intros [Ha Hl]%orb_false_iff. by rewrite Ha, IH.
Qed.

(** A last line without a newline. *)
Lemma raw_lines_last l :
  has_char newline l = false → raw_lines l = match l with EmptyString => [] | _ => [l] end.
Proof.
  induction l as [|a l IH]; simpl; [done |].
  intros [Ha Hl]%orb_false_iff. rewrite Ha, IH by done. by destruct l.
Qed.

(** The lines are a partition of the file. *)
Lemma raw_lines_concat s : foldr String.append EmptyString (raw_lines s) = s.
Proof.
  induction s as [|a s IH]; simpl; [done |].
  destruct (Ascii.eqb_spec a newline) as [->|Hne]; simpl; [by rewrite IH |].
  destruct (raw_lines s) as [|l ls]; simpl in *; [by rewrite <- IH | by rewrite IH].
Qed.

(** Text between braces, as a JSON object is, is not changed by trimming, also
    when a newline follows. *)

Definition braced (l : string) : Prop := ∃ m, l = String "{" (m +:+ String "}" EmptyString).

Lemma ws_prefix_brace s : ws_prefix (String "{" s) = 0.
Proof. by destruct s as [|b [|c s]]. Qed.

Lemma ws_prefix_pair b : Nat.eqb (ws_prefix (String b (String "}" EmptyString))) 2 = false.
Proof.
  simpl. destruct (in_range 9 13 b || (byte b =? 32)%N); [done |].
  by rewrite andb_false_r.
Qed.

Lemma ws_suffix_brace s : ws_suffix (String "}" s) = 0.
Proof.
  destruct s as [|b [|c s]]; [done | |]; unfold ws_suffix; rewrite ws_prefix_pair; [done |].
  simpl. destruct (in_range 9 13 c || (byte c =? 32)%N); [done |].
  destruct ((byte c =? 194)%N && _); [done |]. by rewrite !andb_false_r.
Qed.

Lemma drop_ws_zero f n s : f s = 0 → drop_ws f n s = s.
Proof. intros H. destruct n; [done |]. simpl. by rewrite H. Qed.

Lemma trim_start_brace s : trim_start (String "{" s) = String "{" s.
Proof. apply drop_ws_zero, ws_prefix_brace. Qed.

Lemma rev_str_braced m :
  rev_str (String "{" (m +:+ String "}" EmptyString)) = String "}" (rev_str m +:+ String "{" EmptyString).
Proof. simpl. by rewrite rev_str_app. Qed.

Lemma trim_braced l : braced l → trim l = l.
Proof.
  intros [m ->]. unfold trim. rewrite trim_start_brace. unfold trim_end.
  rewrite drop_ws_zero by (rewrite rev_str_braced; apply ws_suffix_brace).
  apply rev_str_involutive.
Qed.

Lemma drop_ws_step f n k s :
  f s = S k → drop_ws f (S n) s = drop_ws f n (drop_str (S k) s).
Proof. intros H. simpl. by rewrite H. Qed.

Lemma trim_braced_newline l : braced l → trim (l +:+ newline_str) = l.
Proof.
  intros Hb. unfold trim.
  assert (trim_start (l +:+ newline_str) = l +:+ newline_str) as ->.
  { destruct Hb as [m ->]. apply trim_start_brace. }
  unfold trim_end. rewrite rev_str_app.
  replace (String.length (l +:+ newline_str)) with (S (String.length l))
    by (rewrite string_length_app; simpl; lia).
  change (rev_str newline_str +:+ rev_str l) with (String newline (rev_str l)).
  rewrite (drop_ws_step _ _ 0) by done. cbn [drop_str].
  rewrite drop_ws_zero; [apply rev_str_involutive |].
  destruct Hb as [m ->]. rewrite rev_str_braced. apply ws_suffix_brace.
Qed.

(** Concatenation of UTF-8 texts and its inverse for a final newline. *)
Lemma utf8_valid_newline l : utf8_valid l = true → utf8_valid (l +:+ newline_str) = true.
Proof.
  remember (String.length l) as n eqn:Hn. revert l Hn.
  induction n as [n IH] using lt_wf_ind. intros l ->.
  assert (∀ l', String.length l' < String.length l → utf8_valid l' = true →
    utf8_valid (l' +:+ newline_str) = true) as Hrec by eauto.
  clear IH. destruct l as [|a l]; [done |]. simpl.
  destruct (byte a <? 128)%N; [intros H; apply Hrec; [simpl; lia | done] |].
  destruct l as [|b l]; [done |]. simpl.
  destruct (in_range 194 223 a).
  { intros [-> H]%andb_true_iff. simpl. apply Hrec; [simpl; lia | done]. }
  destruct l as [|c l]; [done |]. simpl.
  destruct (in_range 224 239 a).
  { intros [-> H]%andb_true_iff. simpl. apply Hrec; [simpl; lia | done]. }
  destruct l as [|d l]; [done |]. simpl.
  intros [-> H]%andb_true_iff. simpl. apply Hrec; [simpl; lia | done].
Qed.
