(* ===== verification/Slug.v ===== *)
(** Job names: [crates/runbook/src/slug.rs].

    A slug is built byte by byte.  [slugify] tells apart only the lower-case
    letters and digits of ASCII, so of [to_lowercase] only the images in ASCII
    matter: the capitals of ASCII, U+0130 and U+212A (the Kelvin sign). *)

From S2P Require Import Prelude Bytes.

Local Open Scope string_scope.

(** ** Strings *)

Fixpoint all_chars (p : ascii → bool) (s : string) : bool :=
  match s with
  | EmptyString => true
  | String a s' => p a && all_chars p s'
  end.

(** [str::split] at a character. *)
Fixpoint split_all (c : ascii) (s : string) : list string :=
  match s with
  | EmptyString => [""]
  | String a s' =>
      if Ascii.eqb a c then "" :: split_all c s'
      else match split_all c s' with
           | w :: ws => String a w :: ws
           | [] => [String a ""]
           end
  end.

(** [str::rfind] of a character: the index of its last occurrence. *)
Fixpoint rfind (c : ascii) (s : string) : option nat :=
  match s with
  | EmptyString => None
  | String a s' =>
      match rfind c s' with
      | Some n => Some (S n)
      | None => if Ascii.eqb a c then Some 0 else None
      end
  end.

Fixpoint trim_start_char (c : ascii) (s : string) : string :=
  match s with
  | String a s' => if Ascii.eqb a c then trim_start_char c s' else s
  | EmptyString => EmptyString
  end.

Definition trim_end_char (c : ascii) (s : string) : string :=
  rev_str (trim_start_char c (rev_str s)).

Definition trim_char (c : ascii) (s : string) : string := trim_end_char c (trim_start_char c s).

Definition ends_with (p s : string) : bool := starts_with (rev_str p) (rev_str s).

(** ** [slugify] *)

Definition STOP_WORDS : list string :=
  ["the"; "a"; "an"; "is"; "are"; "was"; "were"; "be"; "been"; "being"; "have"; "has"; "had";
   "do"; "does"; "did"; "will"; "would"; "shall"; "should"; "may"; "might"; "must"; "can";
   "could"; "to"; "of"; "in"; "for"; "on"; "with"; "at"; "by"; "from"; "as"; "into"; "through";
   "during"; "before"; "after"; "above"; "below"; "between"; "out"; "off"; "over"; "under";
   "again"; "further"; "then"; "once"; "that"; "this"; "these"; "those"; "and"; "but"; "or";
   "nor"; "not"; "so"; "yet"; "both"; "each"; "every"; "all"; "any"; "few"; "more"; "most";
   "other"; "some"; "such"; "no"; "only"; "own"; "same"; "than"; "too"; "very"; "just"; "about";
   "also"; "its"; "it"; "we"; "our"; "currently"; "when"; "which"; "what"; "i"; "he"; "she";
   "they"; "you"; "t"; "s"; "d"; "m"; "re"; "ve"; "ll"; "don"; "doesn"; "didn"; "hasn"; "hadn";
   "isn"; "aren"; "wasn"; "weren"; "won"; "wouldn"; "shouldn"; "couldn"; "mustn"; "needn"].

Definition is_upper (a : ascii) : bool := in_range 65 90 a.
Definition is_lower (a : ascii) : bool := in_range 97 122 a.
Definition is_digit (a : ascii) : bool := in_range 48 57 a.
Definition is_alnum (a : ascii) : bool := is_upper a || is_lower a || is_digit a.

Definition lower_char (a : ascii) : ascii :=
  if is_upper a then Ascii.ascii_of_N (byte a + 32) else a.

Definition is_byte (n : N) (a : ascii) : bool := (byte a =? n)%N.

(** [str::to_lowercase], a character beyond ASCII whose lower case is beyond
    ASCII left as it is. *)
Fixpoint to_lowercase (s : string) : string :=
  match s with
  | EmptyString => EmptyString
  | String a s1 =>
      match s1 with
      | EmptyString => String (lower_char a) EmptyString
      | String b s2 =>
          if is_byte 196 a && is_byte 176 b then
            String "i" (String "204" (String "135" (to_lowercase s2)))
          else match s2 with
               | String c s3 =>
                   if is_byte 226 a && is_byte 132 b && is_byte 170 c then
                     String "k" (to_lowercase s3)
                   else String (lower_char a) (to_lowercase s1)
               | EmptyString => String (lower_char a) (to_lowercase s1)
               end
      end
  end.

(** Runs of other characters become one hyphen; [last] is
    [last_was_hyphen]. *)
Fixpoint hyphenate (last : bool) (s : string) : string :=
  match s with
  | EmptyString => EmptyString
  | String a s' =>
      if is_alnum a then String a (hyphenate false s')
      else if last then hyphenate true s'
      else String "-" (hyphenate true s')
  end.

(** The loop over the words: stop words and repeats are dropped. *)
Definition push_word (filtered : list string) (word : string) : list string :=
  if is_empty word || existsb (String.eqb word) STOP_WORDS then filtered
  else if bool_decide (last filtered = Some word) then filtered
  else (filtered ++ [word])%list.

Definition filter_words (words : list string) : list string := foldl push_word [] words.

(** Truncation at a word boundary. *)
Definition truncate_words (max_len : nat) (result : string) : string :=
  if (max_len <? String.length result)%nat then
    match rfind "-" (take_str max_len result) with
    | Some pos => take_str pos result
    | None => take_str max_len result
    end
  else result.

Definition slugify (input : string) (max_len : nat) : string :=
  let slug := hyphenate false (to_lowercase input) in
  let result := String.concat "-" (filter_words (split_all "-" slug)) in
  let result := trim_char "-" result in
  let result := truncate_words max_len result in
  trim_end_char "-" result.

(** ** Display names *)

Definition job_display_name (raw nonce namespace : string) : string :=
  let slug := slugify raw 28 in
  let slug := if is_empty namespace then slug
              else default slug (strip_prefix (namespace +:+ "-") slug) in
  if is_empty slug then nonce else slug +:+ "-" +:+ nonce.

Example slug_1 : slugify "Fix: the login button isn't Working!" 28 = "fix-login-button-working".
Proof. reflexivity. Qed.
Example slug_2 : slugify "authentication-authorization-middleware" 28 = "authentication".
Proof. vm_compute. reflexivity. Qed.

(** ** Words *)

Definition slug_char (a : ascii) : bool := is_lower a || is_digit a.

(** A word of a slug: lower-case letters and digits, at least one. *)
Definition slug_word (w : string) : Prop := w ≠ "" ∧ all_chars slug_char w = true.

Fixpoint no_repeat (ws : list string) : Prop :=
  match ws with
  | [] => True
  | w :: ws' => head ws' ≠ Some w ∧ no_repeat ws'
  end.

Lemma all_chars_app p a b : all_chars p (a +:+ b) = all_chars p a && all_chars p b.
Proof. induction a as [|c a IH]; simpl; [done | by rewrite IH, andb_assoc]. Qed.

Lemma all_chars_take p n s : all_chars p s = true → all_chars p (take_str n s) = true.
Proof.
  revert n. induction s as [|a s IH]; intros [|n]; simpl; try done.
  intros [-> H]%andb_true_iff. by apply IH.
Qed.

Lemma lower_char_lower a : is_upper (lower_char a) = false.
Proof. destruct a as [[] [] [] [] [] [] [] []]; vm_compute; reflexivity. Qed.

Lemma to_lowercase_no_upper s : all_chars (λ a, negb (is_upper a)) (to_lowercase s) = true.
Proof.
  induction s as [s IH] using (induction_ltof1 _ String.length); unfold ltof in IH.
  destruct s as [|a [|b s]]; simpl; rewrite ?lower_char_lower; try done.
  destruct (is_byte 196 a && is_byte 176 b); [simpl; apply IH; simpl; lia |].
  destruct s as [|c s]; [by simpl; rewrite !lower_char_lower |].
  destruct (is_byte 226 a && is_byte 132 b && is_byte 170 c); [simpl; apply IH; simpl; lia |].
  pose proof (IH (String b (String c s)) ltac:(simpl; lia)) as H.
  change (all_chars (λ a, negb (is_upper a))
            (String (lower_char a) (to_lowercase (String b (String c s)))) = true).
  cbn [all_chars]. by rewrite lower_char_lower, H.
Qed.

Definition slug_or_hyphen (a : ascii) : bool := slug_char a || Ascii.eqb a "-".

Lemma hyphenate_chars last s :
  all_chars (λ a, negb (is_upper a)) s = true → all_chars slug_or_hyphen (hyphenate last s) = true.
Proof.
  revert last. induction s as [|a s IH]; intros last; simpl; [done |].
  intros [Ha Hs]%andb_true_iff. apply negb_true_iff in Ha.
  destruct (is_alnum a) eqn:Hal; simpl.
  - unfold slug_or_hyphen, slug_char. unfold is_alnum in Hal. rewrite Ha in Hal. simpl in Hal.
    rewrite Hal. simpl. by apply IH.
  - destruct last; simpl; by apply IH.
Qed.

Lemma split_all_chars s :
  all_chars slug_or_hyphen s = true → Forall (λ w, all_chars slug_char w = true) (split_all "-" s).
Proof.
  induction s as [|a s IH]; simpl; [by repeat constructor |].
  intros [Ha Hs]%andb_true_iff. specialize (IH Hs).
  unfold slug_or_hyphen in Ha. destruct (Ascii.eqb a "-"); [by constructor |].
  rewrite orb_false_r in Ha.
  destruct (split_all "-" s) as [|w ws]; constructor; simpl; rewrite ?Ha; try done;
    by inversion IH.
Qed.

Definition good_words (ws : list string) : Prop :=
  Forall slug_word ws ∧ no_repeat ws ∧ Forall (λ w, w ∉ STOP_WORDS) ws.

Lemma existsb_eqb_In w l : existsb (String.eqb w) l = true ↔ w ∈ l.
Proof.
  rewrite existsb_exists. setoid_rewrite <- list_elem_of_In. split.
  - by intros (x & Hx & ->%String.eqb_eq).
  - intros H. exists w. split; [done | apply String.eqb_refl].
Qed.

Lemma no_repeat_app ws1 ws2 :
  no_repeat (ws1 ++ ws2) ↔
  no_repeat ws1 ∧ no_repeat ws2 ∧ (∀ w, last ws1 = Some w → head ws2 ≠ Some w).
Proof.
  induction ws1 as [|w ws IH]; simpl; [naive_solver |].
  rewrite IH. destruct ws as [|w' ws]; simpl; [naive_solver |].
  change (last (w :: w' :: ws)) with (last (w' :: ws)). naive_solver.
Qed.

Lemma push_word_good ws w :
  good_words ws → all_chars slug_char w = true → good_words (push_word ws w).
Proof.
  intros (H1 & H2 & H3) Hw. unfold push_word.
  destruct (is_empty w) eqn:He; cbn [orb]; [done |].
  destruct (existsb (String.eqb w) STOP_WORDS) eqn:Hs; [done |].
  case_bool_decide as Hl; [done |].
  assert (w ≠ "") by (intros ->; by compute in He).
  assert (w ∉ STOP_WORDS) by (rewrite <- existsb_eqb_In; congruence).
  split; [| split].
  - apply Forall_app. by repeat constructor.
  - apply no_repeat_app. split; [done |]. split; [done |]. simpl. congruence.
  - apply Forall_app. by repeat constructor.
Qed.

Lemma filter_words_good words :
  Forall (λ w, all_chars slug_char w = true) words → good_words (filter_words words).
Proof.
  intros H. unfold filter_words.
  assert (Hg : good_words []) by (repeat constructor).
  revert Hg. generalize (@nil string) as acc. induction H; intros acc Hacc; simpl; [done |].
  apply IHForall. by apply push_word_good.
Qed.

(** ** Joined words *)

Definition join (ws : list string) : string := String.concat "-" ws.

Lemma join_cons w ws : ws ≠ [] → join (w :: ws) = w +:+ String "-" (join ws).
Proof. by destruct ws. Qed.

Lemma slug_word_no_hyphen w : all_chars slug_char w = true → has_char "-" w = false.
Proof.
  induction w as [|a w IH]; simpl; [done |]. intros [Ha Hw]%andb_true_iff.
  rewrite (IH Hw), orb_false_r. apply Ascii.eqb_neq. by intros ->.
Qed.

(** The text before a hyphen of a slug is a slug of its first words. *)
Lemma join_before ws l r :
  Forall slug_word ws → join ws = l +:+ String "-" r →
  ∃ ws1 ws2, ws = (ws1 ++ ws2)%list ∧ ws1 ≠ [] ∧ l = join ws1.
Proof.
  revert l. induction ws as [|w ws IH]; intros l Hws Heq; [by destruct l |].
  inversion Hws as [|?? [_ Hw] Hws']; subst. apply slug_word_no_hyphen in Hw.
  destruct (decide (ws = [])) as [->|Hne].
  - change (join [w]) with w in Heq. subst w. rewrite has_char_app in Hw. simpl in Hw.
    rewrite orb_true_r in Hw. done.
  - rewrite join_cons in Heq by done.
    assert (H : (w = l) ∨ ∃ l', l = w +:+ String "-" l' ∧ join ws = l' +:+ String "-" r).
    { clear IH Hws Hws' Hne. revert l Heq.
      induction w as [|a w IHw]; intros [|b l] Heq; simpl in *; simplify_eq; auto.
      - right. eauto.
      - apply orb_false_iff in Hw as [_ Hw].
        destruct (IHw Hw l) as [->|(l' & -> & ?)]; [done | by left | right; eauto]. }
    destruct H as [<-|(l' & -> & Hl')].
    + by exists [w], ws.
    + destruct (IH l' Hws' Hl') as (ws1 & ws2 & -> & Hne1 & ->).
      exists (w :: ws1), ws2. repeat split; [done |]. by rewrite join_cons.
Qed.

Lemma rfind_Some c s n :
  rfind c s = Some n → ∃ l r, s = l +:+ String c r ∧ String.length l = n.
Proof.
  revert n. induction s as [|a s IH]; intros n; simpl; [done |].
  destruct (rfind c s) as [m|] eqn:E.
  - intros [= <-]. destruct (IH m eq_refl) as (l & r & -> & Hl).
    exists (String a l), r. simpl. by rewrite Hl.
  - destruct (Ascii.eqb_spec a c) as [->|]; [| done]. intros [= <-]. by exists "", s.
Qed.

Lemma rfind_None c s : rfind c s = None → has_char c s = false.
Proof.
  induction s as [|a s IH]; simpl; [done |].
  destruct (rfind c s); [done |]. destruct (Ascii.eqb a c) eqn:E; [done |].
  intros _. by rewrite IH.
Qed.

Lemma take_str_drop n s : take_str n s +:+ drop_str n s = s.
Proof.
  revert s. induction n as [|n IH]; intros [|a s]; simpl; try done.
  apply f_equal. apply IH.
Qed.

Lemma length_take_str n s : String.length (take_str n s) = Nat.min n (String.length s).
Proof. revert s. induction n as [|n IH]; intros [|a s]; simpl; [done.. | by rewrite IH]. Qed.

Lemma take_str_all n s : (String.length s ≤ n)%nat → take_str n s = s.
Proof.
  revert n. induction s as [|a s IH]; intros [|n]; simpl; try done; [lia |].
  intros. rewrite IH; [done | lia].
Qed.

(** The shape of a slug: good words, or one word cut short. *)
Definition slug_shape (max_len : nat) (s : string) : Prop :=
  (String.length s ≤ max_len)%nat ∧
  ∃ ws, s = join ws ∧ Forall slug_word ws ∧ no_repeat ws ∧
        (Forall (λ w, w ∉ STOP_WORDS) ws ∨ ∃ w, ws = [w] ∧ String.length w = max_len).

Lemma good_words_app ws1 ws2 : good_words (ws1 ++ ws2) → good_words ws1.
Proof. intros ([? ?]%Forall_app & [? _]%no_repeat_app & [? ?]%Forall_app). done. Qed.

Lemma join_first_word w ws n :
  (n < String.length (join (w :: ws)))%nat → has_char "-" (take_str n (join (w :: ws))) = false →
  take_str n (join (w :: ws)) = take_str n w ∧ (n ≤ String.length w)%nat.
Proof.
  intros Hlen Hno. destruct (decide (ws = [])) as [->|Hne].
  - change (join [w]) with w in *. split; [done | lia].
  - rewrite join_cons in * by done. clear Hlen Hne. revert w Hno.
    induction n as [|n IH]; intros w; [split; [by destruct w | lia] |].
    destruct w as [|a w]; simpl; [done |]. intros [_ H]%orb_false_iff. destruct (IH w H) as [-> ?]. split; [done | lia].
Qed.

Lemma truncate_shape n ws : good_words ws → slug_shape n (truncate_words n (join ws)).
Proof.
  intros Hgood. pose proof Hgood as (Hw & Hr & Hs). unfold truncate_words.
  destruct (Nat.ltb_spec n (String.length (join ws))) as [Hlt|Hge].
  2: { split; [lia |]. exists ws. auto. }
  destruct (rfind "-" (take_str n (join ws))) as [pos|] eqn:Hf.
  - destruct (rfind_Some _ _ _ Hf) as (l & r & Heq & <-).
    assert (Hj : join ws = l +:+ String "-" (r +:+ drop_str n (join ws))).
    { rewrite <- (take_str_drop n (join ws)) at 1. rewrite Heq. by rewrite string_app_assoc. }
    destruct (join_before ws _ _ Hw Hj) as (ws1 & ws2 & -> & _ & Hl).
    rewrite Hj, take_str_app. split.
    + apply (f_equal String.length) in Heq. rewrite length_take_str, string_length_app in Heq.
      simpl in Heq. lia.
    + exists ws1. destruct (good_words_app _ _ Hgood) as (? & ? & ?). auto.
  - apply rfind_None in Hf. destruct ws as [|w ws]; [by simpl in Hlt; lia |].
    destruct (join_first_word w ws n Hlt Hf) as [Heq Hle]. rewrite Heq.
    inversion Hw as [|?? [_ Hc] _]; subst. split; [rewrite length_take_str; lia |].
    destruct (decide (n = 0)) as [->|].
    + exists []. repeat split; try constructor; constructor.
    + exists [take_str n w]. split; [done |]. split; [| split; [done |]].
      * apply Forall_singleton. split; [| by apply all_chars_take].
        intros H%(f_equal String.length). rewrite length_take_str in H. simpl in H. lia.
      * right. exists (take_str n w). split; [done |]. rewrite length_take_str. lia.
Qed.

(** ** Trimming does nothing *)

Lemma trim_start_char_other c s : (∀ a s', s = String a s' → a ≠ c) → trim_start_char c s = s.
Proof.
  destruct s as [|a s]; simpl; [done |]. intros H.
  destruct (Ascii.eqb_spec a c); [| done]. exfalso. by eapply H.
Qed.

Lemma join_starts ws a s : Forall slug_word ws → join ws = String a s → slug_char a = true.
Proof.
  intros Hw Heq. destruct Hw as [|w ws [Hne Hc] _]; [done |].
  destruct w as [|b w]; [done |]. simpl in Hc. apply andb_true_iff in Hc as [Hb _].
  assert (b = a) by (unfold join in Heq; destruct ws; simpl in Heq; congruence). by subst.
Qed.

Lemma all_chars_rev p s : all_chars p (rev_str s) = all_chars p s.
Proof.
  induction s as [|a s IH]; simpl; [done |].
  rewrite all_chars_app, IH. simpl. by rewrite andb_true_r, andb_comm.
Qed.

(** The reverse of a slug is a slug of the reversed words. *)
Lemma rev_join ws : rev_str (join ws) = join (rev (rev_str <$> ws)).
Proof.
  induction ws as [|w ws IH]; [done |]. destruct (decide (ws = [])) as [->|Hne]; [done |].
  rewrite join_cons, rev_str_app by done. simpl. rewrite IH.
  assert (Hr : ∀ l w', l ≠ [] → join (l ++ [w'])%list = join l +:+ "-" +:+ w').
  { intros l w'. induction l as [|x l IHl]; [done |]. intros _.
    destruct (decide (l = [])) as [->|]; [done |].
    change ((x :: l) ++ [w'])%list with (x :: (l ++ [w'])%list).
    rewrite join_cons by (by destruct l). rewrite IHl, join_cons by done.
    by rewrite string_app_assoc. }
  rewrite Hr; [by rewrite string_app_assoc |].
  intros H%(f_equal length). rewrite length_rev, length_fmap in H. by destruct ws.
Qed.

Lemma slug_word_rev w : slug_word w → slug_word (rev_str w).
Proof.
  intros [H1 H2]. split; [| by rewrite all_chars_rev].
  intros H. apply H1. by rewrite <- (rev_str_involutive w), H.
Qed.

Lemma trim_end_join ws : Forall slug_word ws → trim_end_char "-" (join ws) = join ws.
Proof.
  intros H. unfold trim_end_char. rewrite trim_start_char_other; [apply rev_str_involutive |].
  intros a s. rewrite rev_join. intros Ha%join_starts; [by intros -> |].
  apply Forall_rev, Forall_fmap. eapply Forall_impl; [exact H | apply slug_word_rev].
Qed.

Lemma trim_join ws : Forall slug_word ws → trim_char "-" (join ws) = join ws.
Proof.
  intros H. unfold trim_char. rewrite trim_start_char_other; [by apply trim_end_join |].
  intros a s Ha%join_starts; [by intros -> | done].
Qed.

(** ** What a slug is *)

Lemma slugify_shaped input max_len : slug_shape max_len (slugify input max_len).
Proof.
  unfold slugify.
  assert (Hg : good_words (filter_words (split_all "-" (hyphenate false (to_lowercase input))))).
  { apply filter_words_good, split_all_chars, hyphenate_chars, to_lowercase_no_upper. }
  fold (join (filter_words (split_all "-" (hyphenate false (to_lowercase input))))).
  rewrite trim_join by apply Hg.
  destruct (truncate_shape max_len _ Hg) as (Hlen & ws & Heq & Hw & Hrest).
  rewrite Heq in *. rewrite trim_end_join by done. split; [done |]. by exists ws.
Qed.

(** A slug is at most [max_len] bytes of words over the lower-case letters
    and digits of ASCII, joined by single hyphens, without stop words or
    repeats in a row, unless it is one word that was cut at [max_len]. *)
Theorem slugify_shape input max_len :
  let s := slugify input max_len in
  (String.length s ≤ max_len)%nat ∧
  ∃ ws, s = String.concat "-" ws ∧ Forall slug_word ws ∧ no_repeat ws ∧
        (Forall (λ w, w ∉ STOP_WORDS) ws ∨ ∃ w, ws = [w] ∧ String.length w = max_len).
Proof. apply slugify_shaped. Qed.

(** The nonce ends every display name, which is at most 29 bytes longer. *)
Lemma job_display_name_length raw nonce namespace :
  (String.length (job_display_name raw nonce namespace) ≤ 29 + String.length nonce)%nat.
Proof.
  unfold job_display_name. set (slug := slugify raw 28).
  assert (Hs : (String.length slug ≤ 28)%nat) by apply slugify_shaped.
  set (slug' := if is_empty namespace then slug else _).
  assert (Hs' : (String.length slug' ≤ 28)%nat).
  { subst slug'. destruct (is_empty namespace); [done |].
    destruct (strip_prefix (namespace +:+ "-") slug) as [r|] eqn:E; [| done]. simpl.
    apply strip_prefix_Some in E. rewrite E, string_length_app in Hs. lia. }
  destruct (is_empty slug'); [lia |]. rewrite string_length_app. simpl. lia.
Qed.

Local Close Scope string_scope.
