(* ===== verification/Vars.v ===== *)
(** Template variables: [crates/engine/src/vars.rs] and
    [crates/runbook/src/template.rs], and the durations of runbooks
    ([parse_duration] of [crates/engine/src/monitor.rs]).

    Regular expressions are a third-party crate: the class [TemplateRegex]
    stands for [replace_all] with the two patterns of the source. *)

From S2P Require Import Prelude Bytes Slug.

Local Open Scope string_scope.

(** ** Namespaces *)

Definition SCOPE_PREFIXES : list string :=
  ["var."; "invoke."; "workspace."; "local."; "args."; "item."].

Definition has_scope_prefix (key : string) : bool :=
  existsb (λ p, starts_with p key) SCOPE_PREFIXES.

Definition namespaced (key : string) : string :=
  if has_scope_prefix key then key else "var." +:+ key.

(** [collect] inserts in the order of the iteration; a later pair with the
    same key wins. *)
Definition namespace_vars (env : Env) (input : gmap string string) : gmap string string :=
  foldl (λ m k, match input !! k with
                | Some v => <[namespaced k := v]> m
                | None => m
                end) ∅ (iter_order env TVars (dom input)).

(** ** Templates *)

Definition dquote : ascii := "034"%char.

Definition escape_char (c : ascii) : string :=
  if Ascii.eqb c "\"%char then "\\"
  else if Ascii.eqb c "$"%char then "\$"
  else if Ascii.eqb c "`"%char then "\`"
  else if Ascii.eqb c dquote then String "\"%char (String dquote EmptyString)
  else String c EmptyString.

Fixpoint escape_for_shell (s : string) : string :=
  match s with
  | EmptyString => EmptyString
  | String c s' => escape_char c +:+ escape_for_shell s'
  end.

(** [s.chars().skip(n).collect()]: a character is a byte that does not
    continue one, with the continuation bytes after it. *)
Fixpoint drop_cont (s : string) : string :=
  match s with
  | String a s' => if is_cont a then drop_cont s' else s
  | EmptyString => EmptyString
  end.

Fixpoint skip_chars (n : nat) (s : string) : string :=
  match n, s with
  | S n', String _ s' => skip_chars n' (drop_cont s')
  | _, _ => s
  end.

(** The bytes of the first [n] characters. *)
Fixpoint take_chars (n : nat) (s : string) : string :=
  match s with
  | EmptyString => EmptyString
  | String a s' =>
      if is_cont a then String a (take_chars n s')
      else match n with
           | O => EmptyString
           | S n' => String a (take_chars n' s')
           end
  end.

(** [str::parse] to a 64-bit unsigned integer: an optional plus sign and at
    least one decimal digit, in range. *)
Definition digit (a : ascii) : option Z :=
  if in_range 48 57 a then Some (Z.of_N (byte a) - 48)%Z else None.

Fixpoint digits (acc : Z) (s : string) : option Z :=
  match s with
  | EmptyString => Some acc
  | String a s' =>
      match digit a with
      | Some d =>
          let acc := (acc * 10 + d)%Z in
          if (acc <? 2 ^ 64)%Z then digits acc s' else None
      | None => None
      end
  end.

Definition parse_u64 (s : string) : option Z :=
  let s := match s with
           | String a s' => if Ascii.eqb a "+"%char then s' else s
           | EmptyString => s
           end in
  if is_empty s then None else digits 0 s.

(** [replace_all] with [ENV_PATTERN], from the name and the default, and with
    [VAR_PATTERN], from the whole match, the name, the offset and the length. *)
Class TemplateRegex := {
  replace_env : (string → string → string) → string → string;
  replace_var : (string → string → option string → option string → string) → string → string
}.

(** [std::env::var]. *)
Definition EnvVars := string → option string.

Definition interpolate_inner `{TemplateRegex} (env_var : EnvVars) (template : string)
    (vars : gmap string string) (shell_escape : bool) : string :=
  let result := replace_env (λ var_name default_value,
                  default default_value (env_var var_name)) template in
  replace_var (λ whole name offset length,
    let offset := offset ≫= parse_u64 in
    let length := length ≫= parse_u64 in
    match vars !! name with
    | Some val =>
        let val := match offset, length with
                   | Some s, Some l => take_chars (Z.to_nat l) (skip_chars (Z.to_nat s) val)
                   | Some s, None => skip_chars (Z.to_nat s) val
                   | None, _ => val
                   end in
        if shell_escape then escape_for_shell val else val
    | None => whole
    end) result.

Definition interpolate `{TemplateRegex} env_var template vars : string :=
  interpolate_inner env_var template vars false.

Definition interpolate_shell `{TemplateRegex} env_var template vars : string :=
  interpolate_inner env_var template vars true.

(** ** Durations, in nanoseconds *)

Fixpoint split_digits (s : string) : string * string :=
  match s with
  | String a s' =>
      if in_range 48 57 a then let '(l, r) := split_digits s' in (String a l, r)
      else (EmptyString, s)
  | EmptyString => (EmptyString, EmptyString)
  end.

Definition multiplier (suffix : string) : option Z :=
  if existsb (String.eqb suffix) [""; "s"; "sec"; "secs"; "second"; "seconds"] then Some 1%Z
  else if existsb (String.eqb suffix) ["m"; "min"; "mins"; "minute"; "minutes"] then Some 60%Z
  else if existsb (String.eqb suffix) ["h"; "hr"; "hrs"; "hour"; "hours"] then Some 3600%Z
  else if existsb (String.eqb suffix) ["d"; "day"; "days"] then Some 86400%Z
  else None.

Definition is_millis (suffix : string) : bool :=
  existsb (String.eqb suffix) ["ms"; "millis"; "millisecond"; "milliseconds"].

(** The product [num * multiplier] wraps. *)
Definition parse_duration (s : string) : string + Z :=
  let s := trim s in
  if is_empty s then inl "empty duration string"
  else
    let '(num_str, suffix) := split_digits s in
    match parse_u64 num_str with
    | None => inl ("invalid number in duration: " +:+ s)
    | Some num =>
        let suffix := trim suffix in
        if is_millis suffix then inr (num * 1000000)%Z
        else match multiplier suffix with
             | Some m => inr (u64_wrap (num * m) * 1000000000)%Z
             | None => inl ("unknown duration suffix: " +:+ suffix)
             end
    end.

Local Close Scope string_scope.

(** What the template functions promise: shell escaping cannot be broken out
    of, variables end up in a namespace, durations are read exactly unless
    they overflow. *)

Local Open Scope string_scope.

(** ** A double-quoted string, as a POSIX shell reads it

    The text after an opening quote: its value up to the closing quote and
    what comes after.  A backslash quotes a backslash, a dollar sign, a
    backquote, a double quote and a newline (which is then dropped) and stands
    for itself before anything else.  [None] if the quote is never closed or if
    an expansion starts. *)
Fixpoint dq_read (s : string) : option (string * string) :=
  match s with
  | EmptyString => None
  | String c s1 =>
      if Ascii.eqb c dquote then Some (EmptyString, s1)
      else if Ascii.eqb c "$"%char || Ascii.eqb c "`"%char then None
      else if Ascii.eqb c "\"%char then
        match s1 with
        | EmptyString => None
        | String d s2 =>
            match dq_read s2 with
            | Some (v, rest) =>
                if Ascii.eqb d newline then Some (v, rest)
                else if existsb (Ascii.eqb d) ["\"; "$"; "`"; dquote]%char
                then Some (String d v, rest)
                else Some (String c (String d v), rest)
            | None => None
            end
        end
      else match dq_read s1 with
           | Some (v, rest) => Some (String c v, rest)
           | None => None
           end
  end.

Lemma dq_read_escaped c s v rest :
  dq_read s = Some (v, rest) → dq_read (escape_char c +:+ s) = Some (String c v, rest).
Proof.
  intros H. unfold escape_char.
  destruct (Ascii.eqb_spec c "\"%char) as [->|H1]; [simpl; by rewrite H |].
  destruct (Ascii.eqb_spec c "$"%char) as [->|H2]; [simpl; by rewrite H |].
  destruct (Ascii.eqb_spec c "`"%char) as [->|H3]; [simpl; by rewrite H |].
  destruct (Ascii.eqb_spec c dquote) as [->|H4]; [simpl; by rewrite H |].
  apply Ascii.eqb_neq in H1, H2, H3, H4. simpl. by rewrite H4, H2, H3, H1, H.
Qed.

(** Between double quotes, an escaped value reads back as the value: the
    shell sees no expansion and no quote that closes early, whatever the value
    holds and whatever follows. *)
Theorem escaped_value_reads_back (value rest : string) :
  dq_read (escape_for_shell value +:+ String dquote rest) = Some (value, rest).
Proof.
  induction value as [|c s IH]; [done |]. simpl. rewrite string_app_assoc.
  by apply dq_read_escaped.
Qed.

(** ** Namespaces *)

Section namespace.
Implicit Types (m : gmap string string).

(** One pair of the iteration. *)
Definition ns_step m (acc : gmap string string) (k : string) : gmap string string :=
  match m !! k with Some v => <[namespaced k := v]> acc | None => acc end.

Lemma starts_with_var k : has_scope_prefix ("var." +:+ k) = true.
Proof. apply existsb_exists. exists "var.". split; [by left | apply starts_with_app]. Qed.

Lemma namespaced_scoped k : has_scope_prefix (namespaced k) = true.
Proof.
  unfold namespaced. destruct (has_scope_prefix k) eqn:E; [done | apply starts_with_var].
Qed.

(** Every entry comes from a pair that was visited. *)
Lemma ns_foldl_sound m l k v :
  foldl (ns_step m) ∅ l !! k = Some v → ∃ k0, k0 ∈ l ∧ m !! k0 = Some v ∧ namespaced k0 = k.
Proof.
  induction l as [|x l IH] using rev_ind; simpl; [by rewrite lookup_empty |].
  rewrite foldl_snoc. unfold ns_step at 1. intros H.
  destruct (m !! x) as [w|] eqn:Hx.
  - rewrite lookup_insert_Some in H. destruct H as [[<- ->]|[_ H]]; [exists x; set_solver |].
    destruct (IH H) as (k0 & ? & ? & ?). exists k0. set_solver.
  - destruct (IH H) as (k0 & ? & ? & ?). exists k0. set_solver.
Qed.

(** A pair whose namespaced key no other pair has is in the result. *)
Lemma ns_foldl_complete m l k v :
  k ∈ l → m !! k = Some v →
  (∀ k', k' ∈ l → is_Some (m !! k') → namespaced k' = namespaced k → k' = k) →
  foldl (ns_step m) ∅ l !! namespaced k = Some v.
Proof.
  intros Hin Hk Hu. induction l as [|x l IH] using rev_ind; [by apply not_elem_of_nil in Hin |].
  rewrite foldl_snoc. unfold ns_step at 1.
  destruct (decide (x = k)) as [->|Hne]; [by rewrite Hk, lookup_insert_eq |].
  assert (foldl (ns_step m) ∅ l !! namespaced k = Some v) as Hl.
  { apply IH; [| intros; apply Hu; set_solver].
    apply elem_of_app in Hin as [?|?%list_elem_of_singleton]; [done | congruence]. }
  destruct (m !! x) as [w|] eqn:Hx; [| done].
  rewrite lookup_insert_ne; [done |]. intros Heq. apply Hne, Hu; [set_solver | by eexists | done].
Qed.
End namespace.

Lemma iter_order_in env t (X : gset string) k : k ∈ iter_order env t X ↔ k ∈ X.
Proof. rewrite (iter_order_perm env t X). apply elem_of_elements. Qed.

Lemma iter_vars_in env (m : gmap string string) k :
  k ∈ iter_order env TVars (dom m) ↔ is_Some (m !! k).
Proof. by rewrite iter_order_in, elem_of_dom. Qed.

(** Namespacing puts every variable under a scope and invents none; a
    variable is found under its namespaced key unless another one has the same
    (as ["x"] and ["var.x"] do, where the order of the iteration decides); and
    doing it again changes nothing, in whatever order. *)
Theorem namespace_vars_scopes env (input : gmap string string) :
  (∀ k v, namespace_vars env input !! k = Some v →
     has_scope_prefix k = true ∧ ∃ k0, input !! k0 = Some v ∧ namespaced k0 = k) ∧
  (∀ k v, input !! k = Some v →
     (∀ k', is_Some (input !! k') → namespaced k' = namespaced k → k' = k) →
     namespace_vars env input !! namespaced k = Some v) ∧
  ∀ env', namespace_vars env' (namespace_vars env input) = namespace_vars env input.
Proof.
  assert (∀ e m k v, namespace_vars e m !! k = Some v →
    has_scope_prefix k = true ∧ ∃ k0, m !! k0 = Some v ∧ namespaced k0 = k) as Hs.
  { intros e m k v (k0 & _ & ? & <-)%ns_foldl_sound. split; [apply namespaced_scoped | eauto]. }
  assert (∀ e m k v, m !! k = Some v →
    (∀ k', is_Some (m !! k') → namespaced k' = namespaced k → k' = k) →
    namespace_vars e m !! namespaced k = Some v) as Hc.
  { intros e m k v Hk Hu. apply ns_foldl_complete; [by apply iter_vars_in; eexists | done |].
    intros; by apply Hu. }
  split_and!; [apply Hs | apply Hc |]. intros env'.
  set (m := namespace_vars env input).
  assert (∀ k, is_Some (m !! k) → namespaced k = k) as Hfix.
  { intros k [v (Hp & _)%Hs]. unfold namespaced. by rewrite Hp. }
  apply map_eq. intros k. apply option_eq. intros v. split.
  - intros (_ & k0 & Hk0 & <-)%Hs. by rewrite Hfix by eauto.
  - intros Hk. rewrite <- (Hfix k) by eauto. apply Hc; [done |].
    intros k' Hk' Heq. rewrite !Hfix in Heq; eauto.
Qed.

(** ** Durations *)

(** A printable ASCII character, not a space. *)
Definition plain (a : ascii) : bool := in_range 33 126 a.

Definition all_plain : string → bool := all_chars plain.

Lemma all_plain_rev s : all_plain (rev_str s) = all_plain s.
Proof.
  unfold all_plain. induction s as [|a s IH]; simpl; [done |].
  rewrite all_chars_app, IH. simpl. by rewrite andb_true_r, andb_comm.
Qed.

Lemma plain_range a : plain a = true → (33 ≤ byte a ≤ 126)%N.
Proof. unfold plain, in_range. intros [?%N.leb_le ?%N.leb_le]%andb_true_iff. lia. Qed.

Lemma in_range_false lo hi a : (byte a < lo ∨ hi < byte a)%N → in_range lo hi a = false.
Proof. unfold in_range. intros H. apply andb_false_iff. rewrite !N.leb_gt. lia. Qed.

Lemma ws_prefix_plain a s : plain a = true → ws_prefix (String a s) = 0.
Proof.
  intros H%plain_range. simpl. rewrite in_range_false by lia.
  repeat match goal with |- context [(byte a =? ?n)%N] =>
    replace (byte a =? n)%N with false by (symmetry; apply N.eqb_neq; lia) end.
  simpl. by destruct s as [|b [|c s]].
Qed.

Lemma ws_suffix_plain a s : plain a = true → ws_suffix (String a s) = 0.
Proof.
  intros H. pose proof (plain_range _ H) as Hr.
  assert (∀ b, Nat.eqb (ws_prefix (String b (String a EmptyString))) 2 = false) as H2.
  { intros b. simpl. destruct (in_range 9 13 b || _); [done |].
    repeat match goal with |- context [(byte a =? ?n)%N] =>
      replace (byte a =? n)%N with false by (symmetry; apply N.eqb_neq; lia) end.
    by rewrite andb_false_r. }
  assert (∀ b c, Nat.eqb (ws_prefix (String c (String b (String a EmptyString)))) 3 = false) as H3.
  { intros b c. simpl. destruct (in_range 9 13 c || _); [done |].
    destruct ((byte c =? 194)%N && _); [done |].
    rewrite (in_range_false 128 138 a) by lia.
    repeat match goal with |- context [(byte a =? ?n)%N] =>
      replace (byte a =? n)%N with false by (symmetry; apply N.eqb_neq; lia) end.
    by rewrite !andb_false_r. }
  unfold ws_suffix. rewrite in_range_false by lia.
  replace (byte a =? 32)%N with false by (symmetry; apply N.eqb_neq; lia). simpl orb.
  cbn iota. destruct s as [|b [|c s]]; rewrite ?H2, ?H3; done.
Qed.

Lemma trim_plain s : all_plain s = true → trim s = s.
Proof.
  intros H. unfold trim.
  assert (trim_start s = s) as ->.
  { destruct s as [|a s]; [done |]. apply andb_true_iff in H as [Ha _].
    by apply drop_ws_zero, ws_prefix_plain. }
  unfold trim_end. rewrite drop_ws_zero; [apply rev_str_involutive |].
  rewrite <- all_plain_rev in H. destruct (rev_str s) as [|a r]; [done |].
  apply andb_true_iff in H as [Ha _]. by apply ws_suffix_plain.
Qed.

(** Reading digits back. *)
Lemma digit_char d : (d < 10)%N →
  digit (pretty_N_char d) = Some (Z.of_N d) ∧ plain (pretty_N_char d) = true ∧
  in_range 48 57 (pretty_N_char d) = true.
Proof.
  intros H. assert (d = 0 ∨ d = 1 ∨ d = 2 ∨ d = 3 ∨ d = 4 ∨ d = 5 ∨ d = 6 ∨ d = 7 ∨ d = 8 ∨
    d = 9)%N as Hd by lia.
  by destruct_or! Hd; subst d.
Qed.

Lemma digits_go x s :
  (x < 2 ^ 64)%N → digits 0 (pretty_N_go x s) = digits (Z.of_N x) s.
Proof.
  revert s. induction (N.lt_wf_0 x) as [x _ IH]. intros s Hx.
  destruct (decide (x = 0)%N) as [->|Hne]; [by rewrite pretty_N_go_0 |].
  rewrite pretty_N_go_step by lia.
  assert (x `div` 10 < x)%N by (apply N.div_lt; lia).
  rewrite IH by lia. cbn [digits].
  destruct (digit_char (x `mod` 10)) as [-> _]; [by apply N.mod_lt |].
  rewrite N2Z.inj_div, N2Z.inj_mod. change (Z.of_N 10) with 10%Z.
  replace (Z.of_N x `div` 10 * 10 + Z.of_N x `mod` 10)%Z with (Z.of_N x)
    by (pose proof (Z.div_mod (Z.of_N x) 10); lia).
  cbv zeta. by replace (Z.of_N x <? 2 ^ 64)%Z with true by lia.
Qed.

Lemma all_chars_go p x s :
  (∀ d, (d < 10)%N → p (pretty_N_char d) = true) → all_chars p s = true →
  all_chars p (pretty_N_go x s) = true.
Proof.
  intros Hp. revert s. induction (N.lt_wf_0 x) as [x _ IH]. intros s Hs.
  destruct (decide (x = 0)%N) as [->|Hne]; [by rewrite pretty_N_go_0 |].
  rewrite pretty_N_go_step by lia. apply IH; [apply N.div_lt; lia |]. simpl.
  rewrite Hp, Hs; [done | by apply N.mod_lt].
Qed.

Lemma go_non_empty x a s : pretty_N_go x (String a s) ≠ EmptyString.
Proof.
  revert a s. induction (N.lt_wf_0 x) as [x _ IH]. intros a s.
  destruct (decide (x = 0)%N) as [->|Hne]; [by rewrite pretty_N_go_0 |].
  rewrite pretty_N_go_step by lia. apply IH, N.div_lt; lia.
Qed.

Definition decimal : ascii → bool := in_range 48 57.

(** The decimal text of a number, read with [parse]. *)
Lemma pretty_decimal (n : N) :
  (n < 2 ^ 64)%N →
  all_chars decimal (pretty n) = true ∧ all_plain (pretty n) = true ∧
  is_empty (pretty n) = false ∧ parse_u64 (pretty n) = Some (Z.of_N n).
Proof.
  intros Hn. unfold pretty, pretty_N. destruct (decide (n = 0)%N) as [->|Hne]; [done |].
  assert (∃ a s, pretty_N_go n "" = String a s) as (a & s & Hgo).
  { rewrite pretty_N_go_step by lia.
    destruct (pretty_N_go _ _) as [|a s] eqn:E; [by apply go_non_empty in E | eauto]. }
  assert (all_chars decimal (pretty_N_go n "") = true) as Hdec.
  { apply all_chars_go; [| done]. intros d Hd. by apply digit_char. }
  pose proof (digits_go n "" Hn) as Hd. simpl in Hd.
  split_and!; [done | | by rewrite Hgo |].
  { apply all_chars_go; [| done]. intros d Hlt. by apply digit_char. }
  unfold parse_u64. rewrite Hgo in *. simpl in Hdec.
  destruct (Ascii.eqb_spec a "+"%char) as [->|]; [done |]. by rewrite <- Hd.
Qed.

Lemma split_digits_app l s :
  all_chars decimal l = true →
  match s with EmptyString => true | String a _ => negb (decimal a) end = true →
  split_digits (l +:+ s) = (l, s).
Proof.
  intros Hl Hs. induction l as [|a l IH]; simpl in *.
  - destruct s as [|a s]; [done |]. simpl. apply negb_true_iff in Hs. unfold decimal in Hs.
    by rewrite Hs.
  - apply andb_true_iff in Hl as [Ha Hl]. unfold decimal in Ha. rewrite Ha. by rewrite IH.
Qed.

Lemma multiplier_plain unit m :
  multiplier unit = Some m →
  (0 < m)%Z ∧ all_plain unit = true ∧ is_millis unit = false ∧
  match unit with EmptyString => true | String a _ => negb (decimal a) end = true.
Proof.
  unfold multiplier. intros H.
  repeat match type of H with
  | (if ?b then _ else _) = _ => destruct b eqn:?
  end; simplify_eq;
    match goal with Hb : existsb _ _ = true |- _ =>
      apply existsb_exists in Hb as (u & Hin & ->%String.eqb_eq); simpl in Hin;
      by destruct_or! Hin; subst
    end.
Qed.

Lemma is_empty_app_l a b : is_empty a = false → is_empty (a +:+ b) = false.
Proof. by destruct a. Qed.

(** A duration is the number times its unit, and it is exact as long as it
    fits 64 bits of seconds; beyond that the product has wrapped around and
    the duration is shorter than the one asked for. *)
Theorem parse_duration_reads (n : N) unit m :
  (n < 2 ^ 64)%N → multiplier unit = Some m →
  ∃ secs, parse_duration (pretty n +:+ unit) = inr (secs * 1000000000)%Z ∧
    ((Z.of_N n * m < 2 ^ 64)%Z → secs = (Z.of_N n * m)%Z) ∧
    ((2 ^ 64 ≤ Z.of_N n * m)%Z → (secs < Z.of_N n * m)%Z).
Proof.
  intros Hn Hm. destruct (multiplier_plain unit m Hm) as (Hpos & Hplain & Hms & Hstart).
  destruct (pretty_decimal n Hn) as (Hdec & Hp & Hne & Hparse).
  exists (u64_wrap (Z.of_N n * m)). split.
  - unfold parse_duration. rewrite trim_plain.
    2: { unfold all_plain in *. by rewrite all_chars_app, Hp, Hplain. }
    rewrite is_empty_app_l by done. rewrite split_digits_app by done.
    rewrite Hparse. cbv zeta. by rewrite trim_plain, Hms, Hm.
  - pose proof (u64_wrap_range (Z.of_N n * m)) as Hr. unfold is_u64 in Hr. split; [| lia].
    intros H. apply u64_wrap_small. unfold is_u64. lia.
Qed.

Lemma parse_duration_reads_witness :
  ∃ secs, parse_duration "307445734561825861m" = inr (secs * 1000000000)%Z ∧
    (secs < 307445734561825861 * 60)%Z.
Proof.
  destruct (parse_duration_reads 307445734561825861 "m" 60) as (secs & H & _ & Hlt);
    [lia | reflexivity |].
  exists secs. split; [exact H | apply Hlt; lia].
Defined.

Local Close Scope string_scope.
