(* ===== verification/Entities.v ===== *)
(** The entities beside jobs: agent states and records, action tracking,
    standalone agent runs, decisions and workspaces ([crates/core/src/agent.rs],
    [agent_record.rs], [action_tracker.rs], [agent_run.rs], [decision.rs],
    [workspace.rs]). *)

From S2P Require Import Prelude Ids.

Local Open Scope string_scope.

(** ** Agents *)

Inductive AgentError :=
  | Unauthorized
  | OutOfCredits
  | NoInternet
  | RateLimited
  | OtherError (msg : string).

Inductive AgentState :=
  | AgentState_Working
  | AgentState_WaitingForInput
  | AgentState_Failed (error : AgentError)
  | AgentState_Exited (exit_code : option Z)
  | AgentState_SessionGone.

Definition AgentError_display (e : AgentError) : string :=
  match e with
  | Unauthorized => "unauthorized"
  | OutOfCredits => "out of credits"
  | NoInternet => "no internet connection"
  | RateLimited => "rate limited"
  | OtherError msg => msg
  end.

Definition AgentState_display (s : AgentState) : string :=
  match s with
  | AgentState_Working => "working"
  | AgentState_WaitingForInput => "waiting for input"
  | AgentState_Failed reason => "failed: " +:+ AgentError_display reason
  | AgentState_Exited (Some code) => "exited with code " +:+ pretty code
  | AgentState_Exited None => "exited"
  | AgentState_SessionGone => "session gone"
  end.

(** ** Agent records *)

Inductive AgentRecordStatus :=
  | Record_Starting | Record_Running | Record_Idle | Record_Exited | Record_Gone.

Definition AgentRecordStatus_display (s : AgentRecordStatus) : string :=
  match s with
  | Record_Starting => "starting"
  | Record_Running => "running"
  | Record_Idle => "idle"
  | Record_Exited => "exited"
  | Record_Gone => "gone"
  end.

Record AgentRecord := mkAgentRecord {
  rec_agent_id : string;
  rec_agent_name : string;
  rec_owner : OwnerId;
  rec_namespace : string;
  rec_workspace_path : PathBuf;
  rec_session_id : option string;
  rec_status : AgentRecordStatus;
  rec_created_at_ms : Z;
  rec_updated_at_ms : Z
}.

(** ** Action tracking *)

Inductive AgentSignalKind := Signal_Complete | Signal_Escalate | Signal_Continue.

Record AgentSignal := mkAgentSignal {
  signal_kind : AgentSignalKind;
  signal_message : option string
}.

Record ActionTracker := mkActionTracker {
  action_attempts : gmap string Z;
  agent_signal : option AgentSignal
}.

Definition ActionTracker_default : ActionTracker := mkActionTracker ∅ None.

(** The map key of an action: ["trigger:chain_pos"]. *)
Definition action_key (trigger : string) (chain_pos : N) : string :=
  trigger +:+ ":" +:+ pretty chain_pos.

(** Increment the count of an action; the new count is returned. *)
Definition ActionTracker_increment_action_attempt (t : ActionTracker)
    (trigger : string) (chain_pos : N) : Z * ActionTracker :=
  let key := action_key trigger chain_pos in
  let count := (default 0%Z (action_attempts t !! key) +u32 1)%oj in
  (count, mkActionTracker (<[key := count]> (action_attempts t)) (agent_signal t)).

Definition ActionTracker_get_action_attempt (t : ActionTracker)
    (trigger : string) (chain_pos : N) : Z :=
  default 0%Z (action_attempts t !! action_key trigger chain_pos).

Definition ActionTracker_reset_action_attempts (t : ActionTracker) : ActionTracker :=
  mkActionTracker ∅ (agent_signal t).

Definition ActionTracker_clear_agent_signal (t : ActionTracker) : ActionTracker :=
  mkActionTracker (action_attempts t) None.

Definition ActionTracker_set_agent_signal (s : AgentSignal) (t : ActionTracker) : ActionTracker :=
  mkActionTracker (action_attempts t) (Some s).

(** ** Agent runs *)

Inductive AgentRunStatus :=
  | Run_Starting | Run_Running | Run_Waiting | Run_Completed | Run_Failed | Run_Escalated.

Definition AgentRunStatus_is_terminal (s : AgentRunStatus) : bool :=
  match s with Run_Completed | Run_Failed => true | _ => false end.

Definition AgentRunStatus_display (s : AgentRunStatus) : string :=
  match s with
  | Run_Starting => "starting"
  | Run_Running => "running"
  | Run_Waiting => "waiting"
  | Run_Completed => "completed"
  | Run_Failed => "failed"
  | Run_Escalated => "escalated"
  end.

Record AgentRun := mkAgentRun {
  run_id : string;
  run_agent_name : string;
  run_command_name : string;
  run_namespace : string;
  run_cwd : PathBuf;
  run_runbook_hash : string;
  run_status : AgentRunStatus;
  run_agent_id : option string;
  run_session_id : option string;
  run_error : option string;
  run_created_at_ms : Z;
  run_updated_at_ms : Z;
  run_action_tracker : ActionTracker;
  run_vars : gmap string string;
  run_idle_grace_log_size : option Z;
  run_last_nudge_at : option Z
}.

Definition AgentRun_is_terminal (r : AgentRun) : bool :=
  AgentRunStatus_is_terminal (run_status r).

(** Field updates of an [AgentRun], as the [get_mut] borrows of the code
    make them. *)
Definition run_update (r : AgentRun) (status : AgentRunStatus)
    (agent_id session_id error : option string) (updated_at_ms : Z)
    (tracker : ActionTracker) : AgentRun :=
  mkAgentRun (run_id r) (run_agent_name r) (run_command_name r) (run_namespace r)
    (run_cwd r) (run_runbook_hash r) status agent_id session_id error
    (run_created_at_ms r) updated_at_ms tracker (run_vars r)
    (run_idle_grace_log_size r) (run_last_nudge_at r).

Definition run_set_status (v : AgentRunStatus) (r : AgentRun) : AgentRun :=
  run_update r v (run_agent_id r) (run_session_id r) (run_error r)
    (run_updated_at_ms r) (run_action_tracker r).

Definition run_set_session_id (v : option string) (r : AgentRun) : AgentRun :=
  run_update r (run_status r) (run_agent_id r) v (run_error r)
    (run_updated_at_ms r) (run_action_tracker r).

Definition run_set_action_tracker (v : ActionTracker) (r : AgentRun) : AgentRun :=
  run_update r (run_status r) (run_agent_id r) (run_session_id r) (run_error r)
    (run_updated_at_ms r) v.

Definition run_set_error (v : option string) (r : AgentRun) : AgentRun :=
  run_update r (run_status r) (run_agent_id r) (run_session_id r) v
    (run_updated_at_ms r) (run_action_tracker r).

Definition run_set_idle_grace_log_size (v : option Z) (r : AgentRun) : AgentRun :=
  mkAgentRun (run_id r) (run_agent_name r) (run_command_name r) (run_namespace r)
    (run_cwd r) (run_runbook_hash r) (run_status r) (run_agent_id r) (run_session_id r)
    (run_error r) (run_created_at_ms r) (run_updated_at_ms r) (run_action_tracker r)
    (run_vars r) v (run_last_nudge_at r).

Definition run_set_last_nudge_at (v : option Z) (r : AgentRun) : AgentRun :=
  mkAgentRun (run_id r) (run_agent_name r) (run_command_name r) (run_namespace r)
    (run_cwd r) (run_runbook_hash r) (run_status r) (run_agent_id r) (run_session_id r)
    (run_error r) (run_created_at_ms r) (run_updated_at_ms r) (run_action_tracker r)
    (run_vars r) (run_idle_grace_log_size r) v.

Definition AgentRun_increment_action_attempt (r : AgentRun)
    (trigger : string) (chain_pos : N) : Z * AgentRun :=
  let '(count, t) :=
    ActionTracker_increment_action_attempt (run_action_tracker r) trigger chain_pos in
  (count, run_set_action_tracker t r).

Definition AgentRun_reset_action_attempts (r : AgentRun) : AgentRun :=
  run_set_action_tracker (ActionTracker_reset_action_attempts (run_action_tracker r)) r.

Definition AgentRun_clear_agent_signal (r : AgentRun) : AgentRun :=
  run_set_action_tracker (ActionTracker_clear_agent_signal (run_action_tracker r)) r.

(** ** Decisions *)

Inductive DecisionSource :=
  | Source_Question | Source_Approval | Source_Gate | Source_Error | Source_Idle.

(** [{:?}] of a decision source. *)
Definition DecisionSource_debug (s : DecisionSource) : string :=
  match s with
  | Source_Question => "Question"
  | Source_Approval => "Approval"
  | Source_Gate => "Gate"
  | Source_Error => "Error"
  | Source_Idle => "Idle"
  end.

Record DecisionOption := mkDecisionOption {
  option_label : string;
  option_description : option string;
  option_recommended : bool
}.

Definition DecisionOption_new (label : string) : DecisionOption :=
  mkDecisionOption label None false.

Definition DecisionOption_set_description (desc : string) (o : DecisionOption) : DecisionOption :=
  mkDecisionOption (option_label o) (Some desc) (option_recommended o).

Definition DecisionOption_set_recommended (o : DecisionOption) : DecisionOption :=
  mkDecisionOption (option_label o) (option_description o) true.

Record Decision := mkDecision {
  decision_id : DecisionId;
  decision_job_id : string;
  decision_agent_id : option string;
  decision_owner : OwnerId;
  decision_source : DecisionSource;
  decision_context : string;
  decision_options : list DecisionOption;
  decision_chosen : option N;
  decision_message : option string;
  decision_created_at_ms : Z;
  decision_resolved_at_ms : option Z;
  decision_superseded_by : option DecisionId;
  decision_namespace : string
}.

Definition is_some {A} (o : option A) : bool :=
  match o with Some _ => true | None => false end.

Definition Decision_is_resolved (d : Decision) : bool := is_some (decision_resolved_at_ms d).

(** ** Workspaces *)

Inductive WorkspaceStatus :=
  | Workspace_Creating
  | Workspace_Ready
  | Workspace_InUse (by_ : string)
  | Workspace_Cleaning
  | Workspace_Failed (reason : string).

Definition WorkspaceStatus_display (s : WorkspaceStatus) : string :=
  match s with
  | Workspace_Creating => "creating"
  | Workspace_Ready => "ready"
  | Workspace_InUse b => "in_use(" +:+ b +:+ ")"
  | Workspace_Cleaning => "cleaning"
  | Workspace_Failed reason => "failed: " +:+ reason
  end.

(** ** Decidable equality *)

#[export] Instance AgentError_eq_dec : EqDecision AgentError.
Proof. solve_decision. Defined.
#[export] Instance AgentSignalKind_eq_dec : EqDecision AgentSignalKind.
Proof. solve_decision. Defined.
#[export] Instance AgentRunStatus_eq_dec : EqDecision AgentRunStatus.
Proof. solve_decision. Defined.
#[export] Instance AgentRecordStatus_eq_dec : EqDecision AgentRecordStatus.
Proof. solve_decision. Defined.
#[export] Instance WorkspaceStatus_eq_dec : EqDecision WorkspaceStatus.
Proof. solve_decision. Defined.

(** ** Lemmas *)

Lemma action_key_inj t p t' p' :
  has_char ":" t = false → has_char ":" t' = false →
  action_key t p = action_key t' p' → t = t' ∧ p = p'.
Proof.
  unfold action_key. intros Ht Ht' Heq.
  pose proof (split_once_app ":"%char t (pretty p) Ht) as E.
  change (t +:+ String ":"%char (pretty p)) with (t +:+ ":" +:+ pretty p) in E.
  rewrite Heq in E.
  change (t' +:+ ":" +:+ pretty p') with (t' +:+ String ":"%char (pretty p')) in E.
  rewrite split_once_app in E by done. injection E as -> Hp.
  split; [done |]. by apply (inj pretty) in Hp.
Qed.

(** The count read back after an increment is the one returned, and other
    actions keep theirs. *)
Lemma get_increment_same t trigger pos :
  let '(n, t') := ActionTracker_increment_action_attempt t trigger pos in
  ActionTracker_get_action_attempt t' trigger pos = n ∧
  n = (ActionTracker_get_action_attempt t trigger pos +u32 1)%oj.
Proof.
  unfold ActionTracker_get_action_attempt. simpl. by rewrite lookup_insert_eq.
Qed.

Lemma get_increment_other t trigger pos trigger' pos' :
  action_key trigger pos ≠ action_key trigger' pos' →
  ActionTracker_get_action_attempt
    (ActionTracker_increment_action_attempt t trigger pos).2 trigger' pos' =
  ActionTracker_get_action_attempt t trigger' pos'.
Proof.
  intros Hne. unfold ActionTracker_get_action_attempt. simpl.
  by rewrite lookup_insert_ne.
Qed.
