(* ===== verification/Job.v ===== *)
(** Jobs and their step history: [crates/core/src/job.rs]. *)

From S2P Require Import Prelude Ids Entities.

Local Open Scope string_scope.

(** ** Step statuses and outcomes *)

Inductive StepStatus :=
  | Pending
  | Running
  | Waiting (decision_id : option string)
  | Completed
  | Failed.

Definition StepStatus_is_waiting (s : StepStatus) : bool :=
  match s with Waiting _ => true | _ => false end.

Definition StepStatus_display (s : StepStatus) : string :=
  match s with
  | Pending => "pending"
  | Running => "running"
  | Waiting _ => "waiting"
  | Completed => "completed"
  | Failed => "failed"
  end.

Inductive StepOutcome :=
  | Outcome_Running
  | Outcome_Completed
  | Outcome_Failed (error : string)
  | Outcome_Waiting (reason : string).

Inductive StepStatusKind :=
  | Kind_Pending | Kind_Running | Kind_Waiting | Kind_Completed | Kind_Failed | Kind_Orphaned.

Definition StepStatusKind_from (s : StepStatus) : StepStatusKind :=
  match s with
  | Pending => Kind_Pending
  | Running => Kind_Running
  | Waiting _ => Kind_Waiting
  | Completed => Kind_Completed
  | Failed => Kind_Failed
  end.

Definition StepStatusKind_display (s : StepStatusKind) : string :=
  match s with
  | Kind_Pending => "pending"
  | Kind_Running => "running"
  | Kind_Waiting => "waiting"
  | Kind_Completed => "completed"
  | Kind_Failed => "failed"
  | Kind_Orphaned => "orphaned"
  end.

Inductive StepOutcomeKind :=
  | OutcomeKind_Running | OutcomeKind_Completed | OutcomeKind_Failed | OutcomeKind_Waiting.

Definition StepOutcomeKind_from (o : StepOutcome) : StepOutcomeKind :=
  match o with
  | Outcome_Running => OutcomeKind_Running
  | Outcome_Completed => OutcomeKind_Completed
  | Outcome_Failed _ => OutcomeKind_Failed
  | Outcome_Waiting _ => OutcomeKind_Waiting
  end.

Definition StepOutcomeKind_display (o : StepOutcomeKind) : string :=
  match o with
  | OutcomeKind_Running => "running"
  | OutcomeKind_Completed => "completed"
  | OutcomeKind_Failed => "failed"
  | OutcomeKind_Waiting => "waiting"
  end.

Record StepRecord := mkStepRecord {
  step_name : string;
  step_started_ms : Z;
  step_finished_ms : option Z;
  step_outcome : StepOutcome;
  step_agent_id : option string;
  step_agent_name : option string
}.

#[export] Instance StepStatus_eq_dec : EqDecision StepStatus.
Proof. solve_decision. Defined.
#[export] Instance StepOutcome_eq_dec : EqDecision StepOutcome.
Proof. solve_decision. Defined.
#[export] Instance StepRecord_eq_dec : EqDecision StepRecord.
Proof. solve_decision. Defined.

(** ** Configuration *)

Record JobConfig := mkJobConfig {
  config_id : string;
  config_name : string;
  config_kind : string;
  config_vars : gmap string string;
  config_runbook_hash : string;
  config_cwd : PathBuf;
  config_initial_step : string;
  config_namespace : string;
  config_cron_name : option string
}.

Record JobConfigBuilder := mkJobConfigBuilder {
  builder_id : string;
  builder_name : string;
  builder_kind : string;
  builder_vars : gmap string string;
  builder_runbook_hash : string;
  builder_cwd : PathBuf;
  builder_initial_step : string;
  builder_namespace : string;
  builder_cron_name : option string
}.

(** The name defaults to the id, everything else to the empty value. *)
Definition JobConfig_builder (id kind initial_step : string) : JobConfigBuilder :=
  mkJobConfigBuilder id id kind ∅ "" "" initial_step "" None.

Definition builder_set_name (v : string) (b : JobConfigBuilder) : JobConfigBuilder :=
  mkJobConfigBuilder (builder_id b) v (builder_kind b) (builder_vars b)
    (builder_runbook_hash b) (builder_cwd b) (builder_initial_step b)
    (builder_namespace b) (builder_cron_name b).

Definition builder_set_vars (v : gmap string string) (b : JobConfigBuilder) : JobConfigBuilder :=
  mkJobConfigBuilder (builder_id b) (builder_name b) (builder_kind b) v
    (builder_runbook_hash b) (builder_cwd b) (builder_initial_step b)
    (builder_namespace b) (builder_cron_name b).

Definition builder_set_runbook_hash (v : string) (b : JobConfigBuilder) : JobConfigBuilder :=
  mkJobConfigBuilder (builder_id b) (builder_name b) (builder_kind b) (builder_vars b)
    v (builder_cwd b) (builder_initial_step b) (builder_namespace b) (builder_cron_name b).

Definition builder_set_cwd (v : PathBuf) (b : JobConfigBuilder) : JobConfigBuilder :=
  mkJobConfigBuilder (builder_id b) (builder_name b) (builder_kind b) (builder_vars b)
    (builder_runbook_hash b) v (builder_initial_step b) (builder_namespace b)
    (builder_cron_name b).

Definition builder_set_namespace (v : string) (b : JobConfigBuilder) : JobConfigBuilder :=
  mkJobConfigBuilder (builder_id b) (builder_name b) (builder_kind b) (builder_vars b)
    (builder_runbook_hash b) (builder_cwd b) (builder_initial_step b) v (builder_cron_name b).

Definition builder_set_cron_name (v : string) (b : JobConfigBuilder) : JobConfigBuilder :=
  mkJobConfigBuilder (builder_id b) (builder_name b) (builder_kind b) (builder_vars b)
    (builder_runbook_hash b) (builder_cwd b) (builder_initial_step b) (builder_namespace b)
    (Some v).

Definition builder_build (b : JobConfigBuilder) : JobConfig :=
  mkJobConfig (builder_id b) (builder_name b) (builder_kind b) (builder_vars b)
    (builder_runbook_hash b) (builder_cwd b) (builder_initial_step b) (builder_namespace b)
    (builder_cron_name b).

(** ** Jobs *)

Definition MAX_STEP_VISITS : Z := 5.

Record Job := mkJob {
  job_id : string;
  job_name : string;
  job_kind : string;
  job_namespace : string;
  job_step : string;
  job_step_status : StepStatus;
  job_step_started_at : Z;
  job_step_history : list StepRecord;
  job_vars : gmap string string;
  job_runbook_hash : string;
  job_cwd : PathBuf;
  job_workspace_id : option WorkspaceId;
  job_workspace_path : option PathBuf;
  job_session_id : option string;
  job_created_at : Z;
  job_error : option string;
  job_action_tracker : ActionTracker;
  job_cancelling : bool;
  job_total_retries : Z;
  job_step_visits : gmap string Z;
  job_cron_name : option string;
  job_idle_grace_log_size : option Z;
  job_last_nudge_at : option Z
}.

(** Assignments to one field of a job. *)

Definition job_set_step (v : string) (j : Job) : Job :=
  mkJob (job_id j) (job_name j) (job_kind j) (job_namespace j) v (job_step_status j)
    (job_step_started_at j) (job_step_history j) (job_vars j) (job_runbook_hash j)
    (job_cwd j) (job_workspace_id j) (job_workspace_path j) (job_session_id j)
    (job_created_at j) (job_error j) (job_action_tracker j) (job_cancelling j)
    (job_total_retries j) (job_step_visits j) (job_cron_name j) (job_idle_grace_log_size j)
    (job_last_nudge_at j).

Definition job_set_step_status (v : StepStatus) (j : Job) : Job :=
  mkJob (job_id j) (job_name j) (job_kind j) (job_namespace j) (job_step j) v
    (job_step_started_at j) (job_step_history j) (job_vars j) (job_runbook_hash j)
    (job_cwd j) (job_workspace_id j) (job_workspace_path j) (job_session_id j)
    (job_created_at j) (job_error j) (job_action_tracker j) (job_cancelling j)
    (job_total_retries j) (job_step_visits j) (job_cron_name j) (job_idle_grace_log_size j)
    (job_last_nudge_at j).

Definition job_set_step_history (v : list StepRecord) (j : Job) : Job :=
  mkJob (job_id j) (job_name j) (job_kind j) (job_namespace j) (job_step j)
    (job_step_status j) (job_step_started_at j) v (job_vars j) (job_runbook_hash j)
    (job_cwd j) (job_workspace_id j) (job_workspace_path j) (job_session_id j)
    (job_created_at j) (job_error j) (job_action_tracker j) (job_cancelling j)
    (job_total_retries j) (job_step_visits j) (job_cron_name j) (job_idle_grace_log_size j)
    (job_last_nudge_at j).

Definition job_set_vars (v : gmap string string) (j : Job) : Job :=
  mkJob (job_id j) (job_name j) (job_kind j) (job_namespace j) (job_step j)
    (job_step_status j) (job_step_started_at j) (job_step_history j) v (job_runbook_hash j)
    (job_cwd j) (job_workspace_id j) (job_workspace_path j) (job_session_id j)
    (job_created_at j) (job_error j) (job_action_tracker j) (job_cancelling j)
    (job_total_retries j) (job_step_visits j) (job_cron_name j) (job_idle_grace_log_size j)
    (job_last_nudge_at j).

Definition job_set_workspace_id (v : option WorkspaceId) (j : Job) : Job :=
  mkJob (job_id j) (job_name j) (job_kind j) (job_namespace j) (job_step j)
    (job_step_status j) (job_step_started_at j) (job_step_history j) (job_vars j)
    (job_runbook_hash j) (job_cwd j) v (job_workspace_path j) (job_session_id j)
    (job_created_at j) (job_error j) (job_action_tracker j) (job_cancelling j)
    (job_total_retries j) (job_step_visits j) (job_cron_name j) (job_idle_grace_log_size j)
    (job_last_nudge_at j).

Definition job_set_workspace_path (v : option PathBuf) (j : Job) : Job :=
  mkJob (job_id j) (job_name j) (job_kind j) (job_namespace j) (job_step j)
    (job_step_status j) (job_step_started_at j) (job_step_history j) (job_vars j)
    (job_runbook_hash j) (job_cwd j) (job_workspace_id j) v (job_session_id j)
    (job_created_at j) (job_error j) (job_action_tracker j) (job_cancelling j)
    (job_total_retries j) (job_step_visits j) (job_cron_name j) (job_idle_grace_log_size j)
    (job_last_nudge_at j).

Definition job_set_session_id (v : option string) (j : Job) : Job :=
  mkJob (job_id j) (job_name j) (job_kind j) (job_namespace j) (job_step j)
    (job_step_status j) (job_step_started_at j) (job_step_history j) (job_vars j)
    (job_runbook_hash j) (job_cwd j) (job_workspace_id j) (job_workspace_path j) v
    (job_created_at j) (job_error j) (job_action_tracker j) (job_cancelling j)
    (job_total_retries j) (job_step_visits j) (job_cron_name j) (job_idle_grace_log_size j)
    (job_last_nudge_at j).

Definition job_set_error (v : option string) (j : Job) : Job :=
  mkJob (job_id j) (job_name j) (job_kind j) (job_namespace j) (job_step j)
    (job_step_status j) (job_step_started_at j) (job_step_history j) (job_vars j)
    (job_runbook_hash j) (job_cwd j) (job_workspace_id j) (job_workspace_path j)
    (job_session_id j) (job_created_at j) v (job_action_tracker j) (job_cancelling j)
    (job_total_retries j) (job_step_visits j) (job_cron_name j) (job_idle_grace_log_size j)
    (job_last_nudge_at j).

Definition job_set_action_tracker (v : ActionTracker) (j : Job) : Job :=
  mkJob (job_id j) (job_name j) (job_kind j) (job_namespace j) (job_step j)
    (job_step_status j) (job_step_started_at j) (job_step_history j) (job_vars j)
    (job_runbook_hash j) (job_cwd j) (job_workspace_id j) (job_workspace_path j)
    (job_session_id j) (job_created_at j) (job_error j) v (job_cancelling j)
    (job_total_retries j) (job_step_visits j) (job_cron_name j) (job_idle_grace_log_size j)
    (job_last_nudge_at j).

Definition job_set_cancelling (v : bool) (j : Job) : Job :=
  mkJob (job_id j) (job_name j) (job_kind j) (job_namespace j) (job_step j)
    (job_step_status j) (job_step_started_at j) (job_step_history j) (job_vars j)
    (job_runbook_hash j) (job_cwd j) (job_workspace_id j) (job_workspace_path j)
    (job_session_id j) (job_created_at j) (job_error j) (job_action_tracker j) v
    (job_total_retries j) (job_step_visits j) (job_cron_name j) (job_idle_grace_log_size j)
    (job_last_nudge_at j).

Definition job_set_total_retries (v : Z) (j : Job) : Job :=
  mkJob (job_id j) (job_name j) (job_kind j) (job_namespace j) (job_step j)
    (job_step_status j) (job_step_started_at j) (job_step_history j) (job_vars j)
    (job_runbook_hash j) (job_cwd j) (job_workspace_id j) (job_workspace_path j)
    (job_session_id j) (job_created_at j) (job_error j) (job_action_tracker j)
    (job_cancelling j) v (job_step_visits j) (job_cron_name j) (job_idle_grace_log_size j)
    (job_last_nudge_at j).

Definition job_set_step_visits (v : gmap string Z) (j : Job) : Job :=
  mkJob (job_id j) (job_name j) (job_kind j) (job_namespace j) (job_step j)
    (job_step_status j) (job_step_started_at j) (job_step_history j) (job_vars j)
    (job_runbook_hash j) (job_cwd j) (job_workspace_id j) (job_workspace_path j)
    (job_session_id j) (job_created_at j) (job_error j) (job_action_tracker j)
    (job_cancelling j) (job_total_retries j) v (job_cron_name j)
    (job_idle_grace_log_size j) (job_last_nudge_at j).

Definition job_set_idle_grace_log_size (v : option Z) (j : Job) : Job :=
  mkJob (job_id j) (job_name j) (job_kind j) (job_namespace j) (job_step j)
    (job_step_status j) (job_step_started_at j) (job_step_history j) (job_vars j)
    (job_runbook_hash j) (job_cwd j) (job_workspace_id j) (job_workspace_path j)
    (job_session_id j) (job_created_at j) (job_error j) (job_action_tracker j)
    (job_cancelling j) (job_total_retries j) (job_step_visits j) (job_cron_name j) v
    (job_last_nudge_at j).

Definition job_set_last_nudge_at (v : option Z) (j : Job) : Job :=
  mkJob (job_id j) (job_name j) (job_kind j) (job_namespace j) (job_step j)
    (job_step_status j) (job_step_started_at j) (job_step_history j) (job_vars j)
    (job_runbook_hash j) (job_cwd j) (job_workspace_id j) (job_workspace_path j)
    (job_session_id j) (job_created_at j) (job_error j) (job_action_tracker j)
    (job_cancelling j) (job_total_retries j) (job_step_visits j) (job_cron_name j)
    (job_idle_grace_log_size j) v.

(** ** Operations *)

Definition Job_new_with_epoch_ms (env : Env) (config : JobConfig) (epoch_ms : Z) : Job :=
  mkJob (config_id config) (config_name config) (config_kind config)
    (config_namespace config) (config_initial_step config) Pending
    (instant env 1)
    [mkStepRecord (config_initial_step config) epoch_ms None Outcome_Running None None]
    (config_vars config) (config_runbook_hash config) (config_cwd config)
    None None None (instant env 0) None ActionTracker_default false 0 ∅
    (config_cron_name config) None None.

(** [last_mut] followed by an update: the last element, if there is one. *)
Fixpoint alter_last {A} (f : A → A) (l : list A) : list A :=
  match l with
  | [] => []
  | [x] => [f x]
  | x :: l' => x :: alter_last f l'
  end.

(** Update the most recent step record unless it is finished. *)
Definition with_current_step (f : StepRecord → StepRecord) (j : Job) : Job :=
  job_set_step_history
    (alter_last (λ r, match step_finished_ms r with None => f r | Some _ => r end)
       (job_step_history j)) j.

Definition finalize_current_step (outcome : StepOutcome) (epoch_ms : Z) (j : Job) : Job :=
  with_current_step (λ r,
    mkStepRecord (step_name r) (step_started_ms r) (Some epoch_ms) outcome
      (step_agent_id r) (step_agent_name r)) j.

Definition update_current_step_outcome (outcome : StepOutcome) (j : Job) : Job :=
  with_current_step (λ r,
    mkStepRecord (step_name r) (step_started_ms r) (step_finished_ms r) outcome
      (step_agent_id r) (step_agent_name r)) j.

Definition push_step (name : string) (epoch_ms : Z) (j : Job) : Job :=
  job_set_step_history
    (job_step_history j ++ [mkStepRecord name epoch_ms None Outcome_Running None None]) j.

Definition set_current_step_agent_id (agent_id : string) (j : Job) : Job :=
  with_current_step (λ r,
    mkStepRecord (step_name r) (step_started_ms r) (step_finished_ms r) (step_outcome r)
      (Some agent_id) (step_agent_name r)) j.

Definition set_current_step_agent_name (agent_name : string) (j : Job) : Job :=
  with_current_step (λ r,
    mkStepRecord (step_name r) (step_started_ms r) (step_finished_ms r) (step_outcome r)
      (step_agent_id r) (Some agent_name)) j.

(** The terminal step names. *)
Definition is_terminal_step (step : string) : bool :=
  String.eqb step "done" || String.eqb step "failed" || String.eqb step "cancelled".

Definition Job_is_terminal (j : Job) : bool := is_terminal_step (job_step j).

Definition with_workspace (id : WorkspaceId) (path : PathBuf) (j : Job) : Job :=
  job_set_workspace_path (Some path) (job_set_workspace_id (Some id) j).

Definition with_session (id : string) (j : Job) : Job :=
  job_set_step_status Running (job_set_session_id (Some id) j).

Definition Job_increment_action_attempt (j : Job) (trigger : string) (chain_pos : N) : Z * Job :=
  let '(count, t) :=
    ActionTracker_increment_action_attempt (job_action_tracker j) trigger chain_pos in
  let j' := job_set_action_tracker t j in
  (count, if (1 <? count)%Z then job_set_total_retries (job_total_retries j' +u32 1)%oj j' else j').

Definition Job_get_action_attempt (j : Job) (trigger : string) (chain_pos : N) : Z :=
  ActionTracker_get_action_attempt (job_action_tracker j) trigger chain_pos.

Definition Job_reset_action_attempts (j : Job) : Job :=
  job_set_action_tracker (ActionTracker_reset_action_attempts (job_action_tracker j)) j.

Definition Job_clear_agent_signal (j : Job) : Job :=
  job_set_action_tracker (ActionTracker_clear_agent_signal (job_action_tracker j)) j.

Definition record_step_visit (step : string) (j : Job) : Z * Job :=
  let count := (default 0%Z (job_step_visits j !! step) +u32 1)%oj in
  (count, job_set_step_visits (<[step := count]> (job_step_visits j)) j).

Definition get_step_visits (j : Job) (step : string) : Z :=
  default 0%Z (job_step_visits j !! step).

Local Close Scope string_scope.

(** ** Updating the last record *)

Section alter_last.
Context {A : Type}.
Implicit Types (f g : A → A) (l : list A).

Lemma alter_last_snoc f l x : alter_last f (l ++ [x]) = l ++ [f x].
Proof.
  induction l as [|y l IH]; [done |]. simpl. rewrite IH.
  by destruct (l ++ [x]) eqn:E; [apply app_eq_nil in E as [_ ?] |].
Qed.

Lemma length_alter_last f l : length (alter_last f l) = length l.
Proof.
  destruct l as [|x l] using rev_ind; [done |].
  by rewrite alter_last_snoc, !length_app.
Qed.

Lemma last_alter_last f l : last (alter_last f l) = f <$> last l.
Proof.
  destruct l as [|x l] using rev_ind; [done |].
  by rewrite alter_last_snoc, !last_snoc.
Qed.

Lemma alter_last_alter_last f g l :
  alter_last f (alter_last g l) = alter_last (f ∘ g) l.
Proof.
  destruct l as [|x l] using rev_ind; [done |]. by rewrite !alter_last_snoc.
Qed.

Lemma alter_last_ext f g l : (∀ x, f x = g x) → alter_last f l = alter_last g l.
Proof.
  intros H. destruct l as [|x l] using rev_ind; [done |]. by rewrite !alter_last_snoc, H.
Qed.

Lemma fmap_alter_last_id {B} (e : A → B) f l :
  (∀ x, e (f x) = e x) → e <$> alter_last f l = e <$> l.
Proof.
  intros H. destruct l as [|x l] using rev_ind; [done |].
  by rewrite alter_last_snoc, !fmap_app; simpl; rewrite H.
Qed.
End alter_last.

Lemma fmap_alter_last {A B} (e : A → B) (f : A → A) (g : B → B) (l : list A) :
  (∀ x, e (f x) = g (e x)) → e <$> alter_last f l = alter_last g (e <$> l).
Proof.
  intros H. destruct l as [|x l] using rev_ind; [done |].
  rewrite alter_last_snoc, !fmap_app. change (e <$> [x]) with [e x].
  by rewrite alter_last_snoc, <- H.
Qed.

Lemma with_current_step_idemp f j :
  (∀ r, step_finished_ms r = None → step_finished_ms (f r) = None → f (f r) = f r) →
  with_current_step f (with_current_step f j) = with_current_step f j.
Proof.
  intros Hf. unfold with_current_step. simpl. rewrite alter_last_alter_last.
  unfold job_set_step_history. simpl. f_equal. apply alter_last_ext. intros r. simpl.
  destruct (step_finished_ms r) eqn:E1; simpl; rewrite ?E1; [done |].
  by destruct (step_finished_ms (f r)) eqn:E2; [| apply Hf].
Qed.

(** After a finalization, the current record is finished and further updates
    of it change nothing. *)
Lemma with_current_step_finalized f o t j :
  with_current_step f (finalize_current_step o t j) = finalize_current_step o t j.
Proof.
  unfold finalize_current_step, with_current_step. simpl. rewrite alter_last_alter_last.
  unfold job_set_step_history. simpl. f_equal. apply alter_last_ext. intros r. simpl.
  by destruct (step_finished_ms r) eqn:E; simpl; rewrite ?E.
Qed.

(** ** The invariant of a job *)

(** How often the records list a step. *)
Definition entries_in (s : string) (names : list string) : nat :=
  length (filter (λ n, n = s) names).

Lemma entries_in_snoc s names n :
  entries_in s (names ++ [n]) =
  entries_in s names + (if decide (n = s) then 1 else 0).
Proof.
  unfold entries_in. rewrite filter_app, length_app. f_equal.
  rewrite filter_cons. by case_decide.
Qed.

(** The step history is never empty, every record but the last is finished,
    the last one is for the current step of a job that has not ended, and
    [step_visits] counts, modulo [2^32], the records after the initial one. *)
Record Job_wf (j : Job) : Prop := {
  wf_finished : ∃ pre r, job_step_history j = pre ++ [r] ∧
                  Forall (λ r, is_Some (step_finished_ms r)) pre;
  wf_current : Job_is_terminal j = false →
               step_name <$> last (job_step_history j) = Some (job_step j);
  wf_visits : ∀ s, get_step_visits j s =
                u32_wrap (Z.of_nat (entries_in s (tail (step_name <$> job_step_history j))))
}.

Lemma Job_wf_same j j' :
  job_step_history j' = job_step_history j → job_step j' = job_step j →
  job_step_visits j' = job_step_visits j → Job_wf j → Job_wf j'.
Proof.
  intros H1 H2 H3 [Hf Hc Hv]. split; unfold Job_is_terminal, get_step_visits in *;
    rewrite ?H1, ?H2, ?H3; done.
Qed.

Lemma Job_wf_with_current_step f j :
  (∀ r, step_name (f r) = step_name r) → Job_wf j → Job_wf (with_current_step f j).
Proof.
  intros Hf [(pre & r & Hh & Hpre) Hc Hv].
  assert (Hn : step_name <$> job_step_history (with_current_step f j)
               = step_name <$> job_step_history j).
  { simpl. apply fmap_alter_last_id. intros x. by destruct (step_finished_ms x). }
  split.
  - simpl. rewrite Hh, alter_last_snoc. eauto.
  - intros Ht. specialize (Hc Ht). rewrite <- fmap_last, Hn, fmap_last. done.
  - intros s. change (get_step_visits (with_current_step f j) s) with (get_step_visits j s).
    by rewrite Hn.
Qed.

Lemma Job_wf_finalize o t j : Job_wf j → Job_wf (finalize_current_step o t j).
Proof. by apply Job_wf_with_current_step. Qed.

Lemma Job_wf_update_outcome o j : Job_wf j → Job_wf (update_current_step_outcome o j).
Proof. by apply Job_wf_with_current_step. Qed.

Lemma Job_wf_set_agent_id a j : Job_wf j → Job_wf (set_current_step_agent_id a j).
Proof. by apply Job_wf_with_current_step. Qed.

Lemma Job_wf_set_agent_name a j : Job_wf j → Job_wf (set_current_step_agent_name a j).
Proof. by apply Job_wf_with_current_step. Qed.

Lemma Job_wf_new env config ms : Job_wf (Job_new_with_epoch_ms env config ms).
Proof.
  split; simpl.
  - exists [], (mkStepRecord (config_initial_step config) ms None Outcome_Running None None).
    by split.
  - done.
  - intros s. by unfold get_step_visits; simpl; rewrite lookup_empty.
Qed.

(** Entering a step: the visit is counted and its record pushed once the
    previous record is finished. *)
Lemma Job_wf_push step now j :
  (∃ pre r, job_step_history j = pre ++ [r] ∧ Forall (λ r, is_Some (step_finished_ms r)) pre
            ∧ is_Some (step_finished_ms r)) →
  (∀ s, get_step_visits j s =
     u32_wrap (Z.of_nat (entries_in s (tail (step_name <$> job_step_history j))))) →
  job_step j = step →
  Job_wf (push_step step now (record_step_visit step j).2).
Proof.
  intros (pre & r & Hh & Hpre & Hr) Hv <-. split; simpl.
  - exists (job_step_history j), (mkStepRecord (job_step j) now None Outcome_Running None None).
    split; [done |]. rewrite Hh. apply Forall_app. by rewrite Forall_singleton.
  - by rewrite last_snoc.
  - intros s. unfold get_step_visits in *. simpl. rewrite fmap_app. simpl.
    assert (∃ x xs, step_name <$> job_step_history j = x :: xs) as (x & xs & Hx).
    { rewrite Hh, fmap_app. destruct pre; simpl; eauto. }
    specialize (Hv s). rewrite Hx in *. simpl in *. rewrite entries_in_snoc.
    destruct (decide (job_step j = s)) as [->|Hne].
    + rewrite lookup_insert_eq. simpl. rewrite Hv, u32_wrap_add_l.
      f_equal. lia.
    + rewrite lookup_insert_ne by done. rewrite Hv. f_equal. lia.
Qed.

#[export] Hint Resolve Job_wf_finalize Job_wf_update_outcome Job_wf_set_agent_id
  Job_wf_set_agent_name Job_wf_new : oj.

(** ** Wall-clock fields

    [erase_Job] forgets the fields that come from the clock of the machine
    that applied the events. *)

Definition erase_StepRecord (r : StepRecord) : StepRecord :=
  mkStepRecord (step_name r) 0 ((λ _, 0%Z) <$> step_finished_ms r) (step_outcome r)
    (step_agent_id r) (step_agent_name r).

Definition erase_Job (j : Job) : Job :=
  mkJob (job_id j) (job_name j) (job_kind j) (job_namespace j) (job_step j)
    (job_step_status j) 0 (erase_StepRecord <$> job_step_history j) (job_vars j)
    (job_runbook_hash j) (job_cwd j) (job_workspace_id j) (job_workspace_path j)
    (job_session_id j) 0 (job_error j) (job_action_tracker j) (job_cancelling j)
    (job_total_retries j) (job_step_visits j) (job_cron_name j)
    (job_idle_grace_log_size j) (job_last_nudge_at j).

Lemma erase_StepRecord_idemp r : erase_StepRecord (erase_StepRecord r) = erase_StepRecord r.
Proof. unfold erase_StepRecord. simpl. by destruct (step_finished_ms r). Qed.

Lemma erase_Job_idemp j : erase_Job (erase_Job j) = erase_Job j.
Proof.
  unfold erase_Job at 1. simpl. unfold erase_Job. f_equal.
  rewrite <- list_fmap_compose. apply list_fmap_ext. intros i r _.
  apply erase_StepRecord_idemp.
Qed.

(** Updates of the current record commute with the erasure. *)
Lemma erase_with_current_step f g j :
  (∀ r, erase_StepRecord (f r) = erase_StepRecord (g (erase_StepRecord r))) →
  erase_Job (with_current_step f j) = erase_Job (with_current_step g (erase_Job j)).
Proof.
  intros H. unfold erase_Job, with_current_step. simpl. f_equal.
  destruct (job_step_history j) as [|r l] using rev_ind; [done |].
  rewrite fmap_app. change (erase_StepRecord <$> [r]) with [erase_StepRecord r].
  rewrite !alter_last_snoc, !fmap_app. simpl. f_equal.
  - rewrite <- list_fmap_compose. apply list_fmap_ext. intros. simpl.
    by rewrite erase_StepRecord_idemp.
  - f_equal. destruct (step_finished_ms r); simpl; [by rewrite erase_StepRecord_idemp | apply H].
Qed.

Lemma erase_finalize o t j :
  erase_Job (finalize_current_step o t j) = erase_Job (finalize_current_step o 0 (erase_Job j)).
Proof. by apply erase_with_current_step. Qed.

Lemma erase_update_outcome o j :
  erase_Job (update_current_step_outcome o j) =
  erase_Job (update_current_step_outcome o (erase_Job j)).
Proof.
  apply erase_with_current_step. intros r. unfold erase_StepRecord. simpl.
  by destruct (step_finished_ms r).
Qed.

Lemma erase_set_agent_id a j :
  erase_Job (set_current_step_agent_id a j) =
  erase_Job (set_current_step_agent_id a (erase_Job j)).
Proof.
  apply erase_with_current_step. intros r. unfold erase_StepRecord. simpl.
  by destruct (step_finished_ms r).
Qed.

Lemma erase_set_agent_name a j :
  erase_Job (set_current_step_agent_name a j) =
  erase_Job (set_current_step_agent_name a (erase_Job j)).
Proof.
  apply erase_with_current_step. intros r. unfold erase_StepRecord. simpl.
  by destruct (step_finished_ms r).
Qed.
