(* ===== verification/Timer.v ===== *)
(** Timer identifiers: [crates/core/src/timer.rs].  A [TimerId] is a string
    that encodes what the timer is for and who owns it. *)

From S2P Require Import Prelude Ids.

Local Open Scope string_scope.

(** ** Constructors *)

Definition liveness (job_id : JobId) : TimerId := "liveness:" +:+ job_id.

Definition exit_deferred (job_id : JobId) : TimerId := "exit-deferred:" +:+ job_id.

Definition cooldown (job_id : JobId) (trigger : string) (chain_pos : N) : TimerId :=
  "cooldown:" +:+ job_id +:+ ":" +:+ trigger +:+ ":" +:+ pretty chain_pos.

Definition queue_retry (queue_name item_id : string) : TimerId :=
  "queue-retry:" +:+ queue_name +:+ ":" +:+ item_id.

Definition cron (cron_name namespace : string) : TimerId :=
  "cron:" +:+ scoped_name namespace cron_name.

Definition queue_poll (worker_name namespace : string) : TimerId :=
  "queue-poll:" +:+ scoped_name namespace worker_name.

Definition liveness_agent_run (agent_run_id : AgentRunId) : TimerId :=
  "liveness:ar:" +:+ agent_run_id.

Definition exit_deferred_agent_run (agent_run_id : AgentRunId) : TimerId :=
  "exit-deferred:ar:" +:+ agent_run_id.

Definition cooldown_agent_run (agent_run_id : AgentRunId) (trigger : string)
    (chain_pos : N) : TimerId :=
  "cooldown:ar:" +:+ agent_run_id +:+ ":" +:+ trigger +:+ ":" +:+ pretty chain_pos.

Definition idle_grace (job_id : JobId) : TimerId := "idle-grace:" +:+ job_id.

Definition idle_grace_agent_run (agent_run_id : AgentRunId) : TimerId :=
  "idle-grace:ar:" +:+ agent_run_id.

(** ** Classification *)

Definition is_liveness (t : TimerId) : bool := starts_with "liveness:" t.
Definition is_exit_deferred (t : TimerId) : bool := starts_with "exit-deferred:" t.
Definition is_cooldown (t : TimerId) : bool := starts_with "cooldown:" t.
Definition is_queue_retry (t : TimerId) : bool := starts_with "queue-retry:" t.
Definition is_cron (t : TimerId) : bool := starts_with "cron:" t.
Definition is_queue_poll (t : TimerId) : bool := starts_with "queue-poll:" t.
Definition is_idle_grace (t : TimerId) : bool := starts_with "idle-grace:" t.

(** ** Owner-based constructors *)

Definition owner_liveness (owner : OwnerId) : TimerId :=
  match owner with
  | Owner_Job job_id => liveness job_id
  | Owner_AgentRun ar_id => liveness_agent_run ar_id
  end.

Definition owner_exit_deferred (owner : OwnerId) : TimerId :=
  match owner with
  | Owner_Job job_id => exit_deferred job_id
  | Owner_AgentRun ar_id => exit_deferred_agent_run ar_id
  end.

Definition owner_cooldown (owner : OwnerId) (trigger : string) (chain_pos : N) : TimerId :=
  match owner with
  | Owner_Job job_id => cooldown job_id trigger chain_pos
  | Owner_AgentRun ar_id => cooldown_agent_run ar_id trigger chain_pos
  end.

Definition owner_idle_grace (owner : OwnerId) : TimerId :=
  match owner with
  | Owner_Job job_id => idle_grace job_id
  | Owner_AgentRun ar_id => idle_grace_agent_run ar_id
  end.

(** ** Parsing *)

Definition agent_run_id_str (t : TimerId) : option string :=
  match strip_prefix "liveness:ar:" t with
  | Some rest => Some rest
  | None =>
  match strip_prefix "exit-deferred:ar:" t with
  | Some rest => Some rest
  | None =>
  match strip_prefix "cooldown:ar:" t with
  | Some rest => Some (split_next ":" rest)
  | None => strip_prefix "idle-grace:ar:" t
  end end end.

Definition is_agent_run_timer (t : TimerId) : bool :=
  match agent_run_id_str t with Some _ => true | None => false end.

Definition job_id_str (t : TimerId) : option string :=
  if is_agent_run_timer t then None
  else
  match strip_prefix "liveness:" t with
  | Some rest => Some rest
  | None =>
  match strip_prefix "exit-deferred:" t with
  | Some rest => Some rest
  | None =>
  match strip_prefix "cooldown:" t with
  | Some rest => Some (split_next ":" rest)
  | None => strip_prefix "idle-grace:" t
  end end end.

(** Agent-run timers are tried first, then job timers. *)
Definition owner_id (t : TimerId) : option OwnerId :=
  match agent_run_id_str t with
  | Some ar_id => Some (Owner_AgentRun ar_id)
  | None =>
      match job_id_str t with
      | Some job_id => Some (Owner_Job job_id)
      | None => None
      end
  end.

(** ** Lemmas *)

(** The ids whose timers parse back: an agent-run id is always recovered, a
    job id only when it does not itself start with the ["ar:"] marker. *)
Definition owner_parses (o : OwnerId) : bool :=
  match o with
  | Owner_Job j => negb (starts_with "ar:" j)
  | Owner_AgentRun _ => true
  end.

(** The part of a cooldown timer before the next colon is the id when the id
    holds no colon. *)
Definition owner_has_colon (o : OwnerId) : bool :=
  match o with Owner_Job j => has_char ":" j | Owner_AgentRun a => has_char ":" a end.

Lemma split_next_colon id r : has_char ":" id = false → split_next ":" (id +:+ ":" +:+ r) = id.
Proof. intros H. exact (split_next_app ":"%char id r H). Qed.

#[local] Arguments strip_prefix : simpl nomatch.

(** What an owner-shaped timer of a job with rest [s] parses to. *)
Definition read_job_timer (s : string) : OwnerId :=
  match strip_prefix "ar:" s with Some r => Owner_AgentRun r | None => Owner_Job s end.

Lemma owner_id_liveness j : owner_id (liveness j) = Some (read_job_timer j).
Proof.
  unfold owner_id, job_id_str, is_agent_run_timer, agent_run_id_str, liveness, read_job_timer.
  simpl. by destruct (strip_prefix "ar:" j).
Qed.

Lemma owner_id_exit_deferred j : owner_id (exit_deferred j) = Some (read_job_timer j).
Proof.
  unfold owner_id, job_id_str, is_agent_run_timer, agent_run_id_str, exit_deferred, read_job_timer.
  simpl. by destruct (strip_prefix "ar:" j).
Qed.

Lemma owner_id_idle_grace j : owner_id (idle_grace j) = Some (read_job_timer j).
Proof.
  unfold owner_id, job_id_str, is_agent_run_timer, agent_run_id_str, idle_grace, read_job_timer.
  simpl. by destruct (strip_prefix "ar:" j).
Qed.

Lemma owner_id_cooldown_rest s :
  owner_id ("cooldown:" +:+ s) =
  Some (match strip_prefix "ar:" s with
        | Some r => Owner_AgentRun (split_next ":" r)
        | None => Owner_Job (split_next ":" s)
        end).
Proof.
  unfold owner_id, job_id_str, is_agent_run_timer, agent_run_id_str.
  simpl. by destruct (strip_prefix "ar:" s).
Qed.

Lemma read_job_timer_iff o :
  Some (read_job_timer (match o with Owner_Job j => j | Owner_AgentRun a => "ar:" +:+ a end))
  = Some o ↔ owner_parses o = true.
Proof.
  unfold read_job_timer. destruct o as [j|a]; simpl; [| done].
  unfold starts_with. destruct (strip_prefix "ar:" j); naive_solver.
Qed.

(** ** Theorems *)

(** The owner of a liveness, exit or idle timer is read back from its id,
    for every agent run, and for every job but those whose id starts with
    ["ar:"]: their timers read as timers of an agent run. *)
Theorem owner_timer_roundtrip o :
  (owner_id (owner_liveness o) = Some o ↔ owner_parses o = true) ∧
  (owner_id (owner_exit_deferred o) = Some o ↔ owner_parses o = true) ∧
  (owner_id (owner_idle_grace o) = Some o ↔ owner_parses o = true).
Proof.
  pose proof (read_job_timer_iff o) as H. split_and!; destruct o as [j|a]; simpl.
  - by rewrite owner_id_liveness.
  - exact H.
  - by rewrite owner_id_exit_deferred.
  - exact H.
  - by rewrite owner_id_idle_grace.
  - exact H.
Qed.

(** The owner of a cooldown timer is read back when its id has no colon,
    with one exception: the job ["ar"], whose cooldown timer reads as that of an
    agent run. *)
Theorem owner_cooldown_roundtrip o trigger pos :
  owner_has_colon o = false →
  owner_id (owner_cooldown o trigger pos) = Some o ↔ o ≠ Owner_Job "ar".
Proof.
  intros Hc. destruct o as [j|a]; simpl in Hc.
  - unfold owner_cooldown, cooldown. rewrite owner_id_cooldown_rest.
    destruct (decide (j = "ar")) as [->|Hne]; [naive_solver |].
    destruct (strip_prefix "ar:" _) as [r|] eqn:E.
    + exfalso. apply Hne. apply strip_prefix_Some in E.
      rewrite <- (split_next_colon j (trigger +:+ ":" +:+ pretty pos)) by done.
      by rewrite E.
    + rewrite split_next_colon by done. split; [congruence | done].
  - change (owner_cooldown (Owner_AgentRun a) trigger pos)
      with ("cooldown:" +:+ "ar:" +:+ (a +:+ ":" +:+ (trigger +:+ ":" +:+ pretty pos))).
    rewrite owner_id_cooldown_rest, strip_prefix_app, split_next_colon by done. done.
Qed.

Lemma owner_cooldown_roundtrip_witness :
  owner_has_colon (Owner_Job "job-1") = false ∧
  (owner_id (owner_cooldown (Owner_Job "job-1") "on_idle" 2) = Some (Owner_Job "job-1") ↔
   Owner_Job "job-1" ≠ Owner_Job "ar").
Proof. split; [reflexivity |]. apply owner_cooldown_roundtrip. reflexivity. Defined.

(** The kinds of a timer, in the order of the [is_*] tests. *)
Definition timer_kinds (t : TimerId) : list bool :=
  [is_liveness t; is_exit_deferred t; is_cooldown t; is_queue_retry t; is_cron t;
   is_queue_poll t; is_idle_grace t].

Lemma timer_kinds_constructors id name ns trigger pos :
  timer_kinds (owner_liveness id) = [true; false; false; false; false; false; false] ∧
  timer_kinds (owner_exit_deferred id) = [false; true; false; false; false; false; false] ∧
  timer_kinds (owner_cooldown id trigger pos) = [false; false; true; false; false; false; false] ∧
  timer_kinds (queue_retry name ns) = [false; false; false; true; false; false; false] ∧
  timer_kinds (cron name ns) = [false; false; false; false; true; false; false] ∧
  timer_kinds (queue_poll name ns) = [false; false; false; false; false; true; false] ∧
  timer_kinds (owner_idle_grace id) = [false; false; false; false; false; false; true].
Proof. destruct id; split_and!; reflexivity. Qed.

(** The timers that belong to no owner parse to none. *)
Lemma unowned_timers name ns :
  owner_id (queue_retry name ns) = None ∧ owner_id (cron name ns) = None ∧
  owner_id (queue_poll name ns) = None.
Proof. done. Qed.
