(* ===== verification/Event.v ===== *)
(** Events: [crates/core/src/event.rs].

    [serde_json::Value] is a parameter [Value] of the type, and the three
    methods of it the code calls are the class [JsonValue]. *)

From S2P Require Import Prelude Ids Entities Job.

Local Open Scope string_scope.

Inductive PromptType :=
  | Prompt_Permission | Prompt_Idle | Prompt_PlanApproval | Prompt_Question | Prompt_Other.

Record QuestionOption := mkQuestionOption {
  question_option_label : string;
  question_option_description : option string
}.

Record QuestionEntry := mkQuestionEntry {
  question : string;
  question_header : option string;
  question_options : list QuestionOption;
  question_multi_select : bool
}.

Record QuestionData := mkQuestionData { questions : list QuestionEntry }.

(** [Value::get] on an object key, [as_object] with the map's [len], and
    [as_u64]. *)
Class JsonValue (Value : Type) := {
  json_get : string → Value → option Value;
  json_object_len : Value → option N;
  json_as_u64 : Value → option Z
}.

Section Event.
Context {Value : Type}.

Inductive Event :=
  (* agent *)
  | AgentWorking (agent_id : AgentId) (owner : OwnerId)
  | AgentWaiting (agent_id : AgentId) (owner : OwnerId)
  | AgentFailed (agent_id : AgentId) (error : AgentError) (owner : OwnerId)
  | AgentExited (agent_id : AgentId) (exit_code : option Z) (owner : OwnerId)
  | AgentGone (agent_id : AgentId) (owner : OwnerId)
  | AgentInput (agent_id : AgentId) (input : string)
  | AgentSignalled (agent_id : AgentId) (kind : AgentSignalKind) (message : option string)
  | AgentIdle (agent_id : AgentId)
  | AgentStop (agent_id : AgentId)
  | AgentPrompt (agent_id : AgentId) (prompt_type : PromptType)
      (question_data : option QuestionData) (assistant_context : option string)
  (* command *)
  | CommandRun (job_id : JobId) (job_name : string) (project_root invoke_dir : PathBuf)
      (namespace command : string) (args : gmap string string)
  (* job *)
  | JobCreated (id : JobId) (kind name runbook_hash : string) (cwd : PathBuf)
      (vars : gmap string string) (initial_step : string) (created_at_epoch_ms : Z)
      (namespace : string) (cron_name : option string)
  | JobAdvanced (id : JobId) (step : string)
  | JobUpdated (id : JobId) (vars : gmap string string)
  | JobResume (id : JobId) (message : option string) (vars : gmap string string) (kill : bool)
  | JobCancelling (id : JobId)
  | JobCancel (id : JobId)
  | JobDeleted (id : JobId)
  (* runbook *)
  | RunbookLoaded (hash : string) (version : Z) (runbook : Value)
  (* session *)
  | SessionCreated (id : SessionId) (owner : OwnerId)
  | SessionInput (id : SessionId) (input : string)
  | SessionDeleted (id : SessionId)
  (* shell *)
  | ShellExited (job_id : JobId) (step : string) (exit_code : Z) (stdout stderr : option string)
  (* step *)
  | StepStarted (job_id : JobId) (step : string) (agent_id : option AgentId)
      (agent_name : option string)
  | StepWaiting (job_id : JobId) (step : string) (reason decision_id : option string)
  | StepCompleted (job_id : JobId) (step : string)
  | StepFailed (job_id : JobId) (step error : string)
  (* system *)
  | Shutdown
  (* timer *)
  | TimerStart (id : TimerId)
  (* workspace *)
  | WorkspaceCreated (id : WorkspaceId) (path : PathBuf) (branch : option string)
      (owner : option OwnerId) (workspace_type : option string)
  | WorkspaceReady (id : WorkspaceId)
  | WorkspaceFailed (id : WorkspaceId) (reason : string)
  | WorkspaceDeleted (id : WorkspaceId)
  | WorkspaceDrop (id : WorkspaceId)
  (* cron *)
  | CronStarted (cron_name : string) (project_root : PathBuf)
      (runbook_hash interval run_target namespace : string)
  | CronStopped (cron_name namespace : string)
  | CronOnce (cron_name : string) (job_id : JobId) (job_name job_kind : string)
      (agent_run_id agent_name : option string) (project_root : PathBuf)
      (runbook_hash run_target namespace : string)
  | CronFired (cron_name : string) (job_id : JobId) (agent_run_id : option string)
      (namespace : string)
  | CronDeleted (cron_name namespace : string)
  (* worker *)
  | WorkerStarted (worker_name : string) (project_root : PathBuf)
      (runbook_hash queue_name : string) (concurrency : Z) (namespace : string)
  | WorkerWake (worker_name namespace : string)
  | WorkerPollComplete (worker_name : string) (items : list Value)
  | WorkerTakeComplete (worker_name item_id : string) (item : Value) (exit_code : Z)
      (stderr : option string)
  | WorkerItemDispatched (worker_name item_id : string) (job_id : JobId) (namespace : string)
  | WorkerStopped (worker_name namespace : string)
  | WorkerResized (worker_name : string) (concurrency : Z) (namespace : string)
  | WorkerDeleted (worker_name namespace : string)
  (* queue *)
  | QueuePushed (queue_name item_id : string) (data : gmap string string)
      (pushed_at_epoch_ms : Z) (namespace : string)
  | QueueTaken (queue_name item_id worker_name namespace : string)
  | QueueCompleted (queue_name item_id namespace : string)
  | QueueFailed (queue_name item_id error namespace : string)
  | QueueDropped (queue_name item_id namespace : string)
  | QueueItemRetry (queue_name item_id namespace : string)
  | QueueItemDead (queue_name item_id namespace : string)
  (* decision *)
  | DecisionCreated (id : string) (job_id : JobId) (agent_id : option string)
      (owner : OwnerId) (source : DecisionSource) (context : string)
      (options : list DecisionOption) (created_at_ms : Z) (namespace : string)
  | DecisionResolved (id : string) (chosen : option N) (message : option string)
      (resolved_at_ms : Z) (namespace : string)
  (* agent_run *)
  | AgentRunCreated (id : AgentRunId) (agent_name command_name namespace : string)
      (cwd : PathBuf) (runbook_hash : string) (vars : gmap string string)
      (created_at_epoch_ms : Z)
  | AgentRunStarted (id : AgentRunId) (agent_id : AgentId)
  | AgentRunStatusChanged (id : AgentRunId) (status : AgentRunStatus) (reason : option string)
  | AgentRunResume (id : AgentRunId) (message : option string) (kill : bool)
  | AgentRunDeleted (id : AgentRunId)
  (* catch-all for unknown event types *)
  | Custom.

Definition from_agent_state (agent_id : AgentId) (state : AgentState) (owner : OwnerId) : Event :=
  match state with
  | AgentState_Working => AgentWorking agent_id owner
  | AgentState_WaitingForInput => AgentWaiting agent_id owner
  | AgentState_Failed error => AgentFailed agent_id error owner
  | AgentState_Exited exit_code => AgentExited agent_id exit_code owner
  | AgentState_SessionGone => AgentGone agent_id owner
  end.

Definition as_agent_state (e : Event) : option (AgentId * AgentState * OwnerId) :=
  match e with
  | AgentWorking agent_id owner => Some (agent_id, AgentState_Working, owner)
  | AgentWaiting agent_id owner => Some (agent_id, AgentState_WaitingForInput, owner)
  | AgentFailed agent_id error owner => Some (agent_id, AgentState_Failed error, owner)
  | AgentExited agent_id exit_code owner => Some (agent_id, AgentState_Exited exit_code, owner)
  | AgentGone agent_id owner => Some (agent_id, AgentState_SessionGone, owner)
  | _ => None
  end.

Definition event_name (e : Event) : string :=
  match e with
  | AgentWorking _ _ => "agent:working"
  | AgentWaiting _ _ => "agent:waiting"
  | AgentFailed _ _ _ => "agent:failed"
  | AgentExited _ _ _ => "agent:exited"
  | AgentGone _ _ => "agent:gone"
  | AgentInput _ _ => "agent:input"
  | AgentSignalled _ _ _ => "agent:signal"
  | AgentIdle _ => "agent:idle"
  | AgentStop _ => "agent:stop"
  | AgentPrompt _ _ _ _ => "agent:prompt"
  | CommandRun _ _ _ _ _ _ _ => "command:run"
  | JobCreated _ _ _ _ _ _ _ _ _ _ => "job:created"
  | JobAdvanced _ _ => "job:advanced"
  | JobUpdated _ _ => "job:updated"
  | JobResume _ _ _ _ => "job:resume"
  | JobCancelling _ => "job:cancelling"
  | JobCancel _ => "job:cancel"
  | JobDeleted _ => "job:deleted"
  | RunbookLoaded _ _ _ => "runbook:loaded"
  | SessionCreated _ _ => "session:created"
  | SessionInput _ _ => "session:input"
  | SessionDeleted _ => "session:deleted"
  | ShellExited _ _ _ _ _ => "shell:exited"
  | StepStarted _ _ _ _ => "step:started"
  | StepWaiting _ _ _ _ => "step:waiting"
  | StepCompleted _ _ => "step:completed"
  | StepFailed _ _ _ => "step:failed"
  | Shutdown => "system:shutdown"
  | TimerStart _ => "timer:start"
  | WorkspaceCreated _ _ _ _ _ => "workspace:created"
  | WorkspaceReady _ => "workspace:ready"
  | WorkspaceFailed _ _ => "workspace:failed"
  | WorkspaceDeleted _ => "workspace:deleted"
  | WorkspaceDrop _ => "workspace:drop"
  | CronStarted _ _ _ _ _ _ => "cron:started"
  | CronStopped _ _ => "cron:stopped"
  | CronOnce _ _ _ _ _ _ _ _ _ _ => "cron:once"
  | CronFired _ _ _ _ => "cron:fired"
  | CronDeleted _ _ => "cron:deleted"
  | WorkerStarted _ _ _ _ _ _ => "worker:started"
  | WorkerWake _ _ => "worker:wake"
  | WorkerPollComplete _ _ => "worker:poll_complete"
  | WorkerTakeComplete _ _ _ _ _ => "worker:take_complete"
  | WorkerItemDispatched _ _ _ _ => "worker:item_dispatched"
  | WorkerStopped _ _ => "worker:stopped"
  | WorkerResized _ _ _ => "worker:resized"
  | WorkerDeleted _ _ => "worker:deleted"
  | QueuePushed _ _ _ _ _ => "queue:pushed"
  | QueueTaken _ _ _ _ => "queue:taken"
  | QueueCompleted _ _ _ => "queue:completed"
  | QueueFailed _ _ _ _ => "queue:failed"
  | QueueDropped _ _ _ => "queue:dropped"
  | QueueItemRetry _ _ _ => "queue:item_retry"
  | QueueItemDead _ _ _ => "queue:item_dead"
  | DecisionCreated _ _ _ _ _ _ _ _ _ => "decision:created"
  | DecisionResolved _ _ _ _ _ => "decision:resolved"
  | AgentRunCreated _ _ _ _ _ _ _ _ => "agent_run:created"
  | AgentRunStarted _ _ => "agent_run:started"
  | AgentRunStatusChanged _ _ _ => "agent_run:status_changed"
  | AgentRunResume _ _ _ => "agent_run:resume"
  | AgentRunDeleted _ => "agent_run:deleted"
  | Custom => "custom"
  end.

(** The job an event is about; none for the agent-run variants. *)
Definition event_job_id (e : Event) : option JobId :=
  match e with
  | CommandRun job_id _ _ _ _ _ _ => Some job_id
  | ShellExited job_id _ _ _ _ => Some job_id
  | StepStarted job_id _ _ _ => Some job_id
  | StepWaiting job_id _ _ _ => Some job_id
  | StepCompleted job_id _ => Some job_id
  | StepFailed job_id _ _ => Some job_id
  | JobCreated id _ _ _ _ _ _ _ _ _ => Some id
  | JobAdvanced id _ => Some id
  | JobUpdated id _ => Some id
  | JobResume id _ _ _ => Some id
  | JobCancelling id => Some id
  | JobCancel id => Some id
  | JobDeleted id => Some id
  | WorkerItemDispatched _ _ job_id _ => Some job_id
  | CronOnce _ job_id _ _ _ agent_name _ _ _ _ =>
      match agent_name with Some _ => None | None => Some job_id end
  | CronFired _ job_id agent_run_id _ =>
      match agent_run_id with Some _ => None | None => Some job_id end
  | DecisionCreated _ job_id _ owner _ _ _ _ _ =>
      match owner with Owner_AgentRun _ => None | Owner_Job _ => Some job_id end
  | SessionCreated _ owner =>
      match owner with Owner_Job id => Some id | Owner_AgentRun _ => None end
  | _ => None
  end.
End Event.

Arguments Event : clear implicits.

(** [{:?}] of the signal and prompt kinds. *)
Definition AgentSignalKind_debug (k : AgentSignalKind) : string :=
  match k with
  | Signal_Complete => "Complete"
  | Signal_Escalate => "Escalate"
  | Signal_Continue => "Continue"
  end.

Definition PromptType_debug (p : PromptType) : string :=
  match p with
  | Prompt_Permission => "Permission"
  | Prompt_Idle => "Idle"
  | Prompt_PlanApproval => "PlanApproval"
  | Prompt_Question => "Question"
  | Prompt_Other => "Other"
  end.

(** The number of entries of an object field, 0 when it is missing. *)
Definition object_field_len {Value} `{JsonValue Value} (k : string) (v : Value) : N :=
  default 0%N (json_get k v ≫= json_object_len).

(** The log line of an event.  Only [RunbookLoaded] can panic, when its hash
    is cut inside a character: [None]. *)
Definition log_summary {Value} `{JsonValue Value} (e : Event Value) : option string :=
  let t := event_name e in
  match e with
  | AgentWorking agent_id _ | AgentWaiting agent_id _ | AgentGone agent_id _ =>
      Some (t +:+ " agent=" +:+ agent_id)
  | AgentFailed agent_id _ _ => Some (t +:+ " agent=" +:+ agent_id)
  | AgentExited agent_id _ _ => Some (t +:+ " agent=" +:+ agent_id)
  | AgentInput agent_id _ => Some (t +:+ " agent=" +:+ agent_id)
  | AgentSignalled agent_id kind _ =>
      Some (t +:+ " id=" +:+ agent_id +:+ " kind=" +:+ AgentSignalKind_debug kind)
  | AgentIdle agent_id => Some (t +:+ " agent=" +:+ agent_id)
  | AgentStop agent_id => Some (t +:+ " agent=" +:+ agent_id)
  | AgentPrompt agent_id prompt_type _ _ =>
      Some (t +:+ " agent=" +:+ agent_id +:+ " prompt_type=" +:+ PromptType_debug prompt_type)
  | CommandRun job_id _ _ _ namespace command _ =>
      if is_empty namespace then Some (t +:+ " id=" +:+ job_id +:+ " cmd=" +:+ command)
      else Some (t +:+ " id=" +:+ job_id +:+ " ns=" +:+ namespace +:+ " cmd=" +:+ command)
  | JobCreated id kind name _ _ _ _ _ namespace _ =>
      if is_empty namespace
      then Some (t +:+ " id=" +:+ id +:+ " kind=" +:+ kind +:+ " name=" +:+ name)
      else Some (t +:+ " id=" +:+ id +:+ " ns=" +:+ namespace +:+ " kind=" +:+ kind
                 +:+ " name=" +:+ name)
  | JobAdvanced id step => Some (t +:+ " id=" +:+ id +:+ " step=" +:+ step)
  | JobUpdated id _ => Some (t +:+ " id=" +:+ id)
  | JobResume id _ _ _ => Some (t +:+ " id=" +:+ id)
  | JobCancelling id => Some (t +:+ " id=" +:+ id)
  | JobCancel id => Some (t +:+ " id=" +:+ id)
  | JobDeleted id => Some (t +:+ " id=" +:+ id)
  | RunbookLoaded hash version runbook =>
      let agents := object_field_len "agents" runbook in
      let jobs := object_field_len "jobs" runbook in
      match short hash 12 with
      | Some h => Some (t +:+ " hash=" +:+ h +:+ " v=" +:+ pretty version
                        +:+ " agents=" +:+ pretty agents +:+ " jobs=" +:+ pretty jobs)
      | None => None
      end
  | SessionCreated id owner =>
      match owner with
      | Owner_Job job_id => Some (t +:+ " id=" +:+ id +:+ " job=" +:+ job_id)
      | Owner_AgentRun ar_id => Some (t +:+ " id=" +:+ id +:+ " agent_run=" +:+ ar_id)
      end
  | SessionInput id _ => Some (t +:+ " id=" +:+ id)
  | SessionDeleted id => Some (t +:+ " id=" +:+ id)
  | ShellExited job_id step exit_code _ _ =>
      Some (t +:+ " job=" +:+ job_id +:+ " step=" +:+ step +:+ " exit=" +:+ pretty exit_code)
  | StepStarted job_id step _ _ => Some (t +:+ " job=" +:+ job_id +:+ " step=" +:+ step)
  | StepWaiting job_id step _ _ => Some (t +:+ " job=" +:+ job_id +:+ " step=" +:+ step)
  | StepCompleted job_id step => Some (t +:+ " job=" +:+ job_id +:+ " step=" +:+ step)
  | StepFailed job_id step _ => Some (t +:+ " job=" +:+ job_id +:+ " step=" +:+ step)
  | Shutdown | Custom => Some t
  | TimerStart id => Some (t +:+ " id=" +:+ id)
  | WorkspaceCreated id _ _ _ _ => Some (t +:+ " id=" +:+ id)
  | WorkspaceReady id | WorkspaceFailed id _ | WorkspaceDeleted id =>
      Some (t +:+ " id=" +:+ id)
  | WorkspaceDrop id => Some (t +:+ " id=" +:+ id)
  | CronStarted cron_name _ _ _ _ _ => Some (t +:+ " cron=" +:+ cron_name)
  | CronStopped cron_name _ => Some (t +:+ " cron=" +:+ cron_name)
  | CronOnce cron_name job_id _ _ _ agent_name _ _ _ _ =>
      match agent_name with
      | Some agent => Some (t +:+ " cron=" +:+ cron_name +:+ " agent=" +:+ agent)
      | None => Some (t +:+ " cron=" +:+ cron_name +:+ " job=" +:+ job_id)
      end
  | CronFired cron_name job_id agent_run_id _ =>
      match agent_run_id with
      | Some ar_id => Some (t +:+ " cron=" +:+ cron_name +:+ " agent_run=" +:+ ar_id)
      | None => Some (t +:+ " cron=" +:+ cron_name +:+ " job=" +:+ job_id)
      end
  | CronDeleted cron_name namespace =>
      if is_empty namespace then Some (t +:+ " cron=" +:+ cron_name)
      else Some (t +:+ " cron=" +:+ cron_name +:+ " ns=" +:+ namespace)
  | WorkerStarted worker_name _ _ _ _ _ => Some (t +:+ " worker=" +:+ worker_name)
  | WorkerWake worker_name _ => Some (t +:+ " worker=" +:+ worker_name)
  | WorkerPollComplete worker_name items =>
      Some (t +:+ " worker=" +:+ worker_name +:+ " items=" +:+ pretty (length items))
  | WorkerTakeComplete worker_name item_id _ exit_code _ =>
      Some (t +:+ " worker=" +:+ worker_name +:+ " item=" +:+ item_id
            +:+ " exit=" +:+ pretty exit_code)
  | WorkerItemDispatched worker_name item_id job_id _ =>
      Some (t +:+ " worker=" +:+ worker_name +:+ " item=" +:+ item_id +:+ " job=" +:+ job_id)
  | WorkerStopped worker_name _ => Some (t +:+ " worker=" +:+ worker_name)
  | WorkerResized worker_name concurrency namespace =>
      if is_empty namespace
      then Some (t +:+ " worker=" +:+ worker_name +:+ " concurrency=" +:+ pretty concurrency)
      else Some (t +:+ " worker=" +:+ worker_name +:+ " ns=" +:+ namespace
                 +:+ " concurrency=" +:+ pretty concurrency)
  | WorkerDeleted worker_name namespace =>
      if is_empty namespace then Some (t +:+ " worker=" +:+ worker_name)
      else Some (t +:+ " worker=" +:+ worker_name +:+ " ns=" +:+ namespace)
  | QueuePushed queue_name item_id _ _ _ =>
      Some (t +:+ " queue=" +:+ queue_name +:+ " item=" +:+ item_id)
  | QueueTaken queue_name item_id _ _ =>
      Some (t +:+ " queue=" +:+ queue_name +:+ " item=" +:+ item_id)
  | QueueCompleted queue_name item_id _ =>
      Some (t +:+ " queue=" +:+ queue_name +:+ " item=" +:+ item_id)
  | QueueFailed queue_name item_id _ _ =>
      Some (t +:+ " queue=" +:+ queue_name +:+ " item=" +:+ item_id)
  | QueueDropped queue_name item_id _ =>
      Some (t +:+ " queue=" +:+ queue_name +:+ " item=" +:+ item_id)
  | QueueItemRetry queue_name item_id _ =>
      Some (t +:+ " queue=" +:+ queue_name +:+ " item=" +:+ item_id)
  | QueueItemDead queue_name item_id _ =>
      Some (t +:+ " queue=" +:+ queue_name +:+ " item=" +:+ item_id)
  | DecisionCreated id job_id _ owner source _ _ _ _ =>
      match owner with
      | Owner_AgentRun ar_id =>
          Some (t +:+ " id=" +:+ id +:+ " agent_run=" +:+ ar_id
                +:+ " source=" +:+ DecisionSource_debug source)
      | Owner_Job _ =>
          Some (t +:+ " id=" +:+ id +:+ " job=" +:+ job_id
                +:+ " source=" +:+ DecisionSource_debug source)
      end
  | DecisionResolved id chosen _ _ _ =>
      match chosen with
      | Some c => Some (t +:+ " id=" +:+ id +:+ " chosen=" +:+ pretty c)
      | None => Some (t +:+ " id=" +:+ id)
      end
  | AgentRunCreated id agent_name _ namespace _ _ _ _ =>
      if is_empty namespace then Some (t +:+ " id=" +:+ id +:+ " agent=" +:+ agent_name)
      else Some (t +:+ " id=" +:+ id +:+ " ns=" +:+ namespace +:+ " agent=" +:+ agent_name)
  | AgentRunStarted id agent_id => Some (t +:+ " id=" +:+ id +:+ " agent_id=" +:+ agent_id)
  | AgentRunStatusChanged id status reason =>
      match reason with
      | Some reason =>
          Some (t +:+ " id=" +:+ id +:+ " status=" +:+ AgentRunStatus_display status
                +:+ " reason=" +:+ reason)
      | None => Some (t +:+ " id=" +:+ id +:+ " status=" +:+ AgentRunStatus_display status)
      end
  | AgentRunResume id message kill =>
      if kill then Some (t +:+ " id=" +:+ id +:+ " kill=true")
      else if is_some message then Some (t +:+ " id=" +:+ id +:+ " msg=true")
      else Some (t +:+ " id=" +:+ id)
  | AgentRunDeleted id => Some (t +:+ " id=" +:+ id)
  end.

Local Close Scope string_scope.

(** ** Lemmas *)

(** The agent events and the agent states are in bijection. *)
Lemma as_from_agent_state {Value} a st o :
  as_agent_state (Value := Value) (from_agent_state a st o) = Some (a, st, o).
Proof. by destruct st. Qed.

Lemma from_as_agent_state {Value} (e : Event Value) a st o :
  as_agent_state e = Some (a, st, o) → from_agent_state a st o = e.
Proof. by destruct e; simpl; intros; simplify_eq. Qed.

(** A log line always starts with the event's name. *)
Lemma log_summary_name {Value} `{JsonValue Value} (e : Event Value) l :
  log_summary e = Some l → starts_with (event_name e) l = true.
Proof.
  destruct e; simpl log_summary; intros Hl;
    repeat match type of Hl with
    | context [match ?x with _ => _ end] => destruct x
    end; simplify_eq; reflexivity || apply starts_with_app.
Qed.
