(* ===== verification/State.v ===== *)
(** The materialized state and how events change it:
    [crates/storage/src/state.rs].

    [apply_event] is split, as in the code's [match], into one handler per
    event.  Every handler takes the environment it reads the clocks from; the
    [n]-th reading of the system clock in a handler is [clock env n].  A Rust
    [HashMap] is a [gmap]; the two searches whose result depends on the
    iteration order of a map ([AgentSignal], [project_root_for_namespace])
    take the order from the environment. *)

From S2P Require Import Prelude Ids Entities Job Event.

(** ** Data *)

Record Session := mkSession {
  session_id : string;
  session_job_id : string
}.

Inductive WorkspaceType := Folder | Worktree.

(** How a workspace type is serialized, and read back. *)
Definition WorkspaceType_serialize (t : WorkspaceType) : string :=
  match t with Folder => "folder" | Worktree => "worktree" end.

Definition WorkspaceType_deserialize (s : string) : option WorkspaceType :=
  if String.eqb s "folder" then Some Folder
  else if String.eqb s "worktree" then Some Worktree
  else None.

Record Workspace := mkWorkspace {
  workspace_id : string;
  workspace_path : PathBuf;
  workspace_branch : option string;
  workspace_owner : option OwnerId;
  workspace_status : WorkspaceStatus;
  workspace_type : WorkspaceType;
  workspace_created_at_ms : Z
}.

Definition workspace_set_status (v : WorkspaceStatus) (w : Workspace) : Workspace :=
  mkWorkspace (workspace_id w) (workspace_path w) (workspace_branch w)
    (workspace_owner w) v (workspace_type w) (workspace_created_at_ms w).

Record StoredRunbook {Value : Type} := mkStoredRunbook {
  runbook_version : Z;
  runbook_data : Value
}.
Arguments StoredRunbook : clear implicits.

Record WorkerRecord := mkWorkerRecord {
  worker_name : string;
  worker_namespace : string;
  worker_project_root : PathBuf;
  worker_runbook_hash : string;
  worker_status : string;
  worker_active_job_ids : list string;
  worker_queue_name : string;
  worker_concurrency : Z
}.

Definition worker_set_status (v : string) (w : WorkerRecord) : WorkerRecord :=
  mkWorkerRecord (worker_name w) (worker_namespace w) (worker_project_root w)
    (worker_runbook_hash w) v (worker_active_job_ids w) (worker_queue_name w)
    (worker_concurrency w).

Definition worker_set_active_job_ids (v : list string) (w : WorkerRecord) : WorkerRecord :=
  mkWorkerRecord (worker_name w) (worker_namespace w) (worker_project_root w)
    (worker_runbook_hash w) (worker_status w) v (worker_queue_name w)
    (worker_concurrency w).

Definition worker_set_concurrency (v : Z) (w : WorkerRecord) : WorkerRecord :=
  mkWorkerRecord (worker_name w) (worker_namespace w) (worker_project_root w)
    (worker_runbook_hash w) (worker_status w) (worker_active_job_ids w)
    (worker_queue_name w) v.

Inductive QueueItemStatus :=
  | Item_Pending | Item_Active | Item_Completed | Item_Failed | Item_Dead.

#[export] Instance QueueItemStatus_eq_dec : EqDecision QueueItemStatus.
Proof. solve_decision. Defined.

Definition QueueItemStatus_display (s : QueueItemStatus) : string :=
  match s with
  | Item_Pending => "pending"
  | Item_Active => "active"
  | Item_Completed => "completed"
  | Item_Failed => "failed"
  | Item_Dead => "dead"
  end.

Record QueueItem := mkQueueItem {
  item_id : string;
  item_queue_name : string;
  item_data : gmap string string;
  item_status : QueueItemStatus;
  item_worker_name : option string;
  item_pushed_at_epoch_ms : Z;
  item_failure_count : Z
}.

Definition item_update (i : QueueItem) (status : QueueItemStatus)
    (worker_name : option string) (failure_count : Z) : QueueItem :=
  mkQueueItem (item_id i) (item_queue_name i) (item_data i) status worker_name
    (item_pushed_at_epoch_ms i) failure_count.

Record CronRecord := mkCronRecord {
  cron_rec_name : string;
  cron_rec_namespace : string;
  cron_rec_project_root : PathBuf;
  cron_rec_runbook_hash : string;
  cron_rec_status : string;
  cron_rec_interval : string;
  cron_rec_run_target : string;
  cron_rec_started_at_ms : Z;
  cron_rec_last_fired_at_ms : option Z
}.

Definition cron_rec_update (c : CronRecord) (status : string) (last_fired : option Z) : CronRecord :=
  mkCronRecord (cron_rec_name c) (cron_rec_namespace c) (cron_rec_project_root c)
    (cron_rec_runbook_hash c) status (cron_rec_interval c) (cron_rec_run_target c)
    (cron_rec_started_at_ms c) last_fired.

Record MaterializedState {Value : Type} := mkState {
  jobs : gmap string Job;
  sessions : gmap string Session;
  workspaces : gmap string Workspace;
  runbooks : gmap string (StoredRunbook Value);
  workers : gmap string WorkerRecord;
  queue_items : gmap string (list QueueItem);
  crons : gmap string CronRecord;
  decisions : gmap string Decision;
  agent_runs : gmap string AgentRun;
  agents : gmap string AgentRecord;
  project_roots : gmap string PathBuf
}.
Arguments MaterializedState : clear implicits.

Section State.
Context {Value : Type}.
Abbreviation St := (MaterializedState Value) (only parsing).
Implicit Types (s : St) (env : Env).

Definition MaterializedState_default : St :=
  mkState Value ∅ ∅ ∅ ∅ ∅ ∅ ∅ ∅ ∅ ∅ ∅.

(** In-place updates of one table. *)

Definition upd_jobs (f : gmap string Job → gmap string Job) s : St :=
  mkState Value (f s.(jobs)) s.(sessions) s.(workspaces) s.(runbooks) s.(workers)
    s.(queue_items) s.(crons) s.(decisions) s.(agent_runs) s.(agents) s.(project_roots).

Definition upd_sessions (f : gmap string Session → gmap string Session) s : St :=
  mkState Value s.(jobs) (f s.(sessions)) s.(workspaces) s.(runbooks) s.(workers)
    s.(queue_items) s.(crons) s.(decisions) s.(agent_runs) s.(agents) s.(project_roots).

Definition upd_workspaces (f : gmap string Workspace → gmap string Workspace) s : St :=
  mkState Value s.(jobs) s.(sessions) (f s.(workspaces)) s.(runbooks) s.(workers)
    s.(queue_items) s.(crons) s.(decisions) s.(agent_runs) s.(agents) s.(project_roots).

Definition upd_runbooks (f : gmap string (StoredRunbook Value) → gmap string (StoredRunbook Value)) s : St :=
  mkState Value s.(jobs) s.(sessions) s.(workspaces) (f s.(runbooks)) s.(workers)
    s.(queue_items) s.(crons) s.(decisions) s.(agent_runs) s.(agents) s.(project_roots).

Definition upd_workers (f : gmap string WorkerRecord → gmap string WorkerRecord) s : St :=
  mkState Value s.(jobs) s.(sessions) s.(workspaces) s.(runbooks) (f s.(workers))
    s.(queue_items) s.(crons) s.(decisions) s.(agent_runs) s.(agents) s.(project_roots).

Definition upd_queue_items (f : gmap string (list QueueItem) → gmap string (list QueueItem)) s : St :=
  mkState Value s.(jobs) s.(sessions) s.(workspaces) s.(runbooks) s.(workers)
    (f s.(queue_items)) s.(crons) s.(decisions) s.(agent_runs) s.(agents)
    s.(project_roots).

Definition upd_crons (f : gmap string CronRecord → gmap string CronRecord) s : St :=
  mkState Value s.(jobs) s.(sessions) s.(workspaces) s.(runbooks) s.(workers)
    s.(queue_items) (f s.(crons)) s.(decisions) s.(agent_runs) s.(agents)
    s.(project_roots).

Definition upd_decisions (f : gmap string Decision → gmap string Decision) s : St :=
  mkState Value s.(jobs) s.(sessions) s.(workspaces) s.(runbooks) s.(workers)
    s.(queue_items) s.(crons) (f s.(decisions)) s.(agent_runs) s.(agents)
    s.(project_roots).

Definition upd_agent_runs (f : gmap string AgentRun → gmap string AgentRun) s : St :=
  mkState Value s.(jobs) s.(sessions) s.(workspaces) s.(runbooks) s.(workers)
    s.(queue_items) s.(crons) s.(decisions) (f s.(agent_runs)) s.(agents)
    s.(project_roots).

Definition upd_agents (f : gmap string AgentRecord → gmap string AgentRecord) s : St :=
  mkState Value s.(jobs) s.(sessions) s.(workspaces) s.(runbooks) s.(workers)
    s.(queue_items) s.(crons) s.(decisions) s.(agent_runs) (f s.(agents))
    s.(project_roots).

Definition upd_project_roots (f : gmap string PathBuf → gmap string PathBuf) s : St :=
  mkState Value s.(jobs) s.(sessions) s.(workspaces) s.(runbooks) s.(workers)
    s.(queue_items) s.(crons) s.(decisions) s.(agent_runs) s.(agents)
    (f s.(project_roots)).

(** ** Queries *)

(** A value by exact key, or by a prefix that exactly one key has. *)
Definition get_by_prefix {V} (id : string) (m : gmap string V) : option V :=
  match m !! id with
  | Some v => Some v
  | None =>
      match filter (λ kv, starts_with id kv.1) (map_to_list m) with
      | [kv] => Some kv.2
      | _ => None
      end
  end.

Definition get_job s (id : string) : option Job := get_by_prefix id s.(jobs).

(** The agent of the most recent step record. *)
Definition current_agent_id (j : Job) : option string :=
  last (job_step_history j) ≫= step_agent_id.

Definition find_job_by_agent_id env s (agent_id : string) : option string :=
  find_key (λ j, bool_decide (current_agent_id j = Some agent_id))
    (iter_order env TJobs (dom s.(jobs))) s.(jobs).

Definition get_decision s (id : string) : option Decision := get_by_prefix id s.(decisions).

Definition project_root_for_namespace env s (namespace : string) : option PathBuf :=
  match s.(project_roots) !! namespace with
  | Some root => Some root
  | None =>
      match find_key (λ w, String.eqb (worker_namespace w) namespace)
              (iter_order env TWorkers (dom s.(workers))) s.(workers) with
      | Some k => worker_project_root <$> s.(workers) !! k
      | None =>
          match find_key (λ c, String.eqb (cron_rec_namespace c) namespace)
                  (iter_order env TCrons (dom s.(crons))) s.(crons) with
          | Some k => cron_rec_project_root <$> s.(crons) !! k
          | None => None
          end
      end
  end.

(** ** Agent state events *)

(** [if let OwnerId::Job(id) = owner { if let Some(job) = get_mut(id) { f } }] *)
Definition on_owner_job (owner : OwnerId) (f : Job → Job) s : St :=
  match owner with
  | Owner_Job id => upd_jobs (alter f id) s
  | Owner_AgentRun _ => s
  end.

Definition touch_agent env (agent_id : AgentId) (status : AgentRecordStatus) s : St :=
  upd_agents (alter (λ r, mkAgentRecord (rec_agent_id r) (rec_agent_name r) (rec_owner r)
    (rec_namespace r) (rec_workspace_path r) (rec_session_id r) status
    (rec_created_at_ms r) (clock env 0)) agent_id) s.

(** [{:?}] of an exit code. *)
Definition debug_exit_code (c : option Z) : string :=
  match c with
  | Some n => "Some(" +:+ pretty n +:+ ")"
  | None => "None"
  end.

Definition apply_AgentWorking env (agent_id : AgentId) (owner : OwnerId) s : St :=
  touch_agent env agent_id Record_Running
    (on_owner_job owner (job_set_step_status Running) s).

Definition apply_AgentWaiting env (agent_id : AgentId) s : St :=
  touch_agent env agent_id Record_Idle s.

Definition job_agent_exited (exit_code : option Z) (j : Job) : Job :=
  if Job_is_terminal j then j
  else if bool_decide (exit_code = Some 0%Z) then job_set_step_status Completed j
  else job_set_error (Some ("exit code: " +:+ debug_exit_code exit_code))
         (job_set_step_status Failed j).

Definition apply_AgentExited env (agent_id : AgentId) (exit_code : option Z)
    (owner : OwnerId) s : St :=
  touch_agent env agent_id Record_Exited (on_owner_job owner (job_agent_exited exit_code) s).

(** The failure of a job that has not ended. *)
Definition job_agent_failed (error : string) (j : Job) : Job :=
  if Job_is_terminal j then j
  else job_set_error (Some error) (job_set_step_status Failed j).

Definition apply_AgentFailed env (agent_id : AgentId) (error : AgentError)
    (owner : OwnerId) s : St :=
  touch_agent env agent_id Record_Exited
    (on_owner_job owner (job_agent_failed (AgentError_display error)) s).

Definition apply_AgentGone env (agent_id : AgentId) (owner : OwnerId) s : St :=
  touch_agent env agent_id Record_Gone
    (on_owner_job owner (job_agent_failed "session terminated unexpectedly") s).

Definition apply_ShellExited env (id : JobId) (exit_code : Z) s : St :=
  upd_jobs (alter (λ j,
    if (exit_code =? 0)%Z then
      finalize_current_step Outcome_Completed (clock env 0) (job_set_step_status Completed j)
    else
      let error_msg := "shell exit code: " +:+ pretty exit_code in
      finalize_current_step (Outcome_Failed error_msg) (clock env 0)
        (job_set_error (Some error_msg) (job_set_step_status Failed j))) id) s.

(** ** Jobs and steps *)

Definition apply_JobCreated env (id : JobId) (kind name runbook_hash : string)
    (cwd : PathBuf) (vars : gmap string string) (initial_step : string)
    (created_at_epoch_ms : Z) (namespace : string) (cron_name : option string) s : St :=
  let builder :=
    builder_set_namespace namespace
      (builder_set_cwd cwd
        (builder_set_runbook_hash runbook_hash
          (builder_set_vars vars
            (builder_set_name name (JobConfig_builder id kind initial_step))))) in
  let builder := match cron_name with
                 | Some cn => builder_set_cron_name cn builder
                 | None => builder
                 end in
  let job := Job_new_with_epoch_ms env (builder_build builder) created_at_epoch_ms in
  upd_jobs <[id := job]> s.

Definition apply_RunbookLoaded (hash : string) (version : Z) (runbook : Value) s : St :=
  match s.(runbooks) !! hash with
  | Some _ => s
  | None => upd_runbooks <[hash := mkStoredRunbook Value version runbook]> s
  end.

(** The guard of [JobAdvanced]: already on this step and not recovering from
    a failure. *)
Definition advance_skips (step : string) (j : Job) : bool :=
  String.eqb (job_step j) step && negb (bool_decide (job_step_status j = Failed)).

Definition advance_outcome (step : string) (j : Job) : StepOutcome :=
  if String.eqb step "failed" || String.eqb step "cancelled"
  then Outcome_Failed (default "" (job_error j))
  else Outcome_Completed.

Definition advance_status (step : string) : StepStatus :=
  if String.eqb step "failed" || String.eqb step "cancelled" then Failed
  else if String.eqb step "done" then Completed
  else Pending.

(** What [JobAdvanced] does to a job it does not skip. *)
Definition enter_step (now : Z) (step : string) (j : Job) : Job :=
  let is_failure_transition := bool_decide (job_step_status j = Failed) in
  let j := if Job_is_terminal j && negb (is_terminal_step step)
           then job_set_session_id None (job_set_error None j) else j in
  let j := finalize_current_step (advance_outcome step j) now j in
  let j := job_set_step_status (advance_status step) (job_set_step step j) in
  let j := if is_failure_transition then j else Job_reset_action_attempts j in
  let j := Job_clear_agent_signal j in
  if is_terminal_step step then j
  else push_step step now (record_step_visit step j).2.

(** The cleanup after a terminal step: no worker keeps the job as active, and
    its unresolved decisions are dropped. *)
Definition release_job (id : JobId) s : St :=
  upd_decisions (filter (λ kd, decision_job_id kd.2 ≠ id ∨ Decision_is_resolved kd.2 = true))
    (upd_workers (fmap (λ w,
       worker_set_active_job_ids (filter (λ pid, pid ≠ id) (worker_active_job_ids w)) w)) s).

Definition apply_JobAdvanced env (id : JobId) (step : string) s : St :=
  let advanced :=
    match s.(jobs) !! id with
    | Some j => if advance_skips step j then None
                else Some (upd_jobs <[id := enter_step (clock env 0) step j]> s)
    | None => Some s
    end in
  match advanced with
  | None => s
  | Some s' => if is_terminal_step step then release_job id s' else s'
  end.

Definition apply_StepStarted env (id : JobId) (agent_id agent_name : option string) s : St :=
  match s.(jobs) !! id with
  | None => s
  | Some j =>
      let j := job_set_step_status Running j in
      let '(j, s) :=
        match agent_id with
        | None => (j, s)
        | Some aid =>
            let j := set_current_step_agent_id aid j in
            let rec := mkAgentRecord aid (default "" agent_name) (Owner_Job id)
              (job_namespace j) (default (job_cwd j) (job_workspace_path j)) None
              Record_Starting (clock env 0) (clock env 0) in
            (j, upd_agents (partial_alter (λ r, Some (default rec r)) aid) s)
        end in
      let j := match agent_name with
               | Some aname => set_current_step_agent_name aname j
               | None => j
               end in
      upd_jobs <[id := update_current_step_outcome Outcome_Running j]> s
  end.

Definition apply_StepWaiting (id : JobId) (reason decision_id : option string) s : St :=
  upd_jobs (alter (λ j,
    let j := job_set_step_status (Waiting decision_id) j in
    let j := match reason with Some _ => job_set_error reason j | None => j end in
    update_current_step_outcome (Outcome_Waiting (default "" reason)) j) id) s.

Definition apply_StepCompleted env (id : JobId) s : St :=
  upd_jobs (alter (λ j,
    finalize_current_step Outcome_Completed (clock env 0) (job_set_step_status Completed j)) id) s.

Definition apply_StepFailed env (id : JobId) (error : string) s : St :=
  upd_jobs (alter (λ j,
    finalize_current_step (Outcome_Failed error) (clock env 0)
      (job_set_error (Some error) (job_set_step_status Failed j))) id) s.

Definition apply_JobCancelling (id : JobId) s : St :=
  upd_jobs (alter (job_set_cancelling true) id) s.

Definition apply_JobDeleted (id : JobId) s : St :=
  upd_agents (filter (λ kr, rec_owner kr.2 ≠ Owner_Job id))
    (upd_decisions (filter (λ kd, decision_job_id kd.2 ≠ id))
      (upd_jobs (delete id) s)).

(** ** Sessions *)

Definition rec_set_session_id (v : option string) (r : AgentRecord) : AgentRecord :=
  mkAgentRecord (rec_agent_id r) (rec_agent_name r) (rec_owner r) (rec_namespace r)
    (rec_workspace_path r) v (rec_status r) (rec_created_at_ms r) (rec_updated_at_ms r).

Definition apply_SessionCreated (id : SessionId) (owner : OwnerId) s : St :=
  let job_id_str := match owner with Owner_Job jid => jid | Owner_AgentRun _ => "" end in
  let s := upd_sessions <[id := mkSession id job_id_str]> s in
  let s := match owner with
           | Owner_Job job_id => upd_jobs (alter (job_set_session_id (Some id)) job_id) s
           | Owner_AgentRun ar_id =>
               upd_agent_runs (alter (run_set_session_id (Some id)) ar_id) s
           end in
  upd_agents (fmap (λ r,
    if bool_decide (rec_owner r = owner) && bool_decide (rec_session_id r = None)
    then rec_set_session_id (Some id) r else r)) s.

Definition apply_SessionDeleted (id : SessionId) s : St :=
  let s := upd_sessions (delete id) s in
  let s := upd_jobs (fmap (λ j,
    if bool_decide (job_session_id j = Some id) then job_set_session_id None j else j)) s in
  let s := upd_agent_runs (fmap (λ r,
    if bool_decide (run_session_id r = Some id) then run_set_session_id None r else r)) s in
  upd_agents (fmap (λ r,
    if bool_decide (rec_session_id r = Some id) then rec_set_session_id None r else r)) s.

(** ** Workspaces *)

Definition apply_WorkspaceCreated env (id : WorkspaceId) (path : PathBuf)
    (branch : option string) (owner : option OwnerId) (ws_type : option string) s : St :=
  let ws_type := match ws_type with
                 | Some t => if String.eqb t "worktree" then Worktree else Folder
                 | None => Folder
                 end in
  let s := match owner with
           | Some (Owner_Job job_id) =>
               upd_jobs (alter (λ j,
                 job_set_workspace_id (Some id) (job_set_workspace_path (Some path) j))
                 job_id) s
           | _ => s
           end in
  upd_workspaces <[id := mkWorkspace id path branch owner Workspace_Creating ws_type
                           (clock env 0)]> s.

Definition apply_WorkspaceReady (id : WorkspaceId) s : St :=
  upd_workspaces (alter (workspace_set_status Workspace_Ready) id) s.

Definition apply_WorkspaceFailed (id : WorkspaceId) (reason : string) s : St :=
  upd_workspaces (alter (workspace_set_status (Workspace_Failed reason)) id) s.

Definition apply_WorkspaceDeleted (id : WorkspaceId) s : St :=
  upd_workspaces (delete id) s.

(** The new variables win over the old ones. *)
Definition apply_JobUpdated (id : JobId) (vars : gmap string string) s : St :=
  upd_jobs (alter (λ j, job_set_vars (vars ∪ job_vars j) j) id) s.

Definition find_run_by_agent_id env s (agent_id : string) : option string :=
  find_key (λ r, bool_decide (run_agent_id r = Some agent_id))
    (iter_order env TAgentRuns (dom s.(agent_runs))) s.(agent_runs).

Definition apply_AgentSignal env (agent_id : AgentId) (kind : AgentSignalKind)
    (message : option string) s : St :=
  match kind with
  | Signal_Continue => s
  | _ =>
      let sig := mkAgentSignal kind message in
      match find_run_by_agent_id env s agent_id with
      | Some rk => upd_agent_runs (alter (λ r,
          run_set_action_tracker
            (ActionTracker_set_agent_signal sig (run_action_tracker r)) r) rk) s
      | None =>
          match find_job_by_agent_id env s agent_id with
          | Some jk => upd_jobs (alter (λ j,
              job_set_action_tracker
                (ActionTracker_set_agent_signal sig (job_action_tracker j)) j) jk) s
          | None => s
          end
      end
  end.

(** ** Workers *)

(** A non-empty namespace keeps its project root for good. *)
Definition remember_root (namespace : string) (root : PathBuf) s : St :=
  if is_empty namespace then s else upd_project_roots <[namespace := root]> s.

Definition apply_WorkerStarted (name : string) (project_root : PathBuf)
    (runbook_hash queue_name : string) (concurrency : Z) (namespace : string) s : St :=
  let key := scoped_name namespace name in
  let existing_job_ids := default [] (worker_active_job_ids <$> s.(workers) !! key) in
  let s := remember_root namespace project_root s in
  upd_workers <[key := mkWorkerRecord name namespace project_root runbook_hash "running"
                         existing_job_ids queue_name concurrency]> s.

Definition apply_WorkerItemDispatched (name : string) (id : JobId) (namespace : string) s : St :=
  upd_workers (alter (λ w,
    if bool_decide (id ∈ worker_active_job_ids w) then w
    else worker_set_active_job_ids (worker_active_job_ids w ++ [id]) w)
    (scoped_name namespace name)) s.

Definition apply_WorkerStopped (name namespace : string) s : St :=
  upd_workers (alter (worker_set_status "stopped") (scoped_name namespace name)) s.

Definition apply_WorkerResized (name : string) (concurrency : Z) (namespace : string) s : St :=
  upd_workers (alter (worker_set_concurrency concurrency) (scoped_name namespace name)) s.

Definition apply_WorkerDeleted (name namespace : string) s : St :=
  upd_workers (delete (scoped_name namespace name)) s.

(** ** Queues *)

(** [items.iter_mut().find(|i| i.id == id)] followed by an update. *)
Fixpoint alter_item (id : string) (f : QueueItem → QueueItem) (items : list QueueItem)
    : list QueueItem :=
  match items with
  | [] => []
  | i :: items' => if String.eqb (item_id i) id then f i :: items' else i :: alter_item id f items'
  end.

Definition on_item (queue_name id namespace : string) (f : QueueItem → QueueItem) s : St :=
  upd_queue_items (alter (alter_item id f) (scoped_name namespace queue_name)) s.

Definition apply_QueuePushed (queue_name id : string) (data : gmap string string)
    (pushed_at : Z) (namespace : string) s : St :=
  let key := scoped_name namespace queue_name in
  let items := default [] (s.(queue_items) !! key) in
  let items := if existsb (λ i, String.eqb (item_id i) id) items then items
               else items ++ [mkQueueItem id queue_name data Item_Pending None pushed_at 0] in
  upd_queue_items <[key := items]> s.

Definition apply_QueueTaken (queue_name id worker namespace : string) s : St :=
  on_item queue_name id namespace (λ i,
    item_update i Item_Active (Some worker) (item_failure_count i)) s.

Definition apply_QueueCompleted (queue_name id namespace : string) s : St :=
  on_item queue_name id namespace (λ i,
    item_update i Item_Completed (item_worker_name i) (item_failure_count i)) s.

(** The failure count grows only on the transition into [Failed]. *)
Definition apply_QueueFailed (queue_name id namespace : string) s : St :=
  on_item queue_name id namespace (λ i,
    item_update i Item_Failed (item_worker_name i)
      (if bool_decide (item_status i = Item_Failed) then item_failure_count i
       else (item_failure_count i +u32 1)%oj)) s.

Definition apply_QueueDropped (queue_name id namespace : string) s : St :=
  upd_queue_items (alter (filter (λ i, item_id i ≠ id)) (scoped_name namespace queue_name)) s.

Definition apply_QueueItemRetry (queue_name id namespace : string) s : St :=
  on_item queue_name id namespace (λ i, item_update i Item_Pending None 0) s.

Definition apply_QueueItemDead (queue_name id namespace : string) s : St :=
  on_item queue_name id namespace (λ i,
    item_update i Item_Dead (item_worker_name i) (item_failure_count i)) s.

(** ** Crons *)

Definition apply_CronStarted env (name : string) (project_root : PathBuf)
    (runbook_hash interval run_target namespace : string) s : St :=
  let s := remember_root namespace project_root s in
  let key := scoped_name namespace name in
  let last_fired := s.(crons) !! key ≫= cron_rec_last_fired_at_ms in
  upd_crons <[key := mkCronRecord name namespace project_root runbook_hash "running"
                       interval run_target (clock env 0) last_fired]> s.

Definition apply_CronStopped (name namespace : string) s : St :=
  upd_crons (alter (λ c, cron_rec_update c "stopped" (cron_rec_last_fired_at_ms c))
    (scoped_name namespace name)) s.

Definition apply_CronFired env (name namespace : string) s : St :=
  upd_crons (alter (λ c, cron_rec_update c (cron_rec_status c) (Some (clock env 0)))
    (scoped_name namespace name)) s.

Definition apply_CronDeleted (name namespace : string) s : St :=
  upd_crons (delete (scoped_name namespace name)) s.

(** ** Decisions *)

Definition decision_supersede (owner : OwnerId) (at_ms : Z) (new_id : DecisionId)
    (d : Decision) : Decision :=
  if bool_decide (decision_owner d = owner) && negb (Decision_is_resolved d) then
    mkDecision (decision_id d) (decision_job_id d) (decision_agent_id d) (decision_owner d)
      (decision_source d) (decision_context d) (decision_options d) (decision_chosen d)
      (decision_message d) (decision_created_at_ms d) (Some at_ms) (Some new_id)
      (decision_namespace d)
  else d.

Definition apply_DecisionCreated (id : string) (jid : JobId) (agent_id : option string)
    (owner : OwnerId) (source : DecisionSource) (context : string)
    (options : list DecisionOption) (created_at_ms : Z) (namespace : string) s : St :=
  let s := match s.(decisions) !! id with
           | Some _ => s
           | None =>
               upd_decisions (λ ds,
                 <[id := mkDecision id jid agent_id owner source context options None None
                           created_at_ms None None namespace]>
                   (decision_supersede owner created_at_ms id <$> ds)) s
           end in
  match owner with
  | Owner_Job j => upd_jobs (alter (job_set_step_status (Waiting (Some id))) j) s
  | Owner_AgentRun a => upd_agent_runs (alter (run_set_status Run_Waiting) a) s
  end.

Definition apply_DecisionResolved (id : string) (chosen : option N) (message : option string)
    (resolved_at_ms : Z) s : St :=
  upd_decisions (alter (λ d,
    mkDecision (decision_id d) (decision_job_id d) (decision_agent_id d) (decision_owner d)
      (decision_source d) (decision_context d) (decision_options d) chosen message
      (decision_created_at_ms d) (Some resolved_at_ms) (decision_superseded_by d)
      (decision_namespace d)) id) s.

(** ** Agent runs *)

Definition apply_AgentRunCreated (id : AgentRunId) (agent_name command_name namespace : string)
    (cwd : PathBuf) (runbook_hash : string) (vars : gmap string string)
    (created_at : Z) s : St :=
  upd_agent_runs <[id := mkAgentRun id agent_name command_name namespace cwd runbook_hash
    Run_Starting None None None created_at created_at ActionTracker_default vars None None]> s.

Definition apply_AgentRunStarted env (id : AgentRunId) (agent_id : AgentId) s : St :=
  match s.(agent_runs) !! id with
  | None => s
  | Some r =>
      let r := run_update r Run_Running (Some agent_id) (run_session_id r) (run_error r)
                 (clock env 0) (run_action_tracker r) in
      let rec := mkAgentRecord agent_id (run_agent_name r) (Owner_AgentRun id)
        (run_namespace r) (run_cwd r) None Record_Running (clock env 1) (clock env 1) in
      upd_agents (partial_alter (λ o, Some (default rec o)) agent_id)
        (upd_agent_runs <[id := r]> s)
  end.

Definition apply_AgentRunStatusChanged env (id : AgentRunId) (status : AgentRunStatus)
    (reason : option string) s : St :=
  let s := upd_agent_runs (alter (λ r,
    run_update r status (run_agent_id r) (run_session_id r)
      (match reason with Some e => Some e | None => run_error r end)
      (clock env 0) (run_action_tracker r)) id) s in
  if AgentRunStatus_is_terminal status then
    upd_decisions (filter (λ kd,
      decision_owner kd.2 ≠ Owner_AgentRun id ∨ Decision_is_resolved kd.2 = true)) s
  else s.

Definition apply_AgentRunDeleted (id : AgentRunId) s : St :=
  upd_agents (filter (λ kr, rec_owner kr.2 ≠ Owner_AgentRun id))
    (upd_agent_runs (delete id) s).

(** ** Dispatch *)

Definition apply_event env (e : Event Value) s : St :=
  match e with
  | AgentWorking agent_id owner => apply_AgentWorking env agent_id owner s
  | AgentWaiting agent_id _ => apply_AgentWaiting env agent_id s
  | AgentExited agent_id exit_code owner => apply_AgentExited env agent_id exit_code owner s
  | AgentFailed agent_id error owner => apply_AgentFailed env agent_id error owner s
  | AgentGone agent_id owner => apply_AgentGone env agent_id owner s
  | ShellExited id _ exit_code _ _ => apply_ShellExited env id exit_code s
  | JobCreated id kind name hash cwd vars initial_step created namespace cron_name =>
      apply_JobCreated env id kind name hash cwd vars initial_step created namespace cron_name s
  | RunbookLoaded hash version runbook => apply_RunbookLoaded hash version runbook s
  | JobAdvanced id step => apply_JobAdvanced env id step s
  | StepStarted id _ agent_id agent_name => apply_StepStarted env id agent_id agent_name s
  | StepWaiting id _ reason decision_id => apply_StepWaiting id reason decision_id s
  | StepCompleted id _ => apply_StepCompleted env id s
  | StepFailed id _ error => apply_StepFailed env id error s
  | JobCancelling id => apply_JobCancelling id s
  | JobDeleted id => apply_JobDeleted id s
  | SessionCreated id owner => apply_SessionCreated id owner s
  | SessionDeleted id => apply_SessionDeleted id s
  | WorkspaceCreated id path branch owner ws_type =>
      apply_WorkspaceCreated env id path branch owner ws_type s
  | WorkspaceReady id => apply_WorkspaceReady id s
  | WorkspaceFailed id reason => apply_WorkspaceFailed id reason s
  | WorkspaceDeleted id => apply_WorkspaceDeleted id s
  | JobUpdated id vars => apply_JobUpdated id vars s
  | AgentSignalled agent_id kind message => apply_AgentSignal env agent_id kind message s
  | WorkerStarted name root hash queue_name concurrency namespace =>
      apply_WorkerStarted name root hash queue_name concurrency namespace s
  | WorkerItemDispatched name _ id namespace => apply_WorkerItemDispatched name id namespace s
  | WorkerStopped name namespace => apply_WorkerStopped name namespace s
  | WorkerResized name concurrency namespace =>
      apply_WorkerResized name concurrency namespace s
  | WorkerDeleted name namespace => apply_WorkerDeleted name namespace s
  | QueuePushed queue_name id data pushed_at namespace =>
      apply_QueuePushed queue_name id data pushed_at namespace s
  | QueueTaken queue_name id worker namespace => apply_QueueTaken queue_name id worker namespace s
  | QueueCompleted queue_name id namespace => apply_QueueCompleted queue_name id namespace s
  | QueueFailed queue_name id _ namespace => apply_QueueFailed queue_name id namespace s
  | QueueDropped queue_name id namespace => apply_QueueDropped queue_name id namespace s
  | QueueItemRetry queue_name id namespace => apply_QueueItemRetry queue_name id namespace s
  | QueueItemDead queue_name id namespace => apply_QueueItemDead queue_name id namespace s
  | CronStarted name root hash interval target namespace =>
      apply_CronStarted env name root hash interval target namespace s
  | CronStopped name namespace => apply_CronStopped name namespace s
  | CronFired name _ _ namespace => apply_CronFired env name namespace s
  | CronDeleted name namespace => apply_CronDeleted name namespace s
  | DecisionCreated id jid agent_id owner source context options created namespace =>
      apply_DecisionCreated id jid agent_id owner source context options created namespace s
  | DecisionResolved id chosen message resolved_at _ =>
      apply_DecisionResolved id chosen message resolved_at s
  | AgentRunCreated id agent_name command_name namespace cwd hash vars created =>
      apply_AgentRunCreated id agent_name command_name namespace cwd hash vars created s
  | AgentRunStarted id agent_id => apply_AgentRunStarted env id agent_id s
  | AgentRunStatusChanged id status reason =>
      apply_AgentRunStatusChanged env id status reason s
  | AgentRunDeleted id => apply_AgentRunDeleted id s
  | CommandRun _ _ project_root _ namespace _ _ => remember_root namespace project_root s
  | Custom | TimerStart _ | SessionInput _ _ | AgentInput _ _ | JobResume _ _ _ _
  | JobCancel _ | AgentRunResume _ _ _ | WorkspaceDrop _ | WorkerWake _ _
  | WorkerPollComplete _ _ | WorkerTakeComplete _ _ _ _ _ | AgentIdle _
  | AgentPrompt _ _ _ _ | AgentStop _ | CronOnce _ _ _ _ _ _ _ _ _ _ | Shutdown => s
  end.

(** Replaying a log: each event in turn, under its own environment. *)
Definition replay (es : list (Env * Event Value)) s : St :=
  fold_left (λ s ee, apply_event ee.1 ee.2 s) es s.
End State.
