(* ===== verification/StateEquiv.v ===== *)
(** Wall-clock independence of the materialized state.

    [apply_event] stamps some fields with the clock of the machine that runs
    it, so a log replayed later does not give the same state but the same one
    up to these stamps.  This file makes that precise: [≡] on the records
    forgets the stamped fields, and every handler of [State] respects it, for
    any two clocks ([apply_event_equiv]). *)

From S2P Require Import Prelude Ids Entities Job Event State.

(** ** Equality up to clock stamps *)

#[export] Instance Job_equiv : Equiv Job := λ j1 j2, erase_Job j1 = erase_Job j2.

Definition erase_AgentRecord (r : AgentRecord) : AgentRecord :=
  mkAgentRecord (rec_agent_id r) (rec_agent_name r) (rec_owner r) (rec_namespace r)
    (rec_workspace_path r) (rec_session_id r) (rec_status r) 0 0.

#[export] Instance AgentRecord_equiv : Equiv AgentRecord :=
  λ r1 r2, erase_AgentRecord r1 = erase_AgentRecord r2.

Definition erase_AgentRun (r : AgentRun) : AgentRun :=
  run_update r (run_status r) (run_agent_id r) (run_session_id r) (run_error r) 0
    (run_action_tracker r).

#[export] Instance AgentRun_equiv : Equiv AgentRun :=
  λ r1 r2, erase_AgentRun r1 = erase_AgentRun r2.

Definition erase_Workspace (w : Workspace) : Workspace :=
  mkWorkspace (workspace_id w) (workspace_path w) (workspace_branch w) (workspace_owner w)
    (workspace_status w) (workspace_type w) 0.

#[export] Instance Workspace_equiv : Equiv Workspace :=
  λ w1 w2, erase_Workspace w1 = erase_Workspace w2.

Definition erase_CronRecord (c : CronRecord) : CronRecord :=
  mkCronRecord (cron_rec_name c) (cron_rec_namespace c) (cron_rec_project_root c)
    (cron_rec_runbook_hash c) (cron_rec_status c) (cron_rec_interval c)
    (cron_rec_run_target c) 0 ((λ _, 0%Z) <$> cron_rec_last_fired_at_ms c).

#[export] Instance CronRecord_equiv : Equiv CronRecord :=
  λ c1 c2, erase_CronRecord c1 = erase_CronRecord c2.

#[export] Instance Job_equivalence : Equivalence (≡@{Job}).
Proof. split; unfold equiv, Job_equiv; congruence. Qed.
#[export] Instance AgentRecord_equivalence : Equivalence (≡@{AgentRecord}).
Proof. split; unfold equiv, AgentRecord_equiv; congruence. Qed.
#[export] Instance AgentRun_equivalence : Equivalence (≡@{AgentRun}).
Proof. split; unfold equiv, AgentRun_equiv; congruence. Qed.
#[export] Instance Workspace_equivalence : Equivalence (≡@{Workspace}).
Proof. split; unfold equiv, Workspace_equiv; congruence. Qed.
#[export] Instance CronRecord_equivalence : Equivalence (≡@{CronRecord}).
Proof. split; unfold equiv, CronRecord_equiv; congruence. Qed.

Section State_equiv.
Context {Value : Type}.
Abbreviation St := (MaterializedState Value) (only parsing).
Implicit Types (s : St).

Record state_equiv s1 s2 : Prop := {
  eq_jobs : s1.(jobs) ≡ s2.(jobs);
  eq_sessions : s1.(sessions) = s2.(sessions);
  eq_workspaces : s1.(workspaces) ≡ s2.(workspaces);
  eq_runbooks : s1.(runbooks) = s2.(runbooks);
  eq_workers : s1.(workers) = s2.(workers);
  eq_queue_items : s1.(queue_items) = s2.(queue_items);
  eq_crons : s1.(crons) ≡ s2.(crons);
  eq_decisions : s1.(decisions) = s2.(decisions);
  eq_agent_runs : s1.(agent_runs) ≡ s2.(agent_runs);
  eq_agents : s1.(agents) ≡ s2.(agents);
  eq_project_roots : s1.(project_roots) = s2.(project_roots)
}.

#[export] Instance State_equiv : Equiv St := state_equiv.

#[export] Instance State_equivalence : Equivalence (≡@{St}).
Proof.
  split.
  - intros s. by split.
  - intros s1 s2 []. by split.
  - intros s1 s2 s3 [] []. split; etrans; eauto.
Qed.

(** A table update respects [≡] when its function does. *)
Ltac upd_equiv := intros Hf []; split; simpl; auto; congruence.

Lemma upd_jobs_equiv f g s1 s2 :
  (∀ m1 m2, m1 ≡ m2 → f m1 ≡ g m2) → s1 ≡ s2 → upd_jobs f s1 ≡ upd_jobs g s2.
Proof. upd_equiv. Qed.
Lemma upd_workspaces_equiv f g s1 s2 :
  (∀ m1 m2, m1 ≡ m2 → f m1 ≡ g m2) → s1 ≡ s2 → upd_workspaces f s1 ≡ upd_workspaces g s2.
Proof. upd_equiv. Qed.
Lemma upd_crons_equiv f g s1 s2 :
  (∀ m1 m2, m1 ≡ m2 → f m1 ≡ g m2) → s1 ≡ s2 → upd_crons f s1 ≡ upd_crons g s2.
Proof. upd_equiv. Qed.
Lemma upd_agent_runs_equiv f g s1 s2 :
  (∀ m1 m2, m1 ≡ m2 → f m1 ≡ g m2) → s1 ≡ s2 → upd_agent_runs f s1 ≡ upd_agent_runs g s2.
Proof. upd_equiv. Qed.
Lemma upd_agents_equiv f g s1 s2 :
  (∀ m1 m2, m1 ≡ m2 → f m1 ≡ g m2) → s1 ≡ s2 → upd_agents f s1 ≡ upd_agents g s2.
Proof. upd_equiv. Qed.

#[export] Instance upd_sessions_proper f : Proper ((≡) ==> (≡)) (upd_sessions (Value:=Value) f).
Proof. intros s1 s2 []. split; simpl; congruence || done. Qed.
#[export] Instance upd_runbooks_proper f : Proper ((≡) ==> (≡)) (upd_runbooks (Value:=Value) f).
Proof. intros s1 s2 []. split; simpl; congruence || done. Qed.
#[export] Instance upd_workers_proper f : Proper ((≡) ==> (≡)) (upd_workers (Value:=Value) f).
Proof. intros s1 s2 []. split; simpl; congruence || done. Qed.
#[export] Instance upd_queue_items_proper f :
  Proper ((≡) ==> (≡)) (upd_queue_items (Value:=Value) f).
Proof. intros s1 s2 []. split; simpl; congruence || done. Qed.
#[export] Instance upd_decisions_proper f : Proper ((≡) ==> (≡)) (upd_decisions (Value:=Value) f).
Proof. intros s1 s2 []. split; simpl; congruence || done. Qed.
#[export] Instance upd_project_roots_proper f :
  Proper ((≡) ==> (≡)) (upd_project_roots (Value:=Value) f).
Proof. intros s1 s2 []. split; simpl; congruence || done. Qed.

(** Entrywise updates of the five stamped tables. *)
Lemma alter_equiv {V} `{Equiv V} (f g : V → V) k (m1 m2 : gmap string V) :
  (∀ x y, x ≡ y → f x ≡ g y) → m1 ≡ m2 → alter f k m1 ≡ alter g k m2.
Proof. intros Hf Hm. by apply alter_proper. Qed.

Lemma fmap_equiv {V} `{Equiv V} (f g : V → V) (m1 m2 : gmap string V) :
  (∀ x y, x ≡ y → f x ≡ g y) → m1 ≡ m2 → f <$> m1 ≡ g <$> m2.
Proof. intros Hf Hm. by apply map_fmap_proper. Qed.

Lemma upd_jobs_alter_equiv f g k s1 s2 :
  (∀ x y, x ≡ y → f x ≡ g y) → s1 ≡ s2 →
  upd_jobs (alter f k) s1 ≡ upd_jobs (alter g k) s2.
Proof. intros. apply upd_jobs_equiv; [| done]. intros. by apply alter_equiv. Qed.

(** ** Jobs *)

(** The fields of a job but the stamps. *)
Lemma Job_equiv_fields j1 j2 :
  j1 ≡ j2 →
  job_step j1 = job_step j2 ∧ job_step_status j1 = job_step_status j2 ∧
  job_error j1 = job_error j2 ∧ job_namespace j1 = job_namespace j2 ∧
  job_cwd j1 = job_cwd j2 ∧ job_workspace_path j1 = job_workspace_path j2 ∧
  job_session_id j1 = job_session_id j2 ∧ job_vars j1 = job_vars j2 ∧
  job_step_visits j1 = job_step_visits j2 ∧
  job_action_tracker j1 = job_action_tracker j2 ∧
  erase_StepRecord <$> job_step_history j1 = erase_StepRecord <$> job_step_history j2.
Proof.
  intros H. split_and!;
    [ exact (f_equal job_step H) | exact (f_equal job_step_status H)
    | exact (f_equal job_error H) | exact (f_equal job_namespace H)
    | exact (f_equal job_cwd H) | exact (f_equal job_workspace_path H)
    | exact (f_equal job_session_id H) | exact (f_equal job_vars H)
    | exact (f_equal job_step_visits H) | exact (f_equal job_action_tracker H)
    | exact (f_equal job_step_history H) ].
Qed.

#[export] Instance Job_is_terminal_proper : Proper ((≡) ==> (=)) Job_is_terminal.
Proof. intros j1 j2 H. unfold Job_is_terminal. by rewrite (proj1 (Job_equiv_fields _ _ H)). Qed.

#[export] Instance current_agent_id_proper : Proper ((≡) ==> (=)) current_agent_id.
Proof.
  intros j1 j2 H. apply Job_equiv_fields in H as (_&_&_&_&_&_&_&_&_&_&H).
  unfold current_agent_id. apply (f_equal last) in H. rewrite !fmap_last in H.
  destruct (last (job_step_history j1)), (last (job_step_history j2)); simplify_eq/=; done.
Qed.

(** Assignments. *)
Ltac job_field f := intros j1 j2 H; exact (f_equal f H).

#[export] Instance job_set_step_proper v : Proper ((≡) ==> (≡)) (job_set_step v).
Proof. job_field (job_set_step v). Qed.
#[export] Instance job_set_step_status_proper v : Proper ((≡) ==> (≡)) (job_set_step_status v).
Proof. job_field (job_set_step_status v). Qed.
#[export] Instance job_set_error_proper v : Proper ((≡) ==> (≡)) (job_set_error v).
Proof. job_field (job_set_error v). Qed.
#[export] Instance job_set_session_id_proper v : Proper ((≡) ==> (≡)) (job_set_session_id v).
Proof. job_field (job_set_session_id v). Qed.
#[export] Instance job_set_workspace_id_proper v : Proper ((≡) ==> (≡)) (job_set_workspace_id v).
Proof. job_field (job_set_workspace_id v). Qed.
#[export] Instance job_set_workspace_path_proper v :
  Proper ((≡) ==> (≡)) (job_set_workspace_path v).
Proof. job_field (job_set_workspace_path v). Qed.
#[export] Instance job_set_cancelling_proper v : Proper ((≡) ==> (≡)) (job_set_cancelling v).
Proof. job_field (job_set_cancelling v). Qed.
#[export] Instance job_set_vars_proper : Proper ((=) ==> (≡) ==> (≡)) job_set_vars.
Proof. intros v ? <-. job_field (job_set_vars v). Qed.
#[export] Instance job_set_tracker_proper : Proper ((=) ==> (≡) ==> (≡)) job_set_action_tracker.
Proof. intros v ? <-. job_field (job_set_action_tracker v). Qed.
#[export] Instance job_set_visits_proper : Proper ((=) ==> (≡) ==> (≡)) job_set_step_visits.
Proof. intros v ? <-. job_field (job_set_step_visits v). Qed.

(** The operations on the current record. *)
Lemma finalize_equiv o t1 t2 j1 j2 :
  j1 ≡ j2 → finalize_current_step o t1 j1 ≡ finalize_current_step o t2 j2.
Proof.
  unfold equiv, Job_equiv. intros H. rewrite (erase_finalize o t1), (erase_finalize o t2).
  by rewrite H.
Qed.
#[export] Instance update_outcome_proper o : Proper ((≡) ==> (≡)) (update_current_step_outcome o).
Proof. intros j1 j2 H. red. red. by rewrite erase_update_outcome, H, <- erase_update_outcome. Qed.
#[export] Instance set_agent_id_proper a : Proper ((≡) ==> (≡)) (set_current_step_agent_id a).
Proof. intros j1 j2 H. red. red. by rewrite erase_set_agent_id, H, <- erase_set_agent_id. Qed.
#[export] Instance set_agent_name_proper a : Proper ((≡) ==> (≡)) (set_current_step_agent_name a).
Proof. intros j1 j2 H. red. red. by rewrite erase_set_agent_name, H, <- erase_set_agent_name. Qed.

Lemma push_step_equiv n t1 t2 j1 j2 : j1 ≡ j2 → push_step n t1 j1 ≡ push_step n t2 j2.
Proof.
  intros H.
  assert (∀ t j, erase_Job (push_step n t j) = push_step n 0 (erase_Job j)) as Hp.
  { intros t j. unfold push_step, erase_Job, job_set_step_history. simpl.
    by rewrite fmap_app. }
  unfold equiv, Job_equiv. rewrite !Hp. exact (f_equal (push_step n 0) H).
Qed.

#[export] Instance record_step_visit_proper n :
  Proper ((≡) ==> (≡)) (λ j, (record_step_visit n j).2).
Proof.
  intros j1 j2 H. pose proof (Job_equiv_fields _ _ H) as (_&_&_&_&_&_&_&_&Hv&_).
  unfold record_step_visit. simpl. rewrite Hv. by f_equiv.
Qed.
#[export] Instance reset_attempts_proper : Proper ((≡) ==> (≡)) Job_reset_action_attempts.
Proof.
  intros j1 j2 H. pose proof (Job_equiv_fields _ _ H) as (_&_&_&_&_&_&_&_&_&Ht&_).
  unfold Job_reset_action_attempts. rewrite Ht. by f_equiv.
Qed.
#[export] Instance clear_signal_proper : Proper ((≡) ==> (≡)) Job_clear_agent_signal.
Proof.
  intros j1 j2 H. pose proof (Job_equiv_fields _ _ H) as (_&_&_&_&_&_&_&_&_&Ht&_).
  unfold Job_clear_agent_signal. rewrite Ht. by f_equiv.
Qed.

Lemma advance_job_equiv t1 t2 step j1 j2 :
  j1 ≡ j2 → enter_step t1 step j1 ≡ enter_step t2 step j2.
Proof.
  intros H. pose proof (Job_equiv_fields _ _ H) as (_&Hst&_).
  unfold enter_step. rewrite Hst, (Job_is_terminal_proper _ _ H).
  set (c := Job_is_terminal j2 && negb (is_terminal_step step)).
  assert (∃ k1 k2, (if c then job_set_session_id None (job_set_error None j1) else j1) = k1 ∧
                   (if c then job_set_session_id None (job_set_error None j2) else j2) = k2 ∧
                   k1 ≡ k2) as (k1 & k2 & -> & -> & Hk).
  { destruct c; do 2 eexists; (split_and!; [done | done |]); [by do 2 f_equiv | done]. }
  pose proof (Job_equiv_fields _ _ Hk) as (_&_&He&_).
  assert (advance_outcome step k1 = advance_outcome step k2) as Ho.
  { unfold advance_outcome. by rewrite He. }
  rewrite Ho. set (o := advance_outcome step k2).
  assert (finalize_current_step o t1 k1 ≡ finalize_current_step o t2 k2) as Hf
    by by apply finalize_equiv.
  revert Hf. generalize (finalize_current_step o t1 k1), (finalize_current_step o t2 k2).
  intros m1 m2 Hm. destruct (bool_decide _), (is_terminal_step step);
    try apply push_step_equiv; try apply record_step_visit_proper; by repeat f_equiv.
Qed.

(** ** Handlers *)

Lemma upd_agents_fmap_equiv f g s1 s2 :
  (∀ x y, x ≡ y → f x ≡ g y) → s1 ≡ s2 → upd_agents (fmap f) s1 ≡ upd_agents (fmap g) s2.
Proof. intros. apply upd_agents_equiv; [| done]. intros. by apply fmap_equiv. Qed.

Lemma upd_runs_alter_equiv f g k s1 s2 :
  (∀ x y, x ≡ y → f x ≡ g y) → s1 ≡ s2 →
  upd_agent_runs (alter f k) s1 ≡ upd_agent_runs (alter g k) s2.
Proof. intros. apply upd_agent_runs_equiv; [| done]. intros. by apply alter_equiv. Qed.

Lemma upd_agents_alter_equiv f g k s1 s2 :
  (∀ x y, x ≡ y → f x ≡ g y) → s1 ≡ s2 →
  upd_agents (alter f k) s1 ≡ upd_agents (alter g k) s2.
Proof. intros. apply upd_agents_equiv; [| done]. intros. by apply alter_equiv. Qed.

(** The fields of an agent record and of an agent run but the stamps. *)
Lemma AgentRecord_equiv_fields r1 r2 :
  r1 ≡ r2 → rec_owner r1 = rec_owner r2 ∧ rec_session_id r1 = rec_session_id r2.
Proof. intros H. split; [exact (f_equal rec_owner H) | exact (f_equal rec_session_id H)]. Qed.

Lemma AgentRun_equiv_fields r1 r2 :
  r1 ≡ r2 →
  run_agent_id r1 = run_agent_id r2 ∧ run_session_id r1 = run_session_id r2 ∧
  run_error r1 = run_error r2 ∧ run_action_tracker r1 = run_action_tracker r2 ∧
  run_agent_name r1 = run_agent_name r2 ∧ run_namespace r1 = run_namespace r2 ∧
  run_cwd r1 = run_cwd r2.
Proof.
  intros H. split_and!;
    [ exact (f_equal run_agent_id H) | exact (f_equal run_session_id H)
    | exact (f_equal run_error H) | exact (f_equal run_action_tracker H)
    | exact (f_equal run_agent_name H) | exact (f_equal run_namespace H)
    | exact (f_equal run_cwd H) ].
Qed.

#[export] Instance rec_set_session_id_proper v : Proper ((≡) ==> (≡)) (rec_set_session_id v).
Proof. intros r1 r2 H. exact (f_equal (rec_set_session_id v) H). Qed.
#[export] Instance run_set_session_id_proper v : Proper ((≡) ==> (≡)) (run_set_session_id v).
Proof. intros r1 r2 H. exact (f_equal (run_set_session_id v) H). Qed.
#[export] Instance run_set_status_proper v : Proper ((≡) ==> (≡)) (run_set_status v).
Proof. intros r1 r2 H. exact (f_equal (run_set_status v) H). Qed.
#[export] Instance run_set_tracker_proper : Proper ((=) ==> (≡) ==> (≡)) run_set_action_tracker.
Proof. intros v ? <- r1 r2 H. exact (f_equal (run_set_action_tracker v) H). Qed.
#[export] Instance workspace_set_status_proper v :
  Proper ((≡) ==> (≡)) (workspace_set_status v).
Proof. intros w1 w2 H. exact (f_equal (workspace_set_status v) H). Qed.

Lemma find_key_equiv {V} `{Equiv V} (p : V → bool) t e1 e2 (m1 m2 : gmap string V) :
  same_order e1 e2 → Proper ((≡) ==> (=)) p → m1 ≡ m2 →
  find_key p (iter_order e1 t (dom m1)) m1 = find_key p (iter_order e2 t (dom m2)) m2.
Proof.
  intros He Hp Hm. rewrite (He t), (dom_proper_L _ _ Hm). apply find_key_ext.
  intros k. specialize (Hm k). destruct Hm as [x y Hxy|]; simpl; [| done].
  f_equal. by apply Hp.
Qed.

Section handlers.
Context (e1 e2 : Env) (He : same_order e1 e2).
Context (s1 s2 : St) (Hs : s1 ≡ s2).

Lemma touch_agent_equiv a st (t1 t2 : St) :
  t1 ≡ t2 → touch_agent e1 a st t1 ≡ touch_agent e2 a st t2.
Proof.
  apply upd_agents_alter_equiv. intros r1 r2 H.
  exact (f_equal (λ r, mkAgentRecord (rec_agent_id r) (rec_agent_name r) (rec_owner r)
    (rec_namespace r) (rec_workspace_path r) (rec_session_id r) st 0%Z 0%Z) H).
Qed.

Lemma on_owner_job_equiv owner f :
  Proper ((≡) ==> (≡)) f → on_owner_job owner f s1 ≡ on_owner_job owner f s2.
Proof. intros Hf. destruct owner; simpl; [| done]. by apply upd_jobs_alter_equiv. Qed.

#[local] Instance job_agent_exited_proper c : Proper ((≡) ==> (≡)) (job_agent_exited c).
Proof.
  intros j1 j2 H. unfold job_agent_exited. rewrite (Job_is_terminal_proper _ _ H).
  repeat case_match; by repeat f_equiv.
Qed.
#[local] Instance job_agent_failed_proper c : Proper ((≡) ==> (≡)) (job_agent_failed c).
Proof.
  intros j1 j2 H. unfold job_agent_failed. rewrite (Job_is_terminal_proper _ _ H).
  repeat case_match; by repeat f_equiv.
Qed.

Lemma ShellExited_equiv id c : apply_ShellExited e1 id c s1 ≡ apply_ShellExited e2 id c s2.
Proof.
  apply upd_jobs_alter_equiv; [| done]. intros j1 j2 H. case_match;
    apply finalize_equiv; by repeat f_equiv.
Qed.

Lemma StepCompleted_equiv id : apply_StepCompleted e1 id s1 ≡ apply_StepCompleted e2 id s2.
Proof.
  apply upd_jobs_alter_equiv; [| done]. intros j1 j2 H. apply finalize_equiv. by f_equiv.
Qed.

Lemma StepFailed_equiv id e : apply_StepFailed e1 id e s1 ≡ apply_StepFailed e2 id e s2.
Proof.
  apply upd_jobs_alter_equiv; [| done]. intros j1 j2 H. apply finalize_equiv. by do 2 f_equiv.
Qed.

Lemma StepWaiting_equiv id r d : apply_StepWaiting id r d s1 ≡ apply_StepWaiting id r d s2.
Proof.
  apply upd_jobs_alter_equiv; [| done]. intros j1 j2 H. simpl. apply update_outcome_proper.
  case_match; by repeat f_equiv.
Qed.

Lemma release_job_equiv id (t1 t2 : St) : t1 ≡ t2 → release_job id t1 ≡ release_job id t2.
Proof. intros H. unfold release_job. by do 2 f_equiv. Qed.

Lemma upd_jobs_insert_equiv k j1 j2 (t1 t2 : St) :
  j1 ≡ j2 → t1 ≡ t2 → upd_jobs <[k := j1]> t1 ≡ upd_jobs <[k := j2]> t2.
Proof. intros. apply upd_jobs_equiv; [| done]. intros. by f_equiv. Qed.

Lemma JobAdvanced_equiv id step :
  apply_JobAdvanced e1 id step s1 ≡ apply_JobAdvanced e2 id step s2.
Proof.
  unfold apply_JobAdvanced. pose proof (eq_jobs _ _ Hs id) as Hj.
  destruct Hj as [j1 j2 Hj|].
  - pose proof (Job_equiv_fields _ _ Hj) as (Hstep & Hst & _).
    assert (advance_skips step j1 = advance_skips step j2) as ->.
    { unfold advance_skips. by rewrite Hstep, Hst. }
    destruct (advance_skips step j2); [done |].
    destruct (is_terminal_step step); [apply release_job_equiv |];
      (apply upd_jobs_insert_equiv; [by apply advance_job_equiv | done]).
  - destruct (is_terminal_step step); [by apply release_job_equiv | done].
Qed.

(** An entry that is added only when the key is free. *)
Lemma upd_agents_or_insert_equiv k (r1 r2 : AgentRecord) (t1 t2 : St) :
  r1 ≡ r2 → t1 ≡ t2 →
  upd_agents (partial_alter (λ o, Some (default r1 o)) k) t1
  ≡ upd_agents (partial_alter (λ o, Some (default r2 o)) k) t2.
Proof.
  intros Hr Ht. apply upd_agents_equiv; [| done]. intros m1 m2 Hm.
  apply partial_alter_proper; [| done..].
  intros o1 o2 [x y Hxy|]; simpl; constructor; done.
Qed.

Lemma StepStarted_equiv id a n :
  apply_StepStarted e1 id a n s1 ≡ apply_StepStarted e2 id a n s2.
Proof.
  unfold apply_StepStarted. pose proof (eq_jobs _ _ Hs id) as Hj.
  destruct Hj as [j1 j2 Hj|]; [| done].
  pose proof (Job_equiv_fields _ _ Hj) as (_&_&_&Hns&Hcwd&Hws&_).
  destruct a as [a|], n as [n|]; simpl; rewrite ?Hns, ?Hcwd, ?Hws;
    apply upd_jobs_insert_equiv;
    try apply upd_agents_or_insert_equiv; try done; by repeat f_equiv.
Qed.

Lemma JobCreated_equiv id kind name hash cwd vars step created ns cron :
  apply_JobCreated e1 id kind name hash cwd vars step created ns cron s1
  ≡ apply_JobCreated e2 id kind name hash cwd vars step created ns cron s2.
Proof. by apply upd_jobs_insert_equiv. Qed.

Lemma RunbookLoaded_equiv hash v (r : Value) :
  apply_RunbookLoaded hash v r s1 ≡ apply_RunbookLoaded hash v r s2.
Proof.
  unfold apply_RunbookLoaded. rewrite (eq_runbooks _ _ Hs). case_match; [done | by f_equiv].
Qed.

Lemma upd_jobs_delete_equiv k (t1 t2 : St) :
  t1 ≡ t2 → upd_jobs (delete k) t1 ≡ upd_jobs (delete k) t2.
Proof. apply upd_jobs_equiv. intros m1 m2 H. by f_equiv. Qed.

Lemma upd_agents_filter_equiv (o : OwnerId) (t1 t2 : St) :
  t1 ≡ t2 →
  upd_agents (filter (λ kr, rec_owner kr.2 ≠ o)) t1
  ≡ upd_agents (filter (λ kr, rec_owner kr.2 ≠ o)) t2.
Proof.
  apply upd_agents_equiv. intros m1 m2 H. apply map_filter_proper; [| done].
  intros k r1 r2 Hr. cbv [curry snd]. by rewrite (proj1 (AgentRecord_equiv_fields _ _ Hr)).
Qed.

Lemma JobDeleted_equiv id : apply_JobDeleted id s1 ≡ apply_JobDeleted id s2.
Proof.
  apply upd_agents_filter_equiv. apply upd_decisions_proper.
  by apply upd_jobs_delete_equiv.
Qed.

Lemma SessionCreated_equiv id owner :
  apply_SessionCreated id owner s1 ≡ apply_SessionCreated id owner s2.
Proof.
  apply upd_agents_fmap_equiv.
  - intros r1 r2 Hr. destruct (AgentRecord_equiv_fields _ _ Hr) as [-> ->].
    case_match; [by f_equiv | done].
  - destruct owner; [apply upd_jobs_alter_equiv | apply upd_runs_alter_equiv];
      try (by apply upd_sessions_proper); intros; by f_equiv.
Qed.

Lemma SessionDeleted_equiv id : apply_SessionDeleted id s1 ≡ apply_SessionDeleted id s2.
Proof.
  apply upd_agents_fmap_equiv.
  { intros r1 r2 Hr. rewrite (proj2 (AgentRecord_equiv_fields _ _ Hr)).
    case_match; [by f_equiv | done]. }
  apply upd_agent_runs_equiv.
  { intros m1 m2. apply fmap_equiv. intros r1 r2 Hr.
    rewrite (proj1 (proj2 (AgentRun_equiv_fields _ _ Hr))). case_match; [by f_equiv | done]. }
  apply upd_jobs_equiv.
  { intros m1 m2. apply fmap_equiv. intros j1 j2 Hj.
    pose proof (Job_equiv_fields _ _ Hj) as (_&_&_&_&_&_&->&_).
    case_match; [by f_equiv | done]. }
  by apply upd_sessions_proper.
Qed.

Lemma WorkspaceCreated_equiv id path br owner ty :
  apply_WorkspaceCreated e1 id path br owner ty s1
  ≡ apply_WorkspaceCreated e2 id path br owner ty s2.
Proof.
  apply upd_workspaces_equiv; [intros; by f_equiv |].
  destruct owner as [[]|]; try done. apply upd_jobs_alter_equiv; [| done].
  intros. by repeat f_equiv.
Qed.

Lemma upd_workspaces_status_equiv id st :
  upd_workspaces (alter (workspace_set_status st) id) s1
  ≡ upd_workspaces (alter (workspace_set_status st) id) s2.
Proof.
  apply upd_workspaces_equiv; [| done]. intros. apply alter_equiv; [| done].
  intros. by f_equiv.
Qed.

Lemma WorkspaceDeleted_equiv id :
  apply_WorkspaceDeleted id s1 ≡ apply_WorkspaceDeleted id s2.
Proof. apply upd_workspaces_equiv; [| done]. intros. by f_equiv. Qed.

Lemma JobUpdated_equiv id vars : apply_JobUpdated id vars s1 ≡ apply_JobUpdated id vars s2.
Proof.
  apply upd_jobs_alter_equiv; [| done]. intros j1 j2 Hj.
  pose proof (Job_equiv_fields _ _ Hj) as (_&_&_&_&_&_&_&Hv&_). by apply job_set_vars_proper; [rewrite Hv |].
Qed.

Lemma find_job_equiv a : find_job_by_agent_id e1 s1 a = find_job_by_agent_id e2 s2 a.
Proof.
  apply find_key_equiv; [done | | apply Hs].
  intros j1 j2 Hj. by rewrite (current_agent_id_proper _ _ Hj).
Qed.

Lemma find_run_equiv a : find_run_by_agent_id e1 s1 a = find_run_by_agent_id e2 s2 a.
Proof.
  apply find_key_equiv; [done | | apply Hs].
  intros r1 r2 Hr. by rewrite (proj1 (AgentRun_equiv_fields _ _ Hr)).
Qed.

Lemma AgentSignal_equiv a k m :
  apply_AgentSignal e1 a k m s1 ≡ apply_AgentSignal e2 a k m s2.
Proof.
  unfold apply_AgentSignal. rewrite find_run_equiv, find_job_equiv.
  destruct k; try done; destruct (find_run_by_agent_id e2 s2 a); try destruct (find_job_by_agent_id e2 s2 a);
    try done; (apply upd_runs_alter_equiv || apply upd_jobs_alter_equiv); try done;
    intros x y Hxy;
    first [ pose proof (AgentRun_equiv_fields _ _ Hxy) as (_&_&_&->&_)
          | pose proof (Job_equiv_fields _ _ Hxy) as (_&_&_&_&_&_&_&_&_&->&_) ];
    by f_equiv.
Qed.

Lemma remember_root_equiv ns root (t1 t2 : St) :
  t1 ≡ t2 → remember_root ns root t1 ≡ remember_root ns root t2.
Proof. intros H. unfold remember_root. case_match; [done | by f_equiv]. Qed.

Lemma WorkerStarted_equiv name root hash q c ns :
  apply_WorkerStarted name root hash q c ns s1 ≡ apply_WorkerStarted name root hash q c ns s2.
Proof.
  unfold apply_WorkerStarted. rewrite (eq_workers _ _ Hs). f_equiv. by apply remember_root_equiv.
Qed.

Lemma QueuePushed_equiv q id data at_ms ns :
  apply_QueuePushed q id data at_ms ns s1 ≡ apply_QueuePushed q id data at_ms ns s2.
Proof. unfold apply_QueuePushed. rewrite (eq_queue_items _ _ Hs). by f_equiv. Qed.

Lemma CronStarted_equiv name root hash i r ns :
  apply_CronStarted e1 name root hash i r ns s1 ≡ apply_CronStarted e2 name root hash i r ns s2.
Proof.
  unfold apply_CronStarted. set (key := scoped_name ns name).
  pose proof (remember_root_equiv ns root _ _ Hs) as Hr.
  apply upd_crons_equiv; [| done]. intros m1 m2 Hm. apply insert_proper; [| done].
  pose proof (eq_crons _ _ Hr key) as Hc. unfold equiv, CronRecord_equiv, erase_CronRecord.
  simpl. f_equal. destruct Hc as [c1 c2 Hc|]; simpl; [| done].
  exact (f_equal cron_rec_last_fired_at_ms Hc).
Qed.

Lemma CronStopped_equiv name ns : apply_CronStopped name ns s1 ≡ apply_CronStopped name ns s2.
Proof.
  apply upd_crons_equiv; [| done]. intros m1 m2. apply alter_equiv. intros c1 c2 Hc.
  exact (f_equal (λ c, cron_rec_update c "stopped" (cron_rec_last_fired_at_ms c)) Hc).
Qed.

Lemma CronFired_equiv name ns : apply_CronFired e1 name ns s1 ≡ apply_CronFired e2 name ns s2.
Proof.
  apply upd_crons_equiv; [| done]. intros m1 m2. apply alter_equiv. intros c1 c2 Hc.
  exact (f_equal (λ c, cron_rec_update c (cron_rec_status c) (Some 0%Z)) Hc).
Qed.

Lemma CronDeleted_equiv name ns : apply_CronDeleted name ns s1 ≡ apply_CronDeleted name ns s2.
Proof. apply upd_crons_equiv; [| done]. intros. by f_equiv. Qed.

Lemma DecisionCreated_equiv id jid aid owner src ctx opts at_ms ns :
  apply_DecisionCreated id jid aid owner src ctx opts at_ms ns s1
  ≡ apply_DecisionCreated id jid aid owner src ctx opts at_ms ns s2.
Proof.
  unfold apply_DecisionCreated. rewrite (eq_decisions _ _ Hs).
  destruct owner; [apply upd_jobs_alter_equiv | apply upd_runs_alter_equiv];
    try (intros; by f_equiv); case_match; done || by apply upd_decisions_proper.
Qed.

Lemma AgentRunCreated_equiv id a c ns cwd hash vars at_ms :
  apply_AgentRunCreated id a c ns cwd hash vars at_ms s1
  ≡ apply_AgentRunCreated id a c ns cwd hash vars at_ms s2.
Proof. apply upd_agent_runs_equiv; [| done]. intros. by f_equiv. Qed.

Lemma AgentRunStarted_equiv id a :
  apply_AgentRunStarted e1 id a s1 ≡ apply_AgentRunStarted e2 id a s2.
Proof.
  unfold apply_AgentRunStarted. pose proof (eq_agent_runs _ _ Hs id) as Hr.
  destruct Hr as [r1 r2 Hr|]; [| done].
  pose proof (AgentRun_equiv_fields _ _ Hr) as (_&Hsid&Herr&Ht&Hn&Hns&Hc).
  simpl. rewrite Hsid, Herr, Ht, Hn, Hns, Hc.
  apply upd_agents_or_insert_equiv; [done |].
  apply upd_agent_runs_equiv; [| done]. intros m1 m2 Hm. apply insert_proper; [| done].
  exact (f_equal (λ r, run_update r Run_Running (Some a) (run_session_id r2) (run_error r2) 0%Z
    (run_action_tracker r2)) Hr).
Qed.

Lemma AgentRunStatusChanged_equiv id st reason :
  apply_AgentRunStatusChanged e1 id st reason s1
  ≡ apply_AgentRunStatusChanged e2 id st reason s2.
Proof.
  unfold apply_AgentRunStatusChanged.
  assert (∀ r1 r2 : AgentRun, r1 ≡ r2 →
    run_update r1 st (run_agent_id r1) (run_session_id r1)
      (match reason with Some e => Some e | None => run_error r1 end) (clock e1 0)
      (run_action_tracker r1)
    ≡ run_update r2 st (run_agent_id r2) (run_session_id r2)
      (match reason with Some e => Some e | None => run_error r2 end) (clock e2 0)
      (run_action_tracker r2)) as Hr.
  { intros r1 r2 H.
    exact (f_equal (λ r, run_update r st (run_agent_id r) (run_session_id r)
      (match reason with Some e => Some e | None => run_error r end) 0%Z
      (run_action_tracker r)) H). }
  destruct (AgentRunStatus_is_terminal st); [apply upd_decisions_proper |];
    by apply upd_runs_alter_equiv.
Qed.

Lemma AgentRunDeleted_equiv id : apply_AgentRunDeleted id s1 ≡ apply_AgentRunDeleted id s2.
Proof.
  apply upd_agents_filter_equiv. apply upd_agent_runs_equiv; [| done]. intros. by f_equiv.
Qed.

(** Every handler respects [≡]; the ones left act on tables without stamps
    or on the owner's job. *)
Lemma apply_event_equiv ev : apply_event e1 ev s1 ≡ apply_event e2 ev s2.
Proof.
  destruct ev; simpl; try done;
    eauto using ShellExited_equiv, JobCreated_equiv, RunbookLoaded_equiv, JobAdvanced_equiv,
      StepStarted_equiv, StepWaiting_equiv, StepCompleted_equiv, StepFailed_equiv,
      JobDeleted_equiv, SessionCreated_equiv, SessionDeleted_equiv, WorkspaceCreated_equiv,
      upd_workspaces_status_equiv, WorkspaceDeleted_equiv, JobUpdated_equiv,
      AgentSignal_equiv, WorkerStarted_equiv, QueuePushed_equiv, CronStarted_equiv,
      CronStopped_equiv, CronFired_equiv, CronDeleted_equiv, DecisionCreated_equiv,
      AgentRunCreated_equiv, AgentRunStarted_equiv, AgentRunStatusChanged_equiv,
      AgentRunDeleted_equiv, remember_root_equiv;
    try (apply upd_jobs_alter_equiv; [intros; by f_equiv | done]);
    try (apply touch_agent_equiv);
    try (apply on_owner_job_equiv; apply _);
    try done;
    first [apply upd_workers_proper | apply upd_queue_items_proper
          | apply upd_decisions_proper]; done.
Qed.
End handlers.

#[export] Instance apply_event_proper :
  Proper (same_order ==> (=) ==> (≡) ==> (≡)) (apply_event (Value:=Value)).
Proof. intros e1 e2 He ev ? <- s1 s2 Hs. by apply apply_event_equiv. Qed.

(** Two replays of the same events. *)
Lemma replay_equiv (es1 es2 : list (Env * Event Value)) s1 s2 :
  Forall2 (λ x y, same_order x.1 y.1 ∧ x.2 = y.2) es1 es2 → s1 ≡ s2 →
  replay es1 s1 ≡ replay es2 s2.
Proof.
  intros H. revert s1 s2. induction H as [|[e1 ev1] [e2 ev2] es1 es2 [He Hev]]; [done |].
  intros s1 s2 Hs. simpl in *. subst. apply IHForall2. by apply apply_event_equiv.
Qed.
End State_equiv.

(** The materialized state depends on the wall clock only through the time
    stamps: replaying a log under any clocks gives, up to the stamps, the state
    that the same events give with every clock at zero. *)
Theorem replay_wall_clock_independent {Value} (es : list (Env * Event Value)) s :
  replay es s ≡ replay ((λ x, (env_zero x.1, x.2)) <$> es) s.
Proof.
  apply replay_equiv; [| done]. induction es as [|[e ev] es IH]; constructor; [| done].
  split; [| done]. symmetry. apply env_zero_order.
Qed.

(** ** Iteration orders

    The iteration order of a hash map differs from run to run.  Only an agent
    signal looks for an entry by its content, so the order matters only if two
    jobs or two runs have the agent. *)

Section any_order.
Context {Value : Type}.
Abbreviation St := (MaterializedState Value) (only parsing).
Implicit Types (s : St) (ev : Event Value) (es : list (Env * Event Value)).

(** At most one run and one job have the agent of the signal. *)
Definition signal_clear ev s : Prop :=
  match ev with
  | AgentSignalled a _ _ =>
      (∀ k1 k2 r1 r2, agent_runs s !! k1 = Some r1 → agent_runs s !! k2 = Some r2 →
         run_agent_id r1 = Some a → run_agent_id r2 = Some a → k1 = k2) ∧
      (∀ k1 k2 j1 j2, jobs s !! k1 = Some j1 → jobs s !! k2 = Some j2 →
         current_agent_id j1 = Some a → current_agent_id j2 = Some a → k1 = k2)
  | _ => True
  end.

(** Every signal of a replay is clear when it is applied. *)
Fixpoint signals_clear es s : Prop :=
  match es with
  | [] => True
  | (e, ev) :: es => signal_clear ev s ∧ signals_clear es (apply_event e ev s)
  end.

(** The clocks of one environment, the iteration orders of another. *)
Definition with_order (e o : Env) : Env :=
  mkEnv (clock e) (instant e) (iter_order o) (iter_order_perm o).

Lemma find_key_order {V} (p : V → bool) t e1 e2 (m : gmap string V) :
  (∀ k1 k2 v1 v2, m !! k1 = Some v1 → m !! k2 = Some v2 → p v1 = true → p v2 = true → k1 = k2) →
  find_key p (iter_order e1 t (dom m)) m = find_key p (iter_order e2 t (dom m)) m.
Proof.
  intros Hu. destruct (find_key p (iter_order e1 t (dom m)) m) as [k|] eqn:Hf.
  - apply find_key_Some in Hf as (v & Hk & Hp). symmetry.
    eapply find_key_unique; [apply iter_order_perm | done | done |]. intros. by eapply Hu.
  - symmetry. apply find_key_None_iff; [apply iter_order_perm |].
    exact (proj1 (find_key_None_iff p _ m (iter_order_perm e1 t (dom m))) Hf).
Qed.

Lemma apply_event_with_order e o ev s :
  signal_clear ev s → apply_event (with_order e o) ev s = apply_event e ev s.
Proof.
  destruct ev; try done. intros [Hr Hj]. simpl. unfold apply_AgentSignal.
  assert (find_run_by_agent_id (with_order e o) s agent_id = find_run_by_agent_id e s agent_id) as ->.
  { apply (find_key_order _ TAgentRuns (with_order e o) e). intros ???? H1 H2 ?%bool_decide_eq_true ?%bool_decide_eq_true.
    by eapply Hr. }
  assert (find_job_by_agent_id (with_order e o) s agent_id = find_job_by_agent_id e s agent_id) as ->; [| done].
  apply (find_key_order _ TJobs (with_order e o) e). intros ???? H1 H2 ?%bool_decide_eq_true ?%bool_decide_eq_true.
  by eapply Hj.
Qed.

Lemma apply_event_any_order e1 e2 ev s1 s2 :
  signal_clear ev s1 → s1 ≡ s2 → apply_event e1 ev s1 ≡ apply_event e2 ev s2.
Proof.
  intros Hc Hs. rewrite <-(apply_event_with_order e1 e2) by done. by apply apply_event_equiv.
Qed.

(** Two replays of the same events under any clocks and iteration orders. *)
Lemma replay_any_order es1 es2 s1 s2 :
  es1.*2 = es2.*2 → signals_clear es1 s1 → s1 ≡ s2 → replay es1 s1 ≡ replay es2 s2.
Proof.
  revert es2 s1 s2. induction es1 as [|[e1 ev] es1 IH]; intros [|[e2 ev2] es2] s1 s2; try done.
  intros [= <- Hev] [Hc Hcs] Hs. simpl. apply IH; [done | done |].
  by apply apply_event_any_order.
Qed.

Lemma signals_clear_app es1 es2 s :
  signals_clear (es1 ++ es2) s ↔ signals_clear es1 s ∧ signals_clear es2 (replay es1 s).
Proof.
  revert s. induction es1 as [|[e ev] es1 IH]; intros s; simpl; [tauto |]. rewrite IH. tauto.
Qed.
End any_order.
