(* ===== verification/StateIdem.v ===== *)
(** Applying an event twice in a row.

    The daemon applies an event when the executor emits it and once more when
    it reads it back from the log, so [apply_event] is written to be
    idempotent.  This file proves that it is, event by event
    ([apply_event_twice]).  What happens when other events come between the
    two applications is in [Engine]. *)

From S2P Require Import Prelude Ids Entities Job Event State StateEquiv.

(** ** Jobs *)

Lemma with_current_step_compose f g j :
  (∀ r, step_finished_ms r = None → step_finished_ms (g r) = None) →
  with_current_step f (with_current_step g j) = with_current_step (f ∘ g) j.
Proof.
  intros Hg. unfold with_current_step. simpl. rewrite alter_last_alter_last.
  unfold job_set_step_history. simpl. f_equal. apply alter_last_ext. intros r. simpl.
  destruct (step_finished_ms r) eqn:E; simpl; rewrite ?E; [done |]. by rewrite Hg.
Qed.

(** Assignments that do not touch the history, followed by a finalization. *)
Lemma finalize_set_idemp (set : Job → Job) o t :
  (∀ h j, set (job_set_step_history h j) = job_set_step_history h (set j)) →
  (∀ j, set (set j) = set j) →
  (∀ j, job_step_history (set j) = job_step_history j) →
  ∀ j, finalize_current_step o t (set (finalize_current_step o t (set j)))
       = finalize_current_step o t (set j).
Proof.
  intros Hc Hi Hh j.
  assert (set (finalize_current_step o t (set j)) = finalize_current_step o t (set j)) as ->.
  { unfold finalize_current_step, with_current_step. rewrite Hc, Hi. by rewrite Hh. }
  apply with_current_step_finalized.
Qed.

Lemma update_outcome_idemp o j :
  update_current_step_outcome o (update_current_step_outcome o j) = update_current_step_outcome o j.
Proof. by apply with_current_step_idemp. Qed.

Lemma reset_clear_idemp j :
  Job_clear_agent_signal (Job_clear_agent_signal j) = Job_clear_agent_signal j.
Proof. done. Qed.

(** A job that has advanced to a step is skipped, or, when it has failed,
    advancing it again changes nothing. *)
Lemma advance_job_step now step j : job_step (enter_step now step j) = step.
Proof.
  unfold enter_step. destruct (is_terminal_step step) eqn:E; simpl.
  all: by destruct (bool_decide (job_step_status j = Failed)).
Qed.

Lemma advance_job_status now step j :
  job_step_status (enter_step now step j) = advance_status step.
Proof.
  unfold enter_step. destruct (is_terminal_step step) eqn:E; simpl.
  all: by destruct (bool_decide (job_step_status j = Failed)).
Qed.

Lemma advance_status_failed step :
  advance_status step = Failed → is_terminal_step step = true.
Proof.
  unfold advance_status, is_terminal_step.
  by destruct (String.eqb step "done"), (String.eqb step "failed"), (String.eqb step "cancelled").
Qed.

Lemma advance_job_skips now step j :
  advance_skips step (enter_step now step j) = negb (bool_decide (advance_status step = Failed)).
Proof.
  unfold advance_skips. by rewrite advance_job_step, advance_job_status, String.eqb_refl.
Qed.

(** The updates of [enter_step] on a terminal step, in normal form. *)
Lemma advance_job_terminal now step j :
  is_terminal_step step = true →
  enter_step now step j =
    let j := finalize_current_step (advance_outcome step j) now j in
    let j' := job_set_step_status (advance_status step) (job_set_step step j) in
    Job_clear_agent_signal
      (if bool_decide (job_step_status j = Failed) then j' else Job_reset_action_attempts j').
Proof. intros Ht. unfold enter_step. by rewrite Ht, andb_false_r. Qed.

Lemma finalize_finalized o1 o2 t1 t2 j :
  finalize_current_step o1 t1 (finalize_current_step o2 t2 j) = finalize_current_step o2 t2 j.
Proof. apply with_current_step_finalized. Qed.

Lemma advance_job_failed_idemp now step j :
  advance_status step = Failed →
  enter_step now step (enter_step now step j) = enter_step now step j.
Proof.
  intros Hf. pose proof (advance_status_failed _ Hf) as Ht.
  rewrite (advance_job_terminal _ _ (enter_step _ _ _)) by done. cbv zeta.
  assert (job_step_status (enter_step now step j) = Failed) as Hst
    by by rewrite advance_job_status.
  set (o := advance_outcome step _). clearbody o.
  change (job_step_status (finalize_current_step o now (enter_step now step j)))
    with (job_step_status (enter_step now step j)).
  rewrite bool_decide_true by done.
  rewrite (advance_job_terminal now step j) by done. cbv zeta.
  set (o' := advance_outcome step j). clearbody o'.
  set (b := bool_decide _). clearbody b.
  assert (∀ k, finalize_current_step o now
     (Job_clear_agent_signal
        (if b then job_set_step_status (advance_status step) (job_set_step step
                     (finalize_current_step o' now k))
         else Job_reset_action_attempts (job_set_step_status (advance_status step)
                (job_set_step step (finalize_current_step o' now k)))))
     = Job_clear_agent_signal
        (if b then job_set_step_status (advance_status step) (job_set_step step
                     (finalize_current_step o now (finalize_current_step o' now k)))
         else Job_reset_action_attempts (job_set_step_status (advance_status step)
                (job_set_step step (finalize_current_step o now
                   (finalize_current_step o' now k)))))) as -> by by destruct b.
  rewrite finalize_finalized. by destruct b.
Qed.

(** ** Handlers *)

Section idem.
Context {Value : Type}.
Abbreviation St := (MaterializedState Value) (only parsing).
Implicit Types (s : St) (env : Env).

(** Equality of states, table by table. *)
Lemma state_ext s1 s2 :
  jobs s1 = jobs s2 → sessions s1 = sessions s2 → workspaces s1 = workspaces s2 →
  runbooks s1 = runbooks s2 → workers s1 = workers s2 → queue_items s1 = queue_items s2 →
  crons s1 = crons s2 → decisions s1 = decisions s2 → agent_runs s1 = agent_runs s2 →
  agents s1 = agents s2 → project_roots s1 = project_roots s2 → s1 = s2.
Proof. destruct s1, s2. simpl. congruence. Qed.

Ltac by_table := apply state_ext; simpl; try done.

Lemma upd_jobs_alter_idemp f k s :
  (∀ j, f (f j) = f j) → upd_jobs (alter f k) (upd_jobs (alter f k) s) = upd_jobs (alter f k) s.
Proof. intros Hf. by_table. by apply alter_idemp. Qed.

Lemma touch_agent_idemp env a st owner f s :
  (∀ j, f (f j) = f j) →
  touch_agent env a st (on_owner_job owner f
    (touch_agent env a st (on_owner_job owner f s)))
  = touch_agent env a st (on_owner_job owner f s).
Proof.
  intros Hf. destruct owner; by_table; by apply alter_idemp.
Qed.

Lemma job_agent_exited_idemp c j : job_agent_exited c (job_agent_exited c j) = job_agent_exited c j.
Proof.
  unfold job_agent_exited. destruct (Job_is_terminal j) eqn:E; [by rewrite E |].
  case_bool_decide; unfold Job_is_terminal in *; simpl; by rewrite E.
Qed.

Lemma job_agent_failed_idemp e j : job_agent_failed e (job_agent_failed e j) = job_agent_failed e j.
Proof.
  unfold job_agent_failed. destruct (Job_is_terminal j) eqn:E; [by rewrite E |].
  unfold Job_is_terminal in *; simpl; by rewrite E.
Qed.

Lemma ShellExited_idemp env id c s :
  apply_ShellExited env id c (apply_ShellExited env id c s) = apply_ShellExited env id c s.
Proof.
  apply upd_jobs_alter_idemp. intros j. destruct (c =? 0)%Z; cbv zeta.
  - by apply (finalize_set_idemp (job_set_step_status Completed)).
  - set (e := Some _).
    by apply (finalize_set_idemp (λ j, job_set_error e (job_set_step_status Failed j))).
Qed.

Lemma StepFailed_idemp env id e s :
  apply_StepFailed env id e (apply_StepFailed env id e s) = apply_StepFailed env id e s.
Proof.
  apply upd_jobs_alter_idemp. intros j.
  by apply (finalize_set_idemp (λ j, job_set_error (Some e) (job_set_step_status Failed j))).
Qed.

Lemma StepCompleted_idemp env id s :
  apply_StepCompleted env id (apply_StepCompleted env id s) = apply_StepCompleted env id s.
Proof.
  apply upd_jobs_alter_idemp. intros j.
  by apply (finalize_set_idemp (job_set_step_status Completed)).
Qed.

Lemma StepWaiting_idemp id r d s :
  apply_StepWaiting id r d (apply_StepWaiting id r d s) = apply_StepWaiting id r d s.
Proof.
  apply upd_jobs_alter_idemp. intros j. cbv zeta. destruct r as [r|].
  - change (job_set_error (Some r) (job_set_step_status (Waiting d)
      (update_current_step_outcome (Outcome_Waiting (default "" (Some r)))
        (job_set_error (Some r) (job_set_step_status (Waiting d) j)))))
      with (update_current_step_outcome (Outcome_Waiting (default "" (Some r)))
        (job_set_error (Some r) (job_set_step_status (Waiting d) j))).
    apply update_outcome_idemp.
  - change (job_set_step_status (Waiting d)
      (update_current_step_outcome (Outcome_Waiting (default "" None))
        (job_set_step_status (Waiting d) j)))
      with (update_current_step_outcome (Outcome_Waiting (default "" None))
        (job_set_step_status (Waiting d) j)).
    apply update_outcome_idemp.
Qed.

Lemma RunbookLoaded_idemp h v (r : Value) s :
  apply_RunbookLoaded h v r (apply_RunbookLoaded h v r s) = apply_RunbookLoaded h v r s.
Proof.
  unfold apply_RunbookLoaded. destruct (runbooks s !! h) eqn:E; [by rewrite E |].
  simpl. by rewrite lookup_insert_eq.
Qed.

Lemma release_job_idemp id s : release_job id (release_job id s) = release_job id s.
Proof.
  by_table.
  - apply fmap_idemp. intros w. unfold worker_set_active_job_ids. simpl. f_equal.
    apply list_filter_filter_l. done.
  - apply filter_idemp.
Qed.

Lemma release_job_insert id k j s :
  release_job id (upd_jobs <[k := j]> s) = upd_jobs <[k := j]> (release_job id s).
Proof. done. Qed.

Lemma upd_jobs_insert_insert k j1 j2 s :
  upd_jobs <[k := j1]> (upd_jobs <[k := j2]> s) = upd_jobs <[k := j1]> s.
Proof. by_table. by rewrite insert_insert_eq. Qed.

Lemma JobAdvanced_idemp env id step s :
  apply_JobAdvanced env id step (apply_JobAdvanced env id step s)
  = apply_JobAdvanced env id step s.
Proof.
  unfold apply_JobAdvanced at 2 3. destruct (jobs s !! id) as [j|] eqn:Hj.
  - destruct (advance_skips step j) eqn:Hsk.
    { unfold apply_JobAdvanced. by rewrite Hj, Hsk. }
    set (s' := upd_jobs <[id := enter_step (clock env 0) step j]> s).
    assert (∀ s'', jobs s'' = jobs s' →
      apply_JobAdvanced env id step s'' =
        if bool_decide (advance_status step = Failed) then release_job id s'' else s'') as H.
    { intros s'' Hs. unfold apply_JobAdvanced. rewrite Hs. simpl.
      rewrite lookup_insert_eq, advance_job_skips. case_bool_decide as Hf; simpl; [| done].
      rewrite advance_status_failed, advance_job_failed_idemp by done. f_equal.
      by_table. rewrite Hs. simpl. by rewrite insert_insert_eq. }
    destruct (is_terminal_step step) eqn:Ht; rewrite H by done; case_bool_decide as Hf; try done.
    + apply release_job_idemp.
    + by rewrite (advance_status_failed _ Hf) in Ht.
  - unfold apply_JobAdvanced. destruct (is_terminal_step step); [| by rewrite Hj].
    simpl. rewrite Hj. apply release_job_idemp.
Qed.

(** An entry added only when the key is free, twice. *)
Lemma or_insert_idemp {V} (v : V) k (m : gmap string V) :
  partial_alter (λ o, Some (default v o)) k (partial_alter (λ o, Some (default v o)) k m)
  = partial_alter (λ o, Some (default v o)) k m.
Proof.
  apply map_eq. intros i. destruct (decide (i = k)) as [->|Hne].
  - by rewrite !lookup_partial_alter_eq.
  - by rewrite !lookup_partial_alter_ne.
Qed.

Lemma or_insert_same {V} (v w : V) k (m : gmap string V) :
  partial_alter (λ o, Some (default v o)) k (partial_alter (λ o, Some (default w o)) k m)
  = partial_alter (λ o, Some (default w o)) k m.
Proof.
  apply map_eq. intros i. destruct (decide (i = k)) as [->|Hne].
  - by rewrite !lookup_partial_alter_eq.
  - by rewrite !lookup_partial_alter_ne.
Qed.

(** The job of [StepStarted], as one update of the current record. *)
Definition started_record (a n : option string) (r : StepRecord) : StepRecord :=
  mkStepRecord (step_name r) (step_started_ms r) (step_finished_ms r) Outcome_Running
    (match a with Some _ => a | None => step_agent_id r end)
    (match n with Some _ => n | None => step_agent_name r end).

Definition started_job (a n : option string) (j : Job) : Job :=
  with_current_step (started_record a n) (job_set_step_status Running j).

Lemma started_job_idemp a n j : started_job a n (started_job a n j) = started_job a n j.
Proof.
  change (with_current_step (started_record a n) (with_current_step (started_record a n)
    (job_set_step_status Running j)) = started_job a n j).
  apply with_current_step_idemp. intros r _ _. by destruct a, n.
Qed.

Lemma StepStarted_jobs env id a n s :
  apply_StepStarted env id a n s =
  match jobs s !! id with
  | None => s
  | Some j =>
      upd_jobs <[id := started_job a n j]>
        (match a with
         | Some aid => upd_agents (partial_alter (λ r, Some (default
             (mkAgentRecord aid (default "" n) (Owner_Job id) (job_namespace j)
               (default (job_cwd j) (job_workspace_path j)) None Record_Starting
               (clock env 0) (clock env 0)) r)) aid) s
         | None => s
         end)
  end.
Proof.
  unfold apply_StepStarted. destruct (jobs s !! id) as [j|]; [| done].
  destruct a as [a|], n as [n|]; simpl; do 2 f_equal;
    unfold update_current_step_outcome, set_current_step_agent_id,
      set_current_step_agent_name, started_job;
    by rewrite !with_current_step_compose.
Qed.

Lemma StepStarted_idemp env id a n s :
  apply_StepStarted env id a n (apply_StepStarted env id a n s) = apply_StepStarted env id a n s.
Proof.
  rewrite (StepStarted_jobs _ _ _ _ s). destruct (jobs s !! id) as [j|] eqn:Hj.
  - rewrite StepStarted_jobs. simpl. rewrite lookup_insert_eq.
    destruct a as [a|]; by_table; rewrite ?insert_insert_eq, ?started_job_idemp; try done.
    apply or_insert_same.
  - rewrite StepStarted_jobs. by rewrite Hj.
Qed.

Lemma JobDeleted_idemp id s : apply_JobDeleted id (apply_JobDeleted id s) = apply_JobDeleted id s.
Proof.
  by_table; [apply delete_delete_eq | apply filter_idemp | apply filter_idemp].
Qed.

Lemma SessionCreated_idemp id owner s :
  apply_SessionCreated id owner (apply_SessionCreated id owner s)
  = apply_SessionCreated id owner s.
Proof.
  assert (∀ m : gmap string AgentRecord, let f := λ r, if bool_decide (rec_owner r = owner) &&
      bool_decide (rec_session_id r = None) then rec_set_session_id (Some id) r else r in
    f <$> (f <$> m) = f <$> m) as Hf.
  { intros m. apply fmap_idemp. intros r. repeat case_bool_decide; simpl in *; try done. }
  destruct owner; by_table; rewrite ?insert_insert_eq; try done; try apply Hf;
    by apply alter_idemp.
Qed.

Lemma SessionDeleted_idemp id s :
  apply_SessionDeleted id (apply_SessionDeleted id s) = apply_SessionDeleted id s.
Proof.
  by_table; try apply delete_delete_eq; apply fmap_idemp; intros r;
    by repeat case_bool_decide.
Qed.

Lemma WorkspaceCreated_idemp env id path br owner ty s :
  apply_WorkspaceCreated env id path br owner ty (apply_WorkspaceCreated env id path br owner ty s)
  = apply_WorkspaceCreated env id path br owner ty s.
Proof.
  destruct owner as [[]|]; by_table; rewrite ?insert_insert_eq; try done; by apply alter_idemp.
Qed.

Lemma JobUpdated_idemp id vars s :
  apply_JobUpdated id vars (apply_JobUpdated id vars s) = apply_JobUpdated id vars s.
Proof.
  apply upd_jobs_alter_idemp. intros j. unfold job_set_vars. simpl. f_equal.
  by rewrite map_union_assoc, map_union_idemp.
Qed.

Lemma AgentSignal_idemp env a k m s :
  apply_AgentSignal env a k m (apply_AgentSignal env a k m s) = apply_AgentSignal env a k m s.
Proof.
  assert (∀ (f : AgentRun → AgentRun) rk s', (∀ r, run_agent_id (f r) = run_agent_id r) →
    find_run_by_agent_id env (upd_agent_runs (alter f rk) s') a = find_run_by_agent_id env s' a)
    as Hr.
  { intros f rk s' Hf. unfold find_run_by_agent_id. simpl. rewrite dom_alter_L.
    apply find_key_ext. intros i. destruct (decide (rk = i)) as [->|].
    - rewrite lookup_alter_eq. destruct (agent_runs s' !! i); simpl; [by rewrite Hf | done].
    - by rewrite lookup_alter_ne. }
  assert (∀ (f : Job → Job) jk s', (∀ j, current_agent_id (f j) = current_agent_id j) →
    find_job_by_agent_id env (upd_jobs (alter f jk) s') a = find_job_by_agent_id env s' a) as Hj.
  { intros f jk s' Hf. unfold find_job_by_agent_id. simpl. rewrite dom_alter_L.
    apply find_key_ext. intros i. destruct (decide (jk = i)) as [->|].
    - rewrite lookup_alter_eq. destruct (jobs s' !! i); simpl; [by rewrite Hf | done].
    - by rewrite lookup_alter_ne. }
  unfold apply_AgentSignal. destruct k; try done.
  all: destruct (find_run_by_agent_id env s a) as [rk|] eqn:E1;
    [rewrite Hr, E1 by done; by_table; by apply alter_idemp |].
  all: destruct (find_job_by_agent_id env s a) as [jk|] eqn:E2; [| by rewrite E1, E2].
  all: unfold find_run_by_agent_id in E1 |- *; simpl; rewrite E1, Hj, E2 by done.
  all: by_table; by apply alter_idemp.
Qed.

Lemma WorkerStarted_idemp name root h q c ns s :
  apply_WorkerStarted name root h q c ns (apply_WorkerStarted name root h q c ns s)
  = apply_WorkerStarted name root h q c ns s.
Proof.
  unfold apply_WorkerStarted, remember_root.
  destruct (is_empty ns); by_table; rewrite ?lookup_insert_eq, ?insert_insert_eq; done.
Qed.

Lemma upd_workers_alter_idemp f k s :
  (∀ w, f (f w) = f w) →
  upd_workers (alter f k) (upd_workers (alter f k) s) = upd_workers (alter f k) s.
Proof. intros Hf. by_table. by apply alter_idemp. Qed.

Lemma WorkerItemDispatched_idemp name id ns s :
  apply_WorkerItemDispatched name id ns (apply_WorkerItemDispatched name id ns s)
  = apply_WorkerItemDispatched name id ns s.
Proof.
  apply upd_workers_alter_idemp. intros w.
  destruct (bool_decide (id ∈ worker_active_job_ids w)) eqn:Hin; [by rewrite Hin |].
  simpl. rewrite bool_decide_true; [done |]. set_solver.
Qed.

(** Updates of one queue item. *)
Lemma alter_item_idemp id f l :
  (∀ i, f (f i) = f i) → (∀ i, item_id (f i) = item_id i) →
  alter_item id f (alter_item id f l) = alter_item id f l.
Proof.
  intros Hf Hid. induction l as [|i l IH]; [done |]. simpl.
  destruct (String.eqb (item_id i) id) eqn:E; simpl.
  - by rewrite Hid, E, Hf.
  - by rewrite E, IH.
Qed.

Lemma on_item_idemp q id ns f s :
  (∀ i, f (f i) = f i) → (∀ i, item_id (f i) = item_id i) →
  on_item q id ns f (on_item q id ns f s) = on_item q id ns f s.
Proof.
  intros Hf Hid. by_table. apply alter_idemp. intros l. by apply alter_item_idemp.
Qed.

Lemma QueuePushed_idemp q id data t ns s :
  apply_QueuePushed q id data t ns (apply_QueuePushed q id data t ns s)
  = apply_QueuePushed q id data t ns s.
Proof.
  unfold apply_QueuePushed. by_table. rewrite lookup_insert_eq. simpl.
  set (l := default [] _). rewrite insert_insert_eq. f_equal.
  destruct (existsb _ l) eqn:E; [by rewrite E |].
  rewrite existsb_app. simpl. by rewrite String.eqb_refl, orb_true_r.
Qed.

Lemma QueueFailed_idemp q id ns s :
  apply_QueueFailed q id ns (apply_QueueFailed q id ns s) = apply_QueueFailed q id ns s.
Proof. apply on_item_idemp; done. Qed.

Lemma QueueDropped_idemp q id ns s :
  apply_QueueDropped q id ns (apply_QueueDropped q id ns s) = apply_QueueDropped q id ns s.
Proof.
  by_table. apply alter_idemp. intros l. by apply list_filter_filter_l.
Qed.

Lemma upd_crons_alter_idemp f k s :
  (∀ c, f (f c) = f c) →
  upd_crons (alter f k) (upd_crons (alter f k) s) = upd_crons (alter f k) s.
Proof. intros Hf. by_table. by apply alter_idemp. Qed.

Lemma CronStarted_idemp env name root h i r ns s :
  apply_CronStarted env name root h i r ns (apply_CronStarted env name root h i r ns s)
  = apply_CronStarted env name root h i r ns s.
Proof.
  unfold apply_CronStarted, remember_root.
  destruct (is_empty ns); by_table; rewrite ?lookup_insert_eq, ?insert_insert_eq; done.
Qed.

Lemma DecisionCreated_idemp id jid aid owner src ctx opts t ns s :
  apply_DecisionCreated id jid aid owner src ctx opts t ns
    (apply_DecisionCreated id jid aid owner src ctx opts t ns s)
  = apply_DecisionCreated id jid aid owner src ctx opts t ns s.
Proof.
  unfold apply_DecisionCreated. destruct (decisions s !! id) as [d|] eqn:E;
    destruct owner; simpl; rewrite ?E, ?lookup_insert_eq; by_table; by apply alter_idemp.
Qed.

Lemma DecisionResolved_idemp id c m t s :
  apply_DecisionResolved id c m t (apply_DecisionResolved id c m t s)
  = apply_DecisionResolved id c m t s.
Proof. by_table. by apply alter_idemp. Qed.

Lemma AgentRunStarted_idemp env id a s :
  apply_AgentRunStarted env id a (apply_AgentRunStarted env id a s)
  = apply_AgentRunStarted env id a s.
Proof.
  unfold apply_AgentRunStarted. destruct (agent_runs s !! id) as [r|] eqn:E; [| by rewrite E].
  simpl. rewrite lookup_insert_eq. by_table; [by rewrite insert_insert_eq | apply or_insert_same].
Qed.

Lemma AgentRunStatusChanged_idemp env id st reason s :
  apply_AgentRunStatusChanged env id st reason (apply_AgentRunStatusChanged env id st reason s)
  = apply_AgentRunStatusChanged env id st reason s.
Proof.
  unfold apply_AgentRunStatusChanged.
  destruct (AgentRunStatus_is_terminal st); by_table;
    try apply filter_idemp; apply alter_idemp; intros r; by destruct reason.
Qed.

Lemma AgentRunDeleted_idemp id s :
  apply_AgentRunDeleted id (apply_AgentRunDeleted id s) = apply_AgentRunDeleted id s.
Proof. by_table; [apply delete_delete_eq | apply filter_idemp]. Qed.

Lemma remember_root_idemp ns root s :
  remember_root ns root (remember_root ns root s) = remember_root ns root s.
Proof.
  unfold remember_root. destruct (is_empty ns); by_table; by rewrite insert_insert_eq.
Qed.

(** Every event, at one environment. *)
Lemma apply_event_twice env ev s :
  apply_event env ev (apply_event env ev s) = apply_event env ev s.
Proof.
  destruct ev; simpl;
    auto using ShellExited_idemp, RunbookLoaded_idemp, JobAdvanced_idemp, StepStarted_idemp,
      StepWaiting_idemp, StepCompleted_idemp, StepFailed_idemp, JobDeleted_idemp,
      SessionCreated_idemp, SessionDeleted_idemp, WorkspaceCreated_idemp, JobUpdated_idemp,
      AgentSignal_idemp, WorkerStarted_idemp, WorkerItemDispatched_idemp, QueuePushed_idemp,
      QueueFailed_idemp, QueueDropped_idemp, CronStarted_idemp, DecisionCreated_idemp,
      DecisionResolved_idemp, AgentRunStarted_idemp, AgentRunStatusChanged_idemp,
      AgentRunDeleted_idemp, remember_root_idemp;
    try (by apply on_item_idemp); try (by apply upd_jobs_alter_idemp);
    try (by apply upd_workers_alter_idemp); try (by apply upd_crons_alter_idemp);
    try (by apply touch_agent_idemp);
    try (apply touch_agent_idemp; auto using job_agent_exited_idemp, job_agent_failed_idemp).
  all: try (by_table; by rewrite ?insert_insert_eq, ?delete_delete_eq).
  all: by_table; by apply alter_idemp.
Qed.
End idem.

(** ** Immediate re-application *)

(** C2. Applying an event twice in a row is the same as applying it once:
    exactly when both applications read the same clocks, and up to the clock
    stamps when the second one runs later. *)
Theorem apply_event_idempotent {Value} e1 e2 (ev : Event Value) s :
  same_order e2 e1 →
  apply_event e1 ev (apply_event e1 ev s) = apply_event e1 ev s ∧
  apply_event e2 ev (apply_event e1 ev s) ≡ apply_event e1 ev s.
Proof.
  intros He. split; [apply apply_event_twice |].
  transitivity (apply_event e1 ev (apply_event e1 ev s)).
  - by apply apply_event_equiv.
  - by rewrite apply_event_twice.
Qed.

Lemma apply_event_idempotent_witness :
  let e1 := env_at 1 in let e2 := env_at 2 in
  let ev := StepFailed "j" "run" "err" in
  let s : MaterializedState unit := apply_event e1
    (JobCreated "j" "k" "n" "h" "/" ∅ "run" 0 "" None) MaterializedState_default in
  same_order e2 e1 ∧
  (apply_event e1 ev (apply_event e1 ev s) = apply_event e1 ev s ∧
   apply_event e2 ev (apply_event e1 ev s) ≡ apply_event e1 ev s).
Proof. split; [done |]. apply apply_event_idempotent. done. Defined.
