(* ===== verification/StateInv.v ===== *)
(** The invariant of the materialized state.

    [State_wf] says what holds of every state built from events: every table
    is keyed by the identity of its records, the step history of every job is
    consistent with its current step and its visit counts ([Job_wf]), a queue
    lists an item once, a worker lists an active job once, and an owner has at
    most one open decision.  [apply_event_wf] proves it preserved by every
    event. *)

From S2P Require Import Prelude Ids Entities Job Event State StateEquiv StateIdem.

(** ** Jobs *)

Definition Job_ok (k : string) (j : Job) : Prop := job_id j = k ∧ Job_wf j.

(** An update that leaves the identity and the step history alone. *)
Definition keeps_steps (f : Job → Job) : Prop :=
  ∀ j, job_id (f j) = job_id j ∧ job_step_history (f j) = job_step_history j ∧
       job_step (f j) = job_step j ∧ job_step_visits (f j) = job_step_visits j.

Lemma Job_ok_keeps f k j : keeps_steps f → Job_ok k j → Job_ok k (f j).
Proof.
  intros Hf [<- Hj]. destruct (Hf j) as (Hi & Hh & Hs & Hv).
  split; [done |]. by apply (Job_wf_same j).
Qed.

Lemma finalize_history o t j pre r :
  job_step_history j = pre ++ [r] →
  ∃ r', job_step_history (finalize_current_step o t j) = pre ++ [r'] ∧
        is_Some (step_finished_ms r') ∧ step_name r' = step_name r.
Proof.
  intros Hh. simpl. rewrite Hh, alter_last_snoc. eexists. split; [done |].
  destruct (step_finished_ms r) eqn:E; simpl; rewrite ?E; eauto.
Qed.

Lemma Job_wf_advance now step j : Job_wf j → Job_wf (enter_step now step j).
Proof.
  intros Hw. destruct (is_terminal_step step) eqn:Ht.
  - rewrite advance_job_terminal by done. cbv zeta.
    pose proof (Job_wf_finalize (advance_outcome step j) now j Hw) as [Hf Hc Hv].
    set (k := finalize_current_step _ _ _) in *. clearbody k.
    split; [by destruct (bool_decide _) | | by destruct (bool_decide _)].
    intros Hx. exfalso. unfold Job_is_terminal in Hx.
    destruct (bool_decide _); simpl in Hx; congruence.
  - unfold enter_step. rewrite Ht.
    set (k := if _ && _ then _ else j).
    assert (Job_wf k) as Hk.
    { subst k. destruct (_ && _); [| done]. by apply (Job_wf_same j). }
    clearbody k. cbv zeta. set (o := advance_outcome step k). clearbody o.
    destruct (wf_finished _ Hk) as (pre & r & Hh & Hpre).
    destruct (finalize_history o now k pre r Hh) as (r' & Hh' & Hr' & _).
    pose proof (wf_visits _ (Job_wf_finalize o now k Hk)) as Hv.
    set (m := finalize_current_step o now k) in *. clearbody m. clear Hk Hh.
    apply Job_wf_push.
    + exists pre, r'. by destruct (bool_decide _).
    + intros s. specialize (Hv s). by destruct (bool_decide _).
    + by destruct (bool_decide _).
Qed.

Lemma advance_job_id now step j : job_id (enter_step now step j) = job_id j.
Proof.
  unfold enter_step. cbv zeta.
  destruct (Job_is_terminal j && negb (is_terminal_step step)), (bool_decide _),
    (is_terminal_step step); reflexivity.
Qed.

Section inv.
Context {Value : Type}.
Abbreviation St := (MaterializedState Value) (only parsing).
Implicit Types (s : St) (env : Env) (ev : Event Value).

(** An unresolved decision. *)
Definition open_for (o : OwnerId) (d : Decision) : Prop :=
  decision_owner d = o ∧ Decision_is_resolved d = false.

Definition one_open (ds : gmap string Decision) : Prop :=
  ∀ o k1 k2 d1 d2, ds !! k1 = Some d1 → ds !! k2 = Some d2 →
    open_for o d1 → open_for o d2 → k1 = k2.

Definition Worker_ok (k : string) (w : WorkerRecord) : Prop :=
  k = scoped_name (worker_namespace w) (worker_name w) ∧ NoDup (worker_active_job_ids w).

Definition Queue_ok (k : string) (l : list QueueItem) : Prop := NoDup (item_id <$> l).

Record State_wf s : Prop := {
  ok_jobs : map_Forall Job_ok s.(jobs);
  ok_sessions : map_Forall (λ k x, session_id x = k) s.(sessions);
  ok_workspaces : map_Forall (λ k x, workspace_id x = k) s.(workspaces);
  ok_workers : map_Forall Worker_ok s.(workers);
  ok_queues : map_Forall Queue_ok s.(queue_items);
  ok_crons : map_Forall (λ k c, k = scoped_name (cron_rec_namespace c) (cron_rec_name c))
               s.(crons);
  ok_decisions : map_Forall (λ k d, decision_id d = k) s.(decisions);
  ok_open : one_open s.(decisions);
  ok_runs : map_Forall (λ k r, run_id r = k) s.(agent_runs);
  ok_agents : map_Forall (λ k r, rec_agent_id r = k) s.(agents)
}.

Lemma State_wf_default : State_wf MaterializedState_default.
Proof. split; try apply map_Forall_empty. intros o k1 k2 d1 d2 H. simpl in H. by rewrite lookup_empty in H. Qed.

(** *** One table at a time *)

Lemma jobs_on_owner owner f s :
  (∀ k j, Job_ok k j → Job_ok k (f j)) → map_Forall Job_ok s.(jobs) →
  map_Forall Job_ok (on_owner_job owner f s).(jobs).
Proof. intros Hf H. destruct owner; simpl; [| done]. apply map_Forall_alter; auto. Qed.

Lemma jobs_alter_ok f k (m : gmap string Job) :
  (∀ k j, Job_ok k j → Job_ok k (f j)) → map_Forall Job_ok m → map_Forall Job_ok (alter f k m).
Proof. intros Hf. apply map_Forall_alter. auto. Qed.

Lemma Job_ok_finalize k o t j : Job_ok k j → Job_ok k (finalize_current_step o t j).
Proof. intros [<- H]. split; [done | by apply Job_wf_finalize]. Qed.
Lemma Job_ok_outcome k o j : Job_ok k j → Job_ok k (update_current_step_outcome o j).
Proof. intros [<- H]. split; [done | by apply Job_wf_update_outcome]. Qed.

Lemma StepStarted_jobs_ok env id a n s :
  map_Forall Job_ok s.(jobs) → map_Forall Job_ok (apply_StepStarted env id a n s).(jobs).
Proof.
  intros H. rewrite StepStarted_jobs. destruct (jobs s !! id) as [j|] eqn:Hj; [| done].
  assert (jobs (upd_jobs <[id := started_job a n j]>
    (match a with Some aid => upd_agents (partial_alter (λ r, Some (default
             (mkAgentRecord aid (default "" n) (Owner_Job id) (job_namespace j)
               (default (job_cwd j) (job_workspace_path j)) None Record_Starting
               (clock env 0) (clock env 0)) r)) aid) s | None => s end))
    = <[id := started_job a n j]> (jobs s)) as -> by by destruct a.
  apply map_Forall_insert_2; [| done]. destruct (H id j Hj) as [Hid Hw].
  split; [done |]. apply Job_wf_with_current_step; [done |]. by apply (Job_wf_same j).
Qed.

Lemma JobAdvanced_jobs_ok env id step s :
  map_Forall Job_ok s.(jobs) → map_Forall Job_ok (apply_JobAdvanced env id step s).(jobs).
Proof.
  intros H. unfold apply_JobAdvanced. destruct (jobs s !! id) as [j|] eqn:Hj.
  - destruct (advance_skips step j); [done |]. destruct (H id j Hj) as [Hid Hw].
    destruct (is_terminal_step step); simpl;
      (apply map_Forall_insert_2; [| done]; split;
        [by rewrite advance_job_id | by apply Job_wf_advance]).
  - by destruct (is_terminal_step step).
Qed.

Lemma keeps_refl_ok f k j :
  (∀ j, job_id (f j) = job_id j ∧ job_step_history (f j) = job_step_history j ∧
        job_step (f j) = job_step j ∧ job_step_visits (f j) = job_step_visits j) →
  Job_ok k j → Job_ok k (f j).
Proof. intros Hf. by apply Job_ok_keeps. Qed.

Lemma remember_root_jobs ns root s : jobs (remember_root ns root s) = jobs s.
Proof. unfold remember_root. by destruct (is_empty ns). Qed.

(** A job update that is a chain of assignments. *)
Ltac job_ok :=
  intros;
  match goal with
  | H : Job_ok _ ?j |- _ => destruct H as [<- ?]; split; [done | by apply (Job_wf_same j)]
  end.

Lemma apply_jobs_ok env ev s :
  map_Forall Job_ok s.(jobs) → map_Forall Job_ok (apply_event env ev s).(jobs).
Proof.
  intros H. destruct ev; simpl; try done;
    try (by rewrite remember_root_jobs);
    try (apply jobs_on_owner; [| done]);
    try (apply jobs_alter_ok; [| done]).
  - job_ok.
  - intros k j. apply keeps_refl_ok. clear. intros j. unfold job_agent_failed.
    by destruct (Job_is_terminal j).
  - intros k j. apply keeps_refl_ok. clear. intros j. unfold job_agent_exited.
    destruct (Job_is_terminal j); [done |]. by destruct (bool_decide _).
  - intros k j. apply keeps_refl_ok. clear. intros j. unfold job_agent_failed.
    by destruct (Job_is_terminal j).
  - unfold apply_AgentSignal. destruct kind; try done;
      (destruct (find_run_by_agent_id env s agent_id); [done |];
       destruct (find_job_by_agent_id env s agent_id); [| done];
       apply jobs_alter_ok; [job_ok | done]).
  - apply map_Forall_insert_2; [| done]. split; [by destruct cron_name | apply Job_wf_new].
  - by apply JobAdvanced_jobs_ok.
  - job_ok.
  - job_ok.
  - by apply map_Forall_delete.
  - unfold apply_RunbookLoaded. by destruct (runbooks s !! hash).
  - destruct owner; simpl; [| done]. apply jobs_alter_ok; [job_ok | done].
  - apply map_Forall_fmap_mono; [| done]. intros k j.
    destruct (bool_decide _); [apply (keeps_refl_ok (job_set_session_id None)) |]; done.
  - intros k j Hj. destruct (exit_code =? 0)%Z; apply Job_ok_finalize; revert Hj; job_ok.
  - by apply StepStarted_jobs_ok.
  - intros k j Hj. apply Job_ok_outcome. revert Hj. destruct reason; job_ok.
  - intros k j Hj. apply Job_ok_finalize. revert Hj. job_ok.
  - intros k j Hj. apply Job_ok_finalize. revert Hj. job_ok.
  - destruct owner as [[]|]; simpl; try done. apply jobs_alter_ok; [job_ok | done].
  - unfold apply_DecisionCreated.
    destruct owner, (decisions s !! id); simpl; try done; (apply jobs_alter_ok; [job_ok | done]).
  - unfold apply_AgentRunStarted. by destruct (agent_runs s !! id).
  - unfold apply_AgentRunStatusChanged. by destruct (AgentRunStatus_is_terminal status).
Qed.

(** *** The other tables *)

(** One goal for each branch of each handler. *)
Ltac handler_cases ev :=
  destruct ev; simpl; try done;
  unfold on_owner_job, apply_AgentSignal, apply_RunbookLoaded, apply_JobAdvanced,
    apply_DecisionCreated, apply_AgentRunStarted, apply_AgentRunStatusChanged,
    apply_WorkerStarted, apply_CronStarted, remember_root in *;
  rewrite ?StepStarted_jobs;
  repeat case_match; simpl in *; simplify_eq; try done.

(** A table keyed by a field that no update changes. *)
Ltac keyed_table :=
  first
    [ by apply map_Forall_insert_2
    | by apply map_Forall_delete
    | by apply map_Forall_filter_mono
    | by apply map_Forall_alter; [intros; repeat case_match; naive_solver |]
    | by apply map_Forall_fmap_mono; [intros; repeat case_match; naive_solver |] ].

Lemma apply_sessions_ok env ev s :
  map_Forall (λ k x, session_id x = k) s.(sessions) →
  map_Forall (λ k x, session_id x = k) (apply_event env ev s).(sessions).
Proof. intros H. handler_cases ev; keyed_table. Qed.

Lemma apply_workspaces_ok env ev s :
  map_Forall (λ k x, workspace_id x = k) s.(workspaces) →
  map_Forall (λ k x, workspace_id x = k) (apply_event env ev s).(workspaces).
Proof. intros H. handler_cases ev; keyed_table. Qed.

Lemma apply_crons_ok env ev s :
  map_Forall (λ k c, k = scoped_name (cron_rec_namespace c) (cron_rec_name c)) s.(crons) →
  map_Forall (λ k c, k = scoped_name (cron_rec_namespace c) (cron_rec_name c))
    (apply_event env ev s).(crons).
Proof. intros H. handler_cases ev; keyed_table. Qed.

Lemma apply_runs_ok env ev s :
  map_Forall (λ k r, run_id r = k) s.(agent_runs) →
  map_Forall (λ k r, run_id r = k) (apply_event env ev s).(agent_runs).
Proof.
  intros H. handler_cases ev; try keyed_table.
  apply map_Forall_insert_2; [| done]. simpl. by apply H.
Qed.

Lemma or_insert_ok {V} (P : string → V → Prop) k v (m : gmap string V) :
  P k v → map_Forall P m → map_Forall P (partial_alter (λ o, Some (default v o)) k m).
Proof.
  intros Hv Hm i x. destruct (decide (i = k)) as [->|Hne].
  - rewrite lookup_partial_alter_eq. intros [= <-].
    destruct (m !! k) as [y|] eqn:E; [by apply Hm | done].
  - rewrite lookup_partial_alter_ne by done. apply Hm.
Qed.

Lemma apply_agents_ok env ev s :
  map_Forall (λ k r, rec_agent_id r = k) s.(agents) →
  map_Forall (λ k r, rec_agent_id r = k) (apply_event env ev s).(agents).
Proof. intros H. handler_cases ev; try keyed_table; by apply or_insert_ok. Qed.

Lemma apply_workers_ok env ev s :
  map_Forall Worker_ok s.(workers) → map_Forall Worker_ok (apply_event env ev s).(workers).
Proof.
  intros H. handler_cases ev; try keyed_table.
  all: try (apply map_Forall_fmap_mono; [| done]; intros k w [Hk Hn]; split; [done |];
            by apply NoDup_filter).
  all: try (apply map_Forall_insert_2; [| done]; split; [done |]; simpl;
            destruct (workers s !! _) as [w|] eqn:E; simpl; [by apply (H _ _ E) | constructor]).
  apply map_Forall_alter; [| done]. intros w _ [Hk Hn]. case_bool_decide; [done |].
  split; [done |]. simpl. apply NoDup_app.
  split_and!; [done | by intros x Hx ->%list_elem_of_singleton | apply NoDup_singleton].
Qed.

(** Queue items keep their ids. *)
Lemma alter_item_ids id f l :
  (∀ i, item_id (f i) = item_id i) → item_id <$> alter_item id f l = item_id <$> l.
Proof.
  intros Hf. induction l as [|i l IH]; [done |]. simpl.
  destruct (String.eqb (item_id i) id); csimpl; [by rewrite Hf | by f_equal].
Qed.

Lemma Queue_ok_filter k (P : QueueItem → Prop) `{!∀ i, base.Decision (P i)} l :
  Queue_ok k l → Queue_ok k (filter P l).
Proof.
  unfold Queue_ok. intros Hl. eapply sublist_NoDup; [exact Hl |].
  apply fmap_sublist, sublist_filter.
Qed.

Lemma existsb_item_id id l :
  existsb (λ i, String.eqb (item_id i) id) l = false → id ∉ item_id <$> l.
Proof.
  induction l as [|i l IH]; csimpl; [intros _ []%not_elem_of_nil |].
  intros [Hi Hl]%orb_false_iff. apply String.eqb_neq in Hi.
  apply not_elem_of_cons. split; [done | by apply IH].
Qed.

Lemma queue_default_ok k s :
  map_Forall Queue_ok s.(queue_items) → NoDup (item_id <$> default [] (s.(queue_items) !! k)).
Proof.
  intros H. destruct (queue_items s !! k) as [l|] eqn:E; simpl; [by apply (H _ _ E) | constructor].
Qed.

Lemma apply_queues_ok env ev s :
  map_Forall Queue_ok s.(queue_items) → map_Forall Queue_ok (apply_event env ev s).(queue_items).
Proof.
  intros H. handler_cases ev; try keyed_table.
  all: try (apply map_Forall_alter; [| done]; intros l _ Hl; unfold Queue_ok;
            by rewrite alter_item_ids).
  - apply map_Forall_insert_2; [| done]. by apply queue_default_ok.
  - apply map_Forall_insert_2; [| done]. unfold Queue_ok. rewrite fmap_app. apply NoDup_app.
    split_and!; [by apply queue_default_ok | | apply NoDup_singleton].
    intros x Hx ->%list_elem_of_singleton. by eapply existsb_item_id.
  - apply map_Forall_alter; [| done]. intros l _. apply Queue_ok_filter.
Qed.

Lemma apply_decisions_ok env ev s :
  map_Forall (λ k d, decision_id d = k) s.(decisions) →
  map_Forall (λ k d, decision_id d = k) (apply_event env ev s).(decisions).
Proof.
  intros H. assert (∀ o t n d, decision_id (decision_supersede o t n d) = decision_id d) as Hd.
  { intros o t n d. unfold decision_supersede. by destruct (_ && _). }
  handler_cases ev; try keyed_table;
    (apply map_Forall_insert_2; [done |]; apply map_Forall_fmap_mono; [| done]; intros k d;
     by rewrite Hd).
Qed.

(** Fewer decisions, or decisions that are resolved. *)
Lemma one_open_mono (ds ds' : gmap string Decision) :
  (∀ k d', ds' !! k = Some d' → Decision_is_resolved d' = false →
     ∃ d, ds !! k = Some d ∧ decision_owner d = decision_owner d' ∧
          Decision_is_resolved d = false) →
  one_open ds → one_open ds'.
Proof.
  intros Hsub H o k1 k2 d1 d2 H1 H2 [Ho1 Hr1] [Ho2 Hr2].
  apply Hsub in H1 as (e1 & H1 & E1 & R1); [| done].
  apply Hsub in H2 as (e2 & H2 & E2 & R2); [| done].
  eapply (H o k1 k2 e1 e2); try done; split; congruence.
Qed.

Lemma one_open_filter (P : string * Decision → Prop) `{!∀ x, base.Decision (P x)} ds :
  one_open ds → one_open (filter P ds).
Proof. apply one_open_mono. intros k d [Hk _]%map_lookup_filter_Some. eauto. Qed.

Lemma supersede_open owner t n d :
  Decision_is_resolved (decision_supersede owner t n d) = false →
  decision_supersede owner t n d = d ∧ decision_owner d ≠ owner.
Proof.
  unfold decision_supersede.
  destruct (bool_decide (decision_owner d = owner)) eqn:Ho; simpl.
  - destruct (Decision_is_resolved d) eqn:Hr; simpl; [congruence |]. done.
  - intros _. split; [done |]. by apply bool_decide_eq_false in Ho.
Qed.

Lemma one_open_create ds id owner t d :
  one_open ds → decision_owner d = owner →
  one_open (<[id := d]> (decision_supersede owner t id <$> ds)).
Proof.
  intros H Hd.
  assert (∀ k d', k ≠ id → <[id := d]> (decision_supersede owner t id <$> ds) !! k = Some d' →
    Decision_is_resolved d' = false → ds !! k = Some d' ∧ decision_owner d' ≠ owner) as Hold.
  { intros k d' Hk. rewrite lookup_insert_ne by done. rewrite lookup_fmap_Some.
    intros (d0 & <- & Hd0) Hr. apply supersede_open in Hr as [Heq ?].
    by rewrite Heq. }
  intros o k1 k2 d1 d2 H1 H2 [Ho1 Hr1] [Ho2 Hr2].
  destruct (decide (k1 = id)) as [->|N1], (decide (k2 = id)) as [->|N2]; [done | | |].
  - rewrite lookup_insert_eq in H1. simplify_eq.
    destruct (Hold k2 d2) as [_ []]; congruence.
  - rewrite lookup_insert_eq in H2. simplify_eq.
    destruct (Hold k1 d1) as [_ []]; congruence.
  - destruct (Hold k1 d1) as [L1 _], (Hold k2 d2) as [L2 _]; try done.
    by eapply (H o k1 k2 d1 d2).
Qed.

Lemma apply_open_ok env ev s : one_open s.(decisions) → one_open (apply_event env ev s).(decisions).
Proof.
  intros H. handler_cases ev; try (by apply one_open_filter); try (by apply one_open_create).
  revert H. apply one_open_mono. intros k d'. rewrite lookup_alter_Some.
  intros [(-> & d & Hd & ->)|[_ Hk]]; [done | eauto].
Qed.

(** *** All tables *)

Lemma apply_event_wf env ev s : State_wf s → State_wf (apply_event env ev s).
Proof.
  intros []. split; auto using apply_jobs_ok, apply_sessions_ok, apply_workspaces_ok,
    apply_workers_ok, apply_queues_ok, apply_crons_ok, apply_decisions_ok, apply_open_ok,
    apply_runs_ok, apply_agents_ok.
Qed.

Lemma replay_wf es s : State_wf s → State_wf (replay es s).
Proof.
  revert s. induction es as [|[env ev] es IH]; [done |]. intros s Hs. simpl.
  by apply IH, apply_event_wf.
Qed.
End inv.

#[export] Hint Resolve apply_event_wf replay_wf State_wf_default : oj.

(** C1. Every state built by replaying a log, from the empty state of a first
    start, satisfies the invariant [State_wf]: tables keyed by the identity of
    their records, step histories consistent with the current step and the
    visit counts of their job, no duplicate queue item or active job, and at
    most one open decision for each owner. *)
Theorem replayed_state_wf {Value} (es : list (Env * Event Value)) :
  State_wf (replay es MaterializedState_default).
Proof. auto with oj. Qed.

(** What single operations of the materialized state promise: the lookup by
    prefix, the job events on every branch, and the end of a job for the agents
    that still report on it. *)

(** ** Lookup by prefix *)

Section prefix.
Context {V : Type}.
Implicit Types (m : gmap string V).

(** A key with the prefix. *)
Definition prefixed (id : string) m (k : string) : Prop :=
  starts_with id k = true ∧ is_Some (m !! k).

Lemma prefix_matches id m k v :
  (k, v) ∈ filter (λ kv, starts_with id kv.1) (map_to_list m) ↔
  starts_with id k = true ∧ m !! k = Some v.
Proof.
  rewrite list_elem_of_filter, elem_of_map_to_list. simpl.
  destruct (starts_with id k); naive_solver.
Qed.
End prefix.

(** [get_job] and [get_decision] resolve an abbreviated id safely: an exact
    key always wins, a prefix is resolved only when exactly one key has it, and
    an ambiguous or unknown prefix gives nothing. *)
Theorem get_by_prefix_spec {V} (id : string) (m : gmap string V) (v : V) :
  get_by_prefix id m = Some v ↔
  m !! id = Some v ∨
  (m !! id = None ∧
   ∃ k, prefixed id m k ∧ m !! k = Some v ∧ ∀ k', prefixed id m k' → k' = k).
Proof.
  unfold get_by_prefix. destruct (m !! id) as [v'|] eqn:Hid; [naive_solver |].
  pose proof (prefix_matches id m) as Hin.
  assert (NoDup (filter (λ kv, starts_with id kv.1) (map_to_list m))) as Hnd
    by (apply NoDup_filter, NoDup_map_to_list).
  split.
  - intros H. right. split; [done |].
    destruct (filter _ _) as [|[k w] [|]]; simplify_eq/=.
    destruct (proj1 (Hin k v)) as [Hk Hv]; [by apply list_elem_of_singleton |].
    exists k. split_and!; [by split; [| eexists] | done |].
    intros k' [Hk' [w' Hw']].
    assert ((k', w') ∈ [(k, v)]) as Hk2 by by apply Hin.
    apply list_elem_of_singleton in Hk2. congruence.
  - intros [?|(_ & k & [Hk _] & Hv & Huniq)]; [done |].
    assert ((k, v) ∈ filter (λ kv, starts_with id kv.1) (map_to_list m)) as Hkv by by apply Hin.
    destruct (filter _ _) as [|[k1 w1] [|[k2 w2] l]]; [by apply not_elem_of_nil in Hkv | |].
    + apply list_elem_of_singleton in Hkv. simplify_eq. done.
    + exfalso. destruct (proj1 (Hin k1 w1)) as [? ?]; [by apply list_elem_of_here |].
      destruct (proj1 (Hin k2 w2)) as [? ?];
        [by apply list_elem_of_further, list_elem_of_here |].
      assert (k1 = k) as -> by (apply Huniq; split; eauto).
      assert (k2 = k) as -> by (apply Huniq; split; eauto).
      apply NoDup_cons_1_1 in Hnd. apply Hnd.
      assert (w1 = w2) as -> by congruence. by apply list_elem_of_here.
Qed.

(** ** Job events *)

Section jobs.
Context {Value : Type}.
Abbreviation St := (MaterializedState Value) (only parsing).

(** The job after it has entered a step that is not terminal. *)
Record entered (now : Z) (step : string) (j j' : Job) : Prop := {
  entered_step : job_step j' = step;
  entered_status : job_step_status j' = Pending;
  entered_visits : get_step_visits j' step = (get_step_visits j step +u32 1)%oj;
  entered_history :
    job_step_history j' =
    job_step_history (finalize_current_step Outcome_Completed now j)
      ++ [mkStepRecord step now None Outcome_Running None None];
  entered_attempts :
    ∀ trigger chain_pos, Job_get_action_attempt j' trigger chain_pos =
      if decide (job_step_status j = Failed)
      then Job_get_action_attempt j trigger chain_pos else 0%Z;
  entered_error : job_error j' = if Job_is_terminal j then None else job_error j;
  entered_session : job_session_id j' = if Job_is_terminal j then None else job_session_id j
}.

Lemma not_terminal_outcome step j : is_terminal_step step = false →
  advance_outcome step j = Outcome_Completed.
Proof.
  unfold is_terminal_step, advance_outcome.
  by destruct (String.eqb step "done"), (String.eqb step "failed"), (String.eqb step "cancelled").
Qed.

Lemma not_terminal_status step : is_terminal_step step = false → advance_status step = Pending.
Proof.
  unfold is_terminal_step, advance_status.
  by destruct (String.eqb step "done"), (String.eqb step "failed"), (String.eqb step "cancelled").
Qed.

Lemma advance_entered now step j :
  is_terminal_step step = false → entered now step j (enter_step now step j).
Proof.
  intros Ht. unfold enter_step. rewrite Ht, andb_true_r.
  rewrite not_terminal_outcome, not_terminal_status by done.
  split; destruct (Job_is_terminal j), (bool_decide (job_step_status j = Failed)) eqn:Hb;
    simpl; try done; try (unfold get_step_visits; simpl; by rewrite lookup_insert_eq);
    intros trigger pos; unfold Job_get_action_attempt, ActionTracker_get_action_attempt; simpl;
    (apply bool_decide_eq_true in Hb || apply bool_decide_eq_false in Hb);
    by case_decide.
Qed.
End jobs.

(** [JobAdvanced] to a step that is not terminal, on every branch: an
    unknown job changes nothing; a job that is at the step and has not failed
    is left alone; any other job enters the step, with its current record
    closed, the visit counted, a new record pushed, the retry counts kept only
    after a failure, and a terminal job revived without its error and
    session.  No other job and no other table is touched. *)
Theorem JobAdvanced_enters {Value} env id step (s : MaterializedState Value) :
  is_terminal_step step = false →
  let s' := apply_JobAdvanced env id step s in
  s' = upd_jobs (λ _, jobs s') s ∧ delete id (jobs s') = delete id (jobs s) ∧
  match jobs s !! id with
  | None => jobs s' !! id = None
  | Some j =>
      if decide (job_step j = step ∧ job_step_status j ≠ Failed) then jobs s' !! id = Some j
      else ∃ j', jobs s' !! id = Some j' ∧ entered (clock env 0) step j j'
  end.
Proof.
  intros Ht. cbv zeta. unfold apply_JobAdvanced. rewrite Ht.
  destruct (jobs s !! id) as [j|] eqn:Hj; [| by destruct s].
  destruct (advance_skips step j) eqn:Hskip; unfold advance_skips in Hskip.
  - split; [by destruct s |]. split; [done |]. rewrite Hj.
    apply andb_true_iff in Hskip as [Hs%String.eqb_eq Hf%negb_true_iff].
    apply bool_decide_eq_false in Hf.
    by destruct (decide (job_step j = step ∧ job_step_status j ≠ Failed)) as [|[]].
  - split; [by destruct s |]. split; [simpl; by rewrite delete_insert_eq |].
    destruct (decide (job_step j = step ∧ job_step_status j ≠ Failed)) as [[Hs Hf]|Hd].
    { rewrite Hs, String.eqb_refl in Hskip. simpl in Hskip.
      apply negb_false_iff, bool_decide_eq_true in Hskip. done. }
    exists (enter_step (clock env 0) step j). simpl.
    rewrite lookup_insert_eq. split; [done | by apply advance_entered].
Qed.

(** A job that has ended keeps its outcome: reports that its agent exited,
    failed or is gone change neither the job nor any other. *)
Theorem terminal_job_ignores_agent {Value} env agent id j ev (s : MaterializedState Value) :
  jobs s !! id = Some j → Job_is_terminal j = true →
  match ev with
  | AgentExited a _ o => a = agent ∧ o = Owner_Job id
  | AgentFailed a _ o => a = agent ∧ o = Owner_Job id
  | AgentGone a o => a = agent ∧ o = Owner_Job id
  | _ => False
  end →
  jobs (apply_event env ev s) = jobs s.
Proof.
  intros Hj Ht. destruct ev; try done; intros [-> ->]; simpl;
    apply alter_id; intros x Hx; rewrite Hj in Hx; injection Hx as <-;
    unfold job_agent_exited, job_agent_failed; by rewrite Ht.
Qed.

(** ** Witnesses *)

(** A job that has just been created, and one that has ended. *)
Definition created_state : MaterializedState unit :=
  apply_event (env_at 0) (JobCreated "j" "k" "n" "h" "/" ∅ "run" 0 "" None)
    MaterializedState_default.

Definition ended_state : MaterializedState unit :=
  apply_event (env_at 1) (JobAdvanced "j" "failed") created_state.

Lemma JobAdvanced_enters_witness :
  is_terminal_step "fix" = false ∧
  let s' := apply_JobAdvanced (env_at 5) "j" "fix" created_state in
  s' = upd_jobs (λ _, jobs s') created_state ∧
  delete "j" (jobs s') = delete "j" (jobs created_state) ∧
  match jobs created_state !! "j" with
  | None => jobs s' !! "j" = None
  | Some j =>
      if decide (job_step j = "fix" ∧ job_step_status j ≠ Failed) then jobs s' !! "j" = Some j
      else ∃ j', jobs s' !! "j" = Some j' ∧ entered (clock (env_at 5) 0) "fix" j j'
  end.
Proof.
  split; [reflexivity |].
  exact (JobAdvanced_enters (env_at 5) "j" "fix" created_state eq_refl).
Defined.

Lemma terminal_job_ignores_agent_witness :
  (∃ j, jobs ended_state !! "j" = Some j ∧ Job_is_terminal j = true) ∧
  jobs (apply_event (env_at 2) (AgentExited "a" (Some 0%Z) (Owner_Job "j")) ended_state)
  = jobs ended_state.
Proof.
  split; [eexists; split; vm_compute; reflexivity |].
  eapply (terminal_job_ignores_agent (env_at 2) "a" "j");
    [vm_compute; reflexivity | vm_compute; reflexivity | split; reflexivity].
Defined.
