(* ===== verification/Scheduler.v ===== *)
(** Timers of the runtime: [crates/engine/src/scheduler.rs].

    An [Instant] is a number of nanoseconds on the monotonic clock and a
    [Duration] a number of nanoseconds.  The order in which [fired_timers]
    visits the hash map is that of the environment. *)

From S2P Require Import Prelude Ids Entities Event.

Record Timer := mkTimer { fires_at : Z }.

Record Scheduler := mkScheduler { timers : gmap string Timer }.

Definition Scheduler_new : Scheduler := mkScheduler ∅.

Definition set_timer (id : string) (duration now : Z) (s : Scheduler) : Scheduler :=
  mkScheduler (<[id := mkTimer (now + duration)%Z]> (timers s)).

Definition cancel_timer (id : string) (s : Scheduler) : Scheduler :=
  mkScheduler (delete id (timers s)).

Definition cancel_timers_with_prefix (prefix : string) (s : Scheduler) : Scheduler :=
  mkScheduler (filter (λ kt, starts_with prefix kt.1 = false) (timers s)).

(** The first loop of [fired_timers], over the keys in iteration order: the
    events and the ids to remove. *)
Fixpoint collect_fired {Value} (now : Z) (order : list string) (m : gmap string Timer)
    : list (Event Value) * list string :=
  match order with
  | [] => ([], [])
  | id :: order' =>
      let '(events, to_remove) := collect_fired now order' m in
      match m !! id with
      | Some t => if (fires_at t <=? now)%Z then (TimerStart id :: events, id :: to_remove)
                  else (events, to_remove)
      | None => (events, to_remove)
      end
  end.

Definition fired_timers {Value} (env : Env) (now : Z) (s : Scheduler)
    : list (Event Value) * Scheduler :=
  let '(events, to_remove) := collect_fired now (iter_order env TTimers (dom (timers s))) (timers s) in
  (events, mkScheduler (foldl (λ m id, delete id m) (timers s) to_remove)).

Definition next_deadline (s : Scheduler) : option Z :=
  map_fold (λ _ t acc, Some (match acc with
                             | Some m => fires_at t `min` m
                             | None => fires_at t
                             end)%Z) None (timers s).

Definition has_timers (s : Scheduler) : bool := negb (bool_decide (timers s = ∅)).

(** ** Firing *)

Definition due (now : Z) (m : gmap string Timer) (id : string) : bool :=
  match m !! id with Some t => (fires_at t <=? now)%Z | None => false end.

Lemma collect_fired_filter {Value} now order m :
  collect_fired (Value:=Value) now order m =
  (TimerStart <$> filter (λ id, due now m id = true) order,
   filter (λ id, due now m id = true) order).
Proof.
  induction order as [|id order IH]; [done |]. simpl. rewrite IH, filter_cons.
  unfold due at 1 4 7. destruct (m !! id) as [t|] eqn:E.
  - destruct (fires_at t <=? now)%Z eqn:Ht; (case_decide as Hd; unfold due in Hd; rewrite E in Hd;
      [done || congruence | done || congruence]).
  - case_decide as Hd; unfold due in Hd; rewrite E in Hd; done.
Qed.

Lemma foldl_delete_filter (m : gmap string Timer) (l : list string) :
  foldl (λ m id, delete id m) m l = filter (λ kt, kt.1 ∉ l) m.
Proof.
  revert m. induction l as [|x l IH]; intros m; simpl.
  - symmetry. apply map_filter_id. intros. simpl. apply not_elem_of_nil.
  - rewrite IH. apply map_eq. intros i. apply option_eq. intros t.
    rewrite !map_lookup_filter_Some, lookup_delete_Some, not_elem_of_cons. simpl.
    split; [intros [[Hx Hm] Hl] | intros [Hm [Hx Hl]]]; by repeat split; auto.
Qed.

#[export] Instance TimerStart_inj Value : Inj (=) (=) (@TimerStart Value).
Proof. by intros x y [= ->]. Qed.

(** The timers that are left are those that are not due. *)
Lemma fired_timers_rest {Value} env now s :
  timers (fired_timers (Value:=Value) env now s).2 =
  filter (λ kt, (now < fires_at kt.2)%Z) (timers s).
Proof.
  unfold fired_timers. rewrite collect_fired_filter. simpl. rewrite foldl_delete_filter.
  apply map_eq. intros i. apply option_eq. intros t.
  rewrite !map_lookup_filter_Some. simpl. split.
  - intros [Hi Hn]. split; [done |]. rewrite list_elem_of_filter in Hn. unfold due in Hn.
    rewrite Hi in Hn. destruct (fires_at t <=? now)%Z eqn:E; [| lia].
    exfalso. apply Hn. split; [done |]. rewrite (iter_order_perm env TTimers).
    rewrite elem_of_elements, elem_of_dom. eauto.
  - intros [Hi Hlt]. split; [done |]. rewrite list_elem_of_filter. unfold due. rewrite Hi.
    intros [H _]. lia.
Qed.

(** [fired_timers] loses no timer and fires none early or twice: whatever
    the iteration order, an event is produced exactly for the timers whose
    deadline has passed, once each, exactly these are removed, and the others
    keep their deadlines. *)
Theorem fired_timers_exact {Value} env now s :
  (∀ ev : Event Value, ev ∈ (fired_timers env now s).1 ↔
     ∃ id t, ev = TimerStart id ∧ timers s !! id = Some t ∧ (fires_at t ≤ now)%Z) ∧
  NoDup (fired_timers (Value:=Value) env now s).1 ∧
  (∀ id t, timers (fired_timers (Value:=Value) env now s).2 !! id = Some t ↔
     timers s !! id = Some t ∧ (now < fires_at t)%Z).
Proof.
  split_and!.
  - intros ev. unfold fired_timers. rewrite collect_fired_filter. simpl.
    rewrite list_elem_of_fmap. setoid_rewrite list_elem_of_filter. unfold due. split.
    + intros (id & -> & Hd & _). destruct (timers s !! id) as [t|] eqn:E; [| done].
      exists id, t. split_and!; [done | done | lia].
    + intros (id & t & -> & Hi & Ht). exists id. rewrite Hi. split_and!; [done | lia |].
      rewrite (iter_order_perm env TTimers), elem_of_elements, elem_of_dom. eauto.
  - unfold fired_timers. rewrite collect_fired_filter. simpl.
    apply (NoDup_fmap_2 TimerStart). apply NoDup_filter.
    rewrite (iter_order_perm env TTimers). apply NoDup_elements.
  - intros id t. rewrite fired_timers_rest, map_lookup_filter_Some. done.
Qed.

(** ** The next deadline *)

Lemma next_deadline_spec s :
  match next_deadline s with
  | None => timers s = ∅
  | Some d => (∃ id t, timers s !! id = Some t ∧ fires_at t = d) ∧
              ∀ id t, timers s !! id = Some t → (d ≤ fires_at t)%Z
  end.
Proof.
  unfold next_deadline.
  apply (map_fold_weak_ind (λ r m, match r with
    | None => m = ∅
    | Some d => (∃ id t, m !! id = Some t ∧ fires_at t = d) ∧
                ∀ id t, m !! id = Some t → (d ≤ fires_at t)%Z
    end)); [done |].
  intros i x m [r|] Hi IH.
  - destruct IH as [(id & t & Hid & Ht) Hmin].
    assert (id ≠ i) by congruence. split.
    + destruct (Z.min_spec (fires_at x) r) as [[_ ->]|[_ ->]].
      * exists i, x. by rewrite lookup_insert_eq.
      * exists id, t. by rewrite lookup_insert_ne.
    + intros k y [[<- <-]|[Hk Hy]]%lookup_insert_Some; [lia |]. specialize (Hmin k y Hy). lia.
  - subst m. split.
    + exists i, x. by rewrite lookup_insert_eq.
    + intros k y [[<- <-]|[Hk Hy]]%lookup_insert_Some; [lia |]. by rewrite lookup_empty in Hy.
Qed.

(** Sleeping until [next_deadline] misses no timer and wakes for one: before
    the deadline nothing fires and the scheduler is unchanged, at the deadline
    at least one timer fires, and there is no deadline exactly when there is no
    timer. *)
Theorem next_deadline_correct {Value} env now s :
  match next_deadline s with
  | None => has_timers s = false ∧ fired_timers (Value:=Value) env now s = ([], s)
  | Some d =>
      has_timers s = true ∧
      (if (now <? d)%Z then fired_timers (Value:=Value) env now s = ([], s)
       else (fired_timers (Value:=Value) env now s).1 ≠ [])
  end.
Proof.
  pose proof (next_deadline_spec s) as H. unfold has_timers.
  destruct (next_deadline s) as [d|].
  - destruct H as [(id & t & Hid & Ht) Hmin]. split.
    { rewrite bool_decide_false; [done |]. intros He. by rewrite He, lookup_empty in Hid. }
    unfold fired_timers. rewrite collect_fired_filter. simpl.
    destruct (now <? d)%Z eqn:Hlt.
    + assert (filter (λ id, due now (timers s) id = true)
        (iter_order env TTimers (dom (timers s))) = []) as ->; [| by destruct s].
      apply elem_of_nil_inv. intros k [Hk _]%list_elem_of_filter. unfold due in Hk.
      destruct (timers s !! k) as [u|] eqn:E; [| done]. specialize (Hmin _ _ E). lia.
    + intros Hnil%fmap_nil_inv. eapply (elem_of_not_nil id); [| exact Hnil].
      apply list_elem_of_filter. unfold due. rewrite Hid. split; [lia |].
      rewrite (iter_order_perm env TTimers), elem_of_elements, elem_of_dom. eauto.
  - rewrite H. split; [by rewrite bool_decide_true |]. unfold fired_timers.
    rewrite collect_fired_filter, H, dom_empty_L. simpl.
    assert (iter_order env TTimers ∅ = []) as ->.
    { apply Permutation_nil. by rewrite (iter_order_perm env TTimers). }
    simpl. by destruct s; simpl in *; subst.
Qed.

(** Cancelling by prefix removes exactly the matching timers. *)
Lemma cancel_prefix_lookup prefix s id t :
  timers (cancel_timers_with_prefix prefix s) !! id = Some t ↔
  timers s !! id = Some t ∧ starts_with prefix id = false.
Proof. simpl. by rewrite map_lookup_filter_Some. Qed.
