(* ===== verification/Effect.v ===== *)
(** Effects: [crates/core/src/effect.rs].

    A [Duration] is a number of nanoseconds, as in [Scheduler]. *)

From S2P Require Import Prelude Ids Entities Job Timer Event.

Local Open Scope string_scope.

Section Effect.
Context {Value : Type}.

Inductive Effect :=
  | Emit (event : Event Value)
  | SpawnAgent (agent_id : AgentId) (agent_name : string) (owner : OwnerId)
      (workspace_path : PathBuf) (input : gmap string string) (command : string)
      (env : list (string * string)) (cwd : option PathBuf)
      (session_config : gmap string Value)
  | SendToAgent (agent_id : AgentId) (input : string)
  | KillAgent (agent_id : AgentId)
  | SendToSession (session_id : SessionId) (input : string)
  | KillSession (session_id : SessionId)
  | CreateWorkspace (workspace_id : WorkspaceId) (path : PathBuf) (owner : option OwnerId)
      (workspace_type : option string) (repo_root : option PathBuf) (branch : option string)
      (start_point : option string)
  | DeleteWorkspace (workspace_id : WorkspaceId)
  | SetTimer (id : TimerId) (duration : Z)
  | CancelTimer (id : TimerId)
  | Shell (owner : option OwnerId) (step command : string) (cwd : PathBuf)
      (env : gmap string string)
  | PollQueue (worker_name list_command : string) (cwd : PathBuf)
  | TakeQueueItem (worker_name take_command : string) (cwd : PathBuf) (item_id : string)
      (item : Value)
  | Notify (title message : string).

Definition effect_name (e : Effect) : string :=
  match e with
  | Emit _ => "emit"
  | SpawnAgent _ _ _ _ _ _ _ _ _ => "spawn_agent"
  | SendToAgent _ _ => "send_to_agent"
  | KillAgent _ => "kill_agent"
  | SendToSession _ _ => "send_to_session"
  | KillSession _ => "kill_session"
  | CreateWorkspace _ _ _ _ _ _ _ => "create_workspace"
  | DeleteWorkspace _ => "delete_workspace"
  | SetTimer _ _ => "set_timer"
  | CancelTimer _ => "cancel_timer"
  | Shell _ _ _ _ _ => "shell"
  | PollQueue _ _ _ => "poll_queue"
  | TakeQueueItem _ _ _ _ _ => "take_queue_item"
  | Notify _ _ => "notify"
  end.

(** [job:<id>] or [agent_run:<id>]. *)
Definition owner_str (o : OwnerId) : string :=
  match o with
  | Owner_Job id => "job:" +:+ id
  | Owner_AgentRun id => "agent_run:" +:+ id
  end.

(** The fields of a log line; [None] where the log line of the emitted event
    panics. *)
Definition effect_fields `{JsonValue Value} (e : Effect) : option (list (string * string)) :=
  match e with
  | Emit event => (λ l, [("event", l)]) <$> log_summary event
  | SpawnAgent agent_id agent_name owner workspace_path _ command _ cwd _ =>
      Some [("agent_id", agent_id); ("agent_name", agent_name); ("owner", owner_str owner);
            ("workspace_path", workspace_path); ("command", command);
            ("cwd", default "" cwd)]
  | SendToAgent agent_id _ => Some [("agent_id", agent_id)]
  | KillAgent agent_id => Some [("agent_id", agent_id)]
  | SendToSession session_id _ => Some [("session_id", session_id)]
  | KillSession session_id => Some [("session_id", session_id)]
  | CreateWorkspace workspace_id path _ _ _ _ _ =>
      Some [("workspace_id", workspace_id); ("path", path)]
  | DeleteWorkspace workspace_id => Some [("workspace_id", workspace_id)]
  | SetTimer id duration =>
      Some [("timer_id", id); ("duration_ms", pretty (duration / 1000000)%Z)]
  | CancelTimer id => Some [("timer_id", id)]
  | Shell owner step _ cwd _ =>
      let fields := [("step", step); ("cwd", cwd)] in
      Some (match owner with
            | Some o => ("owner", owner_str o) :: fields
            | None => fields
            end)
  | PollQueue worker_name _ cwd => Some [("worker_name", worker_name); ("cwd", cwd)]
  | TakeQueueItem worker_name _ cwd item_id _ =>
      Some [("worker_name", worker_name); ("cwd", cwd); ("item_id", item_id)]
  | Notify title _ => Some [("title", title)]
  end.
End Effect.

Arguments Effect : clear implicits.

(** [duration_serde]: a duration is written in whole milliseconds and read back
    from them; [deserialize] reads a [u64]. *)
Definition duration_serialize (d : Z) : Z := (d / 1000000)%Z.
Definition duration_deserialize (millis : Z) : option Z :=
  if (0 <=? millis)%Z && (millis <? 2 ^ 64)%Z then Some (millis * 1000000)%Z else None.

(** A duration written and read back loses less than a millisecond, and the
    ones given in milliseconds nothing. *)
Lemma duration_roundtrip d :
  (0 ≤ d < 2 ^ 64 * 1000000)%Z →
  ∃ d', duration_deserialize (duration_serialize d) = Some d' ∧ (d - 1000000 < d' ≤ d)%Z.
Proof.
  intros H. unfold duration_deserialize, duration_serialize.
  assert (0 ≤ d / 1000000 < 2 ^ 64)%Z.
  { split; [apply Z.div_pos; lia | apply Z.div_lt_upper_bound; lia]. }
  replace ((0 <=? _) && _)%Z with true by lia.
  eexists. split; [done |]. pose proof (Z.div_mod d 1000000).
  pose proof (Z.mod_pos_bound d 1000000). lia.
Qed.

(** Step transitions as effects: [crates/engine/src/steps.rs]. *)

Local Open Scope string_scope.

Section Steps.
Context {Value : Type}.
Abbreviation Ef := (Effect Value) (only parsing).

Definition step_start_effects (job_id : JobId) (step : string) : list Ef :=
  [Emit (StepStarted job_id step None None)].

Definition step_transition_effects (job : Job) (next_step : string) : list Ef :=
  [Emit (JobAdvanced (job_id job) next_step)].

Definition failure_transition_effects (job : Job) (on_fail error : string) : list Ef :=
  [Emit (StepFailed (job_id job) (job_step job) error);
   Emit (JobAdvanced (job_id job) on_fail)].

(** Kill the session, if the job has one, and drop it from the state. *)
Definition session_cleanup (job : Job) : list Ef :=
  match job_session_id job with
  | Some session_id => [KillSession session_id; Emit (SessionDeleted session_id)]
  | None => []
  end.

Definition cancel_timers (job_id : JobId) : list Ef :=
  [CancelTimer (liveness job_id); CancelTimer (exit_deferred job_id)].

Definition failure_effects (job : Job) (error : string) : list Ef :=
  cancel_timers (job_id job) ++
  [Emit (JobAdvanced (job_id job) "failed");
   Emit (StepFailed (job_id job) (job_step job) error)] ++
  session_cleanup job.

Definition cancellation_transition_effects (job : Job) (on_cancel_step : string) : list Ef :=
  [Emit (StepFailed (job_id job) (job_step job) "cancelled");
   Emit (JobAdvanced (job_id job) on_cancel_step)].

Definition cancellation_effects (job : Job) : list Ef :=
  cancel_timers (job_id job) ++
  (if negb (Job_is_terminal job) then [Emit (JobAdvanced (job_id job) "cancelled")] else []) ++
  [Emit (StepFailed (job_id job) (job_step job) "cancelled")] ++
  session_cleanup job.

Definition completion_effects (job : Job) : list Ef :=
  cancel_timers (job_id job) ++
  (if negb (Job_is_terminal job) then [Emit (JobAdvanced (job_id job) "done")] else []) ++
  [Emit (StepCompleted (job_id job) (job_step job))] ++
  session_cleanup job.
End Steps.
