(* ===== verification/Executor.v ===== *)
(** Running effects: [crates/engine/src/executor.rs], with the configuration
    builder of [crates/adapters/src/agent/mod.rs] and the event processing of
    [crates/daemon/src/lifecycle/mod.rs].

    The tmux, file-system and git calls are operations of the class [Adapters]
    on a world of the client's choice; they return an error message or succeed.
    What an effect starts in the background (shell, queue commands) is a task
    of the executor, whose event comes later.  A step of the executor reads the
    clocks of the environment it is given; [execute_all] takes one environment
    for each effect.  Tracing is not modelled. *)

From S2P Require Import Prelude Ids Entities Job Timer Event State StateEquiv StateIdem StateInv.
From S2P Require Import Scheduler Effect.

Local Open Scope string_scope.

Inductive ExecuteError :=
  | Err_Session (msg : string)
  | Err_Agent (msg : string)
  | Err_WorkspaceNotFound (id : string)
  | Err_Shell (msg : string).

Definition ExecuteError_display (e : ExecuteError) : string :=
  match e with
  | Err_Session msg => "session error: " +:+ msg
  | Err_Agent msg => "agent error: " +:+ msg
  | Err_WorkspaceNotFound id => "workspace not found: " +:+ id
  | Err_Shell msg => "shell execution error: " +:+ msg
  end.

(** ** Agent configurations *)

Record AgentSpawnConfig {Value : Type} := mkAgentSpawnConfig {
  spawn_agent_id : AgentId;
  spawn_agent_name : string;
  spawn_command : string;
  spawn_env : list (string * string);
  spawn_workspace_path : PathBuf;
  spawn_cwd : option PathBuf;
  spawn_prompt : string;
  spawn_job_name : string;
  spawn_job_id : string;
  spawn_project_root : PathBuf;
  spawn_session_config : gmap string Value;
  spawn_owner : OwnerId
}.
Arguments AgentSpawnConfig : clear implicits.

(** The configuration [execute_inner] builds for [SpawnAgent]. *)
Definition agent_spawn_config {Value} (agent_id : AgentId) (agent_name : string)
    (owner : OwnerId) (workspace_path : PathBuf) (input : gmap string string)
    (command : string) (env : list (string * string)) (cwd : option PathBuf)
    (session_config : gmap string Value) : AgentSpawnConfig Value :=
  let job_id_str := match owner with Owner_Job id => id | Owner_AgentRun _ => "" end in
  mkAgentSpawnConfig Value agent_id agent_name command env workspace_path cwd
    (default "" (input !! "prompt")) (default job_id_str (input !! "name")) job_id_str
    workspace_path session_config owner.

(** ** Adapters *)

Class Adapters (Value W : Type) := {
  agents_spawn : AgentSpawnConfig Value → W → (string + SessionId) * W;
  agents_send : AgentId → string → W → option string * W;
  agents_kill : AgentId → W → option string * W;
  sessions_send : SessionId → string → W → option string * W;
  sessions_kill : SessionId → W → option string * W;
  (** [create_dir_all] of the parent of a path, if it has one. *)
  create_parent_dir : PathBuf → W → option string * W;
  create_dir_all : PathBuf → W → option string * W;
  (** [git worktree add -b branch path start]: it cannot be run, or it fails
      with its trimmed standard error, or it succeeds. *)
  git_worktree_add : PathBuf → string → PathBuf → string → W →
    (string + option string) * W;
  (** [git worktree remove] and [git branch -D], results ignored. *)
  git_worktree_remove : PathBuf → option string → W → W;
  path_exists : PathBuf → W → bool;
  remove_dir_all : PathBuf → W → option string * W;
  notify : string → string → W → W
}.

(** What the executor starts in the background. *)
Inductive Task {Value : Type} :=
  | ShellTask (owner : option OwnerId) (step command : string) (cwd : PathBuf)
      (env : gmap string string)
  | PollTask (worker_name list_command : string) (cwd : PathBuf)
  | TakeTask (worker_name take_command : string) (cwd : PathBuf) (item_id : string)
      (item : Value).
Arguments Task : clear implicits.

Record Exec {Value W : Type} := mkExec {
  ex_state : MaterializedState Value;
  ex_scheduler : Scheduler;
  ex_world : W;
  ex_tasks : list (Task Value)
}.
Arguments Exec : clear implicits.

Section Executor.
Context {Value W : Type} `{!Adapters Value W}.
Abbreviation Ex := (Exec Value W) (only parsing).
Abbreviation Ef := (Effect Value) (only parsing).
Implicit Types (x : Ex).

Definition apply_now (env : Env) (ev : Event Value) x : Ex :=
  mkExec Value W (apply_event env ev (ex_state x)) (ex_scheduler x) (ex_world x) (ex_tasks x).

Definition set_world (w : W) x : Ex :=
  mkExec Value W (ex_state x) (ex_scheduler x) w (ex_tasks x).

Definition on_scheduler (f : Scheduler → Scheduler) x : Ex :=
  mkExec Value W (ex_state x) (f (ex_scheduler x)) (ex_world x) (ex_tasks x).

Definition start_task (t : Task Value) x : Ex :=
  mkExec Value W (ex_state x) (ex_scheduler x) (ex_world x) (ex_tasks x ++ [t]).

Definition upd_state (f : MaterializedState Value → MaterializedState Value) x : Ex :=
  mkExec Value W (f (ex_state x)) (ex_scheduler x) (ex_world x) (ex_tasks x).

(** A call of an adapter: [.await?]. *)
Definition call (op : W → option string * W) (err : string → ExecuteError) x
    : option ExecuteError * Ex :=
  let '(r, w) := op (ex_world x) in (err <$> r, set_world w x).

Abbreviation Res := ((ExecuteError + option (Event Value)) * Ex)%type (only parsing).

Definition ok_none (r : option ExecuteError * Ex) : Res :=
  match r with
  | (None, x) => (inr None, x)
  | (Some e, x) => (inl e, x)
  end.

(** The state event is applied and returned for the log. *)
Definition finish (env : Env) (ev : Event Value) x : Res := (inr (Some ev), apply_now env ev x).

Definition execute_create_workspace (env : Env) (workspace_id : WorkspaceId) (path : PathBuf)
    (owner : option OwnerId) (workspace_type : option string) (repo_root : option PathBuf)
    (branch start_point : option string) x : Res :=
  let is_worktree := bool_decide (workspace_type = Some "worktree") in
  let x := apply_now env (WorkspaceCreated workspace_id path branch owner workspace_type) x in
  if is_worktree then
    match call (create_parent_dir path)
            (λ e, Err_Shell ("failed to create workspace parent dir: " +:+ e)) x with
    | (Some e, x) => (inl e, x)
    | (None, x) =>
        match repo_root with
        | None => (inl (Err_Shell "repo_root required for worktree workspace"), x)
        | Some repo_root =>
            match branch with
            | None => (inl (Err_Shell "branch required for worktree workspace"), x)
            | Some branch =>
                let '(r, w) := git_worktree_add repo_root branch path
                                 (default "HEAD" start_point) (ex_world x) in
                let x := set_world w x in
                match r with
                | inl e => (inl (Err_Shell e), x)
                | inr (Some stderr) =>
                    let msg := "git worktree add failed: " +:+ stderr in
                    (inl (Err_Shell msg), apply_now env (WorkspaceFailed workspace_id msg) x)
                | inr None => finish env (WorkspaceReady workspace_id) x
                end
            end
        end
    end
  else
    match call (create_dir_all path)
            (λ e, Err_Shell ("failed to create workspace dir: " +:+ e)) x with
    | (Some e, x) => (inl e, x)
    | (None, x) => finish env (WorkspaceReady workspace_id) x
    end.

Definition execute_delete_workspace (env : Env) (workspace_id : WorkspaceId) x : Res :=
  match workspaces (ex_state x) !! workspace_id with
  | None => (inl (Err_WorkspaceNotFound workspace_id), x)
  | Some ws =>
      let x := upd_state (upd_workspaces
                 (alter (workspace_set_status Workspace_Cleaning) workspace_id)) x in
      let x := set_world (git_worktree_remove (workspace_path ws) (workspace_branch ws)
                            (ex_world x)) x in
      match (if path_exists (workspace_path ws) (ex_world x)
             then call (remove_dir_all (workspace_path ws))
                    (λ e, Err_Shell ("failed to remove workspace dir: " +:+ e)) x
             else (None, x)) with
      | (Some e, x) => (inl e, x)
      | (None, x) => finish env (WorkspaceDeleted workspace_id) x
      end
  end.

Definition execute (env : Env) (effect : Ef) x : Res :=
  match effect with
  | Emit event => finish env event x
  | SpawnAgent agent_id agent_name owner workspace_path input command env_vars cwd config =>
      let '(r, w) := agents_spawn (agent_spawn_config agent_id agent_name owner workspace_path
                       input command env_vars cwd config) (ex_world x) in
      let x := set_world w x in
      match r with
      | inl e => (inl (Err_Agent e), x)
      | inr session_id => finish env (SessionCreated session_id owner) x
      end
  | SendToAgent agent_id input => ok_none (call (agents_send agent_id input) Err_Agent x)
  | KillAgent agent_id => ok_none (call (agents_kill agent_id) Err_Agent x)
  | SendToSession session_id input =>
      ok_none (call (sessions_send session_id input) Err_Session x)
  | KillSession session_id => ok_none (call (sessions_kill session_id) Err_Session x)
  | CreateWorkspace workspace_id path owner ty repo_root branch start_point =>
      execute_create_workspace env workspace_id path owner ty repo_root branch start_point x
  | DeleteWorkspace workspace_id => execute_delete_workspace env workspace_id x
  | SetTimer id duration => (inr None, on_scheduler (set_timer id duration (instant env 0)) x)
  | CancelTimer id => (inr None, on_scheduler (cancel_timer id) x)
  | Shell owner step command cwd env_vars =>
      (inr None, start_task (ShellTask owner step command cwd env_vars) x)
  | PollQueue worker_name list_command cwd =>
      (inr None, start_task (PollTask worker_name list_command cwd) x)
  | TakeQueueItem worker_name take_command cwd item_id item =>
      (inr None, start_task (TakeTask worker_name take_command cwd item_id item) x)
  | Notify title message => (inr None, set_world (notify title message (ex_world x)) x)
  end.

(** The [i]-th effect runs in environment [envs i]; an error returns at once
    and drops the events collected so far. *)
Fixpoint execute_all (envs : nat → Env) (effects : list Ef) x
    : (ExecuteError + list (Event Value)) * Ex :=
  match effects with
  | [] => (inr [], x)
  | e :: effects' =>
      match execute (envs 0) e x with
      | (inl err, x) => (inl err, x)
      | (inr o, x) =>
          match execute_all (λ i, envs (S i)) effects' x with
          | (inl err, x) => (inl err, x)
          | (inr evs, x) => (inr (match o with Some ev => ev :: evs | None => evs end), x)
          end
      end
  end.

(** ** Background tasks *)

(** What a command gave: it ended, with its exit code unless a signal killed
    it, or it could not be run or timed out. *)
Inductive Output :=
  | Ran (code : option Z) (stdout stderr : string)
  | NotRun.

Definition non_empty (s : string) : option string := if is_empty s then None else Some s.

(** The event of a finished task.  [parse_items] reads the JSON array that a
    list command prints. *)
Definition task_event (parse_items : string → option (list Value)) (t : Task Value)
    (out : Output) : Event Value :=
  match t with
  | ShellTask owner step _ _ _ =>
      let job_id := match owner with Some (Owner_Job id) => id | _ => "" end in
      match out with
      | Ran code stdout stderr =>
          ShellExited job_id step (default (-1)%Z code) (non_empty stdout) (non_empty stderr)
      | NotRun => ShellExited job_id step (-1)%Z None None
      end
  | PollTask worker_name _ _ =>
      match out with
      | Ran (Some 0%Z) stdout _ => WorkerPollComplete worker_name (default [] (parse_items stdout))
      | _ => WorkerPollComplete worker_name []
      end
  | TakeTask worker_name _ _ item_id item =>
      match out with
      | Ran code _ stderr =>
          WorkerTakeComplete worker_name item_id item (default (-1)%Z code) (non_empty stderr)
      | NotRun => WorkerTakeComplete worker_name item_id item (-1)%Z None
      end
  end.
End Executor.

Local Close Scope string_scope.

(** ** What the returned events rebuild *)

Section replayable.
Context {Value W : Type} `{!Adapters Value W}.
Implicit Types (x : Exec Value W) (eff : Effect Value).

(** Every effect but [CreateWorkspace] returns the events it applied. *)
Definition returns_its_events eff : bool :=
  match eff with CreateWorkspace _ _ _ _ _ _ _ => false | _ => true end.

Lemma execute_delete_replayable env id x o x' :
  execute_delete_workspace env id x = (inr o, x') →
  o = Some (WorkspaceDeleted id) ∧
  ex_state x' = apply_event env (WorkspaceDeleted id) (ex_state x).
Proof.
  unfold execute_delete_workspace, call, finish.
  destruct (workspaces (ex_state x) !! id) as [ws|]; [| done]. simpl.
  assert (upd_workspaces (delete id)
    (upd_workspaces (alter (workspace_set_status Workspace_Cleaning) id) (ex_state x))
    = upd_workspaces (delete id) (ex_state x)) as Hd.
  { apply state_ext; simpl; try done. apply delete_alter. }
  destruct (path_exists _ _); [| intros [= <- <-]; done].
  destruct (remove_dir_all _ _) as [[e|] w]; simpl; intros [= <- <-]; done.
Qed.

Lemma execute_replayable env eff x o x' :
  returns_its_events eff = true → execute env eff x = (inr o, x') →
  ex_state x' = match o with Some ev => apply_event env ev (ex_state x) | None => ex_state x end.
Proof.
  intros Hp H. destruct eff; try done; simpl in H; unfold call, ok_none, finish in H;
    try (by apply execute_delete_replayable in H as [-> ->]);
    by repeat case_match; simplify_eq/=.
Qed.

Lemma execute_all_replay envs effs x evs x' :
  forallb returns_its_events effs = true → execute_all envs effs x = (inr evs, x') →
  ∃ es, es.*2 = evs ∧ ex_state x' = replay es (ex_state x) ∧
        Forall (λ ee, ∃ i, ee.1 = envs i) es.
Proof.
  revert envs x evs x'. induction effs as [|eff effs IH]; intros envs x evs x'; simpl.
  - intros _ [= <- <-]. by exists [].
  - intros [Hp Hps]%andb_true_iff.
    destruct (execute (envs 0) eff x) as [[err|o] x1] eqn:E1; [done |].
    destruct (execute_all _ effs x1) as [[err|evs'] x2] eqn:E2; [done |].
    intros [= <- <-]. apply execute_replayable in E1; [| done].
    apply IH in E2 as (es & <- & Hst & Hes); [| done].
    assert (Forall (λ ee : Env * Event Value, ∃ i, ee.1 = envs i) es) as Hes'.
    { eapply Forall_impl; [exact Hes |]. intros ee [i ->]. eauto. }
    destruct o as [ev|].
    + exists ((envs 0, ev) :: es). split_and!; [done | simpl; by rewrite Hst, E1 |].
      constructor; [eauto | done].
    + exists es. by rewrite Hst, E1.
Qed.

Lemma execute_all_app envs effs1 effs2 x :
  execute_all envs (effs1 ++ effs2) x =
  match execute_all envs effs1 x with
  | (inl err, x) => (inl err, x)
  | (inr evs1, x) =>
      match execute_all (λ i, envs (length effs1 + i)) effs2 x with
      | (inl err, x) => (inl err, x)
      | (inr evs2, x) => (inr (evs1 ++ evs2), x)
      end
  end.
Proof.
  revert envs x. induction effs1 as [|eff effs1 IH]; intros envs x; simpl.
  - by destruct (execute_all _ effs2 x) as [[?|?] ?].
  - destruct (execute (envs 0) eff x) as [[err|o] x1]; [done |].
    rewrite IH. destruct (execute_all _ effs1 x1) as [[err|evs1] x2]; [done |].
    destruct (execute_all _ effs2 x2) as [[err|evs2] x3]; [done |]. by destruct o.
Qed.
End replayable.

(** C8. The log carries the state: the events that a batch of effects returns,
    replayed later from the state before the batch, under clocks and iteration
    orders of that time, give the state the executor built, up to the clock
    stamps.  The batch may hold any effect but [CreateWorkspace]; it takes that
    each agent signal among the events finds at most one job and one run with
    its agent when it is replayed. *)
Theorem execute_all_replayable {Value W} `{!Adapters Value W} envs (effs : list (Effect Value))
    (x : Exec Value W) evs x' (later : list Env) :
  forallb returns_its_events effs = true →
  execute_all envs effs x = (inr evs, x') →
  length later = length evs →
  signals_clear (zip later evs) (ex_state x) →
  replay (zip later evs) (ex_state x) ≡ ex_state x'.
Proof.
  intros Hp (es & <- & -> & _)%execute_all_replay Hlen Hc; [| done].
  apply replay_any_order; [| done..]. apply snd_zip. lia.
Qed.

(** [CreateWorkspace] breaks this: it returns only [WorkspaceReady], so the
    workspace record that the executor has created is not in the log, and a
    replay of the returned event onto a state without the workspace does not
    create it. *)
Theorem create_workspace_not_logged {Value W} `{!Adapters Value W} env id path owner ty root br sp
    (x : Exec Value W) o x' :
  execute env (CreateWorkspace id path owner ty root br sp) x = (inr o, x') →
  workspaces (ex_state x) !! id = None →
  o = Some (WorkspaceReady id) ∧
  (∃ ws, workspaces (ex_state x') !! id = Some ws ∧ workspace_status ws = Workspace_Ready) ∧
  workspaces (apply_event env (WorkspaceReady id) (ex_state x)) !! id = None.
Proof.
  simpl. unfold execute_create_workspace, call, finish. intros H Hn.
  repeat case_match; simplify_eq/=; rewrite lookup_alter_eq, ?lookup_insert_eq;
    (split_and!; [done | eexists; split; [reflexivity | done] | ]);
    by rewrite lookup_alter_eq, Hn.
Qed.

(** ** Ending a job *)

Section closing.
Context {Value : Type}.
Abbreviation St := (MaterializedState Value) (only parsing).

Definition all_finished (j : Job) : Prop :=
  Forall (λ r, is_Some (step_finished_ms r)) (job_step_history j).

(** No worker lists the job and no decision of it is open. *)
Definition job_released (id : JobId) (s : St) : Prop :=
  map_Forall (λ _ w, id ∉ worker_active_job_ids w) (workers s) ∧
  map_Forall (λ _ d, decision_job_id d = id → Decision_is_resolved d = true) (decisions s).

Lemma release_job_released id (s : St) : job_released id (release_job id s).
Proof.
  split.
  - intros k w Hk. simpl in Hk. rewrite lookup_fmap_Some in Hk. destruct Hk as (w' & <- & _).
    simpl. by intros [Hne _]%list_elem_of_filter.
  - intros k d Hk. simpl in Hk. apply map_lookup_filter_Some in Hk as [_ [?|?]]; simpl in *; done.
Qed.

Lemma finalize_all_finished o t j : Job_wf j → all_finished (finalize_current_step o t j).
Proof.
  intros [(pre & r & Hh & Hpre) _ _].
  destruct (finalize_history o t j pre r Hh) as (r' & Hh' & Hr' & _).
  unfold all_finished. rewrite Hh'. apply Forall_app. by rewrite Forall_singleton.
Qed.

Lemma finalize_keeps_finished o t j : all_finished j → finalize_current_step o t j = j.
Proof.
  intros H. unfold finalize_current_step, with_current_step.
  assert (∀ f h, Forall (λ r, is_Some (step_finished_ms r)) h →
    alter_last (λ r, match step_finished_ms r with None => f r | Some _ => r end) h = h) as ->.
  { intros f h Hh. induction Hh as [|r [|r' h] [ms Hms] Hh IH]; [done | |].
    - simpl. by rewrite Hms.
    - cbn [alter_last] in *. by f_equal. }
  - by destruct j.
  - done.
Qed.

(** What the events at the end of a job leave: the job, given by [f], at its
    terminal step with its history closed, and nothing that refers to it. *)
Record job_closed (id : JobId) (step : string) (P : Job → Prop) (s : St) : Prop := {
  closed_job : ∃ j, jobs s !! id = Some j ∧ job_step j = step ∧ all_finished j ∧ P j;
  closed_released : job_released id s
}.

Lemma JobAdvanced_closes env id step j (s : St) :
  jobs s !! id = Some j → Job_is_terminal j = false → Job_wf j → is_terminal_step step = true →
  job_closed id step (λ j', job_step_status j' = advance_status step ∧
      job_session_id j' = job_session_id j ∧
      job_step_history j' = job_step_history
        (finalize_current_step (advance_outcome step j) (clock env 0) j))
    (apply_JobAdvanced env id step s).
Proof.
  intros Hj Hnt Hw Ht. unfold apply_JobAdvanced. rewrite Hj, Ht.
  assert (advance_skips step j = false) as ->.
  { unfold advance_skips. destruct (String.eqb_spec (job_step j) step) as [<-|]; [| done].
    unfold Job_is_terminal in Hnt. congruence. }
  split; [| apply (release_job_released id (upd_jobs _ s))].
  exists (enter_step (clock env 0) step j). simpl. rewrite lookup_insert_eq.
  split_and!; [done | apply advance_job_step | | apply advance_job_status | |];
    rewrite advance_job_terminal by done; cbv zeta; [| by destruct (bool_decide _)..].
  pose proof (finalize_all_finished (advance_outcome step j) (clock env 0) j Hw).
  by destruct (bool_decide _).
Qed.

(** The later events only touch the job itself. *)
Lemma job_closed_alter id step P Q f (s : St) :
  (∀ j, job_step j = step → all_finished j → P j →
     job_step (f j) = step ∧ all_finished (f j) ∧ Q (f j)) →
  job_closed id step P s → job_closed id step Q (upd_jobs (alter f id) s).
Proof.
  intros Hf [(j & Hj & Hs & Ha & HP) Hr]. split; [| done].
  destruct (Hf j Hs Ha HP) as (?&?&?). exists (f j). simpl.
  rewrite lookup_alter_eq, Hj. done.
Qed.

Lemma job_closed_session id step P sid (s : St) :
  job_closed id step (λ j, P j ∧ (job_session_id j = Some sid ∨ job_session_id j = None)) s →
  (∀ j, P j → P (job_set_session_id None j)) →
  job_closed id step (λ j, P j ∧ job_session_id j = None) (apply_SessionDeleted sid s).
Proof.
  intros [(j & Hj & Hs & Ha & HP & Hsid) [Hw Hd]] Hclear. split; [| done].
  destruct (decide (job_session_id j = Some sid)) as [Heq|Hne].
  - exists (job_set_session_id None j). simpl. rewrite lookup_fmap, Hj. simpl.
    rewrite bool_decide_true by done. split_and!; auto.
  - exists j. simpl. rewrite lookup_fmap, Hj. simpl.
    rewrite bool_decide_false by done. split_and!; [done..|]. by destruct Hsid.
Qed.
End closing.

Section end_of_job.
Context {Value W : Type} `{!Adapters Value W}.
Implicit Types (x : Exec Value W).

Definition kill_succeeds (j : Job) x : Prop :=
  ∀ sid, job_session_id j = Some sid → (sessions_kill sid (ex_world x)).1 = None.

(** The timers of a job are gone. *)
Definition timers_cancelled (id : JobId) x : Prop :=
  timers (ex_scheduler x) !! liveness id = None ∧
  timers (ex_scheduler x) !! exit_deferred id = None.

(** The common shape of the three closing batches. *)
Lemma execute_closing envs id (evs : list (Event Value)) j x :
  kill_succeeds j x →
  ∃ evs' x', execute_all envs (cancel_timers id ++ map Emit evs ++ session_cleanup j) x
               = (inr evs', x') ∧
    timers_cancelled id x' ∧
    evs' = evs ++ match job_session_id j with Some sid => [SessionDeleted sid] | None => [] end ∧
    let s := replay (imap (λ i ev, (envs (2 + i), ev)) evs) (ex_state x) in
    ex_state x' = match job_session_id j with
                  | Some sid => apply_SessionDeleted sid s
                  | None => s
                  end.
Proof.
  intros Hk.
  assert (∀ envs0 x0, execute_all envs0 (map Emit evs) x0 =
    (inr evs, mkExec Value W (replay (imap (λ i ev, (envs0 i, ev)) evs) (ex_state x0))
       (ex_scheduler x0) (ex_world x0) (ex_tasks x0))) as Hemit.
  { clear. induction evs as [|ev evs IH]; intros envs0 x0; [by destruct x0 |].
    simpl. rewrite IH. simpl. done. }
  set (x0 := mkExec Value W (ex_state x)
    (cancel_timer (exit_deferred id) (cancel_timer (liveness id) (ex_scheduler x)))
    (ex_world x) (ex_tasks x)).
  assert (timers_cancelled id x0) as Hc.
  { split; simpl; [| by rewrite lookup_delete_eq].
    rewrite lookup_delete_ne by done. by rewrite lookup_delete_eq. }
  rewrite execute_all_app.
  change (execute_all envs (cancel_timers id) x)
    with ((inr [], x0) : (ExecuteError + list (Event Value)) * Exec Value W).
  cbv beta iota. rewrite execute_all_app, Hemit. cbv beta iota.
  unfold session_cleanup. destruct (job_session_id j) as [sid|] eqn:Hsid.
  - simpl. unfold call. simpl. specialize (Hk sid Hsid).
    destruct (sessions_kill sid (ex_world x)) as [r w]. simpl in *. subst r. simpl.
    do 2 eexists. split; [reflexivity |]. done.
  - simpl. do 2 eexists. split; [reflexivity |]. done.
Qed.

(** After a closing batch: the job is at [step] with status [st] and property
    [P], its history is closed, it has no session, no timer, no worker and no
    open decision. *)
Definition job_ended (id : JobId) (step : string) (P : Job → Prop) x : Prop :=
  timers_cancelled id x ∧
  job_closed id step (λ j, P j ∧ job_session_id j = None) (ex_state x).

(** [JobAdvanced] to a terminal step, then an event that updates the job by
    [f] without touching its session, then the session cleanup.  The effects
    are built from [j]; the state may have lost the session of the job
    already. *)
Lemma closing_ends envs id step fin f P j j0 x :
  jobs (ex_state x) !! id = Some j0 → Job_is_terminal j0 = false → Job_wf j0 →
  is_terminal_step step = true → kill_succeeds j x →
  (job_session_id j0 = job_session_id j ∨ job_session_id j0 = None) →
  (∀ env s, apply_event env fin s = upd_jobs (alter (f env) id) s) →
  (∀ env k, job_step k = step → all_finished k →
     (∃ t, job_step_history k = job_step_history
        (finalize_current_step (advance_outcome step j0) t j0)) →
     job_step_status k = advance_status step →
     job_step (f env k) = step ∧ all_finished (f env k) ∧ P (f env k) ∧
     job_session_id (f env k) = job_session_id k) →
  (∀ k, P k → P (job_set_session_id None k)) →
  ∃ evs x', execute_all envs
      (cancel_timers id ++ map Emit [JobAdvanced id step; fin] ++ session_cleanup j) x
      = (inr evs, x') ∧ job_ended id step P x'.
Proof.
  intros Hj Hnt Hw Ht Hk Hse0 Hfin Hf HP.
  destruct (execute_closing envs id [JobAdvanced id step; fin] j x Hk)
    as (evs & x' & Hrun & Hc & _ & Hst).
  exists evs, x'. split; [exact Hrun |]. split; [exact Hc |]. rewrite Hst. simpl.
  rewrite Hfin.
  pose proof (JobAdvanced_closes (envs 2) id step j0 (ex_state x) Hj Hnt Hw Ht) as Hcl.
  apply (job_closed_alter _ _ _ (λ k, P k ∧ job_session_id k = job_session_id j0)
           (f (envs 3))) in Hcl.
  - destruct (job_session_id j) as [sid|] eqn:Hs.
    + apply job_closed_session; [| done].
      destruct Hcl as [(k & ? & ? & ? & ? & Hk')]. split; [| done]. exists k.
      rewrite Hk'. split_and!; try done.
    + destruct Hcl as [(k & ? & ? & ? & ? & Hk')]. split; [| done]. exists k.
      split_and!; try done. rewrite Hk'. by destruct Hse0.
  - intros k Hks Hka (Hst' & Hse & Hh).
    destruct (Hf (envs 3) k Hks Hka (ex_intro _ _ Hh) Hst') as (?&?&?&?).
    split_and!; [done.. | congruence].
Qed.

Lemma finalize_status o t st k :
  job_step_status (finalize_current_step o t (job_set_step_status st k)) = st.
Proof. done. Qed.
End end_of_job.

Section end_of_job_batches.
Context {Value W : Type} `{!Adapters Value W}.
Context (envs : nat → Env) (job j0 : Job) (x : Exec Value W).
Context (Hjob : jobs (ex_state x) !! job_id job = Some j0).
Context (Hrunning : Job_is_terminal job = false) (Hrunning0 : Job_is_terminal j0 = false).
Context (Hwf : Job_wf j0) (Hkill : kill_succeeds job x).
Context (Hsession : job_session_id j0 = job_session_id job ∨ job_session_id j0 = None).

(** Completion: every step record finished, no session, no liveness or exit
    timer, no worker that lists the job and no open decision. *)
Lemma completion_effects_end :
  ∃ evs x', execute_all envs (completion_effects job) x = (inr evs, x') ∧
    job_ended (job_id job) "done" (λ j, job_step_status j = Completed) x'.
Proof.
  unfold completion_effects. rewrite Hrunning.
  apply (closing_ends envs (job_id job) "done" (StepCompleted (job_id job) (job_step job))
    (λ env j, finalize_current_step Outcome_Completed (clock env 0)
                (job_set_step_status Completed j)) _ job j0); try done.
  intros env k Hs Ha _ _. rewrite finalize_keeps_finished by done. done.
Qed.

(** Failure: the error is recorded on the job.  It does not reach the step
    record, though: [JobAdvanced] is emitted before [StepFailed] and closes the
    record with the error the job had before. *)
Definition failed_with (error : string) (j : Job) : Prop :=
  job_step_status j = Failed ∧ job_error j = Some error ∧
  ∃ t, job_step_history j = job_step_history
         (finalize_current_step (Outcome_Failed (default "" (job_error j0))) t j0).

Lemma failure_effects_end error :
  ∃ evs x', execute_all envs (failure_effects job error) x = (inr evs, x') ∧
    job_ended (job_id job) "failed" (failed_with error) x'.
Proof.
  unfold failure_effects.
  apply (closing_ends envs (job_id job) "failed"
    (StepFailed (job_id job) (job_step job) error)
    (λ env j, finalize_current_step (Outcome_Failed error) (clock env 0)
                (job_set_error (Some error) (job_set_step_status Failed j))) _ job j0); try done.
  intros env k Hs Ha Hh _. rewrite finalize_keeps_finished by done. done.
Qed.

(** Cancellation: a failure at step ["cancelled"]. *)
Lemma cancellation_effects_end :
  ∃ evs x', execute_all envs (cancellation_effects job) x = (inr evs, x') ∧
    job_ended (job_id job) "cancelled"
      (λ j, job_step_status j = Failed ∧ job_error j = Some "cancelled") x'.
Proof.
  unfold cancellation_effects. rewrite Hrunning.
  apply (closing_ends envs (job_id job) "cancelled"
    (StepFailed (job_id job) (job_step job) "cancelled")
    (λ env j, finalize_current_step (Outcome_Failed "cancelled") (clock env 0)
                (job_set_error (Some "cancelled") (job_set_step_status Failed j))) _ job j0);
    try done.
  intros env k Hs Ha Hh _. rewrite finalize_keeps_finished by done. done.
Qed.
End end_of_job_batches.

(** ** Witnesses *)

(** Adapters on which every call succeeds. *)
Definition quiet_adapters : Adapters unit unit := {|
  agents_spawn := λ _ w, (inr "sess", w);
  agents_send := λ _ _ w, (None, w);
  agents_kill := λ _ w, (None, w);
  sessions_send := λ _ _ w, (None, w);
  sessions_kill := λ _ w, (None, w);
  create_parent_dir := λ _ w, (None, w);
  create_dir_all := λ _ w, (None, w);
  git_worktree_add := λ _ _ _ _ w, (inr None, w);
  git_worktree_remove := λ _ _ w, w;
  path_exists := λ _ _, true;
  remove_dir_all := λ _ w, (None, w);
  notify := λ _ _ w, w
|}.

Definition sample_job : Job :=
  Job_new_with_epoch_ms (env_at 0) (mkJobConfig "j" "n" "k" ∅ "h" "/" "run" "" None) 0.

Definition sample_exec : Exec unit unit :=
  mkExec unit unit (upd_jobs <["j" := job_set_session_id (Some "sess") sample_job]>
    MaterializedState_default) Scheduler_new tt [].

Lemma sample_job_wf : Job_wf (job_set_session_id (Some "sess") sample_job).
Proof. apply (Job_wf_same sample_job); [done.. | apply Job_wf_new]. Qed.

Lemma execute_all_replayable_witness :
  let effs := [Emit (JobAdvanced "j" "done"); SetTimer "t" 5; SpawnAgent "a" "n" (Owner_Job "j") "/" ∅ "c" [] None ∅] in
  ∃ evs x',
    forallb returns_its_events effs = true ∧
    execute_all (Adapters0 := quiet_adapters) (λ _, env_at 1) effs sample_exec = (inr evs, x') ∧
    length [env_at 7; env_at 8] = length evs ∧
    replay (zip [env_at 7; env_at 8] evs) (ex_state sample_exec) ≡ ex_state x'.
Proof.
  do 2 eexists. split; [reflexivity |]. split; [reflexivity |]. split; [reflexivity |].
  eapply (execute_all_replayable (Adapters0 := quiet_adapters) (λ _, env_at 1)
    [Emit (JobAdvanced "j" "done"); SetTimer "t" 5;
     SpawnAgent "a" "n" (Owner_Job "j") "/" ∅ "c" [] None ∅] sample_exec);
    [reflexivity | reflexivity | reflexivity |].
  repeat split.
Defined.

Lemma create_workspace_not_logged_witness :
  ∃ o x',
    execute (Adapters0 := quiet_adapters) (env_at 0)
      (CreateWorkspace "ws" "/ws" None None None None None) sample_exec = (inr o, x') ∧
    workspaces (ex_state sample_exec) !! "ws" = None ∧
    o = Some (WorkspaceReady "ws") ∧
    (∃ ws, workspaces (ex_state x') !! "ws" = Some ws ∧ workspace_status ws = Workspace_Ready) ∧
    workspaces (apply_event (env_at 0) (WorkspaceReady "ws") (ex_state sample_exec)) !! "ws" = None.
Proof.
  do 2 eexists. split; [reflexivity |]. split; [reflexivity |].
  exact (create_workspace_not_logged (Adapters0 := quiet_adapters) (env_at 0) "ws" "/ws" None None
    None None None sample_exec _ _ eq_refl eq_refl).
Defined.
