(* ===== verification/Runtime.v ===== *)
(** The runtime: [crates/engine/src/runtime/mod.rs] and [error.rs].

    A handler of the runtime is a state-passing function that may fail: [RT].
    The state [Rt] holds the executor with the materialized state and the
    scheduler, the maps behind the runtime's mutexes, and the supply of
    readings: the environments in which the next effects run and the UUIDs
    that are generated next.  An error returns at once and keeps what has been
    done so far, as [?] does.

    The job and worker logs, the breadcrumb files, the user's environment files
    and the runbook files are operations on the world ([RuntimeIO]), as are the
    reading and writing of runbooks as JSON and their SHA-256 hash.  A path is
    its text, so [display] is the identity. *)

From S2P Require Import Prelude Ids Runbook Bytes Vars Entities Job Timer Event State Scheduler Effect.
From S2P Require Import Executor.

Local Open Scope string_scope.

Inductive RuntimeError :=
  | Rt_Execute (e : ExecuteError)
  | Rt_JobNotFound (id : string)
  | Rt_CommandNotFound (name : string)
  | Rt_JobDefNotFound (kind : string)
  | Rt_AgentNotFound (id : string)
  | Rt_PromptError (agent message : string)
  | Rt_InvalidRunDirective (context directive : string)
  | Rt_RunbookLoadError (msg : string)
  | Rt_InvalidFormat (msg : string)
  | Rt_StepNotFound (name : string)
  | Rt_InvalidRequest (msg : string)
  | Rt_WorkerNotFound (name : string)
  | Rt_CronNotFound (name : string)
  | Rt_ShellError (msg : string)
  (** Not of the source: the handler panics. *)
  | Rt_Panic.

Definition RuntimeError_display (e : RuntimeError) : string :=
  match e with
  | Rt_Execute e => "execute error: " +:+ ExecuteError_display e
  | Rt_JobNotFound id => "job not found: " +:+ id
  | Rt_CommandNotFound name => "command not found: " +:+ name
  | Rt_JobDefNotFound kind => "job definition not found: " +:+ kind
  | Rt_AgentNotFound id => "agent not found: " +:+ id
  | Rt_PromptError agent message => "prompt error for agent " +:+ agent +:+ ": " +:+ message
  | Rt_InvalidRunDirective context directive =>
      "invalid run directive for " +:+ context +:+ ": " +:+ directive
  | Rt_RunbookLoadError msg => "failed to load runbook: " +:+ msg
  | Rt_InvalidFormat msg => "invalid format: " +:+ msg
  | Rt_StepNotFound name => "step not found: " +:+ name
  | Rt_InvalidRequest msg => "invalid request: " +:+ msg
  | Rt_WorkerNotFound name => "worker not found: " +:+ name
  | Rt_CronNotFound name => "cron not found: " +:+ name
  | Rt_ShellError msg => "shell error: " +:+ msg
  | Rt_Panic => ""
  end.

(** ** Worker states: [handlers/worker/mod.rs] *)

Inductive WorkerStatus := Wk_Running | Wk_Stopped.

#[export] Instance WorkerStatus_eq_dec : EqDecision WorkerStatus.
Proof. solve_decision. Defined.

Record WorkerState := mkWorkerState {
  wk_project_root : PathBuf;
  wk_runbook_hash : string;
  wk_queue_name : string;
  wk_job_kind : string;
  wk_concurrency : Z;
  wk_active_jobs : gset string;
  wk_status : WorkerStatus;
  wk_queue_type : QueueType;
  wk_item_job_map : gmap string string;
  wk_namespace : string;
  wk_poll_interval : option string;
  wk_pending_takes : Z;
  wk_inflight_items : gset string
}.

(** Assignments to the fields that change. *)
Definition wk_set_runbook_hash (v : string) (w : WorkerState) : WorkerState :=
  mkWorkerState (wk_project_root w) v (wk_queue_name w) (wk_job_kind w) (wk_concurrency w)
    (wk_active_jobs w) (wk_status w) (wk_queue_type w) (wk_item_job_map w) (wk_namespace w)
    (wk_poll_interval w) (wk_pending_takes w) (wk_inflight_items w).

Definition wk_set_concurrency (v : Z) (w : WorkerState) : WorkerState :=
  mkWorkerState (wk_project_root w) (wk_runbook_hash w) (wk_queue_name w) (wk_job_kind w) v
    (wk_active_jobs w) (wk_status w) (wk_queue_type w) (wk_item_job_map w) (wk_namespace w)
    (wk_poll_interval w) (wk_pending_takes w) (wk_inflight_items w).

Definition wk_set_status (v : WorkerStatus) (w : WorkerState) : WorkerState :=
  mkWorkerState (wk_project_root w) (wk_runbook_hash w) (wk_queue_name w) (wk_job_kind w)
    (wk_concurrency w) (wk_active_jobs w) v (wk_queue_type w) (wk_item_job_map w)
    (wk_namespace w) (wk_poll_interval w) (wk_pending_takes w) (wk_inflight_items w).

Definition wk_set_jobs (active : gset string) (items : gmap string string) (w : WorkerState)
    : WorkerState :=
  mkWorkerState (wk_project_root w) (wk_runbook_hash w) (wk_queue_name w) (wk_job_kind w)
    (wk_concurrency w) active (wk_status w) (wk_queue_type w) items (wk_namespace w)
    (wk_poll_interval w) (wk_pending_takes w) (wk_inflight_items w).

Definition wk_set_takes (pending : Z) (inflight : gset string) (w : WorkerState) : WorkerState :=
  mkWorkerState (wk_project_root w) (wk_runbook_hash w) (wk_queue_name w) (wk_job_kind w)
    (wk_concurrency w) (wk_active_jobs w) (wk_status w) (wk_queue_type w) (wk_item_job_map w)
    (wk_namespace w) (wk_poll_interval w) pending inflight.

(** ** Cron states: [handlers/cron.rs] *)

Inductive CronRunTarget := Target_Job (name : string) | Target_Agent (name : string).

(** [agent:name] or [job:name]; a bare name is a job. *)
Definition from_run_target_str (s : string) : CronRunTarget :=
  match strip_prefix "agent:" s with
  | Some name => Target_Agent name
  | None => Target_Job (default s (strip_prefix "job:" s))
  end.

Definition target_display_name (t : CronRunTarget) : string :=
  match t with
  | Target_Job name => "job=" +:+ name
  | Target_Agent name => "agent=" +:+ name
  end.

Inductive CronStatus := Cron_Running | Cron_Stopped.

#[export] Instance CronStatus_eq_dec : EqDecision CronStatus.
Proof. solve_decision. Defined.

Record CronState := mkCronState {
  cst_project_root : PathBuf;
  cst_runbook_hash : string;
  cst_interval : string;
  cst_run_target : CronRunTarget;
  cst_status : CronStatus;
  cst_namespace : string;
  cst_concurrency : Z
}.

Definition cst_set_status (v : CronStatus) (c : CronState) : CronState :=
  mkCronState (cst_project_root c) (cst_runbook_hash c) (cst_interval c) (cst_run_target c) v
    (cst_namespace c) (cst_concurrency c).

Definition cst_set_runbook (hash : string) (concurrency : Z) (c : CronState) : CronState :=
  mkCronState (cst_project_root c) hash (cst_interval c) (cst_run_target c) (cst_status c)
    (cst_namespace c) concurrency.

(** ** Files and encodings *)

Class RuntimeIO (Value W : Type) := {
  job_log : string → string → string → W → W;
  worker_log : string → string → W → W;
  breadcrumb_write : Job → W → W;
  breadcrumb_delete : string → W → W;
  (** The user's variables, global and of a namespace. *)
  load_merged_env : string → W → gmap string string;
  (** The runbook of a directory that holds a worker: an error, or the runbook
      if there is one. *)
  find_runbook_by_worker : PathBuf → string → W → string + option Runbook;
  runbook_to_json : Runbook → string + Value;
  (** The text of a JSON value, and the hexadecimal SHA-256 of a text. *)
  json_to_text : Value → string + string;
  sha256_hex : string → string;
  runbook_from_json : Value → string + Runbook;
  (** [std::env::var]. *)
  runtime_env_var : EnvVars;
  (** The directory of the daemon's state. *)
  state_dir : PathBuf
}.

(** A finished process: its exit code if it has one, and its output as text. *)
Record ProcessOutput := mkOutput {
  out_code : option Z;
  out_stdout : string;
  out_stderr : string
}.

Definition out_success (o : ProcessOutput) : bool := bool_decide (out_code o = Some 0%Z).

(** The processes handlers wait for, through [run_with_timeout]: an error, or
    the output. *)
Class Processes (W : Type) := {
  (** [std::env::current_dir], or the empty path. *)
  current_dir : W → PathBuf;
  (** [bash -c script] in a directory, with a description for the error. *)
  run_bash : string → PathBuf → string → W → (string + ProcessOutput) * W;
  (** [sh -c command] in a directory, with a description for the error. *)
  run_sh : string → PathBuf → string → W → (string + ProcessOutput) * W;
  (** [git -C dir rev-parse --show-toplevel]. *)
  git_toplevel : PathBuf → W → (string + ProcessOutput) * W
}.

(** What handlers ask the agent and session adapters, and the files they keep
    about agents. *)
Class AgentIO (W : Type) := {
  (** [get_state(..).ok()], [session_log_size], [last_assistant_message]. *)
  agent_state_of : AgentId → W → option AgentState;
  session_log_size : AgentId → W → option Z;
  last_assistant_message : AgentId → W → option string;
  (** [is_alive] and [is_process_running], [false] on an error. *)
  session_alive : SessionId → W → bool;
  process_running : SessionId → string → W → bool;
  (** The session log of an agent in a directory; the most recent one there if
      it has none. *)
  find_session_log : PathBuf → string → W → option PathBuf;
  (** [reconnect] with agent, session, workspace, process name and owner. *)
  reconnect : AgentId → SessionId → PathBuf → string → OwnerId → W → option string * W;
  append_agent_pointer : string → string → string → W → W;
  append_agent_error : string → string → W → W;
  copy_session_log : string → PathBuf → W → W;
  append_fenced : string → string → string → string → W → W;
  queue_log : string → string → string → W → W
}.

(** The logs of crons, and the runbooks of a directory that hold a cron or a
    command: an error, or the runbook if there is one. *)
Class CronIO (W : Type) := {
  append_cron_log : string → string → string → W → W;
  find_runbook_by_cron : PathBuf → string → W → string + option Runbook;
  find_runbook_by_command : PathBuf → string → W → string + option Runbook
}.

(** Files made ready for an agent: [workspace.rs], prompt files, and the path of
    the daemon's binary. *)
Class SpawnIO (W : Type) := {
  read_prompt_file : PathBuf → W → string + string;
  prepare_for_agent : PathBuf → W → option string * W;
  prepare_agent_prime : string → PrimeDef → gmap string string → W →
    (string + gmap string PathBuf) * W;
  prepare_agent_settings : string → PathBuf → gmap string PathBuf → W → (string + PathBuf) * W;
  write_agent_config : string → string → W → option string * W;
  current_exe : option PathBuf
}.

(** ** State and monad *)

Record Rt {Value W : Type} := mkRt {
  rt_exec : Exec Value W;
  rt_owners : gmap AgentId OwnerId;
  rt_cache : gmap string Runbook;
  rt_workers : gmap string WorkerState;
  rt_crons : gmap string CronState;
  rt_envs : nat → Env;
  rt_ids : nat → string
}.
Arguments Rt : clear implicits.

Definition RT (Value W A : Type) : Type := Rt Value W → (RuntimeError + A) * Rt Value W.

#[export] Instance rt_ret Value W : MRet (RT Value W) := λ A a r, (inr a, r).

#[export] Instance rt_bind Value W : MBind (RT Value W) := λ A B k m r,
  match m r with
  | (inl e, r) => (inl e, r)
  | (inr a, r) => k a r
  end.

Section Runtime.
Context {Value W : Type} `{!Adapters Value W} `{!RuntimeIO Value W}.
Abbreviation R := (Rt Value W) (only parsing).
Abbreviation M := (RT Value W) (only parsing).
Abbreviation Events := (list (Event Value)) (only parsing).
Implicit Types (r : R).

Definition throw {A} (e : RuntimeError) : M A := λ r, (inl e, r).

(** [if let Ok(a) = m]: an error is a value. *)
Definition attempt {A} (m : M A) : M (RuntimeError + A) := λ r,
  let '(a, r) := m r in (inr a, r).

Definition ok_or {A} (e : RuntimeError) (o : option A) : M A :=
  match o with Some a => mret a | None => throw e end.

Definition gets {A} (f : R → A) : M A := λ r, (inr (f r), r).

Definition modify (f : R → R) : M unit := λ r, (inr tt, f r).

Definition rt_set_exec (x : Exec Value W) r : R :=
  mkRt Value W x (rt_owners r) (rt_cache r) (rt_workers r) (rt_crons r) (rt_envs r) (rt_ids r).

Definition rt_upd_owners (f : gmap AgentId OwnerId → gmap AgentId OwnerId) r : R :=
  mkRt Value W (rt_exec r) (f (rt_owners r)) (rt_cache r) (rt_workers r) (rt_crons r) (rt_envs r) (rt_ids r).

Definition rt_upd_cache (f : gmap string Runbook → gmap string Runbook) r : R :=
  mkRt Value W (rt_exec r) (rt_owners r) (f (rt_cache r)) (rt_workers r) (rt_crons r) (rt_envs r) (rt_ids r).

Definition rt_upd_workers (f : gmap string WorkerState → gmap string WorkerState) r : R :=
  mkRt Value W (rt_exec r) (rt_owners r) (rt_cache r) (f (rt_workers r)) (rt_crons r) (rt_envs r) (rt_ids r).

Definition rt_upd_crons (f : gmap string CronState → gmap string CronState) r : R :=
  mkRt Value W (rt_exec r) (rt_owners r) (rt_cache r) (rt_workers r) (f (rt_crons r)) (rt_envs r)
    (rt_ids r).

Definition rt_skip_envs (n : nat) r : R :=
  mkRt Value W (rt_exec r) (rt_owners r) (rt_cache r) (rt_workers r) (rt_crons r)
    (λ i, rt_envs r (n + i)) (rt_ids r).

(** The state behind the lock. *)
Definition rt_state r : MaterializedState Value := ex_state (rt_exec r).

Definition lock_state {A} (f : MaterializedState Value → A) : M A := gets (λ r, f (rt_state r)).

(** An iteration reads the next environment. *)
Definition lock_state_env {A} (f : Env → MaterializedState Value → A) : M A := λ r,
  (inr (f (rt_envs r 0) (rt_state r)), rt_skip_envs 1 r).

Definition io (f : W → W) : M unit :=
  modify (λ r, rt_set_exec (set_world (f (ex_world (rt_exec r))) (rt_exec r)) r).

(** A call that may fail with a message. *)
Definition try_io {A} (err : string → RuntimeError) (f : W → (string + A) * W) : M A := λ r,
  let '(res, w) := f (ex_world (rt_exec r)) in
  let r := rt_set_exec (set_world w (rt_exec r)) r in
  match res with
  | inl e => (inl (err e), r)
  | inr a => (inr a, r)
  end.

Definition try_unit (err : string → RuntimeError) (f : W → option string * W) : M unit :=
  try_io err (λ w, let '(o, w) := f w in (match o with Some e => inl e | None => inr tt end, w)).

(** A process that may not have run: [.map_err(RuntimeError::ShellError)?]. *)
Definition process (f : W → (string + ProcessOutput) * W) : M ProcessOutput := try_io Rt_ShellError f.

(** A question to the world. *)
Definition ask {A} (f : W → A) : M A := gets (λ r, f (ex_world (rt_exec r))).

(** [lock_state_mut]: the state is changed without an event. *)
Definition lock_state_mut (f : MaterializedState Value → MaterializedState Value) : M unit :=
  modify (λ r, rt_set_exec (upd_state f (rt_exec r)) r).

(** The first [n] bytes of an id; a slice inside a character panics. *)
Definition short_id (id : string) (n : nat) : M string := ok_or Rt_Panic (short id n).

(** [executor.execute(..).await?] and [execute_all]. *)
Definition exec_effect (eff : Effect Value) : M (option (Event Value)) := λ r,
  let '(res, x) := execute (rt_envs r 0) eff (rt_exec r) in
  let r := rt_set_exec x (rt_skip_envs 1 r) in
  match res with
  | inl e => (inl (Rt_Execute e), r)
  | inr o => (inr o, r)
  end.

Definition exec_effects (effs : list (Effect Value)) : M Events := λ r,
  let '(res, x) := execute_all (rt_envs r) effs (rt_exec r) in
  let r := rt_set_exec x (rt_skip_envs (length effs) r) in
  match res with
  | inl e => (inl (Rt_Execute e), r)
  | inr evs => (inr evs, r)
  end.

(** [match execute_all(..).await]: the error is a value. *)
Definition try_effects (effs : list (Effect Value)) : M (ExecuteError + Events) := λ r,
  let '(res, x) := execute_all (rt_envs r) effs (rt_exec r) in
  (inr res, rt_set_exec x (rt_skip_envs (length effs) r)).

(** [UuidIdGen.next()]. *)
Definition next_id : M string := λ r,
  (inr (rt_ids r 0),
   mkRt Value W (rt_exec r) (rt_owners r) (rt_cache r) (rt_workers r) (rt_crons r) (rt_envs r)
     (λ i, rt_ids r (S i))).

(** ** Look-ups *)

Definition rt_get_job (id : string) : M (option Job) := lock_state (λ s, get_job s id).

Definition require_job (id : string) : M Job :=
  o ← rt_get_job id; ok_or (Rt_JobNotFound id) o.

Definition get_active_job (id : string) : M (option Job) :=
  o ← rt_get_job id;
  mret (o ≫= λ job, if Job_is_terminal job then None else Some job).

Definition count_active_cron_jobs (cron_name namespace : string) : M nat :=
  lock_state (λ s, size (filter (λ kj, job_cron_name kj.2 = Some cron_name ∧
    job_namespace kj.2 = namespace ∧ Job_is_terminal kj.2 = false) (jobs s))).

Definition count_running_agents (agent_name namespace : string) : M nat :=
  lock_state (λ s, size (filter (λ kr, run_agent_name kr.2 = agent_name ∧
    run_namespace kr.2 = namespace ∧ AgentRunStatus_is_terminal (run_status kr.2) = false)
    (agent_runs s))).

Definition invalid_directive (context directive value : string) : RuntimeError :=
  Rt_InvalidRunDirective context (directive +:+ " (" +:+ value +:+ ")").

Definition execution_dir (job : Job) : PathBuf := default (job_cwd job) (job_workspace_path job).

Definition get_agent_owner (agent_id : AgentId) : M (option OwnerId) :=
  gets (λ r, rt_owners r !! agent_id).

Definition register_agent (agent_id : AgentId) (owner : OwnerId) : M unit :=
  modify (rt_upd_owners <[agent_id := owner]>).

Definition deregister_agent (agent_id : AgentId) : M (option OwnerId) := λ r,
  (inr (rt_owners r !! agent_id), rt_upd_owners (delete agent_id) r).

(** ** Runbooks *)

(** The in-process cache first, then the materialized state; a runbook read
    from there is cached. *)
Definition cached_runbook (hash : string) : M Runbook :=
  c ← gets (λ r, rt_cache r !! hash);
  match c with
  | Some runbook => mret runbook
  | None =>
      stored ← lock_state (λ s, runbooks s !! hash);
      stored ← ok_or (Rt_RunbookLoadError ("runbook not found for hash: " +:+ hash)) stored;
      match runbook_from_json (runbook_data stored) with
      | inl e => throw (Rt_RunbookLoadError ("failed to deserialize stored runbook: " +:+ e))
      | inr runbook => modify (rt_upd_cache <[hash := runbook]>);; mret runbook
      end
  end.

(** [Path::join] for a relative path. *)
Definition path_join (base rel : string) : string :=
  if is_empty base then rel
  else match rev_str base with
       | String "/" _ => base +:+ rel
       | _ => base +:+ "/" +:+ rel
       end.

Definition runbook_digest (runbook : Runbook) : RuntimeError + (Value * string) :=
  match runbook_to_json runbook with
  | inl e => inl (Rt_RunbookLoadError ("failed to serialize: " +:+ e))
  | inr json =>
      match json_to_text json with
      | inl e => inl (Rt_RunbookLoadError ("failed to serialize: " +:+ e))
      | inr text => inr (json, sha256_hex text)
      end
  end.

Fixpoint for_each {A} (f : A → M unit) (l : list A) : M unit :=
  match l with
  | [] => mret tt
  | a :: l' => f a;; for_each f l'
  end.

Definition lift_result {A} (a : RuntimeError + A) : M A := λ r, (a, r).

(** The [RunbookLoaded] event when the file of a worker has changed. *)
Definition refresh_worker_runbook (worker_name : string) : M (option (Event Value)) :=
  w ← gets (λ r, rt_workers r !! worker_name);
  match w with
  | None => mret None
  | Some s =>
      found ← gets (λ r, find_runbook_by_worker (path_join (wk_project_root s) ".oj/runbooks")
                            worker_name (ex_world (rt_exec r)));
      match found with
      | inl e => throw (Rt_RunbookLoadError e)
      | inr None => throw (Rt_RunbookLoadError
          ("no runbook found containing worker '" +:+ worker_name +:+ "'"))
      | inr (Some runbook) =>
          digest ← lift_result (runbook_digest runbook);
          let '(runbook_json, runbook_hash) := digest in
          if String.eqb (wk_runbook_hash s) runbook_hash then mret None
          else
            modify (rt_upd_workers (alter (wk_set_runbook_hash runbook_hash) worker_name));;
            modify (rt_upd_cache <[runbook_hash := runbook]>);;
            mret (Some (RunbookLoaded runbook_hash 1 runbook_json))
      end
  end.

(** [if let Some(ev) = refresh(..)? { events.push(ev) }]. *)
Definition refresh_events (worker_name : string) : M Events :=
  o ← refresh_worker_runbook worker_name;
  mret (match o with Some ev => [ev] | None => [] end).
End Runtime.

Local Close Scope string_scope.

(** Shared facts about the handlers of the runtime: running single effects, and
    what a handler leaves alone. *)

Section runs.
Context {Value W : Type} `{!Adapters Value W} `{!RuntimeIO Value W}.
Implicit Types (r : Rt Value W).

Lemma bind_ok {A B} (m : RT Value W A) (k : A → RT Value W B) r a r' :
  m r = (inr a, r') → (m ≫= k) r = k a r'.
Proof. intros Hm. unfold mbind, rt_bind. by rewrite Hm. Qed.

Lemma bind_inr {A B} (m : RT Value W A) (k : A → RT Value W B) r b r' :
  (m ≫= k) r = (inr b, r') → ∃ a r1, m r = (inr a, r1) ∧ k a r1 = (inr b, r').
Proof. unfold mbind, rt_bind. destruct (m r) as [[e|a] r1]; [done |]. eauto. Qed.

(** An event applied by the runtime. *)
Definition rt_apply (ev : Event Value) r : Rt Value W :=
  rt_set_exec (apply_now (rt_envs r 0) ev (rt_exec r)) (rt_skip_envs 1 r).

Lemma exec_emit ev r : exec_effects [Emit ev] r = (inr [ev], rt_apply ev r).
Proof. done. Qed.

Definition rt_set_timer (id : string) (duration : Z) r : Rt Value W :=
  rt_set_exec (on_scheduler (set_timer id duration (instant (rt_envs r 0) 0)) (rt_exec r))
    (rt_skip_envs 1 r).

Lemma exec_set_timer id d r : exec_effect (SetTimer id d) r = (inr None, rt_set_timer id d r).
Proof. done. Qed.

Lemma cached_runbook_hit hash rb r :
  rt_cache r !! hash = Some rb → cached_runbook hash r = (inr rb, r).
Proof. intros H. unfold cached_runbook, mbind, rt_bind, gets. by rewrite H. Qed.

End runs.

(** ** What a handler keeps

    [keeps f m]: running [m], also when it fails, leaves [f] of the state. *)

Section keeps.
Context {Value W : Type} `{!Adapters Value W} `{!RuntimeIO Value W}.
Context {B : Type} (f : Rt Value W → B).

Definition keeps {A} (m : RT Value W A) : Prop := ∀ r, f (m r).2 = f r.

Lemma keeps_ret {A} (a : A) : keeps (mret a).
Proof. done. Qed.

Lemma keeps_throw {A} e : keeps (throw (A:=A) e).
Proof. done. Qed.

Lemma keeps_gets {A} (g : Rt Value W → A) : keeps (gets g).
Proof. done. Qed.

Lemma keeps_lock_state {A} (g : MaterializedState Value → A) : keeps (lock_state g).
Proof. done. Qed.

Lemma keeps_ok_or {A} e (o : option A) : keeps (ok_or e o).
Proof. by destruct o. Qed.

Lemma keeps_lift_result {A} (a : RuntimeError + A) : keeps (lift_result a).
Proof. done. Qed.

Lemma keeps_bind {A C} (m : RT Value W A) (k : A → RT Value W C) :
  keeps m → (∀ a, keeps (k a)) → keeps (m ≫= k).
Proof.
  intros Hm Hk r. specialize (Hm r). unfold mbind, rt_bind.
  destruct (m r) as [[e|a] r']; simpl in *; [done |]. by rewrite Hk.
Qed.

Lemma keeps_attempt {A} (m : RT Value W A) : keeps m → keeps (attempt m).
Proof. intros H r. specialize (H r). unfold attempt. by destruct (m r). Qed.

Lemma keeps_modify g : (∀ r, f (g r) = f r) → keeps (modify g).
Proof. intros H r. apply H. Qed.

Lemma keeps_for_each {A} (g : A → RT Value W unit) l : (∀ a, keeps (g a)) → keeps (for_each g l).
Proof. intros H. induction l as [|a l IH]; [done |]. apply keeps_bind; [done | by intros _]. Qed.

(** [f] does not depend on the executor nor on the readings to come. *)
Context (Hf : ∀ r x n, f (rt_set_exec x (rt_skip_envs n r)) = f r).
Context (Hx : ∀ r x, f (rt_set_exec x r) = f r).
Context (Hskip : ∀ r n, f (rt_skip_envs n r) = f r).

Lemma keeps_exec_effects effs : keeps (exec_effects effs).
Proof.
  intros r. unfold exec_effects. destruct (execute_all _ effs _) as [[e|evs] x]; apply Hf.
Qed.

Lemma keeps_exec_effect eff : keeps (exec_effect eff).
Proof. intros r. unfold exec_effect. destruct (execute _ eff _) as [[e|o] x]; apply Hf. Qed.

Lemma keeps_io g : keeps (io g).
Proof. intros r. apply Hx. Qed.

Lemma keeps_lock_state_env {A} (g : Env → MaterializedState Value → A) : keeps (lock_state_env g).
Proof. intros r. apply Hskip. Qed.
End keeps.

#[export] Hint Resolve keeps_ret keeps_throw keeps_gets keeps_lock_state keeps_ok_or
  keeps_lift_result keeps_attempt keeps_modify keeps_for_each
  keeps_exec_effects keeps_exec_effect keeps_io keeps_lock_state_env : oj.

(** Walk through a handler, splitting its cases. *)
Ltac solve_keeps :=
  repeat first
    [ match goal with |- ∀ _, _ => intro end
    | solve [eauto with oj]
    | apply keeps_bind
    | match goal with |- keeps _ (match ?x with _ => _ end) => destruct x end ].

(** Take a successful handler apart. *)
Ltac inv_bind H :=
  repeat match type of H with
  | (_ ≫= _) _ = (inr _, _) =>
      let a := fresh "a" in let r := fresh "r" in let E := fresh "E" in
      destruct (bind_inr _ _ _ _ _ H) as (a & r & E & ?); clear H; rename_last H
  end
with rename_last H := match goal with H' : _ |- _ => rename H' into H end.
