(* ===== verification/WorkerQueue.v ===== *)
(** Workers and their queues: [completion.rs], [polling.rs] and [lifecycle.rs]
    of [crates/engine/src/runtime/handlers/worker], and the retry timer of
    [handlers/timer.rs].

    The JSON values of queue items are abstract ([JsonItem]). *)

From S2P Require Import Prelude Ids Runbook Bytes Vars Entities Job Timer Event State Scheduler Effect.
From S2P Require Import Executor Runtime.

Local Open Scope string_scope.

(** The operations of [serde_json] on queue items: an object of strings, the
    fields of an object, [as_str] and [to_string]. *)
Class JsonItem (Value : Type) := {
  json_strings : gmap string string → Value;
  json_as_object : Value → option (gmap string Value);
  json_as_str : Value → option string;
  json_to_string : Value → string
}.

Section WorkerQueue.
Context {Value W : Type} `{!Adapters Value W} `{!RuntimeIO Value W} `{!JsonItem Value}.
Abbreviation R := (Rt Value W) (only parsing).
Abbreviation M := (RT Value W) (only parsing).
Abbreviation Events := (list (Event Value)) (only parsing).
Implicit Types (r : R) (s : MaterializedState Value).

Definition find_item s (queue item : string) : option QueueItem :=
  queue_items s !! queue ≫= List.find (λ i, String.eqb (item_id i) item).

Definition get_worker_state (worker_name : string) : M (option WorkerState) :=
  gets (λ r, rt_workers r !! worker_name).

(** ** Polling *)

(** The object of a pending item: its id, then its data, which may hold a key
    ["id"] of its own. *)
Definition item_json (i : QueueItem) : Value :=
  json_strings (item_data i ∪ {["id" := item_id i]}).

Definition poll_persisted_queue (worker_name queue_name namespace : string) : M Events :=
  items ← lock_state (λ s,
    item_json <$> filter (λ i, item_status i = Item_Pending)
                    (default [] (queue_items s !! scoped_name namespace queue_name)));
  mret [WorkerPollComplete worker_name items].

(** [parse_duration] of a poll interval, and the timer that repeats the poll. *)
Definition set_poll_timer (worker_name namespace : string) (poll_interval : option string)
    : M unit :=
  match poll_interval with
  | None => mret tt
  | Some poll =>
      match parse_duration poll with
      | inl e => throw (Rt_InvalidFormat ("invalid poll interval '" +:+ poll +:+ "': " +:+ e))
      | inr duration => exec_effect (SetTimer (queue_poll worker_name namespace) duration);; mret tt
      end
  end.

Definition handle_worker_wake (worker_name : string) : M Events :=
  w ← get_worker_state worker_name;
  match w with
  | Some st => io (worker_log (scoped_name (wk_namespace st) worker_name) "wake")
  | None => mret tt
  end;;
  loaded ← refresh_events worker_name;
  w ← get_worker_state worker_name;
  match w with
  | None => mret loaded
  | Some st =>
      if bool_decide (wk_status st = Wk_Stopped) then mret loaded
      else
        match wk_queue_type st with
        | External =>
            runbook ← cached_runbook (wk_runbook_hash st);
            queue_def ← ok_or (Rt_WorkerNotFound ("queue '" +:+ wk_queue_name st +:+ "' not found"))
                          (get_queue (wk_queue_name st) runbook);
            evs ← exec_effects [PollQueue worker_name (default "" (qdef_list queue_def))
                                  (wk_project_root st)];
            set_poll_timer worker_name (wk_namespace st) (wk_poll_interval st);;
            mret (loaded ++ evs)%list
        | Persisted =>
            evs ← poll_persisted_queue worker_name (wk_queue_name st) (wk_namespace st);
            mret (loaded ++ evs)%list
        end
  end.

(** [rest.rsplit('/').next()]. *)
Definition last_segment (rest : string) : string :=
  rev_str (split_next "/"%char (rev_str rest)).

Definition handle_queue_poll_timer (rest : string) : M Events :=
  handle_worker_wake (last_segment rest).

(** ** Completion *)

(** The first worker that has the job: its name, its state before, and the
    item of the job; the worker forgets the job and the item. *)
Definition release_slot (id : JobId) : M (option (string * WorkerState * option string)) := λ r,
  let workers := rt_workers r in
  match find_key (λ st, bool_decide (id ∈ wk_active_jobs st))
          (iter_order (rt_envs r 0) TWorkerStates (dom workers)) workers with
  | Some name =>
      match workers !! name with
      | Some st =>
          let item := wk_item_job_map st !! id in
          let st' := wk_set_jobs (wk_active_jobs st ∖ {[id]}) (delete id (wk_item_job_map st)) st in
          let st' := match item with
                     | Some i => wk_set_takes (wk_pending_takes st') (wk_inflight_items st' ∖ {[i]}) st'
                     | None => st'
                     end in
          (inr (Some (name, st, item)), rt_upd_workers <[name := st']> (rt_skip_envs 1 r))
      | None => (inr None, rt_skip_envs 1 r)
      end
  | None => (inr None, rt_skip_envs 1 r)
  end.

(** After a failure: schedule a retry while there are attempts left, else the
    item is dead. *)
Definition retry_or_dead (runbook : Runbook) (failure_count : Z)
    (queue_name item_id namespace : string) : M Events :=
  let retry := get_queue queue_name runbook ≫= qdef_retry in
  let max_attempts := default 0%Z (retry_attempts <$> retry) in
  if (0 <? max_attempts)%Z && (failure_count <? max_attempts)%Z then
    let cooldown_str := default "0s" (retry_cooldown <$> retry) in
    let duration := match parse_duration cooldown_str with inr d => d | inl _ => 0%Z end in
    exec_effect (SetTimer (queue_retry (scoped_name namespace queue_name) item_id) duration);;
    mret []
  else exec_effects [Emit (QueueItemDead queue_name item_id namespace)].

Definition failure_count_of s (queue item : string) : Z :=
  default 0%Z (item_failure_count <$> find_item s queue item).

(** The outcome of a job for the item it was created for. *)
Definition settle_item (queue_name item_id namespace runbook_hash terminal_step : string)
    : M Events :=
  let queue_event :=
    if String.eqb terminal_step "done" then QueueCompleted queue_name item_id namespace
    else QueueFailed queue_name item_id ("job reached '" +:+ terminal_step +:+ "'") namespace in
  evs ← exec_effects [Emit queue_event];
  if String.eqb terminal_step "done" then mret evs
  else
    failure_count ← lock_state (λ s,
      failure_count_of s (scoped_name namespace queue_name) item_id);
    runbook ← cached_runbook runbook_hash;
    evs' ← retry_or_dead runbook failure_count queue_name item_id namespace;
    mret (evs ++ evs')%list.

(** Whether the worker runs and has a free slot. *)
Definition should_poll (w : option WorkerState) : bool :=
  match w with
  | Some st => bool_decide (wk_status st = Wk_Running) &&
               (u32_wrap (Z.of_nat (size (wk_active_jobs st))) <? wk_concurrency st)%Z
  | None => false
  end.

Definition repoll (worker_name : string) (st : WorkerState) (runbook_hash : string) : M Events :=
  match wk_queue_type st with
  | External =>
      runbook ← cached_runbook runbook_hash;
      match get_queue (wk_queue_name st) runbook with
      | Some queue_def =>
          exec_effects [PollQueue worker_name (default "" (qdef_list queue_def))
                          (wk_project_root st)]
      | None => mret []
      end
  | Persisted => poll_persisted_queue worker_name (wk_queue_name st) (wk_namespace st)
  end.

Definition completion_line (id : JobId) (terminal_step : string) (w : option WorkerState) : string :=
  "job " +:+ id +:+ " completed (step=" +:+ terminal_step +:+ "), active=" +:+
  pretty (default 0 ((λ st, size (wk_active_jobs st)) <$> w)) +:+ "/" +:+
  pretty (default 0%Z (wk_concurrency <$> w)).

Definition check_worker_job_complete (id : JobId) (terminal_step : string) : M Events :=
  info ← release_slot id;
  match info with
  | None => mret []
  | Some (worker_name, st, item) =>
      w ← get_worker_state worker_name;
      io (worker_log (scoped_name (wk_namespace st) worker_name)
            (completion_line id terminal_step w));;
      loaded ← refresh_events worker_name;
      w ← get_worker_state worker_name;
      let runbook_hash := default (wk_runbook_hash st) (wk_runbook_hash <$> w) in
      settled ← match wk_queue_type st, item with
                | Persisted, Some i =>
                    settle_item (wk_queue_name st) i (wk_namespace st) runbook_hash terminal_step
                | _, _ => mret []
                end;
      w ← get_worker_state worker_name;
      polled ← (if should_poll w then repoll worker_name st runbook_hash else mret []);
      mret (loaded ++ settled ++ polled)%list
  end.

(** ** Retry timers: [handle_queue_retry_timer] of [handlers/timer.rs] *)

Definition rsplit_once (c : ascii) (str : string) : option (string * string) :=
  match split_once c (rev_str str) with
  | Some (r, l) => Some (rev_str l, rev_str r)
  | None => None
  end.

(** The workers of a queue, in the order of the iteration. *)
Definition workers_of_queue (queue_name namespace : string) : M (list string) := λ r,
  (inr (List.filter (λ n, match rt_workers r !! n with
                          | Some st => String.eqb (wk_queue_name st) queue_name &&
                                       String.eqb (wk_namespace st) namespace
                          | None => false
                          end)
          (iter_order (rt_envs r 0) TWorkerStates (dom (rt_workers r)))),
   rt_skip_envs 1 r).

Definition bare_worker_name (namespace worker_name : string) : string :=
  if is_empty namespace then worker_name
  else default worker_name (strip_prefix (namespace +:+ "/") worker_name).

Fixpoint collect_events {A} (f : A → M Events) (l : list A) : M Events :=
  match l with
  | [] => mret []
  | a :: l' => evs ← f a; evs' ← collect_events f l'; mret (evs ++ evs')%list
  end.

(** The rest of the timer id is the scoped queue name and the item id. *)
Definition handle_queue_retry_timer (rest : string) : M Events :=
  match rsplit_once ":"%char rest with
  | None => mret []
  | Some (scoped_queue, item_id) =>
      let '(namespace, queue_name) := split_scoped_name scoped_queue in
      evs ← exec_effects [Emit (QueueItemRetry queue_name item_id namespace)];
      names ← workers_of_queue queue_name namespace;
      evs' ← collect_events (λ n,
        exec_effects [Emit (WorkerWake (bare_worker_name namespace n) namespace)]) names;
      mret (evs ++ evs')%list
  end.

(** ** Start, stop and resize *)

(** The jobs of the worker in the materialized state, and their items. *)
Definition persisted_active s (namespace worker_name : string) : gset string :=
  list_to_set (default [] (worker_active_job_ids <$> workers s !! scoped_name namespace worker_name)).

Definition persisted_item_map s (active : gset string) : gmap string string :=
  list_to_map (omap (λ id, (λ i, (id, i)) <$> (jobs s !! id ≫= λ j, job_vars j !! "item.id"))
                 (elements active)).

Definition map_values (m : gmap string string) : list string := (map_to_list m).*2.

(** Active jobs that have ended meanwhile; errors and events are dropped. *)
Definition reconcile_active_jobs (worker_name : string) : M unit :=
  w ← get_worker_state worker_name;
  terminal_jobs ← lock_state_env (λ env s,
    omap (λ id, j ← jobs s !! id; if Job_is_terminal j then Some (id, job_step j) else None)
      (match w with
       | Some st => iter_order env TActiveJobs (wk_active_jobs st)
       | None => []
       end));
  for_each (λ p, attempt (check_worker_job_complete p.1 p.2);; mret tt) terminal_jobs.

(** The active items of the worker that it does not track. *)
Definition unmapped_items s (queue worker_name : string) (mapped : list string) : list string :=
  item_id <$> filter (λ i, item_status i = Item_Active ∧ item_worker_name i = Some worker_name ∧
                           item_id i ∉ mapped) (default [] (queue_items s !! queue)).

(** A running job for the item, in the order of the iteration. *)
Definition job_for_item env s (item : string) : option JobId :=
  find_key (λ j, bool_decide (job_vars j !! "item.id" = Some item) && negb (Job_is_terminal j))
    (iter_order env TJobs (dom (jobs s))) (jobs s).

Definition track_item (worker_name namespace : string) (p : string * JobId) : M unit :=
  modify (rt_upd_workers (alter (λ st,
    wk_set_jobs (wk_active_jobs st ∪ {[p.2]}) (<[p.2 := p.1]> (wk_item_job_map st)) st)
    worker_name));;
  exec_effects [Emit (WorkerItemDispatched worker_name p.1 p.2 namespace)];;
  mret tt.

Definition fail_orphan (runbook : Runbook) (queue_name namespace item : string) : M unit :=
  exec_effects [Emit (QueueFailed queue_name item "job lost during daemon recovery" namespace)];;
  failure_count ← lock_state (λ s, failure_count_of s (scoped_name namespace queue_name) item);
  retry_or_dead runbook failure_count queue_name item namespace;;
  mret tt.

Definition reconcile_queue_items (worker_name namespace : string) (runbook : Runbook) : M unit :=
  w ← get_worker_state worker_name;
  let queue_name := default "" (wk_queue_name <$> w) in
  let queue := scoped_name namespace queue_name in
  let mapped := default [] ((map_values ∘ wk_item_job_map) <$> w) in
  untracked ← lock_state_env (λ env s,
    omap (λ item, (λ id, (item, id)) <$> job_for_item env s item)
      (unmapped_items s queue worker_name mapped));
  for_each (track_item worker_name namespace) untracked;;
  w ← get_worker_state worker_name;
  let mapped := default [] ((map_values ∘ wk_item_job_map) <$> w) in
  orphaned ← lock_state (λ s, unmapped_items s queue worker_name mapped);
  for_each (fail_orphan runbook queue_name namespace) orphaned.

Definition handle_worker_started (worker_name : string) (project_root : PathBuf)
    (runbook_hash namespace : string) : M Events :=
  runbook ← cached_runbook runbook_hash;
  worker_def ← ok_or (Rt_WorkerNotFound worker_name) (get_worker worker_name runbook);
  let queue_name := worker_source_queue worker_def in
  queue_def ← ok_or (Rt_WorkerNotFound ("queue '" +:+ queue_name +:+ "' not found for worker '"
                                        +:+ worker_name +:+ "'")) (get_queue queue_name runbook);
  let queue_type := qdef_type queue_def in
  let poll_interval := qdef_poll queue_def in
  active ← lock_state (λ s, persisted_active s namespace worker_name);
  item_map ← lock_state (λ s, persisted_item_map s active);
  let inflight : gset string :=
    if bool_decide (queue_type = External) then list_to_set (map_values item_map) else ∅ in
  modify (rt_upd_workers <[worker_name :=
    mkWorkerState project_root runbook_hash queue_name (worker_handler_job worker_def)
      (worker_def_concurrency worker_def) active Wk_Running queue_type item_map namespace
      poll_interval 0 inflight]>);;
  io (worker_log (scoped_name namespace worker_name)
        ("started (queue=" +:+ queue_name +:+ ", concurrency=" +:+
         pretty (worker_def_concurrency worker_def) +:+ ")"));;
  reconcile_active_jobs worker_name;;
  (if bool_decide (queue_type = Persisted)
   then reconcile_queue_items worker_name namespace runbook else mret tt);;
  match queue_type with
  | External =>
      events ← exec_effects [PollQueue worker_name (default "" (qdef_list queue_def)) project_root];
      set_poll_timer worker_name namespace poll_interval;;
      mret events
  | Persisted => poll_persisted_queue worker_name queue_name namespace
  end.

Definition handle_worker_stopped (worker_name : string) : M Events :=
  w ← get_worker_state worker_name;
  namespace ← match w with
              | Some st =>
                  io (worker_log (scoped_name (wk_namespace st) worker_name) "stopped");;
                  modify (rt_upd_workers <[worker_name :=
                    wk_set_takes 0 ∅ (wk_set_status Wk_Stopped st)]>);;
                  mret (wk_namespace st)
              | None => mret ""
              end;
  exec_effect (CancelTimer (queue_poll worker_name namespace));;
  mret [].

Definition handle_worker_resized (worker_name : string) (new_concurrency : Z)
    (namespace : string) : M Events :=
  w ← get_worker_state worker_name;
  match w with
  | Some st =>
      if bool_decide (wk_status st = Wk_Running) then
        modify (rt_upd_workers <[worker_name := wk_set_concurrency new_concurrency st]>);;
        let active := u32_wrap (u32_wrap (Z.of_nat (size (wk_active_jobs st))) +
                                wk_pending_takes st) in
        let had_capacity := (active <? wk_concurrency st)%Z in
        let has_capacity := (active <? new_concurrency)%Z in
        io (worker_log (scoped_name namespace worker_name)
              ("resized concurrency " +:+ pretty (wk_concurrency st) +:+ " → " +:+
               pretty new_concurrency));;
        if negb had_capacity && has_capacity then handle_worker_wake worker_name else mret []
      else mret []
  | None => mret []
  end.
End WorkerQueue.

Local Close Scope string_scope.
