(* ===== verification/WorkerQueueSpec.v ===== *)
(** What the worker queues promise: the outcome of a job reaches the item it was
    created for, and how retries are counted. *)

From S2P Require Import Prelude Ids Runbook Bytes Vars Entities Job Timer Event State Scheduler Effect.
From S2P Require Import Executor Runtime WorkerQueue.

Local Open Scope string_scope.

(** ** Worker slots *)

Section slots.
Context {Value W : Type} `{!Adapters Value W} `{!RuntimeIO Value W} `{!JsonItem Value}.
Implicit Types (r : Rt Value W) (st : WorkerState).

(** A worker state but for the hash of its runbook. *)
Definition slot st : WorkerState := wk_set_runbook_hash EmptyString st.

Definition slots r : gmap string WorkerState := slot <$> rt_workers r.

Lemma slots_exec r x n : slots (rt_set_exec x (rt_skip_envs n r)) = slots r.
Proof. done. Qed.

Lemma slots_cached_runbook hash : keeps slots (cached_runbook (Value:=Value) (W:=W) hash).
Proof. unfold cached_runbook. solve_keeps. Qed.

Lemma slots_refresh name : keeps slots (refresh_events (Value:=Value) (W:=W) name).
Proof.
  unfold refresh_events, refresh_worker_runbook. solve_keeps.
  apply keeps_modify. intros r0.
  unfold slots. simpl. apply map_eq. intros k. rewrite !lookup_fmap.
  destruct (decide (k = name)) as [->|]; [| by rewrite lookup_alter_ne].
  rewrite lookup_alter_eq. by destruct (rt_workers r0 !! name).
Qed.

Lemma slots_retry_or_dead rb n q item ns :
  keeps slots (retry_or_dead (Value:=Value) (W:=W) rb n q item ns).
Proof. unfold retry_or_dead. solve_keeps. Qed.

Lemma slots_settle_item q i ns hash step :
  keeps slots (settle_item (Value:=Value) (W:=W) q i ns hash step).
Proof.
  unfold settle_item. pose proof slots_cached_runbook. pose proof slots_retry_or_dead. solve_keeps.
Qed.

Lemma slots_repoll name st hash : keeps slots (repoll (Value:=Value) (W:=W) name st hash).
Proof.
  unfold repoll, poll_persisted_queue. pose proof slots_cached_runbook. solve_keeps.
Qed.

(** A worker state without a job and its item. *)
Definition without_job (id : JobId) st : WorkerState :=
  let st' := wk_set_jobs (wk_active_jobs st ∖ {[id]}) (delete id (wk_item_job_map st)) st in
  match wk_item_job_map st !! id with
  | Some i => wk_set_takes (wk_pending_takes st) (wk_inflight_items st ∖ {[i]}) st'
  | None => st'
  end.

Lemma release_slot_owned id name st r :
  rt_workers r !! name = Some st → id ∈ wk_active_jobs st →
  (∀ name' st', rt_workers r !! name' = Some st' → id ∈ wk_active_jobs st' → name' = name) →
  release_slot id r = (inr (Some (name, st, wk_item_job_map st !! id)),
                       rt_upd_workers <[name := without_job id st]> (rt_skip_envs 1 r)).
Proof.
  intros Hw Hin Hu. unfold release_slot. cbv zeta.
  rewrite (find_key_unique _ _ _ name st); [| apply iter_order_perm | done | |].
  - rewrite Hw. unfold without_job. by destruct (wk_item_job_map st !! id).
  - by apply bool_decide_eq_true.
  - intros n st' Hn Hp%bool_decide_eq_true. eauto.
Qed.

Lemma check_complete_keeps id step name st item :
  keeps slots (
    w ← get_worker_state (Value:=Value) (W:=W) name;
    io (worker_log (scoped_name (wk_namespace st) name) (completion_line id step w));;
    loaded ← refresh_events name;
    w ← get_worker_state name;
    let runbook_hash := default (wk_runbook_hash st) (wk_runbook_hash <$> w) in
    settled ← match wk_queue_type st, item with
              | Persisted, Some i =>
                  settle_item (wk_queue_name st) i (wk_namespace st) runbook_hash step
              | _, _ => mret []
              end;
    w ← get_worker_state name;
    polled ← (if should_poll w then repoll name st runbook_hash else mret []);
    mret (loaded ++ settled ++ polled)%list).
Proof.
  unfold get_worker_state. pose proof slots_refresh. pose proof slots_settle_item.
  pose proof slots_repoll. solve_keeps.
Qed.

(** C13. The end of a job frees its slot: the worker that had the job, and only
    that one, forgets the job and lets its item be dispatched again, also when
    a later step of the handler fails (reading the runbook, say); nothing else
    about any worker changes but the hash of a runbook that was reloaded. *)
Theorem job_end_frees_slot id step name st r :
  rt_workers r !! name = Some st → id ∈ wk_active_jobs st →
  (∀ name' st', rt_workers r !! name' = Some st' → id ∈ wk_active_jobs st' → name' = name) →
  slots (check_worker_job_complete id step r).2 = slot <$> <[name := without_job id st]> (rt_workers r).
Proof.
  intros Hw Hin Hu. unfold check_worker_job_complete, mbind at 1, rt_bind.
  rewrite (release_slot_owned id name st r) by done.
  rewrite (check_complete_keeps id step name st (wk_item_job_map st !! id)).
  done.
Qed.
End slots.

(** ** Items *)

Section items.
Context {Value : Type}.
Implicit Types (s : MaterializedState Value) (i : QueueItem).

Lemma find_alter_item id f l :
  (∀ i, item_id (f i) = item_id i) →
  List.find (λ i, String.eqb (item_id i) id) (alter_item id f l)
    = f <$> List.find (λ i, String.eqb (item_id i) id) l.
Proof.
  intros Hf. induction l as [|i l IH]; [done |]. simpl.
  destruct (String.eqb (item_id i) id) eqn:E; simpl; [by rewrite Hf, E | by rewrite E].
Qed.

Lemma find_on_item s q id ns f :
  (∀ i, item_id (f i) = item_id i) →
  find_item (on_item q id ns f s) (scoped_name ns q) id
    = f <$> find_item s (scoped_name ns q) id.
Proof.
  intros Hf. unfold find_item, on_item. simpl. rewrite lookup_alter_eq.
  destruct (queue_items s !! scoped_name ns q) as [l|]; [| done]. simpl.
  by apply find_alter_item.
Qed.

(** The failure count after a failure. *)
Definition failures_after i : Z :=
  if bool_decide (item_status i = Item_Failed) then item_failure_count i
  else (item_failure_count i +u32 1)%oj.

Definition failed_item i : QueueItem :=
  item_update i Item_Failed (item_worker_name i) (failures_after i).
End items.

Section outcomes.
Context {Value W : Type} `{!Adapters Value W} `{!RuntimeIO Value W} `{!JsonItem Value}.
Implicit Types (r : Rt Value W) (i : QueueItem).

(** The retry policy of a queue. *)
Definition attempts_of (rb : Runbook) (q : string) : Z :=
  default 0%Z (retry_attempts <$> (get_queue q rb ≫= qdef_retry)).

Definition cooldown_of (rb : Runbook) (q : string) : Z :=
  match parse_duration (default "0s" (retry_cooldown <$> (get_queue q rb ≫= qdef_retry))) with
  | inr d => d
  | inl _ => 0%Z
  end.

Definition retries_left (rb : Runbook) (q : string) (failures : Z) : bool :=
  (0 <? attempts_of rb q)%Z && (failures <? attempts_of rb q)%Z.

Lemma retry_or_dead_spec rb n q item ns r :
  retry_or_dead rb n q item ns r =
  if retries_left rb q n
  then (inr [], rt_set_timer (queue_retry (scoped_name ns q) item) (cooldown_of rb q) r)
  else (inr [QueueItemDead q item ns], rt_apply (QueueItemDead q item ns) r).
Proof.
  unfold retry_or_dead, retries_left, attempts_of, cooldown_of.
  destruct ((0 <? _)%Z && _)%Z; [| done].
  unfold mbind, rt_bind. by rewrite exec_set_timer.
Qed.

Lemma settle_failed hash rb step q item ns i r :
  step ≠ "done" → rt_cache r !! hash = Some rb →
  find_item (rt_state r) (scoped_name ns q) item = Some i →
  let error := "job reached '" +:+ step +:+ "'" in
  let r1 := rt_apply (QueueFailed q item error ns) r in
  settle_item q item ns hash step r =
  if retries_left rb q (failures_after i)
  then (inr [QueueFailed q item error ns],
        rt_set_timer (queue_retry (scoped_name ns q) item) (cooldown_of rb q) r1)
  else (inr [QueueFailed q item error ns; QueueItemDead q item ns],
        rt_apply (QueueItemDead q item ns) r1).
Proof.
  intros Hstep Hc Hi error r1. unfold settle_item.
  apply String.eqb_neq in Hstep. rewrite Hstep. unfold mbind, rt_bind.
  rewrite exec_emit. fold error. fold r1. unfold lock_state, gets.
  assert (failure_count_of (rt_state r1) (scoped_name ns q) item = failures_after i) as ->.
  { unfold failure_count_of. change (rt_state r1) with (apply_QueueFailed q item ns (rt_state r)).
    unfold apply_QueueFailed. rewrite find_on_item by done. by rewrite Hi. }
  rewrite (cached_runbook_hit hash rb) by done.
  rewrite retry_or_dead_spec. by destruct (retries_left _ _ _).
Qed.

Lemma settle_done hash q item ns r :
  settle_item q item ns hash "done" r
    = (inr [QueueCompleted q item ns], rt_apply (QueueCompleted q item ns) r).
Proof. done. Qed.

Definition completed_item i : QueueItem :=
  item_update i Item_Completed (item_worker_name i) (item_failure_count i).

Definition dead_item i : QueueItem :=
  item_update i Item_Dead (item_worker_name i) (item_failure_count i).

(** C12. The outcome of a job for its queue item.  A job that is done completes
    the item.  Any other end counts a failure, once; while failures are below
    the queue's attempts the item waits as failed for its retry timer, set to
    the cooldown, and otherwise it is dead.  The events that say so are
    returned for the log. *)
Theorem settle_item_outcome hash rb step q item ns i r :
  rt_cache r !! hash = Some rb →
  find_item (rt_state r) (scoped_name ns q) item = Some i →
  ∃ evs r' i', settle_item q item ns hash step r = (inr evs, r') ∧
    find_item (rt_state r') (scoped_name ns q) item = Some i' ∧
    if String.eqb step "done" then
      evs = [QueueCompleted q item ns] ∧ item_status i' = Item_Completed
    else
      item_failure_count i' = failures_after i ∧
      if retries_left rb q (failures_after i) then
        evs = [QueueFailed q item ("job reached '" +:+ step +:+ "'") ns] ∧
        item_status i' = Item_Failed ∧
        timers (ex_scheduler (rt_exec r')) !! queue_retry (scoped_name ns q) item
          = Some (mkTimer (instant (rt_envs r 1) 0 + cooldown_of rb q))
      else
        evs = [QueueFailed q item ("job reached '" +:+ step +:+ "'") ns;
               QueueItemDead q item ns] ∧
        item_status i' = Item_Dead.
Proof.
  intros Hc Hi. destruct (String.eqb_spec step "done") as [->|Hne].
  - exists [QueueCompleted q item ns], (rt_apply (QueueCompleted q item ns) r), (completed_item i).
    split; [apply settle_done |]. split; [| done].
    change (rt_state _) with (apply_QueueCompleted q item ns (rt_state r)).
    unfold apply_QueueCompleted. rewrite find_on_item by done. by rewrite Hi.
  - rewrite (settle_failed hash rb step q item ns i r) by done.
    set (error := "job reached '" +:+ step +:+ "'").
    assert (find_item (apply_QueueFailed q item ns (rt_state r)) (scoped_name ns q) item
              = Some (failed_item i)) as Hf.
    { unfold apply_QueueFailed. rewrite find_on_item by done. by rewrite Hi. }
    destruct (retries_left rb q (failures_after i)).
    + do 2 eexists. exists (failed_item i). split; [reflexivity |]. split; [exact Hf |].
      split_and!; [done..|]. simpl. by rewrite lookup_insert_eq.
    + do 2 eexists. exists (dead_item (failed_item i)). split; [reflexivity |]. split; [| done].
      change (rt_state _) with (apply_QueueItemDead q item ns (apply_QueueFailed q item ns (rt_state r))).
      unfold apply_QueueItemDead. rewrite find_on_item by done. by rewrite Hf.
Qed.

(** ** The retry timer *)

Lemma rsplit_once_app c l s :
  has_char c s = false → rsplit_once c (l +:+ String c s) = Some (l, s).
Proof.
  intros H. unfold rsplit_once. rewrite rev_str_app. simpl. rewrite string_app_assoc. simpl.
  rewrite split_once_app; [by rewrite !rev_str_involutive |].
  assert (∀ t, has_char c (rev_str t) = has_char c t) as Hr.
  { induction t as [|a t IH]; [done |]. simpl. rewrite has_char_app, IH. simpl.
    by rewrite orb_false_r, orb_comm. }
  by rewrite Hr.
Qed.

Lemma wakes_keep_state names ns r :
  ∃ evs r', collect_events (λ n,
      exec_effects [Emit (WorkerWake (bare_worker_name ns n) ns)]) names r = (inr evs, r') ∧
    rt_state r' = rt_state r ∧ rt_cache r' = rt_cache r ∧
    Forall (λ ev, ∃ w, ev = WorkerWake w ns) evs.
Proof.
  revert r. induction names as [|n names IH]; intros r.
  { do 2 eexists. split; [reflexivity |]. done. }
  destruct (IH (rt_apply (WorkerWake (bare_worker_name ns n) ns) r))
    as (evs & r' & Hr & Hs & Hc & Hall).
  do 2 eexists. split.
  { cbn [collect_events]. unfold mbind at 1, rt_bind. rewrite exec_emit. unfold mbind, rt_bind.
    rewrite Hr. reflexivity. }
  split_and!; [done..|]. constructor; [by eexists | done].
Qed.

Lemma retry_timer_spec q item ns i r :
  has_char "/"%char ns = false → (ns = "" → has_char "/"%char q = false) →
  has_char ":"%char item = false →
  find_item (rt_state r) (scoped_name ns q) item = Some i →
  ∃ evs r', handle_queue_retry_timer (scoped_name ns q +:+ ":" +:+ item) r = (inr evs, r') ∧
    find_item (rt_state r') (scoped_name ns q) item = Some (item_update i Item_Pending None 0) ∧
    rt_cache r' = rt_cache r ∧ QueueItemDead q item ns ∉ evs.
Proof.
  intros Hns Hq Hitem Hi. unfold handle_queue_retry_timer.
  assert (rsplit_once ":"%char (scoped_name ns q +:+ ":" +:+ item) = Some (scoped_name ns q, item))
    as -> by by apply rsplit_once_app.
  rewrite split_scoped_name_scoped by done. unfold mbind, rt_bind.
  rewrite exec_emit. set (r1 := rt_apply (QueueItemRetry q item ns) r).
  assert (find_item (rt_state r1) (scoped_name ns q) item
            = Some (item_update i Item_Pending None 0)) as H1.
  { change (rt_state r1) with (apply_QueueItemRetry q item ns (rt_state r)).
    unfold apply_QueueItemRetry. rewrite find_on_item by done. by rewrite Hi. }
  unfold workers_of_queue. set (names := List.filter _ _).
  destruct (wakes_keep_state names ns (rt_skip_envs 1 r1)) as (evs & r2 & Hrun & Hs & Hc & Hall).
  rewrite Hrun. do 2 eexists. split; [reflexivity |]. split_and!; [by rewrite Hs | by rewrite Hc |].
  intros Hin. apply elem_of_cons in Hin as [?|Hin]; [done |].
  rewrite Forall_forall in Hall. by destruct (Hall _ Hin).
Qed.

(** ** Retries are never used up *)

(** A round in the life of an item whose job always fails: a worker takes it,
    the job fails, the retry timer fires. *)
Definition failing_round (worker q item ns hash : string) : RT Value W (list (Event Value)) :=
  taken ← exec_effects [Emit (QueueTaken q item worker ns)];
  failed ← settle_item q item ns hash "failed";
  retried ← handle_queue_retry_timer (scoped_name ns q +:+ ":" +:+ item);
  mret (taken ++ failed ++ retried)%list.

Fixpoint failing_rounds (n : nat) (worker q item ns hash : string)
    : RT Value W (list (Event Value)) :=
  match n with
  | O => mret []
  | S n' =>
      evs ← failing_round worker q item ns hash;
      evs' ← failing_rounds n' worker q item ns hash;
      mret (evs ++ evs')%list
  end.

Definition retryable (rb : Runbook) (q item ns hash : string) r : Prop :=
  rt_cache r !! hash = Some rb ∧
  ∃ i, find_item (rt_state r) (scoped_name ns q) item = Some i ∧
       item_status i = Item_Pending ∧ item_failure_count i = 0%Z.

Lemma failing_round_again rb worker q item ns hash r :
  has_char "/"%char ns = false → (ns = "" → has_char "/"%char q = false) →
  has_char ":"%char item = false → (2 ≤ attempts_of rb q)%Z →
  retryable rb q item ns hash r →
  ∃ evs r', failing_round worker q item ns hash r = (inr evs, r') ∧
    retryable rb q item ns hash r' ∧ QueueItemDead q item ns ∉ evs.
Proof.
  intros Hns Hq Hitem Hmax (Hc & i & Hi & Hst & Hn).
  set (r1 := rt_apply (QueueTaken q item worker ns) r).
  assert (find_item (rt_state r1) (scoped_name ns q) item
            = Some (item_update i Item_Active (Some worker) 0)) as H1.
  { change (rt_state r1) with (apply_QueueTaken q item worker ns (rt_state r)).
    unfold apply_QueueTaken. rewrite find_on_item by done. by rewrite Hi, <- Hn. }
  pose proof (settle_failed hash rb "failed" q item ns _ r1 ltac:(done) Hc H1) as Hs.
  cbv zeta in Hs. change (failures_after _) with 1%Z in Hs.
  assert (retries_left rb q 1 = true) as Hleft.
  { unfold retries_left. apply andb_true_iff. split; lia. }
  rewrite Hleft in Hs. clear Hleft.
  match type of Hs with _ = (_, ?r2') => set (r2 := r2') in Hs end.
  destruct (retry_timer_spec q item ns (failed_item (item_update i Item_Active (Some worker) 0)) r2)
    as (evs & r3 & Ht & Hi3 & Hc3 & Hdead); [done.. | |].
  { change (rt_state r2) with (apply_QueueFailed q item ns (rt_state r1)).
    unfold apply_QueueFailed. rewrite find_on_item by done. by rewrite H1. }
  exists ([QueueTaken q item worker ns] ++
          [QueueFailed q item "job reached 'failed'" ns] ++ evs)%list, r3.
  split; [| split].
  - unfold failing_round, mbind, rt_bind. rewrite exec_emit. fold r1. rewrite Hs, Ht. done.
  - split; [by rewrite Hc3 |]. eexists. split; [exact Hi3 |]. done.
  - simpl. rewrite !elem_of_cons. naive_solver.
Qed.

(** With two attempts or more, an item whose job always fails is never
    given up: the retry timer resets its failure count, so after any number of
    failures it is pending with no failure counted, and no round ever marks it
    dead. *)
Theorem retries_never_exhausted rb n worker q item ns hash r :
  has_char "/"%char ns = false → (ns = "" → has_char "/"%char q = false) →
  has_char ":"%char item = false → (2 ≤ attempts_of rb q)%Z →
  retryable rb q item ns hash r →
  ∃ evs r', failing_rounds n worker q item ns hash r = (inr evs, r') ∧
    retryable rb q item ns hash r' ∧ QueueItemDead q item ns ∉ evs.
Proof.
  intros Hns Hq Hitem Hmax. revert r. induction n as [|n IH]; intros r Hr.
  { exists [], r. split; [done |]. split; [done | apply not_elem_of_nil]. }
  destruct (failing_round_again rb worker q item ns hash r) as (evs & r1 & H1 & Hr1 & Hd1); [done.. |].
  destruct (IH r1 Hr1) as (evs' & r2 & H2 & Hr2 & Hd2).
  exists (evs ++ evs')%list, r2. split; [| split; [done |]].
  - cbn [failing_rounds]. unfold mbind, rt_bind. by rewrite H1, H2.
  - rewrite elem_of_app. naive_solver.
Qed.
End outcomes.

Local Close Scope string_scope.
