(* ===== verification/DecisionBuilder.v ===== *)
(** Escalations to a human: [crates/engine/src/decision_builder.rs].

    The id of a decision and the time of its creation are arguments.  Slicing a
    string inside a character panics, which is [None]. *)

From S2P Require Import Prelude Ids Bytes Entities Job Event.

Local Open Scope string_scope.

Inductive EscalationTrigger :=
  | Esc_Idle (assistant_context : option string)
  | Esc_Dead (exit_code : option Z) (assistant_context : option string)
  | Esc_Error (error_type message : string) (assistant_context : option string)
  | Esc_GateFailed (command : string) (exit_code : Z) (stderr : string)
  | Esc_Prompt (prompt_type : string) (assistant_context : option string)
  | Esc_Question (question_data : option QuestionData) (assistant_context : option string).

Definition to_source (t : EscalationTrigger) : DecisionSource :=
  match t with
  | Esc_Idle _ => Source_Idle
  | Esc_Dead _ _ => Source_Error
  | Esc_Error _ _ _ => Source_Error
  | Esc_GateFailed _ _ _ => Source_Gate
  | Esc_Prompt _ _ => Source_Approval
  | Esc_Question _ _ => Source_Question
  end.

Record EscalationDecisionBuilder := mkEscalationDecisionBuilder {
  esc_owner : OwnerId;
  esc_display_name : string;
  esc_agent_id : option string;
  esc_trigger : EscalationTrigger;
  esc_agent_log_tail : option string;
  esc_namespace : string
}.

Definition for_job (job_id : JobId) (job_name : string) (trigger : EscalationTrigger)
    : EscalationDecisionBuilder :=
  mkEscalationDecisionBuilder (Owner_Job job_id) job_name None trigger None "".

Definition for_agent_run (agent_run_id : AgentRunId) (command_name : string)
    (trigger : EscalationTrigger) : EscalationDecisionBuilder :=
  mkEscalationDecisionBuilder (Owner_AgentRun agent_run_id) command_name None trigger None "".

Definition esc_set_agent_id (id : string) (b : EscalationDecisionBuilder)
    : EscalationDecisionBuilder :=
  mkEscalationDecisionBuilder (esc_owner b) (esc_display_name b) (Some id) (esc_trigger b)
    (esc_agent_log_tail b) (esc_namespace b).

Definition esc_set_namespace (ns : string) (b : EscalationDecisionBuilder)
    : EscalationDecisionBuilder :=
  mkEscalationDecisionBuilder (esc_owner b) (esc_display_name b) (esc_agent_id b)
    (esc_trigger b) (esc_agent_log_tail b) ns.

(** ** Context *)

Definition quote_char : string := String "034" EmptyString.

(** ["Agent in job <name>"], the name in double quotes. *)
Definition agent_in_job (name : string) : string :=
  "Agent in job " +:+ quote_char +:+ name +:+ quote_char.

Definition assistant_context_of (t : EscalationTrigger) : option string :=
  match t with
  | Esc_Idle ac | Esc_Dead _ ac | Esc_Error _ _ ac | Esc_Prompt _ ac | Esc_Question _ ac => ac
  | Esc_GateFailed _ _ _ => None
  end.

Definition question_line (q : QuestionEntry) : string :=
  "[" +:+ default "Question" (question_header q) +:+ "] " +:+ question q.

(** The lines of the trigger. *)
Definition trigger_parts (name : string) (t : EscalationTrigger) : list string :=
  match t with
  | Esc_Idle _ => [agent_in_job name +:+ " is idle and waiting for input."]
  | Esc_Dead exit_code _ =>
      let code_str := match exit_code with
                      | Some c => " (exit code " +:+ pretty c +:+ ")"
                      | None => ""
                      end in
      [agent_in_job name +:+ " exited unexpectedly" +:+ code_str +:+ "."]
  | Esc_Error error_type message _ =>
      [agent_in_job name +:+ " encountered an error: " +:+ error_type +:+ " - " +:+ message]
  | Esc_GateFailed command exit_code stderr =>
      (["Gate command failed in job " +:+ quote_char +:+ name +:+ quote_char +:+ ".";
        "Command: " +:+ command; "Exit code: " +:+ pretty exit_code] ++
       (if is_empty stderr then [] else ["stderr:" +:+ newline_str +:+ stderr]))%list
  | Esc_Prompt prompt_type _ =>
      [agent_in_job name +:+ " is showing a " +:+ prompt_type +:+ " prompt."]
  | Esc_Question question_data _ =>
      match question_data with
      | Some qd =>
          match questions qd with
          | entry :: rest =>
              ([agent_in_job name +:+ " is asking a question."; ""; question_line entry] ++
               (question_line <$> rest))%list
          | [] => [agent_in_job name +:+ " is asking a question."]
          end
      | None => [agent_in_job name +:+ " is asking a question (no details available)."]
      end
  end.

Definition context_label (t : EscalationTrigger) : string :=
  match t with
  | Esc_Question _ _ | Esc_Prompt _ _ => "Agent Context"
  | _ => "Last Agent Message"
  end.

(** The last message of the agent, cut at 2000 bytes. *)
Definition context_parts (t : EscalationTrigger) : option (list string) :=
  match assistant_context_of t with
  | Some ctx =>
      if is_empty ctx then Some []
      else truncated ← short ctx 2000;
           Some [newline_str +:+ "--- " +:+ context_label t +:+ " ---" +:+ newline_str +:+ truncated]
  | None => Some []
  end.

Definition tail_parts (b : EscalationDecisionBuilder) : list string :=
  match esc_agent_log_tail b with
  | Some tail =>
      if is_empty tail then []
      else [newline_str +:+ "Recent agent output:" +:+ newline_str +:+ tail]
  | None => []
  end.

Definition build_context (b : EscalationDecisionBuilder) : option string :=
  ctx ← context_parts (esc_trigger b);
  Some (String.concat newline_str
          (trigger_parts (esc_display_name b) (esc_trigger b) ++ ctx ++ tail_parts b)%list).

(** ** Options *)

Definition described (label description : string) : DecisionOption :=
  DecisionOption_set_description description (DecisionOption_new label).

Definition cancel_option : DecisionOption := described "Cancel" "Cancel and fail".

Definition build_options (t : EscalationTrigger) : list DecisionOption :=
  match t with
  | Esc_Idle _ =>
      [DecisionOption_set_recommended
         (described "Nudge" "Send a message prompting the agent to continue");
       described "Done" "Mark as complete";
       cancel_option;
       described "Dismiss" "Dismiss this notification without taking action"]
  | Esc_Dead _ _ | Esc_Error _ _ _ =>
      [DecisionOption_set_recommended
         (described "Retry" "Restart the agent with --resume to continue");
       described "Skip" "Skip and mark as complete";
       cancel_option]
  | Esc_GateFailed _ _ _ =>
      [DecisionOption_set_recommended (described "Retry" "Re-run the gate command");
       described "Skip" "Skip the gate and continue";
       cancel_option]
  | Esc_Prompt _ _ =>
      [described "Approve" "Approve the pending action";
       described "Deny" "Deny the pending action";
       cancel_option]
  | Esc_Question question_data _ =>
      (match question_data with
       | Some qd =>
           match questions qd with
           | entry :: _ =>
               (λ opt, match question_option_description opt with
                       | Some desc => described (question_option_label opt) desc
                       | None => DecisionOption_new (question_option_label opt)
                       end) <$> question_options entry
           | [] => []
           end
       | None => []
       end ++ [cancel_option])%list
  end.

(** ** The event *)

Definition build_decision {Value} (decision_id : string) (created_at_ms : Z)
    (b : EscalationDecisionBuilder) : option (Event Value) :=
  context ← build_context b;
  let job_id := match esc_owner b with Owner_Job id => id | Owner_AgentRun _ => "" end in
  Some (DecisionCreated decision_id job_id (esc_agent_id b) (esc_owner b)
          (to_source (esc_trigger b)) context (build_options (esc_trigger b)) created_at_ms
          (esc_namespace b)).

Local Close Scope string_scope.

(** ** Lemmas *)

(** Building a decision panics on a long message only, when its 2000th byte
    falls inside a character. *)
Lemma build_decision_panics {Value} id now b :
  build_decision (Value:=Value) id now b = None ↔
  ∃ ctx, assistant_context_of (esc_trigger b) = Some ctx ∧ (2000 < String.length ctx)%nat ∧
         is_char_boundary ctx 2000 = false.
Proof.
  unfold build_decision, build_context, context_parts.
  destruct (assistant_context_of (esc_trigger b)) as [ctx|]; simpl; [| naive_solver].
  unfold short. destruct (is_empty ctx) eqn:He; simpl.
  { apply is_empty_spec in He as ->. split; [done |]. intros (c & [= <-] & Hl & _).
    simpl in Hl. lia. }
  destruct (Nat.leb_spec (String.length ctx) 2000) as [Hl|Hl]; simpl.
  { split; [done |]. intros (c & [= <-] & ? & _). lia. }
  destruct (is_char_boundary ctx 2000) eqn:Hb; simpl.
  - split; [done |]. intros (c & [= <-] & _ & ?). congruence.
  - split; [| done]. intros _. by exists ctx.
Qed.
