(* ===== verification/JobRun.v ===== *)
(** The life of a job: [crates/engine/src/runtime/job.rs].

    Spawning an agent ([spawn_agent] of [runtime/monitor.rs]) is an argument of
    the definitions that need it. *)

From S2P Require Import Prelude Ids Runbook Bytes Vars Entities Job Timer Event State Scheduler Effect.
From S2P Require Import Executor Runtime WorkerQueue.

Local Open Scope string_scope.

Section JobRun.
Context {Value W : Type} `{!Adapters Value W} `{!RuntimeIO Value W} `{!JsonItem Value}
  `{!TemplateRegex}.
Abbreviation M := (RT Value W) (only parsing).
Abbreviation Events := (list (Event Value)) (only parsing).
Abbreviation Ef := (Effect Value) (only parsing).
Context (spawn_agent : JobId → string → gmap string string → M Events).
Implicit Types (job : Job).

(** The namespaced variables of a job, in the environment of the moment. *)
Definition job_namespaced (vars : gmap string string) : M (gmap string string) :=
  lock_state_env (λ env _, namespace_vars env vars).

(** [NotifyConfig::render]. *)
Definition emit_notify job (message_template : option string) : M Events :=
  match message_template with
  | Some template =>
      vars ← job_namespaced (job_vars job);
      let vars := <["name" := job_name job]> (<["job_id" := job_id job]> vars) in
      let vars := match job_error job with Some err => <["error" := err]> vars | None => vars end in
      event ← exec_effect (Notify (job_name job)
                             (interpolate (runtime_env_var (W:=W)) template vars));
      mret (match event with Some ev => [ev] | None => [] end)
  | None => mret []
  end.

(** ** Starting a step *)

Definition breaker_error (step : string) (visits : Z) : string :=
  "circuit breaker: step '" +:+ step +:+ "' entered " +:+ pretty visits +:+ " times (limit " +:+
  pretty MAX_STEP_VISITS +:+ ")".

(** The branch of [start_step] for a step that was entered too often. *)
Definition break_circuit (id : JobId) (step : string) job (def : JobDef) : M Events :=
  let error := breaker_error step (get_step_visits job step) in
  io (job_log id step error);;
  evs ← exec_effects (failure_effects job error);
  io (breadcrumb_delete (job_id job));;
  evs' ← emit_notify job (notify_on_fail (def_notify def));
  mret (evs ++ evs')%list.

(** The branch of [start_step] for a shell step. *)
Definition start_shell (id : JobId) (step cmd : string) job (input : gmap string string)
    (workspace_path : PathBuf) : M Events :=
  vars ← job_namespaced input;
  let vars := <["workspace" := workspace_path]> (<["name" := job_name job]>
                (<["job_id" := id]> vars)) in
  let command := interpolate_shell (runtime_env_var (W:=W)) cmd vars in
  io (job_log id step ("shell (cwd: " +:+ workspace_path +:+ "): " +:+ command));;
  user_env ← gets (λ r, load_merged_env (job_namespace job) (ex_world (rt_exec r)));
  let shell_env := (if is_empty (job_namespace job) then ∅
                    else {["OJ_NAMESPACE" := job_namespace job]}) ∪ user_env in
  exec_effects [Shell (Some (Owner_Job id)) step command workspace_path shell_env].

Definition start_step (id : JobId) (step : string) (input : gmap string string)
    (workspace_path : PathBuf) : M Events :=
  job ← require_job id;
  runbook ← cached_runbook (job_runbook_hash job);
  def ← ok_or (Rt_JobDefNotFound (job_kind job)) (get_job_def (job_kind job) runbook);
  if (MAX_STEP_VISITS <? get_step_visits job step)%Z then break_circuit id step job def
  else
    step_def ← ok_or (Rt_JobNotFound ("step " +:+ step +:+ " not found")) (get_step step def);
    started ← exec_effects (step_start_effects id step);
    io (job_log id step "step started");;
    o ← rt_get_job id;
    match o with Some job => io (breadcrumb_write job) | None => mret tt end;;
    run ← match def_run step_def with
          | Run_Shell cmd => start_shell id step cmd job input workspace_path
          | Run_Agent agent _ => spawn_agent id agent input
          | Run_Job job => throw (invalid_directive ("step " +:+ step) "nested job" job)
          end;
    mret (started ++ run)%list.

(** ** Leaving a step *)

(** The agent of the most recent record of the current step. *)
Definition step_agent job : option string :=
  last (filter (λ r, Job.step_name r = job_step job) (job_step_history job)) ≫= step_agent_id.

(** The session is killed and dropped from the state; the event is not kept. *)
Definition kill_session_of job : M unit :=
  match job_session_id job with
  | Some sid =>
      exec_effect (KillSession sid);;
      exec_effect (Emit (SessionDeleted sid));;
      mret tt
  | None => mret tt
  end.

(** What [advance_job], [fail_job] and [cancel_job] do before they leave an
    agent step. *)
Definition leave_agent_step job (current : option StepDef) : M unit :=
  if match current with Some d => run_is_agent (def_run d) | None => false end then
    exec_effect (CancelTimer (liveness (job_id job)));;
    exec_effect (CancelTimer (exit_deferred (job_id job)));;
    match step_agent job with
    | Some agent_id => deregister_agent agent_id;; mret tt
    | None => mret tt
    end;;
    kill_session_of job
  else mret tt.

(** The workspace of a job: the one it names, else the first one it owns. *)
Definition workspace_of job : M (option string) :=
  match job_workspace_id job with
  | Some id => mret (Some id)
  | None =>
      lock_state_env (λ env s,
        k ← find_key (λ ws, bool_decide (workspace_owner ws = Some (Owner_Job (job_id job))))
              (iter_order env TWorkspaces (dom (workspaces s))) (workspaces s);
        workspace_id <$> workspaces s !! k)
  end.

Definition workspace_cleanup_effects job : M (list Ef) :=
  o ← workspace_of job;
  match o with
  | Some ws_id =>
      exists_ ← lock_state (λ s, bool_decide (is_Some (workspaces s !! ws_id)));
      mret (if exists_ : bool then [DeleteWorkspace ws_id] else [])
  | None => mret []
  end.

(** ** Ending a job *)

Definition complete_job job : M Events :=
  io (job_log (job_id job) (job_step job) "job completed");;
  io (breadcrumb_delete (job_id job));;
  cleanup ← workspace_cleanup_effects job;
  evs ← exec_effects (completion_effects job ++ cleanup)%list;
  checked ← check_worker_job_complete (job_id job) "done";
  runbook ← attempt (cached_runbook (job_runbook_hash job));
  notified ← match runbook with
             | inr runbook =>
                 match get_job_def (job_kind job) runbook with
                 | Some def => emit_notify job (notify_on_done (def_notify def))
                 | None => mret []
                 end
             | inl _ => mret []
             end;
  mret (evs ++ checked ++ notified)%list.

(** Cancellation without a cleanup step. *)
Definition finish_cancelled job : M Events :=
  cleanup ← workspace_cleanup_effects job;
  evs ← exec_effects (cancellation_effects job ++ cleanup)%list;
  io (breadcrumb_delete (job_id job));;
  checked ← check_worker_job_complete (job_id job) "cancelled";
  mret (evs ++ checked)%list.

(** Terminal failure. *)
Definition finish_failed job (error : string) : M Events :=
  evs ← exec_effects (failure_effects job error);
  io (breadcrumb_delete (job_id job));;
  checked ← check_worker_job_complete (job_id job) "failed";
  mret (evs ++ checked)%list.

(** A transition to a step, which is then started. *)
Definition go_to_step job (effects : list Ef) (step : string) : M Events :=
  evs ← exec_effects effects;
  started ← start_step (job_id job) step (job_vars job) (execution_dir job);
  mret (evs ++ started)%list.

Definition finish_done job : M Events :=
  evs ← exec_effects (step_transition_effects job "done");
  completed ← complete_job job;
  mret (evs ++ completed)%list.

(** ** Advancing, failing and cancelling *)

Definition advance_job job : M Events :=
  if Job_is_terminal job then complete_job job
  else
    runbook ← cached_runbook (job_runbook_hash job);
    let def := get_job_def (job_kind job) runbook in
    let current := def ≫= get_step (job_step job) in
    leave_agent_step job current;;
    exec_effect (Emit (StepCompleted (job_id job) (job_step job)));;
    match current ≫= def_on_done with
    | Some transition =>
        let next_step := transition_step transition in
        io (job_log (job_id job) (job_step job) ("advancing to " +:+ next_step));;
        evs ← exec_effects (step_transition_effects job next_step);
        let has_step_def := match def ≫= get_step next_step with Some _ => true | None => false end in
        let is_terminal := String.eqb next_step "done" || String.eqb next_step "failed" in
        rest ← (if negb has_step_def && is_terminal then complete_job job
                else start_step (job_id job) next_step (job_vars job) (execution_dir job));
        mret (evs ++ rest)%list
    | None =>
        match def ≫= def_job_on_done with
        | Some on_done =>
            let on_done_step := transition_step on_done in
            if String.eqb (job_step job) on_done_step then finish_done job
            else
              io (job_log (job_id job) (job_step job)
                    ("job on_done: advancing to " +:+ on_done_step));;
              go_to_step job (step_transition_effects job on_done_step) on_done_step
        | None => if job_cancelling job then finish_cancelled job else finish_done job
        end
    end.

Definition fail_job job (error : string) : M Events :=
  runbook ← cached_runbook (job_runbook_hash job);
  let def := get_job_def (job_kind job) runbook in
  let current := def ≫= get_step (job_step job) in
  leave_agent_step job current;;
  io (job_log (job_id job) (job_step job) ("job failed: " +:+ error));;
  match current ≫= def_on_fail with
  | Some on_fail =>
      let on_fail_step := transition_step on_fail in
      go_to_step job (failure_transition_effects job on_fail_step error) on_fail_step
  | None =>
      match def ≫= def_job_on_fail with
      | Some job_on_fail =>
          let on_fail_step := transition_step job_on_fail in
          if String.eqb (job_step job) on_fail_step then finish_failed job error
          else
            io (job_log (job_id job) (job_step job)
                  ("job on_fail: advancing to " +:+ on_fail_step));;
            go_to_step job (failure_transition_effects job on_fail_step error) on_fail_step
      | None =>
          evs ← finish_failed job error;
          notified ← match def with
                     | Some def => emit_notify job (notify_on_fail (def_notify def))
                     | None => mret []
                     end;
          mret (evs ++ notified)%list
      end
  end.

(** The route to a cleanup step. *)
Definition go_to_cleanup job (target : string) : M Events :=
  cancelling ← exec_effect (Emit (JobCancelling (job_id job)));
  evs ← go_to_step job (cancellation_transition_effects job target) target;
  mret (match cancelling with Some ev => ev :: evs | None => evs end).

Definition cancel_job job : M Events :=
  if Job_is_terminal job then mret []
  else if job_cancelling job then mret []
  else
    runbook ← cached_runbook (job_runbook_hash job);
    let def := get_job_def (job_kind job) runbook in
    let current := def ≫= get_step (job_step job) in
    leave_agent_step job current;;
    match current ≫= def_on_cancel with
    | Some on_cancel => go_to_cleanup job (transition_step on_cancel)
    | None =>
        match def ≫= def_job_on_cancel with
        | Some job_on_cancel =>
            let target := transition_step job_on_cancel in
            if String.eqb (job_step job) target then finish_cancelled job
            else go_to_cleanup job target
        | None => finish_cancelled job
        end
    end.
End JobRun.

Local Close Scope string_scope.
