(* ===== verification/JobRunSpec.v ===== *)
(** What the life of a job promises: completion, failure and cancellation end
    it whatever happens afterwards, the circuit breaker stops a step that is
    entered too often, and what advancing a job leaves out of the log. *)

From S2P Require Import Prelude Ids Runbook Bytes Vars Entities Job Timer Event State StateEquiv.
From S2P Require Import StateIdem StateInv Scheduler Effect Executor Runtime WorkerQueue WorkerQueueSpec.
From S2P Require Import JobRun.

Local Open Scope string_scope.

(** ** What does not concern a job *)

Section outlook.
Context {Value W : Type} `{!Adapters Value W} `{!RuntimeIO Value W} `{!JsonItem Value}
  `{!TemplateRegex}.
Context (id : JobId).
Implicit Types (r : Rt Value W) (x : Exec Value W).

(** The part of the state that says whether the job has ended. *)
Definition exec_outlook x :=
  (jobs (ex_state x), workers (ex_state x), decisions (ex_state x),
   timers (ex_scheduler x) !! liveness id, timers (ex_scheduler x) !! exit_deferred id).

Definition outlook r := exec_outlook (rt_exec r).

(** The effects that come after the end of a job. *)
Definition calm (eff : Effect Value) : bool :=
  match eff with
  | Emit (QueueCompleted _ _ _) | Emit (QueueFailed _ _ _ _) | Emit (QueueItemDead _ _ _) => true
  | SetTimer t _ => is_queue_retry t
  | PollQueue _ _ _ | Notify _ _ | DeleteWorkspace _ => true
  | _ => false
  end.

Lemma execute_calm env eff x : calm eff = true → exec_outlook (execute env eff x).2 = exec_outlook x.
Proof.
  destruct eff as [[]| | | | | | |ws|t d| | | | |]; try done; intros Hc.
  - simpl. unfold execute_delete_workspace, call, finish.
    repeat case_match; simplify_eq/=; done.
  - simpl in *. unfold exec_outlook. simpl. apply starts_with_spec in Hc as [rest ->].
    by rewrite !lookup_insert_ne by done.
Qed.

Lemma execute_all_calm envs effs x :
  forallb calm effs = true → exec_outlook (execute_all envs effs x).2 = exec_outlook x.
Proof.
  revert envs x. induction effs as [|eff effs IH]; intros envs x; simpl; [done |].
  intros [Hc Hcs]%andb_true_iff. pose proof (execute_calm (envs 0) eff x Hc) as H1.
  destruct (execute (envs 0) eff x) as [[e|o] x1]; [done |].
  specialize (IH (λ i, envs (S i)) x1 Hcs).
  destruct (execute_all _ effs x1) as [[e|evs] x2]; simpl in *; congruence.
Qed.

Lemma outlook_exec_effects effs : forallb calm effs = true → keeps outlook (exec_effects effs).
Proof.
  intros Hc r. unfold exec_effects. pose proof (execute_all_calm (rt_envs r) effs (rt_exec r) Hc).
  by destruct (execute_all _ effs _) as [[e|evs] x].
Qed.

Lemma outlook_exec_effect eff : calm eff = true → keeps outlook (exec_effect eff).
Proof.
  intros Hc r. unfold exec_effect. pose proof (execute_calm (rt_envs r 0) eff (rt_exec r) Hc).
  by destruct (execute _ eff _) as [[e|evs] x].
Qed.

Lemma outlook_io g : keeps outlook (io g).
Proof. done. Qed.

Lemma outlook_lock_state_env {A} (g : Env → MaterializedState Value → A) :
  keeps outlook (lock_state_env g).
Proof. done. Qed.

#[local] Hint Resolve outlook_exec_effects outlook_exec_effect outlook_io outlook_lock_state_env : oj.

Lemma outlook_cached_runbook hash : keeps outlook (cached_runbook hash).
Proof. unfold cached_runbook. solve_keeps. Qed.
#[local] Hint Resolve outlook_cached_runbook : oj.

Lemma outlook_refresh name : keeps outlook (refresh_events name).
Proof. unfold refresh_events, refresh_worker_runbook. solve_keeps. Qed.
#[local] Hint Resolve outlook_refresh : oj.

Lemma outlook_retry_or_dead rb n q item ns : keeps outlook (retry_or_dead rb n q item ns).
Proof. unfold retry_or_dead. solve_keeps. Qed.
#[local] Hint Resolve outlook_retry_or_dead : oj.

Lemma outlook_settle_item q i ns hash step : keeps outlook (settle_item q i ns hash step).
Proof.
  unfold settle_item. destruct (String.eqb step "done"); solve_keeps.
Qed.

Lemma outlook_repoll name st hash : keeps outlook (repoll name st hash).
Proof. unfold repoll, poll_persisted_queue. solve_keeps. Qed.

Lemma outlook_release_slot job : keeps outlook (release_slot job).
Proof. intros r. unfold release_slot. by repeat case_match. Qed.
#[local] Hint Resolve outlook_settle_item outlook_repoll outlook_release_slot : oj.

Lemma outlook_check_complete job step : keeps outlook (check_worker_job_complete job step).
Proof. unfold check_worker_job_complete, get_worker_state. solve_keeps. Qed.

Lemma outlook_emit_notify job template : keeps outlook (emit_notify job template).
Proof. unfold emit_notify, job_namespaced. solve_keeps. Qed.

Lemma outlook_workspace_cleanup job : keeps outlook (workspace_cleanup_effects job).
Proof. unfold workspace_cleanup_effects, workspace_of. solve_keeps. Qed.

Lemma workspace_cleanup_calm job r effs r' :
  workspace_cleanup_effects job r = (inr effs, r') → forallb calm effs = true.
Proof.
  unfold workspace_cleanup_effects, mbind at 1, rt_bind.
  destruct (workspace_of job r) as [[e|[ws|]] r1]; [done | |].
  - unfold mbind, rt_bind, lock_state, gets, mret, rt_ret. intros Heq.
    destruct (bool_decide _); injection Heq as <- <-; done.
  - unfold mret, rt_ret. intros Heq. injection Heq as <- <-. done.
Qed.
End outlook.

(** ** The end of a job *)

Section ends.
Context {Value W : Type} `{!Adapters Value W} `{!RuntimeIO Value W} `{!JsonItem Value}
  `{!TemplateRegex}.
Implicit Types (r : Rt Value W) (x : Exec Value W).

Lemma job_ended_outlook id step P x x' :
  exec_outlook id x = exec_outlook id x' → job_ended id step P x → job_ended id step P x'.
Proof.
  unfold exec_outlook. intros Heq [[Ht1 Ht2] [(j & Hj & Hjob) [Hw Hd]]].
  injection Heq as E1 E2 E3 E4 E5. unfold job_ended, timers_cancelled.
  rewrite <- E4, <- E5. split; [done |]. split.
  - exists j. by rewrite <- E1.
  - unfold job_released. by rewrite <- E2, <- E3.
Qed.

(** A handler whose first part ends the job and whose rest is calm. *)
Lemma ends_then {A B} id step P (m : RT Value W A) (k : A → RT Value W B) r :
  job_ended id step P (rt_exec (m r).2) → (∀ a, keeps (outlook id) (k a)) →
  job_ended id step P (rt_exec ((m ≫= k) r).2).
Proof.
  intros Hm Hk. unfold mbind, rt_bind. destruct (m r) as [[e|a] r1]; [done |]. simpl in *.
  eapply job_ended_outlook; [| exact Hm]. symmetry. apply (Hk a).
Qed.

(** Sessions can be killed: the adapter does not report an error for the
    session of the job. *)
Definition killable (j : Job) : Prop :=
  ∀ sid (w : W), job_session_id j = Some sid → (sessions_kill sid w).1 = None.

Lemma killable_succeeds j x : killable j → kill_succeeds j x.
Proof. intros Hk sid. apply Hk. Qed.

(** Effects after a closing batch. *)
Lemma closing_then_calm id step P envs effs1 effs2 x :
  (∃ evs x', execute_all envs effs1 x = (inr evs, x') ∧ job_ended id step P x') →
  forallb calm effs2 = true →
  job_ended id step P (execute_all envs (effs1 ++ effs2)%list x).2.
Proof.
  intros (evs & x' & Hrun & He) Hc. rewrite execute_all_app, Hrun.
  pose proof (execute_all_calm id (λ i, envs (length effs1 + i)) effs2 x' Hc) as Ho.
  destruct (execute_all _ effs2 x') as [[e|evs2] x2]; simpl in *;
    eapply job_ended_outlook; [symmetry; exact Ho | done | symmetry; exact Ho | done].
Qed.

Lemma exec_effects_ends id step P effs r :
  job_ended id step P (execute_all (rt_envs r) effs (rt_exec r)).2 →
  job_ended id step P (rt_exec (exec_effects effs r).2).
Proof.
  unfold exec_effects. by destruct (execute_all _ effs _) as [[e|evs] x].
Qed.
End ends.

Section theorems.
Context {Value W : Type} `{!Adapters Value W} `{!RuntimeIO Value W} `{!JsonItem Value}
  `{!TemplateRegex}.
Context (spawn_agent : JobId → string → gmap string string → RT Value W (list (Event Value))).
Context (job : Job) (r : Rt Value W).
Context (Hjob : jobs (rt_state r) !! job_id job = Some job).
Context (Hrunning : Job_is_terminal job = false) (Hwf : Job_wf job).
Context (Hkill : killable (Value:=Value) (W:=W) job).

(** What the state still knows of the job: all but its session, perhaps. *)
Definition same_job (r' : Rt Value W) : Prop :=
  ∃ j0, jobs (rt_state r') !! job_id job = Some j0 ∧
        (j0 = job ∨ j0 = job_set_session_id None job).

Lemma io_then {A} g (k : RT Value W A) r0 :
  (io g;; k) r0 = k (rt_set_exec (set_world (g (ex_world (rt_exec r0))) (rt_exec r0)) r0).
Proof. done. Qed.

Lemma cleanup_total (r0 : Rt Value W) :
  ∃ effs (r1 : Rt Value W), workspace_cleanup_effects job r0 = (inr effs, r1) ∧ rt_exec r1 = rt_exec r0 ∧
    forallb calm effs = true.
Proof.
  destruct (workspace_cleanup_effects job r0) as [[e|effs] r1] eqn:E.
  - exfalso. revert E. unfold workspace_cleanup_effects, workspace_of.
    unfold mbind at 1, rt_bind. destruct (job_workspace_id job); [done |].
    unfold lock_state_env. by destruct (find_key _ _ _ ≫= _).
  - exists effs, r1. split; [done |]. split; [| by eapply workspace_cleanup_calm].
    revert E. unfold workspace_cleanup_effects, workspace_of, mbind at 1, rt_bind.
    destruct (job_workspace_id job) as [ws|].
    + intros Heq. by injection Heq as <- <-.
    + unfold lock_state_env. destruct (find_key _ _ _ ≫= _); intros Heq; by injection Heq as <- <-.
Qed.

(** The closing batches, followed by the cleanup of the workspace and a calm
    rest. *)
Lemma end_with_cleanup {A} step P effs (k : list (Event Value) → RT Value W A) r0 :
  same_job r0 →
  (∀ envs j0 x, jobs (ex_state x) !! job_id job = Some j0 → Job_is_terminal j0 = false →
     Job_wf j0 → kill_succeeds job x →
     job_session_id j0 = job_session_id job ∨ job_session_id j0 = None →
     ∃ evs x', execute_all envs effs x = (inr evs, x') ∧ job_ended (job_id job) step P x') →
  (∀ evs, keeps (outlook (job_id job)) (k evs)) →
  job_ended (job_id job) step P (rt_exec ((
    cleanup ← workspace_cleanup_effects job;
    evs ← exec_effects (effs ++ cleanup)%list;
    k evs) r0).2).
Proof.
  intros (j0 & Hj0 & Hsame) Hend Hk. destruct (cleanup_total r0) as (cl & r1 & Hcl & Hx & Hcalm).
  unfold mbind at 1, rt_bind. rewrite Hcl. apply ends_then; [| exact Hk].
  apply exec_effects_ends, closing_then_calm; [| done]. rewrite Hx.
  apply (Hend _ j0); [done | | | by apply killable_succeeds |].
  - by destruct Hsame as [->| ->].
  - destruct Hsame as [->| ->]; [done |]. by apply (Job_wf_same job).
  - destruct Hsame as [->| ->]; auto.
Qed.

Lemma same_job_refl : same_job r.
Proof. exists job. auto. Qed.

(** C9. Completing a running job ends it: whatever the deletion of its
    workspace, the worker it belongs to or its notification give, and also when
    one of them fails, the job is at ["done"] and completed, every step record
    is finished, and it has no session, no liveness or exit timer, no worker
    that lists it and no open decision. *)
Theorem complete_job_ends :
  job_ended (job_id job) "done" (λ j, job_step_status j = Completed)
    (rt_exec (complete_job job r).2).
Proof.
  unfold complete_job. rewrite !io_then. apply end_with_cleanup; [apply same_job_refl | |].
  - intros. eapply completion_effects_end; eassumption.
  - intros evs. pose proof (outlook_check_complete (W:=W) (Value:=Value) (job_id job)).
    pose proof (outlook_emit_notify (W:=W) (Value:=Value) (job_id job)).
    pose proof (outlook_cached_runbook (W:=W) (Value:=Value) (job_id job)). solve_keeps.
Qed.
(** Leaving an agent step: the session is killed and forgotten. *)
Lemma kill_session_same r0 :
  jobs (rt_state r0) !! job_id job = Some job →
  ∃ r1, kill_session_of job r0 = (inr tt, r1) ∧ same_job r1 ∧ rt_cache r1 = rt_cache r0 ∧
    ∀ sid, job_session_id job = Some sid → rt_state r1 = apply_SessionDeleted sid (rt_state r0).
Proof.
  intros Hj. unfold kill_session_of. destruct (job_session_id job) as [sid|] eqn:Hs.
  - unfold mbind, rt_bind, exec_effect. cbn [execute]. unfold call.
    pose proof (Hkill sid (ex_world (rt_exec r0)) Hs) as Hok.
    destruct (sessions_kill sid (ex_world (rt_exec r0))) as [o w]. simpl in Hok. subst o.
    simpl. eexists. split; [reflexivity |]. split_and!; [| done | by intros sid' [= <-]].
    exists (job_set_session_id None job). split; [| by right].
    unfold rt_state. simpl. rewrite lookup_fmap. unfold rt_state in Hj. rewrite Hj. simpl.
    by rewrite bool_decide_true.
  - exists r0. split; [done |]. split; [| done]. exists job. auto.
Qed.

Lemma leave_agent_step_same current :
  ∃ r1, leave_agent_step job current r = (inr tt, r1) ∧ same_job r1 ∧ rt_cache r1 = rt_cache r ∧
    (∀ d sid, current = Some d → run_is_agent (def_run d) = true →
       job_session_id job = Some sid → rt_state r1 = apply_SessionDeleted sid (rt_state r)).
Proof.
  unfold leave_agent_step.
  destruct (match current with Some d => run_is_agent (def_run d) | None => false end) eqn:Hc.
  2: { exists r. split; [done |]. split; [apply same_job_refl |]. split; [done |].
       intros d sid -> Ha. congruence. }
  unfold mbind, rt_bind, exec_effect. simpl.
  destruct (step_agent job) as [agent|]; unfold deregister_agent; simpl.
  all: match goal with |- context [kill_session_of job ?r0] =>
    destruct (kill_session_same r0) as (r1 & -> & Hsame & Hcache & Hst); [exact Hjob |];
    exists r1; split_and!; [done..|]; by intros d sid _ _ Hsid; rewrite (Hst sid Hsid) end.
Qed.

Lemma failure_ends error r0 :
  same_job r0 →
  job_ended (job_id job) "failed" (failed_with job error)
    (rt_exec (exec_effects (failure_effects job error) r0).2).
Proof.
  intros (j0 & Hj0 & Hsame). apply exec_effects_ends.
  destruct (failure_effects_end (rt_envs r0) job j0 (rt_exec r0)) with (error := error)
    as (evs & x' & -> & He); [done | by destruct Hsame as [->| ->] |
      destruct Hsame as [->| ->]; [done | by apply (Job_wf_same job)] |
      by apply killable_succeeds | destruct Hsame as [->| ->]; auto |].
  by destruct Hsame as [->| ->].
Qed.

Context (rb : Runbook) (Hrb : rt_cache r !! job_runbook_hash job = Some rb).

Definition job_def : option JobDef := get_job_def (job_kind job) rb.
Definition current_step : option StepDef := job_def ≫= get_step (job_step job).

(** No step to route to: none on the current step, and on the job none or the
    current step itself. *)
Definition no_route (on_step : StepDef → option StepTransition)
    (on_job : JobDef → option StepTransition) : Prop :=
  current_step ≫= on_step = None ∧
  (∀ t, job_def ≫= on_job = Some t → transition_step t = job_step job).

Lemma with_runbook {A} (k : Runbook → RT Value W A) :
  (cached_runbook (job_runbook_hash job) ≫= k) r = k rb r.
Proof. unfold mbind, rt_bind. by rewrite (cached_runbook_hit _ rb). Qed.

Lemma finish_failed_ends {A} error (k : list (Event Value) → RT Value W A) r0 :
  same_job r0 → (∀ evs, keeps (outlook (job_id job)) (k evs)) →
  job_ended (job_id job) "failed" (failed_with job error)
    (rt_exec ((finish_failed job error ≫= k) r0).2).
Proof.
  intros Hsame Hk. apply ends_then; [| exact Hk].
  unfold finish_failed. apply ends_then; [by apply failure_ends |].
  intros evs. pose proof (outlook_check_complete (W:=W) (Value:=Value) (job_id job)). solve_keeps.
Qed.

(** The proof of the next theorem, for other handlers that fail a job. *)
Lemma fail_job_ended error :
  no_route def_on_fail def_job_on_fail →
  job_ended (job_id job) "failed" (failed_with job error)
    (rt_exec (fail_job spawn_agent job error r).2).
Proof.
  intros [Hstep Hj]. unfold fail_job. rewrite with_runbook. cbv zeta.
  fold job_def. fold current_step.
  destruct (leave_agent_step_same current_step) as (r1 & Hl & Hsame & _ & _).
  unfold mbind at 1, rt_bind. rewrite Hl. rewrite io_then, Hstep.
  set (r2 := rt_set_exec _ _). assert (same_job r2) as Hs2 by exact Hsame.
  destruct (job_def ≫= def_job_on_fail) as [t|] eqn:Ht.
  - rewrite (Hj t eq_refl), String.eqb_refl.
    pose proof (finish_failed_ends error mret r2 Hs2) as He.
    unfold mbind, rt_bind in He. destruct (finish_failed job error r2) as [[e|evs] r3];
      apply He; intros; apply keeps_ret.
  - apply finish_failed_ends; [done |]. intros evs.
    pose proof (outlook_emit_notify (W:=W) (Value:=Value) (job_id job)). solve_keeps.
Qed.

(** C10. Failing a running job that has no step to route to ends it: the job is
    at ["failed"] with the error recorded, whatever the worker it belongs to or
    its notification give.  The error does not reach the record of the step,
    which is closed with the error the job had before. *)
Theorem fail_job_ends error :
  no_route def_on_fail def_job_on_fail →
  job_ended (job_id job) "failed" (failed_with job error)
    (rt_exec (fail_job spawn_agent job error r).2).
Proof. apply fail_job_ended. Qed.

(** Cancelling a job that has ended, or that runs its cleanup step, does
    nothing; cancelling another one that has no cleanup step ends it at
    ["cancelled"]. *)
Theorem cancel_job_ends :
  no_route def_on_cancel def_job_on_cancel →
  (∀ j, Job_is_terminal j = true ∨ job_cancelling j = true →
     cancel_job spawn_agent j r = (inr [], r)) ∧
  (job_cancelling job = false →
   job_ended (job_id job) "cancelled"
     (λ j, job_step_status j = Failed ∧ job_error j = Some "cancelled")
     (rt_exec (cancel_job spawn_agent job r).2)).
Proof.
  intros [Hstep Hj]. split.
  { intros j Hj'. unfold cancel_job. destruct (Job_is_terminal j); [done |].
    destruct Hj' as [?|Hj']; [done |]. by rewrite Hj'. }
  intros Hc. unfold cancel_job. rewrite Hrunning, Hc, with_runbook. cbv zeta.
  fold job_def. fold current_step.
  destruct (leave_agent_step_same current_step) as (r1 & Hl & Hsame & _ & _).
  unfold mbind at 1, rt_bind. rewrite Hl, Hstep.
  assert (job_ended (job_id job) "cancelled"
    (λ j, job_step_status j = Failed ∧ job_error j = Some "cancelled")
    (rt_exec (finish_cancelled job r1).2)) as He.
  { unfold finish_cancelled. apply end_with_cleanup; [done | |].
    - intros. eapply cancellation_effects_end; eassumption.
    - intros evs. pose proof (outlook_check_complete (W:=W) (Value:=Value) (job_id job)).
      solve_keeps. }
  destruct (job_def ≫= def_job_on_cancel) as [t|] eqn:Ht; [| done].
  by rewrite (Hj t eq_refl), String.eqb_refl.
Qed.
End theorems.

(** Starting steps: the circuit breaker, the background task of a shell step,
    and what the log misses of an agent step that is left. *)

Local Open Scope string_scope.

(** ** Background tasks *)

Section tasks.
Context {Value W : Type} `{!Adapters Value W} `{!RuntimeIO Value W} `{!JsonItem Value}
  `{!TemplateRegex}.
Implicit Types (r : Rt Value W) (x : Exec Value W).

Definition tasks r := ex_tasks (rt_exec r).

Definition starts_no_task (eff : Effect Value) : bool :=
  match eff with
  | Shell _ _ _ _ _ | PollQueue _ _ _ | TakeQueueItem _ _ _ _ _ => false
  | _ => true
  end.

Lemma execute_tasks env eff x :
  starts_no_task eff = true → ex_tasks (execute env eff x).2 = ex_tasks x.
Proof.
  destruct eff; try done; intros _; simpl;
    unfold execute_delete_workspace, execute_create_workspace, call, ok_none, finish;
    repeat case_match; simplify_eq/=; done.
Qed.

Lemma execute_all_tasks envs effs x :
  forallb starts_no_task effs = true → ex_tasks (execute_all envs effs x).2 = ex_tasks x.
Proof.
  revert envs x. induction effs as [|eff effs IH]; intros envs x; simpl; [done |].
  intros [Hc Hcs]%andb_true_iff. pose proof (execute_tasks (envs 0) eff x Hc) as H1.
  destruct (execute (envs 0) eff x) as [[e|o] x1]; [done |].
  specialize (IH (λ i, envs (S i)) x1 Hcs).
  destruct (execute_all _ effs x1) as [[e|evs] x2]; simpl in *; congruence.
Qed.

Lemma tasks_exec_effects effs :
  forallb starts_no_task effs = true → keeps tasks (exec_effects effs).
Proof.
  intros Hc r. unfold exec_effects. pose proof (execute_all_tasks (rt_envs r) effs (rt_exec r) Hc).
  by destruct (execute_all _ effs _) as [[e|evs] x].
Qed.

Lemma tasks_exec_effect eff : starts_no_task eff = true → keeps tasks (exec_effect eff).
Proof.
  intros Hc r. unfold exec_effect. pose proof (execute_tasks (rt_envs r 0) eff (rt_exec r) Hc).
  by destruct (execute _ eff _) as [[e|evs] x].
Qed.

Lemma tasks_io g : keeps tasks (io g).
Proof. done. Qed.

Lemma tasks_lock_state_env {A} (g : Env → MaterializedState Value → A) :
  keeps tasks (lock_state_env g).
Proof. done. Qed.

Lemma failure_effects_no_task job error : forallb starts_no_task (failure_effects job error) = true.
Proof. unfold failure_effects, session_cleanup. by destruct (job_session_id job). Qed.

Lemma tasks_break_circuit id step job def : keeps tasks (break_circuit id step job def).
Proof.
  pose proof tasks_io. pose proof @tasks_lock_state_env. pose proof tasks_exec_effect.
  unfold break_circuit, emit_notify, job_namespaced. solve_keeps.
  apply tasks_exec_effects, failure_effects_no_task.
Qed.
End tasks.

(** ** Starting a step *)

Section start.
Context {Value W : Type} `{!Adapters Value W} `{!RuntimeIO Value W} `{!JsonItem Value}
  `{!TemplateRegex}.
Context (spawn_agent : JobId → string → gmap string string → RT Value W (list (Event Value))).
Implicit Types (r : Rt Value W) (job : Job).

(** The job [id], its runbook and its definition are known. *)
Record known (id : JobId) job (rb : Runbook) (def : JobDef) r : Prop := {
  known_job : jobs (rt_state r) !! id = Some job;
  known_runbook : rt_cache r !! job_runbook_hash job = Some rb;
  known_def : get_job_def (job_kind job) rb = Some def
}.

Lemma require_job_known id job r :
  jobs (rt_state r) !! id = Some job → require_job id r = (inr job, r).
Proof.
  intros Hj. unfold require_job, rt_get_job, lock_state, gets, mbind, rt_bind.
  unfold get_job, get_by_prefix. by rewrite Hj.
Qed.

Lemma start_step_known id job rb def step input path r :
  known id job rb def r →
  start_step spawn_agent id step input path r =
  (if (MAX_STEP_VISITS <? get_step_visits job step)%Z then break_circuit id step job def
   else
     step_def ← ok_or (Rt_JobNotFound ("step " +:+ step +:+ " not found")) (get_step step def);
     started ← exec_effects (step_start_effects id step);
     io (job_log id step "step started");;
     o ← rt_get_job id;
     match o with Some job => io (breadcrumb_write job) | None => mret tt end;;
     run ← match def_run step_def with
           | Run_Shell cmd => start_shell id step cmd job input path
           | Run_Agent agent _ => spawn_agent id agent input
           | Run_Job job => throw (invalid_directive ("step " +:+ step) "nested job" job)
           end;
     mret (started ++ run)%list) r.
Proof.
  intros [Hj Hc Hd]. unfold start_step. unfold mbind at 1, rt_bind.
  rewrite (require_job_known id job) by done. unfold mbind at 1.
  rewrite (cached_runbook_hit _ rb) by done. by rewrite Hd.
Qed.

Lemma io_any g r : io g r = (inr tt, rt_set_exec (set_world (g (ex_world (rt_exec r))) (rt_exec r)) r).
Proof. done. Qed.

(** What [start_shell] hands to the shell. *)
Definition shell_task (id : JobId) (step cmd : string) (path : PathBuf) (t : Task Value) : Prop :=
  ∃ vars env, t = ShellTask (Some (Owner_Job id)) step
                    (interpolate_shell (runtime_env_var (W:=W)) cmd vars) path env ∧
    vars !! "job_id" = Some id ∧ vars !! "workspace" = Some path.

Lemma start_shell_spec id step cmd job input path r :
  ∃ r' t, start_shell id step cmd job input path r = (inr [], r') ∧
    rt_state r' = rt_state r ∧ tasks r' = (tasks r ++ [t])%list ∧ shell_task id step cmd path t.
Proof.
  unfold start_shell, job_namespaced, lock_state_env. unfold mbind at 1, rt_bind.
  do 2 eexists. split; [reflexivity |]. split; [done |]. split; [reflexivity |].
  do 2 eexists. split; [reflexivity |].
  by rewrite lookup_insert_ne, lookup_insert_ne, lookup_insert_eq, lookup_insert_eq.
Qed.

(** What the kind of the step does, once its start is logged. *)
Definition run_step (id : JobId) (step : string) (sd : StepDef) (job : Job) (input : gmap string string)
    (path : PathBuf) : RT Value W (list (Event Value)) :=
  match def_run sd with
  | Run_Shell cmd => start_shell id step cmd job input path
  | Run_Agent agent _ => spawn_agent id agent input
  | Run_Job other => throw (invalid_directive ("step " +:+ step) "nested job" other)
  end.

Lemma start_step_begun id job rb def step sd input path r :
  known id job rb def r → (get_step_visits job step ≤ MAX_STEP_VISITS)%Z →
  get_step step def = Some sd →
  ∃ r1, rt_state r1 = apply_StepStarted (rt_envs r 0) id None None (rt_state r) ∧ tasks r1 = tasks r ∧
    start_step spawn_agent id step input path r
    = (evs ← run_step id step sd job input path;
       mret (StepStarted id step None None :: evs)) r1.
Proof.
  intros Hk Hv Hsd. rewrite (start_step_known id job rb def) by done.
  assert ((MAX_STEP_VISITS <? get_step_visits job step)%Z = false) as -> by lia.
  rewrite Hsd. erewrite bind_ok by reflexivity.
  unfold step_start_effects. erewrite bind_ok by apply exec_emit.
  set (r1 := rt_apply _ r). erewrite bind_ok by apply io_any. set (r2 := rt_set_exec _ r1).
  erewrite bind_ok by reflexivity.
  assert (∃ r3, (match get_job (rt_state r2) id with
                 | Some job => io (breadcrumb_write job) | None => mret tt end) r2 = (inr tt, r3) ∧
    rt_state r3 = rt_state r2 ∧ tasks r3 = tasks r2) as (r3 & Hr3 & Hs3 & Ht3).
  { destruct (get_job (rt_state r2) id) as [j'|]; [| by exists r2].
    rewrite io_any. eexists. split; [reflexivity | done]. }
  erewrite bind_ok by exact Hr3. exists r3. split; [by rewrite Hs3 |]. split; [by rewrite Ht3 |]. done.
Qed.

Lemma start_shell_step id job rb def step sd cmd input path r :
  known id job rb def r → (get_step_visits job step ≤ MAX_STEP_VISITS)%Z →
  get_step step def = Some sd → def_run sd = Run_Shell cmd →
  ∃ r' t, start_step spawn_agent id step input path r = (inr [StepStarted id step None None], r') ∧
    rt_state r' = apply_StepStarted (rt_envs r 0) id None None (rt_state r) ∧
    tasks r' = (tasks r ++ [t])%list ∧ shell_task id step cmd path t.
Proof.
  intros Hk Hv Hsd Hrun.
  destruct (start_step_begun id job rb def step sd input path r Hk Hv Hsd) as (r3 & Hs3 & Ht3 & ->).
  unfold run_step. rewrite Hrun.
  destruct (start_shell_spec id step cmd job input path r3) as (r4 & t & Hr4 & Hs4 & Ht4 & Ht).
  erewrite bind_ok by exact Hr4. exists r4, t. split; [reflexivity |].
  split; [by rewrite Hs4, Hs3 |]. split; [| done]. by rewrite Ht4, Ht3.
Qed.
End start.

Section theorems.
Context {Value W : Type} `{!Adapters Value W} `{!RuntimeIO Value W} `{!JsonItem Value}
  `{!TemplateRegex}.
Context (spawn_agent : JobId → string → gmap string string → RT Value W (list (Event Value))).
Context (job : Job) (rb : Runbook) (def : JobDef) (r : Rt Value W).
Context (Hknown : known (job_id job) job rb def r).
Context (Hrunning : Job_is_terminal job = false) (Hwf : Job_wf job).
Context (Hkill : killable (Value:=Value) (W:=W) job).

(** C11. The circuit breaker.  A step of any kind that was entered more often than
    the limit is not run: the job ends at ["failed"] with the breaker's error,
    whatever its notification gives, no task is started in the background, and no
    agent is spawned (the outcome is the same whatever spawning would do).  Within
    the limit an unknown step is an error that changes nothing.  A known one is
    logged as started and the job is running in the state [r1]; then a shell step
    starts exactly one shell task, for the job, with its id and workspace as
    template variables, an agent step is the spawning of its agent, and a nested
    job is an error.  It takes that the job is known with its definition, is not
    terminal, and that its session can be killed. *)
Theorem start_step_guarded step input path :
  let id := job_id job in
  let out := start_step spawn_agent id step input path r in
  if (MAX_STEP_VISITS <? get_step_visits job step)%Z then
    job_ended id "failed"
      (failed_with job (breaker_error step (get_step_visits job step))) (rt_exec out.2) ∧
    tasks out.2 = tasks r ∧
    ∀ spawn_agent', start_step spawn_agent' id step input path r = out
  else
    match get_step step def with
    | None => out = (inl (Rt_JobNotFound ("step " +:+ step +:+ " not found")), r)
    | Some sd =>
        ∃ r1, rt_state r1 = apply_StepStarted (rt_envs r 0) id None None (rt_state r) ∧
          tasks r1 = tasks r ∧
          (∃ j', jobs (rt_state r1) !! id = Some j' ∧ job_step_status j' = Running) ∧
          match def_run sd with
          | Run_Shell cmd =>
              out.1 = inr [StepStarted id step None None] ∧ rt_state out.2 = rt_state r1 ∧
              ∃ t, tasks out.2 = (tasks r ++ [t])%list ∧ shell_task (W:=W) id step cmd path t
          | Run_Agent agent _ =>
              out = match spawn_agent id agent input r1 with
                    | (inr evs, r2) => (inr (StepStarted id step None None :: evs), r2)
                    | (inl e, r2) => (inl e, r2)
                    end
          | Run_Job other =>
              out = (inl (invalid_directive ("step " +:+ step) "nested job" other), r1)
          end
    end.
Proof.
  intros id out. subst id out.
  destruct (MAX_STEP_VISITS <? get_step_visits job step)%Z eqn:Hv.
  - assert (∀ spawn, start_step spawn (job_id job) step input path r
                     = break_circuit (job_id job) step job def r) as Hall.
    { intros spawn. by rewrite (start_step_known spawn _ job rb def), Hv by done. }
    rewrite !Hall. split; [| split; [apply tasks_break_circuit | exact Hall]].
    unfold break_circuit. cbv zeta. erewrite bind_ok by apply io_any. apply ends_then.
    + apply failure_ends; [done..|]. exists job.
      split; [exact (known_job _ _ _ _ _ Hknown) | by left].
    + intros evs. pose proof (outlook_emit_notify (W:=W) (Value:=Value) (job_id job)). solve_keeps.
  - destruct (get_step step def) as [sd|] eqn:Hsd.
    2: { by rewrite (start_step_known spawn_agent _ job rb def), Hv, Hsd by done. }
    destruct (start_step_begun spawn_agent (job_id job) job rb def step sd input path r)
      as (r1 & Hs & Ht & Hout); [done | lia | done |].
    exists r1. split; [done |]. split; [done |]. split.
    { rewrite Hs. unfold apply_StepStarted. rewrite (known_job _ _ _ _ _ Hknown). simpl.
      rewrite lookup_insert_eq. eexists. split; [reflexivity | done]. }
    rewrite Hout. unfold run_step. destruct (def_run sd) as [cmd|agent ?|other].
    + destruct (start_shell_spec (job_id job) step cmd job input path r1)
        as (r4 & t & Hr4 & Hs4 & Ht4 & Htask).
      erewrite bind_ok by exact Hr4. split_and!; [done | exact Hs4 |]. exists t. split; [| done].
      etrans; [exact Ht4 | by rewrite Ht].
    + unfold mbind, rt_bind. by destruct (spawn_agent (job_id job) agent input r1) as [[e|evs] r2].
    + done.
Qed.

(** ** Leaving an agent step *)

Lemma enter_step_frame now step j :
  job_runbook_hash (enter_step now step j) = job_runbook_hash j ∧
  job_kind (enter_step now step j) = job_kind j.
Proof.
  unfold enter_step. by destruct (Job_is_terminal j && _), (bool_decide _), (is_terminal_step step).
Qed.

Lemma step_started_sessions {V} env id (s : MaterializedState V) :
  sessions (apply_StepStarted env id None None s) = sessions s.
Proof. unfold apply_StepStarted. by destruct (jobs s !! id). Qed.

(** Events that leave the sessions alone, as the ones of a transition do. *)
Lemma transition_keeps_sessions {V} e1 e2 id step (s : MaterializedState V) :
  sessions (apply_StepStarted e2 id None None (apply_JobAdvanced e1 id step s)) = sessions s ∧
  (is_terminal_step step = false →
   ∀ j, jobs s !! id = Some j → Job_is_terminal j = false →
   ∃ j', jobs (apply_StepStarted e2 id None None (apply_JobAdvanced e1 id step s)) !! id = Some j' ∧
         job_session_id j' = job_session_id j).
Proof.
  split.
  - rewrite step_started_sessions. unfold apply_JobAdvanced. destruct (jobs s !! id) as [j|]; [destruct (advance_skips step j) |];
      by destruct (is_terminal_step step).
  - intros Ht j Hj Hr. unfold apply_JobAdvanced. rewrite Ht, Hj.
    destruct (advance_skips step j).
    + unfold apply_StepStarted. rewrite Hj. simpl. rewrite lookup_insert_eq.
      eexists. split; [reflexivity | done].
    + unfold apply_StepStarted. simpl. rewrite lookup_insert_eq. simpl. rewrite lookup_insert_eq.
      eexists. split; [reflexivity |].
      transitivity (job_session_id (enter_step (clock e1 0) step j)); [done |].
      rewrite (entered_session _ _ _ _ (advance_entered (clock e1 0) step j Ht)). by rewrite Hr.
Qed.
(** The state of the job between the agent step and the next one. *)
Lemma advanced_job sid env1 env2 next (s s2 : MaterializedState Value) :
  jobs s !! job_id job = Some job → job_session_id job = Some sid →
  s2 = apply_JobAdvanced env2 (job_id job) next
         (apply_StepCompleted env1 (job_id job) (apply_SessionDeleted sid s)) →
  is_terminal_step next = false → job_step job ≠ next →
  (get_step_visits job next < MAX_STEP_VISITS)%Z →
  sessions s2 !! sid = None ∧
  ∃ j, jobs s2 !! job_id job = Some j ∧ job_runbook_hash j = job_runbook_hash job ∧
    job_kind j = job_kind job ∧ (get_step_visits j next ≤ MAX_STEP_VISITS)%Z.
Proof.
  intros Hj Hsid -> Hnt Hne Hv.
  set (j2 := finalize_current_step Outcome_Completed (clock env1 0)
               (job_set_step_status Completed (job_set_session_id None job))).
  set (s1 := apply_StepCompleted env1 (job_id job) (apply_SessionDeleted sid s)).
  assert (jobs s1 !! job_id job = Some j2) as H2.
  { simpl. rewrite lookup_alter_eq, lookup_fmap, Hj. simpl. by rewrite bool_decide_true. }
  assert (advance_skips next j2 = false) as Hskip.
  { unfold advance_skips. change (job_step j2) with (job_step job).
    by rewrite (proj2 (String.eqb_neq _ _) Hne). }
  unfold apply_JobAdvanced. rewrite H2, Hskip, Hnt. split; [apply lookup_delete_eq |].
  exists (enter_step (clock env2 0) next j2). simpl. rewrite lookup_insert_eq.
  destruct (enter_step_frame (clock env2 0) next j2) as [-> ->]. split_and!; [done..|].
  rewrite (entered_visits _ _ _ _ (advance_entered (clock env2 0) next j2 Hnt)).
  change (get_step_visits j2 next) with (get_step_visits job next).
  pose proof (wf_visits job Hwf next) as Hwrap.
  pose proof (u32_wrap_range (Z.of_nat (entries_in next (tail (Job.step_name <$> job_step_history job)))))
    as Hr. rewrite <- Hwrap in Hr. unfold is_u32, MAX_STEP_VISITS in *.
  rewrite u32_wrap_small; unfold is_u32; lia.
Qed.

(** What the log misses when a job advances from an agent step to a shell
    step.  [advance_job] kills the session of the agent and drops it from the
    state, but discards the event that says so: it returns only the transition
    and the start of the step.  Replaying these events later leaves the dead
    session in the table and on the job. *)
Theorem advance_forgets_session sid session d next sd cmd :
  job_session_id job = Some sid → sessions (rt_state r) !! sid = Some session →
  get_step (job_step job) def = Some d → run_is_agent (def_run d) = true →
  def_on_done d = Some (mkStepTransition next) →
  get_step next def = Some sd → def_run sd = Run_Shell cmd →
  is_terminal_step next = false → job_step job ≠ next →
  (get_step_visits job next < MAX_STEP_VISITS)%Z →
  ∃ r', advance_job spawn_agent job r
          = (inr [JobAdvanced (job_id job) next; StepStarted (job_id job) next None None], r') ∧
    sessions (rt_state r') !! sid = None ∧
    ∀ e1 e2, let s := replay [(e1, JobAdvanced (job_id job) next);
                              (e2, StepStarted (job_id job) next None None)] (rt_state r) in
      sessions s !! sid = Some session ∧
      ∃ j', jobs s !! job_id job = Some j' ∧ job_session_id j' = Some sid.
Proof.
  intros Hsid Hsession Hd Hagent Hon Hsd Hrun Hnt Hne Hv.
  destruct Hknown as [Hj Hc Hdef].
  destruct (leave_agent_step_same job r Hj Hkill (Some d)) as (r1 & Hl & _ & Hcache & Hst).
  specialize (Hst d sid eq_refl Hagent Hsid).
  set (r2 := rt_apply (StepCompleted (job_id job) (job_step job)) r1).
  set (r3 := rt_set_exec (set_world (job_log (job_id job) (job_step job) ("advancing to " +:+ next)
                                       (ex_world (rt_exec r2))) (rt_exec r2)) r2).
  set (r4 := rt_apply (JobAdvanced (job_id job) next) r3).
  destruct (advanced_job sid (rt_envs r1 0) (rt_envs r2 0) next (rt_state r) (rt_state r4))
    as (Hgone & j4 & Hj4 & Hhash & Hkind & Hvis); [done | done | by rewrite <- Hst | done..|].
  destruct (start_shell_step spawn_agent (job_id job) j4 rb def next sd cmd (job_vars job)
    (execution_dir job) r4) as (r5 & t & Hstart & Hs5 & _); [| done..|].
  { split; [done | by rewrite Hhash, <- Hc, <- Hcache | by rewrite Hkind]. }
  exists r5. split; [| split].
  - unfold advance_job. rewrite Hrunning. erewrite bind_ok by (by apply cached_runbook_hit).
    cbv zeta. rewrite Hdef. simpl. rewrite Hd. erewrite bind_ok by exact Hl.
    erewrite bind_ok by reflexivity. simpl. rewrite Hon.
    erewrite bind_ok by apply io_any. erewrite bind_ok by apply exec_emit.
    simpl. rewrite Hsd. simpl. erewrite bind_ok by exact Hstart. done.
  - by rewrite Hs5, step_started_sessions.
  - intros e1 e2. simpl.
    destruct (transition_keeps_sessions e1 e2 (job_id job) next (rt_state r)) as [-> Hj'].
    split; [done |]. rewrite <- Hsid. by apply Hj'.
Qed.
End theorems.
