(* ===== verification/JobCreate.v ===== *)
(** The creation of jobs:
    [crates/engine/src/runtime/handlers/job_create.rs].

    [create_and_start_job] is split where its comments split it; each part is a
    definition.  Local variables are evaluated in the order in which the hash
    map of the definition is iterated. *)

From S2P Require Import Prelude Ids Runbook Bytes Vars Slug Entities Job Timer Event State Scheduler.
From S2P Require Import Effect Executor Runtime WorkerQueue JobRun.

Local Open Scope string_scope.

Record CreateJobParams {Value : Type} := mkCreateJobParams {
  cj_job_id : JobId;
  cj_job_name : string;
  cj_job_kind : string;
  cj_vars : gmap string string;
  cj_runbook_hash : string;
  cj_runbook_json : option Value;
  cj_runbook : Runbook;
  cj_namespace : string;
  cj_cron_name : option string
}.
Arguments CreateJobParams : clear implicits.
Arguments mkCreateJobParams : clear implicits.

(** The variables under their names and with the prefix [var.]; with both
    [x] and [var.x] given, the last insertion of the iteration wins. *)
Definition var_lookup (env : Env) (vars : gmap string string) : gmap string string :=
  foldl (λ m k, match vars !! k with
                | Some v => <["var." +:+ k := v]> (<[k := v]> m)
                | None => m
                end) ∅ (iter_order env TVars (dom vars)).

(** [s.contains(p)]. *)
Fixpoint contains (p s : string) : bool :=
  starts_with p s || match s with
                     | EmptyString => false
                     | String _ s' => contains p s'
                     end.

(** Where a job runs. *)
Record Place := mkPlace {
  place_path : PathBuf;
  place_has_workspace : bool;
  place_is_worktree : bool;
  place_workspace_id : string;
  place_vars : gmap string string
}.

(** [trimmed[2..trimmed.len() - 1]] of a whole [$(...)], else [printf] of the
    text in double quotes. *)
Definition local_script (value : string) : string :=
  let trimmed := trim value in
  if starts_with "$(" trimmed && ends_with ")" trimmed then
    take_str (String.length trimmed - 3) (drop_str 2 trimmed)
  else "printf '%s' " +:+ String dquote (value +:+ String dquote EmptyString).

Section JobCreate.
Context {Value W : Type} `{!Adapters Value W} `{!RuntimeIO Value W} `{!JsonItem Value}
  `{!TemplateRegex} `{!Processes W}.
Abbreviation M := (RT Value W) (only parsing).
Abbreviation Events := (list (Event Value)) (only parsing).
Abbreviation Ef := (Effect Value) (only parsing).
Context (spawn_agent : JobId → string → gmap string string → M Events).
Implicit Types (def : JobDef) (vars : gmap string string).

Abbreviation interp := (interpolate (runtime_env_var (W:=W))) (only parsing).

Definition invoke_dir vars : M PathBuf :=
  match vars !! "invoke.dir" with
  | Some dir => mret dir
  | None => gets (λ r, current_dir (ex_world (rt_exec r)))
  end.

(** ** The name and the place *)

Definition display_name (job_id : JobId) (job_name namespace : string) def vars : M string :=
  match def_job_name def with
  | Some name_template =>
      nonce ← short_id job_id 8;
      lookup ← lock_state_env (λ env _, var_lookup env vars);
      mret (job_display_name (interp name_template lookup) nonce namespace)
  | None => mret job_name
  end.

Definition workspace_place (job_id : JobId) (job_name : string) (ws : WorkspaceConfig) vars
    : M Place :=
  nonce ← short_id job_id 8;
  let ws_name := default job_name (strip_prefix "oj-" job_name) in
  let ws_id := if ends_with nonce ws_name then "ws-" +:+ ws_name
               else "ws-" +:+ ws_name +:+ "-" +:+ nonce in
  let path := path_join (path_join (state_dir (W:=W)) "workspaces") ws_id in
  mret (mkPlace path true (is_git_worktree ws) ws_id
          (<["workspace.nonce" := nonce]> (<["workspace.root" := path]>
            (<["workspace.id" := ws_id]> vars)))).

Definition choose_place (job_id : JobId) (job_name : string) def vars : M Place :=
  match def_cwd def, def_workspace def with
  | Some cwd, None => mret (mkPlace (interp cwd vars) false false "" vars)
  | _, Some ws => workspace_place job_id job_name ws vars
  | None, None => dir ← invoke_dir vars; mret (mkPlace dir false false "" vars)
  end.

(** ** The branch and the start point of a worktree *)

(** The output of a script, without its trailing newlines. *)
Definition eval_script (script : string) (desc failure : string) vars : M string :=
  cwd ← invoke_dir vars;
  output ← process (run_bash script cwd desc);
  if out_success output then mret (trim_end_char newline (out_stdout output))
  else throw (Rt_ShellError (failure +:+ " evaluation failed: " +:+ trim (out_stderr output))).

Definition workspace_block def : option WorkspaceBlock :=
  match def_workspace def with
  | Some (Workspace_Block block) => Some block
  | _ => None
  end.

Definition eval_workspace_ref (template : string) (lookup vars : gmap string string) : M string :=
  let value := interp template lookup in
  if contains "$(" value then
    eval_script ("printf '%s' " +:+ value) "evaluate workspace.ref" "workspace.ref" vars
  else mret value.

Definition worktree_vars (job_id : JobId) def vars : M (gmap string string) :=
  nonce ← short_id job_id 8;
  lookup ← lock_state_env (λ env _, var_lookup env vars);
  let branch_name := match workspace_block def ≫= block_branch with
                     | Some template => interp template lookup
                     | None => "ws-" +:+ nonce
                     end in
  let vars := <["workspace.branch" := branch_name]> vars in
  match workspace_block def ≫= block_from_ref with
  | Some template =>
      value ← eval_workspace_ref template lookup vars;
      mret (<["workspace.ref" := value]> vars)
  | None => mret vars
  end.

(** ** Local variables *)

Definition eval_local (key template : string) (lookup vars : gmap string string) : M string :=
  if contains "$(" template then
    let value := interpolate_shell (runtime_env_var (W:=W)) template lookup in
    eval_script (local_script value) ("evaluate local." +:+ key) ("local." +:+ key) vars
  else mret (interp template lookup).

Fixpoint eval_locals (locals : gmap string string) (keys : list string)
    (lookup vars : gmap string string) : M (gmap string string) :=
  match keys with
  | [] => mret vars
  | key :: keys' =>
      match locals !! key with
      | Some template =>
          value ← eval_local key template lookup vars;
          eval_locals locals keys' (<["local." +:+ key := value]> lookup)
            (<["local." +:+ key := value]> vars)
      | None => eval_locals locals keys' lookup vars
      end
  end.

Definition local_vars def vars : M (gmap string string) :=
  if bool_decide (def_locals def = ∅) then mret vars
  else
    lookup ← lock_state_env (λ env _, var_lookup env vars);
    keys ← lock_state_env (λ env _, iter_order env TLocals (dom (def_locals def)));
    eval_locals (def_locals def) keys lookup vars.

(** ** The effect that creates the workspace *)

Definition worktree_source (job_id : JobId) vars
    : M (option PathBuf * option string * option string) :=
  dir ← invoke_dir vars;
  output ← process (git_toplevel dir);
  if out_success output then
    branch ← match vars !! "workspace.branch" with
             | Some b => mret b
             | None => nonce ← short_id job_id 8; mret ("ws-" +:+ nonce)
             end;
    mret (Some (trim (out_stdout output)), Some branch,
          Some (default "HEAD" (vars !! "workspace.ref")))
  else throw (Rt_ShellError "git rev-parse --show-toplevel failed: not a git repository").

Definition workspace_effects (job_id : JobId) (place : Place) vars : M (list Ef) :=
  if place_has_workspace place then
    source ← (if place_is_worktree place then worktree_source job_id vars
              else mret (None, None, None));
    let '(repo_root, branch, start_point) := source in
    mret [CreateWorkspace (place_workspace_id place) (place_path place) (Some (Owner_Job job_id))
            (Some (if place_is_worktree place then "worktree" else "folder"))
            repo_root branch start_point]
  else mret [].

(** ** Creation *)

(** What is known when the job is recorded. *)
Record Prepared := mkPrepared {
  prep_name : string;
  prep_path : PathBuf;
  prep_vars : gmap string string;
  prep_effects : list Ef
}.

Definition prepare_job (p : CreateJobParams Value) def : M Prepared :=
  job_name ← display_name (cj_job_id p) (cj_job_name p) (cj_namespace p) def (cj_vars p);
  place ← choose_place (cj_job_id p) job_name def (cj_vars p);
  vars ← (if place_is_worktree place then worktree_vars (cj_job_id p) def (place_vars place)
          else mret (place_vars place));
  vars ← local_vars def vars;
  effects ← workspace_effects (cj_job_id p) place vars;
  mret (mkPrepared job_name (place_path place) vars effects).

(** Phase 1: the record of the job. *)
Definition record_job (p : CreateJobParams Value) def (prep : Prepared) : M Events :=
  let loaded := match cj_runbook_json p with
                | Some json => [Emit (RunbookLoaded (cj_runbook_hash p) 1 json)]
                | None => []
                end in
  vars ← job_namespaced (prep_vars prep);
  now ← lock_state_env (λ env _, clock env 0);
  let initial_step := default "init" (def_step_name <$> first_step def) in
  modify (rt_upd_cache (λ c, match c !! cj_runbook_hash p with
                             | Some _ => c
                             | None => <[cj_runbook_hash p := cj_runbook p]> c
                             end));;
  evs ← exec_effects (loaded ++ [Emit (JobCreated (cj_job_id p) (cj_job_kind p) (prep_name prep)
           (cj_runbook_hash p) (prep_path prep) vars initial_step now
           (cj_namespace p) (cj_cron_name p))])%list;
  io (job_log (cj_job_id p) "init" "job created");;
  o ← rt_get_job (cj_job_id p);
  match o with Some job => io (breadcrumb_write job) | None => mret tt end;;
  mret evs.

Definition notify_start (p : CreateJobParams Value) def (prep : Prepared) : M Events :=
  match notify_on_start (def_notify def) with
  | Some template =>
      vars ← job_namespaced (prep_vars prep);
      let vars := <["name" := prep_name prep]> (<["job_id" := cj_job_id p]> vars) in
      event ← exec_effect (Notify (prep_name prep) (interp template vars));
      mret (match event with Some ev => [ev] | None => [] end)
  | None => mret []
  end.

Definition start_first_step (p : CreateJobParams Value) def (prep : Prepared) : M Events :=
  match first_step def with
  | Some step => start_step spawn_agent (cj_job_id p) (def_step_name step) (prep_vars prep)
                   (prep_path prep)
  | None => mret []
  end.

(** Phase 2: the workspace, whose failure fails the job, and the first step. *)
Definition launch_job (p : CreateJobParams Value) def (prep : Prepared) : M Events :=
  match prep_effects prep with
  | [] => start_first_step p def prep
  | effects =>
      ws ← try_effects effects;
      match ws with
      | inr ws_events => evs ← start_first_step p def prep; mret (ws_events ++ evs)%list
      | inl e =>
          job ← require_job (cj_job_id p);
          fail_job spawn_agent job (ExecuteError_display e)
      end
  end.

Definition create_and_start_job (p : CreateJobParams Value) : M Events :=
  existing ← rt_get_job (cj_job_id p);
  match existing with
  | Some _ => mret []
  | None =>
      def ← ok_or (Rt_JobDefNotFound (cj_job_kind p)) (get_job_def (cj_job_kind p) (cj_runbook p));
      prep ← prepare_job p def;
      created ← record_job p def prep;
      notified ← notify_start p def prep;
      launched ← launch_job p def prep;
      mret (created ++ notified ++ launched)%list
  end.
End JobCreate.

Local Close Scope string_scope.
