(* ===== verification/Dispatch.v ===== *)
(** Dispatch of queue items:
    [crates/engine/src/runtime/handlers/worker/dispatch.rs].

    The fields of an item are visited in the order of its object, which is an
    iteration order of the environment. *)

From S2P Require Import Prelude Ids Runbook Bytes Vars Entities Job Timer Event State Scheduler Effect.
From S2P Require Import Executor Runtime WorkerQueue JobRun JobCreate.

Local Open Scope string_scope.

Section Dispatch.
Context {Value W : Type} `{!Adapters Value W} `{!RuntimeIO Value W} `{!JsonItem Value}
  `{!TemplateRegex} `{!Processes W}.
Abbreviation M := (RT Value W) (only parsing).
Abbreviation Events := (list (Event Value)) (only parsing).
Context (spawn_agent : JobId → string → gmap string string → M Events).
Implicit Types (item : Value) (st : WorkerState).

(** ** Items *)

Definition json_item_id item : string :=
  default "unknown" ((json_as_object item ≫= (λ o : gmap string Value, o !! "id")) ≫= json_as_str).

Definition field_text (v : Value) : string := default (json_to_string v) (json_as_str v).

(** The fields of an item under each prefix, inserted one after the other. *)
Definition item_fields (env : Env) (prefixes : list string) item (m : gmap string string)
    : gmap string string :=
  match json_as_object item with
  | Some obj =>
      foldl (λ m k, match obj !! k with
                    | Some v => foldl (λ m p, <[p +:+ "." +:+ k := field_text v]> m) m prefixes
                    | None => m
                    end) m (iter_order env TVars (dom obj))
  | None => m
  end.

(** ** A job for an item *)

Definition running_worker (worker_name : string) : M (option WorkerState) :=
  w ← get_worker_state worker_name;
  mret (w ≫= λ st, if bool_decide (wk_status st = Wk_Stopped) then None else Some st).

Definition track_job (worker_name : string) (id : JobId) (item_id : string) : M unit :=
  modify (rt_upd_workers (alter (λ st,
    wk_set_jobs (wk_active_jobs st ∪ {[id]}) (<[id := item_id]> (wk_item_job_map st)) st)
    worker_name)).

Definition dispatch_queue_item (worker_name : string) item : M Events :=
  let item_id := json_item_id item in
  w ← running_worker worker_name;
  match w with
  | None => mret []
  | Some st =>
      job_id ← next_id;
      runbook ← cached_runbook (wk_runbook_hash st);
      def ← ok_or (Rt_JobDefNotFound (wk_job_kind st)) (get_job_def (wk_job_kind st) runbook);
      input ← lock_state_env (λ env _,
        item_fields env ("item" :: match head (def_vars def) with
                                   | Some first_input => [first_input]
                                   | None => []
                                   end) item {["invoke.dir" := wk_project_root st]});
      created ← create_and_start_job spawn_agent (mkCreateJobParams Value job_id
                  (wk_job_kind st +:+ "-" +:+ item_id) (wk_job_kind st) input
                  (wk_runbook_hash st) None runbook (wk_namespace st) None);
      track_job worker_name job_id item_id;;
      dispatched ← exec_effects
        [Emit (WorkerItemDispatched worker_name item_id job_id (wk_namespace st))];
      io (worker_log (scoped_name (wk_namespace st) worker_name)
            ("dispatched item " +:+ item_id +:+ " → job " +:+ job_id));;
      mret (created ++ dispatched)%list
  end.

(** ** Polls *)

(** A slot is reserved and the item is in flight until its take command is
    done; an item in flight is skipped.  The result says whether the item was
    taken. *)
Definition take_external (worker_name : string) (take_template : option string) (cwd : PathBuf)
    item : M bool :=
  let item_id := json_item_id item in
  w ← get_worker_state worker_name;
  if match w with Some st => bool_decide (item_id ∈ wk_inflight_items st) | None => false end
  then mret false
  else
    vars ← lock_state_env (λ env _, item_fields env ["item"] item ∅);
    let take_command := interpolate_shell (runtime_env_var (W:=W))
                          (default "" take_template) vars in
    modify (rt_upd_workers (alter (λ st,
      wk_set_takes (u32_wrap (wk_pending_takes st + 1)) (wk_inflight_items st ∪ {[item_id]}) st)
      worker_name));;
    exec_effect (TakeQueueItem worker_name take_command cwd item_id item);;
    mret true.

(** An item that is not pending any more is skipped. *)
Definition take_persisted (worker_name queue_name namespace : string) item
    : M (option Events) :=
  let item_id := json_item_id item in
  still_pending ← lock_state (λ s,
    match find_item s (scoped_name namespace queue_name) item_id with
    | Some i => bool_decide (item_status i = Item_Pending)
    | None => false
    end);
  if (still_pending : bool) then
    taken ← exec_effects [Emit (QueueTaken queue_name item_id worker_name namespace)];
    evs ← dispatch_queue_item worker_name item;
    mret (Some (taken ++ evs)%list)
  else mret None.

(** What one item adds: whether it counts against the slots, and its events. *)
Definition dispatch_item (worker_name : string) st (take_template : option string) item
    : M (bool * Events) :=
  match wk_queue_type st with
  | External =>
      taken ← take_external worker_name take_template (wk_project_root st) item;
      mret (taken, [])
  | Persisted =>
      o ← take_persisted worker_name (wk_queue_name st) (wk_namespace st) item;
      mret (match o with Some evs => (true, evs) | None => (false, []) end)
  end.

(** The loop over the items, while slots are left. *)
Fixpoint dispatch_items (worker_name : string) st (take_template : option string)
    (available_slots : nat) (items : list Value) : M Events :=
  match available_slots, items with
  | S rest, item :: items' =>
      d ← dispatch_item worker_name st take_template item;
      let '(counted, own) := (d : bool * Events) in
      evs ← dispatch_items worker_name st take_template
              (if counted then rest else available_slots) items';
      mret (own ++ evs)%list
  | _, _ => mret []
  end.

Definition active_count st : Z :=
  u32_wrap (u32_wrap (Z.of_nat (size (wk_active_jobs st))) + wk_pending_takes st).

(** [saturating_sub]. *)
Definition available_slots st : Z := Z.max 0 (wk_concurrency st - active_count st).

Definition set_running (worker_name : string) : M unit :=
  modify (rt_upd_workers (alter (wk_set_status Wk_Running) worker_name)).

Definition handle_worker_poll_complete (worker_name : string) (items : list Value) : M Events :=
  loaded ← refresh_events worker_name;
  w ← running_worker worker_name;
  match w with
  | None => mret loaded
  | Some st =>
      if bool_decide (available_slots st = 0%Z) || bool_decide (items = []) then
        io (worker_log (scoped_name (wk_namespace st) worker_name)
              ("idle (active=" +:+ pretty (active_count st) +:+ "/" +:+
               pretty (wk_concurrency st) +:+ ")"));;
        set_running worker_name;;
        mret loaded
      else
        runbook ← cached_runbook (wk_runbook_hash st);
        queue_def ← ok_or (Rt_WorkerNotFound ("queue '" +:+ wk_queue_name st +:+ "' not found"))
                      (get_queue (wk_queue_name st) runbook);
        set_running worker_name;;
        evs ← dispatch_items worker_name st (qdef_take queue_def)
                (Z.to_nat (available_slots st)) items;
        mret (loaded ++ evs)%list
  end.

(** ** The end of a take command *)

Definition handle_worker_take_complete (worker_name item_id : string) item (exit_code : Z)
    (stderr : option string) : M Events :=
  modify (rt_upd_workers (alter (λ st,
    wk_set_takes (Z.max 0 (wk_pending_takes st - 1)) (wk_inflight_items st) st) worker_name));;
  if bool_decide (exit_code ≠ 0%Z) then
    let err_msg := default "unknown error" stderr in
    w ← get_worker_state worker_name;
    let namespace := default "" (wk_namespace <$> w) in
    modify (rt_upd_workers (alter (λ st,
      wk_set_takes (wk_pending_takes st) (wk_inflight_items st ∖ {[item_id]}) st) worker_name));;
    io (worker_log (scoped_name namespace worker_name)
          ("error: take command failed for item " +:+ item_id +:+ ": " +:+ err_msg));;
    mret []
  else
    loaded ← refresh_events worker_name;
    evs ← dispatch_queue_item worker_name item;
    mret (loaded ++ evs)%list.
End Dispatch.

Local Close Scope string_scope.
