(* ===== verification/DispatchSpec.v ===== *)
(** What the creation of a job guarantees: a job whose workspace cannot be made
    is recorded and failed. *)

From S2P Require Import Prelude Ids Runbook Bytes Vars Slug Entities Job Timer Event State Scheduler.
From S2P Require Import Effect Executor Runtime WorkerQueue JobRun JobRunSpec JobCreate Dispatch.

Local Open Scope string_scope.

Section prepare.
Context {Value W : Type} `{!Adapters Value W} `{!RuntimeIO Value W} `{!JsonItem Value}
  `{!TemplateRegex} `{!Processes W}.
Implicit Types (r : Rt Value W).

(** The jobs of the state and the runbook cache. *)
Definition records r : gmap string Job * gmap string Runbook := (jobs (rt_state r), rt_cache r).

Lemma records_process f : keeps (Value:=Value) (W:=W) records (process f).
Proof. intros r. unfold process, try_io. by destruct (f _) as [[e|o] w]. Qed.

Lemma records_lock_state_env {A} (g : Env → MaterializedState Value → A) :
  keeps records (lock_state_env g).
Proof. done. Qed.

Lemma records_invoke_dir vars : keeps (Value:=Value) (W:=W) records (invoke_dir vars).
Proof. unfold invoke_dir. solve_keeps. Qed.

#[local] Hint Resolve records_process records_lock_state_env records_invoke_dir : oj.

Lemma records_short_id id n : keeps (Value:=Value) (W:=W) records (short_id id n).
Proof. apply keeps_ok_or. Qed.
#[local] Hint Resolve records_short_id : oj.

Lemma records_eval_script script desc failure vars :
  keeps (Value:=Value) (W:=W) records (eval_script script desc failure vars).
Proof. unfold eval_script. solve_keeps. Qed.
#[local] Hint Resolve records_eval_script : oj.

Lemma records_eval_locals locals keys lookup vars :
  keeps (Value:=Value) (W:=W) records (eval_locals locals keys lookup vars).
Proof.
  revert lookup vars. induction keys as [|k keys IH]; intros lookup vars; simpl;
    unfold eval_local; solve_keeps.
Qed.
#[local] Hint Resolve records_eval_locals : oj.

Lemma records_prepare p def : keeps (Value:=Value) (W:=W) records (prepare_job p def).
Proof.
  unfold prepare_job, display_name, choose_place, workspace_place, worktree_vars,
    eval_workspace_ref, local_vars, workspace_effects, worktree_source.
  solve_keeps.
Qed.

(** What a preparation leaves to do about the workspace. *)
Lemma prepare_effects (p : CreateJobParams Value) def r prep r1 :
  prepare_job p def r = (inr prep, r1) →
  prep_effects prep = [] ∨
  ∃ ws path ty root branch start,
    prep_effects prep
    = [CreateWorkspace ws path (Some (Owner_Job (cj_job_id p))) ty root branch start].
Proof.
  unfold prepare_job. intros Heq. inv_bind Heq. injection Heq as <- _. simpl.
  match goal with H : workspace_effects _ ?pl _ _ = _ |- _ =>
    unfold workspace_effects in H; destruct (place_has_workspace pl) end.
  2: { match goal with H : mret [] _ = _ |- _ => injection H as <- _ end. by left. }
  match goal with H : (_ ≫= _) _ = (inr ?l, _) |- (?l = [] ∨ _) => inv_bind H;
    repeat case_match; injection H as <- _ end.
  all: right; eauto 10.
Qed.
End prepare.

(** ** A workspace that cannot be made *)

Section failed_workspace.
Context {Value W : Type} `{!Adapters Value W} `{!RuntimeIO Value W} `{!JsonItem Value}
  `{!TemplateRegex} `{!Processes W}.
Context (spawn_agent : JobId → string → gmap string string → RT Value W (list (Event Value))).
Context (p : CreateJobParams Value) (def : JobDef).
Implicit Types (r : Rt Value W).
Abbreviation id := (cj_job_id p).
Abbreviation rb := (cj_runbook p).

Definition initial_step : string := default "init" (def_step_name <$> first_step def).

(** The job as it was created: at its first step, with no session. *)
Definition fresh (j : Job) : Prop :=
  job_id j = id ∧ job_kind j = cj_job_kind p ∧ job_runbook_hash j = cj_runbook_hash p ∧
  job_step j = initial_step ∧ job_session_id j = None ∧ Job_wf j.

(** The records of a runtime that has created the job. *)
Definition created (m : gmap string Job * gmap string Runbook) : Prop :=
  m.2 !! cj_runbook_hash p = Some rb ∧ ∃ j, m.1 !! id = Some j ∧ fresh j.

Lemma created_env env kind name cwd vars now ns cron (s : MaterializedState Value) :
  kind = cj_job_kind p →
  ∃ j, jobs (apply_JobCreated env id kind name (cj_runbook_hash p) cwd vars initial_step now
               ns cron s) !! id = Some j ∧ fresh j.
Proof.
  intros ->. unfold apply_JobCreated. simpl. rewrite lookup_insert_eq. eexists. split; [done |].
  unfold fresh. destruct cron; (split_and!; [done..| apply Job_wf_new]).
Qed.

(** The first phase records the job and the runbook. *)
Lemma record_job_created prep r :
  rt_cache r !! cj_runbook_hash p = None ∨ rt_cache r !! cj_runbook_hash p = Some rb →
  ∃ evs r', record_job p def prep r = (inr evs, r') ∧ created (records r').
Proof.
  intros Hc. unfold record_job. cbv zeta.
  erewrite bind_ok by reflexivity. erewrite bind_ok by reflexivity.
  erewrite bind_ok by reflexivity.
  set (r1 := rt_upd_cache _ _).
  assert (Hc1 : rt_cache r1 !! cj_runbook_hash p = Some rb).
  { subst r1. simpl. destruct Hc as [->| Hc]; [by rewrite lookup_insert_eq |].
    by rewrite Hc. }
  match goal with |- context [exec_effects ?effs ≫= _] =>
    assert (∃ evs r2, exec_effects effs r1 = (inr evs, r2) ∧ created (records r2))
      as (evs & r2 & Hr2 & Hcr) end.
  { destruct (cj_runbook_json p) as [json|]; do 2 eexists; (split; [reflexivity |]);
      (split; [exact Hc1 |]); by apply created_env. }
  erewrite bind_ok by exact Hr2. rewrite io_then. erewrite bind_ok by reflexivity.
  match goal with |- context [get_job ?s id] => destruct (get_job s id) end;
    do 2 eexists; (split; [reflexivity |]); exact Hcr.
Qed.

Lemma notify_start_records prep r :
  ∃ evs r', notify_start p def prep r = (inr evs, r') ∧ records r' = records r.
Proof.
  unfold notify_start. destruct (notify_on_start (def_notify def)); [| by do 2 eexists].
  unfold job_namespaced. erewrite bind_ok by reflexivity. cbv zeta.
  erewrite bind_ok by reflexivity. by do 2 eexists.
Qed.

(** Making a workspace changes the job's workspace fields only. *)
Lemma create_workspace_fresh env ws path ty root branch start (x : Exec Value W) j :
  jobs (ex_state x) !! id = Some j → fresh j →
  ∃ j', jobs (ex_state (execute env
          (CreateWorkspace ws path (Some (Owner_Job id)) ty root branch start) x).2) !! id
        = Some j' ∧ fresh j'.
Proof.
  intros Hj (H1 & H2 & H3 & H4 & H5 & H6).
  exists (job_set_workspace_id (Some ws) (job_set_workspace_path (Some path) j)).
  split; [| unfold fresh; split_and!; [done..| by apply (Job_wf_same j)]].
  cbn [execute]. unfold execute_create_workspace.
  set (x1 := apply_now _ _ _).
  assert (Hx : jobs (ex_state x1) !! id
    = Some (job_set_workspace_id (Some ws) (job_set_workspace_path (Some path) j))).
  { subst x1. simpl. by rewrite lookup_alter_eq, Hj. }
  clearbody x1. unfold call. repeat case_match; simplify_eq/=; exact Hx.
Qed.

Definition no_failure_step : Prop :=
  get_step initial_step def ≫= def_on_fail = None ∧ def_job_on_fail def = None.

Lemma launch_job_fails prep r ws path ty root branch start :
  prep_effects prep = [CreateWorkspace ws path (Some (Owner_Job id)) ty root branch start] →
  (∀ envs x, ∃ e, (execute_all (Adapters0:=Adapters0) envs (prep_effects prep) x).1 = inl e) →
  get_job_def (cj_job_kind p) rb = Some def → is_terminal_step initial_step = false →
  no_failure_step → created (records r) →
  ∃ j e, fresh j ∧ job_ended id "failed" (failed_with j (ExecuteError_display e))
                 (rt_exec (launch_job spawn_agent p def prep r).2).
Proof.
  intros Heff Hfail Hdef Hstep [Hroute Hroute'] [Hc (j & Hj & Hfresh)].
  unfold launch_job. rewrite Heff. unfold mbind at 1, rt_bind at 1, try_effects.
  destruct (Hfail (rt_envs r) (rt_exec r)) as [e He]. rewrite Heff in He.
  destruct (create_workspace_fresh (rt_envs r 0) ws path ty root branch start (rt_exec r) j)
    as (j' & Hj' & Hfresh'); [done | done |].
  cbn [execute_all] in He |- *.
  destruct (execute (rt_envs r 0) _ (rt_exec r)) as [[e'|o] x]; [| done].
  simpl in He, Hj'. injection He as ->.
  destruct Hfresh' as (H1 & H2 & H3 & H4 & H5 & H6). exists j', e.
  split; [unfold fresh; auto 10 |].
  erewrite bind_ok by (apply require_job_known; exact Hj').
  rewrite <- H1. rewrite <- H1 in Hj'. apply (fail_job_ended spawn_agent j') with (rb := rb).
  - exact Hj'.
  - unfold Job_is_terminal. by rewrite H4.
  - done.
  - intros sid w Hsid. congruence.
  - simpl. rewrite H3. exact Hc.
  - unfold no_route, current_step, job_def. rewrite H2, Hdef, H4. simpl.
    split; [done |]. intros t. by rewrite Hroute'.
Qed.

(** A job whose workspace cannot be made is not lost: when the id is new,
    the rest of the preparation succeeds and making the workspace fails, the
    job is recorded at its first step and then ends at ["failed"] with the error
    of the workspace, unless a step for failures is configured. *)
Theorem failed_workspace_fails_job r prep r1 :
  get_job (rt_state r) id = None →
  rt_cache r !! cj_runbook_hash p = None ∨ rt_cache r !! cj_runbook_hash p = Some rb →
  get_job_def (cj_job_kind p) rb = Some def →
  prepare_job p def r = (inr prep, r1) → prep_effects prep ≠ [] →
  (∀ envs x, ∃ e, (execute_all (Adapters0:=Adapters0) envs (prep_effects prep) x).1 = inl e) →
  is_terminal_step initial_step = false → no_failure_step →
  ∃ j e, fresh j ∧ job_ended id "failed" (failed_with j (ExecuteError_display e))
                 (rt_exec (create_and_start_job spawn_agent p r).2).
Proof.
  intros Hnew Hc Hdef Hprep Hne Hfail Hstep Hroute.
  destruct (prepare_effects _ _ _ _ _ Hprep) as [?|(ws & path & ty & root & br & start & Heff)];
    [done |].
  pose proof (records_prepare p def r) as Hrec. rewrite Hprep in Hrec. simpl in Hrec.
  unfold create_and_start_job. erewrite bind_ok by reflexivity. rewrite Hnew.
  rewrite Hdef. erewrite bind_ok by reflexivity. erewrite bind_ok by exact Hprep.
  destruct (record_job_created prep r1) as (evs & r2 & Hr2 & Hcr).
  { injection Hrec as _ ->. exact Hc. }
  erewrite bind_ok by exact Hr2.
  destruct (notify_start_records prep r2) as (evs' & r3 & Hr3 & Heq).
  erewrite bind_ok by exact Hr3. rewrite <- Heq in Hcr.
  destruct (launch_job_fails prep r3 ws path ty root br start) as (j & e & Hj & He); [done..|].
  exists j, e. split; [done |]. unfold mbind, rt_bind.
  destruct (launch_job spawn_agent p def prep r3) as [[?|?] r4]; exact He.
Qed.
End failed_workspace.

Local Close Scope string_scope.

(** What dispatch guarantees: an external queue never takes more items than the
    worker has free slots, nor an item twice. *)

Local Open Scope string_scope.

Section external.
Context {Value W : Type} `{!Adapters Value W} `{!RuntimeIO Value W} `{!JsonItem Value}
  `{!TemplateRegex} `{!Processes W}.
Context (spawn_agent : JobId → string → gmap string string → RT Value W (list (Event Value))).
Context (name : string).
Implicit Types (r : Rt Value W) (st : WorkerState) (items : list Value).

(** The item a background task takes for the worker. *)
Definition taken_item (t : Task Value) : option string :=
  match t with
  | TakeTask worker _ _ item_id _ => if String.eqb worker name then Some item_id else None
  | _ => None
  end.

(** The worker after it has taken [ids]. *)
Definition with_taken (ids : list string) st : WorkerState :=
  wk_set_takes (u32_wrap (wk_pending_takes st + Z.of_nat (length ids)))
    (wk_inflight_items st ∪ list_to_set ids) st.

Lemma with_taken_cons i ids st :
  with_taken ids (wk_set_takes (u32_wrap (wk_pending_takes st + 1))
                    (wk_inflight_items st ∪ {[i]}) st)
  = with_taken (i :: ids) st.
Proof.
  unfold with_taken, wk_set_takes. destruct st. simpl.
  rewrite u32_wrap_add_l. f_equal; [f_equal; lia | set_solver].
Qed.

(** The tasks that were started take exactly the items [ids]. *)
Definition takes r r' (ids : list string) : Prop :=
  ∃ ts, tasks r' = (tasks r ++ ts)%list ∧ taken_item <$> ts = Some <$> ids.

Lemma take_external_spec template cwd item r st :
  rt_workers r !! name = Some st →
  ∃ r', take_external name template cwd item r
        = (inr (negb (bool_decide (json_item_id item ∈ wk_inflight_items st))), r') ∧
    if bool_decide (json_item_id item ∈ wk_inflight_items st) then r' = r
    else rt_workers r' !! name
           = Some (wk_set_takes (u32_wrap (wk_pending_takes st + 1))
                     (wk_inflight_items st ∪ {[json_item_id item]}) st) ∧
         takes r r' [json_item_id item].
Proof.
  intros Hw. unfold take_external. cbv zeta. unfold get_worker_state.
  erewrite bind_ok by reflexivity. rewrite Hw. case_bool_decide as Hin.
  { exists r. done. }
  erewrite bind_ok by reflexivity. erewrite bind_ok by reflexivity.
  eexists. split; [reflexivity |]. simpl. rewrite lookup_alter_eq, Hw. split; [done |].
  eexists [_]. split; [reflexivity |]. simpl. by rewrite String.eqb_refl.
Qed.

Lemma takes_trans r1 r2 r3 ids1 ids2 :
  takes r1 r2 ids1 → takes r2 r3 ids2 → takes r1 r3 (ids1 ++ ids2).
Proof.
  intros (t1 & H1 & E1) (t2 & H2 & E2). exists (t1 ++ t2)%list.
  rewrite H2, H1, !fmap_app, E1, E2. by rewrite app_assoc.
Qed.

Lemma takes_nil r r' : tasks r' = tasks r → takes r r' [].
Proof. intros Ht. exists []. by rewrite app_nil_r. Qed.

Lemma with_taken_nil st : is_u32 (wk_pending_takes st) → with_taken [] st = st.
Proof.
  intros Hu. unfold with_taken, wk_set_takes. destruct st. simpl in *.
  rewrite Z.add_0_r, u32_wrap_small by done. by rewrite (right_id_L ∅ (∪)).
Qed.

Lemma inflight_with_taken ids st i :
  i ∈ wk_inflight_items (with_taken ids st) ↔ i ∈ wk_inflight_items st ∨ i ∈ ids.
Proof. simpl. set_solver. Qed.

(** What the loop over the items of an external queue does. *)
Definition looped (items : list Value) (n : nat) st r r' (ids : list string) : Prop :=
  (length ids ≤ n)%nat ∧ NoDup ids ∧ (∀ i, i ∈ ids → i ∉ wk_inflight_items st) ∧
  rt_workers r' !! name = Some (with_taken ids st) ∧ takes r r' ids ∧
  (length ids = n ∨ ∀ item, item ∈ items →
     json_item_id item ∈ wk_inflight_items (with_taken ids st)).

Lemma looped_none items n st r :
  is_u32 (wk_pending_takes st) → rt_workers r !! name = Some st → n = 0 ∨ items = [] →
  looped items n st r r [].
Proof.
  intros Hu Hw Hn. split; [simpl; lia |]. split; [constructor |]. split; [set_solver |].
  split; [by rewrite with_taken_nil |]. split; [by apply takes_nil |].
  destruct Hn as [->| ->]; [by left | right; set_solver].
Qed.

Lemma dispatch_items_external st0 template items : ∀ n r st,
  wk_queue_type st0 = External → rt_workers r !! name = Some st →
  is_u32 (wk_pending_takes st) →
  ∃ ids r', dispatch_items spawn_agent name st0 template n items r = (inr [], r') ∧
    looped items n st r r' ids.
Proof.
  induction items as [|item items IH]; intros n r st Hty Hw Hu.
  { exists [], r. split; [by destruct n |]. apply looped_none; auto. }
  destruct n as [|n].
  { exists [], r. split; [done |]. apply looped_none; auto. }
  cbn [dispatch_items]. unfold dispatch_item. rewrite Hty.
  destruct (take_external_spec template (wk_project_root st0) item r st Hw) as (r1 & Hr1 & Hcase).
  erewrite bind_ok by (erewrite bind_ok by exact Hr1; reflexivity). cbv beta iota.
  case_bool_decide as Hin; cbn [negb].
  - subst r1. destruct (IH (S n) r st Hty Hw Hu) as (ids & r' & Hr' & H1 & H2 & H3 & H4 & H5 & H6).
    erewrite bind_ok by exact Hr'. exists ids, r'. split; [done |]. split_and!; try done.
    destruct H6 as [?|H6]; [by left | right]. intros i [->|Hi]%elem_of_cons; [| by apply H6].
    apply inflight_with_taken. by left.
  - destruct Hcase as [Hw1 Ht1].
    destruct (IH n r1 _ Hty Hw1 (u32_wrap_range _)) as (ids & r' & Hr' & H1 & H2 & H3 & H4 & H5 & H6).
    rewrite with_taken_cons in H4, H6. simpl in H3.
    erewrite bind_ok by exact Hr'. exists (json_item_id item :: ids), r'. split; [done |].
    split_and!.
    + simpl. lia.
    + constructor; [| done]. intros Hi. apply (H3 _ Hi). set_solver.
    + intros i [->|Hi]%elem_of_cons; [done |]. specialize (H3 _ Hi). set_solver.
    + done.
    + exact (takes_trans _ _ _ [_] _ Ht1 H5).
    + destruct H6 as [<-|H6]; [by left | right]. intros i [->|Hi]%elem_of_cons; [| by apply H6].
      apply inflight_with_taken. right. by left.
Qed.

(** Refreshing the runbook of the worker changes the hash of its runbook, at
    most. *)
Lemma refresh_events_spec r st :
  rt_workers r !! name = Some st →
  ∃ h, rt_workers (refresh_events name r).2 !! name = Some (wk_set_runbook_hash h st) ∧
       tasks (refresh_events name r).2 = tasks r.
Proof.
  intros Hw. assert (Hsame : wk_set_runbook_hash (wk_runbook_hash st) st = st) by by destruct st.
  unfold refresh_events, refresh_worker_runbook, mbind, rt_bind, gets. rewrite Hw.
  destruct (find_runbook_by_worker _ _ _) as [e|[rb|]]; simpl.
  1, 3: exists (wk_runbook_hash st); by rewrite Hsame.
  unfold lift_result. destruct (runbook_digest rb) as [e|[json h]]; simpl.
  { exists (wk_runbook_hash st). by rewrite Hsame. }
  destruct (String.eqb _ h); simpl.
  { exists (wk_runbook_hash st). by rewrite Hsame. }
  exists h. by rewrite lookup_alter_eq, Hw.
Qed.

(** The worker and the tasks are those of before, up to the runbook and the
    status. *)
Definition same_slots st st' : Prop :=
  wk_active_jobs st' = wk_active_jobs st ∧ wk_concurrency st' = wk_concurrency st ∧
  wk_queue_type st' = wk_queue_type st ∧ wk_pending_takes st' = wk_pending_takes st ∧
  wk_inflight_items st' = wk_inflight_items st.

(** The outcome of a poll, when it takes the items [ids]. *)
Definition polled items st r (out : (RuntimeError + list (Event Value)) * Rt Value W)
    (ids : list string) : Prop :=
  ∃ st1 st', same_slots st st1 ∧ st' = with_taken ids st1 ∧
    rt_workers out.2 !! name = Some st' ∧
    NoDup ids ∧ (∀ i, i ∈ ids → i ∉ wk_inflight_items st) ∧ takes r out.2 ids ∧
    (Z.of_nat (length ids) ≤ available_slots st)%Z ∧
    match out.1 with
    | inr _ => Z.of_nat (length ids) = available_slots st ∨
               ∀ item, item ∈ items → json_item_id item ∈ wk_inflight_items st'
    | inl _ => ids = []
    end.

Lemma polled_none items st st1 r out :
  is_u32 (wk_pending_takes st) → same_slots st st1 → rt_workers out.2 !! name = Some st1 →
  tasks out.2 = tasks r →
  (∀ evs, out.1 = inr evs → available_slots st = 0%Z ∨ items = []) → polled items st r out [].
Proof.
  intros Hu Hs Hw Ht Hout. exists st1, st1. split; [done |].
  pose proof Hs as (_ & _ & _ & Hp & _).
  split; [by rewrite with_taken_nil by (by rewrite Hp) |]. split; [done |].
  split; [constructor |]. split; [set_solver |]. split; [by apply takes_nil |].
  split; [simpl; unfold available_slots; lia |].
  destruct out.1 as [e|evs]; [done |]. destruct (Hout evs eq_refl) as [->| ->]; [by left |].
  right. set_solver.
Qed.

Lemma cached_runbook_frame hash r :
  rt_workers (cached_runbook hash r).2 = rt_workers r ∧ tasks (cached_runbook hash r).2 = tasks r.
Proof.
  unfold cached_runbook, mbind, rt_bind, gets. destruct (rt_cache r !! hash); [done |]. simpl.
  destruct (runbooks _ !! hash) as [stored|]; [| done]. simpl.
  by destruct (runbook_from_json _).
Qed.

Lemma poll_external r st items :
  rt_workers r !! name = Some st → wk_status st = Wk_Running → wk_queue_type st = External →
  is_u32 (wk_pending_takes st) →
  ∃ ids, polled items st r (handle_worker_poll_complete spawn_agent name items r) ids.
Proof.
  intros Hw Hs Hty Hu. destruct (refresh_events_spec r st Hw) as (h & Hw1 & Ht1).
  unfold handle_worker_poll_complete. unfold mbind at 1, rt_bind at 1.
  destruct (refresh_events name r) as [[e|loaded] r1]; simpl in Hw1, Ht1.
  { exists []. eapply polled_none; [done | | exact Hw1 | done | done]. by destruct st. }
  set (st1 := wk_set_runbook_hash h st) in *.
  assert (Hst1 : same_slots st st1) by by destruct st.
  unfold running_worker, get_worker_state.
  erewrite bind_ok by (erewrite bind_ok by reflexivity; reflexivity). rewrite Hw1.
  cbn [mbind option_bind].
  rewrite bool_decide_false by (subst st1; simpl; congruence).
  assert (Hav : available_slots st1 = available_slots st) by by destruct st.
  rewrite Hav. case_bool_decide as Ha; [| case_bool_decide as Hi]; cbn [orb].
  1, 2: rewrite io_then; erewrite bind_ok by reflexivity; exists [];
    apply polled_none with (st1 := wk_set_status Wk_Running st1); [done | by destruct st | | done
      | by auto]; simpl; by rewrite lookup_alter_eq, Hw1.
  unfold mbind at 1, rt_bind at 1.
  pose proof (cached_runbook_frame (wk_runbook_hash st1) r1) as [Hf1 Hf2].
  destruct (cached_runbook (wk_runbook_hash st1) r1) as [[e|rb] r2]; simpl in Hf1, Hf2.
  { exists []. eapply polled_none; [done | exact Hst1 | | simpl; congruence | done].
    simpl. by rewrite Hf1. }
  destruct (get_queue (wk_queue_name st1) rb) as [qd|]; simpl.
  2: { exists []. eapply polled_none; [done | exact Hst1 | | simpl; congruence | done].
       simpl. by rewrite Hf1. }
  erewrite bind_ok by reflexivity. erewrite bind_ok by reflexivity.
  set (st2 := wk_set_status Wk_Running st1). set (r3 := rt_upd_workers _ r2).
  assert (Hst2 : same_slots st st2) by by destruct st.
  assert (Hw3 : rt_workers r3 !! name = Some st2).
  { subst r3. simpl. by rewrite Hf1, lookup_alter_eq, Hw1. }
  pose proof Hst2 as (_ & _ & _ & Hp & Hfl).
  destruct (dispatch_items_external st1 (qdef_take qd) items (Z.to_nat (available_slots st)) r3 st2)
    as (ids & r' & Hr' & H1 & H2 & H3 & H4 & H5 & H6); [done | done | by rewrite Hp |].
  erewrite bind_ok by exact Hr'. exists ids, st2, (with_taken ids st2).
  rewrite Hfl in H3. split_and!; try done.
  - destruct H5 as (ts & Hts & Hids). exists ts. split; [| done].
    transitivity (tasks r'); [done |]. rewrite Hts.
    change (tasks r3) with (tasks r2). by rewrite Hf2, Ht1.
  - unfold available_slots in *. lia.
  - simpl. destruct H6 as [->|H6]; [left | by right]. unfold available_slots in *. lia.
Qed.

(** A poll of an external queue takes items for free slots only: every
    item it takes was not in flight, none is taken twice, each gets one take
    command in the background and is in flight and counted from then on, and
    active jobs and pending takes together stay within the concurrency if they
    were.  If the poll succeeds, either no slot is left or all the items are
    in flight. *)
Theorem external_poll_bounded r st items :
  rt_workers r !! name = Some st → wk_status st = Wk_Running → wk_queue_type st = External →
  is_u32 (wk_pending_takes st) → is_u32 (wk_concurrency st) →
  (Z.of_nat (size (wk_active_jobs st)) + wk_pending_takes st ≤ wk_concurrency st)%Z →
  let out := handle_worker_poll_complete spawn_agent name items r in
  ∃ ids st', rt_workers out.2 !! name = Some st' ∧
    wk_active_jobs st' = wk_active_jobs st ∧
    wk_inflight_items st' = wk_inflight_items st ∪ list_to_set ids ∧
    wk_pending_takes st' = (wk_pending_takes st + Z.of_nat (length ids))%Z ∧
    NoDup ids ∧ (∀ i, i ∈ ids → i ∉ wk_inflight_items st) ∧ takes r out.2 ids ∧
    (Z.of_nat (size (wk_active_jobs st')) + wk_pending_takes st' ≤ wk_concurrency st)%Z ∧
    (∀ evs, out.1 = inr evs →
       (Z.of_nat (size (wk_active_jobs st')) + wk_pending_takes st' = wk_concurrency st)%Z ∨
       ∀ item, item ∈ items → json_item_id item ∈ wk_inflight_items st').
Proof.
  intros Hw Hs Hty Hu Hc Hle out. subst out.
  destruct (poll_external r st items Hw Hs Hty Hu)
    as (ids & st1 & st' & Hst & -> & Hw' & Hnd & Hni & Ht & Hlen & Hout).
  destruct Hst as (Ha & Hcc & _ & Hp & Hf).
  assert (Hav : available_slots st
    = (wk_concurrency st - (Z.of_nat (size (wk_active_jobs st)) + wk_pending_takes st))%Z).
  { unfold available_slots, active_count, is_u32 in *.
    rewrite (u32_wrap_small (Z.of_nat _)) by (unfold is_u32; lia).
    rewrite u32_wrap_small by (unfold is_u32; lia). lia. }
  assert (Hpend : wk_pending_takes (with_taken ids st1)
    = (wk_pending_takes st + Z.of_nat (length ids))%Z).
  { simpl. rewrite Hp. unfold is_u32 in *. apply u32_wrap_small. unfold is_u32. lia. }
  exists ids, (with_taken ids st1). rewrite Hpend. split_and!; try done.
  - simpl. by rewrite Hf.
  - simpl. rewrite Ha. lia.
  - intros evs Hevs. rewrite Hevs in Hout. simpl wk_active_jobs. rewrite Ha.
    destruct Hout as [Hl|Hl]; [left; lia | by right].
Qed.
End external.

Local Close Scope string_scope.
