(* ===== verification/Monitor.v ===== *)
(** What to do about an agent: [crates/engine/src/monitor.rs]. *)

From S2P Require Import Prelude Ids Runbook Bytes Vars Slug Entities Job Timer Event State Scheduler.
From S2P Require Import Effect Executor Runtime WorkerQueue DecisionBuilder JobRun JobCreate.

Local Open Scope string_scope.

Record ActionContext := mkActionContext {
  ctx_agent_def : AgentDef;
  ctx_action_config : ActionConfig;
  ctx_trigger : string;
  ctx_chain_pos : N;
  ctx_question_data : option QuestionData;
  ctx_assistant_context : option string
}.

(** The same context with another action and trigger: [..*ctx]. *)
Definition ctx_with (config : ActionConfig) (trigger : string) (c : ActionContext) : ActionContext :=
  mkActionContext (ctx_agent_def c) config trigger (ctx_chain_pos c) (ctx_question_data c)
    (ctx_assistant_context c).

Inductive MonitorState :=
  | Mon_Working
  | Mon_WaitingForInput
  | Mon_Prompting (prompt_type : PromptType) (question_data : option QuestionData)
      (assistant_context : option string)
  | Mon_Failed (message : string) (error_type : option ErrorType)
  | Mon_Exited
  | Mon_Gone.

Definition agent_failure_to_error_type (e : AgentError) : option ErrorType :=
  match e with
  | Unauthorized => Some Ty_Unauthorized
  | OutOfCredits => Some Ty_OutOfCredits
  | NoInternet => Some Ty_NoInternet
  | RateLimited => Some Ty_RateLimited
  | OtherError _ => None
  end.

Definition monitor_state_of (s : AgentState) : MonitorState :=
  match s with
  | AgentState_Working => Mon_Working
  | AgentState_WaitingForInput => Mon_WaitingForInput
  | AgentState_Failed failure =>
      Mon_Failed (AgentError_display failure) (agent_failure_to_error_type failure)
  | AgentState_Exited _ => Mon_Exited
  | AgentState_SessionGone => Mon_Gone
  end.

Definition get_agent_def (rb : Runbook) (job : Job) : RuntimeError + AgentDef :=
  match get_job_def (job_kind job) rb with
  | None => inl (Rt_JobDefNotFound (job_kind job))
  | Some def =>
      match get_step (job_step job) def with
      | None => inl (Rt_JobNotFound ("step " +:+ job_step job +:+ " not found"))
      | Some step =>
          match def_run step with
          | Run_Agent agent _ =>
              match get_agent agent rb with
              | Some a => inr a
              | None => inl (Rt_AgentNotFound agent)
              end
          | _ => inl (Rt_InvalidRunDirective ("step " +:+ job_step job) "not an agent step")
          end
      end
  end.

(** ** The trigger of an escalation *)

Definition strip_suffix (p s : string) : option string :=
  rev_str <$> strip_prefix (rev_str p) (rev_str s).

(** [str::trim_end_matches] of a string; every round drops a byte at least. *)
Fixpoint trim_end_matches (p : string) (fuel : nat) (s : string) : string :=
  match fuel with
  | O => s
  | S fuel' => match strip_suffix p s with
               | Some s' => trim_end_matches p fuel' s'
               | None => s
               end
  end.

Definition exhausted_base (t : string) : string :=
  trim_end_matches "_exhausted" (String.length t) t.

(** Read from the trigger string, as both builders below do. *)
Definition escalation_trigger (trigger : string) (message : option string)
    (question_data : option QuestionData) (ac : option string) : EscalationTrigger :=
  if existsb (String.eqb trigger) ["idle"; "on_idle"] then Esc_Idle ac
  else if existsb (String.eqb trigger) ["dead"; "on_dead"; "exit"; "exited"] then Esc_Dead None ac
  else if existsb (String.eqb trigger) ["error"; "on_error"] then
    Esc_Error "unknown" (default "" message) ac
  else if String.eqb trigger "prompt:question" then Esc_Question question_data ac
  else if existsb (String.eqb trigger) ["prompt"; "on_prompt"] then Esc_Prompt "permission" ac
  else if ends_with "_exhausted" trigger then
    let base := exhausted_base trigger in
    if String.eqb base "idle" then Esc_Idle ac
    else if String.eqb base "prompt:question" then Esc_Question question_data ac
    else if String.eqb base "error" then Esc_Error "exhausted" (default "" message) ac
    else Esc_Dead None ac
  else Esc_Idle ac.

(** ** Actions *)

Inductive ActionEffects {Value : Type} :=
  | Do_Nudge (effects : list (Effect Value))
  | Do_AdvanceJob
  | Do_FailJob (error : string)
  | Do_Resume (kill_session : option string) (agent_name : string) (input : gmap string string)
      (resume_session_id : option string)
  | Do_Escalate (effects : list (Effect Value))
  | Do_Gate (command : string)
  | Do_CompleteAgentRun
  | Do_FailAgentRun (error : string)
  | Do_EscalateAgentRun (effects : list (Effect Value)).
Arguments ActionEffects : clear implicits.

(** Whether the previous conversation is resumed, and the input of the new
    agent. *)
Definition use_resume (c : ActionConfig) : bool :=
  match config_message c with None => true | Some _ => config_append c end.

Definition resume_input (c : ActionConfig) (input : gmap string string) : gmap string string :=
  match config_message c with
  | Some msg =>
      if config_append c && use_resume c then <["resume_message" := msg]> input
      else <["prompt" := msg]> input
  | None => input
  end.

Definition nudge_message (c : ActionConfig) : string :=
  default "Please continue with the task." (config_message c) +:+ newline_str.

Section Monitor.
Context {Value W : Type} `{!Adapters Value W} `{!RuntimeIO Value W} `{!TemplateRegex}.
Abbreviation M := (RT Value W) (only parsing).
Abbreviation Ef := (Effect Value) (only parsing).

(** [EscalationDecisionBuilder::build]: a fresh id and the time. *)
Definition new_decision (b : EscalationDecisionBuilder) : M (Event Value) :=
  id ← next_id;
  now ← lock_state_env (λ env _, clock env 0);
  ok_or Rt_Panic (build_decision id now b).

Definition build_action_effects (ctx : ActionContext) (job : Job) : M (ActionEffects Value) :=
  let config := ctx_action_config ctx in
  let message := config_message config in
  match config_action config with
  | Act_Nudge =>
      session_id ← ok_or (Rt_JobNotFound "no session") (job_session_id job);
      mret (Do_Nudge [SendToSession session_id (nudge_message config)])
  | Act_Done => mret Do_AdvanceJob
  | Act_Fail => mret (Do_FailJob (ctx_trigger ctx))
  | Act_Resume =>
      mret (Do_Resume (job_session_id job) (agent_def_name (ctx_agent_def ctx))
              (resume_input config (job_vars job))
              (if use_resume config then step_agent job else None))
  | Act_Escalate =>
      event ← new_decision
        (esc_set_namespace (job_namespace job)
          (esc_set_agent_id (default "" (job_session_id job))
            (for_job (job_id job) (job_name job)
               (escalation_trigger (ctx_trigger ctx) message (ctx_question_data ctx)
                  (ctx_assistant_context ctx)))));
      mret (Do_Escalate
        [Emit event;
         Notify ("Decision needed: " +:+ job_name job)
           ("Job requires attention (" +:+ ctx_trigger ctx +:+ ")");
         CancelTimer (exit_deferred (job_id job))])
  | Act_Gate =>
      command ← ok_or (Rt_InvalidRunDirective ("job " +:+ job_id job)
                         "gate action requires a 'run' field") (config_run config);
      mret (Do_Gate command)
  end.

Definition build_action_effects_for_agent_run (ctx : ActionContext) (run : AgentRun)
    : M (ActionEffects Value) :=
  let config := ctx_action_config ctx in
  let message := config_message config in
  match config_action config with
  | Act_Nudge =>
      session_id ← ok_or (Rt_InvalidRequest "no session for nudge") (run_session_id run);
      mret (Do_Nudge [SendToSession session_id (nudge_message config)])
  | Act_Done => mret Do_CompleteAgentRun
  | Act_Fail => mret (Do_FailAgentRun (ctx_trigger ctx))
  | Act_Resume =>
      mret (Do_Resume (run_session_id run) (agent_def_name (ctx_agent_def ctx))
              (resume_input config (run_vars run))
              (if use_resume config then run_agent_id run else None))
  | Act_Escalate =>
      event ← new_decision
        (esc_set_namespace (run_namespace run)
          (esc_set_agent_id (default "" (run_agent_id run))
            (for_agent_run (run_id run) (run_command_name run)
               (escalation_trigger (ctx_trigger ctx) message (ctx_question_data ctx)
                  (ctx_assistant_context ctx)))));
      mret (Do_EscalateAgentRun
        [Emit event;
         Notify ("Decision needed: " +:+ run_command_name run)
           ("Agent requires attention (" +:+ ctx_trigger ctx +:+ ")");
         Emit (AgentRunStatusChanged (run_id run) Run_Escalated (Some (ctx_trigger ctx)));
         CancelTimer (exit_deferred_agent_run (run_id run))])
  | Act_Gate =>
      command ← ok_or (Rt_InvalidRunDirective ("agent_run " +:+ run_id run)
                         "gate action requires a 'run' field") (config_run config);
      mret (Do_Gate command)
  end.

(** ** Notifications *)

Definition with_error (error : option string) (vars : gmap string string) : gmap string string :=
  match error with Some err => <["error" := err]> vars | None => vars end.

Definition notify_effect (def : AgentDef) (template : string) (vars : gmap string string) : Ef :=
  Notify (agent_def_name def) (interpolate (runtime_env_var (W:=W)) template vars).

Definition build_agent_run_notify_effect (run : AgentRun) (def : AgentDef)
    (message_template : option string) : M (option Ef) :=
  match message_template with
  | None => mret None
  | Some template =>
      vars ← job_namespaced (run_vars run);
      mret (Some (notify_effect def template
        (with_error (run_error run)
          (<["agent" := agent_def_name def]> (<["name" := run_command_name run]>
            (<["agent_run_id" := run_id run]> vars))))))
  end.

Definition build_agent_notify_effect (job : Job) (def : AgentDef)
    (message_template : option string) : M (option Ef) :=
  match message_template with
  | None => mret None
  | Some template =>
      vars ← job_namespaced (job_vars job);
      mret (Some (notify_effect def template
        (with_error (job_error job)
          (<["step" := job_step job]> (<["agent" := agent_def_name def]>
            (<["name" := job_name job]> (<["job_id" := job_id job]> vars)))))))
  end.

(** [if let Some(effect) = .. { execute(effect).await?; }]. *)
Definition run_notify (o : option Ef) : M (list (Event Value)) :=
  match o with
  | Some effect => event ← exec_effect effect; mret (match event with Some ev => [ev] | None => [] end)
  | None => mret []
  end.
End Monitor.

Local Close Scope string_scope.

(** Spawning agents: [crates/engine/src/spawn.rs], with the rendering of agent
    definitions of [crates/runbook/src/agent.rs].

    JSON values are built by the class [JsonBuild]. *)

Local Open Scope string_scope.

(** Objects, texts and [null]. *)
Class JsonBuild (Value : Type) := {
  json_object : gmap string Value → Value;
  json_text : string → Value;
  json_null : Value
}.

Definition LIVENESS_INTERVAL : Z := 30 * 1000000000.

Record SpawnCtx := mkSpawnCtx {
  spawn_owner : OwnerId;
  spawn_name : string;
  spawn_namespace : string
}.

Definition from_job (job : Job) (job_id : JobId) : SpawnCtx :=
  mkSpawnCtx (Owner_Job job_id) (job_name job) (job_namespace job).

Definition from_agent_run (agent_run_id : AgentRunId) (name namespace : string) : SpawnCtx :=
  mkSpawnCtx (Owner_AgentRun agent_run_id) name namespace.

Definition is_standalone (c : SpawnCtx) : bool :=
  match spawn_owner c with Owner_AgentRun _ => true | Owner_Job _ => false end.

(** ** Variables and environment *)

Definition insert_owner_id (o : OwnerId) (vars : gmap string string) : gmap string string :=
  match o with
  | Owner_Job id => <["job_id" := id]> vars
  | Owner_AgentRun id => <["agent_run_id" := id]> vars
  end.

(** Inputs shown at the top level as well. *)
Definition exposed (input : gmap string string) : gmap string string :=
  filter (λ kv, starts_with "invoke." kv.1 || starts_with "local." kv.1 ||
                starts_with "workspace." kv.1 = true) input.

Definition prompt_vars (namespaced input : gmap string string) (agent_id : string)
    (ctx : SpawnCtx) (workspace_path : PathBuf) : gmap string string :=
  exposed input ∪
  <["workspace" := workspace_path]> (<["name" := spawn_name ctx]>
    (insert_owner_id (spawn_owner ctx) (<["agent_id" := agent_id]> namespaced))).

Abbreviation AgentEnv := (list (string * string)) (only parsing).

Definition has_key (k : string) (env : AgentEnv) : bool := existsb (λ kv, String.eqb kv.1 k) env.

(** A variable is added unless it is there. *)
Definition push_new (env : AgentEnv) (kv : string * string) : AgentEnv :=
  if has_key kv.1 env then env else (env ++ [kv])%list.

Definition push_opt (k : string) (v : option string) (env : AgentEnv) : AgentEnv :=
  match v with Some v => (env ++ [(k, v)])%list | None => env end.

Definition daemon_binary (env_var : EnvVars) (exe : option PathBuf) : option string :=
  match env_var "OJ_DAEMON_BINARY" with Some b => Some b | None => exe end.

(** The variables of the agent, those of the system, those of the user. *)
Definition spawn_env (env_var : EnvVars) (exe : option PathBuf) (state_dir namespace : string)
    (agent_env user_env : AgentEnv) : AgentEnv :=
  let env := agent_env in
  let env := if is_empty namespace then env else (env ++ [("OJ_NAMESPACE", namespace)])%list in
  let env := (env ++ [("OJ_STATE_DIR", state_dir)])%list in
  let env := push_opt "OJ_DAEMON_BINARY" (daemon_binary env_var exe) env in
  let env := if has_key "CLAUDE_CONFIG_DIR" env then env
             else push_opt "CLAUDE_CONFIG_DIR" (env_var "CLAUDE_CONFIG_DIR") env in
  let env := if has_key "CLAUDE_CODE_OAUTH_TOKEN" env then env
             else push_opt "CLAUDE_CODE_OAUTH_TOKEN" (env_var "CLAUDE_CODE_OAUTH_TOKEN") env in
  foldl push_new env user_env.

(** A map as pairs, in the order of an iteration. *)
Definition env_pairs (env : Env) (m : gmap string string) : AgentEnv :=
  omap (λ k, (λ v, (k, v)) <$> m !! k) (iter_order env TVars (dom m)).

(** [Path::join] when the second path may be absolute. *)
Definition path_join_any (base p : PathBuf) : PathBuf :=
  if starts_with "/" p then p else path_join base p.

(** ** Command *)

Definition in_quotes (s : string) : string := String dquote (s +:+ String dquote EmptyString).

Definition spawn_command (def : AgentDef) (base_command agent_id settings_path : string)
    (input vars : gmap string string) (resume : option string) : string :=
  match resume with
  | Some resume_id =>
      let resume_msg := default "" (input !! "resume_message") in
      let cmd := base_command +:+ " --resume " +:+ resume_id +:+ " --settings " +:+ settings_path in
      if is_empty resume_msg then cmd
      else cmd +:+ " " +:+ in_quotes (escape_for_shell resume_msg)
  | None =>
      let cmd := base_command +:+ " --session-id " +:+ agent_id +:+ " --settings " +:+
                 settings_path in
      if contains "${prompt}" (agent_run def) then cmd
      else cmd +:+ " " +:+ in_quotes (default "" (vars !! "prompt"))
  end.

Definition on_stop_str (def : AgentDef) (ctx : SpawnCtx) : string :=
  match default (if is_standalone ctx then Stop_Escalate else Stop_Signal)
          (stop_action <$> agent_on_stop def) with
  | Stop_Signal => "signal"
  | Stop_Idle => "idle"
  | Stop_Escalate => "escalate"
  end.

Section Spawn.
Context {Value W : Type} `{!Adapters Value W} `{!RuntimeIO Value W} `{!JsonItem Value}
  `{!TemplateRegex} `{!JsonBuild Value} `{!AgentIO W} `{!SpawnIO W}.
Abbreviation M := (RT Value W) (only parsing).
Abbreviation Ef := (Effect Value) (only parsing).

Abbreviation interp := (interpolate (runtime_env_var (W:=W))) (only parsing).

(** ** Session configuration *)

Definition json_opt (o : option string) : Value :=
  match o with Some s => json_text s | None => json_null end.

(** [TmuxSessionConfig::interpolate] and [serde_json::to_value]: an absent field
    is [null]. *)
Definition tmux_interpolate (c : TmuxSessionConfig) (vars : gmap string string)
    : TmuxSessionConfig :=
  mkTmuxSessionConfig (tmux_color c) ((λ t, interp t vars) <$> tmux_title c)
    ((λ s, mkSessionStatusConfig ((λ t, interp t vars) <$> status_left s)
                                 ((λ t, interp t vars) <$> status_right s)) <$> tmux_status c).

Definition tmux_value (c : TmuxSessionConfig) : Value :=
  json_object (<["color" := json_opt (tmux_color c)]> (<["title" := json_opt (tmux_title c)]>
    {["status" := match tmux_status c with
                  | Some s => json_object (<["left" := json_opt (status_left s)]>
                                {["right" := json_opt (status_right s)]})
                  | None => json_null
                  end]})).

(** [entry(k).or_insert(v)]. *)
Definition or_insert (k : string) (v : Value) (m : gmap string Value) : gmap string Value :=
  match m !! k with Some _ => m | None => <[k := v]> m end.

(** The defaults of the status bar, where the values are objects. *)
Definition default_status (left right : string) (tmux : Value) : Value :=
  match json_as_object tmux with
  | Some map =>
      let map := or_insert "status" (json_object ∅) map in
      json_object (alter (λ status,
        match json_as_object status with
        | Some m => json_object (or_insert "right" (json_text right)
                                   (or_insert "left" (json_text left) m))
        | None => status
        end) "status" map)
  | None => tmux
  end.

Definition session_config (def : AgentDef) (ctx : SpawnCtx) (agent_name agent_id : string)
    (vars : gmap string string) : M (gmap string Value) :=
  let tmux := match agent_session def !! "tmux" with
              | Some cfg => tmux_value (tmux_interpolate cfg vars)
              | None => json_object ∅
              end in
  match json_as_object tmux with
  | Some map =>
      match json_as_object (default (json_object ∅) (map !! "status")) with
      | Some _ =>
          short_id ← short_id agent_id 8;
          mret {["tmux" := default_status
                   (spawn_namespace ctx +:+ " " +:+ spawn_name ctx +:+ "/" +:+ agent_name)
                   short_id tmux]}
      | None => mret {["tmux" := default_status "" "" tmux]}
      end
  | None => mret {["tmux" := tmux]}
  end.

(** ** Effects *)

(** Only the exact session file is resumed from. *)
Definition valid_resume (workspace_path : PathBuf) (resume : option string) : M (option string) :=
  match resume with
  | Some id =>
      found ← ask (find_session_log workspace_path id);
      mret (match found with
            | Some p => if String.eqb (last_segment p) (id +:+ ".jsonl") then Some id else None
            | None => None
            end)
  | None => mret None
  end.

Definition get_prompt (def : AgentDef) (agent_name : string) (vars : gmap string string) : M string :=
  match agent_prompt_file def with
  | Some file =>
      content ← ask (read_prompt_file file);
      match content with
      | inl e => throw (Rt_PromptError agent_name e)
      | inr template => mret (interp template vars)
      end
  | None => mret match agent_prompt def with Some prompt => interp prompt vars | None => "" end
  end.

Definition spawn_io_error (e : string) : RuntimeError := Rt_Execute (Err_Shell e).

(** The workspace, the prime scripts, the settings and the stop action. *)
Definition prepare_files (def : AgentDef) (ctx : SpawnCtx) (agent_id : string)
    (vars : gmap string string) (workspace_path : PathBuf) : M PathBuf :=
  try_unit spawn_io_error (prepare_for_agent workspace_path);;
  prime_paths ← match agent_prime def with
                | Some prime => try_io spawn_io_error (prepare_agent_prime agent_id prime vars)
                | None => mret ∅
                end;
  settings_path ← try_io spawn_io_error
                    (prepare_agent_settings agent_id workspace_path prime_paths);
  try_unit spawn_io_error (write_agent_config agent_id (on_stop_str def ctx));;
  mret settings_path.

Definition build_spawn_effects (def : AgentDef) (ctx : SpawnCtx) (agent_name : string)
    (input : gmap string string) (workspace_path : PathBuf) (resume : option string) : M (list Ef) :=
  resume ← valid_resume workspace_path resume;
  namespaced ← job_namespaced input;
  agent_id ← match resume with Some id => mret id | None => next_id end;
  let pvars := prompt_vars namespaced input agent_id ctx workspace_path in
  rendered ← get_prompt def agent_name pvars;
  let vars := <["prompt" := escape_for_shell rendered]> pvars in
  settings_path ← prepare_files def ctx agent_id pvars workspace_path;
  let base_command := trim_end (interp (agent_run def) vars) in
  let command := spawn_command def base_command agent_id settings_path input vars resume in
  user ← ask (load_merged_env (spawn_namespace ctx));
  env ← lock_state_env (λ e _,
    spawn_env (runtime_env_var (W:=W)) current_exe (state_dir (W:=W)) (spawn_namespace ctx)
      (env_pairs e ((λ v, interp v vars) <$> agent_env def)) (env_pairs e user));
  let cwd := match agent_cwd def with
             | Some template => path_join_any workspace_path (interp template vars)
             | None => workspace_path
             end in
  config ← session_config def ctx agent_name agent_id pvars;
  mret [SpawnAgent agent_id agent_name (spawn_owner ctx) workspace_path vars command env (Some cwd)
          config;
        SetTimer (owner_liveness (spawn_owner ctx)) LIVENESS_INTERVAL].
End Spawn.

Local Close Scope string_scope.
