(* ===== verification/AgentRuns.v ===== *)
(** Standalone agents: [crates/engine/src/runtime/agent_run.rs], and the gate
    commands it shares with [runtime/monitor.rs]. *)

From S2P Require Import Prelude Ids Runbook Bytes Vars Slug Entities Job Timer Event State Scheduler.
From S2P Require Import Effect Executor Runtime WorkerQueue DecisionBuilder JobRun JobCreate Monitor.

Local Open Scope string_scope.

(** [extract_process_name] of [crates/adapters/src/agent/claude.rs]: the first
    word of a command, without its directory. *)
Fixpoint take_word (fuel : nat) (s : string) : string :=
  match fuel, s with
  | S fuel', String a s' => if Nat.eqb (ws_prefix s) 0 then String a (take_word fuel' s') else ""
  | _, _ => ""
  end.

Definition extract_process_name (command : string) : string :=
  let first := take_word (String.length command) (trim_start command) in
  if is_empty first then "claude" else last_segment first.

(** ** Gates *)

(** The message of a gate that did not pass. *)
Definition gate_error (command : string) (exit_code : Z) (stderr : string) : string :=
  let head := "gate `" +:+ command +:+ "` failed (exit " +:+ pretty exit_code +:+ ")" in
  let stderr := trim stderr in
  if is_empty stderr then head else head +:+ ": " +:+ stderr.

(** The agent is alive when it works or waits. *)
Definition alive (s : option AgentState) : bool :=
  match s with
  | Some AgentState_Working | Some AgentState_WaitingForInput => true
  | _ => false
  end.

(** [now.saturating_sub(nudge_at) < 60_000]. *)
Definition recently_nudged (now : Z) (nudge_at : option Z) : bool :=
  match nudge_at with
  | Some t => (Z.max 0 (now - t) <? 60000)%Z
  | None => false
  end.

Section AgentRuns.
Context {Value W : Type} `{!Adapters Value W} `{!RuntimeIO Value W} `{!JsonItem Value}
  `{!TemplateRegex} `{!Processes W} `{!JsonBuild Value} `{!AgentIO W} `{!SpawnIO W}.
Abbreviation M := (RT Value W) (only parsing).
Abbreviation Events := (list (Event Value)) (only parsing).
Implicit Types (run : AgentRun) (def : AgentDef).

(** [run_gate_command]: [None] when the gate passed. *)
Definition run_gate_command (command : string) (dir : PathBuf) : M (option string) := λ r,
  let '(res, w) := run_sh command dir "gate command" (ex_world (rt_exec r)) in
  (inr match res with
       | inr output =>
           if out_success output then None
           else Some (gate_error command (default (-1)%Z (out_code output)) (out_stderr output))
       | inl e => Some ("gate `" +:+ command +:+ "` execution error: " +:+ e)
       end, rt_set_exec (set_world w (rt_exec r)) r).

(** [execute(..).await] with the result dropped. *)
Definition ignore_effect (eff : Effect Value) : M unit := attempt (exec_effect eff);; mret tt.

Definition get_agent_run (id : string) : M (option AgentRun) :=
  lock_state (λ s, agent_runs s !! id).

Definition on_run (id : string) (f : AgentRun → AgentRun) : M unit :=
  lock_state_mut (upd_agent_runs (alter f id)).

(** ** Spawning *)

Record SpawnAgentParams := mkSpawnAgentParams {
  sap_run_id : AgentRunId;
  sap_def : AgentDef;
  sap_name : string;
  sap_input : gmap string string;
  sap_cwd : PathBuf;
  sap_namespace : string;
  sap_resume : option string
}.

Definition spawned_agent (effects : list (Effect Value)) : option AgentId :=
  head (omap (λ e, match e with SpawnAgent id _ _ _ _ _ _ _ _ => Some id | _ => None end) effects).

Definition spawned_command (effects : list (Effect Value)) : option string :=
  head (omap (λ e, match e with SpawnAgent _ _ _ _ _ c _ _ _ => Some c | _ => None end) effects).

Definition register_opt (agent : option AgentId) (o : OwnerId) : M unit :=
  match agent with Some aid => register_agent aid o | None => mret tt end.

(** The run has failed to start: the error goes to the log of the agent and the
    status of the run, and is returned. *)
Definition spawn_failed (run_id : AgentRunId) (agent : option AgentId) (e : ExecuteError) : M Events :=
  let error_msg := ExecuteError_display e in
  match agent with
  | Some aid => io (append_agent_error aid error_msg)
  | None => mret tt
  end;;
  ignore_effect (Emit (AgentRunStatusChanged run_id Run_Failed (Some error_msg)));;
  throw (Rt_Execute e).

Definition started_run (run_id : AgentRunId) (agent : option AgentId) : M Events :=
  match agent with
  | Some aid =>
      event ← exec_effect (Emit (AgentRunStarted run_id aid));
      mret (match event with Some ev => [ev] | None => [] end)
  | None => mret []
  end.

Definition spawn_standalone_agent (p : SpawnAgentParams) : M Events :=
  effects ← build_spawn_effects (sap_def p)
              (from_agent_run (sap_run_id p) (sap_name p) (sap_namespace p)) (sap_name p)
              (sap_input p) (sap_cwd p) (sap_resume p);
  let agent := spawned_agent effects in
  register_opt agent (Owner_AgentRun (sap_run_id p));;
  res ← try_effects effects;
  match res with
  | inl e => spawn_failed (sap_run_id p) agent e
  | inr events =>
      started ← started_run (sap_run_id p) agent;
      notified ← match notify_on_start (agent_notify (sap_def p)) with
                 | Some template =>
                     vars ← job_namespaced (sap_input p);
                     run_notify (Some (notify_effect (W:=W) (sap_def p) template
                       (<["agent" := agent_def_name (sap_def p)]> (<["name" := sap_name p]>
                         (<["agent_run_id" := sap_run_id p]> vars)))))
                 | None => mret []
                 end;
      mret (events ++ started ++ notified)%list
  end.

(** ** Cleaning up *)

Definition cleanup_agent_run_workspaces (run_id : AgentRunId) : M unit :=
  ws_ids ← lock_state_env (λ env s,
    omap (λ k, ws ← workspaces s !! k;
               if bool_decide (workspace_owner ws = Some (Owner_AgentRun run_id))
               then Some (workspace_id ws) else None)
      (iter_order env TWorkspaces (dom (workspaces s))));
  for_each (λ ws, ignore_effect (DeleteWorkspace ws)) ws_ids.

Definition cleanup_standalone_agent_session run : M unit :=
  match run_agent_id run with
  | Some aid => deregister_agent aid;; mret tt
  | None => mret tt
  end;;
  match run_session_id run with
  | Some sid =>
      ignore_effect (KillSession sid);;
      ignore_effect (Emit (SessionDeleted sid))
  | None => mret tt
  end.

Definition copy_standalone_agent_session_log run : M unit :=
  match run_agent_id run with
  | Some aid =>
      found ← ask (find_session_log (run_cwd run) aid);
      match found with
      | Some source => io (copy_session_log aid source)
      | None => mret tt
      end
  | None => mret tt
  end.

(** The run has ended: its status, its liveness timer, its session and its
    workspaces. *)
Definition finish_run run (status : AgentRunStatus) (reason : option string) : M Events :=
  result ← exec_effects [Emit (AgentRunStatusChanged (run_id run) status reason);
                         CancelTimer (liveness_agent_run (run_id run))];
  cleanup_standalone_agent_session run;;
  cleanup_agent_run_workspaces (run_id run);;
  mret result.

Definition notify_run run def (template : option string) : M unit :=
  o ← build_agent_run_notify_effect run def template;
  run_notify o;; mret tt.

(** ** Resuming *)

(** A live agent is nudged. *)
Definition nudge_run (id : AgentRunId) (aid : AgentId) (message : option string) : M Events :=
  match message with
  | Some msg => exec_effect (SendToAgent aid msg);; mret tt
  | None => mret tt
  end;;
  exec_effect (Emit (AgentRunStatusChanged id Run_Running (Some "resumed")));;
  exec_effect (SetTimer (liveness_agent_run id) LIVENESS_INTERVAL);;
  now ← lock_state_env (λ env _, clock env 0);
  on_run id (run_set_last_nudge_at (Some now));;
  mret [].

(** A dead one is spawned again. *)
Definition respawn_run (id : AgentRunId) run def (message : option string) : M Events :=
  match run_session_id run with
  | Some sid => ignore_effect (KillSession sid)
  | None => mret tt
  end;;
  resume ← match run_agent_id run with
           | Some aid =>
               found ← ask (find_session_log (run_cwd run) aid);
               mret (match found with Some _ => Some aid | None => None end)
           | None => mret None
           end;
  let input := match message with
               | Some msg => <["resume_message" := msg]> (run_vars run)
               | None => run_vars run
               end in
  spawn_standalone_agent (mkSpawnAgentParams id def (run_agent_name run) input
    (run_cwd run) (run_namespace run) resume).

Definition agent_state_opt (agent : option AgentId) : M (option AgentState) :=
  match agent with
  | Some id => ask (agent_state_of id)
  | None => mret None
  end.

Definition run_agent_def run : M AgentDef :=
  runbook ← cached_runbook (run_runbook_hash run);
  ok_or (Rt_AgentNotFound (run_agent_name run)) (get_agent (run_agent_name run) runbook).

Definition handle_agent_run_resume (id : AgentRunId) (message : option string) (kill : bool)
    : M Events :=
  o ← get_agent_run id;
  run ← ok_or (Rt_InvalidRequest ("agent run not found: " +:+ id)) o;
  def ← run_agent_def run;
  state ← agent_state_opt (run_agent_id run);
  match run_agent_id run with
  | Some aid => if negb kill && alive state then nudge_run id aid message
                else respawn_run id run def message
  | None => respawn_run id run def message
  end.

(** ** Actions *)

Definition bump_run_attempt (id trigger : string) (chain_pos : N) : M Z := λ r,
  match agent_runs (rt_state r) !! id with
  | Some run =>
      let '(n, run') := AgentRun_increment_action_attempt run trigger chain_pos in
      (inr n, rt_set_exec (upd_state (upd_agent_runs <[id := run']>) (rt_exec r)) r)
  | None => (inr 1%Z, r)
  end.

(** The gate failed: an escalation whose status change gives the error. *)
Definition escalate_gate run def (error : string) : M Events :=
  effects ← build_action_effects_for_agent_run
              (mkActionContext def (Config_Simple Act_Escalate) "gate_failed" 0 None None) run;
  match effects with
  | Do_EscalateAgentRun effects =>
      exec_effects ((λ eff, match eff with
                            | Emit (AgentRunStatusChanged id status _) =>
                                Emit (AgentRunStatusChanged id status (Some error))
                            | other => other
                            end) <$> effects)
  | _ => throw Rt_Panic
  end.

Definition execute_run_gate run def (command : string) : M Events :=
  vars ← job_namespaced (run_vars run);
  let vars := <["workspace" := run_cwd run]> (<["name" := run_command_name run]>
                (<["agent_run_id" := run_id run]> vars)) in
  let command := interpolate_shell (runtime_env_var (W:=W)) command vars in
  gate ← run_gate_command command (run_cwd run);
  match gate with
  | None =>
      notify_run run def (notify_on_done (agent_notify def));;
      finish_run run Run_Completed None
  | Some error => escalate_gate run def error
  end.

Definition execute_standalone_action_effects run def (effects : ActionEffects Value) : M Events :=
  match effects with
  | Do_Nudge effects =>
      now ← lock_state_env (λ env _, clock env 0);
      on_run (run_id run) (run_set_last_nudge_at (Some now));;
      exec_effects effects
  | Do_CompleteAgentRun =>
      notify_run run def (notify_on_done (agent_notify def));;
      finish_run run Run_Completed None
  | Do_FailAgentRun error =>
      notify_run (run_set_error (Some error) run) def (notify_on_fail (agent_notify def));;
      finish_run run Run_Failed (Some error)
  | Do_Resume kill_session agent_name input resume =>
      match kill_session with
      | Some sid => ignore_effect (KillSession sid)
      | None => mret tt
      end;;
      spawn_standalone_agent (mkSpawnAgentParams (run_id run) def agent_name input
        (run_cwd run) (run_namespace run) resume)
  | Do_EscalateAgentRun effects => exec_effects effects
  | Do_Gate command => execute_run_gate run def command
  | Do_AdvanceJob | Do_FailJob _ | Do_Escalate _ => mret []
  end.

Definition action_cooldown (config : ActionConfig) (attempt_num : Z) : M (option Z) :=
  if (1 <? attempt_num)%Z then
    match config_cooldown config with
    | Some str =>
        match parse_duration str with
        | inl e => throw (Rt_InvalidRequest ("invalid cooldown '" +:+ str +:+ "': " +:+ e))
        | inr d => mret (Some d)
        end
    | None => mret None
    end
  else mret None.

Definition exhausted_context (ctx : ActionContext) : ActionContext :=
  ctx_with (Config_Simple Act_Escalate) (ctx_trigger ctx +:+ "_exhausted") ctx.

Definition execute_standalone_action_with_attempts run (ctx : ActionContext) : M Events :=
  attempt_num ← bump_run_attempt (run_id run) (ctx_trigger ctx) (ctx_chain_pos ctx);
  if is_exhausted (config_attempts (ctx_action_config ctx)) (attempt_num - 1) then
    effects ← build_action_effects_for_agent_run (exhausted_context ctx) run;
    execute_standalone_action_effects run (ctx_agent_def ctx) effects
  else
    wait ← action_cooldown (ctx_action_config ctx) attempt_num;
    match wait with
    | Some duration =>
        exec_effect (SetTimer (cooldown_agent_run (run_id run) (ctx_trigger ctx)
                                 (ctx_chain_pos ctx)) duration);;
        mret []
    | None =>
        effects ← build_action_effects_for_agent_run ctx run;
        execute_standalone_action_effects run (ctx_agent_def ctx) effects
    end.

(** ** Monitoring *)

(** The message of the agent to show with an escalation. *)
Definition monitor_context (state : MonitorState) (agent : option AgentId) : M (option string) :=
  match state with
  | Mon_Prompting _ _ ac => mret ac
  | Mon_Working => mret None
  | _ => match agent with
         | Some aid => ask (last_assistant_message aid)
         | None => mret None
         end
  end.

Definition run_working run : M Events :=
  exec_effect (CancelTimer (idle_grace_agent_run (run_id run)));;
  on_run (run_id run) (run_set_idle_grace_log_size None);;
  match run_status run with
  | Run_Escalated =>
      now ← lock_state_env (λ env _, clock env 0);
      if recently_nudged now (run_last_nudge_at run) then mret []
      else
        on_run (run_id run) AgentRun_reset_action_attempts;;
        exec_effects [Emit (AgentRunStatusChanged (run_id run) Run_Running (Some "agent active"))]
  | _ => mret []
  end.

(** The trigger of a prompt. *)
Definition prompt_trigger (p : PromptType) : string :=
  match p with Prompt_Question => "prompt:question" | _ => "prompt" end.

Definition handle_standalone_monitor_state run def (state : MonitorState) : M Events :=
  context ← monitor_context state (run_agent_id run);
  let act config trigger qd :=
    execute_standalone_action_with_attempts run (mkActionContext def config trigger 0 qd context) in
  match state with
  | Mon_Working => run_working run
  | Mon_WaitingForInput => act (agent_on_idle def) "idle" None
  | Mon_Prompting prompt_type question_data _ =>
      act (agent_on_prompt def) (prompt_trigger prompt_type) question_data
  | Mon_Failed message error_type =>
      match run_agent_id run with
      | Some aid => io (append_agent_error aid message)
      | None => mret tt
      end;;
      act (action_for (agent_on_error def) error_type) message None
  | Mon_Exited | Mon_Gone =>
      copy_standalone_agent_session_log run;;
      act (agent_on_dead def) "exit" None
  end.

(** ** Signals and recovery *)

Definition handle_standalone_agent_done run (kind : AgentSignalKind) (message : option string)
    : M Events :=
  if AgentRunStatus_is_terminal (run_status run) then mret []
  else
    match kind with
    | Signal_Complete =>
        copy_standalone_agent_session_log run;;
        rb ← attempt (cached_runbook (run_runbook_hash run));
        match rb with
        | inr runbook =>
            match get_agent (run_agent_name run) runbook with
            | Some def => notify_run run def (notify_on_done (agent_notify def))
            | None => mret tt
            end
        | inl _ => mret tt
        end;;
        finish_run run Run_Completed None
    | Signal_Continue => mret []
    | Signal_Escalate =>
        let msg := default "Agent requested escalation" message in
        exec_effects [Notify (run_command_name run) msg;
                      Emit (AgentRunStatusChanged (run_id run) Run_Escalated (Some msg));
                      CancelTimer (exit_deferred_agent_run (run_id run))]
    end.

Definition run_process_name run : M string :=
  rb ← attempt (cached_runbook (run_runbook_hash run));
  mret match rb with
       | inr runbook =>
           match get_agent (run_agent_name run) runbook with
           | Some def => extract_process_name (agent_run def)
           | None => "claude"
           end
       | inl _ => "claude"
       end.

Definition recover_standalone_agent run : M unit :=
  agent_id ← ok_or (Rt_InvalidRequest ("agent_run " +:+ run_id run +:+ " has no agent_id"))
               (run_agent_id run);
  session_id ← ok_or (Rt_InvalidRequest ("agent_run " +:+ run_id run +:+ " has no session_id"))
                 (run_session_id run);
  register_agent agent_id (Owner_AgentRun (run_id run));;
  process_name ← run_process_name run;
  try_unit (λ e, Rt_Execute (Err_Agent e))
    (reconnect agent_id session_id (run_cwd run) process_name (Owner_AgentRun (run_id run)));;
  exec_effect (SetTimer (liveness_agent_run (run_id run)) LIVENESS_INTERVAL);;
  mret tt.
End AgentRuns.

Local Close Scope string_scope.
