(* ===== verification/JobAgents.v ===== *)
(** The agents of jobs: [crates/engine/src/runtime/monitor.rs].

    [spawn_agent] is the argument the definitions of [JobRun] take; the ones of
    this file use it so. *)

From S2P Require Import Prelude Ids Runbook Bytes Vars Slug Entities Job Timer Event State Scheduler.
From S2P Require Import Effect Executor Runtime WorkerQueue DecisionBuilder JobRun JobCreate Monitor.
From S2P Require Import AgentRuns.

Local Open Scope string_scope.

(** ** [{:?}] of a [Duration] *)

(** [n] in debug_decimal, with zeros in front up to [width]. *)
Definition padded (width : nat) (n : Z) : string :=
  let s := pretty n in
  Nat.iter (width - String.length s) (String "0") s.

Definition debug_decimal (whole frac : Z) (width : nat) (unit : string) : string :=
  if (frac =? 0)%Z then pretty whole +:+ unit
  else pretty whole +:+ "." +:+ trim_end_char "0" (padded width frac) +:+ unit.

Definition duration_debug (ns : Z) : string :=
  if (1000000000 <=? ns)%Z then debug_decimal (ns / 1000000000) (ns mod 1000000000) 9 "s"
  else if (1000000 <=? ns)%Z then debug_decimal (ns / 1000000) (ns mod 1000000) 6 "ms"
  else if (1000 <=? ns)%Z then debug_decimal (ns / 1000) (ns mod 1000) 3 "µs"
  else pretty ns +:+ "ns".

(** ** Reading a gate error back *)

(** [str::find]: the text before and after the first occurrence. *)
Fixpoint find_str (p s : string) : option (string * string) :=
  match strip_prefix p s with
  | Some r => Some ("", r)
  | None => match s with
            | EmptyString => None
            | String a s' => (λ lr, (String a lr.1, lr.2)) <$> find_str p s'
            end
  end.

(** [str::parse] to a 32-bit signed integer. *)
Definition parse_i32 (s : string) : option Z :=
  let '(negative, ds) := match s with
                         | String a s' => if Ascii.eqb a "-" then (true, s')
                                          else if Ascii.eqb a "+" then (false, s') else (false, s)
                         | EmptyString => (false, s)
                         end in
  if is_empty ds then None
  else match digits 0 ds with
       | Some n =>
           let n := if negative : bool then (- n)%Z else n in
           if (- 2 ^ 31 <=? n)%Z && (n <? 2 ^ 31)%Z then Some n else None
       | None => None
       end.

Definition parse_gate_error (error : string) : Z * string :=
  default (1%Z, error)
    ('(_, after_exit) ← find_str "(exit " error;
     '(code, rest) ← find_str ")" after_exit;
     code ← parse_i32 (trim code);
     Some (code, match find_str ":" rest with Some (_, stderr) => trim stderr | None => "" end)).

Section JobAgents.
Context {Value W : Type} `{!Adapters Value W} `{!RuntimeIO Value W} `{!JsonItem Value}
  `{!TemplateRegex} `{!Processes W} `{!JsonBuild Value} `{!AgentIO W} `{!SpawnIO W}.
Abbreviation M := (RT Value W) (only parsing).
Abbreviation Events := (list (Event Value)) (only parsing).
Implicit Types (job : Job) (def : AgentDef).

(** A line in the log of the current step. *)
Definition step_log job (line : string) : M unit := io (job_log (job_id job) (job_step job) line).

Definition on_job (id : string) (f : Job → Job) : M unit := lock_state_mut (upd_jobs (alter f id)).

(** ** Spawning *)

Definition log_spawned (id : JobId) job (agent_name : string) (command : option string) : M unit :=
  match command with
  | Some cmd => io (job_log id (job_step job) ("agent spawned: " +:+ agent_name +:+ " (" +:+ cmd +:+ ")"))
  | None => mret tt
  end.

(** The agent is registered, and its id goes to the log with the effects. *)
Definition register_spawned (id : JobId) job (agent_name : string) (effects : list (Effect Value))
    : M (list (Effect Value)) :=
  match spawned_agent effects with
  | Some aid =>
      register_agent aid (Owner_Job id);;
      io (append_agent_pointer id (job_step job) aid);;
      mret (effects ++ [Emit (StepStarted id (job_step job) (Some aid) (Some agent_name))])%list
  | None => mret effects
  end.

Definition spawn_agent_with_resume (id : JobId) (agent_name : string)
    (input : gmap string string) (resume : option string) : M Events :=
  job ← require_job id;
  runbook ← cached_runbook (job_runbook_hash job);
  def ← ok_or (Rt_AgentNotFound agent_name) (get_agent agent_name runbook);
  effects ← build_spawn_effects def (from_job job id) agent_name input (execution_dir job) resume;
  log_spawned id job agent_name (spawned_command effects);;
  effects ← register_spawned id job agent_name effects;
  events ← exec_effects effects;
  o ← build_agent_notify_effect job def (notify_on_start (agent_notify def));
  notified ← run_notify o;
  mret (events ++ notified)%list.

Definition spawn_agent (id : JobId) (agent_name : string) (input : gmap string string) : M Events :=
  spawn_agent_with_resume id agent_name input None.

Definition job_process_name job : M string :=
  rb ← attempt (cached_runbook (job_runbook_hash job));
  mret match rb with
       | inr runbook =>
           match get_agent_def runbook job with
           | inr def => extract_process_name (agent_run def)
           | inl _ => "claude"
           end
       | inl _ => "claude"
       end.

Definition recover_agent job : M unit :=
  agent_id ← ok_or (Rt_JobNotFound ("job " +:+ job_id job +:+ " step " +:+ job_step job +:+
                                    " has no agent_id")) (step_agent job);
  session_id ← ok_or (Rt_JobNotFound ("job " +:+ job_id job +:+ " has no session_id"))
                 (job_session_id job);
  register_agent agent_id (Owner_Job (job_id job));;
  process_name ← job_process_name job;
  try_unit (λ e, Rt_Execute (Err_Agent e))
    (reconnect agent_id session_id (execution_dir job) process_name (Owner_Job (job_id job)));;
  exec_effect (SetTimer (liveness (job_id job)) LIVENESS_INTERVAL);;
  mret tt.

(** ** Executing actions *)

Definition kill_and_resume (kill_session : option SessionId) (id : JobId) (agent_name : string)
    (input : gmap string string) (resume : option string) : M Events :=
  match kill_session with
  | Some sid => exec_effect (KillSession sid);; mret tt
  | None => mret tt
  end;;
  spawn_agent_with_resume id agent_name input resume.

Definition copy_agent_session_log job : M unit :=
  match step_agent job with
  | Some aid =>
      found ← ask (find_session_log (execution_dir job) aid);
      match found with
      | Some source => io (copy_session_log aid source)
      | None => mret tt
      end
  | None => mret tt
  end.

Definition notify_job job def (template : option string) : M unit :=
  o ← build_agent_notify_effect job def template;
  run_notify o;; mret tt.

Definition gate_failed job (command error : string) : M Events :=
  step_log job ("gate failed: " +:+ error);;
  let '(exit_code, stderr) := parse_gate_error error in
  event ← new_decision
    (esc_set_namespace (job_namespace job)
      (esc_set_agent_id (default "" (job_session_id job))
        (for_job (job_id job) (job_name job) (Esc_GateFailed command exit_code stderr))));
  exec_effects [Emit event; CancelTimer (exit_deferred (job_id job))].

Definition execute_gate job def (command : string) : M Events :=
  let dir := execution_dir job in
  vars ← job_namespaced (job_vars job);
  let vars := <["workspace" := dir]> (<["name" := job_name job]> (<["job_id" := job_id job]> vars)) in
  let command := interpolate_shell (runtime_env_var (W:=W)) command vars in
  step_log job ("gate (cwd: " +:+ dir +:+ "): " +:+ command);;
  gate ← run_gate_command command dir;
  match gate with
  | None =>
      step_log job "gate passed, advancing";;
      notify_job job def (notify_on_done (agent_notify def));;
      advance_job spawn_agent job
  | Some error => gate_failed job command error
  end.

Definition execute_action_effects job def (effects : ActionEffects Value) : M Events :=
  match effects with
  | Do_Nudge effects =>
      step_log job "nudge sent";;
      now ← lock_state_env (λ env _, clock env 0);
      on_job (job_id job) (job_set_last_nudge_at (Some now));;
      exec_effects effects
  | Do_AdvanceJob =>
      notify_job job def (notify_on_done (agent_notify def));;
      advance_job spawn_agent job
  | Do_FailJob error =>
      notify_job (job_set_error (Some error) job) def (notify_on_fail (agent_notify def));;
      fail_job spawn_agent job error
  | Do_Resume kill_session agent_name input resume =>
      kill_and_resume kill_session (job_id job) agent_name input resume
  | Do_Escalate effects => exec_effects effects
  | Do_Gate command => execute_gate job def command
  | Do_CompleteAgentRun | Do_FailAgentRun _ | Do_EscalateAgentRun _ => mret []
  end.

Definition bump_job_attempt (id trigger : string) (chain_pos : N) : M Z := λ r,
  match jobs (rt_state r) !! id with
  | Some j =>
      let '(n, j') := Job_increment_action_attempt j trigger chain_pos in
      (inr n, rt_set_exec (upd_state (upd_jobs <[id := j']>) (rt_exec r)) r)
  | None => (inr 1%Z, r)
  end.

Definition execute_action_with_attempts job (ctx : ActionContext) : M Events :=
  attempt_num ← bump_job_attempt (job_id job) (ctx_trigger ctx) (ctx_chain_pos ctx);
  if is_exhausted (config_attempts (ctx_action_config ctx)) (attempt_num - 1) then
    step_log job (ctx_trigger ctx +:+ " attempts exhausted, escalating");;
    effects ← build_action_effects (exhausted_context ctx) job;
    execute_action_effects job (ctx_agent_def ctx) effects
  else
    wait ← action_cooldown (ctx_action_config ctx) attempt_num;
    match wait with
    | Some duration =>
        step_log job (ctx_trigger ctx +:+ " attempt " +:+ pretty attempt_num +:+ " cooldown " +:+
                      duration_debug duration);;
        exec_effect (SetTimer (cooldown (job_id job) (ctx_trigger ctx) (ctx_chain_pos ctx)) duration);;
        mret []
    | None =>
        effects ← build_action_effects ctx job;
        execute_action_effects job (ctx_agent_def ctx) effects
    end.

(** ** Monitoring *)

Definition job_waiting job : bool :=
  match job_step_status job with Waiting _ => true | _ => false end.

Definition job_working job : M Events :=
  exec_effect (CancelTimer (idle_grace (job_id job)));;
  on_job (job_id job) (job_set_idle_grace_log_size None);;
  if job_waiting job then
    now ← lock_state_env (λ env _, clock env 0);
    if recently_nudged now (job_last_nudge_at job) then mret []
    else
      step_log job "agent active, auto-resuming from escalation";;
      on_job (job_id job) Job_reset_action_attempts;;
      exec_effects [Emit (StepStarted (job_id job) (job_step job) None None)]
  else mret [].

Definition handle_monitor_state job def (state : MonitorState) : M Events :=
  context ← monitor_context state (step_agent job);
  let act config trigger qd :=
    execute_action_with_attempts job (mkActionContext def config trigger 0 qd context) in
  match state with
  | Mon_Working => job_working job
  | Mon_WaitingForInput =>
      step_log job "agent idle";;
      act (agent_on_idle def) "idle" None
  | Mon_Prompting prompt_type question_data _ =>
      step_log job ("agent prompt: " +:+ PromptType_debug prompt_type);;
      act (agent_on_prompt def) (prompt_trigger prompt_type) question_data
  | Mon_Failed message error_type =>
      step_log job ("agent error: " +:+ message);;
      match step_agent job with
      | Some aid => io (append_agent_error aid message)
      | None => mret tt
      end;;
      act (action_for (agent_on_error def) error_type) message None
  | Mon_Exited =>
      step_log job "agent exited";;
      copy_agent_session_log job;;
      act (agent_on_dead def) "exit" None
  | Mon_Gone =>
      step_log job "agent session ended";;
      copy_agent_session_log job;;
      act (agent_on_dead def) "exit" None
  end.

(** ** Signals *)

Definition handle_job_agent_done job (id : JobId) (kind : AgentSignalKind)
    (message : option string) : M Events :=
  match kind with
  | Signal_Complete =>
      step_log job "agent:signal complete";;
      rb ← attempt (cached_runbook (job_runbook_hash job));
      match rb with
      | inr runbook =>
          match get_agent_def runbook job with
          | inr def => notify_job job def (notify_on_done (agent_notify def))
          | inl _ => mret tt
          end
      | inl _ => mret tt
      end;;
      advance_job spawn_agent job
  | Signal_Continue => step_log job "agent:signal continue";; mret []
  | Signal_Escalate =>
      let msg := default "Agent requested escalation" message in
      step_log job ("agent:signal: " +:+ msg);;
      exec_effects [Notify (job_name job) msg;
                    Emit (StepWaiting id (job_step job) (Some msg) None);
                    CancelTimer (exit_deferred id)]
  end.

Definition handle_agent_done (agent_id : AgentId) (kind : AgentSignalKind)
    (message : option string) : M Events :=
  o ← get_agent_owner agent_id;
  match o with
  | None => mret []
  | Some (Owner_AgentRun run_id) =>
      run ← get_agent_run run_id;
      match run with
      | Some run => handle_standalone_agent_done run kind message
      | None => mret []
      end
  | Some (Owner_Job id) =>
      job ← require_job id;
      if Job_is_terminal job then mret []
      else if bool_decide (step_agent job = Some agent_id)
      then handle_job_agent_done job id kind message
      else mret []
  end.
End JobAgents.

Local Close Scope string_scope.
