(* ===== verification/AgentHandlers.v ===== *)
(** The handlers of agent events and of the life cycle of jobs:
    [crates/engine/src/runtime/handlers/agent.rs] and [lifecycle.rs]. *)

From S2P Require Import Prelude Ids Runbook Bytes Vars Slug Entities Job Timer Event State Scheduler.
From S2P Require Import Effect Executor Runtime WorkerQueue DecisionBuilder JobRun JobCreate Monitor.
From S2P Require Import AgentRuns JobAgents.

Local Open Scope string_scope.

Inductive OwnerCtx :=
  | Ctx_Job (job : Job) (id : JobId)
  | Ctx_AgentRun (run : AgentRun) (id : AgentRunId)
  | Ctx_Skip
  | Ctx_Unknown.

(** A minute, or [OJ_IDLE_GRACE_MS] milliseconds. *)
Definition idle_grace_period (env_var : EnvVars) : Z :=
  match env_var "OJ_IDLE_GRACE_MS" with
  | Some val => (default 60000 (parse_u64 val) * 1000000)%Z
  | None => (60 * 1000000000)%Z
  end.

Definition run_paused (run : AgentRun) : bool :=
  match run_status run with Run_Waiting | Run_Escalated => true | _ => false end.

(** The agents of the records of a step, the most recent first. *)
Definition agents_of_step (step : string) (job : Job) : list string :=
  omap step_agent_id (filter (λ r, Job.step_name r = step) (rev (job_step_history job))).

(** The step of the last failure of a job. *)
Definition last_failed_step (job : Job) : option string :=
  Job.step_name <$> List.find (λ r, match step_outcome r with Outcome_Failed _ => true | _ => false end)
                      (rev (job_step_history job)).

Section AgentHandlers.
Context {Value W : Type} `{!Adapters Value W} `{!RuntimeIO Value W} `{!JsonItem Value}
  `{!TemplateRegex} `{!Processes W} `{!JsonBuild Value} `{!AgentIO W} `{!SpawnIO W}.
Abbreviation M := (RT Value W) (only parsing).
Abbreviation Events := (list (Event Value)) (only parsing).
Implicit Types (job : Job).

(** ** Owners *)

(** The owner of an agent, unless it has ended or has another agent by now. *)
Definition get_owner_context (agent_id : AgentId) : M OwnerCtx :=
  o ← get_agent_owner agent_id;
  match o with
  | None => mret Ctx_Unknown
  | Some (Owner_Job id) =>
      j ← rt_get_job id;
      mret match j with
           | None => Ctx_Unknown
           | Some job =>
               if Job_is_terminal job then Ctx_Skip
               else if bool_decide (step_agent job = Some agent_id) then Ctx_Job job id
               else Ctx_Skip
           end
  | Some (Owner_AgentRun id) =>
      a ← get_agent_run id;
      mret match a with
           | None => Ctx_Unknown
           | Some run =>
               if AgentRunStatus_is_terminal (run_status run) then Ctx_Skip
               else if bool_decide (run_agent_id run = Some agent_id) then Ctx_AgentRun run id
               else Ctx_Skip
           end
  end.

Definition handle_agent_state_changed (agent_id : AgentId) (state : AgentState) : M Events :=
  ctx ← get_owner_context agent_id;
  match ctx with
  | Ctx_Job job _ =>
      runbook ← cached_runbook (job_runbook_hash job);
      match get_agent_def runbook job with
      | inr def => handle_monitor_state job def (monitor_state_of state)
      | inl _ => mret []
      end
  | Ctx_AgentRun run _ =>
      def ← run_agent_def run;
      handle_standalone_monitor_state run def (monitor_state_of state)
  | Ctx_Skip | Ctx_Unknown => mret []
  end.

(** ** Hooks *)

Definition recorded_log_size (agent_id : AgentId) : M Z :=
  ask (λ w, default 0%Z (session_log_size agent_id w)).

(** The size of the session log is kept until the grace timer fires. *)
Definition handle_agent_idle_hook (agent_id : AgentId) : M Events :=
  ctx ← get_owner_context agent_id;
  match ctx with
  | Ctx_Job job id =>
      if is_some (agent_signal (job_action_tracker job)) || job_waiting job ||
         is_some (job_idle_grace_log_size job) then mret []
      else
        log_size ← recorded_log_size agent_id;
        on_job id (job_set_idle_grace_log_size (Some log_size));;
        exec_effect (SetTimer (idle_grace id) (idle_grace_period (runtime_env_var (W:=W))));;
        mret []
  | Ctx_AgentRun run id =>
      if is_some (agent_signal (run_action_tracker run)) || run_paused run ||
         is_some (run_idle_grace_log_size run) then mret []
      else
        log_size ← recorded_log_size agent_id;
        on_run id (run_set_idle_grace_log_size (Some log_size));;
        exec_effect (SetTimer (idle_grace_agent_run id)
                       (idle_grace_period (runtime_env_var (W:=W))));;
        mret []
  | Ctx_Skip | Ctx_Unknown => mret []
  end.

Definition handle_agent_prompt_hook (agent_id : AgentId) (prompt_type : PromptType)
    (question_data : option QuestionData) (assistant_context : option string) : M Events :=
  ctx ← get_owner_context agent_id;
  let state := Mon_Prompting prompt_type question_data assistant_context in
  match ctx with
  | Ctx_Job job _ =>
      if is_some (agent_signal (job_action_tracker job)) || job_waiting job then mret []
      else
        runbook ← cached_runbook (job_runbook_hash job);
        def ← lift_result (get_agent_def runbook job);
        handle_monitor_state job def state
  | Ctx_AgentRun run _ =>
      if is_some (agent_signal (run_action_tracker run)) || run_paused run then mret []
      else
        def ← run_agent_def run;
        handle_standalone_monitor_state run def state
  | Ctx_Skip | Ctx_Unknown => mret []
  end.

Definition handle_agent_stop_hook (agent_id : AgentId) : M Events :=
  ctx ← get_owner_context agent_id;
  match ctx with
  | Ctx_Job job id =>
      if job_waiting job then mret []
      else
        exec_effects
          [Notify ("Job needs attention: " +:+ job_name job)
             "Agent tried to stop without signaling completion";
           Emit (StepWaiting id (job_step job) (Some "on_stop: escalate") None);
           CancelTimer (exit_deferred id)]
  | Ctx_AgentRun run id =>
      match run_status run with
      | Run_Escalated => mret []
      | _ =>
          exec_effects
            [Notify ("Agent needs attention: " +:+ run_command_name run)
               "Agent tried to stop without signaling completion";
             Emit (AgentRunStatusChanged id Run_Escalated (Some "on_stop: escalate"))]
      end
  | Ctx_Skip | Ctx_Unknown => mret []
  end.

(** ** Resuming *)

(** The agent is alive and told to go on. *)
Definition nudge_agent job (step : string) (aid : AgentId) (message : string) : M Events :=
  exec_effect (SendToAgent aid message);;
  exec_effect (Emit (StepStarted (job_id job) step (Some aid) None));;
  exec_effect (SetTimer (liveness (job_id job)) LIVENESS_INTERVAL);;
  mret [].

Definition kill_job_session job : M unit :=
  match job_session_id job with
  | Some sid => ignore_effect (KillSession sid)
  | None => mret tt
  end.

(** The agent is spawned again, from the most recent session that has a log. *)
Definition respawn_agent job (agent_name message : string) (agents : list string)
    (input : gmap string string) : M Events :=
  kill_job_session job;;
  resume ← ask (λ w, List.find (λ id, is_some (find_session_log (execution_dir job) id w)) agents);
  spawn_agent_with_resume (job_id job) agent_name (<["resume_message" := message]> input) resume.

Definition handle_agent_resume job (step agent_name message : string)
    (input : gmap string string) (kill : bool) : M Events :=
  let agents := agents_of_step step job in
  state ← agent_state_opt (head agents);
  match head agents with
  | Some aid =>
      if negb kill && alive state then nudge_agent job step aid message
      else respawn_agent job agent_name message agents input
  | None => respawn_agent job agent_name message agents input
  end.

(** The shell step is run again, after its session was killed. *)
Definition handle_shell_resume job (step : string) : M Events :=
  kill_job_session job;;
  start_step spawn_agent (job_id job) step (job_vars job) (execution_dir job).

(** The message for the agent of a step that is resumed. *)
Definition resume_message job (def : StepDef) (is_failed : bool) (message : option string)
    : M (option string) :=
  if run_is_agent (def_run def) then
    match message with
    | Some msg => mret (Some msg)
    | None =>
        if is_failed then mret (Some "Retrying")
        else
          id ← short_id (job_id job) 12;
          throw (Rt_InvalidRequest ("agent steps require --message for resume. Example:" +:+
            newline_str +:+ "  oj job resume " +:+ id +:+ " -m " +:+
            in_quotes "I fixed the import, try again"))
    end
  else mret None.

(** [result_events.extend(event)]. *)
Definition emitted (ev : Event Value) : M Events :=
  o ← exec_effect (Emit ev);
  mret (match o with Some ev => [ev] | None => [] end).

Definition handle_job_resume (id : JobId) (message : option string) (vars : gmap string string)
    (kill : bool) : M Events :=
  job ← require_job id;
  let is_failed := String.eqb (job_step job) "failed" in
  resume_step ← (if is_failed
                 then ok_or (Rt_InvalidRequest "no failed step found in history")
                        (last_failed_step job)
                 else mret (job_step job));
  runbook ← cached_runbook (job_runbook_hash job);
  def ← ok_or (Rt_JobDefNotFound (job_kind job)) (get_job_def (job_kind job) runbook);
  step_def ← ok_or (Rt_StepNotFound resume_step) (get_step resume_step def);
  resolved ← resume_message job step_def is_failed message;
  reset ← (if is_failed then emitted (JobAdvanced id resume_step) else mret []);
  (if bool_decide (vars = ∅) then mret tt
   else exec_effect (Emit (JobUpdated (job_id job) vars));; mret tt);;
  let merged := vars ∪ job_vars job in
  events ← match resolved with
           | Some msg =>
               match def_run step_def with
               | Run_Agent agent_name _ =>
                   handle_agent_resume job resume_step agent_name msg merged kill
               | _ => throw (Rt_AgentNotFound "no agent name in step")
               end
           | None =>
               match def_run step_def with
               | Run_Shell _ => handle_shell_resume job resume_step
               | _ => throw (Rt_InvalidRequest
                               ("resume not supported for step type in step: " +:+ resume_step))
               end
           end;
  mret (reset ++ events)%list.

(** ** Cancelling, shells, workspaces *)

Definition handle_job_cancel (id : JobId) : M Events :=
  o ← rt_get_job id;
  job ← ok_or (Rt_JobNotFound id) o;
  cancel_job spawn_agent job.

Definition handle_workspace_drop (id : WorkspaceId) : M Events :=
  exec_effect (DeleteWorkspace id);; mret [].

Definition fenced (id : JobId) (step label : string) (o : option string) : M unit :=
  match o with
  | Some text => io (append_fenced id step label text)
  | None => mret tt
  end.

Definition handle_shell_exited (id : JobId) (step : string) (exit_code : Z)
    (stdout stderr : option string) : M Events :=
  job ← require_job id;
  if String.eqb (job_step job) step then
    fenced id step "stdout" stdout;;
    fenced id step "stderr" stderr;;
    if (exit_code =? 0)%Z then
      io (job_log id step ("shell completed (exit " +:+ pretty exit_code +:+ ")"));;
      advance_job spawn_agent job
    else
      io (job_log id step ("shell failed (exit " +:+ pretty exit_code +:+ ")"));;
      fail_job spawn_agent job ("shell exit code: " +:+ pretty exit_code)
  else mret [].

(** ** Deletion *)

Definition on_timers (f : Scheduler → Scheduler) : M unit :=
  modify (λ r, rt_set_exec (on_scheduler f (rt_exec r)) r).

Definition cancel_job_timers (id : JobId) : M unit :=
  on_timers (λ s, cancel_timers_with_prefix ("cooldown:" +:+ id)
    (cancel_timer ("idle-grace:" +:+ id) (cancel_timer ("exit-deferred:" +:+ id)
      (cancel_timer ("liveness:" +:+ id) s)))).

(** What is left of a job: its agents, its session and its workspace. *)
Definition clean_up_job job : M unit :=
  let agents := omap step_agent_id (job_step_history job) in
  for_each (λ aid, deregister_agent aid;; mret tt) agents;;
  for_each (λ aid, ignore_effect (KillAgent aid)) agents;;
  match job_session_id job with
  | Some sid =>
      ignore_effect (KillSession sid);;
      ignore_effect (Emit (SessionDeleted sid))
  | None => mret tt
  end;;
  effects ← workspace_cleanup_effects job;
  for_each ignore_effect effects.

Definition handle_job_deleted (id : JobId) : M Events :=
  o ← rt_get_job id;
  cancel_job_timers id;;
  match o with
  | Some job => clean_up_job job;; mret []
  | None => mret []
  end.
End AgentHandlers.

Local Close Scope string_scope.
