(* ===== verification/Cron.v ===== *)
(** Crons: [crates/engine/src/runtime/handlers/cron.rs].

    The states of crons are kept under their names, without the namespace. *)

From S2P Require Import Prelude Ids Runbook Bytes Vars Slug Entities Job Timer Event State Scheduler.
From S2P Require Import Effect Executor Runtime WorkerQueue DecisionBuilder JobRun JobCreate Monitor.
From S2P Require Import AgentRuns JobAgents.

Local Open Scope string_scope.

Section Cron.
Context {Value W : Type} `{!Adapters Value W} `{!RuntimeIO Value W} `{!JsonItem Value}
  `{!TemplateRegex} `{!Processes W} `{!JsonBuild Value} `{!AgentIO W} `{!SpawnIO W} `{!CronIO W}.
Abbreviation M := (RT Value W) (only parsing).
Abbreviation Events := (list (Event Value)) (only parsing).

Definition get_cron_state (name : string) : M (option CronState) := gets (λ r, rt_crons r !! name).

Definition cron_log (name namespace line : string) : M unit :=
  io (append_cron_log name namespace line).

(** [parse_duration] of an interval, and the timer of the next tick. *)
Definition cron_interval_duration (interval : string) : M Z :=
  match parse_duration interval with
  | inl e => throw (Rt_InvalidFormat ("invalid cron interval '" +:+ interval +:+ "': " +:+ e))
  | inr d => mret d
  end.

Definition schedule_cron (name namespace interval : string) : M unit :=
  duration ← cron_interval_duration interval;
  exec_effect (SetTimer (cron name namespace) duration);;
  mret tt.

(** ** Start and stop *)

Definition cron_concurrency_of (name : string) (rb : Runbook) : Z :=
  default 1%Z (get_cron name rb ≫= cron_concurrency).

Definition handle_cron_started (name : string) (project_root : PathBuf)
    (runbook_hash interval run_target namespace : string) : M Events :=
  duration ← cron_interval_duration interval;
  let target := from_run_target_str run_target in
  rb ← attempt (cached_runbook runbook_hash);
  let concurrency := match rb with
                     | inr runbook => cron_concurrency_of name runbook
                     | inl _ => 1%Z
                     end in
  modify (rt_upd_crons <[name := mkCronState project_root runbook_hash interval target
                                   Cron_Running namespace concurrency]>);;
  exec_effect (SetTimer (cron name namespace) duration);;
  cron_log name namespace ("started (interval=" +:+ interval +:+ ", " +:+
                           target_display_name target +:+ ")");;
  mret [].

Definition handle_cron_stopped (name namespace : string) : M Events :=
  modify (rt_upd_crons (alter (cst_set_status Cron_Stopped) name));;
  exec_effect (CancelTimer (cron name namespace));;
  cron_log name namespace "stopped";;
  mret [].

(** ** Agents and jobs of crons *)

(** The run of an agent: its record, then its spawning. *)
Definition create_cron_run (name : string) (run_id : AgentRunId) (agent_name namespace : string)
    (project_root : PathBuf) (runbook_hash : string) (def : AgentDef) : M Events :=
  now ← lock_state_env (λ env _, clock env 0);
  created ← exec_effects [Emit (AgentRunCreated run_id agent_name ("cron:" +:+ name) namespace
                                  project_root runbook_hash ∅ now)];
  spawned ← spawn_standalone_agent
              (mkSpawnAgentParams run_id def agent_name ∅ project_root namespace None);
  mret (created ++ spawned)%list.

Definition create_cron_job (name : string) (id : JobId) (job_name job_kind namespace : string)
    (project_root : PathBuf) (runbook_hash : string) (runbook : Runbook) : M Events :=
  create_and_start_job spawn_agent (mkCreateJobParams Value id job_name job_kind
    {["invoke.dir" := project_root]} runbook_hash None runbook namespace (Some name)).

Definition cron_fired (name : string) (id : JobId) (run_id : option string) (namespace : string)
    : M Events :=
  exec_effects [Emit (CronFired name id run_id namespace)].

(** ** A single run *)

Definition once_is_agent (run_target : string) (agent_name : option string) : bool :=
  if is_empty run_target then is_some agent_name else starts_with "agent:" run_target.

Definition handle_cron_once (name : string) (id : JobId) (job_name job_kind : string)
    (agent_run_id agent_name : option string) (project_root : PathBuf)
    (runbook_hash run_target namespace : string) : M Events :=
  runbook ← cached_runbook runbook_hash;
  if once_is_agent run_target agent_name then
    let agent_name := default (default "" (strip_prefix "agent:" run_target)) agent_name in
    def ← ok_or (Rt_AgentNotFound agent_name) (get_agent agent_name runbook);
    fresh ← next_id;
    let run_id := default fresh agent_run_id in
    existing ← get_agent_run run_id;
    match existing with
    | Some _ => mret []
    | None =>
        created ← create_cron_run name run_id agent_name namespace project_root runbook_hash def;
        fired ← cron_fired name id (Some run_id) namespace;
        mret (created ++ fired)%list
    end
  else
    created ← create_cron_job name id job_name job_kind namespace project_root runbook_hash runbook;
    fired ← cron_fired name id None namespace;
    mret (created ++ fired)%list.

(** ** Ticks *)

(** The [RunbookLoaded] event when the file of a cron has changed. *)
Definition refresh_cron_runbook (name : string) : M (option (Event Value)) :=
  c ← get_cron_state name;
  match c with
  | None => mret None
  | Some s =>
      found ← ask (find_runbook_by_cron (path_join (cst_project_root s) ".oj/runbooks") name);
      let failed msg := cron_log name (cst_namespace s) ("error: " +:+ msg);;
                        throw (Rt_RunbookLoadError msg) in
      match found with
      | inl msg => failed msg
      | inr None => failed ("no runbook found containing cron '" +:+ name +:+ "'")
      | inr (Some runbook) =>
          digest ← lift_result (runbook_digest runbook);
          let '(runbook_json, runbook_hash) := digest in
          if String.eqb (cst_runbook_hash s) runbook_hash then mret None
          else
            modify (rt_upd_crons (alter (cst_set_runbook runbook_hash
                                           (cron_concurrency_of name runbook)) name));;
            modify (rt_upd_cache <[runbook_hash := runbook]>);;
            mret (Some (RunbookLoaded runbook_hash 1 runbook_json))
      end
  end.

(** A job of the cron, unless as many as allowed are running; the result is
    [None] when the tick is skipped. *)
Definition tick_job (name : string) (s : CronState) (runbook_hash : string) (concurrency : Z)
    (runbook : Runbook) (job_kind : string) : M (option Events) :=
  let namespace := cst_namespace s in
  active ← count_active_cron_jobs name namespace;
  if (concurrency <=? Z.of_nat active)%Z then
    cron_log name namespace ("skip: job '" +:+ job_kind +:+ "' at max concurrency (" +:+
                             pretty active +:+ "/" +:+ pretty concurrency +:+ ")");;
    mret None
  else
    id ← next_id;
    nonce ← short_id id 8;
    created ← create_cron_job name id (job_display_name job_kind nonce namespace) job_kind
                namespace (cst_project_root s) runbook_hash runbook;
    cron_log name namespace ("tick: triggered job " +:+ job_kind +:+ " (" +:+ nonce +:+ ")");;
    fired ← cron_fired name id None namespace;
    mret (Some (created ++ fired)%list).

(** Whether the agent is at its limit: the running and allowed numbers. *)
Definition at_max_concurrency (def : AgentDef) (agent_name namespace : string) : M (option (nat * Z)) :=
  match agent_max_concurrency def with
  | Some max =>
      running ← count_running_agents agent_name namespace;
      mret (if (max <=? Z.of_nat running)%Z then Some (running, max) else None)
  | None => mret None
  end.

Definition tick_agent (name : string) (s : CronState) (runbook_hash : string)
    (runbook : Runbook) (agent_name : string) : M (option Events) :=
  let namespace := cst_namespace s in
  def ← ok_or (Rt_AgentNotFound agent_name) (get_agent agent_name runbook);
  full ← at_max_concurrency def agent_name namespace;
  match full with
  | Some (running, max) =>
      cron_log name namespace ("skip: agent '" +:+ agent_name +:+ "' at max concurrency (" +:+
                               pretty running +:+ "/" +:+ pretty max +:+ ")");;
      mret None
  | None =>
      run_id ← next_id;
      created ← create_cron_run name run_id agent_name namespace (cst_project_root s)
                  runbook_hash def;
      nonce ← short_id run_id 8;
      cron_log name namespace ("tick: triggered agent " +:+ agent_name +:+ " (" +:+ nonce +:+ ")");;
      fired ← cron_fired name "" (Some run_id) namespace;
      mret (Some (created ++ fired)%list)
  end.

(** A tick of a running cron: its job or agent, then the next timer. *)
Definition run_tick (name : string) (s : CronState) : M Events :=
  loaded ← refresh_cron_runbook name;
  match loaded with
  | Some ev => exec_effects [Emit ev];; mret tt
  | None => mret tt
  end;;
  c ← get_cron_state name;
  let runbook_hash := default (cst_runbook_hash s) (cst_runbook_hash <$> c) in
  let concurrency := default (cst_concurrency s) (cst_concurrency <$> c) in
  runbook ← cached_runbook runbook_hash;
  ticked ← match cst_run_target s with
           | Target_Job job_kind => tick_job name s runbook_hash concurrency runbook job_kind
           | Target_Agent agent_name => tick_agent name s runbook_hash runbook agent_name
           end;
  schedule_cron name (cst_namespace s) (cst_interval s);;
  mret (default [] ticked).

(** The rest of the timer id is the cron's name, after its namespace. *)
Definition timer_namespace (rest name : string) : string :=
  default "" (strip_suffix ("/" +:+ name) rest).

Definition handle_cron_timer_fired (rest : string) : M Events :=
  let name := last_segment rest in
  c ← get_cron_state name;
  match c with
  | Some s =>
      if bool_decide (cst_status s = Cron_Running) then run_tick name s
      else cron_log name (timer_namespace rest name) "skip: cron not in running state";; mret []
  | None => cron_log name (timer_namespace rest name) "skip: cron not in running state";; mret []
  end.
End Cron.

Local Close Scope string_scope.

(** Commands: [crates/engine/src/runtime/handlers/command.rs]. *)

Local Open Scope string_scope.

Section Command.
Context {Value W : Type} `{!Adapters Value W} `{!RuntimeIO Value W} `{!JsonItem Value}
  `{!TemplateRegex} `{!Processes W} `{!JsonBuild Value} `{!AgentIO W} `{!SpawnIO W} `{!CronIO W}.
Abbreviation M := (RT Value W) (only parsing).
Abbreviation Events := (list (Event Value)) (only parsing).

Record HandleCommandParams := mkHandleCommandParams {
  hc_job_id : JobId;
  hc_job_name : string;
  hc_project_root : PathBuf;
  hc_invoke_dir : PathBuf;
  hc_namespace : string;
  hc_command : string;
  hc_args : gmap string string
}.

Definition load_runbook_for_command (project_root : PathBuf) (command : string) : M Runbook :=
  found ← ask (find_runbook_by_command (path_join project_root ".oj/runbooks") command);
  match found with
  | inl e => throw (Rt_RunbookLoadError e)
  | inr o => ok_or (Rt_CommandNotFound command) o
  end.

(** [runbook_digest], with the message of this handler. *)
Definition command_digest (runbook : Runbook) : RuntimeError + (Value * string) :=
  match runbook_to_json runbook with
  | inl e => inl (Rt_RunbookLoadError ("failed to serialize runbook: " +:+ e))
  | inr json =>
      match json_to_text json with
      | inl e => inl (Rt_RunbookLoadError ("failed to serialize runbook: " +:+ e))
      | inr text => inr (json, sha256_hex text)
      end
  end.

(** The [RunbookLoaded] event of a runbook that is not cached. *)
Definition unless_cached (hash : string) (json : Value) : M (list (Effect Value)) :=
  cached ← gets (λ r, is_some (rt_cache r !! hash));
  mret (if (cached : bool) then [] else [Emit (RunbookLoaded hash 1 json)]).

(** [entry(hash).or_insert(runbook)]. *)
Definition cache_runbook (hash : string) (runbook : Runbook) : M unit :=
  modify (rt_upd_cache (λ c, match c !! hash with
                             | Some _ => c
                             | None => <[hash := runbook]> c
                             end)).

Definition run_name (p : HandleCommandParams) (args : gmap string string) : string :=
  default (hc_job_id p) (args !! "name").

Definition command_job (p : HandleCommandParams) (runbook : Runbook) (json : Value)
    (hash : string) (args : gmap string string) : M Events :=
  ok_or (Rt_JobDefNotFound (hc_job_name p)) (get_job_def (hc_job_name p) runbook);;
  cached ← gets (λ r, is_some (rt_cache r !! hash));
  create_and_start_job spawn_agent (mkCreateJobParams Value (hc_job_id p) (run_name p args)
    (hc_job_name p) args hash (if (cached : bool) then None else Some json) runbook
    (hc_namespace p) None).

(** The arguments of a shell command, as [args.*], and the system's variables. *)
Definition shell_vars (p : HandleCommandParams) (name : string) (args : gmap string string)
    : gmap string string :=
  <["workspace" := hc_project_root p]> (<["name" := name]> (<["job_id" := hc_job_id p]>
    (kmap (λ k, "args." +:+ k) args))).

Definition command_shell (p : HandleCommandParams) (runbook : Runbook) (json : Value)
    (hash : string) (args : gmap string string) (cmd : string) : M Events :=
  existing ← rt_get_job (hc_job_id p);
  match existing with
  | Some _ => mret []
  | None =>
      let name := run_name p args in
      let dir := hc_project_root p in
      loaded ← unless_cached hash json;
      now ← lock_state_env (λ env _, clock env 0);
      cache_runbook hash runbook;;
      created ← exec_effects (loaded ++ [Emit (JobCreated (hc_job_id p) (hc_command p) name hash
                  dir args "run" now (hc_namespace p) None)])%list;
      io (job_log (hc_job_id p) "run" "shell command created");;
      let command := interpolate_shell (runtime_env_var (W:=W)) cmd (shell_vars p name args) in
      io (job_log (hc_job_id p) "run" ("shell (cwd: " +:+ dir +:+ "): " +:+ command));;
      started ← exec_effects
        [Emit (StepStarted (hc_job_id p) "run" None None);
         Shell (Some (Owner_Job (hc_job_id p))) "run" command dir
           (if is_empty (hc_namespace p) then ∅ else {["OJ_NAMESPACE" := hc_namespace p]})];
      mret (created ++ started)%list
  end.

Definition command_agent (p : HandleCommandParams) (runbook : Runbook) (json : Value)
    (hash : string) (args : gmap string string) (agent_name : string) : M Events :=
  existing ← get_agent_run (hc_job_id p);
  match existing with
  | Some _ => mret []
  | None =>
      def ← ok_or (Rt_AgentNotFound agent_name) (get_agent agent_name runbook);
      full ← at_max_concurrency def agent_name (hc_namespace p);
      match full with
      | Some (running, max) =>
          throw (Rt_InvalidRequest ("agent '" +:+ agent_name +:+ "' at max concurrency (" +:+
                                    pretty running +:+ "/" +:+ pretty max +:+ ")"))
      | None =>
          loaded ← unless_cached hash json;
          cache_runbook hash runbook;;
          now ← lock_state_env (λ env _, clock env 0);
          created ← exec_effects (loaded ++ [Emit (AgentRunCreated (hc_job_id p) agent_name
                      (hc_command p) (hc_namespace p) (hc_invoke_dir p) hash args now)])%list;
          spawned ← spawn_standalone_agent (mkSpawnAgentParams (hc_job_id p) def agent_name args
                      (hc_invoke_dir p) (hc_namespace p) None);
          mret (created ++ spawned)%list
      end
  end.

Definition handle_command (p : HandleCommandParams) : M Events :=
  runbook ← load_runbook_for_command (hc_project_root p) (hc_command p);
  digest ← lift_result (command_digest runbook);
  let '(json, hash) := digest in
  let args := match hc_args p !! "invoke.dir" with
              | Some _ => hc_args p
              | None => <["invoke.dir" := hc_invoke_dir p]> (hc_args p)
              end in
  cmd_def ← ok_or (Rt_CommandNotFound (hc_command p)) (get_command (hc_command p) runbook);
  match command_run cmd_def with
  | Run_Job _ => command_job p runbook json hash args
  | Run_Shell cmd => command_shell p runbook json hash args cmd
  | Run_Agent agent _ => command_agent p runbook json hash args agent
  end.
End Command.

Local Close Scope string_scope.
