(* ===== verification/HandleEvent.v ===== *)
(** Fired timers: [crates/engine/src/runtime/handlers/timer.rs].  (The retry
    and poll timers of queues are in [WorkerQueue], the ticks of crons in
    [Cron].) *)

From S2P Require Import Prelude Ids Runbook Bytes Vars Slug Entities Job Timer Event State Scheduler.
From S2P Require Import Effect Executor Runtime WorkerQueue DecisionBuilder JobRun JobCreate Dispatch.
From S2P Require Import Monitor AgentRuns JobAgents AgentHandlers Cron.

Local Open Scope string_scope.

(** [rest.splitn(3, ':')] when it has three parts, the last one as a number:
    owner, trigger and position in the chain. *)
Definition parse_cooldown (rest : string) : option (string * string * N) :=
  '(owner, rest) ← split_once ":"%char rest;
  '(trigger, pos) ← split_once ":"%char rest;
  Some (owner, trigger, Z.to_N (default 0%Z (parse_u64 pos))).

(** The action a cooldown runs again. *)
Definition cooldown_action (def : AgentDef) (trigger : string) : option ActionConfig :=
  if String.eqb trigger "idle" then Some (agent_on_idle def)
  else if String.eqb trigger "exit" then Some (agent_on_dead def)
  else None.

(** What an agent that stopped last said. *)
Definition final_monitor_state (final : option AgentState) : MonitorState :=
  match final with
  | Some AgentState_WaitingForInput => Mon_WaitingForInput
  | Some (AgentState_Failed err) => monitor_state_of (AgentState_Failed err)
  | _ => Mon_Exited
  end.

Definition EXIT_GRACE : Z := (5 * 1000000000)%Z.

Section Timers.
Context {Value W : Type} `{!Adapters Value W} `{!RuntimeIO Value W} `{!JsonItem Value}
  `{!TemplateRegex} `{!Processes W} `{!JsonBuild Value} `{!AgentIO W} `{!SpawnIO W} `{!CronIO W}.
Abbreviation M := (RT Value W) (only parsing).
Abbreviation Events := (list (Event Value)) (only parsing).
Implicit Types (job : Job) (run : AgentRun).

(** ** Cooldown *)

Definition cooldown_expired (id trigger : string) (chain_pos : N) : M Events :=
  o ← get_active_job id;
  match o with
  | None => mret []
  | Some job =>
      runbook ← cached_runbook (job_runbook_hash job);
      match get_agent_def runbook job with
      | inl _ => mret []
      | inr def =>
          match cooldown_action def trigger with
          | None => mret []
          | Some config =>
              context ← monitor_context Mon_WaitingForInput (step_agent job);
              execute_action_with_attempts job
                (mkActionContext def config trigger chain_pos None context)
          end
      end
  end.

Definition run_cooldown_expired (id trigger : string) (chain_pos : N) : M Events :=
  o ← get_agent_run id;
  match o with
  | None => mret []
  | Some run =>
      if AgentRunStatus_is_terminal (run_status run) then mret []
      else
        def ← run_agent_def run;
        match cooldown_action def trigger with
        | None => mret []
        | Some config =>
            context ← monitor_context Mon_WaitingForInput (run_agent_id run);
            execute_standalone_action_with_attempts run
              (mkActionContext def config trigger chain_pos None context)
        end
  end.

Definition handle_cooldown_timer (rest : string) : M Events :=
  match parse_cooldown rest with
  | None => mret []
  | Some (id, trigger, chain_pos) => cooldown_expired id trigger chain_pos
  end.

Definition handle_agent_run_cooldown_timer (rest : string) : M Events :=
  match parse_cooldown rest with
  | None => mret []
  | Some (id, trigger, chain_pos) => run_cooldown_expired id trigger chain_pos
  end.

(** ** Liveness *)

(** The session and its process are there. *)
Definition is_running (sid : SessionId) (process_name : M string) : M bool :=
  there ← ask (session_alive sid);
  if (there : bool) then
    name ← process_name;
    ask (process_running sid name)
  else mret false.

(** The next check, or the end of the grace period of a dead agent. *)
Definition next_check (running : bool) (check exit : TimerId) : M Events :=
  exec_effect (if running then SetTimer check LIVENESS_INTERVAL else SetTimer exit EXIT_GRACE);;
  mret [].

Definition handle_liveness_timer (id : string) : M Events :=
  o ← get_active_job id;
  match o with
  | None => mret []
  | Some job =>
      match job_session_id job with
      | None => mret []
      | Some sid =>
          running ← is_running sid (job_process_name job);
          next_check running (liveness id) (exit_deferred id)
      end
  end.

Definition handle_agent_run_liveness_timer (id : string) : M Events :=
  o ← get_agent_run id;
  match o with
  | None => mret []
  | Some run =>
      if AgentRunStatus_is_terminal (run_status run) then mret []
      else
        match run_session_id run with
        | None => mret []
        | Some sid =>
            running ← is_running sid (run_process_name run);
            next_check running (liveness_agent_run id) (exit_deferred_agent_run id)
        end
  end.

(** ** Deferred exit *)

Definition handle_exit_deferred_timer (id : string) : M Events :=
  o ← get_active_job id;
  match o with
  | None => mret []
  | Some job =>
      final ← agent_state_opt (step_agent job);
      runbook ← cached_runbook (job_runbook_hash job);
      match get_agent_def runbook job with
      | inl _ => mret []
      | inr def => handle_monitor_state job def (final_monitor_state final)
      end
  end.

Definition handle_agent_run_exit_deferred_timer (id : string) : M Events :=
  o ← get_agent_run id;
  match o with
  | None => mret []
  | Some run =>
      if AgentRunStatus_is_terminal (run_status run) then mret []
      else
        final ← agent_state_opt (run_agent_id run);
        def ← run_agent_def run;
        handle_standalone_monitor_state run def (final_monitor_state final)
  end.

(** ** Idle grace *)

(** The agent wrote to its log, or works: it is not idle. *)
Definition still_active (agent : option AgentId) (recorded : option Z) : M bool :=
  match agent with
  | None => mret false
  | Some aid =>
      current ← recorded_log_size aid;
      if (default 0 recorded <? current)%Z then mret true
      else
        state ← ask (agent_state_of aid);
        mret (match state with Some AgentState_Working => true | _ => false end)
  end.

Definition clear_job_grace (id : string) : M unit := on_job id (job_set_idle_grace_log_size None).
Definition clear_run_grace (id : string) : M unit := on_run id (run_set_idle_grace_log_size None).

Definition handle_idle_grace_timer (id : string) : M Events :=
  o ← rt_get_job id;
  match o with
  | None => mret []
  | Some job =>
      if Job_is_terminal job || job_waiting job then clear_job_grace id;; mret []
      else
        active ← still_active (step_agent job) (job_idle_grace_log_size job);
        clear_job_grace id;;
        if (active : bool) then mret []
        else
          o ← rt_get_job id;
          match o with
          | None => mret []
          | Some job =>
              runbook ← cached_runbook (job_runbook_hash job);
              match get_agent_def runbook job with
              | inl _ => mret []
              | inr def => handle_monitor_state job def Mon_WaitingForInput
              end
          end
  end.

Definition handle_agent_run_idle_grace_timer (id : string) : M Events :=
  o ← get_agent_run id;
  match o with
  | None => mret []
  | Some run =>
      if AgentRunStatus_is_terminal (run_status run) || run_paused run
      then clear_run_grace id;; mret []
      else
        active ← still_active (run_agent_id run) (run_idle_grace_log_size run);
        clear_run_grace id;;
        if (active : bool) then mret []
        else
          o ← get_agent_run id;
          match o with
          | None => mret []
          | Some run =>
              def ← run_agent_def run;
              handle_standalone_monitor_state run def Mon_WaitingForInput
          end
  end.

(** ** Routing *)

(** The prefixes of the timers and their handlers, tried in this order: the
    timers of agent runs first, whose prefixes extend those of jobs. *)
Definition timer_routes : list (string * (string → M Events)) :=
  [("idle-grace:ar:", handle_agent_run_idle_grace_timer);
   ("liveness:ar:", handle_agent_run_liveness_timer);
   ("exit-deferred:ar:", handle_agent_run_exit_deferred_timer);
   ("cooldown:ar:", handle_agent_run_cooldown_timer);
   ("idle-grace:", handle_idle_grace_timer);
   ("liveness:", handle_liveness_timer);
   ("exit-deferred:", handle_exit_deferred_timer);
   ("cooldown:", handle_cooldown_timer);
   ("queue-retry:", handle_queue_retry_timer);
   ("cron:", handle_cron_timer_fired);
   ("queue-poll:", handle_queue_poll_timer)].

Fixpoint route (routes : list (string * (string → M Events))) (id : TimerId) : M Events :=
  match routes with
  | [] => mret []
  | (prefix, handler) :: routes' =>
      match strip_prefix prefix id with
      | Some rest => handler rest
      | None => route routes' id
      end
  end.

Definition handle_timer (id : TimerId) : M Events := route timer_routes id.
End Timers.

Local Close Scope string_scope.

(** [Runtime::handle_event]: [crates/engine/src/runtime/handlers/mod.rs]. *)

Local Open Scope string_scope.

Section HandleEvent.
Context {Value W : Type} `{!Adapters Value W} `{!RuntimeIO Value W} `{!JsonItem Value}
  `{!TemplateRegex} `{!Processes W} `{!JsonBuild Value} `{!AgentIO W} `{!SpawnIO W} `{!CronIO W}.
Abbreviation M := (RT Value W) (only parsing).
Abbreviation Events := (list (Event Value)) (only parsing).

Definition queue_line (namespace queue_name item_id line : string) : M unit :=
  io (queue_log (scoped_name namespace queue_name) item_id line).

(** The fields of an item as [key=value], in the order of the iteration. *)
Definition data_str (env : Env) (data : gmap string string) : string :=
  String.concat ", " ((λ k, k +:+ "=" +:+ default "" (data !! k)) <$> iter_order env TVars (dom data)).

(** The running workers of the queues with a name, whatever their namespace. *)
Definition running_workers_of (env : Env) (queue_name : string) (ws : gmap string WorkerState)
    : list string :=
  List.filter (λ n, match ws !! n with
                    | Some st => String.eqb (wk_queue_name st) queue_name &&
                                 bool_decide (wk_status st = Wk_Running)
                    | None => false
                    end) (iter_order env TWorkerStates (dom ws)).

Definition handle_queue_pushed (queue_name item_id : string) (data : gmap string string)
    (namespace : string) : M Events :=
  text ← lock_state_env (λ env _, data_str env data);
  queue_line namespace queue_name item_id ("pushed data={" +:+ text +:+ "}");;
  ws ← gets rt_workers;
  names ← lock_state_env (λ env _, running_workers_of env queue_name ws);
  collect_events (λ n, exec_effects [Emit (WorkerWake n namespace)]) names.

(** A runbook that is not cached yet is, if it can be read. *)
Definition handle_runbook_loaded (hash : string) (runbook : Value) : M Events :=
  modify (rt_upd_cache (λ c, match c !! hash, runbook_from_json runbook with
                             | None, inr rb => <[hash := rb]> c
                             | _, _ => c
                             end));;
  mret [].

Definition handle_event (ev : Event Value) : M Events :=
  match ev with
  | CommandRun job_id job_name project_root invoke_dir namespace command args =>
      handle_command (mkHandleCommandParams job_id job_name project_root invoke_dir namespace
                        command args)
  | AgentWorking _ _ | AgentWaiting _ _ | AgentFailed _ _ _ | AgentExited _ _ _ | AgentGone _ _ =>
      match as_agent_state ev with
      | Some (agent_id, state, _) => handle_agent_state_changed agent_id state
      | None => mret []
      end
  | AgentInput agent_id input => exec_effect (SendToAgent agent_id input);; mret []
  | AgentSignalled agent_id kind message => handle_agent_done agent_id kind message
  | AgentIdle agent_id => handle_agent_idle_hook agent_id
  | AgentStop agent_id => handle_agent_stop_hook agent_id
  | AgentPrompt agent_id prompt_type question_data assistant_context =>
      handle_agent_prompt_hook agent_id prompt_type question_data assistant_context
  | ShellExited job_id step exit_code stdout stderr =>
      handle_shell_exited job_id step exit_code stdout stderr
  | TimerStart id => handle_timer id
  | SessionInput id input => exec_effect (SendToSession id (input +:+ newline_str));; mret []
  | JobResume id message vars kill => handle_job_resume id message vars kill
  | JobCancel id => handle_job_cancel id
  | WorkspaceDrop id => handle_workspace_drop id
  (* crons *)
  | CronStarted name project_root runbook_hash interval run_target namespace =>
      handle_cron_started name project_root runbook_hash interval run_target namespace
  | CronStopped name namespace => handle_cron_stopped name namespace
  | CronOnce name job_id job_name job_kind agent_run_id agent_name project_root runbook_hash
      run_target namespace =>
      handle_cron_once name job_id job_name job_kind agent_run_id agent_name project_root
        runbook_hash run_target namespace
  (* workers *)
  | WorkerStarted worker_name project_root runbook_hash _ _ namespace =>
      handle_worker_started worker_name project_root runbook_hash namespace
  | WorkerWake worker_name _ => handle_worker_wake worker_name
  | WorkerPollComplete worker_name items => handle_worker_poll_complete spawn_agent worker_name items
  | WorkerTakeComplete worker_name item_id item exit_code stderr =>
      handle_worker_take_complete spawn_agent worker_name item_id item exit_code stderr
  | WorkerStopped worker_name _ => handle_worker_stopped worker_name
  | WorkerResized worker_name concurrency namespace =>
      handle_worker_resized worker_name concurrency namespace
  (* a job in a terminal state frees its worker *)
  | JobAdvanced id step =>
      if String.eqb step "done" || String.eqb step "failed" || String.eqb step "cancelled"
      then check_worker_job_complete id step else mret []
  (* queues: the state is changed by the event itself *)
  | QueuePushed queue_name item_id data _ namespace =>
      handle_queue_pushed queue_name item_id data namespace
  | QueueTaken queue_name item_id worker_name namespace =>
      queue_line namespace queue_name item_id ("dispatched worker=" +:+ worker_name);; mret []
  | QueueCompleted queue_name item_id namespace =>
      queue_line namespace queue_name item_id "completed";; mret []
  | QueueFailed queue_name item_id error namespace =>
      queue_line namespace queue_name item_id ("failed error=" +:+ in_quotes error);; mret []
  | QueueDropped queue_name item_id namespace =>
      queue_line namespace queue_name item_id "dropped";; mret []
  | QueueItemRetry queue_name item_id namespace =>
      queue_line namespace queue_name item_id "retried";; mret []
  | QueueItemDead queue_name item_id namespace =>
      queue_line namespace queue_name item_id "dead";; mret []
  | RunbookLoaded hash _ runbook => handle_runbook_loaded hash runbook
  | JobDeleted id => handle_job_deleted id
  | AgentRunResume id message kill => handle_agent_run_resume id message kill
  | Shutdown | Custom
  | JobCreated _ _ _ _ _ _ _ _ _ _ | StepStarted _ _ _ _ | StepWaiting _ _ _ _
  | StepCompleted _ _ | StepFailed _ _ _ | SessionCreated _ _ | SessionDeleted _
  | WorkspaceCreated _ _ _ _ _ | WorkspaceReady _ | WorkspaceFailed _ _ | WorkspaceDeleted _
  | WorkerDeleted _ _ | JobCancelling _ | JobUpdated _ _ | WorkerItemDispatched _ _ _ _
  | CronFired _ _ _ _ | CronDeleted _ _ | DecisionCreated _ _ _ _ _ _ _ _ _
  | DecisionResolved _ _ _ _ _ | AgentRunCreated _ _ _ _ _ _ _ _ | AgentRunStarted _ _
  | AgentRunStatusChanged _ _ _ | AgentRunDeleted _ => mret []
  end.
End HandleEvent.

Local Close Scope string_scope.
