(* ===== verification/RuntimeWitness.v ===== *)
(** The theorems about the runtime at a concrete runtime: one job of two steps,
    one worker and its persisted queue, on adapters that always succeed. *)

From S2P Require Import Prelude Ids Runbook Bytes Vars Entities Job Timer Event State StateEquiv.
From S2P Require Import StateIdem StateInv Scheduler Effect Executor Runtime WorkerQueue WorkerQueueSpec.
From S2P Require Import JobRun JobRunSpec JobCreate Dispatch DispatchSpec Monitor.

Local Open Scope string_scope.

(** ** The sample *)

Definition quiet_io : RuntimeIO unit unit := {|
  job_log := λ _ _ _ w, w;
  worker_log := λ _ _ w, w;
  breadcrumb_write := λ _ w, w;
  breadcrumb_delete := λ _ w, w;
  load_merged_env := λ _ _, {["USER_VAR" := "1"]};
  find_runbook_by_worker := λ _ _ _, inl "no directory";
  runbook_to_json := λ _, inr tt;
  json_to_text := λ _, inr "{}";
  sha256_hex := λ s, s;
  runbook_from_json := λ _, inl "not a runbook";
  runtime_env_var := λ _, None;
  state_dir := "/state"
|}.

Definition unit_json : JsonItem unit := {|
  json_strings := λ _, tt;
  json_as_object := λ _, None;
  json_as_str := λ _, None;
  json_to_string := λ _, "null"
|}.

(** Patterns that never match. *)
Definition no_regex : TemplateRegex := {|
  replace_env := λ _ s, s;
  replace_var := λ _ s, s
|}.

Definition unit_build : JsonBuild unit := {|
  json_object := λ _, tt;
  json_text := λ _, tt;
  json_null := tt
|}.

(** Agents that are alive, idle and silent. *)
Definition quiet_agents : AgentIO unit := {|
  agent_state_of := λ _ _, Some AgentState_WaitingForInput;
  session_log_size := λ _ _, Some 0%Z;
  last_assistant_message := λ _ _, None;
  session_alive := λ _ _, true;
  process_running := λ _ _ _, true;
  find_session_log := λ _ _ _, None;
  reconnect := λ _ _ _ _ _ w, (None, w);
  append_agent_pointer := λ _ _ _ w, w;
  append_agent_error := λ _ _ w, w;
  copy_session_log := λ _ _ w, w;
  append_fenced := λ _ _ _ _ w, w;
  queue_log := λ _ _ _ w, w
|}.

Definition quiet_spawns : SpawnIO unit := {|
  read_prompt_file := λ _ _, inr "prompt";
  prepare_for_agent := λ _ w, (None, w);
  prepare_agent_prime := λ _ _ _ w, (inr ∅, w);
  prepare_agent_settings := λ _ _ _ w, (inr "settings", w);
  write_agent_config := λ _ _ w, (None, w);
  current_exe := None
|}.

#[local] Existing Instances quiet_adapters quiet_io unit_json no_regex.

Definition no_notify : NotifyConfig := mkNotifyConfig None None None.

Definition agent_step : StepDef :=
  mkStepDef "run" (Run_Agent "coder" None) (Some (mkStepTransition "ship")) None None.
Definition shell_step : StepDef := mkStepDef "ship" (Run_Shell "make ship") None None None.

Definition sample_def : JobDef :=
  mkJobDef "k" None [] ∅ None None None None None ∅ no_notify [agent_step; shell_step].

Definition sample_queue : QueueDef :=
  mkQueueDef "q" Persisted None None [] ∅ (Some (mkRetryConfig 3 "30s")) None.

Definition sample_runbook : Runbook :=
  mkRunbook ∅ ∅ ∅ {["k" := sample_def]} ∅ {["q" := sample_queue]} ∅ ∅.

Definition quiet_crons : CronIO unit := {|
  append_cron_log := λ _ _ _ w, w;
  find_runbook_by_cron := λ _ _ _, inr (Some sample_runbook);
  find_runbook_by_command := λ _ _ _, inr (Some sample_runbook)
|}.

Definition sample_worker : WorkerState :=
  mkWorkerState "/" "h" "q" "k" 2 {["j"]} Wk_Running Persisted {["j" := "i"]} "ns" None 0 {["i"]}.

Definition sample_item : QueueItem := mkQueueItem "i" "q" ∅ Item_Pending None 0 0.

Definition with_sample_session (j : Job) : Job := job_set_session_id (Some "sess") j.

Definition sample_rt (j : Job) : Rt unit unit :=
  mkRt unit unit
    (mkExec unit unit
       (upd_queue_items <["ns/q" := [sample_item]]>
          (upd_sessions <["sess" := mkSession "sess" "j"]>
             (upd_jobs <["j" := j]> MaterializedState_default)))
       Scheduler_new tt [])
    {["a" := Owner_Job "j"]} {["h" := sample_runbook]} {["w" := sample_worker]} ∅
    (λ i, env_at (Z.of_nat i)) (λ _, "uuid").

Definition no_spawn : JobId → string → gmap string string → RT unit unit (list (Event unit)) :=
  λ _ agent _, throw (Rt_AgentNotFound agent).

Definition run_job : Job := with_sample_session sample_job.

Lemma run_job_killable : killable (Value:=unit) (W:=unit) run_job.
Proof. intros sid w _. reflexivity. Qed.

(** ** Worker queues *)

Lemma settle_item_outcome_witness :
  ∃ evs r' i', settle_item "q" "i" "ns" "h" "failed" (sample_rt run_job) = (inr evs, r') ∧
    find_item (rt_state r') "ns/q" "i" = Some i' ∧ item_failure_count i' = 1%Z ∧
    item_status i' = Item_Failed.
Proof.
  destruct (settle_item_outcome "h" sample_runbook "failed" "q" "i" "ns" sample_item
    (sample_rt run_job) eq_refl eq_refl) as (evs & r' & i' & Hrun & Hi & Hn & Hc).
  exists evs, r', i'. split; [exact Hrun |]. split; [exact Hi |]. split; [exact Hn |].
  exact (proj1 (proj2 Hc)).
Defined.

Lemma job_end_frees_slot_witness :
  slots (check_worker_job_complete "j" "done" (sample_rt run_job)).2
    = slot <$> {["w" := without_job "j" sample_worker]}.
Proof.
  apply (job_end_frees_slot "j" "done" "w" sample_worker (sample_rt run_job)); [reflexivity | set_solver |].
  intros name' st' H _. simpl in H. by apply lookup_singleton_Some in H as [<- _].
Defined.

Lemma retries_never_exhausted_witness :
  ∃ evs r', failing_rounds 4 "w" "q" "i" "ns" "h" (sample_rt run_job) = (inr evs, r') ∧
    retryable sample_runbook "q" "i" "ns" "h" r' ∧ QueueItemDead "q" "i" "ns" ∉ evs.
Proof.
  apply (retries_never_exhausted sample_runbook 4 "w" "q" "i" "ns" "h" (sample_rt run_job));
    [reflexivity | done | reflexivity | vm_compute; discriminate |].
  split; [reflexivity |]. exists sample_item. split; [reflexivity |]. split; reflexivity.
Defined.

(** ** Jobs *)

Lemma complete_job_ends_witness :
  job_ended "j" "done" (λ j, job_step_status j = Completed)
    (rt_exec (complete_job run_job (sample_rt run_job)).2).
Proof.
  apply (complete_job_ends run_job (sample_rt run_job));
    [reflexivity | reflexivity | apply sample_job_wf | apply run_job_killable].
Defined.

(** The job has no route on failure or cancellation. *)
Lemma no_route_ship on_step on_job :
  on_step agent_step = None → on_job sample_def = None →
  no_route run_job sample_runbook on_step on_job.
Proof.
  intros H1 H2. split; [exact H1 |]. intros t Ht.
  change (on_job sample_def = Some t) in Ht. congruence.
Qed.

Lemma fail_job_ends_witness :
  job_ended "j" "failed" (failed_with run_job "boom")
    (rt_exec (fail_job no_spawn run_job "boom" (sample_rt run_job)).2).
Proof.
  apply (fail_job_ends no_spawn run_job (sample_rt run_job)) with (rb := sample_runbook);
    [reflexivity | reflexivity | apply sample_job_wf | apply run_job_killable | reflexivity |].
  by apply no_route_ship.
Defined.

Lemma cancel_job_ends_witness :
  job_ended "j" "cancelled" (λ j, job_step_status j = Failed ∧ job_error j = Some "cancelled")
    (rt_exec (cancel_job no_spawn run_job (sample_rt run_job)).2).
Proof.
  apply (cancel_job_ends no_spawn run_job (sample_rt run_job)) with (rb := sample_runbook);
    [reflexivity | reflexivity | apply sample_job_wf | apply run_job_killable | reflexivity | |].
  - by apply no_route_ship.
  - reflexivity.
Defined.

Lemma sample_known : known "j" run_job sample_runbook sample_def (sample_rt run_job).
Proof. split; reflexivity. Qed.

Lemma start_step_guarded_witness :
  (start_step no_spawn "j" "ship" ∅ "/" (sample_rt run_job)).1
    = inr [StepStarted "j" "ship" None None] ∧
  ∃ t, tasks (start_step no_spawn "j" "ship" ∅ "/" (sample_rt run_job)).2 = [t] ∧
       shell_task (W:=unit) "j" "ship" "make ship" "/" t.
Proof.
  destruct (start_step_guarded no_spawn run_job sample_runbook sample_def (sample_rt run_job)
    sample_known eq_refl sample_job_wf run_job_killable "ship" ∅ "/")
    as (r1 & _ & _ & _ & Hout & _ & Ht).
  split; [exact Hout | exact Ht].
Defined.

Lemma advance_forgets_session_witness :
  ∃ r', advance_job no_spawn run_job (sample_rt run_job)
          = (inr [JobAdvanced "j" "ship"; StepStarted "j" "ship" None None], r') ∧
    sessions (rt_state r') !! "sess" = None.
Proof.
  destruct (advance_forgets_session no_spawn run_job sample_runbook sample_def (sample_rt run_job)
    sample_known eq_refl sample_job_wf run_job_killable "sess" (mkSession "sess" "j") agent_step "ship"
    shell_step "make ship") as (r' & Hrun & Hgone & _);
    [reflexivity | reflexivity | reflexivity | reflexivity | reflexivity | reflexivity | reflexivity
    | reflexivity | discriminate | reflexivity |].
  exists r'. split; [exact Hrun | exact Hgone].
Defined.

Local Close Scope string_scope.

(** The theorems about job creation and dispatch at a concrete runtime: one
    worker, one external and one persisted queue, on a disk on which no
    directory can be made.  An item is the text of its id. *)

Local Open Scope string_scope.

Definition full_disk : Adapters string unit := {|
  agents_spawn := λ _ w, (inr "sess", w);
  agents_send := λ _ _ w, (None, w);
  agents_kill := λ _ w, (None, w);
  sessions_send := λ _ _ w, (None, w);
  sessions_kill := λ _ w, (None, w);
  create_parent_dir := λ _ w, (Some "disk full", w);
  create_dir_all := λ _ w, (Some "disk full", w);
  git_worktree_add := λ _ _ _ _ w, (inr None, w);
  git_worktree_remove := λ _ _ w, w;
  path_exists := λ _ _, false;
  remove_dir_all := λ _ w, (None, w);
  notify := λ _ _ w, w
|}.

Definition text_io : RuntimeIO string unit := {|
  job_log := λ _ _ _ w, w;
  worker_log := λ _ _ w, w;
  breadcrumb_write := λ _ w, w;
  breadcrumb_delete := λ _ w, w;
  load_merged_env := λ _ _, ∅;
  find_runbook_by_worker := λ _ _ _, inr (Some sample_runbook);
  runbook_to_json := λ _, inr "runbook";
  json_to_text := λ _, inr "h";
  sha256_hex := λ s, s;
  runbook_from_json := λ _, inl "not a runbook";
  runtime_env_var := λ _, None;
  state_dir := "/state"
|}.

Definition text_json : JsonItem string := {|
  json_strings := λ m, default "" (m !! "id");
  json_as_object := λ v, Some {["id" := v]};
  json_as_str := λ v, Some v;
  json_to_string := λ v, v
|}.

Definition no_processes : Processes unit := {|
  current_dir := λ _, "/";
  run_bash := λ _ _ _ w, (inl "no shell", w);
  run_sh := λ _ _ _ w, (inl "no shell", w);
  git_toplevel := λ _ w, (inl "no git", w)
|}.

#[local] Existing Instances full_disk text_io text_json no_regex no_processes.

Definition folder_def : JobDef :=
  mkJobDef "k" None [] ∅ None (Some (Workspace_Simple Ws_Folder)) None None None ∅ no_notify
    [shell_step].

Definition queue_def (ty : QueueType) : QueueDef := mkQueueDef "q" ty None (Some "take it") [] ∅ None None.

Definition text_runbook (ty : QueueType) : Runbook :=
  mkRunbook ∅ ∅ ∅ {["k" := folder_def]} ∅ {["q" := queue_def ty]} ∅ ∅.

Definition text_worker (ty : QueueType) : WorkerState :=
  mkWorkerState "/" "h" "q" "k" 2 ∅ Wk_Running ty ∅ "ns" None 0 ∅.

Definition text_rt (ty : QueueType) : Rt string unit :=
  mkRt string unit
    (mkExec string unit
       (upd_queue_items <["ns/q" := [sample_item]]>
          (upd_workers <["ns/w" := mkWorkerRecord "w" "ns" "/" "h" "running" [] "q" 2]>
             MaterializedState_default))
       Scheduler_new tt [])
    ∅ {["h" := text_runbook ty]} {["w" := text_worker ty]} ∅
    (λ i, env_at (Z.of_nat i)) (λ i, "01234567-" +:+ pretty i).

Definition text_spawn : JobId → string → gmap string string → RT string unit (list (Event string)) :=
  λ _ agent _, throw (Rt_AgentNotFound agent).

Definition text_params : CreateJobParams string :=
  mkCreateJobParams string "01234567-0" "k-i" "k" {["invoke.dir" := "/"]} "h" None
    (text_runbook Persisted) "ns" None.

Lemma failed_workspace_fails_job_witness :
  ∃ j e, fresh text_params folder_def j ∧
    job_ended "01234567-0" "failed" (failed_with j (ExecuteError_display e))
      (rt_exec (create_and_start_job text_spawn text_params (text_rt Persisted)).2).
Proof.
  eapply (failed_workspace_fails_job text_spawn text_params folder_def (text_rt Persisted)).
  - reflexivity.
  - right. reflexivity.
  - reflexivity.
  - reflexivity.
  - discriminate.
  - intros envs x. eexists. reflexivity.
  - reflexivity.
  - split; reflexivity.
Defined.

Lemma external_poll_bounded_witness :
  let out := handle_worker_poll_complete text_spawn "w" ["a"; "a"; "b"; "c"] (text_rt External) in
  ∃ ids st', rt_workers out.2 !! "w" = Some st' ∧
    (∀ item, item ∈ ["a"; "b"] → item ∈ wk_inflight_items st') ∧ NoDup ids ∧
    takes "w" (text_rt External) out.2 ids.
Proof.
  destruct (external_poll_bounded text_spawn "w" (text_rt External) (text_worker External)
    ["a"; "a"; "b"; "c"]) as (ids & st' & Hw & _ & Hf & _ & Hnd & _ & Ht & _);
    [reflexivity | reflexivity | reflexivity | by vm_compute | by vm_compute | by vm_compute |].
  exists ids, st'. split; [exact Hw |]. split; [| split; [exact Hnd | exact Ht]].
  vm_compute in Hw. injection Hw as <-.
  intros item [->|[->|[]%not_elem_of_nil]%elem_of_cons]%elem_of_cons; vm_compute; reflexivity.
Defined.

(** A persisted item whose workspace cannot be made: its job has failed, but
    the worker record of the state lists it, also after the events of the
    dispatch were applied again; the item stays active. *)
Definition failed_dispatch : (RuntimeError + list (Event string)) * Rt string unit :=
  handle_worker_poll_complete text_spawn "w" ["i"] (text_rt Persisted).

Definition applied_again : MaterializedState string :=
  match failed_dispatch with
  | (inr evs, r) => replay ((λ ev, (env_at 9, ev)) <$> evs) (rt_state r)
  | (inl _, r) => rt_state r
  end.

Lemma failed_dispatch_stays_listed :
  (∃ evs, failed_dispatch.1 = inr evs) ∧
  (Job_is_terminal <$> jobs applied_again !! "01234567-0") = Some true ∧
  (worker_active_job_ids <$> workers applied_again !! "ns/w") = Some ["01234567-0"] ∧
  (item_status <$> find_item applied_again "ns/q" "i") = Some Item_Active.
Proof. split; [eexists; vm_compute; reflexivity | vm_compute; auto]. Qed.

Local Close Scope string_scope.
