(* ===== verification/TimerSpec.v ===== *)
(** What the handlers of timers promise: every timer the runtime sets reaches
    the handler it was set for, with the arguments it was made of, but for a
    cooldown whose trigger holds a colon; and what the expiries of a cooldown do. *)

From S2P Require Import Prelude Ids Runbook Bytes Vars Slug Entities Job Timer Event State Scheduler.
From S2P Require Import Effect Executor Runtime WorkerQueue DecisionBuilder JobRun JobRunSpec JobCreate.
From S2P Require Import Monitor AgentRuns JobAgents AgentHandlers Cron HandleEvent RuntimeWitness.

Local Open Scope string_scope.

(** ** Parsing *)

Lemma split_once_colon l r :
  has_char ":" l = false → split_once ":"%char (l +:+ ":" +:+ r) = Some (l, r).
Proof. exact (split_once_app ":"%char l r). Qed.

Lemma parse_cooldown_made id trigger pos :
  has_char ":" id = false → has_char ":" trigger = false → (pos < 2 ^ 64)%N →
  parse_cooldown (id +:+ ":" +:+ trigger +:+ ":" +:+ pretty pos) = Some (id, trigger, pos).
Proof.
  intros Hi Ht Hp. unfold parse_cooldown.
  rewrite (split_once_colon id) by done. unfold mbind, option_bind.
  rewrite (split_once_colon trigger) by done.
  destruct (pretty_decimal pos Hp) as (_ & _ & _ & ->). simpl. by rewrite N2Z.id.
Qed.

Lemma digits_colon acc s : has_char ":" s = true → digits acc s = None.
Proof.
  revert acc. induction s as [|a s IH]; intros acc; [done |]. cbn [has_char digits].
  destruct (Ascii.eqb_spec a ":") as [->|_]; [done |]. intros Hs. cbn [orb] in Hs.
  destruct (digit a); [| done]. destruct (_ <? _)%Z; [by apply IH | done].
Qed.

(** What is read of a trigger and a position: a trigger with a colon loses what
    is behind it, and the position, which reads as 0. *)
Definition cooldown_read (trigger : string) (pos : N) : string * N :=
  match split_once ":"%char trigger with Some (kind, _) => (kind, 0%N) | None => (trigger, pos) end.

Lemma parse_cooldown_read id trigger pos :
  has_char ":" id = false → (pos < 2 ^ 64)%N →
  parse_cooldown (id +:+ ":" +:+ trigger +:+ ":" +:+ pretty pos)
  = Some (id, (cooldown_read trigger pos).1, (cooldown_read trigger pos).2).
Proof.
  intros Hi Hp. unfold cooldown_read. destruct (split_once ":"%char trigger) as [[kind rest]|] eqn:E.
  - apply split_once_Some in E as [-> Hk]. unfold parse_cooldown.
    rewrite (split_once_colon id) by done. unfold mbind, option_bind. rewrite string_app_assoc.
    change (String ":" rest +:+ ":" +:+ pretty pos) with (":" +:+ (rest +:+ ":" +:+ pretty pos)).
    rewrite (split_once_colon kind) by done. cbn [fst snd].
    assert (parse_u64 (rest +:+ ":" +:+ pretty pos) = None) as ->; [| done].
    unfold parse_u64. set (t := match _ with String _ _ => _ | EmptyString => _ end).
    assert (has_char ":" t = true) as Ht.
    { unfold t. destruct rest as [|c rest]; [done |]. cbn [String.append].
      destruct (Ascii.eqb c "+"); cbn [has_char]; rewrite has_char_app; cbn [has_char String.append];
        rewrite ?Ascii.eqb_refl; by rewrite !orb_true_r. }
    destruct (is_empty t); [done | by apply digits_colon].
  - apply split_once_None in E. by apply parse_cooldown_made.
Qed.

#[local] Arguments strip_prefix : simpl nomatch.

Section routing.
Context {Value W : Type} `{!Adapters Value W} `{!RuntimeIO Value W} `{!JsonItem Value}
  `{!TemplateRegex} `{!Processes W} `{!JsonBuild Value} `{!AgentIO W} `{!SpawnIO W} `{!CronIO W}.
Abbreviation M := (RT Value W) (only parsing).
Abbreviation Events := (list (Event Value)) (only parsing).

(** The handlers of the timers of an owner. *)
Definition on_liveness (o : OwnerId) : M Events :=
  match o with
  | Owner_Job id => handle_liveness_timer id
  | Owner_AgentRun id => handle_agent_run_liveness_timer id
  end.
Definition on_exit_deferred (o : OwnerId) : M Events :=
  match o with
  | Owner_Job id => handle_exit_deferred_timer id
  | Owner_AgentRun id => handle_agent_run_exit_deferred_timer id
  end.
Definition on_idle_grace (o : OwnerId) : M Events :=
  match o with
  | Owner_Job id => handle_idle_grace_timer id
  | Owner_AgentRun id => handle_agent_run_idle_grace_timer id
  end.
Definition on_cooldown (o : OwnerId) (trigger : string) (pos : N) : M Events :=
  match o with
  | Owner_Job id => cooldown_expired id trigger pos
  | Owner_AgentRun id => run_cooldown_expired id trigger pos
  end.

Lemma route_cooldown_job id rest :
  has_char ":" id = false → id ≠ "ar" →
  handle_timer ("cooldown:" +:+ id +:+ ":" +:+ rest) = handle_cooldown_timer (id +:+ ":" +:+ rest).
Proof.
  intros Hc Hne. unfold handle_timer, timer_routes. simpl.
  destruct (strip_prefix "ar:" _) as [s|] eqn:E; [| done].
  exfalso. apply Hne. apply strip_prefix_Some in E.
  rewrite <- (split_next_colon id rest Hc). change (":" +:+ rest) with (String ":" rest).
  by rewrite E.
Qed.

Lemma job_cooldown_timer id trigger pos :
  has_char ":" id = false → id ≠ "ar" → has_char ":" trigger = false → (pos < 2 ^ 64)%N →
  handle_timer (Value:=Value) (W:=W) (cooldown id trigger pos) = cooldown_expired id trigger pos.
Proof.
  intros Hc Hne Ht Hp.
  etrans; [exact (route_cooldown_job id (trigger +:+ ":" +:+ pretty pos) Hc Hne) |].
  unfold handle_cooldown_timer. by rewrite parse_cooldown_made.
Qed.
End routing.

(** C34. Every timer the runtime sets for an owner is routed back to the handler
    it was set for, with the same owner; a cooldown also with its trigger and its
    position in the chain, unless the trigger holds a colon (as that of a
    question and many error messages do): then only its part before the colon is
    left, and the position reads as 0.  The timers of queues, crons and polls
    reach theirs with the rest of the id.  It takes that the id of the owner holds
    no colon and is not ["ar"] for a job. *)
Theorem timers_reach_handlers {Value W} `{!Adapters Value W} `{!RuntimeIO Value W}
    `{!JsonItem Value} `{!TemplateRegex} `{!Processes W} `{!JsonBuild Value} `{!AgentIO W}
    `{!SpawnIO W} `{!CronIO W} (o : OwnerId) (trigger name ns item : string) (pos : N) :
  owner_has_colon o = false → o ≠ Owner_Job "ar" → (pos < 2 ^ 64)%N →
  handle_timer (Value:=Value) (W:=W) (owner_liveness o) = on_liveness o ∧
  handle_timer (Value:=Value) (W:=W) (owner_exit_deferred o) = on_exit_deferred o ∧
  handle_timer (Value:=Value) (W:=W) (owner_idle_grace o) = on_idle_grace o ∧
  handle_timer (Value:=Value) (W:=W) (owner_cooldown o trigger pos)
    = match split_once ":"%char trigger with
      | None => on_cooldown o trigger pos
      | Some (kind, _) => on_cooldown o kind 0
      end ∧
  handle_timer (Value:=Value) (W:=W) (queue_retry (scoped_name ns name) item)
    = handle_queue_retry_timer (scoped_name ns name +:+ ":" +:+ item) ∧
  handle_timer (Value:=Value) (W:=W) (cron name ns) = handle_cron_timer_fired (scoped_name ns name) ∧
  handle_timer (Value:=Value) (W:=W) (queue_poll name ns) = handle_queue_poll_timer (scoped_name ns name).
Proof.
  intros Hc Hne Hp.
  assert (∀ id, o = Owner_Job id → strip_prefix "ar:" id = None) as Hjob.
  { intros id ->. destruct (strip_prefix "ar:" id) as [s|] eqn:E; [| done].
    apply strip_prefix_Some in E as ->. done. }
  assert (∀ (f : string → N → RT Value W (list (Event Value))), f (cooldown_read trigger pos).1 (cooldown_read trigger pos).2
    = match split_once ":"%char trigger with None => f trigger pos | Some (kind, _) => f kind 0%N end) as Hf.
  { intros f. unfold cooldown_read. by destruct (split_once _ trigger) as [[??]|]. }
  rewrite <-(Hf (on_cooldown o)). destruct o as [id|id]; simpl in Hc.
  - specialize (Hjob id eq_refl).
    assert (id ≠ "ar") as Hid by congruence.
    assert (handle_timer (Value:=Value) (W:=W) (cooldown id trigger pos)
            = cooldown_expired id (cooldown_read trigger pos).1 (cooldown_read trigger pos).2) as Hcool.
    { etrans; [exact (route_cooldown_job id (trigger +:+ ":" +:+ pretty pos) Hc Hid) |].
      unfold handle_cooldown_timer. by rewrite parse_cooldown_read. }
    split_and!; try reflexivity; try exact Hcool; unfold handle_timer, timer_routes; simpl;
      by rewrite Hjob.
  - split_and!; try reflexivity.
    change (handle_agent_run_cooldown_timer (id +:+ ":" +:+ trigger +:+ ":" +:+ pretty pos)
            = run_cooldown_expired (Value:=Value) (W:=W) id (cooldown_read trigger pos).1
                (cooldown_read trigger pos).2).
    unfold handle_agent_run_cooldown_timer. by rewrite parse_cooldown_read.
Qed.

(** ** Cooldowns *)

Section cooling.
Context {Value W : Type} `{!Adapters Value W} `{!RuntimeIO Value W} `{!JsonItem Value}
  `{!TemplateRegex} `{!Processes W} `{!JsonBuild Value} `{!AgentIO W} `{!SpawnIO W} `{!CronIO W}.
Implicit Types (r : Rt Value W).

(** The job [id] runs the agent [def] and has counted [k] attempts for
    [trigger]. *)
Definition counted (id step hash trigger : string) (rb : Runbook) (def : AgentDef) (k : Z) r : Prop :=
  ∃ j, jobs (rt_state r) !! id = Some j ∧ job_id j = id ∧ job_step j = step ∧
    Job_is_terminal j = false ∧ job_runbook_hash j = hash ∧ rt_cache r !! hash = Some rb ∧
    get_agent_def rb j = inr def ∧ Job_get_action_attempt j trigger 0 = k.

Definition world_of r : W := ex_world (rt_exec r).
Definition has_timer (id : TimerId) r : Prop := is_Some (timers (ex_scheduler (rt_exec r)) !! id).

(** The log of the step has grown, and nothing else has happened outside. *)
Definition only_logged (id step : string) (lines : list string) r r' : Prop :=
  world_of r' = foldl (λ w l, job_log id step l w) (world_of r) lines ∧ tasks r' = tasks r.

Lemma active_job id j r :
  jobs (rt_state r) !! id = Some j → Job_is_terminal j = false →
  get_active_job id r = (inr (Some j), r).
Proof.
  intros Hj Ht. unfold get_active_job, rt_get_job, lock_state, mbind, rt_bind, gets, mret, rt_ret.
  unfold get_job, get_by_prefix. rewrite Hj. simpl. by rewrite Ht.
Qed.

Lemma context_read agent r :
  monitor_context Mon_WaitingForInput agent r
  = (inr (agent ≫= λ aid, last_assistant_message aid (world_of r)), r).
Proof. by destruct agent. Qed.

Lemma bump_known id trigger pos j r :
  jobs (rt_state r) !! id = Some j →
  bump_job_attempt id trigger pos r
  = (inr (Job_get_action_attempt j trigger pos +u32 1)%oj,
     rt_set_exec (upd_state (upd_jobs <[id := (Job_increment_action_attempt j trigger pos).2]>)
                    (rt_exec r)) r).
Proof. intros Hj. unfold bump_job_attempt. by rewrite Hj. Qed.

(** An attempt that is counted leaves the rest of the job. *)
Lemma incremented j trigger pos :
  let j' := (Job_increment_action_attempt j trigger pos).2 in
  job_id j' = job_id j ∧ job_step j' = job_step j ∧
  Job_is_terminal j' = Job_is_terminal j ∧ job_runbook_hash j' = job_runbook_hash j ∧
  (∀ rb, get_agent_def rb j' = get_agent_def rb j) ∧
  Job_get_action_attempt j' trigger pos = (Job_get_action_attempt j trigger pos +u32 1)%oj.
Proof.
  destruct (get_increment_same (job_action_tracker j) trigger pos) as [Hg _].
  unfold Job_increment_action_attempt, Job_get_action_attempt. simpl.
  match goal with |- context [(1 <? ?n)%Z] => destruct (1 <? n)%Z end; by destruct j; split_and!.
Qed.

(** An attempt that waits: the count goes up, the timer is set, and the action
    is not run. *)
Lemma attempt_waits id step hash trigger rb def config c d k r :
  counted id step hash trigger rb def k r → cooldown_action def trigger = Some config →
  config_cooldown config = Some c → parse_duration c = inr d →
  (1 ≤ k)%Z → (k + 1 < 2 ^ 32)%Z → is_exhausted (config_attempts config) k = false →
  ∃ r' line, cooldown_expired id trigger 0 r = (inr [], r') ∧
    counted id step hash trigger rb def (k + 1) r' ∧ only_logged id step [line] r r' ∧
    has_timer (cooldown id trigger 0) r'.
Proof.
  intros (j & Hj & Hid & Hstep & Hterm & Hhash & Hrb & Hdef & Hk) Hact Hcool Hd H1 Hlt Hex.
  unfold cooldown_expired.
  erewrite bind_ok by by apply active_job. cbv beta iota. rewrite Hhash.
  erewrite bind_ok by by apply cached_runbook_hit. cbv beta iota. rewrite Hdef, Hact.
  erewrite bind_ok by apply context_read.
  destruct (incremented j trigger 0) as (Hi & Hs & Hter & Hh & Hd' & Hc').
  unfold execute_action_with_attempts. rewrite Hid. simpl ctx_trigger. simpl ctx_chain_pos.
  erewrite bind_ok by by apply bump_known.
  rewrite Hk, u32_wrap_small, Z.add_simpl_r by (unfold is_u32; lia).
  cbn [ctx_action_config]. rewrite Hex.
  erewrite bind_ok by (unfold action_cooldown; replace (1 <? k + 1)%Z with true by lia;
                       rewrite Hcool, Hd; reflexivity).
  cbv beta iota. do 2 eexists. split; [reflexivity |].
  split; [| split].
  - exists (Job_increment_action_attempt j trigger 0).2.
    split; [apply lookup_insert_eq |].
    refine (conj (eq_trans Hi Hid) (conj (eq_trans Hs Hstep) (conj (eq_trans Hter Hterm)
      (conj (eq_trans Hh Hhash) (conj Hrb (conj (eq_trans (Hd' rb) Hdef) _)))))).
    rewrite Hc', Hk. apply u32_wrap_small. unfold is_u32; lia.
  - split; [| done]. unfold world_of. simpl. by rewrite Hid, Hstep.
  - unfold has_timer. simpl. rewrite lookup_insert_eq. by eexists.
Qed.

(** The timer fires [n] times. *)
Fixpoint fired_cooldowns (id trigger : string) (n : nat) r : Rt Value W :=
  match n with
  | O => r
  | S n => fired_cooldowns id trigger n (handle_timer (cooldown id trigger 0) r).2
  end.
End cooling.

(** Of an agent of a job, when its idle or exit action has a cooldown and at
    least one attempt is counted, the expiry of the cooldown does not run the
    action as long as the attempts are not exhausted: [n] expiries in a row, with
    nothing else in between, count [n] attempts, log [n] lines and start nothing,
    and the last one has set the next timer, at position 0.  (At exhaustion the
    expiry escalates, and a reset of the attempts makes the next trigger run the
    action again; actions for prompts and errors have no handler.)  It takes that
    the job's runbook is cached, its id holds no colon and is not ["ar"], and that
    the count stays below 2^32. *)
Theorem cooldown_only_counts {Value W} `{!Adapters Value W} `{!RuntimeIO Value W}
    `{!JsonItem Value} `{!TemplateRegex} `{!Processes W} `{!JsonBuild Value} `{!AgentIO W}
    `{!SpawnIO W} `{!CronIO W} id step hash trigger rb def config c d k n (r : Rt Value W) :
  has_char ":" id = false → id ≠ "ar" →
  counted id step hash trigger rb def k r →
  cooldown_action def trigger = Some config →
  config_cooldown config = Some c → parse_duration c = inr d →
  (1 ≤ k)%Z → (k + Z.of_nat n < 2 ^ 32)%Z →
  (∀ i, (k ≤ i < k + Z.of_nat n)%Z → is_exhausted (config_attempts config) i = false) →
  let r' := fired_cooldowns id trigger n r in
  counted id step hash trigger rb def (k + Z.of_nat n) r' ∧
  (∃ lines, length lines = n ∧ only_logged id step lines r r') ∧
  (0 < n → has_timer (cooldown id trigger 0) r').
Proof.
  intros Hid Har Hc Hact Hcool Hd. revert k r Hc.
  assert (has_char ":" trigger = false) as Ht.
  { unfold cooldown_action in Hact. destruct (String.eqb_spec trigger "idle") as [->|]; [done |].
    by destruct (String.eqb_spec trigger "exit") as [->|]. }
  induction n as [|n IH]; intros k r Hc H1 Hlt Hex.
  { cbn [fired_cooldowns]. split; [by rewrite Z.add_0_r |]. split; [by exists [] | lia]. }
  destruct (attempt_waits id step hash trigger rb def config c d k r)
    as (r1 & line & Hrun & Hc1 & [Hw1 Ht1] & Htm1); [done.. | lia | apply Hex; lia |].
  cbn [fired_cooldowns]. rewrite job_cooldown_timer by done. rewrite Hrun. simpl snd.
  destruct (IH (k + 1)%Z r1) as (Hc2 & (lines & Hl & Hw2 & Ht2) & Htm2);
    [done | lia | lia | intros; apply Hex; lia |].
  split; [by replace (k + Z.of_nat (S n))%Z with (k + 1 + Z.of_nat n)%Z by lia |].
  split; [| destruct n; [done | intros _; apply Htm2; lia]].
  exists (line :: lines). split; [simpl; by rewrite Hl |].
  split; [by rewrite Hw2, Hw1 | by rewrite Ht2].
Qed.

(** ** Witnesses *)

#[local] Existing Instances quiet_adapters quiet_io unit_json no_regex no_processes unit_build
  quiet_agents quiet_spawns quiet_crons.

Lemma timers_reach_handlers_witness :
  handle_timer (Value:=unit) (W:=unit) "cooldown:ar:run-1:exit:2"
    = run_cooldown_expired "run-1" "exit" 2 ∧
  handle_timer (Value:=unit) (W:=unit) "liveness:ar:run-1" = handle_agent_run_liveness_timer "run-1".
Proof.
  destruct (timers_reach_handlers (Value:=unit) (W:=unit) (Owner_AgentRun "run-1") "exit" "n" "ns" "i" 2)
    as (Hl & _ & _ & Hc & _); [reflexivity | discriminate | reflexivity |].
  split; [exact Hc | exact Hl].
Defined.

(** An idle agent is nudged for ever, every ten seconds. *)
Definition nudge_config : ActionConfig :=
  Config_WithOptions Act_Nudge None false None Forever (Some "10s").

Definition nudged_agent : AgentDef :=
  mkAgentDef "coder" "claude" None None ∅ None None nudge_config ActionConfig_default
    ActionConfig_default (Error_Simple ActionConfig_default) None None no_notify ∅.

Definition nudged_runbook : Runbook :=
  mkRunbook ∅ ∅ ∅ {["k" := sample_def]} {["coder" := nudged_agent]} ∅ ∅ ∅.

(** The job after its first nudge. *)
Definition nudged_rt : Rt unit unit :=
  rt_upd_cache <["h" := nudged_runbook]>
    (sample_rt (Job_increment_action_attempt run_job "idle" 0).2).

Lemma cooldown_only_counts_witness :
  ∃ lines, length lines = 100 ∧
    only_logged "j" "run" lines nudged_rt (fired_cooldowns "j" "idle" 100 nudged_rt) ∧
    has_timer (cooldown "j" "idle" 0) (fired_cooldowns "j" "idle" 100 nudged_rt).
Proof.
  destruct (cooldown_only_counts "j" "run" "h" "idle" nudged_runbook nudged_agent nudge_config "10s"
    (10 * 1000000000) 1 100 nudged_rt) as (_ & (lines & Hl & Ho) & Ht);
    [reflexivity | discriminate | | reflexivity | reflexivity | reflexivity | lia | lia
    | reflexivity |].
  - eexists. split; [reflexivity |]. split_and!; reflexivity.
  - exists lines. split; [exact Hl |]. split; [exact Ho | apply Ht; lia].
Defined.

Local Close Scope string_scope.
