(* ===== verification/EventSpec.v ===== *)
(** What the handling of events promises: the handlers ignore agents that have been
    replaced, though the application of their events does not, and what is left behind by the deletion of a job and by crons of the
    same name. *)

From S2P Require Import Prelude Ids Runbook Bytes Vars Slug Entities Job Timer Event State Scheduler.
From S2P Require Import Effect Executor Runtime WorkerQueue DecisionBuilder JobRun JobRunSpec JobCreate.
From S2P Require Import Monitor AgentRuns JobAgents AgentHandlers Cron HandleEvent RuntimeWitness.
From S2P Require Import TimerSpec.

Local Open Scope string_scope.

(** ** Stale agents *)

(** The agent a state change or a hook is about. *)
Definition event_agent {Value} (ev : Event Value) : option AgentId :=
  match ev with
  | AgentWorking a _ | AgentWaiting a _ | AgentFailed a _ _ | AgentExited a _ _ | AgentGone a _
  | AgentIdle a | AgentStop a | AgentPrompt a _ _ _ => Some a
  | _ => None
  end.

Section stale.
Context {Value W : Type} `{!Adapters Value W} `{!RuntimeIO Value W} `{!JsonItem Value}
  `{!TemplateRegex} `{!Processes W} `{!JsonBuild Value} `{!AgentIO W} `{!SpawnIO W} `{!CronIO W}.
Implicit Types (r : Rt Value W).

(** Nobody waits for the agent any more: it has no owner, or its owner is gone,
    has ended, or has another agent by now. *)
Definition stale (a : AgentId) r : Prop :=
  match rt_owners r !! a with
  | None => True
  | Some (Owner_Job id) =>
      ∀ j, get_job (rt_state r) id = Some j → Job_is_terminal j = true ∨ step_agent j ≠ Some a
  | Some (Owner_AgentRun id) =>
      ∀ run, agent_runs (rt_state r) !! id = Some run →
        AgentRunStatus_is_terminal (run_status run) = true ∨ run_agent_id run ≠ Some a
  end.

Lemma stale_context a r :
  stale a r →
  ∃ ctx, get_owner_context a r = (inr ctx, r) ∧ (ctx = Ctx_Skip ∨ ctx = Ctx_Unknown).
Proof.
  intros Hs. unfold stale in Hs. unfold get_owner_context, get_agent_owner.
  erewrite bind_ok by reflexivity.
  destruct (rt_owners r !! a) as [[id|id]|]; [| | by eauto].
  - unfold rt_get_job, lock_state. erewrite bind_ok by reflexivity.
    destruct (get_job (rt_state r) id) as [j|]; [| by eauto].
    destruct (Hs j eq_refl) as [->|Hne]; [by eauto |].
    destruct (Job_is_terminal j); [by eauto |]. rewrite bool_decide_false by done. eauto.
  - unfold get_agent_run, lock_state. erewrite bind_ok by reflexivity.
    destruct (agent_runs (rt_state r) !! id) as [run|]; [| by eauto].
    destruct (Hs run eq_refl) as [->|Hne]; [by eauto |].
    destruct (AgentRunStatus_is_terminal _); [by eauto |]. rewrite bool_decide_false by done. eauto.
Qed.
End stale.

(** C33. The handlers ignore what an agent does that nobody waits for any more.  For
    a state change, an idle, stop or prompt hook of an agent whose owner is
    unknown, has ended or has another agent, in the state to which the event has
    been applied, processing the event is applying it: the handler sends nothing
    and changes nothing else.  The same holds for its signal when the owner is a
    job.  (The application itself does not check the agent: a late failure still
    marks the job of the replaced agent as failed, see [late_failure], and the
    signal of an earlier agent of a standalone run ends the run.) *)
Theorem stale_agent_ignored {Value W} `{!Adapters Value W} `{!RuntimeIO Value W}
    `{!JsonItem Value} `{!TemplateRegex} `{!Processes W} `{!JsonBuild Value} `{!AgentIO W}
    `{!SpawnIO W} `{!CronIO W} a (ev : Event Value) (r : Rt Value W) :
  let applied := rt_apply ev r in
  stale a applied →
  (event_agent ev = Some a → handle_event ev applied = (inr [], applied)) ∧
  (∀ kind message id j,
     ev = AgentSignalled a kind message → rt_owners applied !! a = Some (Owner_Job id) →
     get_job (rt_state applied) id = Some j → handle_event ev applied = (inr [], applied)).
Proof.
  intros applied Hs. destruct (stale_context a applied Hs) as (ctx & Hctx & Hno). split.
  - intros Hev. clearbody applied. destruct ev; simplify_eq/=;
      unfold handle_agent_state_changed, handle_agent_idle_hook, handle_agent_stop_hook,
        handle_agent_prompt_hook; erewrite bind_ok by exact Hctx; by destruct Hno as [-> | ->].
  - intros kind message id j -> Ho Hj. unfold stale in Hs. rewrite Ho in Hs.
    clearbody applied. cbn [handle_event]. unfold handle_agent_done, get_agent_owner.
    erewrite bind_ok by reflexivity. rewrite Ho.
    erewrite bind_ok by (unfold require_job, rt_get_job, lock_state;
      erewrite bind_ok by reflexivity; rewrite Hj; reflexivity).
    destruct (Hs j Hj) as [->|Hne]; [done |].
    destruct (Job_is_terminal j); [done |]. by rewrite bool_decide_false.
Qed.

(** ** Deletion *)

Section deletion.
Context {Value W : Type} `{!Adapters Value W} `{!RuntimeIO Value W} `{!JsonItem Value}
  `{!TemplateRegex} `{!Processes W} `{!JsonBuild Value} `{!AgentIO W} `{!SpawnIO W} `{!CronIO W}.

Lemma no_prefix_deleted (id : string) (m : gmap string Job) :
  (∀ id', id' ≠ id → is_Some (m !! id') → starts_with id id' = false) →
  get_by_prefix id (delete id m) = None.
Proof.
  intros Hno. unfold get_by_prefix. rewrite lookup_delete_eq.
  destruct (filter _ (map_to_list (delete id m))) as [|[k j] l] eqn:E; [done |].
  assert ((k, j) ∈ filter (λ kv, starts_with id kv.1) (map_to_list (delete id m))) as Hin
    by (rewrite E; apply list_elem_of_here).
  apply list_elem_of_filter in Hin as [Hp Hin]. simpl in Hp.
  apply elem_of_map_to_list, lookup_delete_Some in Hin as [Hne Hk].
  by rewrite Hno in Hp.
Qed.
End deletion.

(** Deleting a job cleans up nothing but its timers.  The loop has applied
    the event, so the job is out of the state, before the handler looks for it:
    its agents stay registered, nothing is killed or removed, and its session
    and its workspace stay in the state. *)
Theorem deleted_job_not_cleaned {Value W} `{!Adapters Value W} `{!RuntimeIO Value W}
    `{!JsonItem Value} `{!TemplateRegex} `{!Processes W} `{!JsonBuild Value} `{!AgentIO W}
    `{!SpawnIO W} `{!CronIO W} id (r : Rt Value W) :
  (∀ id', id' ≠ id → is_Some (jobs (rt_state r) !! id') → starts_with id id' = false) →
  let r1 := rt_apply (JobDeleted id) r in
  ∃ r', handle_event (JobDeleted id) r1 = (inr [], r') ∧
    jobs (rt_state r') = delete id (jobs (rt_state r)) ∧
    rt_owners r' = rt_owners r ∧ world_of r' = world_of r ∧ tasks r' = tasks r ∧
    sessions (rt_state r') = sessions (rt_state r) ∧
    workspaces (rt_state r') = workspaces (rt_state r) ∧
    (∀ t, t = liveness id ∨ t = exit_deferred id ∨ t = idle_grace id → ¬ has_timer t r').
Proof.
  intros Hno. cbn [handle_event]. unfold handle_job_deleted, rt_get_job, lock_state.
  erewrite bind_ok by reflexivity. unfold get_job. cbn [rt_state rt_apply].
  erewrite bind_ok by reflexivity. simpl. rewrite no_prefix_deleted by done.
  eexists. split; [reflexivity |]. do 6 (split; [reflexivity |]).
  intros t Ht [tm Htm]. simpl in Htm.
  rewrite map_lookup_filter_Some in Htm. destruct Htm as [Htm _].
  rewrite !lookup_delete_Some in Htm. naive_solver.
Qed.

(** ** Crons of the same name *)

Lemma has_char_rev c s : has_char c (rev_str s) = has_char c s.
Proof.
  induction s as [|a s IH]; [done |]. simpl. rewrite has_char_app, IH. simpl.
  by rewrite orb_false_r, orb_comm.
Qed.

Lemma split_next_none c s : has_char c s = false → split_next c s = s.
Proof. intros H. unfold split_next. apply split_once_None in H. by rewrite H. Qed.

(** The name behind the last slash of a scoped name. *)
Lemma last_segment_scoped ns name :
  has_char "/" name = false → last_segment (scoped_name ns name) = name.
Proof.
  intros Hn. unfold last_segment, scoped_name. destruct (is_empty ns).
  { rewrite split_next_none by by rewrite has_char_rev. apply rev_str_involutive. }
  rewrite !rev_str_app, string_app_assoc. change (rev_str "/") with "/".
  assert (split_next "/"%char (rev_str name +:+ "/" +:+ rev_str ns) = rev_str name) as ->
    by (apply (split_next_app "/"%char); by rewrite has_char_rev).
  apply rev_str_involutive.
Qed.

(** Crons are kept under their bare names, so projects share them: starting
    the cron [name] of namespace [ns2] replaces a cron [name] of any other
    namespace [ns1], whose timer stays set and from then on ticks the cron of
    [ns2]. *)
Theorem crons_share_names {Value W} `{!Adapters Value W} `{!RuntimeIO Value W}
    `{!JsonItem Value} `{!TemplateRegex} `{!Processes W} `{!JsonBuild Value} `{!AgentIO W}
    `{!SpawnIO W} `{!CronIO W} name ns1 ns2 root hash interval target d (r : Rt Value W) :
  has_char "/" name = false → cron name ns1 ≠ cron name ns2 →
  parse_duration interval = inr d → has_timer (cron name ns1) r →
  ∃ r' s, handle_event (CronStarted name root hash interval target ns2) r = (inr [], r') ∧
    rt_crons r' !! name = Some s ∧ cst_namespace s = ns2 ∧ cst_project_root s = root ∧
    has_timer (cron name ns1) r' ∧
    ∀ r2, rt_crons r2 !! name = Some s → handle_timer (cron name ns1) r2 = run_tick name s r2.
Proof.
  intros Hn Hc Hd Ht. cbn [handle_event]. unfold handle_cron_started, cron_interval_duration.
  rewrite Hd. erewrite bind_ok by reflexivity.
  assert (∃ res r1, attempt (cached_runbook hash) r = (inr res, r1) ∧
            ex_scheduler (rt_exec r1) = ex_scheduler (rt_exec r)) as (res & r1 & Hrb & Hsame).
  { unfold attempt, cached_runbook, mbind, rt_bind, gets. destruct (rt_cache r !! hash); [by do 2 eexists |].
    unfold lock_state, ok_or. simpl. destruct (runbooks _ !! hash) as [s|]; simpl; [| by do 2 eexists].
    unfold gets. destruct (runbook_from_json _); by do 2 eexists. }
  erewrite bind_ok by exact Hrb. do 2 eexists. split; [reflexivity |]. simpl.
  rewrite lookup_insert_eq. split; [reflexivity |]. split; [done |]. split; [done |].
  split. { unfold has_timer in *. simpl. rewrite lookup_insert_ne by congruence. by rewrite Hsame. }
  intros r2 Hr2.
  change (handle_timer (cron name ns1) r2) with (handle_cron_timer_fired (scoped_name ns1 name) r2).
  unfold handle_cron_timer_fired. rewrite last_segment_scoped by done.
  erewrite bind_ok by reflexivity. by rewrite Hr2.
Qed.

(** ** Witnesses *)

#[local] Existing Instances quiet_adapters quiet_io unit_json no_regex no_processes unit_build
  quiet_agents quiet_spawns quiet_crons.

(** The agent ["a"] of the job ["j"] has been replaced. *)
Definition replaced_rt : Rt unit unit := sample_rt run_job.

Lemma stale_agent_ignored_witness :
  let waiting := rt_apply (AgentWaiting "a" (Owner_Job "j")) replaced_rt in
  let signalled := rt_apply (AgentSignalled "a" Signal_Complete None) replaced_rt in
  handle_event (AgentWaiting "a" (Owner_Job "j")) waiting = (inr [], waiting) ∧
  handle_event (AgentSignalled "a" Signal_Complete None) signalled = (inr [], signalled).
Proof.
  assert (∀ ev : Event unit, get_job (rt_state (rt_apply ev replaced_rt)) "j" = Some run_job →
    rt_owners (rt_apply ev replaced_rt) !! "a" = Some (Owner_Job "j") →
    stale "a" (rt_apply ev replaced_rt)) as Hs.
  { intros ev Hj Ho. unfold stale. rewrite Ho, Hj. intros j [= <-]. right. discriminate. }
  split.
  - exact (proj1 (stale_agent_ignored "a" (AgentWaiting "a" (Owner_Job "j")) replaced_rt
             (Hs (AgentWaiting "a" (Owner_Job "j")) eq_refl eq_refl)) eq_refl).
  - exact (proj2 (stale_agent_ignored "a" (AgentSignalled "a" Signal_Complete None) replaced_rt
             (Hs (AgentSignalled "a" Signal_Complete None) eq_refl eq_refl)) Signal_Complete None "j" run_job eq_refl eq_refl eq_refl).
Defined.

(** A failure that arrives late, of an agent that was replaced, marks the job as
    failed when it is applied, and the handler does nothing about it. *)
Example late_failure :
  let applied := rt_apply (AgentFailed "a" (OtherError "late") (Owner_Job "j")) replaced_rt in
  handle_event (AgentFailed "a" (OtherError "late") (Owner_Job "j")) applied = (inr [], applied) ∧
  job_step_status <$> jobs (rt_state replaced_rt) !! "j" = Some Pending ∧
  job_step_status <$> jobs (rt_state applied) !! "j" = Some Failed.
Proof. split_and!; vm_compute; reflexivity. Qed.

Lemma deleted_job_not_cleaned_witness :
  ∃ r', handle_event (JobDeleted "j") (rt_apply (JobDeleted "j") (sample_rt run_job)) = (inr [], r') ∧
    jobs (rt_state r') = ∅ ∧ rt_owners r' = {["a" := Owner_Job "j"]} ∧
    sessions (rt_state r') = {["sess" := mkSession "sess" "j"]}.
Proof.
  destruct (deleted_job_not_cleaned "j" (sample_rt run_job)) as (r' & Hr & Hj & Ho & _ & _ & Hs & _).
  { intros id' Hne [j Hj]. simpl in Hj. by apply lookup_insert_Some in Hj as [[<- _]|[_ ?]]. }
  exists r'. split; [exact Hr |]. split; [by rewrite Hj |]. split; [exact Ho | exact Hs].
Defined.

Definition two_crons_rt : Rt unit unit :=
  rt_set_timer (cron "c" "A") 5 (sample_rt run_job).

Lemma crons_share_names_witness :
  ∃ r' s, handle_event (CronStarted "c" "/b" "h" "1h" "job:k" "B") two_crons_rt = (inr [], r') ∧
    rt_crons r' !! "c" = Some s ∧ cst_project_root s = "/b" ∧
    handle_timer (cron "c" "A") r' = run_tick "c" s r'.
Proof.
  destruct (crons_share_names "c" "A" "B" "/b" "h" "1h" "job:k" (3600 * 1000000000) two_crons_rt)
    as (r' & s & Hr & Hs & _ & Hroot & _ & Htick);
    [reflexivity | discriminate | reflexivity | by eexists |].
  exists r', s. split; [exact Hr |]. split; [exact Hs |]. split; [exact Hroot |]. by apply Htick.
Defined.

Local Close Scope string_scope.
