(* ===== verification/Wal.v ===== *)
(** The write-ahead log: [crates/storage/src/wal.rs].

    The file is its bytes, one JSON line for each entry.  The JSON encoding is
    third-party code: a [Codec] encodes and decodes an entry, and [CodecLaws]
    states what the log relies on.  Reads succeed; a write may fail at any byte
    of any line of a flush ([FlushIO]), and the rewriting of the file by
    [truncate_before] may fail as a whole.  The corrupt file that [open] sets
    aside is returned beside the log. *)

From S2P Require Import Prelude Bytes.

Class Codec (E : Type) := {
  (** [serde_json::to_vec] of [WalRecordRef] *)
  encode : Z → E → option string;
  (** [serde_json::from_str] into [WalRecord] *)
  decode : string → option (Z * E)
}.

(** An encoded entry is a JSON object on one line, it decodes to what was
    encoded, and neither a proper prefix of it nor two of them in a row decode. *)
Class CodecLaws (E : Type) `{!Codec E} := {
  encode_braced n e l : encode n e = Some l → braced l;
  encode_no_newline n e l : encode n e = Some l → has_char newline l = false;
  encode_utf8 n e l : encode n e = Some l → utf8_valid l = true;
  decode_encode n e l : encode n e = Some l → decode l = Some (n, e);
  decode_prefix n e p q :
    encode n e = Some (p +:+ q) → q ≠ EmptyString → decode (trim p) = None;
  decode_two n e l n' e' l' :
    encode n e = Some l → encode n' e' = Some l' → decode (l +:+ l') = None
}.

Inductive WalError := Wal_Io | Wal_Json.

Record Wal := mkWal {
  file : string;
  write_seq : Z;
  processed_seq : Z;
  write_buffer : list string;
  last_flush : Z;
  read_offset : nat
}.

(** 10 ms in nanoseconds *)
Definition FLUSH_INTERVAL : Z := 10000000.
Definition FLUSH_THRESHOLD : nat := 100.

(** The outcome of the writes of a flush: the line whose write fails and the
    bytes of it that were written, and whether [sync_all] succeeds. *)
Record FlushIO := mkFlushIO {
  write_fault : option (nat * nat);
  sync_ok : bool
}.

Definition io_ok : FlushIO := mkFlushIO None true.

Section Wal.
Context {E : Type} `{!Codec E}.
Implicit Types (w : Wal).

(** ** Reading *)

(** What the loops make of a line: not UTF-8 ([InvalidData]), blank, not an
    entry, or an entry with its trimmed text. *)
Inductive Line :=
  | InvalidData
  | Blank
  | Garbage
  | Entry (seq : Z) (event : E) (text : string).

Definition classify (raw : string) : Line :=
  if negb (utf8_valid raw) then InvalidData
  else
    let trimmed := trim raw in
    if is_empty trimmed then Blank
    else match decode trimmed with
         | Some (seq, event) => Entry seq event trimmed
         | None => Garbage
         end.

Fixpoint scan_lines (processed : Z) (ls : list string) (max_seq : Z)
    (read_offset current_offset : nat) : Z * nat * nat * bool :=
  match ls with
  | [] => (max_seq, read_offset, current_offset, false)
  | raw :: ls' =>
      match classify raw with
      | InvalidData | Garbage => (max_seq, read_offset, current_offset, true)
      | Blank =>
          scan_lines processed ls' max_seq read_offset (current_offset + String.length raw)
      | Entry seq _ _ =>
          scan_lines processed ls' (Z.max max_seq seq)
            (if (processed <? seq)%Z && Nat.eqb read_offset 0 then current_offset
             else read_offset)
            (current_offset + String.length raw)
      end
  end.

(** The maximum sequence number, the offset to read from, and whether the
    file is corrupt. *)
Definition scan_wal (content : string) (processed : Z) : Z * nat * bool :=
  let '(max_seq, read_offset, current_offset, corrupt) :=
    scan_lines processed (raw_lines content) 0 0 0 in
  (max_seq, if Nat.eqb read_offset 0 then current_offset else read_offset, corrupt).

Fixpoint read_valid_lines (ls : list string) : list string :=
  match ls with
  | [] => []
  | raw :: ls' =>
      match classify raw with
      | InvalidData | Garbage => []
      | Blank => read_valid_lines ls'
      | Entry _ _ text => text :: read_valid_lines ls'
      end
  end.

(** Lines written out, each with its newline. *)
Fixpoint write_lines (ls : list string) : string :=
  match ls with
  | [] => EmptyString
  | l :: ls' => (l +:+ newline_str) +:+ write_lines ls'
  end.

(** [Wal::open] on the bytes of the file (empty when it has just been
    created), with the corrupt file it rotates to [.bak]. *)
Definition wal_open (now : Z) (content : string) (processed : Z) : Wal * option string :=
  let '(write_seq, read_offset, corrupt) := scan_wal content processed in
  if corrupt then
    let content' := write_lines (read_valid_lines (raw_lines content)) in
    let '(write_seq, read_offset, _) := scan_wal content' processed in
    (mkWal content' write_seq processed [] now read_offset, Some content)
  else (mkWal content write_seq processed [] now read_offset, None).

Fixpoint collect_after (seq : Z) (ls : list string) : list (Z * E) :=
  match ls with
  | [] => []
  | raw :: ls' =>
      match classify raw with
      | InvalidData | Garbage => []
      | Blank => collect_after seq ls'
      | Entry n e _ =>
          if (seq <? n)%Z then (n, e) :: collect_after seq ls' else collect_after seq ls'
      end
  end.

Definition entries_after (seq : Z) w : list (Z * E) := collect_after seq (raw_lines (file w)).

(** ** Writing *)

(** The sequence number is taken before the serialization, which may fail. *)
Definition append (event : E) w : (WalError + Z) * Wal :=
  let seq := (write_seq w +u64 1)%oj in
  let w := mkWal (file w) seq (processed_seq w) (write_buffer w) (last_flush w)
             (read_offset w) in
  match encode seq event with
  | None => (inl Wal_Json, w)
  | Some json_bytes =>
      (inr seq, mkWal (file w) seq (processed_seq w) (write_buffer w ++ [json_bytes])
                  (last_flush w) (read_offset w))
  end.

Definition needs_flush (now : Z) w : bool :=
  negb (match write_buffer w with [] => true | _ => false end) &&
  ((FLUSH_INTERVAL <=? now - last_flush w)%Z || (FLUSH_THRESHOLD <=? length (write_buffer w))%nat).

(** The bytes that reach the file, and whether every write succeeded. *)
Fixpoint write_all (ls : list string) (fault : option (nat * nat)) : string * bool :=
  match ls with
  | [] => (EmptyString, true)
  | l :: ls' =>
      match fault with
      | Some (O, k) => (take_str k (l +:+ newline_str), false)
      | Some (S i, k) =>
          let '(bytes, ok) := write_all ls' (Some (i, k)) in
          ((l +:+ newline_str) +:+ bytes, ok)
      | None =>
          let '(bytes, ok) := write_all ls' None in ((l +:+ newline_str) +:+ bytes, ok)
      end
  end.

(** [drain] empties the buffer also when a write fails. *)
Definition flush (now : Z) (io : FlushIO) w : (WalError + unit) * Wal :=
  match write_buffer w with
  | [] => (inr tt, w)
  | _ =>
      let '(bytes, ok) := write_all (write_buffer w) (write_fault io) in
      if ok && sync_ok io then
        (inr tt, mkWal (file w +:+ bytes) (write_seq w) (processed_seq w) [] now (read_offset w))
      else
        (inl Wal_Io, mkWal (file w +:+ bytes) (write_seq w) (processed_seq w) []
                       (last_flush w) (read_offset w))
  end.

Definition advance_read (n : nat) w : Wal :=
  mkWal (file w) (write_seq w) (processed_seq w) (write_buffer w) (last_flush w)
    (read_offset w + n).

Definition next_unprocessed (now : Z) (io : FlushIO) w : (WalError + option (Z * E)) * Wal :=
  match flush now io w with
  | (inl err, w) => (inl err, w)
  | (inr _, w) =>
      match raw_lines (drop_str (read_offset w) (file w)) with
      | [] => (inr None, w)
      | raw :: _ =>
          match classify raw with
          | InvalidData | Blank => (inr None, w)
          | Garbage => (inr None, advance_read (String.length raw) w)
          | Entry seq event _ => (inr (Some (seq, event)), advance_read (String.length raw) w)
          end
      end
  end.

Definition mark_processed (seq : Z) w : Wal :=
  mkWal (file w) (write_seq w) seq (write_buffer w) (last_flush w) (read_offset w).

(** ** Truncation *)

Fixpoint kept_lines (seq : Z) (ls : list string) : list (Z * string) :=
  match ls with
  | [] => []
  | raw :: ls' =>
      match classify raw with
      | InvalidData | Garbage => []
      | Blank => kept_lines seq ls'
      | Entry n _ text =>
          if (seq <=? n)%Z then (n, text) :: kept_lines seq ls' else kept_lines seq ls'
      end
  end.

(** The write pass: the bytes, and the offset of the first entry after
    [processed], the end of the file if there is none. *)
Fixpoint write_kept (processed : Z) (ls : list (Z * string)) (current_offset : nat)
    (found : option nat) : string * nat :=
  match ls with
  | [] => (EmptyString, default current_offset found)
  | (n, l) :: ls' =>
      let found := match found with
                   | Some _ => found
                   | None => if (processed <? n)%Z then Some current_offset else None
                   end in
      let '(bytes, offset) :=
        write_kept processed ls' (current_offset + (String.length l + 1)) found in
      ((l +:+ newline_str) +:+ bytes, offset)
  end.

(** [tmp_ok]: the new file is written, synced and renamed into place. *)
Definition truncate_before (now : Z) (io : FlushIO) (tmp_ok : bool) (seq : Z) w
    : (WalError + unit) * Wal :=
  match flush now io w with
  | (inl err, w) => (inl err, w)
  | (inr _, w) =>
      let '(bytes, offset) :=
        write_kept (processed_seq w) (kept_lines seq (raw_lines (file w))) 0 None in
      if tmp_ok then
        (inr tt, mkWal bytes (write_seq w) (processed_seq w) (write_buffer w) (last_flush w)
                   offset)
      else (inl Wal_Io, w)
  end.
End Wal.
