(* ===== verification/WalSpec.v ===== *)
(** What the write-ahead log promises.

    The abstract log is a list of entries on disk, a list of entries that wait
    in the buffer, and the number of entries delivered so far; a [Wal]
    represents one ([wal_rep]).  Without I/O faults every sequence of
    operations gives the same results on both ([wal_refines_log]).  The rest is
    about a file after a crash: what a torn file still holds, what reopening
    keeps, and where reopening goes wrong. *)

From S2P Require Import Prelude Bytes Wal.

(** ** The abstract log *)

Record Log {E : Type} := mkLog {
  log_entries : list (Z * E);
  log_pending : list (Z * E);
  log_pos : nat;
  log_seq : Z;
  log_done : Z
}.
Arguments Log : clear implicits.
Arguments mkLog {E}.

Inductive WalOp {E : Type} :=
  | OpAppend (event : E)
  | OpFlush
  | OpNext
  | OpMark (seq : Z)
  | OpTruncate (seq : Z).
Arguments WalOp : clear implicits.

Inductive WalResult {E : Type} :=
  | ResError
  | ResSeq (seq : Z)
  | ResUnit
  | ResEntry (entry : option (Z * E)).
Arguments WalResult : clear implicits.

Section spec.
Context {E : Type} `{!Codec E}.

(** One operation of the concrete log, all writes succeeding, at time [now]. *)
Definition wal_step (now : Z) (op : WalOp E) (w : Wal) : WalResult E * Wal :=
  match op with
  | OpAppend e =>
      match append e w with
      | (inl _, w) => (ResError, w)
      | (inr seq, w) => (ResSeq seq, w)
      end
  | OpFlush =>
      match flush now io_ok w with
      | (inl _, w) => (ResError, w)
      | (inr _, w) => (ResUnit, w)
      end
  | OpNext =>
      match next_unprocessed now io_ok w with
      | (inl _, w) => (ResError, w)
      | (inr r, w) => (ResEntry r, w)
      end
  | OpMark seq => (ResUnit, mark_processed seq w)
  | OpTruncate seq =>
      match truncate_before now io_ok true seq w with
      | (inl _, w) => (ResError, w)
      | (inr _, w) => (ResUnit, w)
      end
  end.

Definition log_flush (L : Log E) : Log E :=
  mkLog (log_entries L ++ log_pending L) [] (log_pos L) (log_seq L) (log_done L).

(** The entries before the first one after [n]. *)
Fixpoint count_until (n : Z) (es : list (Z * E)) : nat :=
  match es with
  | [] => 0
  | e :: es' => if (n <? e.1)%Z then 0 else S (count_until n es')
  end.

Definition log_step (op : WalOp E) (L : Log E) : WalResult E * Log E :=
  match op with
  | OpAppend e =>
      let seq := (log_seq L +u64 1)%oj in
      match encode seq e with
      | None => (ResError, mkLog (log_entries L) (log_pending L) (log_pos L) seq (log_done L))
      | Some _ =>
          (ResSeq seq, mkLog (log_entries L) (log_pending L ++ [(seq, e)]) (log_pos L) seq
                         (log_done L))
      end
  | OpFlush => (ResUnit, log_flush L)
  | OpNext =>
      let L := log_flush L in
      let r := log_entries L !! log_pos L in
      (ResEntry r, mkLog (log_entries L) [] (log_pos L + match r with Some _ => 1 | None => 0 end)
                     (log_seq L) (log_done L))
  | OpMark seq =>
      (ResUnit, mkLog (log_entries L) (log_pending L) (log_pos L) (log_seq L) seq)
  | OpTruncate seq =>
      let kept := filter (λ e, (seq ≤ e.1)%Z) (log_entries L ++ log_pending L) in
      (ResUnit, mkLog kept [] (count_until (log_done L) kept) (log_seq L) (log_done L))
  end.

Fixpoint wal_run (now : Z) (ops : list (WalOp E)) (w : Wal) : list (WalResult E) * Wal :=
  match ops with
  | [] => ([], w)
  | op :: ops' =>
      let '(r, w) := wal_step now op w in
      let '(rs, w) := wal_run now ops' w in (r :: rs, w)
  end.

Fixpoint log_run (ops : list (WalOp E)) (L : Log E) : list (WalResult E) * Log E :=
  match ops with
  | [] => ([], L)
  | op :: ops' =>
      let '(r, L) := log_step op L in
      let '(rs, L) := log_run ops' L in (r :: rs, L)
  end.

(** ** Representation *)

Definition encodes (es : list (Z * E)) (ls : list string) : Prop :=
  Forall2 (λ e l, encode e.1 e.2 = Some l) es ls.

Record wal_rep (w : Wal) (L : Log E) : Prop := {
  rep_file : ∃ ls, encodes (log_entries L) ls ∧ file w = write_lines ls ∧
               read_offset w = String.length (write_lines (take (log_pos L) ls));
  rep_pos : log_pos L ≤ length (log_entries L);
  rep_buffer : encodes (log_pending L) (write_buffer w);
  rep_seq : write_seq w = log_seq L;
  rep_done : processed_seq w = log_done L
}.
End spec.

(** ** Lines of encoded entries *)

Section lines.
Context {E : Type} `{!Codec E} `{!CodecLaws E}.
Implicit Types (es : list (Z * E)) (ls : list string).

Lemma is_empty_braced l : braced l → is_empty l = false.
Proof. by intros [m ->]. Qed.

Lemma classify_line n e l : encode n e = Some l → classify (l +:+ newline_str) = Entry n e l.
Proof.
  intros H. unfold classify.
  rewrite utf8_valid_newline by (by eapply encode_utf8). simpl.
  rewrite trim_braced_newline by (by eapply encode_braced).
  rewrite is_empty_braced by (by eapply encode_braced).
  by erewrite decode_encode.
Qed.

Lemma classify_unended n e l : encode n e = Some l → classify l = Entry n e l.
Proof.
  intros H. unfold classify.
  rewrite (encode_utf8 _ _ _ H). simpl.
  rewrite trim_braced by (by eapply encode_braced).
  rewrite is_empty_braced by (by eapply encode_braced).
  by erewrite decode_encode.
Qed.

Lemma raw_lines_write es ls rest :
  encodes es ls →
  raw_lines (write_lines ls +:+ rest) = map (λ l, l +:+ newline_str) ls ++ raw_lines rest.
Proof.
  induction 1 as [|e l es ls He H IH]; [done |]. simpl.
  rewrite !string_app_assoc. unfold newline_str at 1. simpl String.append at 2.
  rewrite raw_lines_cons by (by eapply encode_no_newline). by rewrite IH.
Qed.

Lemma raw_lines_written es ls :
  encodes es ls → raw_lines (write_lines ls) = map (λ l, l +:+ newline_str) ls.
Proof.
  intros H. pose proof (raw_lines_write es ls EmptyString H) as Hr.
  rewrite string_app_nil_r in Hr. by rewrite Hr, app_nil_r.
Qed.

Lemma write_lines_app ls1 ls2 : write_lines (ls1 ++ ls2) = write_lines ls1 +:+ write_lines ls2.
Proof. induction ls1 as [|l ls1 IH]; [done |]. simpl. by rewrite IH, !string_app_assoc. Qed.

Lemma write_all_ok ls : write_all ls None = (write_lines ls, true).
Proof. induction ls as [|l ls IH]; [done |]. simpl. by rewrite IH. Qed.

(** The scans of a file of encoded lines, whatever follows them. *)
Lemma collect_after_write seq es ls tail :
  encodes es ls →
  collect_after seq (map (λ l, l +:+ newline_str) ls ++ tail)
  = filter (λ e, (seq < e.1)%Z) es ++ collect_after seq tail.
Proof.
  induction 1 as [|[n e] l es ls He H IH]; [done |]. simpl.
  rewrite (classify_line _ _ _ He), IH, filter_cons. simpl.
  case_decide; [rewrite (proj2 (Z.ltb_lt _ _)) by done | rewrite (proj2 (Z.ltb_ge _ _)) by lia];
    done.
Qed.

Lemma read_valid_write es ls tail :
  encodes es ls →
  read_valid_lines (map (λ l, l +:+ newline_str) ls ++ tail) = ls ++ read_valid_lines tail.
Proof.
  induction 1 as [|[n e] l es ls He H IH]; [done |]. simpl.
  by rewrite (classify_line _ _ _ He), IH.
Qed.

Lemma kept_lines_write seq es ls :
  encodes es ls →
  ∃ ls', kept_lines seq (map (λ l, l +:+ newline_str) ls)
           = zip (filter (λ e, (seq ≤ e.1)%Z) es).*1 ls' ∧
         encodes (filter (λ e, (seq ≤ e.1)%Z) es) ls'.
Proof.
  induction 1 as [|[n e] l es ls He H IH]; [by exists []; split; [| constructor] |].
  destruct IH as (ls' & Hk & Henc). simpl.
  rewrite (classify_line _ _ _ He), filter_cons. simpl. case_decide.
  - rewrite (proj2 (Z.leb_le _ _)) by done. exists (l :: ls'). rewrite Hk.
    split; [done |]. by constructor.
  - rewrite (proj2 (Z.leb_gt _ _)) by lia. by exists ls'.
Qed.

Lemma write_kept_found processed ps off n :
  write_kept processed ps off (Some n) = (write_lines ps.*2, n).
Proof.
  revert off. induction ps as [|[k l] ps IH]; intros off; [done |]. simpl. by rewrite IH.
Qed.

Lemma write_kept_spec processed es ls off :
  encodes es ls →
  write_kept processed (zip es.*1 ls) off None =
  (write_lines ls, off + String.length (write_lines (take (count_until processed es) ls))).
Proof.
  intros H. revert off. induction H as [|[n e] l es ls He H IH]; intros off; csimpl.
  - f_equal. lia.
  - assert ((zip es.*1 ls).*2 = ls) as Hsnd.
    { apply snd_zip. rewrite length_fmap. by rewrite (Forall2_length _ _ _ H). }
    destruct (processed <? n)%Z; csimpl.
    + rewrite write_kept_found, Hsnd. f_equal. lia.
    + rewrite IH. f_equal. rewrite !string_length_app. simpl. lia.
Qed.
End lines.

(** ** Refinement *)

Section refinement.
Context {E : Type} `{!Codec E} `{!CodecLaws E}.
Implicit Types (w : Wal) (L : Log E).

Lemma append_refines now e w L :
  wal_rep w L →
  (wal_step now (OpAppend e) w).1 = (log_step (OpAppend e) L).1 ∧
  wal_rep (wal_step now (OpAppend e) w).2 (log_step (OpAppend e) L).2.
Proof.
  intros [(ls & Hls & Hf & Ho) Hp Hb Hs Hd]. simpl. unfold append. rewrite Hs.
  destruct (encode (log_seq L +u64 1)%oj e) as [l|] eqn:He; simpl; (split; [done |]);
    split; simpl; try done; try (by exists ls).
  apply Forall2_app; [done |]. by constructor.
Qed.

Lemma flush_refines now w L :
  wal_rep w L →
  ∃ w', flush now io_ok w = (inr tt, w') ∧ wal_rep w' (log_flush L).
Proof.
  intros [(ls & Hls & Hf & Ho) Hp Hb Hs Hd]. unfold flush.
  destruct (write_buffer w) as [|b bs] eqn:Hbuf.
  - eexists. split; [done |]. apply Forall2_nil_inv_r in Hb.
    split; simpl; rewrite ?Hb, ?app_nil_r; try done; [by exists ls |].
    rewrite Hbuf. constructor.
  - rewrite write_all_ok. simpl. eexists. split; [done |]. split; simpl; try done.
    + exists (ls ++ b :: bs). split_and!.
      * by apply Forall2_app.
      * by rewrite Hf, write_lines_app.
      * rewrite Ho, take_app_le; [done |]. by rewrite <- (Forall2_length _ _ _ Hls).
    + rewrite length_app. lia.
    + constructor.
Qed.

(** Reading from the offset of entry [n] gives the lines from there on. *)
Lemma drop_write_lines n ls :
  drop_str (String.length (write_lines (take n ls))) (write_lines ls) = write_lines (drop n ls).
Proof. rewrite <- (take_drop n ls) at 2. rewrite write_lines_app. apply drop_str_app. Qed.

Lemma next_refines now w L :
  wal_rep w L →
  (wal_step now OpNext w).1 = (log_step OpNext L).1 ∧
  wal_rep (wal_step now OpNext w).2 (log_step OpNext L).2.
Proof.
  intros HR. destruct (flush_refines now w L HR) as (w' & Hfl & HR').
  simpl. unfold next_unprocessed. rewrite Hfl. clear HR Hfl w.
  destruct HR' as [(ls & Hls & Hf & Ho) Hp Hb Hs Hd]. simpl in *.
  rewrite Ho, Hf, drop_write_lines.
  destruct ((log_entries L ++ log_pending L) !! log_pos L) as [[n e]|] eqn:Hn.
  - destruct (Forall2_lookup_l _ _ _ _ _ Hls Hn) as (l & Hl & He). simpl in He.
    rewrite (drop_S _ _ _ Hl). simpl. rewrite string_app_assoc.
    change (newline_str +:+ ?r) with (String newline r).
    rewrite raw_lines_cons by (by eapply encode_no_newline).
    rewrite (classify_line _ _ _ He). simpl. split; [done |]. split; simpl; try done.
    + exists ls. split_and!; [done | done |].
      rewrite Ho, Nat.add_1_r, (take_S_r _ _ _ Hl), write_lines_app, !string_length_app.
      f_equal. simpl. by rewrite string_app_nil_r, string_length_app.
    + apply lookup_lt_Some in Hn. lia.
  - apply lookup_ge_None in Hn.
    rewrite drop_ge by (by rewrite <- (Forall2_length _ _ _ Hls)). simpl.
    split; [done |]. rewrite Nat.add_0_r. split; simpl; try done. by exists ls.
Qed.

Lemma count_until_le n (es : list (Z * E)) : count_until n es ≤ length es.
Proof. induction es as [|e es IH]; simpl; [done |]. destruct (n <? e.1)%Z; lia. Qed.

Lemma truncate_refines now seq w L :
  wal_rep w L →
  (wal_step now (OpTruncate seq) w).1 = (log_step (OpTruncate seq) L).1 ∧
  wal_rep (wal_step now (OpTruncate seq) w).2 (log_step (OpTruncate seq) L).2.
Proof.
  intros HR. destruct (flush_refines now w L HR) as (w' & Hfl & HR').
  simpl. unfold truncate_before. rewrite Hfl. clear HR Hfl w.
  destruct HR' as [(ls & Hls & Hf & Ho) Hp Hb Hs Hd]. simpl in *.
  rewrite Hf, (raw_lines_written _ _ Hls), Hd.
  destruct (kept_lines_write seq _ _ Hls) as (ls' & -> & Hls').
  rewrite (write_kept_spec _ _ _ _ Hls'). simpl. split; [done |]. split; simpl; try done.
  - by exists ls'.
  - apply count_until_le.
Qed.

Lemma wal_step_refines now op w L :
  wal_rep w L →
  (wal_step now op w).1 = (log_step op L).1 ∧
  wal_rep (wal_step now op w).2 (log_step op L).2.
Proof.
  intros HR. destruct op.
  - by apply append_refines.
  - destruct (flush_refines now w L HR) as (w' & Hfl & HR'). simpl. by rewrite Hfl.
  - by apply next_refines.
  - simpl. split; [done |]. destruct HR as [(ls & ?) ????]. split; simpl; try done. by exists ls.
  - by apply truncate_refines.
Qed.

Lemma entries_after_rep seq w L :
  wal_rep w L → entries_after seq w = filter (λ e, (seq < e.1)%Z) (log_entries L).
Proof.
  intros [(ls & Hls & Hf & _) _ _ _ _]. unfold entries_after. rewrite Hf.
  rewrite (raw_lines_written _ _ Hls), <- (app_nil_r (map _ ls)).
  rewrite (collect_after_write _ _ _ _ Hls). simpl. by rewrite app_nil_r.
Qed.
End refinement.

(** C5. The write-ahead log implements the abstract log: as long as the disk
    does not fail, any sequence of appends, flushes, reads, marks and
    truncations gives the same results as on a list of entries with a read
    position, and [entries_after] lists exactly the entries on disk with a
    greater sequence number. *)
Theorem wal_refines_log {E} `{!Codec E} `{!CodecLaws E} now (ops : list (WalOp E)) w L seq :
  wal_rep w L →
  (wal_run now ops w).1 = (log_run ops L).1 ∧
  wal_rep (wal_run now ops w).2 (log_run ops L).2 ∧
  entries_after seq (wal_run now ops w).2
    = filter (λ e, (seq < e.1)%Z) (log_entries (log_run ops L).2).
Proof.
  intros HR.
  assert ((wal_run now ops w).1 = (log_run ops L).1 ∧
          wal_rep (wal_run now ops w).2 (log_run ops L).2) as [H1 H2].
  { revert w L HR. induction ops as [|op ops IH]; intros w L HR; [done |]. simpl.
    destruct (wal_step_refines now op w L HR) as [Hr HR'].
    destruct (wal_step now op w) as [r w'], (log_step op L) as [r' L']. simpl in *. subst r'.
    destruct (IH w' L' HR') as [Hrs HR''].
    destruct (wal_run now ops w') as [rs w''], (log_run ops L') as [rs' L'']. simpl in *.
    by subst rs'. }
  split_and!; [done | done |]. by apply entries_after_rep.
Qed.

(** ** Reopening *)

Section reopen.
Context {E : Type} `{!Codec E} `{!CodecLaws E}.
Implicit Types (es : list (Z * E)) (ls : list string).

Definition max_from (m : Z) es : Z := foldl (λ m e, Z.max m e.1) m es.

(** Where a reopened log starts reading: after the first entry, whatever it
    is, at the next unprocessed one. *)
Definition open_pos (processed : Z) es : nat :=
  match es with [] => 0 | _ :: es' => S (count_until processed es') end.

Lemma length_line_pos n e l : encode n e = Some l → 0 < String.length (l +:+ newline_str).
Proof. intros _. rewrite string_length_app. simpl. lia. Qed.

(** Scanning on once an offset has been found. *)
Lemma scan_found processed es ls m ro cur tail :
  encodes es ls → ro ≠ 0 →
  scan_lines processed (map (λ l, l +:+ newline_str) ls ++ tail) m ro cur
  = scan_lines processed tail (max_from m es) ro (cur + String.length (write_lines ls)).
Proof.
  intros H Hro. revert m cur. induction H as [|[n e] l es ls He H IH]; intros m cur; simpl.
  - by rewrite Nat.add_0_r.
  - rewrite (classify_line _ _ _ He). destruct ro as [|ro]; [done |].
    rewrite andb_false_r, IH. f_equal. rewrite (string_length_app (l +:+ newline_str)). lia.
Qed.

(** Scanning past the start of the file. *)
Lemma scan_rest processed es ls m cur tail :
  encodes es ls → cur ≠ 0 →
  scan_lines processed (map (λ l, l +:+ newline_str) ls ++ tail) m 0 cur
  = scan_lines processed tail (max_from m es)
      (if Nat.eqb (count_until processed es) (length es) then 0
       else cur + String.length (write_lines (take (count_until processed es) ls)))
      (cur + String.length (write_lines ls)).
Proof.
  intros H. revert m cur. induction H as [|[n e] l es ls He H IH]; intros m cur Hcur; simpl.
  - by rewrite Nat.add_0_r.
  - rewrite (classify_line _ _ _ He). rewrite andb_true_r.
    destruct (processed <? n)%Z eqn:Hn; simpl; rewrite ?Hn.
    + rewrite (scan_found _ _ _ _ _ _ _ H Hcur). f_equal; [lia |].
      rewrite (string_length_app (l +:+ newline_str)). lia.
    + pose proof (length_line_pos _ _ _ He). rewrite IH by lia.
      destruct (Nat.eqb (count_until processed es) (length es)); f_equal; simpl;
        rewrite ?(string_length_app (l +:+ newline_str)); lia.
Qed.

Lemma scan_clean processed es ls :
  encodes es ls →
  scan_wal (write_lines ls) processed =
  (max_from 0 es, String.length (write_lines (take (open_pos processed es) ls)), false).
Proof.
  intros H. unfold scan_wal. rewrite (raw_lines_written _ _ H).
  destruct H as [|[n e] l es ls He H]; [done |]. simpl.
  rewrite (classify_line _ _ _ He). pose proof (length_line_pos _ _ _ He) as Hl.
  match goal with
  | |- context [if ?b then 0 else 0] => replace (if b then 0 else 0) with 0 by by destruct b
  end.
  rewrite <- (app_nil_r (map _ ls)).
  rewrite (scan_rest _ _ _ _ _ _ H) by lia. simpl.
  destruct (Nat.eqb_spec (count_until processed es) (length es)) as [Heq|Hne]; simpl.
  - f_equal. f_equal. rewrite Heq, (Forall2_length _ _ _ H), firstn_all.
    by rewrite (string_length_app (l +:+ newline_str)).
  - rewrite (proj2 (Nat.eqb_neq _ 0)) by lia. f_equal. f_equal.
    by rewrite (string_length_app (l +:+ newline_str)).
Qed.

Lemma open_clean now processed es ls :
  encodes es ls →
  ∃ w, wal_open now (write_lines ls) processed = (w, None) ∧
    wal_rep w (mkLog es [] (open_pos processed es) (max_from 0 es) processed).
Proof.
  intros H. unfold wal_open. rewrite (scan_clean _ _ _ H). eexists. split; [done |].
  split; simpl; try done; [by exists ls | | constructor].
  destruct es as [|e es]; [done |]. simpl. pose proof (count_until_le processed es). lia.
Qed.
End reopen.

(** Reopening a log keeps every entry and continues the sequence numbers,
    and when the first entry of the file has been processed, reading resumes at
    the first unprocessed entry.  When the first entry has not been processed,
    it is never delivered: the scan takes the offset 0 it found for "no offset
    found yet". *)
Theorem reopen_resumes {E} `{!Codec E} `{!CodecLaws E} now processed (es : list (Z * E)) ls :
  encodes es ls →
  ∃ w, wal_open now (write_lines ls) processed = (w, None) ∧
    wal_rep w (mkLog es [] (open_pos processed es) (max_from 0 es) processed) ∧
    match es with
    | [] => True
    | e :: _ =>
        if (e.1 <=? processed)%Z then open_pos processed es = count_until processed es
        else count_until processed es = 0 ∧ 0 < open_pos processed es
    end.
Proof.
  intros H. destruct (open_clean now processed es ls H) as (w & Hw & HR).
  exists w. split_and!; [done | done |]. destruct es as [|[n e] es]; [done |]. simpl.
  destruct (Z.leb_spec n processed).
  - by rewrite (proj2 (Z.ltb_ge _ _)) by lia.
  - rewrite (proj2 (Z.ltb_lt _ _)) by lia. split; [done | lia].
Qed.

(** ** After a crash *)

Section crash.
Context {E : Type} `{!Codec E} `{!CodecLaws E}.
Implicit Types (es : list (Z * E)) (ls : list string).

Lemma string_app_split a b p q :
  a +:+ b = p +:+ q →
  (∃ r, a = p +:+ r) ∨ (∃ r, p = a +:+ r ∧ b = r +:+ q).
Proof.
  revert p. induction a as [|x a IH]; intros p; simpl; [right; by exists p |].
  destruct p as [|y p]; simpl; [left; by exists (String x a) |].
  intros [= -> Heq]. destruct (IH p Heq) as [[r ->]|(r & -> & ->)].
  - left. by exists r.
  - right. by exists r.
Qed.

(** A prefix of a file of lines: whole lines, then part of the next line,
    perhaps all of it but its newline. *)
Lemma write_lines_prefix ls p q :
  write_lines ls = p +:+ q →
  ∃ k t, p = write_lines (take k ls) +:+ t ∧ k ≤ length ls ∧
    (t = EmptyString ∨ ∃ l r, ls !! k = Some l ∧ l = t +:+ r).
Proof.
  revert p. induction ls as [|l ls IH]; intros p; simpl.
  - destruct p; [| done]. intros _. exists 0, EmptyString. auto.
  - rewrite string_app_assoc. intros [[r Hr]|(r & -> & Hr)]%string_app_split.
    + exists 0, p. split_and!; [done | lia | right; by exists l, r].
    + destruct r as [|a r]; simpl in Hr.
      { exists 0, l. rewrite string_app_nil_r. split_and!; [done | lia |].
        right. exists l, EmptyString. by rewrite string_app_nil_r. }
      injection Hr as <- Hr. destruct (IH r Hr) as (k & t & -> & Hk & Ht).
      exists (S k), t. simpl. rewrite !string_app_assoc. split_and!; [done | lia | done].
Qed.

(** A torn line reads as no entry. *)
Lemma classify_torn n e t r :
  encode n e = Some (t +:+ r) → r ≠ EmptyString →
  match classify t with Entry _ _ _ => False | _ => True end.
Proof.
  intros He Hr. pose proof (decode_prefix _ _ _ _ He Hr) as Hd.
  unfold classify. destruct (utf8_valid t); simpl; [| done].
  destruct (is_empty (trim t)); [done |]. by rewrite Hd.
Qed.

Lemma torn_no_newline n e l t r :
  encode n e = Some l → l = t +:+ r → has_char newline t = false.
Proof.
  intros He ->. apply encode_no_newline in He. rewrite has_char_app in He.
  by apply orb_false_iff in He as [? _].
Qed.

Lemma raw_lines_torn t : t ≠ EmptyString → has_char newline t = false → raw_lines t = [t].
Proof. intros Ht Hn. rewrite raw_lines_last by done. by destruct t. Qed.

(** The lines after the whole ones: the entry of a line that lacks only its
    newline, or nothing. *)
Lemma torn_tail n e l t :
  encode n e = Some l → (∃ r, l = t +:+ r) →
  (t = l ∧ read_valid_lines (raw_lines t) = [l] ∧
   ∀ seq, collect_after seq (raw_lines t) = filter (λ e, (seq < e.1)%Z) [(n, e)]) ∨
  (read_valid_lines (raw_lines t) = [] ∧ ∀ seq, collect_after seq (raw_lines t) = []).
Proof.
  intros He [r Hr]. destruct (decide (t = EmptyString)) as [->|Ht]; [by right |].
  rewrite raw_lines_torn by (done || by eapply torn_no_newline). simpl.
  destruct (decide (r = EmptyString)) as [->|Hne].
  - left. rewrite string_app_nil_r in Hr. subst t.
    rewrite (classify_unended _ _ _ He). split_and!; [done | done |]. intros seq.
    rewrite filter_cons. simpl.
    by case_decide; [rewrite (proj2 (Z.ltb_lt _ _)) | rewrite (proj2 (Z.ltb_ge _ _)) by lia].
  - right. subst l. pose proof (classify_torn _ _ _ _ He Hne) as Hc.
    by destruct (classify t).
Qed.

Lemma write_lines_mono n k ls l :
  ls !! k = Some l → k < n →
  String.length (write_lines (take k ls)) + String.length l
    < String.length (write_lines (take n ls)).
Proof.
  intros Hl Hkn.
  assert (take n ls = take k ls ++ l :: drop (S k) (take n ls)) as ->.
  { rewrite <- (take_drop (S k) (take n ls)) at 1. rewrite take_take, Nat.min_l by lia.
    rewrite (take_S_r _ _ _ Hl). by rewrite <- app_assoc. }
  rewrite write_lines_app. simpl. rewrite !string_length_app. simpl. lia.
Qed.

(** The entries and the line texts a torn file still has. *)
Lemma crash_reads es ls p q :
  encodes es ls → write_lines ls = p +:+ q →
  ∃ k, k ≤ length es ∧
    (∀ n, String.length (write_lines (take n ls)) ≤ String.length p → n ≤ length es → n ≤ k) ∧
    read_valid_lines (raw_lines p) = take k ls ∧
    ∀ seq, collect_after seq (raw_lines p) = filter (λ e, (seq < e.1)%Z) (take k es).
Proof.
  intros H (k & t & -> & Hk & Ht)%write_lines_prefix.
  pose proof (Forall2_take _ _ _ k H) as Hpre. pose proof (Forall2_length _ _ _ H) as Hlen.
  rewrite (raw_lines_write _ _ _ Hpre), (read_valid_write _ _ _ Hpre).
  setoid_rewrite (λ seq, collect_after_write seq _ _ (raw_lines t) Hpre).
  rewrite string_length_app.
  destruct (decide (k < length es)) as [Hlt|Hge].
  - destruct (lookup_lt_is_Some_2 es k Hlt) as [[n e] He].
    destruct (Forall2_lookup_l _ _ _ _ _ H He) as (l & Hl & Henc). simpl in Henc.
    assert (∃ r, l = t +:+ r) as Hr.
    { destruct Ht as [->|(l' & r & Hl' & ->)]; [by exists l |].
      rewrite Hl in Hl'. injection Hl' as ->. by exists r. }
    assert (∀ n, String.length (write_lines (take n ls)) ≤
      String.length (write_lines (take k ls)) + String.length t → n ≤ k) as Hdur.
    { intros m Hm. destruct (decide (m ≤ k)); [done |].
      pose proof (write_lines_mono m k ls l Hl). destruct Hr as [r ->].
      rewrite string_length_app in *. lia. }
    destruct (torn_tail _ _ _ _ Henc Hr) as [(-> & -> & Hc)|(-> & Hc)].
    + exists (S k). split_and!; [lia | intros; specialize (Hdur n0); lia | |].
      * by rewrite (take_S_r _ _ _ Hl).
      * intros seq. by rewrite Hc, (take_S_r _ _ _ He), filter_app.
    + exists k. split_and!; [lia | intros; by apply Hdur | by rewrite app_nil_r |].
      intros seq. by rewrite Hc, app_nil_r.
  - assert (t = EmptyString) as ->.
    { destruct Ht as [->|(l & r & Hl & _)]; [done |]. apply lookup_lt_Some in Hl. lia. }
    exists k. split_and!; [lia | lia | by rewrite app_nil_r |].
    intros seq. simpl. by rewrite app_nil_r.
Qed.

(** Scanning a torn file: it is corrupt, or it holds whole lines but perhaps
    the last newline. *)
Lemma open_entries now processed p :
  (∀ seq, entries_after seq (wal_open now p processed).1 = collect_after seq (raw_lines p)) ∨
  file (wal_open now p processed).1 = write_lines (read_valid_lines (raw_lines p)).
Proof.
  unfold wal_open. destruct (scan_wal p processed) as [[ws ro] []].
  - right. by destruct (scan_wal _ processed) as [[? ?] ?].
  - by left.
Qed.
End crash.

(** C6. A crash in the middle of writing loses only a suffix.  Whatever bytes
    of a log of encoded entries are on disk, reopening it gives the first [k]
    entries, for a [k] that covers every entry whose line was written in full;
    entries are never altered, reordered or made up. *)
Theorem crash_keeps_prefix {E} `{!Codec E} `{!CodecLaws E} now processed
    (es : list (Z * E)) ls p q :
  encodes es ls → write_lines ls = p +:+ q →
  ∃ k, k ≤ length es ∧
    (∀ n, String.length (write_lines (take n ls)) ≤ String.length p → n ≤ length es → n ≤ k) ∧
    ∀ seq, entries_after seq (wal_open now p processed).1
           = filter (λ e, (seq < e.1)%Z) (take k es).
Proof.
  intros H Hp. destruct (crash_reads es ls p q H Hp) as (k & Hk & Hdur & Hv & Hc).
  exists k. split_and!; [done | done |]. intros seq.
  destruct (open_entries now processed p) as [Ho|Ho]; [by rewrite Ho |].
  unfold entries_after. rewrite Ho, Hv.
  pose proof (Forall2_take _ _ _ k H) as Hpre.
  rewrite (raw_lines_written _ _ Hpre), <- (app_nil_r (map _ _)).
  rewrite (collect_after_write _ _ _ _ Hpre). simpl. by rewrite app_nil_r.
Qed.

(** A crash exactly before the newline of the last entry is not repaired:
    reopening accepts the file as it is, and the next entry is written on the
    same line.  The append and the flush succeed, but neither the entry before
    the crash nor the new one can be read back after that. *)
Theorem missing_newline_loses_entries {E} `{!Codec E} `{!CodecLaws E} now processed
    (es : list (Z * E)) ls n e l e2 seq :
  encodes es ls → encode n e = Some l →
  let '(w, bak) := wal_open now (write_lines ls +:+ l) processed in
  bak = None ∧
  entries_after seq w = filter (λ x, (seq < x.1)%Z) (es ++ [(n, e)]) ∧
  match append e2 w with
  | (inl _, _) => True
  | (inr _, w2) =>
      (flush now io_ok w2).1 = inr tt ∧
      entries_after seq (flush now io_ok w2).2 = filter (λ x, (seq < x.1)%Z) es
  end.
Proof.
  intros H He.
  assert (raw_lines l = [l]) as Hl.
  { apply raw_lines_torn; [| by eapply encode_no_newline].
    apply encode_braced in He as [m ->]. done. }
  assert (∀ m ro cur, (scan_lines processed (raw_lines (write_lines ls +:+ l)) m ro cur).2 = false)
    as Hscan.
  { rewrite (raw_lines_write _ _ _ H), Hl. clear -H He CodecLaws0.
    induction H as [|[k x] t es ls Hx H IH]; intros m ro cur; simpl.
    - by rewrite (classify_unended _ _ _ He).
    - rewrite (classify_line _ _ _ Hx). apply IH. }
  unfold wal_open, scan_wal. specialize (Hscan 0%Z 0 0).
  destruct (scan_lines _ _ _ _ _) as [[[ws ro] cur] corrupt]. simpl in Hscan. subst corrupt.
  split_and!; [done | |].
  { unfold entries_after. simpl. rewrite (raw_lines_write _ _ _ H), Hl.
    rewrite (collect_after_write _ _ _ _ H), filter_app. f_equal. simpl.
    rewrite (classify_unended _ _ _ He), filter_cons. simpl.
    by case_decide; [rewrite (proj2 (Z.ltb_lt _ _)) | rewrite (proj2 (Z.ltb_ge _ _)) by lia]. }
  unfold append. simpl. destruct (encode _ e2) as [l2|] eqn:He2; [| done].
  unfold flush. simpl. split; [done |]. unfold entries_after. simpl.
  rewrite !string_app_assoc, (raw_lines_write _ _ _ H), (collect_after_write _ _ _ _ H).
  rewrite <- string_app_assoc. rewrite string_app_nil_r.
  change ((l +:+ l2) +:+ newline_str) with ((l +:+ l2) +:+ String newline EmptyString).
  rewrite raw_lines_cons by (rewrite has_char_app, (encode_no_newline _ _ _ He),
    (encode_no_newline _ _ _ He2); done).
  simpl.
  assert (match classify ((l +:+ l2) +:+ newline_str) with
          | Entry _ _ _ | Blank => False | _ => True end) as Hc.
  { unfold classify. destruct (utf8_valid _); simpl; [| done].
    assert (braced (l +:+ l2)) as Hb.
    { destruct (encode_braced _ _ _ He) as [m ->], (encode_braced _ _ _ He2) as [m2 ->].
      exists (m +:+ String "}" (String "{" m2)). simpl. by rewrite !string_app_assoc. }
    rewrite (trim_braced_newline _ Hb), (is_empty_braced _ Hb).
    by rewrite (decode_two _ _ _ _ _ _ He He2). }
  destruct (classify _); try done; by rewrite app_nil_r.
Qed.

(** A reopened log that lost its entries to corruption forgets the sequence
    number of the snapshot: it numbers from what is left in the file, so an
    entry it accepts and flushes can get a number the snapshot already covers,
    and recovery, which replays the entries after the snapshot, skips it. *)
Theorem rotation_reuses_sequence_numbers {E} `{!Codec E} `{!CodecLaws E} now processed content
    bad rest (e : E) l :
  raw_lines content = bad :: rest → classify (E:=E) bad = Garbage →
  (1 ≤ processed)%Z → encode 1 e = Some l →
  ∃ w w1 w2,
    wal_open (E:=E) now content processed = (w, Some content) ∧
    append e w = (inr 1%Z, w1) ∧ flush now io_ok w1 = (inr tt, w2) ∧
    entries_after (E:=E) 0 w2 = [(1%Z, e)] ∧ entries_after (E:=E) processed w2 = [].
Proof.
  intros Hr Hbad Hp He. unfold wal_open, scan_wal. rewrite Hr. simpl. rewrite Hbad. simpl.
  do 3 eexists. split; [done |]. unfold append. simpl.
  change (0 +u64 1)%oj with 1%Z. rewrite He. split; [done |]. unfold flush. simpl.
  split; [done |]. unfold entries_after. simpl. rewrite string_app_nil_r.
  pose proof (raw_lines_cons l EmptyString (encode_no_newline _ _ _ He)) as Hl.
  change (l +:+ newline_str) with (l +:+ String newline EmptyString). rewrite Hl. simpl.
  rewrite (classify_line _ _ _ He). simpl.
  by rewrite (proj2 (Z.ltb_ge _ _)) by lia.
Qed.

(** ** Witnesses *)

Section witnesses.
Local Open Scope string_scope.

(** Two entries without content. *)
Definition toy_encode (n : Z) (_ : unit) : option string :=
  if (n =? 1)%Z then Some "{1}" else if (n =? 2)%Z then Some "{2}" else None.

Definition toy_decode (s : string) : option (Z * unit) :=
  if String.eqb s "{1}" then Some (1%Z, tt)
  else if String.eqb s "{2}" then Some (2%Z, tt) else None.

#[export] Instance toy_codec : Codec unit := {| encode := toy_encode; decode := toy_decode |}.

Lemma toy_cases n e l : encode n e = Some l → (n = 1%Z ∧ l = "{1}") ∨ (n = 2%Z ∧ l = "{2}").
Proof.
  simpl. unfold toy_encode. destruct (Z.eqb_spec n 1), (Z.eqb_spec n 2); naive_solver.
Qed.

Lemma toy_prefix d p q :
  d = "1"%char ∨ d = "2"%char →
  String "{" (String d "}") = p +:+ q → q ≠ "" → decode (E:=unit) (trim p) = None.
Proof.
  intros Hd. destruct p as [|a p]; [done |]. simpl. intros [= <- H] Hq.
  destruct p as [|b p]; [done |]. simpl in H. injection H as <- H.
  destruct p as [|c p]; [by destruct Hd as [-> | ->] |].
  simpl in H. injection H as <- H. destruct p; [| done]. simpl in H. by subst q.
Qed.

#[export] Instance toy_laws : CodecLaws unit.
Proof.
  split.
  - intros n e l [[_ ->]|[_ ->]]%toy_cases; [by exists "1" | by exists "2"].
  - by intros n e l [[_ ->]|[_ ->]]%toy_cases.
  - by intros n e l [[_ ->]|[_ ->]]%toy_cases.
  - intros n [] l [[-> ->]|[-> ->]]%toy_cases; done.
  - intros n e p q [[_ H]|[_ H]]%toy_cases Hq; symmetry in H.
    + exact (toy_prefix "1" p q (or_introl eq_refl) H Hq).
    + exact (toy_prefix "2" p q (or_intror eq_refl) H Hq).
  - intros n e l n' e' l' [[_ ->]|[_ ->]]%toy_cases [[_ ->]|[_ ->]]%toy_cases; done.
Qed.

Definition toy_entries : list (Z * unit) := [(1%Z, tt); (2%Z, tt)].
Definition toy_lines : list string := ["{1}"; "{2}"].

Lemma toy_encodes : encodes toy_entries toy_lines.
Proof. repeat constructor. Qed.

Lemma wal_refines_log_witness :
  let w := mkWal "" 0 0 [] 0 0 in let L := mkLog [] [] 0 0%Z 0%Z in
  let ops := [OpAppend tt; OpNext; OpMark 1; OpAppend tt; OpTruncate 1; OpNext] in
  wal_rep w L ∧
  ((wal_run 5 ops w).1 = (log_run ops L).1 ∧
   wal_rep (wal_run 5 ops w).2 (log_run ops L).2 ∧
   entries_after 0 (wal_run 5 ops w).2
     = filter (λ e, (0 < e.1)%Z) (log_entries (log_run ops L).2)).
Proof.
  assert (wal_rep (mkWal "" 0 0 [] 0 0) (mkLog (E:=unit) [] [] 0 0%Z 0%Z)) as HR.
  { split; try done; [by exists []; repeat constructor | constructor]. }
  split; [exact HR |]. apply (wal_refines_log (E:=unit)). exact HR.
Defined.

Lemma reopen_resumes_witness :
  encodes toy_entries toy_lines ∧
  ∃ w, wal_open (E:=unit) 0 (write_lines toy_lines) 1 = (w, None) ∧
    wal_rep w (mkLog toy_entries [] (open_pos 1 toy_entries) (max_from 0 toy_entries) 1) ∧
    open_pos 1 toy_entries = count_until 1 toy_entries.
Proof.
  split; [apply toy_encodes |].
  exact (reopen_resumes (E:=unit) 0 1 toy_entries toy_lines toy_encodes).
Defined.

Lemma crash_keeps_prefix_witness :
  let p := "{1}" +:+ newline_str +:+ "{" in let q := "2}" +:+ newline_str in
  encodes toy_entries toy_lines ∧ write_lines toy_lines = p +:+ q ∧
  ∃ k, (k ≤ length toy_entries)%nat ∧
    (∀ n, (String.length (write_lines (take n toy_lines)) ≤ String.length p →
          n ≤ length toy_entries → n ≤ k)%nat) ∧
    ∀ seq, entries_after (E:=unit) seq (wal_open (E:=unit) 0 p 0).1
           = filter (λ e, (seq < e.1)%Z) (take k toy_entries).
Proof.
  split; [apply toy_encodes |]. split; [reflexivity |].
  exact (crash_keeps_prefix (E:=unit) 0 0 toy_entries toy_lines
    ("{1}" +:+ newline_str +:+ "{") ("2}" +:+ newline_str) toy_encodes eq_refl).
Defined.

Lemma missing_newline_loses_entries_witness :
  encodes [] [] ∧ encode 1 tt = Some "{1}" ∧
  let '(w, bak) := wal_open (E:=unit) 0 (write_lines [] +:+ "{1}") 0 in
  bak = None ∧ entries_after 0 w = filter (λ x, (0 < x.1)%Z) ([(1%Z, tt)] : list (Z * unit)) ∧
  match append tt w with
  | (inl _, _) => True
  | (inr _, w2) =>
      (flush 0 io_ok w2).1 = inr tt ∧
      entries_after (E:=unit) 0 (flush 0 io_ok w2).2 = filter (λ x, (0 < x.1)%Z) ([] : list (Z * unit))
  end.
Proof.
  split; [constructor |]. split; [reflexivity |].
  exact (missing_newline_loses_entries (E:=unit) 0 0 [] [] 1 tt "{1}" tt 0
           (List.Forall2_nil _) eq_refl).
Defined.

Lemma rotation_reuses_sequence_numbers_witness :
  let content := "oops" +:+ newline_str in
  raw_lines content = [content] ∧ classify (E:=unit) content = Garbage ∧ (1 ≤ 7)%Z ∧
  encode 1 tt = Some "{1}" ∧
  ∃ w w1 w2,
    wal_open (E:=unit) 0 content 7 = (w, Some content) ∧
    append tt w = (inr 1%Z, w1) ∧ flush 0 io_ok w1 = (inr tt, w2) ∧
    entries_after (E:=unit) 0 w2 = [(1%Z, tt)] ∧ entries_after (E:=unit) 7 w2 = [].
Proof.
  split; [reflexivity |]. split; [reflexivity |]. split; [lia |]. split; [reflexivity |].
  eapply (rotation_reuses_sequence_numbers (E:=unit)); [reflexivity.. | lia | reflexivity].
Defined.
End witnesses.
