(* ===== verification/Checkpoint.v ===== *)
(** Snapshot migrations, [crates/storage/src/migration.rs], and checkpoints:
    [checkpoint.rs] and [snapshot.rs].

    A migration is third-party to the loop: its versions and its function on
    the JSON value.  The loop of [migrate_to] has a fuel; [None] is a loop that
    has not ended. *)

From S2P Require Import Prelude Ids Bytes Entities Job Event State Wal.

Inductive MigrationError :=
  | Migration_Failed (from to : Z) (reason : string)
  | NoPath (from to : Z)
  | TooNew (current supported : Z).

Section Migration.
Context {Value : Type} `{JsonValue Value}.
(** [as_object_mut] and [insert] of a number: a value that is not an object
    stays as it is. *)
Context (json_insert_number : string → Z → Value → Value).

Record Migration := mkMigration {
  source_version : Z;
  target_version : Z;
  migrate : Value → MigrationError + Value
}.

(** [snapshot.get("v").and_then(as_u64).unwrap_or(1) as u32]: the cast drops
    the high bits. *)
Definition snapshot_version (snapshot : Value) : Z :=
  u32_wrap (default 1%Z (json_get "v" snapshot ≫= json_as_u64)).

Definition find_migration (migrations : list Migration) (version : Z) : option Migration :=
  snd <$> list_find (λ m, source_version m = version) migrations.

Fixpoint migrate_loop (fuel : nat) (migrations : list Migration) (snapshot : Value)
    (version target : Z) : option (MigrationError + Value) :=
  if (version <? target)%Z then
    match fuel with
    | O => None
    | S fuel' =>
        match find_migration migrations version with
        | None => Some (inl (NoPath version target))
        | Some m =>
            match migrate m snapshot with
            | inl err => Some (inl err)
            | inr snapshot =>
                let version := target_version m in
                migrate_loop fuel' migrations (json_insert_number "v" version snapshot)
                  version target
            end
        end
    end
  else Some (inr snapshot).

Definition migrate_to (fuel : nat) (migrations : list Migration) (snapshot : Value)
    (target : Z) : option (MigrationError + Value) :=
  let current := snapshot_version snapshot in
  if (current =? target)%Z then Some (inr snapshot)
  else if (target <? current)%Z then Some (inl (TooNew current target))
  else migrate_loop fuel migrations snapshot current target.

(** ** Termination *)

Lemma find_migration_in migrations v m :
  find_migration migrations v = Some m → m ∈ migrations ∧ source_version m = v.
Proof.
  unfold find_migration. destruct (list_find _ migrations) as [[i m']|] eqn:Hf; [| done].
  simpl. intros [= ->]. apply list_find_Some in Hf as (Hi & Hs & _).
  split; [by eapply list_elem_of_lookup_2 | done].
Qed.

Definition goes_up (m : Migration) : Prop := (source_version m < target_version m)%Z.

Lemma migrate_loop_ends migrations fuel snapshot version target :
  Forall goes_up migrations → (target - version ≤ Z.of_nat fuel)%Z →
  is_Some (migrate_loop fuel migrations snapshot version target).
Proof.
  intros Hup. revert snapshot version. induction fuel as [|fuel IH]; intros snapshot version Hf;
    simpl; destruct (Z.ltb_spec version target); [lia | eauto | | eauto].
  destruct (find_migration migrations version) as [m|] eqn:Hm; [| eauto].
  destruct (migrate m snapshot); [eauto |].
  apply find_migration_in in Hm as [Hin <-].
  rewrite Forall_forall in Hup. specialize (Hup m Hin). unfold goes_up in Hup.
  apply IH. lia.
Qed.

(** A version that no migration starts from is reported, and so is a newer one. *)
Lemma migrate_to_empty fuel snapshot target :
  fuel ≠ 0 →
  migrate_to fuel [] snapshot target =
  Some (if (snapshot_version snapshot =? target)%Z then inr snapshot
        else if (target <? snapshot_version snapshot)%Z
             then inl (TooNew (snapshot_version snapshot) target)
             else inl (NoPath (snapshot_version snapshot) target)).
Proof.
  intros Hf. unfold migrate_to. destruct (Z.eqb_spec (snapshot_version snapshot) target); [done |].
  destruct (Z.ltb_spec target (snapshot_version snapshot)); [done |].
  destruct fuel; [done |]. simpl.
  by rewrite (proj2 (Z.ltb_lt _ _)) by lia.
Qed.
End Migration.

(** The migration loop always ends when every migration leads to a higher
    version: as many rounds as the target version are enough, whatever the
    snapshot. *)
Theorem migrate_to_terminates {Value} `{JsonValue Value} insert (migrations : list Migration)
    (snapshot : Value) target fuel :
  Forall goes_up migrations → (target ≤ Z.of_nat fuel)%Z →
  is_Some (migrate_to insert fuel migrations snapshot target).
Proof.
  intros Hup Hf. unfold migrate_to.
  destruct (snapshot_version snapshot =? target)%Z; [eauto |].
  destruct (target <? snapshot_version snapshot)%Z; [eauto |].
  apply migrate_loop_ends; [done |].
  pose proof (u32_wrap_range (default 1%Z (json_get "v" snapshot ≫= json_as_u64))) as [? _].
  unfold snapshot_version. lia.
Qed.

(** The registry of the code is empty, so a snapshot loads exactly when its
    version is the supported one; but the version is cut to 32 bits first, so a
    snapshot whose version is greater by a multiple of [2^32] loads as well,
    where the code means to answer [TooNew]. *)
Theorem empty_registry_version {Value} `{JsonValue Value} insert (snapshot : Value) v target :
  json_get "v" snapshot ≫= json_as_u64 = Some v → is_u32 target →
  (migrate_to insert 1 [] snapshot target = Some (inr snapshot) ↔ (v `mod` 2 ^ 32)%Z = target).
Proof.
  intros Hv Ht. rewrite migrate_to_empty by done. unfold snapshot_version. rewrite Hv. simpl.
  unfold u32_wrap. destruct (Z.eqb_spec (v mod 2 ^ 32) target); [done |].
  destruct (Z.ltb_spec target (v mod 2 ^ 32)); split; congruence.
Qed.

(** ** Witnesses *)

Section witnesses.
(** Numbers, and objects with the one field ["v"]. *)
Definition toy_value : Type := Z + Z.

#[local] Instance toy_json : JsonValue toy_value := {|
  json_get k v := match v with
                  | inr n => if String.eqb k "v" then Some (inl n) else None
                  | inl _ => None
                  end;
  json_object_len v := match v with inr _ => Some 1%N | inl _ => None end;
  json_as_u64 v := match v with inl n => Some n | inr _ => None end
|}.

Definition toy_insert (k : string) (n : Z) (v : toy_value) : toy_value :=
  match v with inr _ => inr n | inl _ => v end.

Definition toy_migration (n : Z) : Migration := mkMigration (Value:=toy_value) n (n + 1) inr.

Lemma migrate_to_terminates_witness :
  Forall goes_up [toy_migration 1; toy_migration 2] ∧ (3 ≤ Z.of_nat 3)%Z ∧
  is_Some (migrate_to toy_insert 3 [toy_migration 1; toy_migration 2] (inr 1%Z) 3).
Proof.
  assert (Forall goes_up [toy_migration 1; toy_migration 2]) as Hup.
  { repeat constructor; unfold goes_up; simpl; lia. }
  split; [exact Hup |]. split; [lia |].
  apply (migrate_to_terminates (Value:=toy_value)); [exact Hup | lia].
Defined.

Lemma empty_registry_version_witness :
  json_get "v" (inr (2 ^ 32 + 1)%Z : toy_value) ≫= json_as_u64 = Some (2 ^ 32 + 1)%Z ∧
  is_u32 1 ∧
  (migrate_to toy_insert 1 [] (inr (2 ^ 32 + 1)%Z) 1 = Some (inr (inr (2 ^ 32 + 1)%Z)) ↔
   ((2 ^ 32 + 1) `mod` 2 ^ 32)%Z = 1%Z).
Proof.
  split; [reflexivity |]. split; [unfold is_u32; lia |].
  apply (empty_registry_version (Value:=toy_value)); [reflexivity | unfold is_u32; lia].
Defined.
End witnesses.

(** Checkpoints: [crates/storage/src/checkpoint.rs], the [Snapshot] of
    [snapshot.rs] and the checkpoint task of [crates/daemon/src/main.rs].

    The file system is the class [CheckpointWriter] on a world; what the code
    relies on is in [WriterLaws], stated on what a crash can leave at a path
    ([after_crash]).  JSON and zstd are parameters.  An operation returns the
    worlds it goes through beside its result, so that a crash can be considered
    at each of them. *)

Local Open Scope string_scope.

Inductive CheckpointError :=
  | Checkpoint_Io (msg : string)
  | Checkpoint_Serialize
  | Checkpoint_Compress (msg : string).

Record CheckpointResult := mkCheckpointResult {
  result_seq : Z;
  result_size_bytes : Z
}.

Definition CURRENT_SNAPSHOT_VERSION : Z := 1.

Record Snapshot {Value : Type} := mkSnapshot {
  snapshot_v : Z;
  snapshot_seq : Z;
  snapshot_state : MaterializedState Value;
  snapshot_created_at : Z
}.
Arguments Snapshot : clear implicits.
Arguments mkSnapshot {Value}.

(** [None] is success. *)
Class CheckpointWriter (W : Type) := {
  write_tmp : PathBuf → string → W → option string * W;
  fsync_file : PathBuf → W → option string * W;
  rename : PathBuf → PathBuf → W → option string * W;
  fsync_dir : PathBuf → W → option string * W;
  file_size : PathBuf → W → option Z
}.

(** What the checkpoint relies on: a file operation does not touch what a crash
    would leave at other paths; a synced file keeps its data; a rename leaves
    the old or the new file at its target; syncing the directory settles it. *)
Class WriterLaws (W : Type) `{!CheckpointWriter W} (tmp target dir : PathBuf) := {
  after_crash : W → option string → Prop;      (** at [target] *)
  tmp_has : W → string → Prop;                 (** written, perhaps not durable *)
  tmp_durable : W → string → Prop;
  target_has : W → string → Prop;
  write_tmp_other data w c : after_crash (write_tmp tmp data w).2 c → after_crash w c;
  write_tmp_ok data w : (write_tmp tmp data w).1 = None → tmp_has (write_tmp tmp data w).2 data;
  fsync_file_other w c : after_crash (fsync_file tmp w).2 c → after_crash w c;
  fsync_file_ok data w :
    (fsync_file tmp w).1 = None → tmp_has w data → tmp_durable (fsync_file tmp w).2 data;
  rename_crash data w c :
    tmp_durable w data → after_crash (rename tmp target w).2 c → after_crash w c ∨ c = Some data;
  rename_ok data w :
    (rename tmp target w).1 = None → tmp_durable w data → target_has (rename tmp target w).2 data;
  fsync_dir_crash w c : after_crash (fsync_dir dir w).2 c → after_crash w c;
  fsync_dir_ok data w c :
    (fsync_dir dir w).1 = None → target_has w data → after_crash (fsync_dir dir w).2 c →
    c = Some data
}.

Section Checkpoint.
Context {Value W : Type} `{!CheckpointWriter W}.
(** [serde_json::to_vec], [zstd::encode_all], [Path::with_extension("tmp")]
    and [Path::parent]. *)
Context (to_json : Snapshot Value → option string)
        (zstd_encode : Z → string → string + string)
        (with_tmp_extension : PathBuf → PathBuf) (parent : PathBuf → option PathBuf).

(** An I/O step: its error, the world after it, and the worlds gone through. *)
Definition io_step (op : W → option string * W)
    (k : W → (CheckpointError + CheckpointResult) * W * list W) (w : W)
    : (CheckpointError + CheckpointResult) * W * list W :=
  let '(r, w) := op w in
  match r with
  | Some msg => (inl (Checkpoint_Io msg), w, [w])
  | None => let '(res, w', ws) := k w in (res, w', w :: ws)
  end.

Definition checkpoint_blocking (now seq : Z) (state : MaterializedState Value)
    (snapshot_path : PathBuf) (compression_level : Z) (w : W)
    : (CheckpointError + CheckpointResult) * W * list W :=
  let tmp_path := with_tmp_extension snapshot_path in
  let snapshot := mkSnapshot CURRENT_SNAPSHOT_VERSION seq state now in
  match to_json snapshot with
  | None => (inl Checkpoint_Serialize, w, [])
  | Some json_bytes =>
      match zstd_encode compression_level json_bytes with
      | inl msg => (inl (Checkpoint_Compress msg), w, [])
      | inr compressed =>
          let finish w :=
            (inr (mkCheckpointResult seq
                    (default (Z.of_nat (String.length compressed)) (file_size snapshot_path w))),
             w, []) in
          io_step (write_tmp tmp_path compressed)
            (io_step (fsync_file tmp_path)
              (io_step (rename tmp_path snapshot_path)
                (match parent snapshot_path with
                 | Some dir => io_step (fsync_dir dir) finish
                 | None => finish
                 end))) w
      end
  end.

(** One round of [spawn_checkpoint].  The state and the number of the last
    processed event are taken together, and nothing is checkpointed before the
    first one. *)
Definition checkpoint_capture (state : MaterializedState Value) (wal : Wal)
    : option (MaterializedState Value * Z) :=
  if (processed_seq wal =? 0)%Z then None else Some (state, processed_seq wal).

(** The log is truncated only after a checkpoint that has succeeded, to the
    number that was taken at the start. *)
Definition checkpoint_finish {E} `{!Codec E} (now : Z) (io : FlushIO) (tmp_ok : bool) (seq : Z)
    (result : CheckpointError + CheckpointResult) (wal : Wal) : Wal :=
  match result with
  | inr _ => (truncate_before (E:=E) now io tmp_ok seq wal).2
  | inl _ => wal
  end.

(** The snapshot is written on a thread of its own, while the other tasks go on
    with the log ([meanwhile]).  The last component are the worlds gone through. *)
Definition checkpoint_round {E} `{!Codec E} (now : Z) (io : FlushIO) (tmp_ok : bool)
    (state : MaterializedState Value) (snapshot_path : PathBuf) (meanwhile : Wal → Wal)
    (w : W) (wal : Wal) : W * Wal * list W :=
  match checkpoint_capture state wal with
  | None => (w, meanwhile wal, [])
  | Some (state, seq) =>
      let '(result, w, ws) := checkpoint_blocking now seq state snapshot_path 3 w in
      (w, checkpoint_finish (E:=E) now io tmp_ok seq result (meanwhile wal), ws)
  end.

(** ** Crash safety *)

Section crash.
Context (snapshot_path dir : PathBuf)
  `{!WriterLaws W (with_tmp_extension snapshot_path) snapshot_path dir}
  (Hparent : parent snapshot_path = Some dir).

(** The bytes that the checkpoint means to store. *)
Definition snapshot_bytes (now seq : Z) (state : MaterializedState Value) (level : Z)
    : option string :=
  match to_json (mkSnapshot CURRENT_SNAPSHOT_VERSION seq state now) with
  | Some json => match zstd_encode level json with inr c => Some c | inl _ => None end
  | None => None
  end.

Section run.
Context (w0 : W) (data : string) (seq : Z).

(** A crash leaves what was there before, or the new data. *)
Definition safe (w : W) : Prop := ∀ c, after_crash w c → after_crash w0 c ∨ c = Some data.

(** A crash leaves the new data. *)
Definition settled (w : W) : Prop := ∀ c, after_crash w c → c = Some data.

Definition run_ok (out : (CheckpointError + CheckpointResult) * W * list W) : Prop :=
  let '(r, w, ws) := out in
  Forall safe (w :: ws) ∧
  match r with inr res => settled w ∧ result_seq res = seq | inl _ => True end.

Lemma io_step_ok op k w :
  safe (op w).2 → ((op w).1 = None → run_ok (k (op w).2)) → run_ok (io_step op k w).
Proof.
  unfold io_step. destruct (op w) as [[msg|] w1]; simpl; intros Hs Hk.
  - split; [by rewrite !Forall_cons, Forall_nil | done].
  - specialize (Hk eq_refl). destruct (k w1) as [[r w2] ws]. destruct Hk as [Hws Hr].
    split; [| done]. by rewrite Forall_cons in Hws |- *; rewrite Forall_cons; destruct Hws.
Qed.

Lemma checkpoint_run_ok now state level w :
  safe w → snapshot_bytes now seq state level = Some data →
  run_ok (checkpoint_blocking now seq state snapshot_path level w).
Proof.
  unfold snapshot_bytes, checkpoint_blocking. intros Hs.
  destruct (to_json _) as [json|]; [| done].
  destruct (zstd_encode level json) as [msg|d]; [done |]. intros [= ->]. rewrite Hparent.
  apply io_step_ok.
  { intros c Hc. by apply write_tmp_other in Hc; apply Hs. }
  intros Htmp%write_tmp_ok. set (w1 := (write_tmp _ _ w).2) in *.
  assert (safe w1) as Hs1.
  { intros c Hc. by apply write_tmp_other in Hc; apply Hs. }
  apply io_step_ok.
  { intros c Hc. by apply fsync_file_other in Hc; apply Hs1. }
  intros Hdur%(fsync_file_ok data); [| done]. set (w2 := (fsync_file _ w1).2) in *.
  assert (safe w2) as Hs2.
  { intros c Hc. by apply fsync_file_other in Hc; apply Hs1. }
  apply io_step_ok.
  { intros c Hc. apply (rename_crash data) in Hc as [Hc| ->]; auto. }
  intros Htgt%(rename_ok data); [| done]. set (w3 := (rename _ _ w2).2) in *.
  assert (safe w3) as Hs3.
  { intros c Hc. apply (rename_crash data) in Hc as [Hc| ->]; auto. }
  apply io_step_ok.
  { intros c Hc. apply fsync_dir_crash in Hc. auto. }
  intros Hok. split; [| split; [| done]].
  - rewrite Forall_singleton. intros c Hc. apply fsync_dir_crash in Hc. auto.
  - intros c Hc. by apply (fsync_dir_ok data) in Hc.
Qed.
End run.
End crash.
End Checkpoint.

Section theorems.
Context {Value W : Type} `{!CheckpointWriter W}.
Context (to_json : Snapshot Value → option string)
        (zstd_encode : Z → string → string + string)
        (with_tmp_extension : PathBuf → PathBuf) (parent : PathBuf → option PathBuf)
        (snapshot_path dir : PathBuf)
        `{!WriterLaws W (with_tmp_extension snapshot_path) snapshot_path dir}
        (Hparent : parent snapshot_path = Some dir).

(** C7. A crash at any point of a checkpoint leaves, at the snapshot path, what
    was there before or the whole new snapshot, never a part of one; and after
    a checkpoint that reports success only the new snapshot can be left. *)
Theorem checkpoint_crash_safe now seq state level w data :
  snapshot_bytes to_json zstd_encode now seq state level = Some data →
  let '(r, w', ws) := checkpoint_blocking to_json zstd_encode with_tmp_extension parent
                        now seq state snapshot_path level w in
  (∀ w1 c, w1 ∈ w' :: ws → after_crash w1 c → after_crash w c ∨ c = Some data) ∧
  match r with
  | inr res => (∀ c, after_crash w' c → c = Some data) ∧ result_seq res = seq
  | inl _ => True
  end.
Proof.
  intros Hd.
  pose proof (checkpoint_run_ok to_json zstd_encode with_tmp_extension parent snapshot_path dir
    Hparent w data seq now state level w (λ c Hc, or_introl Hc) Hd) as Hrun.
  destruct (checkpoint_blocking _ _ _ _ _ _ _ _ _ _) as [[r w'] ws].
  destruct Hrun as [Hws Hr]. split; [| done].
  intros w1 c Hw1. rewrite Forall_forall in Hws. by apply Hws.
Qed.

(** Whatever world a round has gone through, a crash leaves what was there or
    the new snapshot; the log is only truncated when the new snapshot is what
    any crash leaves. *)
Lemma checkpoint_round_truncates `{!Codec E} now io tmp_ok state meanwhile w wal data :
  snapshot_bytes to_json zstd_encode now (processed_seq wal) state 3 = Some data →
  let '(w', wal', ws) := checkpoint_round (E:=E) to_json zstd_encode with_tmp_extension parent
                           now io tmp_ok state snapshot_path meanwhile w wal in
  (∀ w1 c, w1 ∈ w' :: w :: ws → after_crash w1 c → after_crash w c ∨ c = Some data) ∧
  (wal' = meanwhile wal ∨
   (∀ c, after_crash w' c → c = Some data) ∧
   wal' = (truncate_before (E:=E) now io tmp_ok (processed_seq wal) (meanwhile wal)).2).
Proof.
  intros Hd. unfold checkpoint_round, checkpoint_capture, checkpoint_finish.
  destruct (processed_seq wal =? 0)%Z.
  { split; [|by left]. intros w1 c. rewrite !elem_of_cons, elem_of_nil. naive_solver. }
  pose proof (checkpoint_run_ok to_json zstd_encode with_tmp_extension parent snapshot_path dir
    Hparent w data (processed_seq wal) now state 3 w (λ c Hc, or_introl Hc) Hd) as Hrun.
  destruct (checkpoint_blocking _ _ _ _ _ _ _ _ _ _) as [[r w'] ws]. destruct Hrun as [Hws Hr].
  split.
  - rewrite Forall_forall in Hws. intros w1 c [->|[->|Hin]%elem_of_cons]%elem_of_cons.
    + apply Hws. by left.
    + by left.
    + apply Hws. by right.
  - destruct r as [err|res]; [by left |]. right. split; [apply Hr | done].
Qed.
End theorems.

(** ** Witness *)

(** A disk with one snapshot file, its temporary file and no faults. *)
Record toy_disk := mkDisk {
  disk_tmp : option (string * bool);    (** data, synced *)
  disk_target : option string;          (** durable *)
  disk_renamed : option string          (** renamed, not yet durable *)
}.

#[export] Instance toy_writer : CheckpointWriter toy_disk := {
  write_tmp _ data w := (None, mkDisk (Some (data, false)) (disk_target w) (disk_renamed w));
  fsync_file _ w :=
    (None, mkDisk ((λ t, (t.1, true)) <$> disk_tmp w) (disk_target w) (disk_renamed w));
  rename _ _ w :=
    match disk_tmp w with
    | Some (data, _) => (None, mkDisk None (disk_target w) (Some data))
    | None => (Some "no such file", w)
    end;
  fsync_dir _ w :=
    (None, mkDisk (disk_tmp w)
             (match disk_renamed w with Some d => Some d | None => disk_target w end) None);
  file_size _ _ := None
}.

#[export] Program Instance toy_writer_laws : WriterLaws toy_disk "s.tmp" "s" "/" := {
  after_crash w c := c = disk_target w ∨ ∃ d, disk_renamed w = Some d ∧ c = Some d;
  tmp_has w data := ∃ b, disk_tmp w = Some (data, b);
  tmp_durable w data := disk_tmp w = Some (data, true);
  target_has w data := disk_renamed w = Some data
}.
Next Obligation. done. Qed.
Next Obligation. simpl. eauto. Qed.
Next Obligation. done. Qed.
Next Obligation. simpl. intros data w _ [b ->]. done. Qed.
Next Obligation. simpl. intros data w c ->. simpl. naive_solver. Qed.
Next Obligation. simpl. intros data w. destruct (disk_tmp w) as [[]|]; naive_solver. Qed.
Next Obligation. simpl. intros w c. destruct (disk_renamed w); naive_solver. Qed.
Next Obligation. simpl. intros data w c _ ->. naive_solver. Qed.

Lemma checkpoint_crash_safe_witness :
  let w := mkDisk None (Some "old") None in
  let run := checkpoint_blocking (Value:=unit) (λ _, Some "json") (λ _ j, inr ("z" +:+ j))
               (λ p, p +:+ ".tmp") (λ _, Some "/") 0 7 MaterializedState_default "s" 3 w in
  snapshot_bytes (Value:=unit) (λ _, Some "json") (λ _ j, inr ("z" +:+ j)) 0 7
    MaterializedState_default 3 = Some "zjson" ∧
  let '(r, w', ws) := run in
  (∀ w1 c, w1 ∈ w' :: ws → after_crash w1 c → after_crash w c ∨ c = Some "zjson") ∧
  match r with
  | inr res => (∀ c, after_crash w' c → c = Some "zjson") ∧ result_seq res = 7%Z
  | inl _ => True
  end.
Proof.
  split; [reflexivity |].
  exact (checkpoint_crash_safe (Value:=unit) (λ _, Some "json") (λ _ j, inr ("z" +:+ j))
    (λ p, p +:+ ".tmp") (λ _, Some "/") "s" "/" eq_refl 0 7 MaterializedState_default 3
    (mkDisk None (Some "old") None) "zjson" eq_refl).
Defined.
