(* ===== verification/Recovery.v ===== *)
(** Startup recovery: the state from the snapshot and the log, as
    [startup_inner] of [crates/daemon/src/lifecycle/mod.rs] rebuilds it, and the
    invariant that ties snapshot, log and live state together across
    checkpoints. *)

From S2P Require Import Prelude Ids Entities Job Event State StateEquiv StateIdem StateInv Bytes Wal.
From S2P Require Import WalSpec Checkpoint.

Section Recovery.
Context {Value : Type} `{!Codec (Event Value)}.
Abbreviation St := (MaterializedState Value) (only parsing).

(** The entries to replay, the [i]-th in environment [envs i]. *)
Definition with_envs (envs : nat → Env) (es : list (Z * Event Value)) : list (Env * Event Value) :=
  imap (λ i e, (envs i, e.2)) es.

(** The snapshot that was loaded, if there is one, and the bytes of the log:
    the recovered state, the log to go on with, and the sequence number up to
    which events count as processed. *)
Definition recover (now : Z) (envs : nat → Env) (snapshot : option (Snapshot Value))
    (content : string) : St * Wal * Z :=
  let '(state, processed_seq) := match snapshot with
                                 | Some s => (snapshot_state s, snapshot_seq s)
                                 | None => (MaterializedState_default, 0%Z)
                                 end in
  let wal := (wal_open (E:=Event Value) now content processed_seq).1 in
  (replay (with_envs envs (entries_after processed_seq wal)) state, wal, processed_seq).
End Recovery.

Section correct.
Context {Value : Type} `{!Codec (Event Value)} `{!CodecLaws (Event Value)}.
Abbreviation St := (MaterializedState Value) (only parsing).
Implicit Types (hist : list (Z * Event Value)).

(** The events of the history, in the environments they were applied in. *)
Definition live (at_seq : Z → Env) hist (s : St) : St :=
  replay ((λ e, (at_seq e.1, e.2)) <$> hist) s.

(** Sequence numbers grow. *)
Definition increasing hist : Prop := StronglySorted Z.lt hist.*1.

Definition upto (n : Z) hist := filter (λ e, (e.1 ≤ n)%Z) hist.
Definition from (n : Z) hist := filter (λ e, (n ≤ e.1)%Z) hist.
Definition after (n : Z) hist := filter (λ e, (n < e.1)%Z) hist.

Lemma after_none n hist : Forall (λ e, (n < e.1)%Z) hist → upto n hist = [].
Proof.
  intros H. unfold upto. induction H as [|e hist He H IH]; [done |].
  rewrite filter_cons_False by lia. done.
Qed.

Lemma after_all n hist : Forall (λ e, (n < e.1)%Z) hist → after n hist = hist.
Proof.
  intros H. unfold after. induction H as [|e hist He H IH]; [done |].
  by rewrite filter_cons_True, IH.
Qed.

Lemma split_history n hist : increasing hist → hist = upto n hist ++ after n hist.
Proof.
  unfold increasing. induction hist as [|e hist IH]; [done |]. csimpl. intros Hs.
  apply StronglySorted_inv in Hs as [Hs Hall]. rewrite Forall_fmap in Hall.
  destruct (decide (e.1 ≤ n)%Z).
  - unfold upto, after. rewrite filter_cons_True, filter_cons_False by lia.
    simpl. f_equal. by apply IH.
  - assert (Forall (λ e' : Z * Event Value, (n < e'.1)%Z) (e :: hist)) as Hn.
    { constructor; [lia |]. eapply Forall_impl; [exact Hall |]. simpl. intros. lia. }
    by rewrite (after_none _ _ Hn), (after_all _ _ Hn).
Qed.

Lemma after_from n m hist : (m ≤ n + 1)%Z → after n (from m hist) = after n hist.
Proof.
  intros Hm. unfold after, from. rewrite list_filter_filter. apply list_filter_iff.
  intros e. lia.
Qed.

Lemma live_app at_seq h1 h2 s : live at_seq (h1 ++ h2) s = live at_seq h2 (live at_seq h1 s).
Proof. unfold live, replay. by rewrite fmap_app, fold_left_app. Qed.

(** The events of the history with the environments they were applied in. *)
Definition timed (at_seq : Z → Env) hist : list (Env * Event Value) :=
  (λ e, (at_seq e.1, e.2)) <$> hist.

(** No signal of the history finds two jobs or two runs with its agent. *)
Definition history_clear at_seq hist : Prop := signals_clear (timed at_seq hist) MaterializedState_default.

Lemma with_envs_events envs hist : (with_envs envs hist).*2 = hist.*2.
Proof.
  unfold with_envs. revert envs. induction hist as [|e hist IH]; intros envs; [done |]. csimpl.
  f_equal. apply (IH (λ i, envs (S i))).
Qed.

(** Replaying in other environments. *)
Lemma with_envs_live at_seq envs hist s1 s2 :
  signals_clear (timed at_seq hist) s2 → s1 ≡ s2 →
  replay (with_envs envs hist) s1 ≡ live at_seq hist s2.
Proof.
  intros Hc Hs. symmetry. apply replay_any_order; [| done | by symmetry].
  rewrite with_envs_events, <-list_fmap_compose. done.
Qed.

(** A state saved with the number [n]: the one after the history up to [n], or
    the one after one event more, which is applied before it is marked. *)
Definition saved_at at_seq hist (n : Z) (s : St) : Prop :=
  let before := live at_seq (upto n hist) MaterializedState_default in
  s ≡ before ∨ ∃ env e rest, after n hist = e :: rest ∧ s ≡ apply_event env e.2 before.

Lemma saved_at_equiv at_seq hist n s1 s2 : s1 ≡ s2 → saved_at at_seq hist n s1 → saved_at at_seq hist n s2.
Proof.
  intros Hs [H|(env & e & rest & Ha & H)]; [left | right; exists env, e, rest; split; [done |]];
    (etrans; [symmetry; exact Hs | exact H]).
Qed.

(** A snapshot of the history up to its sequence number. *)
Definition snapshot_of at_seq hist (snap : option (Snapshot Value)) (n : Z) : Prop :=
  match snap with
  | Some s => snapshot_seq s = n ∧ saved_at at_seq hist n (snapshot_state s)
  | None => n = 0%Z
  end.

(** The rest of the history rebuilds the live state on a saved state; an event
    that it already holds changes nothing the second time. *)
Lemma saved_at_live at_seq envs hist n s :
  history_clear at_seq hist → increasing hist → saved_at at_seq hist n s →
  replay (with_envs envs (after n hist)) s ≡ live at_seq hist MaterializedState_default.
Proof.
  intros Hc Hinc Hs. pose proof (split_history n hist Hinc) as Hsplit.
  assert (signals_clear (timed at_seq (after n hist)) (live at_seq (upto n hist) MaterializedState_default)) as Ha.
  { unfold history_clear in Hc. rewrite Hsplit in Hc. unfold timed in Hc.
    rewrite fmap_app, signals_clear_app in Hc. apply Hc. }
  transitivity (live at_seq (upto n hist ++ after n hist) MaterializedState_default);
    [| by rewrite <-Hsplit].
  rewrite live_app. destruct Hs as [Hs|(env & [k ev] & rest & He & Hs)]; [by apply with_envs_live |].
  rewrite He in Ha |- *. destruct Ha as [Hev Hrest]. cbn [fst snd] in *.
  apply (with_envs_live at_seq (λ i, envs (S i)) rest); [done |]. cbn [fst snd].
  set (before := live at_seq (upto n hist) MaterializedState_default) in *.
  transitivity (apply_event (envs 0) ev before); [| by apply apply_event_any_order].
  rewrite <-(apply_event_twice (envs 0) ev before) at 1. apply apply_event_equiv; [done |].
  rewrite Hs. by apply apply_event_any_order.
Qed.
End correct.

(** The state that is recovered, shared by the theorems on recovery. *)
Lemma recovery_restores {Value} `{!Codec (Event Value)} `{!CodecLaws (Event Value)}
    now envs at_seq (hist : list (Z * Event Value)) snap n m ls :
  increasing hist → Forall (λ e, (0 < e.1)%Z) hist →
  encodes (from m hist) ls → (m ≤ n + 1)%Z →
  snapshot_of at_seq hist snap n →
  history_clear at_seq hist →
  (recover now envs snap (write_lines ls)).1.1 ≡ live at_seq hist MaterializedState_default.
Proof.
  intros Hinc Hpos Hls Hm Hsnap Hc.
  assert (∀ st, saved_at at_seq hist n st →
    replay (with_envs envs (entries_after n (wal_open (E:=Event Value) now (write_lines ls) n).1)) st
    ≡ live at_seq hist MaterializedState_default) as H.
  { intros st Hst. destruct (open_clean now n _ _ Hls) as (w & -> & Hrep). simpl.
    rewrite (entries_after_rep _ _ _ Hrep). simpl.
    change (filter (λ e : Z * Event Value, (n < e.1)%Z) (from m hist)) with (after n (from m hist)).
    rewrite (after_from _ _ _ Hm). by apply saved_at_live. }
  unfold recover. destruct snap as [s|]; simpl in *.
  - destruct Hsnap as [-> Hst]. by apply H.
  - subst n. apply H. left. by rewrite (after_none 0 hist Hpos).
Qed.

(** C3. Recovery restores the live state.  Take a history of events with
    growing positive sequence numbers, a log file that holds those from some
    number [m] on, and a snapshot of the state after the events up to [n] (or one
    more, see [saved_at]), or none and [n = 0]; as long as the log starts no later than [n + 1], loading
    the snapshot and replaying the log gives the state that the whole history
    had built, up to the clock stamps, whatever the iteration orders of the hash
    maps are in the new process.  It takes that no agent signal of the history
    finds two jobs or two runs with its agent, whose ids are fresh. *)
Theorem recovery_restores_state {Value} `{!Codec (Event Value)} `{!CodecLaws (Event Value)}
    now envs at_seq (hist : list (Z * Event Value)) snap n m ls :
  increasing hist → Forall (λ e, (0 < e.1)%Z) hist →
  encodes (from m hist) ls → (m ≤ n + 1)%Z →
  snapshot_of at_seq hist snap n →
  history_clear at_seq hist →
  (recover now envs snap (write_lines ls)).1.1 ≡ live at_seq hist MaterializedState_default.
Proof. apply recovery_restores. Qed.

(** ** Checkpoints *)

(** What recovery needs, at any time: the log holds the history from some [m]
    on, and whatever a crash leaves of the snapshot is one of the history up to
    some [n ≥ m - 1] that is processed. *)
Definition covers_from {Value W} `{!Codec (Event Value)} `{!CheckpointWriter W}
    {tmp target dir} `{!WriterLaws W tmp target dir} (load : string → option (Snapshot Value))
    (at_seq : Z → Env) (m : Z) (hist : list (Z * Event Value)) (w : W) (wal : Wal) : Prop :=
  ∃ L, wal_rep wal L ∧ log_entries L ++ log_pending L = from m hist ∧
    (m ≤ processed_seq wal + 1)%Z ∧
    ∀ c, after_crash w c →
      ∃ n, (m ≤ n + 1)%Z ∧ (n ≤ processed_seq wal)%Z ∧ snapshot_of at_seq hist (c ≫= load) n.

Definition covers {Value W} `{!Codec (Event Value)} `{!CheckpointWriter W}
    {tmp target dir} `{!WriterLaws W tmp target dir} (load : string → option (Snapshot Value))
    (at_seq : Z → Env) (hist : list (Z * Event Value)) (w : W) (wal : Wal) : Prop :=
  ∃ m, covers_from load at_seq m hist w wal.

(** What the other tasks do with the log: they do not truncate it, the numbers of
    new events are beyond the processed ones, and the mark goes forward. *)
Fixpoint goes_on {E} `{!Codec E} (now : Z) (ops : list (WalOp E)) (wal : Wal) : Prop :=
  match ops with
  | [] => True
  | op :: ops =>
      let '(r, wal') := wal_step now op wal in
      match op, r with
      | OpTruncate _, _ => False
      | OpMark n, _ => (processed_seq wal ≤ n)%Z
      | OpAppend _, ResSeq n => (processed_seq wal < n)%Z
      | _, _ => True
      end ∧ goes_on now ops wal'
  end.

(** The events that were appended, with their numbers. *)
Definition appended1 {E} (op : WalOp E) (r : WalResult E) : list (Z * E) :=
  match op, r with OpAppend e, ResSeq n => [(n, e)] | _, _ => [] end.

Fixpoint appended {E} (ops : list (WalOp E)) (rs : list (WalResult E)) : list (Z * E) :=
  match ops, rs with
  | op :: ops, r :: rs => appended1 op r ++ appended ops rs
  | _, _ => []
  end.

Section round.
Context {Value W : Type} `{!Codec (Event Value)} `{!CodecLaws (Event Value)}.
Context `{!CheckpointWriter W}.
Context (to_json : Snapshot Value → option string)
        (zstd_encode : Z → string → string + string)
        (with_tmp_extension : PathBuf → PathBuf) (parent : PathBuf → option PathBuf)
        (snapshot_path dir : PathBuf)
        `{!WriterLaws W (with_tmp_extension snapshot_path) snapshot_path dir}
        (Hparent : parent snapshot_path = Some dir).
Context (load : string → option (Snapshot Value)).

Lemma from_all n (hist : list (Z * Event Value)) : Forall (λ e, (n ≤ e.1)%Z) hist → from n hist = hist.
Proof.
  intros H. unfold from. induction H as [|e hist He H IH]; [done |]. by rewrite filter_cons_True, IH.
Qed.

Lemma from_from n m (hist : list (Z * Event Value)) : from n (from m hist) = from (Z.max n m) hist.
Proof. unfold from. rewrite list_filter_filter. apply list_filter_iff. intros e. lia. Qed.

Lemma truncate_keeps now tmp_ok seq wal (L : Log (Event Value)) :
  wal_rep wal L →
  ∃ L', wal_rep (truncate_before (E:=Event Value) now io_ok tmp_ok seq wal).2 L' ∧
    log_done L' = log_done L ∧
    log_entries L' ++ log_pending L' =
      if tmp_ok then from seq (log_entries L ++ log_pending L)
      else log_entries L ++ log_pending L.
Proof.
  intros HR. destruct tmp_ok.
  - destruct (truncate_refines now seq wal L HR) as [_ HR'].
    exists (log_step (OpTruncate seq) L).2. split; [| split; [reflexivity |]].
    + revert HR'. simpl. by destruct (truncate_before _ _ _ _ _) as [[|] ?].
    + simpl. by rewrite app_nil_r.
  - destruct (flush_refines now wal L HR) as (w' & Hfl & HR').
    exists (log_flush L). unfold truncate_before. rewrite Hfl.
    destruct (write_kept _ _ _ _) as [bytes off]. simpl. split_and!; [done | done |].
    by rewrite app_nil_r.
Qed.

Lemma saved_at_grow at_seq (hist new : list (Z * Event Value)) n st :
  Forall (λ e, (n < e.1)%Z) new → saved_at at_seq hist n st → saved_at at_seq (hist ++ new) n st.
Proof.
  intros Hnew. unfold saved_at, upto, after. rewrite !filter_app.
  change (filter (λ e : Z * Event Value, (e.1 ≤ n)%Z) new) with (upto n new).
  rewrite (after_none n new Hnew), app_nil_r.
  intros [H|(env & e & rest & He & H)]; [by left | right]. rewrite He. by exists env, e, (rest ++ filter (λ e, (n < e.1)%Z) new).
Qed.

(** One operation of another task. *)
Lemma covers_step now op at_seq m hist w wal :
  covers_from load at_seq m hist w wal → goes_on now [op] wal →
  let '(r, wal') := wal_step now op wal in
  covers_from load at_seq m (hist ++ appended1 op r) w wal' ∧
  (processed_seq wal ≤ processed_seq wal')%Z ∧
  Forall (λ e, (processed_seq wal < e.1)%Z) (appended1 op r).
Proof.
  intros (L & HR & Hes & Hm & Hc). cbn [goes_on].
  pose proof (wal_step_refines now op wal L HR) as [Hres HR'].
  destruct (wal_step now op wal) as [r wal'] eqn:Ew. cbn [fst snd] in Hres, HR'. intros [Hgo _].
  pose proof (rep_done _ _ HR) as Hd. pose proof (rep_done _ _ HR') as Hd'.
  assert ((processed_seq wal ≤ processed_seq wal')%Z ∧
    Forall (λ e, (processed_seq wal < e.1)%Z) (appended1 op r) ∧
    log_entries (log_step op L).2 ++ log_pending (log_step op L).2
      = (log_entries L ++ log_pending L) ++ appended1 op r) as (Hle & Hnew & Happ).
  { rewrite Hres in Hgo |- *. rewrite Hd, Hd' in *.
    destruct op as [e| | |k|k]; cbn in *; try done; try (destruct (encode _ e); cbn in * );
      split_and!; first [lia | by repeat constructor | by rewrite ?app_assoc, ?app_nil_r]. }
  split; [| done]. exists (log_step op L).2. split; [done |]. split; [| split; [lia |]].
  - rewrite Happ, Hes. unfold from at 2. rewrite filter_app. f_equal. symmetry. apply from_all.
    eapply Forall_impl; [exact Hnew |]. simpl. intros. lia.
  - intros c Hcc. destruct (Hc c Hcc) as (n & H1 & H2 & H3). exists n. split_and!; [done | lia |].
    destruct (c ≫= load) as [sn|]; [| done]. destruct H3 as [H3 H4]. split; [done |].
    apply saved_at_grow; [| done]. eapply Forall_impl; [exact Hnew |]. simpl. intros. lia.
Qed.

(** The work of the other tasks. *)
Lemma covers_run now ops at_seq m : ∀ hist w wal,
  covers_from load at_seq m hist w wal → goes_on now ops wal →
  let '(rs, wal') := wal_run now ops wal in
  covers_from load at_seq m (hist ++ appended ops rs) w wal' ∧
  (processed_seq wal ≤ processed_seq wal')%Z ∧
  Forall (λ e, (processed_seq wal < e.1)%Z) (appended ops rs).
Proof.
  induction ops as [|op ops IH]; intros hist w wal Hc Hgo; cbn [wal_run].
  { cbn. rewrite app_nil_r. split_and!; [done | lia | constructor]. }
  assert (goes_on now [op] wal) as Hone.
  { cbn [goes_on] in Hgo |- *. by destruct (wal_step now op wal), Hgo. }
  pose proof (covers_step now op at_seq m hist w wal Hc Hone) as Hs. cbn [goes_on] in Hgo.
  destruct (wal_step now op wal) as [r wal1]. destruct Hs as (Hc1 & Hle & Hnew), Hgo as [_ Hgo].
  pose proof (IH _ w wal1 Hc1 Hgo) as Hr. destruct (wal_run now ops wal1) as [rs wal2].
  destruct Hr as (Hc2 & Hle2 & Hnew2). cbn [appended]. rewrite app_assoc.
  split_and!; [done | lia |]. apply Forall_app. split; [done |].
  eapply Forall_impl; [exact Hnew2 |]. simpl. intros. lia.
Qed.

Lemma goes_on_take now ops k wal : goes_on now ops wal → goes_on now (take k ops) wal.
Proof.
  revert k wal. induction ops as [|op ops IH]; intros [|k] wal; try done. cbn [take goes_on].
  destruct (wal_step now op wal) as [r wal']. intros [H1 H2]. split; [done | by apply IH].
Qed.

(** Another world, with the same snapshot or a new one. *)
Lemma covers_world at_seq m hist w w1 wal p data s :
  covers_from load at_seq m hist w wal → (m ≤ p + 1)%Z → (p ≤ processed_seq wal)%Z →
  load data = Some s → snapshot_seq s = p → saved_at at_seq hist p (snapshot_state s) →
  (∀ c, after_crash w1 c → after_crash w c ∨ c = Some data) →
  covers_from load at_seq m hist w1 wal.
Proof.
  intros (L & HR & Hes & Hm & Hc) Hmp Hp Hl Hseq Hst Hw. exists L. split_and!; [done..|].
  intros c [Hcc| ->]%Hw; [by apply Hc |]. exists p. simpl. rewrite Hl. by split_and!.
Qed.

(** C4. A checkpoint round keeps recovery possible at any moment.  The state and the
    number are taken when everything processed is in the state, and nothing else
    but perhaps the next event (see [saved_at]).  While the snapshot is written,
    the other tasks append, flush, read and mark; their writes, and that of the
    buffer before the truncation, succeed, and the snapshot serializes to bytes that
    load back as it was; the steps of writing it and the truncation itself may fail.  Then in every world that the round goes through,
    together with the log after any number of these operations, and at the end,
    whatever a crash leaves of the snapshot, the old one or the new one, the log
    with its buffer holds every event of the history so far that this snapshot
    does not cover. *)
Theorem checkpoint_round_covers now tmp_ok ops state at_seq hist w wal data s :
  covers load at_seq hist w wal →
  saved_at at_seq hist (processed_seq wal) state →
  goes_on now ops wal →
  snapshot_bytes to_json zstd_encode now (processed_seq wal) state 3 = Some data →
  load data = Some s → snapshot_seq s = processed_seq wal → snapshot_state s = state →
  let '(w', wal', ws) := checkpoint_round (E:=Event Value) to_json zstd_encode with_tmp_extension
                           parent now io_ok tmp_ok state snapshot_path
                           (λ wal, (wal_run now ops wal).2) w wal in
  let history k := hist ++ appended (take k ops) (wal_run now (take k ops) wal).1 in
  (∀ k w1, w1 ∈ w :: ws → covers load at_seq (history k) w1 (wal_run now (take k ops) wal).2) ∧
  covers load at_seq (history (length ops)) w' wal'.
Proof.
  intros [m Hcov] Hsaved Hgo Hd Hload Hseq Hst.
  pose proof (checkpoint_round_truncates to_json zstd_encode with_tmp_extension parent
    snapshot_path dir Hparent (E:=Event Value) now io_ok tmp_ok state
    (λ wal, (wal_run now ops wal).2) w wal data Hd) as Hround.
  destruct (checkpoint_round _ _ _ _ _ _ _ _ _ _ _ _) as [[w' wal'] ws].
  destruct Hround as [Hworlds Hend]. intros history. subst state.
  assert (m ≤ processed_seq wal + 1)%Z as Hm by (destruct Hcov as (? & _ & _ & ? & _); done).
  assert (∀ k w1, w1 ∈ w' :: w :: ws →
    covers_from load at_seq m (history k) w1 (wal_run now (take k ops) wal).2 ∧
    saved_at at_seq (history k) (processed_seq wal) (snapshot_state s) ∧
    (processed_seq wal ≤ processed_seq (wal_run now (take k ops) wal).2)%Z) as Hall.
  { intros k w1 Hw1. unfold history.
    pose proof (covers_run now (take k ops) at_seq m hist w wal Hcov (goes_on_take now ops k wal Hgo)) as Hk.
    destruct (wal_run now (take k ops) wal) as [rs walk]. destruct Hk as (Hk & Hle & Hnew). cbn [fst snd].
    pose proof (saved_at_grow _ _ _ _ _ Hnew Hsaved) as Hs. split; [| done].
    apply (covers_world _ _ _ w w1 walk (processed_seq wal) data s); try done.
    intros c. by apply Hworlds. }
  split; [intros k w1 Hw1; exists m; apply Hall; by right |].
  destruct (Hall (length ops) w') as (Hlast & Hs & Hle); [by left |]. rewrite firstn_all in Hlast, Hle.
  destruct Hend as [->|[Hset ->]]; [by exists m |].
  set (walk := (wal_run now ops wal).2) in *. destruct Hlast as (L & HR & Hes & Hm' & Hc).
  destruct (truncate_keeps now tmp_ok (processed_seq wal) walk L HR) as (L' & HR' & Hdone & Hk).
  pose proof (rep_done _ _ HR) as Hp. pose proof (rep_done _ _ HR') as Hp'. rewrite Hes in Hk.
  assert (∀ c, after_crash w' c →
    snapshot_of at_seq (history (length ops)) (c ≫= load) (processed_seq wal)) as Hnew.
  { intros c ->%Hset. simpl. by rewrite Hload. }
  destruct tmp_ok.
  - exists (Z.max (processed_seq wal) m), L'. rewrite from_from in Hk.
    split_and!; [done | done | lia |]. intros c Hcc. exists (processed_seq wal).
    split_and!; [lia | lia | by apply Hnew].
  - exists m, L'. split_and!; [done | done | lia |]. intros c Hcc. exists (processed_seq wal).
    split_and!; [lia | lia | by apply Hnew].
Qed.
End round.

(** ** Witnesses *)

Section witnesses.
Local Open Scope string_scope.

(** The one event of the witnesses' log, encoded as in [WalSpec]. *)
Definition sample_event : Event unit := SessionCreated "s" (Owner_AgentRun "a").

Definition is_sample (e : Event unit) : bool :=
  match e with
  | SessionCreated i o => bool_decide (i = "s") && bool_decide (o = Owner_AgentRun "a")
  | _ => false
  end.

Lemma is_sample_eq e : is_sample e = true → e = sample_event.
Proof.
  destruct e; try done. simpl. intros [H1 H2]%andb_true_iff.
  apply bool_decide_eq_true in H1, H2. by subst.
Qed.

#[export] Instance sample_codec : Codec (Event unit) := {
  encode n e := if is_sample e then toy_encode n tt else None;
  decode s := (λ p, (p.1, sample_event)) <$> toy_decode s
}.

#[export] Instance sample_laws : CodecLaws (Event unit).
Proof.
  pose proof toy_laws as Ht.
  split; simpl; intros n e; destruct (is_sample e) eqn:He; try done.
  - intros l Hl. exact (encode_braced (E:=unit) n tt l Hl).
  - intros l Hl. exact (encode_no_newline (E:=unit) n tt l Hl).
  - intros l Hl. exact (encode_utf8 (E:=unit) n tt l Hl).
  - intros l Hl. apply is_sample_eq in He as ->.
    pose proof (decode_encode (E:=unit) n tt l Hl) as Hd. simpl in Hd. by rewrite Hd.
  - intros p q Hp Hq. pose proof (decode_prefix (E:=unit) n tt p q Hp Hq) as Hd. simpl in Hd.
    by rewrite Hd.
  - intros l n' e' l' Hl Hl'. destruct (is_sample e'); [| done].
    pose proof (decode_two (E:=unit) n tt l n' tt l' Hl Hl') as Hd. simpl in Hd. by rewrite Hd.
Qed.

Definition sample_history : list (Z * Event unit) := [(1%Z, sample_event); (2%Z, sample_event)].

Definition sample_snapshot : Snapshot unit :=
  mkSnapshot 1 1 (live (λ _, env_at 0) (upto 1 sample_history) MaterializedState_default) 0.

Lemma recovery_restores_state_witness :
  increasing sample_history ∧ Forall (λ e, (0 < e.1)%Z) sample_history ∧
  encodes (from 1 sample_history) ["{1}"; "{2}"] ∧ (1 ≤ 1 + 1)%Z ∧
  snapshot_of (λ _, env_at 0) sample_history (Some sample_snapshot) 1 ∧
  history_clear (λ _, env_at 0) sample_history ∧
  (recover 0 (λ _, env_at 9) (Some sample_snapshot) (write_lines ["{1}"; "{2}"])).1.1
    ≡ live (λ _, env_at 0) sample_history MaterializedState_default.
Proof.
  assert (increasing sample_history) as H1 by (repeat constructor).
  assert (Forall (λ e, (0 < e.1)%Z) sample_history) as H2 by (repeat constructor).
  assert (encodes (from 1 sample_history) ["{1}"; "{2}"]) as H3 by (repeat constructor).
  assert (snapshot_of (λ _, env_at 0) sample_history (Some sample_snapshot) 1) as H4
    by (by split; [| left]).
  split_and!; [exact H1 | exact H2 | exact H3 | lia | exact H4 | repeat split |].
  apply (recovery_restores_state 0 (λ _, env_at 9) (λ _, env_at 0) sample_history
           (Some sample_snapshot) 1 1); [exact H1 | exact H2 | exact H3 | lia | exact H4 | repeat split].
Defined.

Definition sample_log : Wal := mkWal (write_lines ["{1}"; "{2}"]) 2 1 [] 0 4.

Lemma sample_log_rep : wal_rep sample_log (mkLog sample_history [] 1 2%Z 1%Z).
Proof.
  split; try done; [| simpl; lia | constructor].
  exists ["{1}"; "{2}"]. split_and!; [repeat constructor | done | done].
Qed.

Lemma sample_covers (load : string → option (Snapshot unit)) :
  covers load (λ _, env_at 0) sample_history (mkDisk None None None) sample_log.
Proof.
  exists 1%Z, (mkLog sample_history [] 1 2%Z 1%Z). split_and!.
  - apply sample_log_rep.
  - done.
  - simpl. lia.
  - intros c [->|(d & Hd & _)]; [| done]. exists 0%Z. split_and!; [lia | simpl; lia | done].
Qed.

(** While the snapshot is written, the second event is marked. *)
Lemma checkpoint_round_covers_witness :
  let to_json := λ _ : Snapshot unit, Some "json" in
  let zstd := λ (_ : Z) (j : string), (inr ("z" +:+ j) : string + string) in
  let load := λ s : string, if String.eqb s "zjson" then Some sample_snapshot else None in
  let state := snapshot_state sample_snapshot in
  let ops := [OpNext; OpMark 2] in
  covers load (λ _, env_at 0) sample_history (mkDisk None None None) sample_log ∧
  goes_on (E:=Event unit) 0 ops sample_log ∧
  snapshot_bytes to_json zstd 0 1 state 3 = Some "zjson" ∧
  load "zjson" = Some sample_snapshot ∧
  let '(w', wal', ws) := checkpoint_round (E:=Event unit) to_json zstd (λ p, p +:+ ".tmp")
                           (λ _, Some "/") 0 io_ok true state "s"
                           (λ wal, (wal_run (E:=Event unit) 0 ops wal).2) (mkDisk None None None) sample_log in
  length ws = 4%nat ∧
  let history k :=
    (sample_history ++ appended (E:=Event unit) (take k ops) (wal_run 0 (take k ops) sample_log).1)%list in
  (∀ k w1, w1 ∈ mkDisk None None None :: ws →
     covers load (λ _, env_at 0) (history k) w1 (wal_run (E:=Event unit) 0 (take k ops) sample_log).2) ∧
  covers load (λ _, env_at 0) (history (length ops)) w' wal'.
Proof.
  intros to_json zstd load state ops.
  assert (goes_on (E:=Event unit) 0 ops sample_log) as Hgo by (vm_compute; repeat split; discriminate).
  split; [apply sample_covers |]. split; [exact Hgo |]. split; [reflexivity |]. split; [reflexivity |].
  pose proof (checkpoint_round_covers to_json zstd (λ p, p +:+ ".tmp")
    (λ _, Some "/") "s" "/" eq_refl load 0 true ops state (λ _, env_at 0) sample_history
    (mkDisk None None None) sample_log "zjson" sample_snapshot
    (sample_covers _) (or_introl (reflexivity _)) Hgo eq_refl eq_refl eq_refl eq_refl) as H.
  split; [reflexivity | exact H].
Defined.
End witnesses.
