(* ===== verification/Engine.v ===== *)
(** The engine loop: [crates/daemon/src/main.rs], [event_bus.rs] and the event
    processing of [lifecycle/mod.rs].

    The loop reads the log one entry at a time, applies the event, runs the
    runtime's handler, appends the events the handler returns and marks the
    entry processed.  A handler that panics ends the daemon: the entry is not
    marked, and is delivered again after the restart. *)

From S2P Require Import Prelude Ids Runbook Bytes Vars Slug Entities Job Timer Event State StateEquiv.
From S2P Require Import StateIdem StateInv Scheduler Effect Executor Runtime WorkerQueue Monitor.
From S2P Require Import HandleEvent RuntimeWitness Wal WalSpec Recovery.

Local Open Scope string_scope.

Record Engine {Value W : Type} := mkEngine {
  en_rt : Rt Value W;
  en_wal : Wal
}.
Arguments Engine : clear implicits.
Arguments mkEngine {Value W}.

(** How an event was processed. *)
Inductive Outcome := Out_Done | Out_Error (e : RuntimeError) | Out_Crash.

(** A turn of the loop: nothing to read, a new state, or the end of the daemon. *)
Inductive Turn {Value W : Type} := Turn_Sleep | Turn_Next (en : Engine Value W) | Turn_Crash.
Arguments Turn : clear implicits.

Section Engine.
Context {Value W : Type} `{!Adapters Value W} `{!RuntimeIO Value W} `{!JsonItem Value}
  `{!TemplateRegex} `{!Processes W} `{!JsonBuild Value} `{!AgentIO W} `{!SpawnIO W} `{!CronIO W}
  `{!Codec (Event Value)}.
Implicit Types (wal : Wal) (en : Engine Value W).

(** [EventBus::send]; a failure is only logged by the callers here. *)
Definition send (ev : Event Value) wal : Wal := (append ev wal).2.

Fixpoint send_all (evs : list (Event Value)) wal : Wal :=
  match evs with
  | [] => wal
  | ev :: evs' => send_all evs' (send ev wal)
  end.

(** [process_event]: the event is applied, also when the executor has applied
    it when it was emitted, then handled; the events the handler returns are
    appended to the log. *)
Definition process_event (ev : Event Value) en : Outcome * Engine Value W :=
  match handle_event ev (rt_apply ev (en_rt en)) with
  | (inl Rt_Panic, r) => (Out_Crash, mkEngine r (en_wal en))
  | (inl err, r) => (Out_Error err, mkEngine r (en_wal en))
  | (inr evs, r) => (Out_Done, mkEngine r (send_all evs (en_wal en)))
  end.

Definition is_failure_event (ev : Event Value) : bool :=
  match ev with JobAdvanced _ step => String.eqb step "failed" | _ => false end.

Definition is_resume_event (ev : Event Value) : bool :=
  match ev with JobResume _ _ _ _ => true | _ => false end.

Definition on_wal (f : Wal → Wal) en : Engine Value W := mkEngine (en_rt en) (f (en_wal en)).

(** The job of an event that could not be processed fails, unless the event is
    a failure or a resumption. *)
Definition fail_associated (ev : Event Value) wal : Wal :=
  match event_job_id ev with
  | Some pid =>
      if negb (is_failure_event ev) && negb (is_resume_event ev)
      then send (JobAdvanced pid "failed") wal else wal
  | None => wal
  end.

(** What the loop does with an entry. *)
Definition handle_entry (seq : Z) (ev : Event Value) en : Turn Value W :=
  match ev with
  | Shutdown => Turn_Next (on_wal (mark_processed seq) en)
  | _ =>
      match process_event ev en with
      | (Out_Done, en) => Turn_Next (on_wal (mark_processed seq) en)
      | (Out_Error _, en) =>
          Turn_Next (on_wal (λ wal, fail_associated ev (mark_processed seq wal)) en)
      | (Out_Crash, _) => Turn_Crash
      end
  end.

(** One turn on the log. *)
Definition engine_step (now : Z) (io : FlushIO) en : Turn Value W :=
  match next_unprocessed now io (en_wal en) with
  | (inl _, wal) => Turn_Next (mkEngine (en_rt en) wal)
  | (inr None, _) => Turn_Sleep
  | (inr (Some (seq, ev)), wal) => handle_entry seq ev (mkEngine (en_rt en) wal)
  end.

(** The timer tick of the loop: the due timers leave the scheduler and their
    events go to the log. *)
Definition timer_tick en : Engine Value W :=
  let r := en_rt en in
  let env := rt_envs r 0 in
  let '(evs, sched) := fired_timers env (instant env 0) (ex_scheduler (rt_exec r)) in
  mkEngine (rt_set_exec (on_scheduler (λ _, sched) (rt_exec r)) (rt_skip_envs 1 r))
    (send_all evs (en_wal en)).
End Engine.

Local Close Scope string_scope.

(** ** Progress *)

Section progress.
Context {Value W : Type} `{!Adapters Value W} `{!RuntimeIO Value W} `{!JsonItem Value}
  `{!TemplateRegex} `{!Processes W} `{!JsonBuild Value} `{!AgentIO W} `{!SpawnIO W} `{!CronIO W}
  `{!Codec (Event Value)} `{!CodecLaws (Event Value)}.
Implicit Types (L : Log (Event Value)).

(** What a send adds to the abstract log. *)
Definition grows L L' : Prop :=
  log_entries L' = log_entries L ∧ log_pos L' = log_pos L ∧
  ∃ more, log_pending L' = log_pending L ++ more.

Lemma grows_trans L1 L2 L3 : grows L1 L2 → grows L2 L3 → grows L1 L3.
Proof.
  intros (He1 & Hp1 & m1 & Hm1) (He2 & Hp2 & m2 & Hm2).
  split_and!; [congruence | congruence |]. exists (m1 ++ m2). by rewrite Hm2, Hm1, app_assoc.
Qed.

Lemma send_rep ev wal L : wal_rep wal L → ∃ L', wal_rep (send ev wal) L' ∧ grows L L'.
Proof.
  intros HR. destruct (append_refines 0 ev wal L HR) as [_ HR'].
  exists (log_step (OpAppend ev) L).2. split.
  - revert HR'. unfold send. simpl. by destruct (append ev wal) as [[|] ?].
  - simpl. destruct (encode _ ev); simpl; split_and!; try done; [by eexists |].
    exists []. by rewrite app_nil_r.
Qed.

Lemma send_all_rep evs wal L :
  wal_rep wal L → ∃ L', wal_rep (send_all evs wal) L' ∧ grows L L'.
Proof.
  revert wal L. induction evs as [|ev evs IH]; intros wal L HR; simpl.
  - exists L. split; [done |]. split_and!; try done. exists []. by rewrite app_nil_r.
  - destruct (send_rep ev wal L HR) as (L1 & HR1 & Hg1).
    destruct (IH _ _ HR1) as (L2 & HR2 & Hg2). exists L2. split; [done |].
    by eapply grows_trans.
Qed.

Lemma mark_rep seq wal L :
  wal_rep wal L →
  ∃ L', wal_rep (mark_processed seq wal) L' ∧ grows L L'.
Proof.
  intros [(ls & ?) ????]. exists (mkLog (log_entries L) (log_pending L) (log_pos L) (log_seq L) seq).
  split; [by split; simpl; eauto |]. split_and!; try done. exists []. by rewrite app_nil_r.
Qed.

Lemma grows_refl L : grows L L.
Proof. split_and!; try done. exists []. by rewrite app_nil_r. Qed.

(** A change of the log that marks an entry and only adds to the log. *)
Definition settles (seq : Z) L wal : Prop :=
  processed_seq wal = seq ∧ ∃ L', wal_rep wal L' ∧ grows L L'.

Lemma processed_send ev wal : processed_seq (send ev wal) = processed_seq wal.
Proof. unfold send, append. by destruct (encode _ ev). Qed.

Lemma settles_mark seq L L1 wal :
  wal_rep wal L1 → grows L L1 → settles seq L (mark_processed seq wal).
Proof.
  intros HR Hg. split; [done |]. destruct (mark_rep seq _ _ HR) as (L2 & HR2 & Hg2).
  exists L2. split; [done |]. by eapply grows_trans.
Qed.

Lemma settles_fail seq ev L wal : settles seq L wal → settles seq L (fail_associated ev wal).
Proof.
  intros (Hp & L1 & HR & Hg). unfold fail_associated.
  assert (settles seq L wal) as Hs by (split; eauto).
  destruct (event_job_id ev) as [pid|]; [| done]. destruct (_ && _); [| done].
  split; [by rewrite processed_send |].
  destruct (send_rep (JobAdvanced pid "failed") _ _ HR) as (L2 & HR2 & Hg2). exists L2.
  split; [done |]. by eapply grows_trans.
Qed.

Lemma process_event_wal ev (en : Engine Value W) L :
  wal_rep (en_wal en) L →
  ∃ L', wal_rep (en_wal (process_event ev en).2) L' ∧ grows L L'.
Proof.
  intros HR. unfold process_event. destruct (handle_event ev _) as [[err|evs] r]; simpl.
  - exists L. split; [by destruct err | apply grows_refl].
  - by apply send_all_rep.
Qed.

Lemma handle_entry_settles seq ev (en : Engine Value W) L :
  wal_rep (en_wal en) L → (process_event ev en).1 ≠ Out_Crash →
  ∃ en', handle_entry seq ev en = Turn_Next en' ∧ settles seq L (en_wal en').
Proof.
  intros HR Hc. destruct (process_event_wal ev en L HR) as (L' & HR' & Hg).
  assert (∃ en', match process_event ev en with
      | (Out_Done, en) => Turn_Next (on_wal (mark_processed seq) en)
      | (Out_Error _, en) =>
          Turn_Next (on_wal (λ wal, fail_associated ev (mark_processed seq wal)) en)
      | (Out_Crash, _) => Turn_Crash
      end = Turn_Next en' ∧ settles seq L (en_wal en')) as Hall.
  { destruct (process_event ev en) as [[|err|] en1]; simpl in *; [| | done];
      (eexists; split; [reflexivity |]).
    - by eapply settles_mark.
    - apply settles_fail. by eapply settles_mark. }
  unfold handle_entry. destruct ev; try exact Hall.
  eexists. split; [reflexivity |]. by eapply (settles_mark seq L L _ HR), grows_refl.
Qed.
End progress.

(** C32. The engine loop never gets stuck on an event.  When the disk does not
    fail and the log has an undelivered entry, one turn of the loop takes the
    first of them and, whether the handler succeeds or returns an error, marks
    it processed; the position moves on by one, nothing is removed from the log,
    and new events only go behind what is there.  Only a panic of the handler
    ends the loop. *)
Theorem engine_step_progress {Value W} `{!Adapters Value W} `{!RuntimeIO Value W}
    `{!JsonItem Value} `{!TemplateRegex} `{!Processes W} `{!JsonBuild Value} `{!AgentIO W}
    `{!SpawnIO W} `{!CronIO W} `{!Codec (Event Value)} `{!CodecLaws (Event Value)}
    now (en : Engine Value W) L seq ev :
  wal_rep (en_wal en) L →
  (log_entries L ++ log_pending L) !! log_pos L = Some (seq, ev) →
  (handle_event ev (rt_apply ev (en_rt en))).1 ≠ inl Rt_Panic →
  ∃ en' L', engine_step now io_ok en = Turn_Next en' ∧
    processed_seq (en_wal en') = seq ∧ wal_rep (en_wal en') L' ∧
    log_pos L' = S (log_pos L) ∧ log_entries L' = log_entries L ++ log_pending L.
Proof.
  intros HR Hn Hp. destruct (next_refines now _ _ HR) as [Hr HR']. simpl in Hr, HR'.
  rewrite Hn in Hr, HR'. unfold engine_step.
  destruct (next_unprocessed now io_ok (en_wal en)) as [[err|o] wal]; [done |].
  simpl in *. injection Hr as ->.
  destruct (handle_entry_settles seq ev (mkEngine (en_rt en) wal) _ HR')
    as (en' & Hen & Hs & L' & HRL' & He & Hpos & _).
  { unfold process_event. simpl. destruct (handle_event ev _) as [[[]|] ?]; done. }
  exists en', L'. split_and!; [done | done | done | | done].
  rewrite Hpos. simpl. lia.
Qed.

(** ** Applying a batch again from the log *)

Section reapplied.
Context {Value W : Type} `{!Adapters Value W} `{!RuntimeIO Value W} `{!JsonItem Value}
  `{!TemplateRegex} `{!Processes W} `{!JsonBuild Value} `{!AgentIO W} `{!SpawnIO W} `{!CronIO W}
  `{!Codec (Event Value)}.

(** The loop on a run of events read back from the log. *)
Definition reprocess (evs : list (Event Value)) (en : Engine Value W) : Engine Value W :=
  foldl (λ en ev, (process_event ev en).2) en evs.

(** What the three events of a failure transition do to a job. *)
Definition failed_over (t1 t2 : Z) (error f : string) (j : Job) : Job :=
  started_job None None (enter_step t2 f
    (finalize_current_step (Outcome_Failed error) t1
       (job_set_error (Some error) (job_set_step_status Failed j)))).

Lemma failed_over_counts t1 t2 error f j :
  is_terminal_step f = false →
  get_step_visits (failed_over t1 t2 error f j) f = (get_step_visits j f +u32 1)%oj ∧
  length (job_step_history (failed_over t1 t2 error f j)) = S (length (job_step_history j)).
Proof.
  intros Hf. unfold failed_over, enter_step. rewrite Hf, andb_true_r.
  destruct (Job_is_terminal _); simpl; unfold get_step_visits; simpl;
    (split; [by rewrite lookup_insert_eq |]);
    rewrite !length_alter_last, length_app, !length_alter_last; simpl; lia.
Qed.

Lemma failed_over_state e1 e2 e3 id error f j (s : MaterializedState Value) :
  is_terminal_step f = false → jobs s !! id = Some j →
  jobs (apply_StepStarted e3 id None None
          (apply_JobAdvanced e2 id f (apply_StepFailed e1 id error s))) !! id
  = Some (failed_over (clock e1 0) (clock e2 0) error f j).
Proof.
  intros Hf Hj. rewrite StepStarted_jobs. unfold apply_JobAdvanced. simpl.
  rewrite lookup_alter_eq, Hj. simpl.
  set (j1 := finalize_current_step _ _ _).
  assert (advance_skips f j1 = false) as ->.
  { unfold advance_skips. simpl. by rewrite andb_false_r. }
  rewrite Hf. simpl. rewrite lookup_insert_eq. simpl. by rewrite lookup_insert_eq.
Qed.

(** A step that does not end the job has nothing to handle. *)
Lemma handle_JobAdvanced_nop id f (r : Rt Value W) :
  is_terminal_step f = false → handle_event (JobAdvanced id f) r = (inr [], r).
Proof.
  unfold is_terminal_step. intros Hf. cbn [handle_event].
  destruct (String.eqb f "done"), (String.eqb f "failed"), (String.eqb f "cancelled"); done.
Qed.

Lemma process_event_nop ev (en : Engine Value W) :
  (∀ r, handle_event ev r = (inr [], r)) →
  process_event ev en = (Out_Done, mkEngine (rt_apply ev (en_rt en)) (en_wal en)).
Proof. intros Hh. unfold process_event. by rewrite Hh. Qed.
End reapplied.

(** Idempotence of single events does not carry over to a batch.  When a
    step fails over to another step [f], the runtime emits [StepFailed],
    [JobAdvanced] and [StepStarted] in one batch, the executor applies them at
    once, and the loop applies them again from the log.  [StepFailed] undoes the
    guard of [JobAdvanced], so the second round enters [f] again: one failure
    counts two visits of [f] and leaves two records of it. *)
Theorem failover_counts_twice {Value W} `{!Adapters Value W} `{!RuntimeIO Value W}
    `{!JsonItem Value} `{!TemplateRegex} `{!Processes W} `{!JsonBuild Value} `{!AgentIO W}
    `{!SpawnIO W} `{!CronIO W} `{!Codec (Event Value)}
    error f j (r : Rt Value W) wal :
  jobs (rt_state r) !! job_id j = Some j → is_terminal_step f = false →
  ∃ evs r1 j1 j2,
    exec_effects (failure_transition_effects j f error ++ step_start_effects (job_id j) f) r
      = (inr evs, r1) ∧
    jobs (rt_state r1) !! job_id j = Some j1 ∧
    get_step_visits j1 f = (get_step_visits j f +u32 1)%oj ∧
    length (job_step_history j1) = S (length (job_step_history j)) ∧
    jobs (rt_state (en_rt (reprocess evs (mkEngine r1 wal)))) !! job_id j = Some j2 ∧
    get_step_visits j2 f = (get_step_visits j f +u32 2)%oj ∧
    length (job_step_history j2) = S (S (length (job_step_history j))).
Proof.
  intros Hj Hf. do 4 eexists. split; [reflexivity |]. unfold rt_state in *. simpl.
  rewrite (failed_over_state _ _ _ _ _ _ _ _ Hf Hj).
  destruct (failed_over_counts (clock (rt_envs r 0) 0) (clock (rt_envs r 1) 0) error f j Hf)
    as [Hv Hl].
  split; [reflexivity |]. split; [exact Hv |]. split; [exact Hl |].
  unfold reprocess. cbn [foldl].
  rewrite !process_event_nop by (intros; first [reflexivity | by apply handle_JobAdvanced_nop]).
  simpl.
  rewrite (failed_over_state _ _ _ _ _ _ _ _ Hf (failed_over_state _ _ _ _ _ _ _ _ Hf Hj)).
  split; [reflexivity |].
  match goal with |- context [failed_over ?t1 ?t2 error f (failed_over ?s1 ?s2 error f j)] =>
    destruct (failed_over_counts t1 t2 error f (failed_over s1 s2 error f j) Hf) as [Hv2 Hl2] end.
  rewrite Hv2, Hl2, Hv, Hl. split; [| done]. rewrite u32_wrap_add_l. f_equal. lia.
Qed.

(** ** Witnesses *)

#[local] Existing Instances quiet_adapters quiet_io unit_json no_regex no_processes unit_build
  quiet_agents quiet_spawns quiet_crons.

Definition sample_engine : Engine unit unit := mkEngine (sample_rt run_job) sample_log.

Lemma engine_step_progress_witness :
  ∃ en' L', engine_step 0 io_ok sample_engine = Turn_Next en' ∧
    processed_seq (en_wal en') = 2%Z ∧ wal_rep (en_wal en') L' ∧
    log_pos L' = 2 ∧ log_entries L' = sample_history.
Proof.
  apply (engine_step_progress 0 sample_engine (mkLog sample_history [] 1 2%Z 1%Z) 2 sample_event);
    [exact sample_log_rep | reflexivity | discriminate].
Defined.

Lemma failover_counts_twice_witness :
  ∃ evs r1 j1 j2,
    exec_effects (failure_transition_effects run_job "fix" "err" ++ step_start_effects "j" "fix")
      (sample_rt run_job) = (inr evs, r1) ∧
    jobs (rt_state r1) !! "j" = Some j1 ∧
    get_step_visits j1 "fix" = (get_step_visits run_job "fix" +u32 1)%oj ∧
    length (job_step_history j1) = S (length (job_step_history run_job)) ∧
    jobs (rt_state (en_rt (reprocess evs (mkEngine r1 sample_log)))) !! "j" = Some j2 ∧
    get_step_visits j2 "fix" = (get_step_visits run_job "fix" +u32 2)%oj ∧
    length (job_step_history j2) = S (S (length (job_step_history run_job))).
Proof.
  apply (failover_counts_twice "err" "fix" run_job (sample_rt run_job) sample_log);
    reflexivity.
Defined.

Local Close Scope string_scope.
