(* ===== verification/ShellAst.v ===== *)
(** The data of the shell language: [crates/shell/src/span.rs], [token.rs],
    [ast/mod.rs], [error.rs] and [parse_error.rs].

    The types [Command] and [Job] of the syntax tree are [ShellCommand] and
    [ShellJob] here, after [Job] of [crates/core].  A [usize] is a [nat]: all of
    them are positions in a text. *)

From S2P Require Import Prelude Ids Bytes Slug.

Local Open Scope string_scope.

(** ** Spans *)

Record Span := mkSpan { sp_start : nat; sp_end : nat }.

#[global] Instance Span_eq_dec : EqDecision Span.
Proof. solve_decision. Defined.

Definition span_empty (pos : nat) : Span := mkSpan pos pos.
Definition span_len (s : Span) : nat := sp_end s - sp_start s.
Definition span_contains (s : Span) (pos : nat) : bool :=
  (sp_start s <=? pos)%nat && (pos <? sp_end s)%nat.
Definition span_merge (s other : Span) : Span :=
  mkSpan (Nat.min (sp_start s) (sp_start other)) (Nat.max (sp_end s) (sp_end other)).

(** The bytes of a text from [start] to [end_]. *)
Definition text_between (start end_ : nat) (source : string) : string :=
  take_str (end_ - start) (drop_str start source).

(** [source.get(start..end)]. *)
Definition span_slice (s : Span) (source : string) : string :=
  if (sp_start s <=? sp_end s)%nat && (sp_end s <=? String.length source)%nat
     && is_char_boundary source (sp_start s) && is_char_boundary source (sp_end s)
  then text_between (sp_start s) (sp_end s) source
  else "".

(** ** The syntax tree and the tokens

    The lexer puts parts of words into tokens, so both share [WordPart]. *)

Inductive QuoteStyle := Unquoted | SingleQuote | DoubleQuote.

#[global] Instance QuoteStyle_eq_dec : EqDecision QuoteStyle.
Proof. solve_decision. Defined.

Inductive LogicalOp := Op_And | Op_Or.

#[global] Instance LogicalOp_eq_dec : EqDecision LogicalOp.
Proof. solve_decision. Defined.

Inductive DupTarget := Dup_Fd (fd : Z) | Dup_Close.

#[global] Instance DupTarget_eq_dec : EqDecision DupTarget.
Proof. solve_decision. Defined.

Inductive CommandList :=
  | mkCommandList (commands : list AndOrList) (span : Span)
with AndOrList :=
  | mkAndOrList (first : CommandItem) (rest : list (LogicalOp * CommandItem)) (span : Span)
with CommandItem :=
  | mkCommandItem (command : ShellCommand) (background : bool) (span : Span)
with ShellCommand :=
  | Cmd_Simple (cmd : SimpleCommand)
  | Cmd_Job (job : ShellJob)
  | Cmd_Subshell (subshell : Subshell)
  | Cmd_BraceGroup (group : BraceGroup)
with ShellJob :=
  | mkShellJob (commands : list SimpleCommand) (span : Span)
with Subshell :=
  | mkSubshell (body : CommandList) (redirections : list Redirection) (span : Span)
with BraceGroup :=
  | mkBraceGroup (body : CommandList) (redirections : list Redirection) (span : Span)
with EnvAssignment :=
  | mkEnvAssignment (name : string) (value : Word) (span : Span)
with Redirection :=
  | Redir_Out (fd : option Z) (target : Word) (append : bool)
  | Redir_In (fd : option Z) (source : Word)
  | Redir_HereDoc (fd : option Z) (delimiter body : string) (strip_tabs quoted : bool)
  | Redir_HereString (fd : option Z) (content : Word)
  | Redir_Both (append : bool) (target : Word)
  | Redir_Duplicate (source : Z) (target : DupTarget) (output : bool)
with SimpleCommand :=
  | mkSimpleCommand (env : list EnvAssignment) (name : Word) (args : list Word)
      (redirections : list Redirection) (span : Span)
with Word :=
  | mkWord (parts : list WordPart) (span : Span)
with WordPart :=
  | Part_Literal (value : string) (quoted : QuoteStyle)
  | Part_Variable (name : string) (modifier : option string)
  | Part_Substitution (body : SubstitutionBody) (backtick : bool)
with SubstitutionBody :=
  | Sub_Unparsed (text : string)
  | Sub_Parsed (ast : CommandList).

Definition part_literal (value : string) : WordPart := Part_Literal value Unquoted.
Definition part_single_quoted (value : string) : WordPart := Part_Literal value SingleQuote.
Definition part_double_quoted (value : string) : WordPart := Part_Literal value DoubleQuote.

Definition cl_commands (l : CommandList) : list AndOrList := let '(mkCommandList c _) := l in c.
Definition cl_span (l : CommandList) : Span := let '(mkCommandList _ s) := l in s.
Definition ao_first (l : AndOrList) : CommandItem := let '(mkAndOrList f _ _) := l in f.
Definition ao_rest (l : AndOrList) : list (LogicalOp * CommandItem) :=
  let '(mkAndOrList _ r _) := l in r.
Definition ao_span (l : AndOrList) : Span := let '(mkAndOrList _ _ s) := l in s.
Definition ci_command (i : CommandItem) : ShellCommand := let '(mkCommandItem c _ _) := i in c.
Definition ci_background (i : CommandItem) : bool := let '(mkCommandItem _ b _) := i in b.
Definition ci_span (i : CommandItem) : Span := let '(mkCommandItem _ _ s) := i in s.
Definition sj_commands (j : ShellJob) : list SimpleCommand := let '(mkShellJob c _) := j in c.
Definition sj_span (j : ShellJob) : Span := let '(mkShellJob _ s) := j in s.
Definition ss_body (s : Subshell) : CommandList := let '(mkSubshell b _ _) := s in b.
Definition ss_redirections (s : Subshell) : list Redirection := let '(mkSubshell _ r _) := s in r.
Definition ss_span (s : Subshell) : Span := let '(mkSubshell _ _ sp) := s in sp.
Definition bg_body (g : BraceGroup) : CommandList := let '(mkBraceGroup b _ _) := g in b.
Definition bg_redirections (g : BraceGroup) : list Redirection :=
  let '(mkBraceGroup _ r _) := g in r.
Definition bg_span (g : BraceGroup) : Span := let '(mkBraceGroup _ _ sp) := g in sp.
Definition ea_name (e : EnvAssignment) : string := let '(mkEnvAssignment n _ _) := e in n.
Definition ea_value (e : EnvAssignment) : Word := let '(mkEnvAssignment _ v _) := e in v.
Definition sc_env (c : SimpleCommand) : list EnvAssignment :=
  let '(mkSimpleCommand e _ _ _ _) := c in e.
Definition sc_name (c : SimpleCommand) : Word := let '(mkSimpleCommand _ n _ _ _) := c in n.
Definition sc_args (c : SimpleCommand) : list Word := let '(mkSimpleCommand _ _ a _ _) := c in a.
Definition sc_redirections (c : SimpleCommand) : list Redirection :=
  let '(mkSimpleCommand _ _ _ r _) := c in r.
Definition sc_span (c : SimpleCommand) : Span := let '(mkSimpleCommand _ _ _ _ s) := c in s.
Definition wd_parts (w : Word) : list WordPart := let '(mkWord p _) := w in p.
Definition wd_span (w : Word) : Span := let '(mkWord _ s) := w in s.

(** [Command::span] *)
Definition command_span (c : ShellCommand) : Span :=
  match c with
  | Cmd_Simple c => sc_span c
  | Cmd_Job j => sj_span j
  | Cmd_Subshell s => ss_span s
  | Cmd_BraceGroup b => bg_span b
  end.

(** [Redirection::target_span] *)
Definition target_span (r : Redirection) : option Span :=
  match r with
  | Redir_Out _ target _ => Some (wd_span target)
  | Redir_In _ source => Some (wd_span source)
  | Redir_HereString _ content => Some (wd_span content)
  | Redir_Both _ target => Some (wd_span target)
  | Redir_HereDoc _ _ _ _ _ => None
  | Redir_Duplicate _ _ _ => None
  end.

Inductive TokenKind :=
  | Tok_Word (s : string)
  | Tok_SingleQuoted (s : string)
  | Tok_DoubleQuoted (parts : list WordPart)
  | Tok_Variable (name : string) (modifier : option string)
  | Tok_And
  | Tok_Or
  | Tok_Pipe
  | Tok_Semi
  | Tok_Ampersand
  | Tok_Newline
  | Tok_Substitution (content : string) (backtick : bool)
  | Tok_RedirectOut (fd : option Z)
  | Tok_RedirectAppend (fd : option Z)
  | Tok_RedirectIn (fd : option Z)
  | Tok_HereDoc (fd : option Z) (strip_tabs : bool) (delimiter body : string) (quoted : bool)
  | Tok_HereString (fd : option Z)
  | Tok_RedirectBoth (append : bool)
  | Tok_DuplicateFd (source : Z) (target : DupTarget) (output : bool)
  | Tok_LParen
  | Tok_RParen
  | Tok_LBrace
  | Tok_RBrace.

Record Token := mkToken { tk_kind : TokenKind; tk_span : Span }.

(** [TokenKind::is_redirection] *)
Definition is_redirection (k : TokenKind) : bool :=
  match k with
  | Tok_RedirectOut _ | Tok_RedirectAppend _ | Tok_RedirectIn _ | Tok_HereDoc _ _ _ _ _
  | Tok_HereString _ | Tok_RedirectBoth _ | Tok_DuplicateFd _ _ _ => true
  | _ => false
  end.

(** How a token is shown in an error. *)
Definition show_token (k : TokenKind) : string :=
  match k with
  | Tok_Word s => "word '" +:+ s +:+ "'"
  | Tok_SingleQuoted s => "word '" +:+ s +:+ "'"
  | Tok_DoubleQuoted _ => "quoted string"
  | Tok_Variable name _ => "variable '$" +:+ name +:+ "'"
  | Tok_And => "'&&'"
  | Tok_Or => "'||'"
  | Tok_Pipe => "'|'"
  | Tok_Semi => "';'"
  | Tok_Ampersand => "'&'"
  | Tok_Newline => "newline"
  | Tok_Substitution _ _ => "command substitution"
  | Tok_RedirectOut _ => "'>'"
  | Tok_RedirectAppend _ => "'>>'"
  | Tok_RedirectIn _ => "'<'"
  | Tok_HereDoc _ _ _ _ _ => "'<<'"
  | Tok_HereString _ => "'<<<'"
  | Tok_RedirectBoth true => "'&>>'"
  | Tok_RedirectBoth false => "'&>'"
  | Tok_DuplicateFd _ _ _ => "fd duplication"
  | Tok_LParen => "'('"
  | Tok_RParen => "')'"
  | Tok_LBrace => "'{'"
  | Tok_RBrace => "'}'"
  end.

(** ** Names of variables *)

Definition is_ascii_alphabetic (c : ascii) : bool := in_range 65 90 c || in_range 97 122 c.
Definition is_digit_char (c : ascii) : bool := in_range 48 57 c.

Definition is_special_variable (c : ascii) : bool :=
  Ascii.eqb c "?" || Ascii.eqb c "$" || Ascii.eqb c "#" || Ascii.eqb c "0".
Definition is_valid_variable_start (c : ascii) : bool := is_ascii_alphabetic c || Ascii.eqb c "_".
Definition is_valid_variable_char (c : ascii) : bool :=
  is_ascii_alphabetic c || is_digit_char c || Ascii.eqb c "_".

Definition is_valid_variable_name (s : string) : bool :=
  match s with
  | EmptyString => false
  | String c s' => is_valid_variable_start c && all_chars is_valid_variable_char s'
  end.

(** ** Errors *)

Inductive LexerError :=
  | Lex_UnexpectedChar (ch : string) (span : Span)
  | Lex_UnterminatedVariable (span : Span)
  | Lex_EmptyVariable (span : Span)
  | Lex_InvalidVariableName (name : string) (span : Span)
  | Lex_UnterminatedSubstitution (span : Span)
  | Lex_InvalidRedirection (message : string) (span : Span)
  | Lex_UnterminatedSingleQuote (span : Span)
  | Lex_UnterminatedDoubleQuote (span : Span)
  | Lex_InvalidEscape (ch : string) (span : Span)
  | Lex_TrailingBackslash (span : Span)
  | Lex_UnterminatedHereDoc (delimiter : string) (span : Span).

(** [LexerError::span] *)
Definition lexer_error_span (e : LexerError) : Span :=
  match e with
  | Lex_UnexpectedChar _ span => span
  | Lex_UnterminatedVariable span => span
  | Lex_EmptyVariable span => span
  | Lex_InvalidVariableName _ span => span
  | Lex_UnterminatedSubstitution span => span
  | Lex_InvalidRedirection _ span => span
  | Lex_UnterminatedSingleQuote span => span
  | Lex_UnterminatedDoubleQuote span => span
  | Lex_InvalidEscape _ span => span
  | Lex_TrailingBackslash span => span
  | Lex_UnterminatedHereDoc _ span => span
  end.

Inductive ParseError :=
  | Parse_Lexer (e : LexerError)
  | Parse_UnexpectedToken (found : TokenKind) (expected : string) (span : Span)
  | Parse_UnexpectedEof (expected : string)
  | Parse_EmptyCommand (span : Span)
  | Parse_InSubstitution (inner : ParseError) (span : Span).

(** [ParseError::span] *)
Definition parse_error_span (e : ParseError) : option Span :=
  match e with
  | Parse_Lexer e => Some (lexer_error_span e)
  | Parse_UnexpectedToken _ _ span => Some span
  | Parse_UnexpectedEof _ => None
  | Parse_EmptyCommand span => Some span
  | Parse_InSubstitution _ span => Some span
  end.

(** ** Results

    [NoFuel] is the result of a recursion that was given too little fuel; it
    stands for no value of the program, and is shown not to occur. *)

Inductive Res (E A : Type) :=
  | Ok (a : A)
  | Err (e : E)
  | NoFuel.
#[global] Arguments Ok {E A} a.
#[global] Arguments Err {E A} e.
#[global] Arguments NoFuel {E A}.

#[global] Instance res_ret E : MRet (Res E) := λ A a, Ok a.
#[global] Instance res_bind E : MBind (Res E) := λ A B f r,
  match r with Ok a => f a | Err e => Err e | NoFuel => NoFuel end.

#[global] Instance res_fmap E : FMap (Res E) := λ A B f r, r ≫= λ a, Ok (f a).
Definition map_err {E F A} (f : E → F) (r : Res E A) : Res F A :=
  match r with Ok a => Ok a | Err e => Err (f e) | NoFuel => NoFuel end.

(** A loop: the body goes on with a new state or leaves with a result. *)
Fixpoint loop {E A B} (fuel : nat) (body : A → Res E (A + B)) (a : A) : Res E B :=
  match fuel with
  | O => NoFuel
  | S fuel' =>
      r ← body a;
      match r with inl a' => loop fuel' body a' | inr b => Ok b end
  end.

(** ** Reasoning about results

    [post Q QE r]: [r] has a value with [Q] or an error with [QE]; it did not
    run out of fuel. *)

Definition post {E A} (Q : A → Prop) (QE : E → Prop) (r : Res E A) : Prop :=
  match r with Ok a => Q a | Err e => QE e | NoFuel => False end.

Lemma post_bind {E A B} (Q : B → Prop) (QE : E → Prop) (f : A → Res E B) (r : Res E A) :
  post (λ a, post Q QE (f a)) QE r → post Q QE (r ≫= f).
Proof. by destruct r. Qed.

Lemma post_mono {E A} (Q Q' : A → Prop) (QE QE' : E → Prop) (r : Res E A) :
  post Q QE r → (∀ a, Q a → Q' a) → (∀ e, QE e → QE' e) → post Q' QE' r.
Proof. destruct r; simpl; auto. Qed.

(** A loop whose rounds keep [I] and make [m] smaller ends within [m] rounds. *)
Lemma post_loop {E A B} (I : A → Prop) (m : A → nat) (Q : B → Prop) (QE : E → Prop)
    (body : A → Res E (A + B)) fuel a :
  (∀ a, I a → post (λ r, match r with inl a' => I a' ∧ (m a' < m a)%nat | inr b => Q b end)
                   QE (body a)) →
  I a → (m a < fuel)%nat → post Q QE (loop fuel body a).
Proof.
  intros Hbody. revert a. induction fuel as [|fuel IH]; intros a Ha Hm; [lia |].
  simpl. apply post_bind. eapply post_mono; [exact (Hbody a Ha) | | done].
  intros [a'|b]; [| done]. intros [Ha' Hlt]. apply IH; [done | lia].
Qed.

(** One round of a loop. *)
Lemma loop_S {E A B} fuel (body : A → Res E (A + B)) a :
  loop (S fuel) body a
  = (body a ≫= λ r, match r with inl a' => loop fuel body a' | inr b => Ok b end).
Proof. done. Qed.
