(* ===== verification/ShellLexer.v ===== *)
(** The lexer of the shell language: [crates/shell/src/lexer].

    The code reads the characters of a text with their byte positions; this
    model reads its bytes.  Every character the lexer tells apart is ASCII, and
    no byte of another character is, so that the loops, which copy or skip
    characters they do not tell apart, end at the same positions with the same
    texts.  Where a single character is put into an error, [first_char] takes
    all its bytes. *)

From S2P Require Import Prelude Bytes Slug Vars ShellAst.

Local Open Scope string_scope.

Definition tab : ascii := "009"%char.
Definition lf : ascii := "010"%char.
Definition cr : ascii := "013"%char.
Definition quote : ascii := "'"%char.
Definition double_quote : ascii := "034"%char.

Notation "a =c b" := (Ascii.eqb a b%char) (at level 70, no associativity).

Definition push (s : string) (a : ascii) : string := s +:+ String a EmptyString.

(** The number of bytes of the character that starts with [a]. *)
Definition char_len (a : ascii) : nat :=
  if (byte a <? 192)%N then 1 else if (byte a <? 224)%N then 2
  else if (byte a <? 240)%N then 3 else 4.
Definition first_char (s : string) : string :=
  match s with EmptyString => EmptyString | String a _ => take_str (char_len a) s end.

(** [str::parse::<u32>]. *)
Definition parse_u32 (s : string) : option Z :=
  n ← parse_u64 s; if (n <? 2 ^ 32)%Z then Some n else None.

(** ** The input

    [Peekable<CharIndices>]: the position of the next byte and what is left. *)

Record Chars := mkChars { ch_pos : nat; ch_rest : string }.

Definition peek_char (c : Chars) : option ascii :=
  match ch_rest c with EmptyString => None | String a _ => Some a end.
Definition next (c : Chars) : Chars :=
  match ch_rest c with
  | EmptyString => c
  | String _ s => mkChars (S (ch_pos c)) s
  end.

(** [next] as often as there are bytes is enough for every loop. *)
Definition fuel_of (c : Chars) : nat := S (String.length (ch_rest c)).

Record PendingHereDoc := mkPending {
  pd_delimiter : string;
  pd_strip_tabs : bool;
  pd_token_index : nat;
  pd_span : Span
}.

Record QuoteState := mkQuoteState {
  in_single_quote : bool;
  in_double_quote : bool;
  escaped : bool
}.

Definition quote_state_new : QuoteState := mkQuoteState false false false.

(** [QuoteState::process]: the new state, and whether the character is literal. *)
Definition quote_process (q : QuoteState) (ch : ascii) : QuoteState * bool :=
  if escaped q then (mkQuoteState (in_single_quote q) (in_double_quote q) false, true)
  else if (ch =c "\") && negb (in_single_quote q) then
    (mkQuoteState (in_single_quote q) (in_double_quote q) true, false)
  else if (ch =c quote) && negb (in_double_quote q) then
    (mkQuoteState (negb (in_single_quote q)) (in_double_quote q) (escaped q), false)
  else if (ch =c double_quote) && negb (in_single_quote q) then
    (mkQuoteState (in_single_quote q) (negb (in_double_quote q)) (escaped q), false)
  else (q, in_single_quote q || in_double_quote q).

(** The rest after a line continuation, if there is one. *)
Definition consume_line_continuation (c : Chars) : option Chars :=
  match peek_char c with
  | Some b =>
      if b =c "\" then
        match peek_char (next c) with
        | Some x =>
            if x =c lf then Some (next (next c))
            else if x =c cr then
              match peek_char (next (next c)) with
              | Some y => if y =c lf then Some (next (next (next c))) else None
              | None => None
              end
            else None
        | None => None
        end
      else None
  | None => None
  end.

Definition consume_newline (c : Chars) : nat * Chars :=
  match peek_char c with
  | Some a =>
      if a =c lf then (1, next c)
      else if a =c cr then
        match peek_char (next c) with
        | Some b => if b =c lf then (2, next (next c)) else (1, next c)
        | None => (1, next c)
        end
      else (0, c)
  | None => (0, c)
  end.

Definition is_newline_char (a : ascii) : bool := (a =c lf) || (a =c cr).
Definition is_blank (a : ascii) : bool := (a =c " ") || (a =c tab).

Section Lexer.
Context (input : string).

Abbreviation LRes := (Res LexerError) (only parsing).

Definition skip_whitespace (c : Chars) : LRes Chars :=
  loop (fuel_of c) (λ c,
    match peek_char c with
    | Some a =>
        if is_blank a then Ok (inl (next c))
        else match consume_line_continuation c with
             | Some c' => Ok (inl c')
             | None => Ok (inr c)
             end
    | None => Ok (inr c)
    end) c.

(** ** Operators *)

Definition skip_newlines (c : Chars) : LRes Chars :=
  loop (fuel_of c) (λ c,
    match peek_char c with
    | Some a =>
        if is_newline_char a then Ok (inl (snd (consume_newline c)))
        else if is_blank a then Ok (inl (next c))
        else Ok (inr c)
    | None => Ok (inr c)
    end) c.

Definition lex_newline (no_pending : bool) (start : nat) (c : Chars) : LRes (Token * Chars) :=
  let c := next c in
  c ← (if no_pending then skip_newlines c else Ok c);
  Ok (mkToken Tok_Newline (mkSpan start (start + 1)), c).

Definition lex_ampersand (start : nat) (c : Chars) : Token * Chars :=
  let c := next c in
  let amp := (mkToken Tok_Ampersand (mkSpan start (start + 1)), c) in
  match peek_char c with
  | Some a =>
      if a =c "&" then (mkToken Tok_And (mkSpan start (start + 2)), next c)
      else if a =c ">" then
        let c := next c in
        match peek_char c with
        | Some b =>
            if b =c ">" then
              (mkToken (Tok_RedirectBoth true) (mkSpan start (start + 3)), next c)
            else (mkToken (Tok_RedirectBoth false) (mkSpan start (start + 2)), c)
        | None => (mkToken (Tok_RedirectBoth false) (mkSpan start (start + 2)), c)
        end
      else amp
  | None => amp
  end.

Definition lex_pipe (start : nat) (c : Chars) : Token * Chars :=
  let c := next c in
  match peek_char c with
  | Some a =>
      if a =c "|" then (mkToken Tok_Or (mkSpan start (start + 2)), next c)
      else (mkToken Tok_Pipe (mkSpan start (start + 1)), c)
  | None => (mkToken Tok_Pipe (mkSpan start (start + 1)), c)
  end.

(** ** Substitutions *)

(** [Err] of the loops below: what was read is not closed. *)
Definition read_backtick_content (start : nat) (c : Chars) : LRes (string * Chars) :=
  let content_start := ch_pos c in
  loop (fuel_of c) (λ '(c, content_end, esc),
    match peek_char c with
    | None => Err (Lex_UnterminatedSubstitution (mkSpan start content_end))
    | Some a =>
        let pos := ch_pos c in
        if (esc : bool) then Ok (inl (next c, pos + 1, false))
        else if a =c "\" then Ok (inl (next c, pos + 1, true))
        else if a =c "`" then
          Ok (inr (text_between content_start content_end input, next c))
        else Ok (inl (next c, pos + 1, false))
    end) (c, content_start, false).

Definition read_balanced_content (open close : ascii) (start : nat) (c : Chars) :
    LRes (string * Chars) :=
  let content_start := ch_pos c in
  loop (fuel_of c) (λ '(c, content_end, depth, quotes),
    match peek_char c with
    | None => Err (Lex_UnterminatedSubstitution (mkSpan start content_end))
    | Some a =>
        let '(quotes, is_literal) := quote_process quotes a in
        let go_on depth := Ok (inl (next c, ch_pos c + 1, depth, quotes)) in
        if (is_literal : bool) then go_on depth
        else if a =c open then go_on (depth + 1)
        else if a =c close then
          if (depth - 1 =? 0)%nat then
            Ok (inr (text_between content_start content_end input, next c))
          else go_on (depth - 1)
        else go_on depth
    end) (c, content_start, 1, quote_state_new).

Definition lex_dollar_substitution (start : nat) (c : Chars) : LRes (Token * Chars) :=
  let c := next c in
  '(content, c) ← read_balanced_content "(" ")" start c;
  Ok (mkToken (Tok_Substitution content false) (mkSpan start (ch_pos c)), c).

Definition lex_backtick_substitution (start : nat) (c : Chars) : LRes (Token * Chars) :=
  let c := next c in
  '(content, c) ← read_backtick_content start c;
  Ok (mkToken (Tok_Substitution content true) (mkSpan start (ch_pos c)), c).

(** ** Variables *)

Definition scan_variable_name (start : nat) (c : Chars) : LRes (string * Chars) :=
  loop (fuel_of c) (λ '(c, end_),
    match peek_char c with
    | Some a =>
        if is_valid_variable_char a then Ok (inl (next c, ch_pos c + 1))
        else Ok (inr (text_between start end_ input, c))
    | None => Ok (inr (text_between start end_ input, c))
    end) (c, start).

(** The modifier and the closing brace, with the braces in it balanced. *)
Definition scan_modifier (start mod_start : nat) (name : string) (c : Chars) :
    LRes (string * option string * Chars) :=
  loop (fuel_of c) (λ '(c, mod_end, depth),
    match peek_char c with
    | None => Err (Lex_UnterminatedVariable (mkSpan start mod_end))
    | Some a =>
        let go_on depth := Ok (inl (next c, ch_pos c + 1, depth)) in
        if a =c "{" then go_on (depth + 1)
        else if a =c "}" then
          if (depth - 1 =? 0)%nat then
            Ok (inr (name, Some (text_between mod_start mod_end input), next c))
          else go_on (depth - 1)
        else go_on depth
    end) (c, mod_start, 1).

(** The closing brace or a modifier after a name. *)
Definition finish_braced (start name_end : nat) (name : string) (c : Chars) :
    LRes (string * option string * Chars) :=
  match peek_char c with
  | None => Err (Lex_UnterminatedVariable (mkSpan start name_end))
  | Some a =>
      if a =c "}" then Ok (name, None, next c)
      else scan_modifier start name_end name c
  end.

Definition parse_braced_variable (start : nat) (c : Chars) :
    LRes (string * option string * Chars) :=
  match peek_char c with
  | None => Err (Lex_UnterminatedVariable (mkSpan start (start + 2)))
  | Some first_ch =>
      let name_start := ch_pos c in
      if first_ch =c "}" then Err (Lex_EmptyVariable (mkSpan start (start + 3)))
      else if is_special_variable first_ch then
        finish_braced start (name_start + 1) (String first_ch EmptyString) (next c)
      else if negb (is_valid_variable_start first_ch) then
        let ch := first_char (ch_rest c) in
        Err (Lex_InvalidVariableName ch (mkSpan name_start (name_start + String.length ch)))
      else
        '(name, c) ← scan_variable_name name_start c;
        finish_braced start (name_start + String.length name) name c
  end.

Definition lex_simple_variable (start name_start : nat) (c : Chars) : LRes (Token * Chars) :=
  '(name, c) ← scan_variable_name name_start c;
  Ok (mkToken (Tok_Variable name None) (mkSpan start (name_start + String.length name)), c).

Definition lex_braced_variable (start : nat) (c : Chars) : LRes (Token * Chars) :=
  let c := next c in
  '(name, modifier, c) ← parse_braced_variable start c;
  Ok (mkToken (Tok_Variable name modifier) (mkSpan start (ch_pos c)), c).

Definition lex_variable (start : nat) (c : Chars) : LRes (Token * Chars) :=
  let c := next c in
  match peek_char c with
  | None => Err (Lex_EmptyVariable (mkSpan start (start + 1)))
  | Some ch =>
      let name_start := ch_pos c in
      if ch =c "(" then lex_dollar_substitution start c
      else if ch =c "{" then lex_braced_variable start c
      else if is_special_variable ch then
        Ok (mkToken (Tok_Variable (String ch EmptyString) None) (mkSpan start (name_start + 1)),
            next c)
      else if negb (is_valid_variable_start ch) then
        Err (Lex_EmptyVariable (mkSpan start (start + 1)))
      else lex_simple_variable start name_start c
  end.

(** ** Quotes *)

Definition single_quote_round (start content_start : nat) (s : Chars * nat) :
    LRes ((Chars * nat) + (Token * Chars)) :=
  let '(c, content_end) := s in
  match peek_char c with
  | None => Err (Lex_UnterminatedSingleQuote (mkSpan start content_end))
  | Some a =>
      if a =c quote then
        Ok (inr (mkToken (Tok_SingleQuoted (text_between content_start content_end input))
                   (mkSpan start (ch_pos c + 1)), next c))
      else Ok (inl (next c, ch_pos c + 1))
  end.

Definition lex_single_quote (start : nat) (c : Chars) : LRes (Token * Chars) :=
  let c := next c in
  let content_start := start + 1 in
  loop (fuel_of c) (single_quote_round start content_start) (c, content_start).

Definition lex_quoted_braced_variable (start : nat) (c : Chars) : LRes (WordPart * Chars) :=
  '(name, modifier, c) ← parse_braced_variable start c;
  Ok (Part_Variable name modifier, c).

Definition lex_quoted_dollar (start : nat) (c : Chars) : LRes (WordPart * Chars) :=
  let c := next c in
  match peek_char c with
  | None => Ok (part_double_quoted "$", c)
  | Some ch =>
      if ch =c "(" then
        '(content, c) ← read_balanced_content "(" ")" start (next c);
        Ok (Part_Substitution (Sub_Unparsed content) false, c)
      else if ch =c "{" then lex_quoted_braced_variable start (next c)
      else if is_valid_variable_start ch then
        '(name, c) ← scan_variable_name (ch_pos c) c;
        Ok (Part_Variable name None, c)
      else Ok (part_double_quoted "$", c)
  end.

Definition lex_quoted_backtick (start : nat) (c : Chars) : LRes (WordPart * Chars) :=
  let c := next c in
  '(content, c) ← read_backtick_content start c;
  Ok (Part_Substitution (Sub_Unparsed content) true, c).

(** What an escape in double quotes stands for. *)
Definition dq_escape (esc_ch : ascii) : option ascii :=
  if esc_ch =c "\" then Some "\"%char
  else if esc_ch =c "n" then Some lf
  else if esc_ch =c "t" then Some tab
  else if esc_ch =c double_quote then Some double_quote
  else if esc_ch =c quote then Some quote
  else if esc_ch =c "$" then Some "$"%char
  else if esc_ch =c "`" then Some "`"%char
  else None.

(** The parts before an expansion: a pending literal, or an empty one at the
    start. *)
Definition flush_literal (parts : list WordPart) (current_literal : string) :
    list WordPart * string :=
  if negb (is_empty current_literal) || (match parts with [] => true | _ => false end)
  then ((parts ++ [part_double_quoted current_literal])%list, EmptyString)
  else (parts, current_literal).

Definition double_quote_round (start : nat)
    (s : Chars * list WordPart * string * nat * bool) :
    LRes ((Chars * list WordPart * string * nat * bool) + (Token * Chars)) :=
  let '(c, parts, current_literal, last_pos, last_was_expansion) := s in
  match peek_char c with
  | None => Err (Lex_UnterminatedDoubleQuote (mkSpan start last_pos))
  | Some ch =>
      let pos := ch_pos c in
      let last_pos := pos + 1 in
      if ch =c double_quote then
        let parts :=
          if negb (is_empty current_literal) || last_was_expansion
          then (parts ++ [part_double_quoted current_literal])%list else parts in
        Ok (inr (mkToken (Tok_DoubleQuoted parts) (mkSpan start (pos + 1)), next c))
      else if ch =c "\" then
        let c := next c in
        match peek_char c with
        | None => Err (Lex_TrailingBackslash (mkSpan pos (pos + 1)))
        | Some esc_ch =>
            match dq_escape esc_ch with
            | Some replacement =>
                Ok (inl (next c, parts, push current_literal replacement, ch_pos c + 1, false))
            | None =>
                let ch := first_char (ch_rest c) in
                Err (Lex_InvalidEscape ch (mkSpan pos (ch_pos c + String.length ch)))
            end
        end
      else if ch =c "$" then
        let '(parts, current_literal) := flush_literal parts current_literal in
        '(part, c) ← lex_quoted_dollar pos c;
        Ok (inl (c, (parts ++ [part])%list, current_literal, last_pos, true))
      else if ch =c "`" then
        let '(parts, current_literal) := flush_literal parts current_literal in
        '(part, c) ← lex_quoted_backtick pos c;
        Ok (inl (c, (parts ++ [part])%list, current_literal, last_pos, true))
      else Ok (inl (next c, parts, push current_literal ch, last_pos, false))
  end.

Definition lex_double_quote (start : nat) (c : Chars) : LRes (Token * Chars) :=
  let c := next c in
  loop (fuel_of c) (double_quote_round start) (c, [], EmptyString, start + 1, false).

(** ** Redirections and here-documents *)

(** [f.to_string().len()] *)
Definition fd_prefix_len (fd : option Z) : nat :=
  match fd with Some f => String.length (pretty f) | None => 0 end.

Definition lex_dup_target (start : nat) (source : Z) (output : bool) (prefix_len : nat)
    (c : Chars) : LRes (Token * Chars) :=
  let target_start :=
    match peek_char c with Some _ => ch_pos c | None => start + prefix_len end in
  let number :=
    '(end_, c) ← loop (fuel_of c) (λ '(c, end_),
      match peek_char c with
      | Some a =>
          if is_digit_char a then Ok (inl (next c, ch_pos c + 1)) else Ok (inr (end_, c))
      | None => Ok (inr (end_, c))
      end) (c, target_start);
    if (end_ =? target_start)%nat then
      Err (Lex_InvalidRedirection "expected file descriptor after >&"
             (mkSpan start target_start))
    else
      match parse_u32 (text_between target_start end_ input) with
      | Some target_fd =>
          Ok (mkToken (Tok_DuplicateFd source (Dup_Fd target_fd) output) (mkSpan start end_), c)
      | None =>
          Err (Lex_InvalidRedirection "invalid file descriptor" (mkSpan target_start end_))
      end in
  match peek_char c with
  | Some a =>
      if a =c "-" then
        Ok (mkToken (Tok_DuplicateFd source Dup_Close output) (mkSpan start (target_start + 1)),
            next c)
      else number
  | None => number
  end.

Definition lex_redirect_out (start : nat) (fd : option Z) (c : Chars) : LRes (Token * Chars) :=
  let c := next c in
  let fd_len := fd_prefix_len fd in
  let out := (mkToken (Tok_RedirectOut fd) (mkSpan start (start + fd_len + 1)), c) in
  match peek_char c with
  | Some a =>
      if a =c ">" then
        Ok (mkToken (Tok_RedirectAppend fd) (mkSpan start (start + fd_len + 2)), next c)
      else if a =c "&" then
        lex_dup_target start (default 1%Z fd) true (fd_len + 2) (next c)
      else Ok out
  | None => Ok out
  end.

Definition read_single_quoted_delimiter (start : nat) (c : Chars) :
    LRes (string * bool * Chars) :=
  let c := next c in
  loop (fuel_of c) (λ '(c, delimiter),
    match peek_char c with
    | None => Err (Lex_UnterminatedSingleQuote (mkSpan start (String.length input)))
    | Some ch =>
        if ch =c quote then Ok (inr (delimiter, true, next c))
        else if is_newline_char ch then
          Err (Lex_UnterminatedSingleQuote (mkSpan start (ch_pos c)))
        else Ok (inl (next c, push delimiter ch))
    end) (c, EmptyString).

Definition read_double_quoted_delimiter (start : nat) (c : Chars) :
    LRes (string * bool * Chars) :=
  let c := next c in
  loop (fuel_of c) (λ '(c, delimiter, esc),
    match peek_char c with
    | None => Err (Lex_UnterminatedDoubleQuote (mkSpan start (String.length input)))
    | Some ch =>
        if (esc : bool) then
          let delimiter :=
            if (ch =c double_quote) || (ch =c "\") || (ch =c "$") || (ch =c "`")
            then push delimiter ch
            else if ch =c lf then delimiter
            else push (push delimiter "\") ch in
          Ok (inl (next c, delimiter, false))
        else if ch =c double_quote then Ok (inr (delimiter, true, next c))
        else if ch =c "\" then Ok (inl (next c, delimiter, true))
        else if is_newline_char ch then
          Err (Lex_UnterminatedDoubleQuote (mkSpan start (ch_pos c)))
        else Ok (inl (next c, push delimiter ch, false))
    end) (c, EmptyString, false).

Definition ends_delimiter (ch : ascii) : bool :=
  is_blank ch || is_newline_char ch || (ch =c ";") || (ch =c "&") || (ch =c "|")
  || (ch =c "(") || (ch =c ")") || (ch =c "<") || (ch =c ">").

Definition read_unquoted_delimiter (c : Chars) : LRes (string * bool * Chars) :=
  loop (fuel_of c) (λ '(c, delimiter, esc),
    match peek_char c with
    | None => Ok (inr (delimiter, false, c))
    | Some ch =>
        if (esc : bool) then Ok (inl (next c, push delimiter ch, false))
        else if ch =c "\" then Ok (inl (next c, delimiter, true))
        else if ends_delimiter ch then Ok (inr (delimiter, false, c))
        else Ok (inl (next c, push delimiter ch, false))
    end) (c, EmptyString, false).

Definition read_heredoc_delimiter (c : Chars) : LRes (string * bool * Chars) :=
  match peek_char c with
  | None => Ok (EmptyString, false, c)
  | Some first_ch =>
      if first_ch =c quote then read_single_quoted_delimiter (ch_pos c) c
      else if first_ch =c double_quote then read_double_quoted_delimiter (ch_pos c) c
      else read_unquoted_delimiter c
  end.

Definition lex_heredoc (start : nat) (fd : option Z) (strip_tabs : bool) (prefix_len : nat)
    (c : Chars) : LRes (Token * Chars) :=
  c ← skip_whitespace c;
  '(delimiter, quoted, c) ← read_heredoc_delimiter c;
  if is_empty delimiter then
    Err (Lex_InvalidRedirection "expected delimiter after <<" (mkSpan start (start + prefix_len)))
  else
    Ok (mkToken (Tok_HereDoc fd strip_tabs delimiter EmptyString quoted)
          (mkSpan start (ch_pos c)), c).

Definition lex_redirect_in (start : nat) (fd : option Z) (c : Chars) : LRes (Token * Chars) :=
  let c := next c in
  let fd_len := fd_prefix_len fd in
  let in_ := (mkToken (Tok_RedirectIn fd) (mkSpan start (start + fd_len + 1)), c) in
  match peek_char c with
  | Some a =>
      if a =c "<" then
        let c := next c in
        match peek_char c with
        | Some b =>
            if b =c "<" then
              Ok (mkToken (Tok_HereString fd) (mkSpan start (start + fd_len + 3)), next c)
            else if b =c "-" then lex_heredoc start fd true (fd_len + 3) (next c)
            else lex_heredoc start fd false (fd_len + 2) c
        | None => lex_heredoc start fd false (fd_len + 2) c
        end
      else if a =c "&" then
        lex_dup_target start (default 0%Z fd) false (fd_len + 2) (next c)
      else Ok in_
  | None => Ok in_
  end.

Definition read_line (c : Chars) : LRes (string * Chars) :=
  let start := ch_pos c in
  loop (fuel_of c) (λ '(c, end_),
    match peek_char c with
    | None => Ok (inr (text_between start end_ input, c))
    | Some ch =>
        if is_newline_char ch then
          let '(n, c') := consume_newline c in
          Ok (inr (text_between start (ch_pos c + n) input, c'))
        else Ok (inl (next c, ch_pos c + 1))
    end) (c, start).

Fixpoint trim_tabs (s : string) : string :=
  match s with
  | String a s' => if a =c tab then trim_tabs s' else s
  | EmptyString => EmptyString
  end.

(** [str::strip_suffix] on one byte, or the text itself. *)
Definition strip_last (ch : ascii) (s : string) : string :=
  match rev_str s with
  | String a r => if a =c ch then rev_str r else s
  | EmptyString => s
  end.

(** [None] when the input ends before the delimiter. *)
Definition read_heredoc_body (delimiter : string) (strip_tabs : bool) (c : Chars) :
    LRes (option string * Chars) :=
  loop (fuel_of c) (λ '(c, body),
    match peek_char c with
    | None => Ok (inr (None, c))
    | Some _ =>
        '(line, c) ← read_line c;
        let content := if strip_tabs then trim_tabs line else line in
        if String.eqb (strip_last cr (strip_last lf content)) delimiter
        then Ok (inr (Some body, c))
        else Ok (inl (c, body +:+ content))
    end) (c, EmptyString).

(** A token with the body of its here-document. *)
Definition set_body (body : string) (t : Token) : Token :=
  match tk_kind t with
  | Tok_HereDoc fd strip_tabs delimiter _ quoted =>
      mkToken (Tok_HereDoc fd strip_tabs delimiter body quoted) (tk_span t)
  | _ => t
  end.

Fixpoint capture_pending_heredocs (pending : list PendingHereDoc) (tokens : list Token)
    (c : Chars) : LRes (list Token * Chars) :=
  match pending with
  | [] => Ok (tokens, c)
  | p :: pending =>
      '(body, c) ← read_heredoc_body (pd_delimiter p) (pd_strip_tabs p) c;
      match body with
      | Some body =>
          capture_pending_heredocs pending (alter (set_body body) (pd_token_index p) tokens) c
      | None => Err (Lex_UnterminatedHereDoc (pd_delimiter p) (pd_span p))
      end
  end.

(** ** Words *)

Definition is_word_boundary (ch : ascii) : bool :=
  is_blank ch || is_newline_char ch || (ch =c "&") || (ch =c "|") || (ch =c ";")
  || (ch =c "$") || (ch =c "`") || (ch =c "<") || (ch =c ">") || (ch =c "(") || (ch =c ")")
  || (ch =c "{") || (ch =c "}") || (ch =c quote) || (ch =c double_quote).

Definition is_glob_char (ch : ascii) : bool := (ch =c "*") || (ch =c "?") || (ch =c "[").

(** One round of the loop of [lex_word]. *)
Definition word_round (s : Chars * string * nat) :
    LRes ((Chars * string * nat) + (string * nat * Chars)) :=
  let '(c, word, end_) := s in
  match peek_char c with
  | None => Ok (inr (word, end_, c))
  | Some ch =>
      match consume_line_continuation c with
      | Some c' => Ok (inl (c', word, end_))
      | None =>
          if ch =c "\" then
            let literal := Ok (inl (next c, push word ch, ch_pos c + 1)) in
            match peek_char (next c) with
            | Some next_ch =>
                if negb (is_newline_char next_ch) then
                  let word := if is_glob_char next_ch then push word "\" else word in
                  Ok (inl (next (next c), push word next_ch, ch_pos c + 2))
                else literal
            | None => literal
            end
          else if is_word_boundary ch then Ok (inr (word, end_, c))
          else Ok (inl (next c, push word ch, ch_pos c + 1))
      end
  end.

(** The characters of a word, and where they end. *)
Definition word_chars (start : nat) (c : Chars) : LRes (string * nat * Chars) :=
  loop (fuel_of c) word_round (c, EmptyString, start).

Definition lex_word (start : nat) (c : Chars) : LRes (Token * Chars) :=
  '(word, end_, c) ← word_chars start c;
  let plain := Ok (mkToken (Tok_Word word) (mkSpan start end_), c) in
  match peek_char c with
  | Some next_ch =>
      if ((next_ch =c "<") || (next_ch =c ">")) && all_chars is_digit_char word then
        match parse_u32 word with
        | Some fd =>
            if next_ch =c ">" then lex_redirect_out start (Some fd) c
            else lex_redirect_in start (Some fd) c
        | None => plain
        end
      else plain
  | None => plain
  end.

(** ** The whole input *)

Definition next_token (pending : list PendingHereDoc) (c : Chars) :
    LRes (option (Token * Chars)) :=
  c ← skip_whitespace c;
  match peek_char c with
  | None => Ok None
  | Some ch =>
      let pos := ch_pos c in
      let single kind := Ok (Some (mkToken kind (mkSpan pos (pos + 1)), next c)) in
      if ch =c lf then
        t ← lex_newline (match pending with [] => true | _ => false end) pos c; Ok (Some t)
      else if ch =c cr then
        let '(len, c) := consume_newline c in
        Ok (Some (mkToken Tok_Newline (mkSpan pos (pos + len)), c))
      else if ch =c "&" then Ok (Some (lex_ampersand pos c))
      else if ch =c "|" then Ok (Some (lex_pipe pos c))
      else if ch =c ";" then single Tok_Semi
      else if ch =c "(" then single Tok_LParen
      else if ch =c ")" then single Tok_RParen
      else if ch =c "{" then single Tok_LBrace
      else if ch =c "}" then single Tok_RBrace
      else if ch =c "$" then t ← lex_variable pos c; Ok (Some t)
      else if ch =c "`" then t ← lex_backtick_substitution pos c; Ok (Some t)
      else if ch =c ">" then t ← lex_redirect_out pos None c; Ok (Some t)
      else if ch =c "<" then t ← lex_redirect_in pos None c; Ok (Some t)
      else if ch =c quote then t ← lex_single_quote pos c; Ok (Some t)
      else if ch =c double_quote then t ← lex_double_quote pos c; Ok (Some t)
      else t ← lex_word pos c; Ok (Some t)
  end.

(** The here-document a token starts. *)
Definition pending_of (tokens : list Token) (t : Token) : list PendingHereDoc :=
  match tk_kind t with
  | Tok_HereDoc _ strip_tabs delimiter _ _ =>
      [mkPending delimiter strip_tabs (length tokens) (tk_span t)]
  | _ => []
  end.

Definition is_newline (k : TokenKind) : bool := match k with Tok_Newline => true | _ => false end.

(** One round of the loop of [tokenize]. *)
Definition tokenize_round (s : Chars * list PendingHereDoc * list Token) :
    LRes ((Chars * list PendingHereDoc * list Token) + (list PendingHereDoc * list Token)) :=
  let '(c, pending, tokens) := s in
  t ← next_token pending c;
  match t with
  | None => Ok (inr (pending, tokens))
  | Some (token, c) =>
      let pending := (pending ++ pending_of tokens token)%list in
      let tokens := (tokens ++ [token])%list in
      if is_newline (tk_kind token) && negb (match pending with [] => true | _ => false end) then
        '(tokens, c) ← capture_pending_heredocs pending tokens c;
        Ok (inl (c, [], tokens))
      else Ok (inl (c, pending, tokens))
  end.

Definition tokenize : LRes (list Token) :=
  let c := mkChars 0 input in
  '(pending, tokens) ← loop (fuel_of c) tokenize_round (c, [], []);
  match pending with
  | p :: _ => Err (Lex_UnterminatedHereDoc (pd_delimiter p) (pd_span p))
  | [] => Ok tokens
  end.

End Lexer.
