(* ===== verification/ShellParser.v ===== *)
(** The parser of the shell language: [crates/shell/src/parser].

    A parser is its tokens, the length of the input and a position, which is
    passed along.  [Parser::parse] is called again for the text of a command
    substitution, and command lists nest; both recursions are passed as
    arguments and tied at the end, with a fuel for each.  Parsing with recovery,
    which the program does not use, is left out. *)

From S2P Require Import Prelude Bytes Slug Vars ShellAst ShellLexer.

Local Open Scope string_scope.

Inductive CompoundDelimiter := Delim_Paren | Delim_Brace.

(** The closing token is of kind [closing_token]. *)
Definition is_closing_token (d : CompoundDelimiter) (k : TokenKind) : bool :=
  match d, k with
  | Delim_Paren, Tok_RParen => true
  | Delim_Brace, Tok_RBrace => true
  | _, _ => false
  end.

Definition closing_str (d : CompoundDelimiter) : string :=
  match d with Delim_Paren => "')'" | Delim_Brace => "'}'" end.

(** [word.find('=')] as the texts before and after it. *)
Definition try_parse_assignment_word (word : string) : option (string * string) :=
  '(name, value) ← split_once "="%char word;
  if is_valid_variable_name name then Some (name, value) else None.

Section Parser.
Context (tokens : list Token) (input_len : nat).

(** [Parser::parse], for the text of a substitution. *)
Context (parse_sub : string → Res ParseError CommandList).

Abbreviation PRes := (Res ParseError) (only parsing).

(** Every loop of the parser consumes a token in each round but the last. *)
Definition loop_fuel : nat := S (length tokens).

(** ** The current token *)

Definition peek (pos : nat) : option Token := tokens !! pos.
Definition peek_kind (pos : nat) : option TokenKind := tk_kind <$> peek pos.
Definition advance (pos : nat) : nat :=
  match tokens !! pos with Some _ => S pos | None => pos end.
Definition at_end (pos : nat) : bool := (length tokens <=? pos)%nat.
Definition at_separator (pos : nat) : bool :=
  match peek_kind pos with Some Tok_Semi | Some Tok_Newline => true | _ => false end.
Definition at_group_end (pos : nat) : bool :=
  match peek_kind pos with Some Tok_RParen | Some Tok_RBrace => true | _ => false end.
Definition skip_separators (pos : nat) : PRes nat :=
  loop loop_fuel (λ pos, if at_separator pos then Ok (inl (advance pos)) else Ok (inr pos)) pos.
Definition current_span_start (pos : nat) : nat :=
  match peek pos with Some t => sp_start (tk_span t) | None => 0 end.
(** The index [pos - 1] is one of a token. *)
Definition current_span_end (pos : nat) : nat :=
  if (0 <? pos)%nat then
    match tokens !! (pos - 1)%nat with Some t => sp_end (tk_span t) | None => 0 end
  else match tokens with _ :: _ => 0 | [] => input_len end.
Definition unexpected_token (expected : string) (pos : nat) : ParseError :=
  match peek pos with
  | Some token => Parse_UnexpectedToken (tk_kind token) expected (tk_span token)
  | None => Parse_UnexpectedEof expected
  end.
Definition is_redirection_token (pos : nat) : bool :=
  match peek_kind pos with Some k => is_redirection k | None => false end.

(** ** Words *)

Definition is_adjacent (pos current_end : nat) : bool :=
  match peek pos with Some t => (sp_start (tk_span t) =? current_end)%nat | None => false end.

Definition parse_command_substitution (content : string) (backtick : bool) (span : Span) :
    PRes WordPart :=
  body ← map_err (λ e, Parse_InSubstitution e span) (parse_sub content);
  Ok (Part_Substitution (Sub_Parsed body) backtick).

(** The parts of a double-quoted token, with substitutions parsed. *)
Fixpoint quoted_to_parts (span : Span) (word_parts : list WordPart) : PRes (list WordPart) :=
  match word_parts with
  | [] => Ok []
  | wp :: rest =>
      part ← (match wp with
              | Part_Substitution (Sub_Unparsed content) backtick =>
                  parse_command_substitution content backtick span
              | other => Ok other
              end);
      parts ← quoted_to_parts span rest;
      Ok (part :: parts)
  end.

Definition token_to_parts (token : Token) : PRes (list WordPart) :=
  match tk_kind token with
  | Tok_Word s => Ok [part_literal s]
  | Tok_SingleQuoted s => Ok [part_single_quoted s]
  | Tok_DoubleQuoted [] => Ok [part_double_quoted ""]
  | Tok_DoubleQuoted word_parts => quoted_to_parts (tk_span token) word_parts
  | Tok_Variable name modifier => Ok [Part_Variable name modifier]
  | Tok_Substitution content backtick =>
      part ← parse_command_substitution content backtick (tk_span token);
      Ok [part]
  | _ => Ok []
  end.

Definition collect_adjacent_parts (pos end_ : nat) (parts : list WordPart) :
    PRes (nat * nat * list WordPart) :=
  loop loop_fuel (λ '(pos, end_, parts),
    let stop := Ok (inr (pos, end_, parts)) in
    if is_adjacent pos end_ then
      match peek pos with
      | None => stop
      | Some token =>
          token_parts ← token_to_parts token;
          match token_parts with
          | [] => stop
          | _ => Ok (inl (advance pos, sp_end (tk_span token), (parts ++ token_parts)%list))
          end
      end
    else stop) (pos, end_, parts).

Definition parse_word (pos : nat) : PRes (option Word * nat) :=
  match peek pos with
  | None => Ok (None, pos)
  | Some first_token =>
      first_parts ← token_to_parts first_token;
      match first_parts with
      | [] => Ok (None, pos)
      | _ =>
          let start := sp_start (tk_span first_token) in
          '(pos, end_, parts) ←
            collect_adjacent_parts (advance pos) (sp_end (tk_span first_token)) first_parts;
          Ok (Some (mkWord parts (mkSpan start end_)), pos)
      end
  end.

(** ** Redirections *)

(** The word after an operator; [expected] is what the error names. *)
Definition redirect_word (expected : string) (pos : nat) : PRes (Word * nat) :=
  '(w, pos) ← parse_word pos;
  match w with
  | Some word => Ok (word, pos)
  | None => Err (unexpected_token expected pos)
  end.

(** Called on a redirection token only; the other branch is unreachable. *)
Definition parse_redirection (pos : nat) : PRes (Redirection * nat) :=
  match peek pos with
  | None => Err (unexpected_token "redirection" pos)
  | Some token =>
      let pos := advance pos in
      match tk_kind token with
      | Tok_RedirectOut fd =>
          '(target, pos) ← redirect_word "redirect target" pos;
          Ok (Redir_Out fd target false, pos)
      | Tok_RedirectAppend fd =>
          '(target, pos) ← redirect_word "redirect target" pos;
          Ok (Redir_Out fd target true, pos)
      | Tok_RedirectIn fd =>
          '(source, pos) ← redirect_word "redirect source" pos;
          Ok (Redir_In fd source, pos)
      | Tok_HereDoc fd strip_tabs delimiter body quoted =>
          Ok (Redir_HereDoc fd delimiter body strip_tabs quoted, pos)
      | Tok_HereString fd =>
          '(content, pos) ← redirect_word "here-string content" pos;
          Ok (Redir_HereString fd content, pos)
      | Tok_RedirectBoth append =>
          '(target, pos) ← redirect_word "redirect target" pos;
          Ok (Redir_Both append target, pos)
      | Tok_DuplicateFd source target output => Ok (Redir_Duplicate source target output, pos)
      | _ => Err (unexpected_token "redirection" pos)
      end
  end.

(** ** Simple commands *)

(** The assignments before a command. *)
Definition parse_assignments (pos : nat) : PRes (list EnvAssignment * nat) :=
  loop loop_fuel (λ '(env, pos),
    match peek pos with
    | Some (mkToken (Tok_Word word) span) =>
        match try_parse_assignment_word word with
        | None => Ok (inr (env, pos))
        | Some (name, value_after_eq) =>
            let value_start := sp_start span + String.length name + 1 in
            let parts := if is_empty value_after_eq then [] else [part_literal value_after_eq] in
            '(pos, value_end, parts) ← collect_adjacent_parts (advance pos) (sp_end span) parts;
            let parts := match parts with [] => [part_literal ""] | _ => parts end in
            Ok (inl ((env ++ [mkEnvAssignment name (mkWord parts (mkSpan value_start value_end)) span])%list,
                     pos))
        end
    | _ => Ok (inr (env, pos))
    end) ([], pos).

(** The arguments and redirections after a command name. *)
Definition parse_arguments (pos : nat) (end_span : Span) :
    PRes (list Word * list Redirection * Span * nat) :=
  loop loop_fuel (λ '(args, redirections, end_span, pos),
    if is_redirection_token pos then
      '(redir, pos) ← parse_redirection pos;
      Ok (inl (args, (redirections ++ [redir])%list, default end_span (target_span redir), pos))
    else
      '(w, pos) ← parse_word pos;
      match w with
      | Some word => Ok (inl ((args ++ [word])%list, redirections, wd_span word, pos))
      | None => Ok (inr (args, redirections, end_span, pos))
      end) ([], [], end_span, pos).

Definition parse_simple_command (pos : nat) : PRes (SimpleCommand * nat) :=
  let start_span := match peek pos with Some t => tk_span t | None => span_empty 0 end in
  '(env, pos) ← parse_assignments pos;
  '(name, pos) ← parse_word pos;
  match name with
  | Some name =>
      '(args, redirections, end_span, pos) ← parse_arguments pos (wd_span name);
      Ok (mkSimpleCommand env name args redirections (span_merge start_span end_span), pos)
  | None =>
      match env with
      | _ :: _ =>
          Ok (mkSimpleCommand env (mkWord [] (span_empty (sp_start start_span))) [] [] start_span,
              pos)
      | [] => Err (unexpected_token "command" pos)
      end
  end.

(** ** Commands *)

Section Commands.
(** [parse_inner_command_list]: the commands before a closing delimiter. *)
Context (parse_inner_command_list : nat → PRes (CommandList * nat)).

(** The redirections after a compound command, and where they end. *)
Definition parse_redirections (pos end_ : nat) : PRes (list Redirection * nat * nat) :=
  loop loop_fuel (λ '(redirections, pos, end_),
    if is_redirection_token pos then
      '(redir, pos) ← parse_redirection pos;
      let end_ := match target_span redir with Some span => sp_end span | None => end_ end in
      Ok (inl ((redirections ++ [redir])%list, pos, end_))
    else Ok (inr (redirections, pos, end_))) ([], pos, end_).

(** Called on the opening delimiter. *)
Definition parse_compound_command (delimiter : CompoundDelimiter) (pos : nat) :
    PRes (ShellCommand * nat) :=
  let start := match peek pos with Some t => sp_start (tk_span t) | None => 0 end in
  '(body, pos) ← parse_inner_command_list (S pos);
  match peek pos with
  | Some t =>
      if is_closing_token delimiter (tk_kind t) then
        '(redirections, pos, end_) ← parse_redirections (S pos) (sp_end (tk_span t));
        let span := mkSpan start end_ in
        Ok (match delimiter with
            | Delim_Paren => Cmd_Subshell (mkSubshell body redirections span)
            | Delim_Brace => Cmd_BraceGroup (mkBraceGroup body redirections span)
            end, pos)
      else Err (unexpected_token (closing_str delimiter) pos)
  | None => Err (unexpected_token (closing_str delimiter) pos)
  end.

Definition parse_subshell (pos : nat) : PRes (ShellCommand * nat) :=
  parse_compound_command Delim_Paren pos.
Definition parse_brace_group (pos : nat) : PRes (ShellCommand * nat) :=
  parse_compound_command Delim_Brace pos.

(** The commands after the first of a job. *)
Definition parse_pipes (pos : nat) (commands : list SimpleCommand) (end_span : Span) :
    PRes (list SimpleCommand * Span * nat) :=
  loop loop_fuel (λ '(commands, end_span, pos),
    match peek_kind pos with
    | Some Tok_Pipe =>
        '(cmd, pos) ← parse_simple_command (advance pos);
        Ok (inl ((commands ++ [cmd])%list, sc_span cmd, pos))
    | _ => Ok (inr (commands, end_span, pos))
    end) (commands, end_span, pos).

Definition parse_job (pos : nat) : PRes (ShellCommand * nat) :=
  match peek_kind pos with
  | Some Tok_LParen => parse_subshell pos
  | Some Tok_LBrace => parse_brace_group pos
  | _ =>
      '(first, pos) ← parse_simple_command pos;
      match peek_kind pos with
      | Some Tok_Pipe =>
          '(commands, end_span, pos) ← parse_pipes pos [first] (sc_span first);
          Ok (Cmd_Job (mkShellJob commands (span_merge (sc_span first) end_span)), pos)
      | _ => Ok (Cmd_Simple first, pos)
      end
  end.

Definition parse_command_item (pos : nat) : PRes (CommandItem * nat) :=
  '(command, pos) ← parse_job pos;
  let start_span := command_span command in
  match peek pos with
  | Some (mkToken Tok_Ampersand span) =>
      Ok (mkCommandItem command true (span_merge start_span span), S pos)
  | _ => Ok (mkCommandItem command false (span_merge start_span start_span), pos)
  end.

(** The operator of a chain at the current token. *)
Definition logical_op (pos : nat) : option LogicalOp :=
  match peek_kind pos with
  | Some Tok_And => Some Op_And
  | Some Tok_Or => Some Op_Or
  | _ => None
  end.

Definition parse_chain (pos : nat) : PRes (list (LogicalOp * CommandItem) * nat) :=
  loop loop_fuel (λ '(rest, pos),
    match logical_op pos with
    | None => Ok (inr (rest, pos))
    | Some op =>
        '(item, pos) ← parse_command_item (advance pos);
        let rest := (rest ++ [(op, item)])%list in
        Ok (if ci_background item then inr (rest, pos) else inl (rest, pos))
    end) ([], pos).

Definition parse_and_or_list (pos : nat) : PRes (AndOrList * nat) :=
  '(first, pos) ← parse_command_item pos;
  let start_span := ci_span first in
  if ci_background first then Ok (mkAndOrList first [] start_span, pos)
  else
    '(rest, pos) ← parse_chain pos;
    let end_span := match last rest with Some (_, item) => ci_span item | None => start_span end in
    Ok (mkAndOrList first rest (span_merge start_span end_span), pos).

(** Whether the last command of a chain runs in the background. *)
Definition last_was_background (l : AndOrList) : bool :=
  match last (ao_rest l) with
  | Some (_, item) => ci_background item
  | None => ci_background (ao_first l)
  end.

Definition expected_after (inner : bool) : string :=
  if inner then "';', newline, or closing delimiter" else "';' or newline".

(** One round of the loop of a command list. *)
Definition command_list_round (inner : bool) (s : list AndOrList * nat) :
    PRes ((list AndOrList * nat) + (list AndOrList * nat)) :=
  let '(commands, pos) := s in
  if at_end pos || (inner && at_group_end pos) then Ok (inr (commands, pos))
  else
    '(and_or, pos) ← parse_and_or_list pos;
    let commands := (commands ++ [and_or])%list in
    if negb (last_was_background and_or) && negb (at_end pos) && negb (at_separator pos)
       && negb (inner && at_group_end pos)
    then Err (unexpected_token (expected_after inner) pos)
    else pos ← skip_separators pos; Ok (inl (commands, pos)).

Definition command_list (inner : bool) (pos : nat) : PRes (CommandList * nat) :=
  let start := current_span_start pos in
  pos ← skip_separators pos;
  '(commands, pos) ← loop loop_fuel (command_list_round inner) ([], pos);
  let end_ := current_span_end pos in
  Ok (mkCommandList commands (mkSpan start (Nat.max end_ start)), pos).
End Commands.

(** Groups nest at most as deep as there are tokens. *)
Fixpoint parse_command_list_impl (depth : nat) (inner : bool) (pos : nat) :
    PRes (CommandList * nat) :=
  match depth with
  | O => NoFuel
  | S depth' => command_list (parse_command_list_impl depth' true) inner pos
  end.

Definition parse_inner (pos : nat) : PRes (CommandList * nat) :=
  parse_command_list_impl (length tokens) true pos.

Definition parse_command_list : PRes CommandList :=
  '(l, _) ← parse_command_list_impl loop_fuel false 0; Ok l.
End Parser.

(** ** [Parser::parse]

    A substitution is a part of the text it is in, which bounds the depth. *)

Fixpoint parse_depth (depth : nat) (input : string) : Res ParseError CommandList :=
  match depth with
  | O => NoFuel
  | S depth' =>
      tokens ← map_err Parse_Lexer (tokenize input);
      parse_command_list tokens (String.length input) (parse_depth depth')
  end.

Definition parse (input : string) : Res ParseError CommandList :=
  parse_depth (S (String.length input)) input.
