(* ===== verification/ShellLexerSpec.v ===== *)
(** What the lexer of the shell language promises: it always ends, its tokens
    and errors point into the input, the tokens in order, and quoted values come
    back as they are. *)

From S2P Require Import Prelude Bytes Slug Vars ShellAst ShellLexer.

Local Open Scope string_scope.

(** ** Positions *)

Section Positions.
Context (input : string).

Abbreviation size := (String.length input).

(** The state of the input between two characters. *)
Definition good (c : Chars) : Prop :=
  ch_rest c = drop_str (ch_pos c) input ∧ (ch_pos c ≤ size)%nat.

(** A span of the input. *)
Definition span_in (s : Span) : Prop := (sp_start s ≤ sp_end s ≤ size)%nat.

Definition error_in (e : LexerError) : Prop := span_in (lexer_error_span e).

Definition left_ (c : Chars) : nat := size - ch_pos c.

(** The input after [k] bytes or later. *)
Definition from (k : nat) (c : Chars) : Prop := good c ∧ (k ≤ ch_pos c)%nat.

(** The text of a substitution is shorter than the input, and not parsed; the
    other texts that are looked into later are shorter, too. *)
Definition text_small (s : string) : Prop := (String.length s < size)%nat.
Definition modifier_small (modifier : option string) : Prop :=
  match modifier with Some m => text_small m | None => True end.
Definition part_small (p : WordPart) : Prop :=
  match p with
  | Part_Substitution (Sub_Unparsed content) _ => (String.length content < size)%nat
  | Part_Substitution (Sub_Parsed _) _ => False
  | Part_Variable _ modifier => modifier_small modifier
  | Part_Literal _ _ => True
  end.
Definition token_small (k : TokenKind) : Prop :=
  match k with
  | Tok_DoubleQuoted parts => Forall part_small parts
  | Tok_Substitution content _ => (String.length content < size)%nat
  | Tok_Variable _ modifier => modifier_small modifier
  | Tok_HereDoc _ _ _ body _ => text_small body
  | _ => True
  end.

(** A token from [k] on, and the input behind it. *)
Definition token_from (k : nat) (r : Token * Chars) : Prop :=
  (k ≤ sp_start (tk_span (fst r)) ≤ sp_end (tk_span (fst r)))%nat
  ∧ from (sp_end (tk_span (fst r))) (snd r) ∧ (k < ch_pos (snd r))%nat
  ∧ token_small (tk_kind (fst r)).

Lemma length_drop n s : String.length (drop_str n s) = String.length s - n.
Proof. revert s. induction n as [|n IH]; intros [|a s]; simpl; auto. Qed.

Lemma drop_step n a s s' : drop_str n s = String a s' → drop_str (S n) s = s'.
Proof.
  revert s. induction n as [|n IH]; intros [|b s] H; simpl in *; try congruence.
  by apply (IH s).
Qed.

Lemma good_left c : good c → String.length (ch_rest c) = left_ c.
Proof. intros [-> _]. apply length_drop. Qed.

Lemma good_fuel c : good c → fuel_of c = S (left_ c).
Proof. intros H. unfold fuel_of. by rewrite good_left. Qed.

Lemma good_start : good (mkChars 0 input).
Proof. split; [done | simpl; lia]. Qed.

Lemma peek_next c a :
  peek_char c = Some a → good c →
  good (next c) ∧ ch_pos (next c) = S (ch_pos c) ∧ (ch_pos c < size)%nat.
Proof.
  unfold peek_char, next. intros Hp Hg. pose proof (good_left c Hg) as Hl. destruct Hg as [Hr Hle].
  destruct (ch_rest c) as [|b s] eqn:E; [done |]. unfold left_ in Hl. simpl in *.
  split_and!; [| done | lia].
  split; simpl; [by symmetry; apply (drop_step _ b) | lia].
Qed.

Lemma from_good k c : from k c → good c.
Proof. by intros [? _]. Qed.

Lemma from_le k c : from k c → (k ≤ ch_pos c)%nat.
Proof. by intros [_ ?]. Qed.

Lemma from_size k c : from k c → (ch_pos c ≤ size)%nat.
Proof. by intros [[_ ?] _]. Qed.

Lemma from_mono k k' c : from k c → (k' ≤ k)%nat → from k' c.
Proof. intros [? ?] ?. split; [done | lia]. Qed.

Lemma continuation_from c c' :
  consume_line_continuation c = Some c' → good c → from (S (ch_pos c)) c'.
Proof.
  unfold consume_line_continuation. intros H Hg.
  destruct (peek_char c) as [b|] eqn:E1; [| done]. destruct (b =c "\"); [| done].
  destruct (peek_next c b E1 Hg) as (Hg1 & Hp1 & _).
  destruct (peek_char (next c)) as [x|] eqn:E2; [| done].
  destruct (peek_next _ x E2 Hg1) as (Hg2 & Hp2 & _).
  destruct (x =c lf); [simplify_eq; split; [done | lia] |].
  destruct (x =c cr); [| done].
  destruct (peek_char (next (next c))) as [y|] eqn:E3; [| done].
  destruct (peek_next _ y E3 Hg2) as (Hg3 & Hp3 & _).
  destruct (y =c lf); [| done]. simplify_eq. split; [done | lia].
Qed.

Lemma newline_from c a :
  peek_char c = Some a → is_newline_char a = true → good c →
  good (snd (consume_newline c)) ∧
  ch_pos (snd (consume_newline c)) = ch_pos c + fst (consume_newline c) ∧
  (1 ≤ fst (consume_newline c))%nat.
Proof.
  unfold consume_newline, is_newline_char. intros E Ha Hg. rewrite E.
  destruct (peek_next c a E Hg) as (Hg1 & Hp1 & _).
  destruct (a =c lf); [simpl; split_and!; [done | lia | lia] |].
  simpl in Ha. rewrite Ha.
  destruct (peek_char (next c)) as [b|] eqn:E2; [| simpl; split_and!; [done | lia | lia]].
  destruct (peek_next _ b E2 Hg1) as (Hg2 & Hp2 & _).
  destruct (b =c lf); simpl; split_and!; try done; lia.
Qed.

(** A character of more than one byte is cut where the input ends. *)
Lemma first_char_in c : good c → (ch_pos c + String.length (first_char (ch_rest c)) ≤ size)%nat.
Proof.
  intros Hg. pose proof (good_left c Hg) as Hl. destruct Hg as [_ Hle]. unfold left_ in Hl.
  assert (∀ n s, String.length (take_str n s) ≤ String.length s)%nat as Ht.
  { induction n as [|n IH]; intros [|x s]; simpl; try lia. specialize (IH s). lia. }
  unfold first_char. destruct (ch_rest c) as [|a s]; simpl in *; [lia |].
  pose proof (Ht (char_len a) (String a s)) as H. simpl in H. lia.
Qed.

End Positions.

(** Make the facts about every [peek_char] that succeeded available. *)
Ltac peeked :=
  repeat match goal with
  | H : from _ _ _ |- _ => destruct H
  | E : peek_char ?c = Some ?a, H : good ?i ?c |- _ =>
      lazymatch goal with
      | _ : good i (next c) |- _ => fail
      | _ => let H1 := fresh "Hg" in let H2 := fresh "Hp" in let H3 := fresh "Hs" in
             destruct (peek_next i c a E H) as (H1 & H2 & H3)
      end
  end.

(** Open every choice the code makes, and solve what is about positions. *)
Ltac positions :=
  peeked;
  unfold error_in, span_in, token_from, from, left_ in *; simpl in *;
  unfold modifier_small, text_small in *; simpl in *;
  intuition (first [lia | assumption | by apply Forall_nil]).

Ltac cases :=
  repeat (simpl;
    match goal with
    | |- context [match peek_char ?c with _ => _ end] => destruct (peek_char c) eqn:?
    | |- context [if ?b then _ else _] => destruct b eqn:?
    end).

(** ** Every function of the lexer stays in the input *)

Section Lexing.
Context (input : string).

Abbreviation good := (good input).
Abbreviation from := (from input).
Abbreviation token_from := (token_from input).
Abbreviation error_in := (error_in input).
Abbreviation left_ := (left_ input).
Abbreviation post_in Q := (post Q error_in).

Definition not_at_blank (c : Chars) : Prop := ∀ a, peek_char c = Some a → is_blank a = false.

Lemma skip_whitespace_from c :
  good c → post_in (λ c', from (ch_pos c) c' ∧ not_at_blank c') (skip_whitespace c).
Proof.
  intros Hg. unfold skip_whitespace.
  eapply (post_loop (from (ch_pos c)) left_); [| positions | rewrite (good_fuel input) by done; lia].
  intros c' [Hg' Hle].
  destruct (peek_char c') as [a|] eqn:E; [| split; [positions | congruence]].
  destruct (is_blank a) eqn:Eb; [positions |].
  destruct (consume_line_continuation c') as [c2|] eqn:Ec; [| split; [positions | congruence]].
  apply (continuation_from input) in Ec as [? ?]; [| done]. positions.
Qed.

Lemma skip_newlines_from c : good c → post_in (from (ch_pos c)) (skip_newlines c).
Proof.
  intros Hg. unfold skip_newlines.
  eapply (post_loop (from (ch_pos c)) left_); [| positions | rewrite (good_fuel input) by done; lia].
  intros c' [Hg' Hle]. cases; try (positions; fail).
  destruct (newline_from input c' a) as (? & ? & ?); [done.. |]. positions.
Qed.

Lemma lex_newline_from b c a :
  good c → peek_char c = Some a →
  post_in (token_from (ch_pos c)) (lex_newline b (ch_pos c) c).
Proof.
  intros Hg E. unfold lex_newline. peeked. apply post_bind.
  assert (post_in (from (ch_pos (next c))) (if b then skip_newlines (next c) else Ok (next c))) as H.
  { destruct b; [by apply skip_newlines_from | positions]. }
  eapply post_mono; [exact H | | done]. intros c' [? ?]. positions.
Qed.

Lemma lex_ampersand_from c a :
  good c → peek_char c = Some a → token_from (ch_pos c) (lex_ampersand (ch_pos c) c).
Proof. intros Hg E. unfold lex_ampersand. peeked. cases; positions. Qed.

Lemma lex_pipe_from c a :
  good c → peek_char c = Some a → token_from (ch_pos c) (lex_pipe (ch_pos c) c).
Proof. intros Hg E. unfold lex_pipe. peeked. cases; positions. Qed.

Lemma length_text_between i j :
  (i ≤ j ≤ String.length input)%nat → String.length (text_between i j input) = j - i.
Proof.
  intros H. unfold text_between. pose proof (length_drop i input) as Hl.
  assert (∀ n s, n ≤ String.length s → String.length (take_str n s) = n)%nat as Ht.
  { induction n as [|n IH]; intros [|x s]; simpl; try lia. intros. rewrite IH; lia. }
  apply Ht. lia.
Qed.

(** The text of a substitution that was read, and the input behind it. *)
Abbreviation text_from k :=
  (λ r, from k (snd r) ∧ (String.length (fst r) < String.length input)%nat).

Lemma read_backtick_content_from start c :
  good c → (start < ch_pos c)%nat →
  post_in (text_from (ch_pos c)) (read_backtick_content input start c).
Proof.
  intros Hg Hs. unfold read_backtick_content.
  eapply (post_loop
            (λ '(c', e, _), from (ch_pos c) c' ∧ e = ch_pos c') (λ '(c', _, _), left_ c'));
    [| positions | rewrite (good_fuel input) by done; lia].
  intros [[c' e] esc] [[Hg' Hle] ->]. destruct Hg' as [? Hsz].
  assert (good c') as Hg' by done.
  cases; simpl; rewrite ?length_text_between by lia; positions.
Qed.

Lemma read_balanced_content_from open close start c :
  good c → (start < ch_pos c)%nat →
  post_in (text_from (ch_pos c)) (read_balanced_content input open close start c).
Proof.
  intros Hg Hs. unfold read_balanced_content.
  eapply (post_loop
            (λ '(c', e, _, _), from (ch_pos c) c' ∧ e = ch_pos c') (λ '(c', _, _, _), left_ c'));
    [| positions | rewrite (good_fuel input) by done; lia].
  intros [[[c' e] depth] q] [[Hg' Hle] ->]. pose proof Hg' as [_ Hsz]. simpl.
  destruct (peek_char c') eqn:E; [| positions].
  destruct (quote_process q a) as [q' lit].
  cases; simpl; rewrite ?length_text_between by lia; positions.
Qed.

Lemma lex_dollar_substitution_from start c a :
  good c → peek_char c = Some a → (start < ch_pos c)%nat →
  post_in (token_from start) (lex_dollar_substitution input start c).
Proof.
  intros Hg E Hs. unfold lex_dollar_substitution. peeked. apply post_bind.
  eapply post_mono; [apply read_balanced_content_from; [done | lia] | | done].
  intros [content c'] [[? ?] ?]. positions.
Qed.

Lemma lex_backtick_substitution_from c a :
  good c → peek_char c = Some a →
  post_in (token_from (ch_pos c)) (lex_backtick_substitution input (ch_pos c) c).
Proof.
  intros Hg E. unfold lex_backtick_substitution. peeked. apply post_bind.
  eapply post_mono; [apply read_backtick_content_from; [done | lia] | | done].
  intros [content c'] [[? ?] ?]. positions.
Qed.

(** A name is what was read of it. *)
Lemma scan_variable_name_from c :
  good c →
  post_in (λ '(name, c'), from (ch_pos c) c' ∧ ch_pos c + String.length name = ch_pos c')
    (scan_variable_name input (ch_pos c) c).
Proof.
  intros Hg. unfold scan_variable_name.
  eapply (post_loop (λ '(c', e), from (ch_pos c) c' ∧ e = ch_pos c') (λ '(c', _), left_ c'));
    [| positions | rewrite (good_fuel input) by done; lia].
  intros [c' e] [[Hg' Hle] ->]. pose proof Hg' as [_ Hsz].
  cases; simpl; rewrite ?length_text_between by lia; positions.
Qed.

Abbreviation var_from k :=
  (λ r : string * option string * Chars, from k (snd r) ∧ modifier_small input (snd (fst r))).

Lemma scan_modifier_from start name c :
  good c → (start ≤ ch_pos c)%nat →
  post_in (var_from (ch_pos c)) (scan_modifier input start (ch_pos c) name c).
Proof.
  intros Hg Hs. unfold scan_modifier.
  eapply (post_loop (λ '(c', e, _), from (ch_pos c) c' ∧ e = ch_pos c') (λ '(c', _, _), left_ c'));
    [| positions | rewrite (good_fuel input) by done; lia].
  intros [[c' e] depth] [[Hg' Hle] ->]. pose proof Hg' as [_ Hsz].
  cases; unfold modifier_small, text_small; simpl; rewrite ?length_text_between by lia; positions.
Qed.

Lemma finish_braced_from start name c :
  good c → (start ≤ ch_pos c)%nat →
  post_in (var_from (ch_pos c)) (finish_braced input start (ch_pos c) name c).
Proof.
  intros Hg Hs. unfold finish_braced. pose proof Hg as [_ Hsz]. cases; try (positions; fail).
  by apply scan_modifier_from.
Qed.

Lemma parse_braced_variable_from start c :
  good c → (start + 2 ≤ ch_pos c)%nat →
  post_in (var_from (ch_pos c)) (parse_braced_variable input start c).
Proof.
  intros Hg Hs. unfold parse_braced_variable. pose proof Hg as [_ Hsz].
  destruct (peek_char c) as [a|] eqn:E; [| positions]. peeked.
  destruct (a =c "}"); [positions |].
  destruct (is_special_variable a).
  { replace (ch_pos c + 1) with (ch_pos (next c)) by lia.
    eapply post_mono; [apply finish_braced_from; [done | lia] | | done].
    intros [[n m] c'] [[? ?] ?]. positions. }
  destruct (negb (is_valid_variable_start a)).
  { pose proof (first_char_in input c Hg). positions. }
  apply post_bind. eapply post_mono; [by apply scan_variable_name_from | | done].
  intros [name c'] [[? ?] Hn]. rewrite Hn.
  eapply post_mono; [apply finish_braced_from; [done | lia] | | done].
  intros [[n m] c2] [[? ?] ?]. positions.
Qed.

Lemma lex_variable_from c a :
  good c → peek_char c = Some a →
  post_in (token_from (ch_pos c)) (lex_variable input (ch_pos c) c).
Proof.
  intros Hg E. unfold lex_variable. peeked.
  destruct (peek_char (next c)) as [b|] eqn:E2; [| positions]. peeked.
  destruct (b =c "("); [eapply lex_dollar_substitution_from; [done | done | lia] |].
  destruct (b =c "{").
  { unfold lex_braced_variable. apply post_bind.
    eapply post_mono; [apply parse_braced_variable_from; [done | lia] | | done].
    intros [[n m] c'] [[? ?] ?]. positions. }
  destruct (is_special_variable b); [positions |].
  destruct (negb (is_valid_variable_start b)); [positions |].
  unfold lex_simple_variable. apply post_bind.
  eapply post_mono; [by apply scan_variable_name_from | | done].
  intros [name c'] [[? ?] Hn]. positions.
Qed.

Lemma lex_single_quote_from c a :
  good c → peek_char c = Some a →
  post_in (token_from (ch_pos c)) (lex_single_quote input (ch_pos c) c).
Proof.
  intros Hg E. unfold lex_single_quote. peeked.
  eapply (post_loop (λ '(c', e), from (S (ch_pos c)) c' ∧ e = ch_pos c') (λ '(c', _), left_ c'));
    [| positions | rewrite (good_fuel input) by done; lia].
  intros [c' e] [[Hg' Hle] ->]. pose proof Hg' as [_ Hsz]. cases; positions.
Qed.

Abbreviation part_from k := (λ r : WordPart * Chars, from k (snd r) ∧ part_small input (fst r)).

Lemma lex_quoted_dollar_from c a :
  good c → peek_char c = Some a →
  post_in (part_from (S (ch_pos c))) (lex_quoted_dollar input (ch_pos c) c).
Proof.
  intros Hg E. unfold lex_quoted_dollar. peeked.
  destruct (peek_char (next c)) as [b|] eqn:E2; [| positions]. peeked.
  destruct (b =c "(").
  { apply post_bind. eapply post_mono; [apply read_balanced_content_from; [done | lia] | | done].
    intros [content c'] [[? ?] ?]. positions. }
  destruct (b =c "{").
  { unfold lex_quoted_braced_variable. apply post_bind.
    eapply post_mono; [apply parse_braced_variable_from; [done | lia] | | done].
    intros [[n m] c'] [[? ?] ?]. positions. }
  destruct (is_valid_variable_start b); [| positions].
  apply post_bind. eapply post_mono; [by apply scan_variable_name_from | | done].
  intros [name c'] [[? ?] Hn]. positions.
Qed.

Lemma lex_quoted_backtick_from c a :
  good c → peek_char c = Some a →
  post_in (part_from (S (ch_pos c))) (lex_quoted_backtick input (ch_pos c) c).
Proof.
  intros Hg E. unfold lex_quoted_backtick. peeked. apply post_bind.
  eapply post_mono; [apply read_backtick_content_from; [done | lia] | | done].
  intros [content c'] [[? ?] ?]. positions.
Qed.

Lemma small_snoc parts p :
  Forall (part_small input) parts → part_small input p → Forall (part_small input) (parts ++ [p])%list.
Proof. intros H Hp. apply Forall_app. by repeat constructor. Qed.

Lemma flush_literal_small parts lit parts' lit' :
  flush_literal parts lit = (parts', lit') →
  Forall (part_small input) parts → Forall (part_small input) parts'.
Proof.
  unfold flush_literal. intros H Hs. destruct (_ || _); simplify_eq; [| done]. by apply small_snoc.
Qed.

Lemma lex_double_quote_from c a :
  good c → peek_char c = Some a →
  post_in (token_from (ch_pos c)) (lex_double_quote input (ch_pos c) c).
Proof.
  intros Hg E. unfold lex_double_quote. peeked.
  eapply (post_loop
            (λ '(c', parts, _, l, _), from (S (ch_pos c)) c' ∧ (ch_pos c ≤ l ≤ ch_pos c')%nat ∧
                                      Forall (part_small input) parts)
            (λ '(c', _, _, _, _), left_ c'));
    [| positions | rewrite (good_fuel input) by done; lia].
  intros [[[[c' parts] lit] l] x] ([Hg' Hle] & Hl & Hsm). pose proof Hg' as [_ Hsz].
  unfold double_quote_round.
  destruct (peek_char c') as [b|] eqn:E2; [| positions]. peeked. cbv zeta.
  destruct (b =c double_quote).
  { assert (Forall (part_small input) (if negb (is_empty lit) || x
      then (parts ++ [part_double_quoted lit])%list else parts))
      by (destruct (_ || _); [by apply small_snoc | done]). positions. }
  destruct (b =c "\").
  { destruct (peek_char (next c')) as [e|] eqn:E3; [| positions]. peeked.
    destruct (dq_escape e); [positions |]. pose proof (first_char_in input _ Hg1). positions. }
  destruct (b =c "$").
  { destruct (flush_literal parts lit) eqn:Ef. eapply flush_literal_small in Ef; [| done].
    apply post_bind. eapply post_mono; [by eapply lex_quoted_dollar_from | | done].
    intros [p c2] [[? ?] ?]. split; [| positions]. split_and!; [positions | positions | positions |].
    by apply small_snoc. }
  destruct (b =c "`"); [| positions].
  destruct (flush_literal parts lit) eqn:Ef. eapply flush_literal_small in Ef; [| done].
  apply post_bind. eapply post_mono; [by eapply lex_quoted_backtick_from | | done].
  intros [p c2] [[? ?] ?]. split; [| positions]. split_and!; [positions | positions | positions |].
  by apply small_snoc.
Qed.

(** ** Redirections *)

Lemma lex_dup_target_from start source output n c :
  good c → (start + n ≤ ch_pos c)%nat → (0 < n)%nat →
  post_in (token_from start) (lex_dup_target input start source output n c).
Proof.
  intros Hg Hs Hn. unfold lex_dup_target. cbv zeta. pose proof Hg as [_ Hsz].
  set (t := match peek_char c with Some _ => ch_pos c | None => start + n end).
  assert (start + n ≤ t ≤ ch_pos c)%nat as Ht by (subst t; destruct (peek_char c); lia).
  match goal with |- context [loop ?f ?b ?a ≫= ?k] => set (number := loop f b a ≫= k) end.
  assert (post_in (token_from start) number) as Hnum.
  { subst number. apply post_bind.
    eapply (post_loop (λ '(c', e), from (ch_pos c) c' ∧ (t ≤ e ≤ ch_pos c')%nat)
              (λ '(c', _), left_ c'));
      [| positions | rewrite (good_fuel input) by done; lia].
    intros [c' e] [[Hg' Hle] He]. pose proof Hg' as [_ Hsz'].
    assert (post_in (token_from start)
      (if (e =? t)%nat
       then Err (Lex_InvalidRedirection "expected file descriptor after >&" (mkSpan start t))
       else match parse_u32 (text_between t e input) with
            | Some target_fd =>
                Ok (mkToken (Tok_DuplicateFd source (Dup_Fd target_fd) output) (mkSpan start e), c')
            | None => Err (Lex_InvalidRedirection "invalid file descriptor" (mkSpan t e))
            end)) as Hend.
    { destruct (e =? t)%nat; [positions |]. destruct (parse_u32 _); positions. }
    cases; try exact Hend. positions. }
  destruct (peek_char c) as [a|] eqn:E; [| exact Hnum].
  destruct (a =c "-"); [| exact Hnum]. positions.
Qed.

Lemma lex_redirect_out_from start fd c a :
  good c → peek_char c = Some a → (start + fd_prefix_len fd ≤ ch_pos c)%nat →
  post_in (token_from start) (lex_redirect_out input start fd c).
Proof.
  intros Hg E Hs. unfold lex_redirect_out. peeked. cbv zeta.
  destruct (peek_char (next c)) as [b|] eqn:E2; [| positions]. peeked.
  destruct (b =c ">"); [positions |]. destruct (b =c "&"); [| positions].
  apply lex_dup_target_from; [done | lia | lia].
Qed.

Abbreviation delimiter_from k := (λ r : string * bool * Chars, from k (snd r)).

Lemma read_heredoc_delimiter_from c :
  good c → post_in (delimiter_from (ch_pos c)) (read_heredoc_delimiter input c).
Proof.
  intros Hg. unfold read_heredoc_delimiter.
  destruct (peek_char c) as [a|] eqn:E; [| positions]. pose proof Hg as [_ Hsz]. peeked.
  destruct (a =c quote); [| destruct (a =c double_quote)].
  - unfold read_single_quoted_delimiter.
    eapply (post_loop (λ '(c', _), from (S (ch_pos c)) c') (λ '(c', _), left_ c'));
      [| positions | rewrite (good_fuel input) by done; lia].
    intros [c' d] [Hg' Hle]. pose proof Hg' as [_ Hsz']. cases; positions.
  - unfold read_double_quoted_delimiter.
    eapply (post_loop (λ '(c', _, _), from (S (ch_pos c)) c') (λ '(c', _, _), left_ c'));
      [| positions | rewrite (good_fuel input) by done; lia].
    intros [[c' d] esc] [Hg' Hle]. pose proof Hg' as [_ Hsz']. simpl.
    destruct (peek_char c') as [b|] eqn:E2; [| positions]. peeked.
    destruct esc; [positions |]. cases; positions.
  - unfold read_unquoted_delimiter.
    eapply (post_loop (λ '(c', _, _), from (ch_pos c) c') (λ '(c', _, _), left_ c'));
      [| positions | rewrite (good_fuel input) by done; lia].
    intros [[c' d] esc] [Hg' Hle]. cases; positions.
Qed.

Lemma lex_heredoc_from start fd strip n c :
  good c → (start + n ≤ ch_pos c)%nat → (0 < n)%nat →
  post_in (token_from start) (lex_heredoc input start fd strip n c).
Proof.
  intros Hg Hs Hn. unfold lex_heredoc. apply post_bind.
  eapply post_mono; [by apply skip_whitespace_from | | done].
  intros c1 [[Hg1 Hle1] _]. apply post_bind.
  eapply post_mono; [by apply read_heredoc_delimiter_from | | done].
  intros [[d q] c2] [Hg2 Hle2]. pose proof Hg2 as [_ Hsz]. destruct (is_empty d); positions.
Qed.

Lemma lex_redirect_in_from start fd c a :
  good c → peek_char c = Some a → (start + fd_prefix_len fd ≤ ch_pos c)%nat →
  post_in (token_from start) (lex_redirect_in input start fd c).
Proof.
  intros Hg E Hs. unfold lex_redirect_in. peeked. cbv zeta.
  destruct (peek_char (next c)) as [b|] eqn:E2; [| positions]. peeked.
  destruct (b =c "<").
  - destruct (peek_char (next (next c))) as [x|] eqn:E3.
    2: { apply lex_heredoc_from; [done | lia | lia]. }
    peeked. destruct (x =c "<"); [positions |].
    destruct (x =c "-"); apply lex_heredoc_from; try done; lia.
  - destruct (b =c "&"); [| positions]. apply lex_dup_target_from; [done | lia | lia].
Qed.

(** ** Words *)

Lemma digit_range a d : digit a = Some d → (0 ≤ d < 10)%Z.
Proof.
  unfold digit, in_range. intros H.
  destruct (48 <=? byte a)%N eqn:E1, (byte a <=? 57)%N eqn:E2; simpl in H; simplify_eq.
  apply N.leb_le in E1, E2. lia.
Qed.

Lemma digits_bound s acc n :
  digits acc s = Some n → (0 ≤ acc)%Z →
  (0 ≤ n < (acc + 1) * 10 ^ Z.of_nat (String.length s))%Z.
Proof.
  revert acc. induction s as [|a s IH]; intros acc H Hacc; simpl in H.
  - simplify_eq. simpl. lia.
  - destruct (digit a) as [d|] eqn:Ed; [| done].
    pose proof (digit_range _ _ Ed) as Hd.
    destruct (_ <? _)%Z; [| done]. apply IH in H; [| lia].
    simpl. rewrite Nat2Z.inj_succ, Z.pow_succ_r by lia.
    pose proof (Z.pow_pos_nonneg 10 (Z.of_nat (String.length s))). nia.
Qed.

Lemma length_pretty_go (k : nat) x s :
  (x < 10 ^ N.of_nat k)%N → (String.length (pretty_N_go x s) ≤ k + String.length s)%nat.
Proof.
  revert x s. induction k as [|k IH]; intros x s Hx.
  - change (N.of_nat 0) with 0%N in Hx. rewrite N.pow_0_r in Hx.
    assert (x = 0%N) as -> by lia. by rewrite pretty_N_go_0.
  - destruct (decide (x = 0)%N) as [->|Hne]; [rewrite pretty_N_go_0; lia |].
    rewrite pretty_N_go_step by lia. rewrite Nat2N.inj_succ, N.pow_succ_r' in Hx.
    specialize (IH (x `div` 10)%N (String (pretty_N_char (x `mod` 10)) s)).
    simpl in IH. assert (x `div` 10 < 10 ^ N.of_nat k)%N by (apply N.Div0.div_lt_upper_bound; lia).
    specialize (IH H). lia.
Qed.

(** A number is not longer printed than it was read. *)
Lemma parse_u32_length word fd :
  parse_u32 word = Some fd → (fd_prefix_len (Some fd) ≤ String.length word)%nat.
Proof.
  unfold parse_u32, parse_u64. intros H.
  set (s := match word with String a s' => if Ascii.eqb a "+" then s' else word
            | EmptyString => word end) in H.
  assert (String.length s ≤ String.length word)%nat as Hs.
  { subst s. destruct word as [|a w]; [done |]. destruct (Ascii.eqb a "+"); simpl; lia. }
  destruct (is_empty s) eqn:Es; [done |]. simpl in H.
  destruct (digits 0 s) as [n|] eqn:Ed; [| done]. simpl in H.
  destruct (n <? 2 ^ 32)%Z; [| done]. simplify_eq.
  apply digits_bound in Ed; [| lia]. rewrite Z.mul_1_l in Ed.
  assert (1 ≤ String.length s)%nat by (destruct s; simpl in *; [done | lia]).
  simpl. destruct fd as [|p|p]; [simpl; lia | | lia].
  change (pretty (Z.pos p)) with (pretty (N.pos p)). unfold pretty, pretty_N.
  rewrite decide_False by done.
  pose proof (length_pretty_go (String.length s) (N.pos p) "") as Hl.
  assert (N.pos p < 10 ^ N.of_nat (String.length s))%N as Hp.
  { apply N2Z.inj_lt. rewrite N2Z.inj_pow, nat_N_Z. simpl. lia. }
  specialize (Hl Hp). simpl in Hl. lia.
Qed.

Lemma length_push s a : String.length (push s a) = S (String.length s).
Proof. unfold push. rewrite string_length_app. simpl. lia. Qed.

(** What a word keeps: it is not longer than what was read of it. *)
Definition word_so_far (start : nat) (s : string * nat * Chars) : Prop :=
  let '(word, end_, c) := s in
  from start c ∧ (start + String.length word ≤ end_ ≤ ch_pos c)%nat ∧
  (end_ = start ∨ start < ch_pos c)%nat.

Lemma word_chars_from c a :
  good c → peek_char c = Some a → is_word_boundary a = false →
  post_in (λ '(word, end_, c'), word_so_far (ch_pos c) (word, end_, c') ∧ (ch_pos c < ch_pos c')%nat)
    (word_chars (ch_pos c) c).
Proof.
  intros Hg E Hb. unfold word_chars.
  eapply (post_loop
            (λ '(c', word, end_), word_so_far (ch_pos c) (word, end_, c') ∧
                                  (c' = c ∨ ch_pos c < ch_pos c')%nat)
            (λ '(c', _, _), left_ c'));
    [| unfold word_so_far; positions | rewrite (good_fuel input) by done; lia].
  intros [[c' word] end_] [[[Hg' Hle] [Hend Hx]] Hc]. unfold word_round.
  destruct (peek_char c') as [b|] eqn:E2.
  2: { unfold word_so_far. destruct Hc as [->|]; [congruence |]. positions. }
  destruct (consume_line_continuation c') as [c2|] eqn:Ec.
  { apply (continuation_from input) in Ec as [? ?]; [| done]. unfold word_so_far. positions. }
  peeked. destruct (b =c "\").
  { destruct (peek_char (next c')) as [x|] eqn:E3.
    2: { unfold word_so_far. simpl. rewrite length_push. positions. }
    peeked. unfold word_so_far. destruct (negb (is_newline_char x)); simpl.
    - destruct (is_glob_char x); rewrite !length_push; positions.
    - rewrite length_push. positions. }
  destruct (is_word_boundary b) eqn:Eb.
  - unfold word_so_far. destruct Hc as [->|]; [congruence |]. positions.
  - unfold word_so_far. simpl. rewrite length_push. positions.
Qed.

Lemma lex_word_from c a :
  good c → peek_char c = Some a → is_word_boundary a = false →
  post_in (token_from (ch_pos c)) (lex_word input (ch_pos c) c).
Proof.
  intros Hg E Hb. unfold lex_word. apply post_bind.
  eapply post_mono; [by eapply word_chars_from | | done].
  intros [[word end_] c'] [[[Hg' Hle] [Hend Hx]] Hc]. cbv zeta.
  assert (post_in (token_from (ch_pos c)) (Ok (mkToken (Tok_Word word) (mkSpan (ch_pos c) end_), c')))
    as Hplain by positions.
  destruct (peek_char c') as [b|] eqn:E2; [| exact Hplain].
  destruct (_ && _); [| exact Hplain].
  destruct (parse_u32 word) as [fd|] eqn:Ep; [| exact Hplain]. apply parse_u32_length in Ep.
  destruct (b =c ">"); [eapply lex_redirect_out_from | eapply lex_redirect_in_from]; try done; lia.
Qed.

(** ** The whole input *)

Lemma length_text_between_le i j : (String.length (text_between i j input) ≤ j - i)%nat.
Proof.
  unfold text_between. rewrite length_take_str. lia.
Qed.

(** A text is not longer than what was read of the input. *)
Abbreviation line_from k :=
  (λ r : string * Chars, from (S k) (snd r) ∧ (k + String.length (fst r) ≤ ch_pos (snd r))%nat).

Lemma read_line_from c a :
  good c → peek_char c = Some a → post_in (line_from (ch_pos c)) (read_line input c).
Proof.
  intros Hg E. unfold read_line.
  eapply (post_loop (λ '(c', e), from (ch_pos c) c' ∧ (c' = c ∨ ch_pos c < ch_pos c')%nat ∧ e = ch_pos c')
            (λ '(c', _), left_ c'));
    [| positions | rewrite (good_fuel input) by done; lia].
  intros [c' e] ([Hg' Hle] & Hc & ->). pose proof Hg' as [_ Hsz]. simpl.
  pose proof (λ j, length_text_between_le (ch_pos c) j) as Hline.
  destruct (peek_char c') as [b|] eqn:E2.
  2: { specialize (Hline (ch_pos c')). destruct Hc as [->|]; [congruence |]. positions. }
  destruct (is_newline_char b) eqn:Eb; [| positions].
  destruct (newline_from input c' b) as (? & Hn & ?); [done.. |].
  destruct (consume_newline c') as [n c2]. specialize (Hline (ch_pos c' + n)). positions.
Qed.

Lemma length_trim_tabs s : (String.length (trim_tabs s) ≤ String.length s)%nat.
Proof. induction s as [|a s IH]; simpl; [lia |]. destruct (a =c tab); simpl; lia. Qed.

Abbreviation body_from k :=
  (λ r : option string * Chars, from k (snd r) ∧
     match fst r with Some body => (k + String.length body ≤ ch_pos (snd r))%nat | None => True end).

Lemma read_heredoc_body_from d strip c :
  good c → post_in (body_from (ch_pos c)) (read_heredoc_body input d strip c).
Proof.
  intros Hg. unfold read_heredoc_body.
  eapply (post_loop (λ '(c', body), from (ch_pos c) c' ∧ (ch_pos c + String.length body ≤ ch_pos c')%nat)
            (λ '(c', _), left_ c'));
    [| positions | rewrite (good_fuel input) by done; lia].
  intros [c' body] [[Hg' Hle] Hb]. destruct (peek_char c') as [b|] eqn:E; [| positions].
  apply post_bind. eapply post_mono; [by eapply read_line_from | | done].
  intros [line c2] [[Hg2 Hle2] Hl]. simpl in *. pose proof Hg2 as [_ Hsz]. cbv zeta.
  pose proof (length_trim_tabs line).
  assert (String.length (if strip then trim_tabs line else line) ≤ String.length line)%nat
    by (destruct strip; lia).
  destruct (String.eqb _ d); simpl; rewrite ?string_length_app; positions.
Qed.

Lemma lift_token start (r : Res LexerError (Token * Chars)) :
  post_in (token_from start) r →
  post_in (λ o, match o with Some t => token_from start t | None => True end)
    (t ← r; Ok (Some t)).
Proof. intros H. apply post_bind. by eapply post_mono. Qed.

(** A token, or the end of the input. *)
Abbreviation next_from k :=
  (λ o, match o with Some t => token_from k t | None => True end).

Lemma next_token_from pending c :
  good c → post_in (next_from (ch_pos c)) (next_token input pending c).
Proof.
  intros Hg. unfold next_token. apply post_bind.
  eapply post_mono; [by apply skip_whitespace_from | | done].
  intros c1 [[Hg1 Hle] Hblank]. destruct (peek_char c1) as [a|] eqn:E; [| done]. cbv zeta.
  apply Hblank in E as Ebl.
  assert (∀ r, post_in (next_from (ch_pos c1)) r → post_in (next_from (ch_pos c)) r) as Hw.
  { intros r Hr. eapply post_mono; [exact Hr | | done].
    intros [[t c2]|]; [| done]. unfold ShellLexerSpec.token_from. simpl. intros (? & ? & ? & ?).
    split_and!; [lia.. | done | lia | done]. }
  apply Hw. clear Hw.
  destruct (a =c lf) eqn:?; [apply lift_token; by eapply lex_newline_from |].
  destruct (a =c cr) eqn:Ecr.
  { destruct (newline_from input c1 a) as (? & Hn & ?);
      [done | unfold is_newline_char; rewrite Ecr; apply orb_true_r | done |].
    destruct (consume_newline c1) as [n c2]. positions. }
  destruct (a =c "&") eqn:?; [simpl; by eapply lex_ampersand_from |].
  destruct (a =c "|") eqn:?; [simpl; by eapply lex_pipe_from |].
  destruct (a =c ";") eqn:?; [positions |].
  destruct (a =c "(") eqn:?; [positions |].
  destruct (a =c ")") eqn:?; [positions |].
  destruct (a =c "{") eqn:?; [positions |].
  destruct (a =c "}") eqn:?; [positions |].
  destruct (a =c "$") eqn:?; [apply lift_token; by eapply lex_variable_from |].
  destruct (a =c "`") eqn:?; [apply lift_token; by eapply lex_backtick_substitution_from |].
  destruct (a =c ">") eqn:?;
    [apply lift_token; eapply lex_redirect_out_from; [done | done | simpl; lia] |].
  destruct (a =c "<") eqn:?;
    [apply lift_token; eapply lex_redirect_in_from; [done | done | simpl; lia] |].
  destruct (a =c quote) eqn:?; [apply lift_token; by eapply lex_single_quote_from |].
  destruct (a =c double_quote) eqn:?; [apply lift_token; by eapply lex_double_quote_from |].
  apply lift_token. eapply lex_word_from; [done | done |].
  unfold is_word_boundary, is_newline_char. rewrite Ebl.
  by repeat match goal with Hc : (a =c _) = false |- _ => rewrite Hc; clear Hc end.
Qed.

(** Spans one after the other, from [k] to [n]. *)
Fixpoint spans_between (k : nat) (spans : list Span) (n : nat) : Prop :=
  match spans with
  | [] => (k ≤ n)%nat
  | s :: spans => (k ≤ sp_start s ≤ sp_end s)%nat ∧ spans_between (sp_end s) spans n
  end.

Lemma spans_between_mono k spans n n' :
  spans_between k spans n → (n ≤ n')%nat → spans_between k spans n'.
Proof. revert k. induction spans as [|s spans IH]; simpl; [lia |]. intros k [? ?]. eauto. Qed.

Lemma spans_between_snoc k spans n s :
  spans_between k spans n → (n ≤ sp_start s ≤ sp_end s)%nat →
  spans_between k (spans ++ [s]) (sp_end s).
Proof.
  revert k. induction spans as [|s' spans IH]; simpl; [intros; lia |]. intros k [? ?] ?. eauto.
Qed.

Lemma set_body_spans body (i : nat) (tokens : list Token) :
  tk_span <$> alter (set_body body) i tokens = tk_span <$> tokens.
Proof.
  revert i. induction tokens as [|t tokens IH]; intros [|i]; simpl; [done.. | |].
  - f_equal. unfold set_body. by destruct (tk_kind t).
  - f_equal. apply IH.
Qed.

Lemma set_body_small body (i : nat) (tokens : list Token) :
  text_small input body →
  Forall (λ t, token_small input (tk_kind t)) tokens →
  Forall (λ t, token_small input (tk_kind t)) (alter (set_body body) i tokens).
Proof.
  intros Hb H. revert i. induction H as [|t tokens Ht H IH]; intros [|i]; simpl; constructor; try done.
  - unfold set_body. by destruct (tk_kind t) eqn:E; rewrite ?E.
  - apply IH.
Qed.

Abbreviation pending_in := (Forall (λ p, span_in input (pd_span p))).
Abbreviation all_small := (Forall (λ t, token_small input (tk_kind t))).

Lemma capture_pending_heredocs_from pending tokens c :
  good c → (0 < ch_pos c)%nat → pending_in pending → all_small tokens →
  post_in (λ '(tokens', c'), tk_span <$> tokens' = tk_span <$> tokens ∧ all_small tokens' ∧
                             from (ch_pos c) c')
    (capture_pending_heredocs input pending tokens c).
Proof.
  revert tokens c. induction pending as [|p pending IH]; intros tokens c Hg H0 Hp Hsm; simpl.
  { split_and!; [done | done |]. positions. }
  inversion Hp as [|? ? Hp1 Hp2]; subst.
  apply post_bind. eapply post_mono; [by apply read_heredoc_body_from | | done].
  intros [[body|] c'] [[Hg' Hle] Hb]; simpl in *; [| exact Hp1].
  assert (text_small input body) by (destruct Hg' as [_ ?]; unfold text_small; lia).
  eapply post_mono; [apply IH; [done | lia | done | by apply set_body_small] | | done].
  intros [tokens' c2] (-> & ? & ?). rewrite set_body_spans. positions.
Qed.

(** What the rounds of [tokenize] keep. *)
Definition lexed (s : Chars * list PendingHereDoc * list Token) : Prop :=
  let '(c, pending, tokens) := s in
  good c ∧ pending_in pending ∧ spans_between 0 (tk_span <$> tokens) (ch_pos c) ∧
  all_small tokens.

(** Tokens of the input. *)
Definition tokens_in (tokens : list Token) : Prop :=
  spans_between 0 (tk_span <$> tokens) (String.length input) ∧ all_small tokens.

Lemma tokenize_round_lexed s :
  lexed s →
  post_in (λ r, match r with
                | inl s' => lexed s' ∧ (left_ (fst (fst s')) < left_ (fst (fst s)))%nat
                | inr (pending, tokens) => pending_in pending ∧ tokens_in tokens
                end)
    (tokenize_round input s).
Proof.
  destruct s as [[c pending] tokens]. intros (Hg & Hp & Hs & Hsm). unfold tokenize_round.
  apply post_bind. eapply post_mono; [by apply next_token_from | | done].
  intros [[t c']|].
  2: { intros _. split; [done |]. split; [| done]. eapply spans_between_mono; [exact Hs | apply Hg]. }
  unfold ShellLexerSpec.token_from. cbn [fst snd].
  intros ([Ht1 Ht2] & [Hg' Hle] & Hlt & Htsm).
  pose proof Hg' as [_ Hsz]. pose proof Hg as [_ Hsz0].
  assert (pending_in (pending ++ pending_of tokens t)%list) as Hp'.
  { apply Forall_app. split; [done |]. unfold pending_of.
    destruct (tk_kind t); try constructor; [| constructor]. simpl. unfold span_in. lia. }
  assert (spans_between 0 (tk_span <$> (tokens ++ [t])%list) (ch_pos c')) as Hs'.
  { rewrite fmap_app. eapply spans_between_mono; [eapply spans_between_snoc |]; [exact Hs | done | done]. }
  assert (all_small (tokens ++ [t])%list) as Hsm' by (apply Forall_app; by repeat constructor).
  cbv zeta. destruct (is_newline _ && _).
  - apply post_bind. eapply post_mono; [apply capture_pending_heredocs_from; [done | lia | done | done] | | done].
    intros [tokens' c2] (Heq & ? & [Hg2 Hle2]). simpl. split_and!; try done.
    + rewrite Heq. eapply spans_between_mono; [exact Hs' | done].
    + pose proof Hg2 as [_ ?]. positions.
  - simpl. split_and!; try done. positions.
Qed.

Lemma tokenize_in : post_in tokens_in (tokenize input).
Proof.
  unfold tokenize. apply post_bind.
  eapply post_mono with (Q := λ '(pending, tokens), pending_in pending ∧ tokens_in tokens);
    [| | done].
  - eapply (post_loop lexed (λ s, left_ (fst (fst s)))).
    + intros s Hs. eapply post_mono; [by apply tokenize_round_lexed | | done].
      by intros [s'|[pending tokens]].
    + split_and!; [apply good_start | constructor | simpl; lia | constructor].
    + rewrite (good_fuel input) by apply good_start. simpl. lia.
  - intros [[|p pending] tokens] [Hp Hs]; [done |]. by inversion Hp.
Qed.

(** Lexing ends on every input: either with tokens that lie in the input, each
    behind the one before, or with an error whose span is part of the input. *)
Theorem tokenize_total :
  match tokenize input with
  | Ok tokens => spans_between 0 (tk_span <$> tokens) (String.length input)
  | Err e => (sp_start (lexer_error_span e) ≤ sp_end (lexer_error_span e) ≤ String.length input)%nat
  | NoFuel => False
  end.
Proof.
  pose proof tokenize_in as H. destruct (tokenize input); [by destruct H | done | done].
Qed.

End Lexing.

(** ** Quoted values

    [escape_for_shell] is what templates do to a value before it is put between
    double quotes. *)

(** One escaped character is one or two bytes of the input, and one round. *)
Lemma escaped_round input start pos a s lit l x :
  ∃ l',
    double_quote_round input start (mkChars pos (escape_char a +:+ s), [], lit, l, x)
    = Ok (inl (mkChars (pos + String.length (escape_char a)) s, [], push lit a, l', false)).
Proof.
  unfold escape_char, dquote.
  destruct (Ascii.eqb_spec a "\") as [->|H1];
    [eexists; simpl; by replace (pos + 2) with (S (S pos)) by lia |].
  destruct (Ascii.eqb_spec a "$") as [->|H2];
    [eexists; simpl; by replace (pos + 2) with (S (S pos)) by lia |].
  destruct (Ascii.eqb_spec a "`") as [->|H3];
    [eexists; simpl; by replace (pos + 2) with (S (S pos)) by lia |].
  destruct (Ascii.eqb_spec a "034") as [->|H4];
    [eexists; simpl; by replace (pos + 2) with (S (S pos)) by lia |].
  apply Ascii.eqb_neq in H1, H2, H3, H4. eexists. simpl. unfold double_quote.
  rewrite H1, H2, H3, H4. simpl. by rewrite Nat.add_1_r.
Qed.

(** The parts of a double-quoted text without expansions. *)
Definition quoted_parts (v : string) : list WordPart :=
  if is_empty v then [] else [part_double_quoted v].

Lemma push_app a v lit : push lit a +:+ v = lit +:+ String a v.
Proof. unfold push. by rewrite string_app_assoc. Qed.

Lemma escaped_loop input start v pos rest lit l fuel :
  (String.length v < fuel)%nat →
  loop fuel (double_quote_round input start)
    (mkChars pos (escape_for_shell v +:+ String double_quote rest), [], lit, l, false)
  = let e := S (pos + String.length (escape_for_shell v)) in
    Ok (mkToken (Tok_DoubleQuoted (quoted_parts (lit +:+ v))) (mkSpan start e), mkChars e rest).
Proof.
  revert pos lit l fuel. induction v as [|a v IH]; intros pos lit l [|fuel] Hf; try (simpl in Hf; lia).
  - rewrite loop_S, string_app_nil_r. simpl. unfold quoted_parts.
    rewrite orb_false_r, Nat.add_0_r, Nat.add_1_r. by destruct lit.
  - cbn [escape_for_shell]. rewrite loop_S, string_app_assoc.
    destruct (escaped_round input start pos a (escape_for_shell v +:+ String double_quote rest) lit l false)
      as [l' ->]. simpl. rewrite IH by (simpl in Hf; lia).
    rewrite push_app, string_length_app. by rewrite Nat.add_assoc.
Qed.

Lemma length_escaped v : (String.length v ≤ String.length (escape_for_shell v))%nat.
Proof.
  induction v as [|a v IH]; [done |]. cbn [escape_for_shell]. rewrite string_length_app.
  assert (1 ≤ String.length (escape_char a))%nat.
  { unfold escape_char. repeat (destruct (Ascii.eqb _ _); [simpl; lia |]). simpl. lia. }
  simpl. lia.
Qed.

Lemma lex_escaped input start v pos rest :
  lex_double_quote input start
    (mkChars pos (String double_quote (escape_for_shell v +:+ String double_quote rest)))
  = let e := pos + String.length (escape_for_shell v) + 2 in
    Ok (mkToken (Tok_DoubleQuoted (quoted_parts v)) (mkSpan start e), mkChars e rest).
Proof.
  unfold lex_double_quote. cbn [next ch_rest ch_pos].
  rewrite escaped_loop.
  - cbv zeta. by replace (S (S pos + String.length (escape_for_shell v)))
      with (pos + String.length (escape_for_shell v) + 2) by lia.
  - unfold fuel_of. cbn [ch_rest]. rewrite string_length_app. pose proof (length_escaped v). lia.
Qed.

(** A text between single quotes, which cannot hold one. *)
Lemma single_quoted_loop input start v pos rest fuel cs :
  has_char quote v = false → (String.length v < fuel)%nat →
  loop fuel (single_quote_round input start cs) (mkChars pos (v +:+ String quote rest), pos)
  = let e := pos + String.length v in
    Ok (mkToken (Tok_SingleQuoted (text_between cs e input)) (mkSpan start (e + 1)),
        mkChars (S e) rest).
Proof.
  revert pos fuel. induction v as [|a v IH]; intros pos [|fuel] Hv Hf; try (simpl in Hf; lia).
  - rewrite loop_S. simpl. by rewrite Nat.add_0_r.
  - simpl in Hv. apply orb_false_iff in Hv as [Ha Hv]. rewrite loop_S. simpl. rewrite Ha. simpl.
    rewrite Nat.add_1_r. cbn [next ch_rest ch_pos].
    rewrite IH; [| done | simpl in Hf; lia].
    cbv zeta. by replace (pos + S (String.length v)) with (S pos + String.length v) by lia.
Qed.

Lemma lex_single_quoted pre v rest :
  has_char quote v = false →
  lex_single_quote (pre +:+ String quote (v +:+ String quote rest)) (String.length pre)
    (mkChars (String.length pre) (String quote (v +:+ String quote rest)))
  = let e := String.length pre + String.length v + 2 in
    Ok (mkToken (Tok_SingleQuoted v) (mkSpan (String.length pre) e), mkChars e rest).
Proof.
  intros Hv. unfold lex_single_quote. cbn [next ch_rest ch_pos]. cbv zeta. rewrite Nat.add_1_r.
  rewrite single_quoted_loop.
  - cbv zeta.
    assert (text_between (S (String.length pre)) (S (String.length pre) + String.length v)
              (pre +:+ String quote (v +:+ String quote rest)) = v) as ->.
    { unfold text_between.
      replace (_ - _) with (String.length v) by lia.
      replace (S (String.length pre)) with (String.length (pre +:+ String quote EmptyString))
        by (rewrite string_length_app; simpl; lia).
      change (String quote (v +:+ String quote rest))
        with (String quote EmptyString +:+ (v +:+ String quote rest)).
      by rewrite <- string_app_assoc, drop_str_app, take_str_app. }
    replace (S (String.length pre) + String.length v + 1)
      with (String.length pre + String.length v + 2) by lia.
    by replace (S (S (String.length pre) + String.length v))
      with (String.length pre + String.length v + 2) by lia.
  - done.
  - unfold fuel_of. cbn [ch_rest]. rewrite string_length_app. simpl. lia.
Qed.

Local Close Scope string_scope.
