(* ===== verification/ShellParserSpec.v ===== *)
(** What the parser of the shell language promises: it ends on every text, with a
    well-formed tree or an error that points into the text, and a quoted value
    is parsed as one word. *)

From S2P Require Import Prelude Bytes Slug Vars ShellAst ShellLexer ShellParser ShellLexerSpec.

Local Open Scope string_scope.

(** ** Well-formed trees

    What the comments of [ast/mod.rs] say and the types do not: a job has at
    least two commands, substitutions are parsed, a word has parts, a command
    has a name or is an assignment alone, assignments have the name of a
    variable, and only the last command of a chain runs in the background.
    The texts that are looked into when the tree is executed, modifiers and the
    bodies of here-documents, are shorter than the text that was parsed. *)

Definition is_nil {A} (l : list A) : bool := match l with [] => true | _ => false end.

Definition chain_items (l : AndOrList) : list CommandItem := ao_first l :: (snd <$> ao_rest l).

Section WellFormed.
(** The length of the text that was parsed. *)
Context (k : nat).

Definition shorter (s : string) : bool := (String.length s <? k)%nat.

Fixpoint wf_list (l : CommandList) : bool :=
  match l with mkCommandList commands _ => forallb wf_and_or commands end
with wf_and_or (l : AndOrList) : bool :=
  match l with
  | mkAndOrList first rest _ => wf_item first && forallb (λ '(_, item), wf_item item) rest
  end
  && forallb (λ i, negb (ci_background i)) (removelast (chain_items l))
with wf_item (i : CommandItem) : bool :=
  match i with mkCommandItem command _ _ => wf_command command end
with wf_command (c : ShellCommand) : bool :=
  match c with
  | Cmd_Simple c => wf_simple c
  | Cmd_Job (mkShellJob commands _) => (2 <=? length commands)%nat && forallb wf_simple commands
  | Cmd_Subshell (mkSubshell body redirections _) =>
      wf_list body && forallb wf_redirection redirections
  | Cmd_BraceGroup (mkBraceGroup body redirections _) =>
      wf_list body && forallb wf_redirection redirections
  end
with wf_simple (c : SimpleCommand) : bool :=
  match c with
  | mkSimpleCommand env name args redirections _ =>
      forallb wf_assignment env && forallb wf_word args && forallb wf_redirection redirections
      && (wf_word name
          || is_nil (wd_parts name) && negb (is_nil env) && is_nil args && is_nil redirections)
  end
with wf_assignment (e : EnvAssignment) : bool :=
  match e with mkEnvAssignment name value _ => is_valid_variable_name name && wf_word value end
with wf_redirection (r : Redirection) : bool :=
  match r with
  | Redir_Out _ word _ | Redir_In _ word | Redir_HereString _ word | Redir_Both _ word =>
      wf_word word
  | Redir_HereDoc _ _ body _ _ => shorter body
  | Redir_Duplicate _ _ _ => true
  end
with wf_word (w : Word) : bool :=
  match w with mkWord parts _ => negb (is_nil parts) && forallb wf_part parts end
with wf_part (p : WordPart) : bool :=
  match p with
  | Part_Literal _ _ => true
  | Part_Variable _ modifier => match modifier with Some m => shorter m | None => true end
  | Part_Substitution (Sub_Parsed body) _ => wf_list body
  | Part_Substitution (Sub_Unparsed _) _ => false
  end.

Definition wf_parts (parts : list WordPart) : bool := forallb wf_part parts.

End WellFormed.

Lemma forallb_snoc {A} (p : A → bool) l x :
  forallb p l = true → p x = true → forallb p (l ++ [x])%list = true.
Proof. intros H Hx. rewrite forallb_app, H. simpl. by rewrite Hx. Qed.

(** ** Every function of the parser *)

Section Parsing.
Context (input : string) (tokens : list Token).
Context (parse_sub : string → Res ParseError CommandList).

Abbreviation size := (String.length input).
Abbreviation n := (length tokens).

(** Trees are well formed for texts of at least the input's length. *)
Context (K : nat).
Hypothesis K_ok : (size ≤ K)%nat.
Hypothesis tokens_ok : tokens_in input tokens.
Hypothesis sub_ok : ∀ s, (String.length s < size)%nat →
  post (λ l, wf_list K l = true) (λ _, True) (parse_sub s).

(** An error points into the input. *)
Definition parse_error_in (e : ParseError) : Prop :=
  match parse_error_span e with Some s => span_in input s | None => True end.

Abbreviation post_parse Q := (post Q parse_error_in).

(** The position of the next token after at least [k]. *)
Definition at_ (k pos : nat) : Prop := (k ≤ pos ≤ n)%nat.

Lemma spans_in_span k spans m s : spans_between k spans m → s ∈ spans → (m ≤ size)%nat → span_in input s.
Proof.
  revert k. induction spans as [|s' spans IH]; intros k H Hin Hm; [by apply elem_of_nil in Hin |].
  destruct H as [H1 H2]. apply elem_of_cons in Hin as [->|Hin]; [| by eapply IH].
  split; [lia |]. assert (sp_end s' ≤ m)%nat; [| lia]. clear -H2.
  revert H2. generalize (sp_end s'). induction spans as [|s spans IH]; intros k H; simpl in H; [done |].
  destruct H as [? H]. apply IH in H. lia.
Qed.

Lemma token_span_in pos t : tokens !! pos = Some t → span_in input (tk_span t).
Proof.
  intros H. destruct tokens_ok as [Hs _]. eapply spans_in_span; [exact Hs | | done].
  apply list_elem_of_fmap. exists t. split; [done |]. by eapply list_elem_of_lookup_2.
Qed.

Lemma token_is_small pos t : tokens !! pos = Some t → token_small input (tk_kind t).
Proof. intros H. destruct tokens_ok as [_ Hs]. by eapply Forall_lookup_1 in Hs. Qed.

Lemma lookup_at pos t : tokens !! pos = Some t → (pos < n)%nat.
Proof. apply lookup_lt_Some. Qed.

Lemma advance_some pos t : tokens !! pos = Some t → advance tokens pos = S pos.
Proof. unfold advance. by intros ->. Qed.

Lemma unexpected_in expected pos : parse_error_in (unexpected_token tokens expected pos).
Proof.
  unfold unexpected_token, peek. destruct (tokens !! pos) as [t|] eqn:E; [| done].
  by apply token_span_in in E.
Qed.

Lemma small_shorter s : text_small input s → shorter K s = true.
Proof. unfold text_small, shorter. intros H. apply Nat.ltb_lt. lia. Qed.

Lemma modifier_shorter name modifier :
  modifier_small input modifier → wf_part K (Part_Variable name modifier) = true.
Proof. destruct modifier as [m|]; [apply small_shorter | done]. Qed.

Lemma parse_command_substitution_ok content backtick span :
  (String.length content < size)%nat → span_in input span →
  post_parse (λ p, wf_part K p = true) (parse_command_substitution parse_sub content backtick span).
Proof.
  intros Hc Hs. unfold parse_command_substitution. apply post_bind.
  pose proof (sub_ok content Hc) as H. by destruct (parse_sub content).
Qed.

Lemma quoted_to_parts_ok span parts :
  Forall (part_small input) parts → span_in input span →
  post_parse (λ ps, wf_parts K ps = true) (quoted_to_parts parse_sub span parts).
Proof.
  intros H Hs. induction H as [|p parts Hp H IH]; [done |]. simpl. apply post_bind.
  eapply post_mono with (Q := λ p, wf_part K p = true); [| | done].
  { destruct p as [| |[text|ast] b];
      [done | by apply modifier_shorter | by apply parse_command_substitution_ok | done]. }
  intros p' Hp'. apply post_bind. eapply post_mono; [exact IH | | done].
  intros ps Hps. simpl. by rewrite Hp'.
Qed.

Lemma token_to_parts_ok pos t :
  tokens !! pos = Some t → post_parse (λ ps, wf_parts K ps = true) (token_to_parts parse_sub t).
Proof.
  intros H. pose proof (token_span_in _ _ H) as Hs. pose proof (token_is_small _ _ H) as Hk.
  unfold token_to_parts. destruct (tk_kind t) as [| |parts| | | | | | | | | | | | | | | | | | |];
    try done.
  - destruct parts as [|p parts]; [done |]. by apply quoted_to_parts_ok.
  - cbn -[wf_part]. by rewrite modifier_shorter.
  - apply post_bind. eapply post_mono; [by apply parse_command_substitution_ok | | done].
    intros p Hp. simpl. by rewrite Hp.
Qed.

Lemma collect_adjacent_parts_ok pos end_ parts :
  at_ pos pos → wf_parts K parts = true →
  post_parse (λ '(pos', _, parts'), at_ pos pos' ∧ wf_parts K parts' = true ∧
                (is_nil parts = false → is_nil parts' = false))
    (collect_adjacent_parts tokens parse_sub pos end_ parts).
Proof.
  intros Hpos Hparts. unfold collect_adjacent_parts.
  eapply (post_loop
            (λ '(pos', _, parts'), at_ pos pos' ∧ wf_parts K parts' = true ∧
               (is_nil parts = false → is_nil parts' = false))
            (λ '(pos', _, _), n - pos'));
    [| done | unfold loop_fuel, at_ in *; lia].
  intros [[p e] ps] (Hp & Hps & Hnil). destruct (is_adjacent tokens p e); [| done].
  unfold peek. destruct (tokens !! p) as [t|] eqn:E; [| done].
  apply post_bind. eapply post_mono; [by eapply token_to_parts_ok | | done].
  intros [|tp tps] Htp; [done |]. simpl. rewrite (advance_some _ _ E).
  pose proof (lookup_at _ _ E). unfold at_ in *. split_and!; [lia | lia | | | lia].
  - unfold wf_parts in *. rewrite forallb_app, Hps. exact Htp.
  - intros _. by destruct ps.
Qed.

Lemma parse_word_ok pos :
  at_ pos pos →
  post_parse (λ '(w, pos'),
      match w with Some w => at_ (S pos) pos' ∧ wf_word K w = true | None => pos' = pos end)
    (parse_word tokens parse_sub pos).
Proof.
  intros Hpos. unfold parse_word, peek. destruct (tokens !! pos) as [t|] eqn:E; [| done].
  apply post_bind. eapply post_mono; [by eapply token_to_parts_ok | | done].
  intros [|p ps] Hps; [done |]. cbv zeta. rewrite (advance_some _ _ E).
  pose proof (lookup_at _ _ E). apply post_bind.
  eapply post_mono; [apply collect_adjacent_parts_ok; [unfold at_; lia | exact Hps] | | done].
  intros [[pos' e] parts'] (? & Hw & Hnil). simpl. split; [done |].
  rewrite Hnil by done. exact Hw.
Qed.

Lemma redirect_word_ok expected pos :
  at_ pos pos →
  post_parse (λ '(w, pos'), at_ (S pos) pos' ∧ wf_word K w = true)
    (redirect_word tokens parse_sub expected pos).
Proof.
  intros Hpos. unfold redirect_word. apply post_bind.
  eapply post_mono; [by apply parse_word_ok | | done].
  intros [[w|] pos'] H; [done |]. apply unexpected_in.
Qed.

Lemma parse_redirection_ok pos :
  is_redirection_token tokens pos = true →
  post_parse (λ '(r, pos'), at_ (S pos) pos' ∧ wf_redirection K r = true)
    (parse_redirection tokens parse_sub pos).
Proof.
  unfold is_redirection_token, peek_kind, parse_redirection, peek.
  destruct (tokens !! pos) as [t|] eqn:E; [| done]. simpl. intros Hr.
  pose proof (token_is_small _ _ E) as Hk.
  rewrite (advance_some _ _ E). pose proof (lookup_at _ _ E).
  assert (∀ expected f,
    (∀ w, wf_redirection K (f w) = wf_word K w) →
    post_parse (λ '(r, pos'), at_ (S pos) pos' ∧ wf_redirection K r = true)
      ('(w, pos') ← redirect_word tokens parse_sub expected (S pos); Ok (f w, pos'))) as Hword.
  { intros expected f Hf. apply post_bind.
    eapply post_mono; [apply redirect_word_ok; unfold at_; lia | | done].
    intros [w pos'] [? Hw]. simpl. rewrite Hf. split; [unfold at_ in *; lia | done]. }
  destruct (tk_kind t); try discriminate Hr;
    first [by apply Hword | by apply (Hword _ (λ w, Redir_Out _ w _))
          | by apply (Hword _ (λ w, Redir_In _ w)) | by apply (Hword _ (λ w, Redir_HereString _ w))
          | split; [unfold at_; lia | first [done | by apply small_shorter]]].
Qed.

(** ** Simple commands *)

Lemma parse_assignments_ok pos :
  at_ pos pos →
  post_parse (λ '(env, pos'), at_ pos pos' ∧ forallb (wf_assignment K) env = true ∧
                (is_nil env = false → pos < pos')%nat)
    (parse_assignments tokens parse_sub pos).
Proof.
  intros Hpos. unfold parse_assignments.
  eapply (post_loop
            (λ '(env, pos'), at_ pos pos' ∧ forallb (wf_assignment K) env = true ∧
               (is_nil env = false → pos < pos')%nat)
            (λ '(_, pos'), n - pos'));
    [| done | unfold loop_fuel, at_ in *; lia].
  intros [env p] (Hp & Henv & Hlt). unfold peek.
  destruct (tokens !! p) as [[k span]|] eqn:E; [| done].
  destruct k as [word| | | | | | | | | | | | | | | | | | | | |]; try done.
  destruct (try_parse_assignment_word word) as [[name value]|] eqn:Ea; [| done].
  assert (is_valid_variable_name name = true) as Hname.
  { unfold try_parse_assignment_word in Ea. destruct (split_once _ word) as [[? ?]|]; [| done].
    simpl in Ea. destruct (is_valid_variable_name _) eqn:Ev; [| done]. by simplify_eq. }
  cbv zeta. rewrite (advance_some _ _ E). pose proof (lookup_at _ _ E). apply post_bind.
  eapply post_mono; [apply collect_adjacent_parts_ok; [unfold at_; lia | by destruct (is_empty value)] | | done].
  intros [[p' e] parts] (Hp' & Hparts & _). simpl. unfold at_ in *.
  split_and!; [lia | lia | | intros _; lia | lia].
  apply forallb_snoc; [done |]. simpl. rewrite Hname. simpl.
  destruct parts as [|part parts]; [done | exact Hparts].
Qed.

Lemma parse_arguments_ok pos end_span :
  at_ pos pos →
  post_parse (λ '(args, redirs, _, pos'), at_ pos pos' ∧ forallb (wf_word K) args = true ∧
                forallb (wf_redirection K) redirs = true)
    (parse_arguments tokens parse_sub pos end_span).
Proof.
  intros Hpos. unfold parse_arguments.
  eapply (post_loop
            (λ '(args, redirs, _, pos'), at_ pos pos' ∧ forallb (wf_word K) args = true ∧
               forallb (wf_redirection K) redirs = true)
            (λ '(_, _, _, pos'), n - pos'));
    [| done | unfold loop_fuel, at_ in *; lia].
  intros [[[args redirs] e] p] (Hp & Ha & Hr).
  destruct (is_redirection_token tokens p) eqn:Er.
  - apply post_bind. eapply post_mono; [by apply parse_redirection_ok | | done].
    intros [r p'] [Hp' Hwr]. simpl. unfold at_ in *.
    split_and!; [lia | lia | done | by apply forallb_snoc | lia].
  - apply post_bind. eapply post_mono; [apply parse_word_ok; unfold at_ in *; lia | | done].
    intros [[w|] p'] Hw; simpl in *; [| by subst].
    destruct Hw as [Hp' Hw]. unfold at_ in *.
    split_and!; [lia | lia | by apply forallb_snoc | done | lia].
Qed.

Lemma parse_simple_command_ok pos :
  at_ pos pos →
  post_parse (λ '(c, pos'), at_ (S pos) pos' ∧ wf_simple K c = true)
    (parse_simple_command tokens parse_sub pos).
Proof.
  intros Hpos. unfold parse_simple_command. cbv zeta. apply post_bind.
  eapply post_mono; [by apply parse_assignments_ok | | done].
  intros [env p] (Hp & Henv & Hlt). apply post_bind.
  eapply post_mono; [apply parse_word_ok; unfold at_ in *; lia | | done].
  intros [[name|] p1]; simpl.
  - intros [Hp1 Hname]. apply post_bind.
    eapply post_mono; [apply parse_arguments_ok; unfold at_ in *; lia | | done].
    intros [[[args redirs] e] p2] (Hp2 & Ha & Hr). simpl.
    split; [unfold at_ in *; lia |]. by rewrite Henv, Ha, Hr, Hname.
  - intros ->. destruct env as [|a env]; [apply unexpected_in |]. simpl in *.
    split; [unfold at_ in *; specialize (Hlt eq_refl); lia |]. by rewrite Henv.
Qed.

(** ** Commands

    The nested lists are good at every position behind [k]. *)

Section Commands.
Context (k : nat) (parse_inner : nat → Res ParseError (CommandList * nat)).
Hypothesis inner_ok : ∀ p, (k < p ≤ n)%nat →
  post_parse (λ '(l, p'), at_ p p' ∧ wf_list K l = true) (parse_inner p).

Lemma parse_redirections_ok pos e :
  at_ pos pos →
  post_parse (λ '(redirs, pos', _), at_ pos pos' ∧ forallb (wf_redirection K) redirs = true)
    (parse_redirections tokens parse_sub pos e).
Proof.
  intros Hpos. unfold parse_redirections.
  eapply (post_loop
            (λ '(redirs, pos', _), at_ pos pos' ∧ forallb (wf_redirection K) redirs = true)
            (λ '(_, pos', _), n - pos'));
    [| done | unfold loop_fuel, at_ in *; lia].
  intros [[redirs p] e'] [Hp Hr]. destruct (is_redirection_token tokens p) eqn:Er; [| done].
  apply post_bind. eapply post_mono; [by apply parse_redirection_ok | | done].
  intros [r p'] [Hp' Hwr]. simpl. unfold at_ in *.
  split_and!; [lia | lia | by apply forallb_snoc | lia].
Qed.

Lemma parse_compound_command_ok d pos t :
  tokens !! pos = Some t → (k ≤ pos)%nat →
  post_parse (λ '(c, pos'), at_ (S pos) pos' ∧ wf_command K c = true)
    (parse_compound_command tokens parse_sub parse_inner d pos).
Proof.
  intros E Hk. pose proof (lookup_at _ _ E). unfold parse_compound_command. cbv zeta.
  apply post_bind. eapply post_mono; [apply inner_ok; lia | | done].
  intros [body p] [Hp Hb]. unfold peek.
  destruct (tokens !! p) as [t'|] eqn:E'; [| apply unexpected_in].
  destruct (is_closing_token d _); [| apply unexpected_in]. pose proof (lookup_at _ _ E').
  apply post_bind. eapply post_mono; [apply parse_redirections_ok; unfold at_; lia | | done].
  intros [[redirs p'] e] [Hp' Hr]. simpl. split; [unfold at_ in *; lia |].
  destruct d; simpl; by rewrite Hb, Hr.
Qed.

Lemma parse_pipes_ok pos commands e :
  at_ pos pos → forallb (wf_simple K) commands = true →
  post_parse (λ '(commands', _, pos'), at_ pos pos' ∧ forallb (wf_simple K) commands' = true ∧
                (length commands ≤ length commands')%nat ∧
                (peek_kind tokens pos = Some Tok_Pipe → length commands < length commands')%nat)
    (parse_pipes tokens parse_sub pos commands e).
Proof.
  intros Hpos Hc. unfold parse_pipes.
  eapply (post_loop
            (λ '(commands', _, pos'), at_ pos pos' ∧ forallb (wf_simple K) commands' = true ∧
               (length commands ≤ length commands')%nat ∧
               (pos' = pos ∨ length commands < length commands')%nat)
            (λ '(_, _, pos'), n - pos'));
    [| split_and!; try done; by left | unfold loop_fuel, at_ in *; lia].
  intros [[cs e'] p] (Hp & Hcs & Hlen & Hor).
  assert (peek_kind tokens p ≠ Some Tok_Pipe → post_parse
    (λ r, match r with
          | inl a => (let '(commands', _, pos') := a in at_ pos pos' ∧ forallb (wf_simple K) commands' = true ∧
               (length commands ≤ length commands')%nat ∧
               (pos' = pos ∨ length commands < length commands')%nat) ∧
               ((let '(_, _, pos') := a in n - pos') < n - p)%nat
          | inr (commands', _, pos') => at_ pos pos' ∧ forallb (wf_simple K) commands' = true ∧
                (length commands ≤ length commands')%nat ∧
                (peek_kind tokens pos = Some Tok_Pipe → length commands < length commands')%nat
          end)
    (Ok (A := list SimpleCommand * Span * nat + list SimpleCommand * Span * nat) (inr (cs, e', p))))
    as Hstop.
  { intros Hne. simpl. split_and!; try done. intros Hpipe. by destruct Hor as [->|]. }
  destruct (peek_kind tokens p) as [kd|] eqn:E; [| by apply Hstop].
  destruct kd; try (apply Hstop; done).
  unfold peek_kind, peek in E. destruct (tokens !! p) as [t|] eqn:Et; [| done].
  rewrite (advance_some _ _ Et). pose proof (lookup_at _ _ Et).
  apply post_bind. eapply post_mono; [apply parse_simple_command_ok; unfold at_; lia | | done].
  intros [c p'] [Hp' Hwc]. simpl. rewrite length_app. simpl. unfold at_ in *.
  split_and!; [lia | lia | by apply forallb_snoc | lia | right; lia | lia].
Qed.

Lemma parse_job_ok pos :
  at_ k pos →
  post_parse (λ '(c, pos'), at_ (S pos) pos' ∧ wf_command K c = true)
    (parse_job tokens parse_sub parse_inner pos).
Proof.
  intros Hpos. unfold parse_job.
  assert (post_parse (λ '(c, pos'), at_ (S pos) pos' ∧ wf_command K c = true)
    ('(first, pos) ← parse_simple_command tokens parse_sub pos;
      match peek_kind tokens pos with
      | Some Tok_Pipe =>
          '(commands, end_span, pos) ← parse_pipes tokens parse_sub pos [first] (sc_span first);
          Ok (Cmd_Job (mkShellJob commands (span_merge (sc_span first) end_span)), pos)
      | _ => Ok (Cmd_Simple first, pos)
      end)) as Hsimple.
  { apply post_bind. eapply post_mono; [apply parse_simple_command_ok; unfold at_ in *; lia | | done].
    intros [first p] [Hp Hw].
    destruct (peek_kind tokens p) as [kd|] eqn:E; [| done]. destruct kd; try done.
    apply post_bind. eapply post_mono; [apply parse_pipes_ok; [unfold at_ in *; lia | simpl; by rewrite Hw] | | done].
    intros [[cs e] p'] (Hp' & Hcs & _ & Hlen). simpl in *. specialize (Hlen E).
    split; [unfold at_ in *; lia |]. destruct cs as [|c1 [|c2 cs]]; simpl in *; [lia | lia | exact Hcs]. }
  unfold parse_subshell, parse_brace_group.
  destruct (peek_kind tokens pos) as [kd|] eqn:E; [| exact Hsimple].
  unfold peek_kind, peek in E. destruct (tokens !! pos) as [t|] eqn:Et; [| done].
  destruct kd; try exact Hsimple; (eapply parse_compound_command_ok; [done | apply Hpos]).
Qed.

Lemma parse_command_item_ok pos :
  at_ k pos →
  post_parse (λ '(i, pos'), at_ (S pos) pos' ∧ wf_item K i = true)
    (parse_command_item tokens parse_sub parse_inner pos).
Proof.
  intros Hpos. unfold parse_command_item. apply post_bind.
  eapply post_mono; [by apply parse_job_ok | | done].
  intros [c p] [Hp Hw]. cbv zeta. unfold peek.
  destruct (tokens !! p) as [[kd span]|] eqn:E; [| done].
  pose proof (lookup_at _ _ E).
  destruct kd; try done. simpl. split; [unfold at_ in *; lia | done].
Qed.

(** The chain after its first command: every item but the last is in the
    foreground. *)
Lemma parse_chain_ok pos :
  at_ k pos →
  post_parse (λ '(rest, pos'), at_ pos pos' ∧ forallb (λ '(_, item), wf_item K item) rest = true ∧
                forallb (λ i, negb (ci_background i)) (removelast (snd <$> rest)) = true)
    (parse_chain tokens parse_sub parse_inner pos).
Proof.
  intros Hpos. unfold parse_chain.
  eapply (post_loop
            (λ '(rest, pos'), at_ pos pos' ∧ forallb (λ '(_, item), wf_item K item) rest = true ∧
               forallb (λ i, negb (ci_background i)) (snd <$> rest) = true)
            (λ '(_, pos'), n - pos'));
    [| split_and!; unfold at_ in *; (done || lia) | unfold loop_fuel, at_ in *; lia].
  assert (∀ (p : CommandItem → bool) l, forallb p l = true → forallb p (removelast l) = true) as Hrl.
  { intros p l. induction l as [|x [|y l] IH]; intros H; [done | done |].
    simpl in *. apply andb_true_iff in H as [-> H]. by rewrite IH. }
  intros [rest p] (Hp & Hr & Hb). destruct (logical_op tokens p) as [op|] eqn:E.
  2: { simpl. split_and!; [done | done | by apply Hrl]. }
  unfold logical_op, peek_kind, peek in E. destruct (tokens !! p) as [t|] eqn:Et; [| done].
  rewrite (advance_some _ _ Et). pose proof (lookup_at _ _ Et). apply post_bind.
  eapply post_mono; [apply parse_command_item_ok; unfold at_ in *; lia | | done].
  intros [item p'] [Hp' Hw].
  assert (forallb (λ '(_, item), wf_item K item) (rest ++ [(op, item)])%list = true) as Hr'
    by by apply forallb_snoc.
  simpl. destruct (ci_background item) eqn:Ebg; simpl; rewrite fmap_app; unfold at_ in *.
  - split_and!; [lia | lia | done |]. simpl. by rewrite removelast_last.
  - split_and!; [lia | lia | done | | lia]. apply forallb_snoc; [done |]. simpl. by rewrite Ebg.
Qed.

Lemma parse_and_or_list_ok pos :
  at_ k pos →
  post_parse (λ '(l, pos'), at_ (S pos) pos' ∧ wf_and_or K l = true)
    (parse_and_or_list tokens parse_sub parse_inner pos).
Proof.
  intros Hpos. unfold parse_and_or_list. apply post_bind.
  eapply post_mono; [by apply parse_command_item_ok | | done].
  intros [first p] [Hp Hw]. cbv zeta. destruct (ci_background first) eqn:Ebg.
  { simpl. split; [done |]. by rewrite Hw. }
  apply post_bind. eapply post_mono; [apply parse_chain_ok; unfold at_ in *; lia | | done].
  intros [rest p'] (Hp' & Hr & Hb). simpl. split; [unfold at_ in *; lia |].
  rewrite Hw, Hr. simpl. destruct (snd <$> rest) as [|i items] eqn:Ei; [done |].
  simpl in *. by rewrite Ebg.
Qed.

Lemma skip_separators_ok pos : at_ pos pos → post_parse (at_ pos) (skip_separators tokens pos).
Proof.
  intros Hpos. unfold skip_separators.
  eapply (post_loop (at_ pos) (λ p, n - p)); [| done | unfold loop_fuel, at_ in *; lia].
  intros p Hp. destruct (at_separator tokens p) eqn:E; [| done].
  unfold at_separator, peek_kind, peek in E. destruct (tokens !! p) as [t|] eqn:Et; [| done].
  rewrite (advance_some _ _ Et). pose proof (lookup_at _ _ Et). simpl. unfold at_ in *. lia.
Qed.

Lemma command_list_ok inner pos :
  at_ k pos →
  post_parse (λ '(l, pos'), at_ pos pos' ∧ wf_list K l = true)
    (command_list tokens (String.length input) parse_sub parse_inner inner pos).
Proof.
  intros Hpos. unfold command_list. cbv zeta. apply post_bind.
  eapply post_mono; [apply skip_separators_ok; unfold at_ in *; lia | | done].
  intros p Hp. apply post_bind.
  eapply post_mono with (Q := λ '(commands, pos'), at_ pos pos' ∧ forallb (wf_and_or K) commands = true);
    [| | done].
  2: { by intros [commands p'] [? Hc]. }
  eapply (post_loop (λ '(commands, pos'), at_ pos pos' ∧ forallb (wf_and_or K) commands = true)
            (λ '(_, pos'), n - pos')); [| done | unfold loop_fuel, at_ in *; lia].
  intros [commands p1] [Hp1 Hc]. unfold command_list_round. destruct (_ || _); [done |].
  apply post_bind. eapply post_mono; [apply parse_and_or_list_ok; unfold at_ in *; lia | | done].
  intros [l p2] [Hp2 Hl]. cbv zeta. destruct (_ && _); [apply unexpected_in |].
  apply post_bind. eapply post_mono; [apply skip_separators_ok; unfold at_ in *; lia | | done].
  intros p3 Hp3. simpl. unfold at_ in *. split_and!; [lia | lia | by apply forallb_snoc | lia].
Qed.
End Commands.

Lemma parse_command_list_impl_ok depth inner pos :
  at_ pos pos → (n - pos < depth)%nat →
  post_parse (λ '(l, pos'), at_ pos pos' ∧ wf_list K l = true)
    (parse_command_list_impl tokens (String.length input) parse_sub depth inner pos).
Proof.
  revert inner pos. induction depth as [|depth IH]; intros inner pos Hpos Hd; [lia |].
  simpl. eapply command_list_ok with (k := pos); [| done].
  intros p Hp. apply IH; unfold at_ in *; lia.
Qed.

Lemma parse_command_list_ok :
  post_parse (λ l, wf_list K l = true) (parse_command_list tokens (String.length input) parse_sub).
Proof.
  unfold parse_command_list. apply post_bind.
  eapply post_mono; [apply parse_command_list_impl_ok; [unfold at_; lia | unfold loop_fuel; lia] | | done].
  by intros [l p] [_ H].
Qed.
End Parsing.

Lemma parse_depth_ok depth input K :
  (String.length input < depth)%nat → (String.length input ≤ K)%nat →
  post (λ l, wf_list K l = true) (parse_error_in input) (parse_depth depth input).
Proof.
  revert input. induction depth as [|depth IH]; intros input Hd HK; [lia |].
  simpl. apply post_bind. pose proof (tokenize_in input) as Ht.
  destruct (tokenize input) as [tokens|e|]; [| exact Ht | done]. simpl.
  apply parse_command_list_ok; [exact HK | exact Ht |]. intros s Hs.
  eapply post_mono; [apply IH; lia | done | done].
Qed.

Lemma parse_post input :
  post (λ l, wf_list (String.length input) l = true) (parse_error_in input) (parse input).
Proof. apply parse_depth_ok; lia. Qed.

(** C28. Parsing ends on every text, whatever it holds: with a well-formed tree, in
    which jobs have at least two commands, words have parts, assignments have
    the name of a variable, commands have a name unless they are assignments
    alone, substitutions are parsed, only the last command of a chain is in the
    background, and the texts that the execution will look into are shorter
    than the input; or with an error whose span, if it has one, is part of the
    text. *)
Theorem parse_well_formed (input : string) :
  match parse input with
  | Ok l => wf_list (String.length input) l = true
  | Err e => match parse_error_span e with
             | Some s => (sp_start s ≤ sp_end s ≤ String.length input)%nat
             | None => True
             end
  | NoFuel => False
  end.
Proof.
  pose proof (parse_post input) as H. by destruct (parse input).
Qed.

(** ** A command with a quoted value *)

(** The characters of a plain command name. *)
Definition plain_char (a : ascii) : bool :=
  negb (is_word_boundary a) && negb (a =c "\") && negb (a =c "=").
Definition plain_name (s : string) : bool := negb (is_empty s) && all_chars plain_char s.

Lemma plain_not_special a :
  plain_char a = true → is_word_boundary a = false ∧ (a =c "\") = false ∧ (a =c "=") = false.
Proof.
  unfold plain_char. destruct (is_word_boundary a), (a =c "\"), (a =c "="); done.
Qed.

Lemma no_continuation pos a s : (a =c "\") = false → consume_line_continuation (mkChars pos (String a s)) = None.
Proof. unfold consume_line_continuation. simpl. by intros ->. Qed.

Lemma word_loop name pos b rest word e fuel :
  all_chars plain_char name = true → is_word_boundary b = true → (b =c "\") = false →
  (String.length name < fuel)%nat → (is_empty name = true → e = pos) →
  loop fuel word_round (mkChars pos (name +:+ String b rest), word, e)
  = Ok (word +:+ name, pos + String.length name, mkChars (pos + String.length name) (String b rest)).
Proof.
  intros Hn Hb Hbs Hf He. revert pos word e fuel Hf He Hn.
  induction name as [|a name IH]; intros pos word e [|fuel] Hf He Hn; try (simpl in Hf; lia).
  - rewrite loop_S. cbn -[consume_line_continuation is_word_boundary].
    rewrite no_continuation, Hbs, Hb by done. cbn.
    rewrite He by done. by rewrite string_app_nil_r, Nat.add_0_r.
  - simpl in Hn. apply andb_true_iff in Hn as [Ha Hn].
    destruct (plain_not_special a Ha) as (Hw & Hs & _). rewrite loop_S.
    cbn -[consume_line_continuation is_word_boundary loop].
    rewrite no_continuation, Hs, Hw by done. cbn -[loop consume_line_continuation is_word_boundary].
    rewrite IH; [| simpl in Hf; lia | intros; lia | done].
    rewrite push_app. by replace (S pos + String.length name) with (pos + S (String.length name)) by lia.
Qed.

Lemma skip_whitespace_stop pos a s :
  is_blank a = false → (a =c "\") = false →
  skip_whitespace (mkChars pos (String a s)) = Ok (mkChars pos (String a s)).
Proof.
  intros Hb Hs. unfold skip_whitespace, fuel_of. rewrite loop_S.
  cbn -[consume_line_continuation is_blank loop]. by rewrite Hb, no_continuation.
Qed.

Lemma skip_one_blank pos a s :
  is_blank a = false → (a =c "\") = false →
  skip_whitespace (mkChars pos (String " " (String a s))) = Ok (mkChars (S pos) (String a s)).
Proof.
  intros Hb Hs. pose proof (skip_whitespace_stop (S pos) a s Hb Hs) as H.
  unfold skip_whitespace, fuel_of in *. rewrite loop_S. exact H.
Qed.

(** A character that starts a word goes to [lex_word]. *)
Lemma next_token_word input pending pos a s :
  is_word_boundary a = false → (a =c "\") = false →
  next_token input pending (mkChars pos (String a s))
  = (t ← lex_word input pos (mkChars pos (String a s)); Ok (Some t)).
Proof.
  unfold is_word_boundary, is_newline_char. intros Hb Hs.
  destruct (is_blank a) eqn:Ebl; [done |]. cbn [orb] in Hb.
  repeat (apply orb_false_iff in Hb as [Hb ?]).
  repeat match goal with H : _ || _ = false |- _ => apply orb_false_iff in H as [? ?] end.
  unfold next_token. rewrite skip_whitespace_stop by done.
  cbn [mbind res_bind peek_char ch_rest ch_pos].
  by repeat match goal with Hc : (a =c _) = false |- _ => rewrite Hc; clear Hc end.
Qed.

(** The text of a command with a value between double quotes. *)
Definition quoted_command (name v : string) : string :=
  name +:+ String " " (String double_quote (escape_for_shell v +:+ String double_quote "")).

Definition name_token (name : string) : Token :=
  mkToken (Tok_Word name) (mkSpan 0 (String.length name)).
Definition value_token (name v : string) : Token :=
  mkToken (Tok_DoubleQuoted (quoted_parts v))
    (mkSpan (String.length name + 1) (String.length name + String.length (escape_for_shell v) + 3)).

Lemma plain_no_char b name :
  (∀ a, plain_char a = true → (a =c b) = false) → all_chars plain_char name = true →
  has_char b name = false.
Proof.
  intros Hb. induction name as [|a name IH]; [done |]. simpl. intros [Ha Hn]%andb_true_iff.
  by rewrite Hb, IH.
Qed.

Lemma lex_plain_word input name rest :
  plain_name name = true →
  lex_word input 0 (mkChars 0 (name +:+ String " " rest))
  = Ok (name_token name, mkChars (String.length name) (String " " rest)).
Proof.
  intros [Hne Hn]%andb_true_iff. unfold lex_word, word_chars.
  rewrite (word_loop name 0 " " rest); try done.
  unfold fuel_of. cbn [ch_rest]. rewrite string_length_app. lia.
Qed.

Lemma tokenize_round_token input c t c' tokens :
  next_token input [] c = Ok (Some (t, c')) → pending_of tokens t = [] →
  tokenize_round input (c, [], tokens) = Ok (inl (c', [], (tokens ++ [t])%list)).
Proof.
  intros H Hp. unfold tokenize_round. rewrite H. cbn [mbind res_bind]. cbv zeta.
  rewrite Hp. cbn [app]. by rewrite andb_false_r.
Qed.

Lemma tokenize_quoted_command name v :
  plain_name name = true →
  tokenize (quoted_command name v) = Ok [name_token name; value_token name v].
Proof.
  intros Hp. pose proof Hp as [Hne Hn]%andb_true_iff. unfold tokenize. cbv zeta.
  assert (∃ k, fuel_of (mkChars 0 (quoted_command name v)) = S (S (S k))) as [k ->].
  { unfold fuel_of, quoted_command. cbn [ch_rest]. rewrite string_length_app. simpl.
    exists (String.length name + String.length (escape_for_shell v +:+ String double_quote "")). lia. }
  set (input := quoted_command name v).
  assert (next_token input [] (mkChars 0 input)
    = Ok (Some (name_token name, mkChars (String.length name)
            (String " " (String double_quote (escape_for_shell v +:+ String double_quote "")))))) as H1.
  { pose proof (lex_plain_word input name
      (String double_quote (escape_for_shell v +:+ String double_quote "")) Hp) as Hw.
    subst input. unfold quoted_command in *. destruct name as [|a name]; [done |].
    simpl in Hn. apply andb_true_iff in Hn as [Ha _].
    destruct (plain_not_special a Ha) as (Hb & Hs & _). cbn [String.append] in *.
    rewrite next_token_word by done. by rewrite Hw. }
  assert (next_token input [] (mkChars (String.length name)
            (String " " (String double_quote (escape_for_shell v +:+ String double_quote ""))))
    = Ok (Some (value_token name v,
                mkChars (String.length name + String.length (escape_for_shell v) + 3) ""))) as H2.
  { unfold next_token. rewrite skip_one_blank by done.
    cbn -[lex_double_quote is_blank Nat.add]. rewrite lex_escaped. cbn -[Nat.add].
    unfold value_token. rewrite Nat.add_1_r.
    by replace (S (String.length name) + String.length (escape_for_shell v) + 2)
      with (String.length name + String.length (escape_for_shell v) + 3) by lia. }
  rewrite loop_S, (tokenize_round_token _ _ _ _ _ H1) by done. cbn [mbind res_bind].
  rewrite loop_S, (tokenize_round_token _ _ _ _ _ H2) by done. cbn [mbind res_bind].
  by rewrite loop_S.
Qed.

(** How the parser reads a command with a quoted value. *)
Lemma parse_quoted_command (name v : string) :
  plain_name name = true →
  ∃ s1 s2 s3 s4 s5 s6,
    parse (quoted_command name v)
    = Ok (mkCommandList
            [mkAndOrList
               (mkCommandItem
                  (Cmd_Simple
                     (mkSimpleCommand [] (mkWord [part_literal name] s1)
                        [mkWord [part_double_quoted v] s2] [] s3))
                  false s4)
               [] s5] s6).
Proof.
  intros Hp. unfold parse. cbn [parse_depth]. rewrite tokenize_quoted_command by done.
  cbn [map_err mbind res_bind]. unfold parse_command_list.
  assert (try_parse_assignment_word name = None) as Ha.
  { unfold try_parse_assignment_word. pose proof Hp as [_ Hn]%andb_true_iff.
    rewrite (proj2 (split_once_None "=" name)); [done |].
    apply plain_no_char; [| done]. intros a Hc. by apply plain_not_special in Hc as (_ & _ & ?). }
  assert ((String.length name + 1 =? String.length name)%nat = false) as Hadj
    by (apply Nat.eqb_neq; lia).
  unfold name_token, value_token.
  generalize (parse_depth (String.length (quoted_command name v))) as sub. intros sub.
  assert (quoted_parts v = [] ∧ v = "" ∨ quoted_parts v = [part_double_quoted v]) as Hq.
  { unfold quoted_parts. destruct v; [by left | by right]. }
  revert Ha Hadj. generalize (String.length name) as m. intros m Ha Hadj.
  destruct Hq as [[-> ->]| ->]; do 6 eexists; cbn -[try_parse_assignment_word Nat.add Nat.eqb];
    repeat (rewrite ?Ha, ?Hadj; cbn -[try_parse_assignment_word Nat.add Nat.eqb]); reflexivity.
Qed.

(** A value that a template escapes and puts between double quotes is one word
    of the command, whatever it holds: the shell's own lexer and parser read
    back the value as a single literal argument, with no expansion, no
    redirection and no second command. *)
Theorem escaped_value_is_one_word (name v : string) :
  plain_name name = true →
  ∃ s1 s2 s3 s4 s5 s6,
    parse (quoted_command name v)
    = Ok (mkCommandList
            [mkAndOrList
               (mkCommandItem
                  (Cmd_Simple
                     (mkSimpleCommand [] (mkWord [part_literal name] s1)
                        [mkWord [part_double_quoted v] s2] [] s3))
                  false s4)
               [] s5] s6).
Proof. apply parse_quoted_command. Qed.

Lemma escaped_value_is_one_word_witness :
  plain_name "echo" = true ∧
  ∃ s1 s2 s3 s4 s5 s6,
    parse (quoted_command "echo" "$(rm -rf /); `x` \ end")
    = Ok (mkCommandList
            [mkAndOrList
               (mkCommandItem
                  (Cmd_Simple
                     (mkSimpleCommand [] (mkWord [part_literal "echo"] s1)
                        [mkWord [part_double_quoted "$(rm -rf /); `x` \ end"] s2] [] s3))
                  false s4)
               [] s5] s6).
Proof.
  split; [reflexivity |]. apply (escaped_value_is_one_word "echo" "$(rm -rf /); `x` \ end").
  reflexivity.
Defined.

Local Close Scope string_scope.
