(* ===== verification/ShellValidate.v ===== *)
(** Walking and validating syntax trees: [crates/shell/src/ast/visitor.rs],
    [ast/utils.rs], [ast/args.rs], [validator.rs], [validation.rs]. *)

From S2P Require Import Prelude Bytes Slug Vars ShellAst ShellLexer ShellParser.

Local Open Scope string_scope.

(** ** [AstVisitor]

    The methods that the visitors of the program override, each with what it
    does before it walks on, and for groups also after; what is not overridden
    only walks on. *)

Record AstVisitor (S : Type) := mkVisitor {
  on_simple_command : SimpleCommand → S → S;
  on_job : ShellJob → S → S;
  enter_subshell : Subshell → S → S;
  leave_subshell : S → S;
  enter_brace_group : BraceGroup → S → S;
  leave_brace_group : S → S;
  on_word_part : WordPart → S → S
}.
#[global] Arguments mkVisitor {S}.
#[global] Arguments on_simple_command {S}.
#[global] Arguments on_job {S}.
#[global] Arguments enter_subshell {S}.
#[global] Arguments leave_subshell {S}.
#[global] Arguments enter_brace_group {S}.
#[global] Arguments leave_brace_group {S}.
#[global] Arguments on_word_part {S}.

(** A visitor that only walks. *)
Definition idle_visitor {S} : AstVisitor S :=
  mkVisitor (λ _ s, s) (λ _ s, s) (λ _ s, s) (λ s, s) (λ _ s, s) (λ s, s) (λ _ s, s).

(** Visit the elements of a list in order. *)
Definition visit_all {A S} (f : A → S → S) : list A → S → S :=
  fix go l s := match l with [] => s | x :: l => go l (f x s) end.

Section Visit.
Context {S : Type} (v : AstVisitor S).

Fixpoint visit_command_list (l : CommandList) (s : S) : S :=
  match l with mkCommandList commands _ => visit_all visit_and_or_list commands s end
with visit_and_or_list (l : AndOrList) (s : S) : S :=
  match l with
  | mkAndOrList first rest _ =>
      visit_all (λ '(_, item), visit_command_item item) rest (visit_command_item first s)
  end
with visit_command_item (i : CommandItem) (s : S) : S :=
  match i with mkCommandItem command _ _ => visit_command command s end
with visit_command (c : ShellCommand) (s : S) : S :=
  match c with
  | Cmd_Simple cmd => visit_simple_command cmd s
  | Cmd_Job (mkShellJob commands _ as job) => visit_all visit_simple_command commands (on_job v job s)
  | Cmd_Subshell (mkSubshell body redirections _ as subshell) =>
      leave_subshell v
        (visit_all visit_redirection redirections
           (visit_command_list body (enter_subshell v subshell s)))
  | Cmd_BraceGroup (mkBraceGroup body redirections _ as group) =>
      leave_brace_group v
        (visit_all visit_redirection redirections
           (visit_command_list body (enter_brace_group v group s)))
  end
with visit_simple_command (c : SimpleCommand) (s : S) : S :=
  match c with
  | mkSimpleCommand env name args redirections _ =>
      visit_all visit_redirection redirections
        (visit_all visit_word args
           (visit_word name
              (visit_all visit_env_assignment env (on_simple_command v c s))))
  end
with visit_env_assignment (e : EnvAssignment) (s : S) : S :=
  match e with mkEnvAssignment _ value _ => visit_word value s end
with visit_redirection (r : Redirection) (s : S) : S :=
  match r with
  | Redir_Out _ word _ | Redir_In _ word | Redir_HereString _ word | Redir_Both _ word =>
      visit_word word s
  | Redir_HereDoc _ _ _ _ _ | Redir_Duplicate _ _ _ => s
  end
with visit_word (w : Word) (s : S) : S :=
  match w with mkWord parts _ => visit_all visit_word_part parts s end
with visit_word_part (p : WordPart) (s : S) : S :=
  let s := on_word_part v p s in
  match p with
  | Part_Substitution (Sub_Parsed body) _ => visit_command_list body s
  | _ => s
  end.
End Visit.

(** ** Queries: [ast/utils.rs] *)

Definition count_simple_commands (l : CommandList) : nat :=
  visit_command_list
    (mkVisitor (λ _ n, S n) (λ _ n, n) (λ _ n, n) (λ n, n) (λ _ n, n) (λ n, n) (λ _ n, n)) l 0.

Definition collect_variables (l : CommandList) : list string :=
  let collect part vars :=
    match part with
    | Part_Variable name _ =>
        if bool_decide (name ∈ vars) then vars else (vars ++ [name])%list
    | _ => vars
    end in
  visit_command_list
    (mkVisitor (λ _ s, s) (λ _ s, s) (λ _ s, s) (λ s, s) (λ _ s, s) (λ s, s) collect) l [].

Definition has_command_substitutions (l : CommandList) : bool :=
  let find part found := match part with Part_Substitution _ _ => true | _ => found end in
  visit_command_list
    (mkVisitor (λ _ s, s) (λ _ s, s) (λ _ s, s) (λ s, s) (λ _ s, s) (λ s, s) find) l false.

(** The current and the greatest depth. *)
Definition max_nesting_depth (l : CommandList) : nat :=
  let enter '(current, max) := (S current, Nat.max max (S current)) in
  let leave '(current, max) := (current - 1, max) in
  snd (visit_command_list
    (mkVisitor (λ _ s, s) (λ _ s, s) (λ _, enter) leave (λ _, enter) leave (λ _ s, s)) l (0, 0)).

(** ** Validation *)

Inductive ValidationError :=
  | Val_EmptyCommand (span : Span)
  | Val_MissingCommandAfter (operator : string) (span : Span)
  | Val_MissingCommandBefore (operator : string) (span : Span)
  | Val_EmptyJobSegment (span : Span)
  | Val_EmptySubshell (span : Span)
  | Val_EmptyBraceGroup (span : Span)
  | Val_StandaloneAssignment (name : string) (value : option string) (span : Span)
  | Val_RedirectionWithoutCommand (span : Span)
  | Val_ExcessiveNesting (depth max : nat) (span : Span)
  | Val_IfsAssignment (span : Span).

(** [ValidationError::span] *)
Definition validation_error_span (e : ValidationError) : Span :=
  match e with
  | Val_EmptyCommand span => span
  | Val_MissingCommandAfter _ span => span
  | Val_MissingCommandBefore _ span => span
  | Val_EmptyJobSegment span => span
  | Val_EmptySubshell span => span
  | Val_EmptyBraceGroup span => span
  | Val_StandaloneAssignment _ _ span => span
  | Val_RedirectionWithoutCommand span => span
  | Val_ExcessiveNesting _ _ span => span
  | Val_IfsAssignment span => span
  end.

Record ValidatorConfig := mkValidatorConfig {
  max_nesting : nat;
  allow_standalone_assignments : bool
}.

Definition default_validator_config : ValidatorConfig := mkValidatorConfig 0 true.

Record Validator := mkValidator { vd_errors : list ValidationError; vd_current_depth : nat }.

Section Validate.
Context (config : ValidatorConfig).

Definition report (e : ValidationError) (s : Validator) : Validator :=
  mkValidator (vd_errors s ++ [e])%list (vd_current_depth s).

Definition check_nesting_depth (span : Span) (s : Validator) : Validator :=
  if (0 <? max_nesting config)%nat && (max_nesting config <? vd_current_depth s)%nat
  then report (Val_ExcessiveNesting (vd_current_depth s) (max_nesting config) span) s
  else s.

Definition has_command_name (c : SimpleCommand) : bool :=
  match wd_parts (sc_name c) with [] => false | _ => true end.

Definition part_str (p : WordPart) : string :=
  match p with
  | Part_Literal value _ => value
  | Part_Variable name _ => "$" +:+ name
  | Part_Substitution _ _ => "$(...)"
  end.

Definition assignment_value_str (c : SimpleCommand) : option string :=
  e ← head (sc_env c);
  Some (foldr String.append "" (part_str <$> wd_parts (ea_value e))).

Definition validate_simple_command (c : SimpleCommand) (s : Validator) : Validator :=
  let s := visit_all (λ e s,
    if String.eqb (ea_name e) "IFS" then report (Val_IfsAssignment (sc_span c)) s else s)
    (sc_env c) s in
  if negb (has_command_name c) && negb (allow_standalone_assignments config) then
    match sc_env c with
    | e :: _ =>
        report (Val_StandaloneAssignment (ea_name e) (assignment_value_str c) (sc_span c)) s
    | [] => s
    end
  else s.

Definition validate_job (j : ShellJob) (s : Validator) : Validator :=
  visit_all (λ c s,
    if has_command_name c then s else report (Val_EmptyJobSegment (sc_span c)) s)
    (sj_commands j) s.

(** Entering a group with [body]. *)
Definition validate_group (body : CommandList) (empty : ValidationError) (span : Span)
    (s : Validator) : Validator :=
  let s := mkValidator (vd_errors s) (S (vd_current_depth s)) in
  let s := check_nesting_depth span s in
  match cl_commands body with [] => report empty s | _ => s end.

Definition leave_group (s : Validator) : Validator :=
  mkValidator (vd_errors s) (vd_current_depth s - 1).

Definition validator_visitor : AstVisitor Validator :=
  mkVisitor validate_simple_command validate_job
    (λ g, validate_group (ss_body g) (Val_EmptySubshell (ss_span g)) (ss_span g)) leave_group
    (λ g, validate_group (bg_body g) (Val_EmptyBraceGroup (bg_span g)) (bg_span g)) leave_group
    (λ _ s, s).

(** The errors found; the tree is valid when there are none. *)
Definition validate_with_config (ast : CommandList) : list ValidationError :=
  vd_errors (visit_command_list validator_visitor ast (mkValidator [] 0)).
End Validate.

Definition validate (ast : CommandList) : list ValidationError :=
  validate_with_config default_validator_config ast.

(** ** Arguments of a command: [ast/args.rs] *)

Inductive CliArg :=
  | Cli_ShortFlag (word : Word)
  | Cli_LongFlag (word : Word)
  | Cli_LongOptionInline (word : Word) (key value : string)
  | Cli_LongOptionSeparate (key_word : Word) (key : string) (value_words : list Word)
  | Cli_Positional (word : Word).

Definition is_flag (a : CliArg) : bool :=
  match a with Cli_ShortFlag _ | Cli_LongFlag _ => true | _ => false end.
Definition is_option (a : CliArg) : bool :=
  match a with Cli_LongOptionInline _ _ _ | Cli_LongOptionSeparate _ _ _ => true | _ => false end.
Definition is_positional (a : CliArg) : bool :=
  match a with Cli_Positional _ => true | _ => false end.
Definition option_key (a : CliArg) : option string :=
  match a with
  | Cli_LongOptionInline _ key _ | Cli_LongOptionSeparate _ key _ => Some key
  | _ => None
  end.

Definition first_literal (w : Word) : option string :=
  match wd_parts w with Part_Literal value _ :: _ => Some value | _ => None end.

(** An argument that ends the values of an option. *)
Definition looks_like_flag (w : Word) : bool :=
  match first_literal w with Some value => starts_with "-" value | None => false end.

(** The words up to the next flag, and the rest. *)
Fixpoint take_values (args : list Word) : list Word * list Word :=
  match args with
  | [] => ([], [])
  | w :: args' =>
      if looks_like_flag w then ([], args)
      else let '(values, rest) := take_values args' in (w :: values, rest)
  end.

(** One argument and the values it takes. *)
Definition parse_cli_arg (options_with_values multi_value_options : list string)
    (word : Word) (args : list Word) : CliArg * list Word :=
  match first_literal word with
  | Some s =>
      if starts_with "--" s then
        match split_once "=" s with
        | Some (l, value) => (Cli_LongOptionInline word (drop_str 2 l) value, args)
        | None =>
            let key := drop_str 2 s in
            let is_multi := bool_decide (key ∈ multi_value_options) in
            let takes_value := is_multi || bool_decide (key ∈ options_with_values) in
            match args with
            | next :: args' =>
                if takes_value then
                  if is_multi then
                    let '(values, rest) := take_values args in
                    (Cli_LongOptionSeparate word key values, rest)
                  else (Cli_LongOptionSeparate word key [next], args')
                else (Cli_LongFlag word, args)
            | [] => (Cli_LongFlag word, args)
            end
        end
      else if starts_with "-" s && (1 <? String.length s)%nat then (Cli_ShortFlag word, args)
      else (Cli_Positional word, args)
  | None => (Cli_Positional word, args)
  end.

(** Every round takes an argument: their number is enough fuel. *)
Fixpoint cli_args (fuel : nat) (options_with_values multi_value_options : list string)
    (args : list Word) : list CliArg :=
  match fuel, args with
  | S fuel', word :: args =>
      let '(arg, rest) := parse_cli_arg options_with_values multi_value_options word args in
      arg :: cli_args fuel' options_with_values multi_value_options rest
  | _, _ => []
  end.

Definition parse_cli_args (options_with_values multi_value_options : list string)
    (c : SimpleCommand) : list CliArg :=
  cli_args (length (sc_args c)) options_with_values multi_value_options (sc_args c).

Definition has_long_option (name : string) (c : SimpleCommand) : bool :=
  existsb (λ w,
    match first_literal w with
    | Some value =>
        String.eqb value ("--" +:+ name) || starts_with ("--" +:+ name +:+ "=") value
    | None => false
    end) (sc_args c).

Definition positional_args (options_with_values multi_value_options : list string)
    (c : SimpleCommand) : list Word :=
  omap (λ a, match a with Cli_Positional w => Some w | _ => None end)
    (parse_cli_args options_with_values multi_value_options c).
