(* ===== verification/RunbookParse.v ===== *)
(** Parsing and validating runbooks: [crates/runbook/src/parser.rs] and
    [validate.rs].

    Reading TOML, HCL or JSON into a [Runbook] is the class [RunbookFormat];
    the texts that the pattern for template variables finds are the class
    [TemplateCaptures].  A hash map is checked in an arbitrary order, the class
    [HashOrder], and the first error found is returned. *)

From S2P Require Import Prelude Bytes Slug Vars Runbook WorkerQueue ShellAst ShellLexer ShellParser.
From S2P Require Import ShellValidate.

Local Open Scope string_scope.

Inductive Format := Format_Toml | Format_Hcl | Format_Json.

(** [ParseError] of [parser.rs]; an error of serde is its text. *)
Inductive RunbookError :=
  | Rb_Deserialize (format : Format) (message : string)
  | Rb_InvalidFormat (location message : string)
  | Rb_ShellError (location : string) (inner : ParseError) (source_text : string)
  | Rb_ShellValidation (location : string) (inner : ValidationError) (source_text : string).

Class RunbookFormat := { deserialize : Format → string → string + Runbook }.

(** The names that [VAR_PATTERN.captures_iter] finds. *)
Class TemplateCaptures := { captures : string → list string }.

(** The order of the keys of a hash map. *)
Class HashOrder := {
  hash_order : gset string → list string;
  hash_order_perm : ∀ X, hash_order X ≡ₚ elements X
}.

(** ** Loops that stop at the first error *)

Fixpoint each {E A} (f : A → Res E unit) (l : list A) : Res E unit :=
  match l with
  | [] => Ok tt
  | x :: l => f x ≫= λ _, each f l
  end.

(** The same with the index of each element. *)
Fixpoint for_each_i {E A} (f : nat → A → Res E unit) (i : nat) (l : list A) : Res E unit :=
  match l with
  | [] => Ok tt
  | x :: l => f i x ≫= λ _, for_each_i f (S i) l
  end.

(** An error if the condition fails. *)
Definition ensure {E} (b : bool) (e : E) : Res E unit := if b then Ok tt else Err e.

Definition listed (x : string) (l : list string) : bool := existsb (String.eqb x) l.

(** [sorted_names], [sorted_keys]: names in alphabetical order. *)
Definition sorted_names (names : list string) : string :=
  String.concat ", " (merge_sort String.le (elements (list_to_set (C := gset string) names))).
Definition sorted_keys {V} (m : gmap string V) : string :=
  String.concat ", " (merge_sort String.le (elements (dom m))).

Definition VALID_SESSION_COLORS : list string :=
  ["red"; "green"; "blue"; "cyan"; "magenta"; "yellow"; "white"].
Definition VALID_PRIME_SOURCES : list string := ["startup"; "resume"; "clear"; "compact"].
Definition SUPPORTED_AGENT_COMMANDS : list string := ["claude"; "claudeless"].
Definition VALID_TEMPLATE_NAMESPACES : list string :=
  ["var"; "args"; "item"; "local"; "workspace"; "invoke"; "prompt"; "step"].

Definition CLAUDE_OPTIONS_WITH_VALUES : list string :=
  ["agent"; "agents"; "append-system-prompt"; "debug"; "debug-file"; "fallback-model"; "file";
   "from-pr"; "input-format"; "json-schema"; "max-budget-usd"; "mcp-config"; "model";
   "output-format"; "permission-mode"; "plugin-dir"; "resume"; "session-id";
   "setting-sources"; "settings"; "system-prompt"; "scenario"; "tool-mode"].
Definition CLAUDE_MULTI_VALUE_OPTIONS : list string :=
  ["add-dir"; "allowed-tools"; "allowedTools"; "betas"; "disallowed-tools"; "disallowedTools";
   "tools"].

Definition JOB_ONLY_NAMESPACES : list (string * string) :=
  [("var.", "use ${args.<name>} to reference command arguments");
   ("input.", "use ${args.<name>} to reference command arguments");
   ("local.", "${local.*} is only available in job steps");
   ("step.", "${step.*} is only available in job steps")].

Abbreviation VRes := (Res RunbookError unit) (only parsing).

(** The reasons of [AgentAction::invalid_reason]. *)
Definition invalid_reason (a : AgentAction) (t : ActionTrigger) : string :=
  match a, t with
  | Act_Resume, OnIdle => "resume is for re-spawning after exit; agent is still running"
  | Act_Nudge, OnDead => "nudge sends a message to a running agent; agent has exited"
  | Act_Nudge, OnError => "nudge sends a message to a running agent; use escalate instead"
  | Act_Done, OnError => "done marks success; API errors are not success states"
  | Act_Nudge, OnPrompt => "nudge sends a message; agent is at a prompt, not idle"
  | Act_Resume, OnPrompt => "resume is for re-spawning after exit; agent is still running"
  | _, _ => "action not allowed for this trigger"
  end.

Definition all_actions (c : ErrorActionConfig) : list AgentAction :=
  match c with
  | Error_Simple config => [config_action config]
  | Error_ByType matches => match_action <$> matches
  end.

Definition directive_job (r : RunDirective) : option string :=
  match r with Run_Job job => Some job | _ => None end.
Definition directive_agent (r : RunDirective) : option string :=
  match r with Run_Agent agent _ => Some agent | _ => None end.

(** [validate_duration_str] *)
Definition validate_duration_str (s : string) : Res string unit :=
  let s := trim s in
  if is_empty s then Err "empty duration string"
  else
    let '(num_str, suffix) := split_digits s in
    match parse_u64 num_str with
    | None => Err ("invalid number in duration: " +:+ s)
    | Some _ =>
        let suffix := trim suffix in
        if listed suffix
             [""; "s"; "sec"; "secs"; "second"; "seconds"; "ms"; "millis"; "millisecond";
              "milliseconds"; "m"; "min"; "mins"; "minute"; "minutes"; "h"; "hr"; "hrs";
              "hour"; "hours"; "d"; "day"; "days"]
        then Ok tt
        else Err ("unknown duration suffix: " +:+ suffix)
    end.

(** ** Templates and commands: [validate.rs] *)

Section Validators.
Context `{!TemplateRegex} `{!TemplateCaptures}.

Definition reference_error (var_name hint location : string) : RunbookError :=
  Rb_InvalidFormat location
    ("template reference ${" +:+ var_name +:+ "} is not available in command.run; " +:+ hint).

Definition validate_command_template_refs (command location : string) : VRes :=
  each (λ var_name,
    each (λ '(prefix, hint),
      ensure (negb (starts_with prefix var_name)) (reference_error var_name hint location))
      JOB_ONLY_NAMESPACES ≫= λ _,
    ensure (negb (starts_with "workspace." var_name))
      (reference_error var_name
         "commands have ${workspace} (the execution path), not ${workspace.*}" location))
    (captures command).

(** [VAR_PATTERN.replace_all(command, "_VAR_")] *)
Definition normalize_template (command : string) : string :=
  replace_var (λ _ _ _ _, "_VAR_") command.

Definition validate_shell_command (command location : string) : VRes :=
  let normalized := normalize_template command in
  ast ← map_err (λ inner, Rb_ShellError location inner normalized) (parse normalized);
  match validate ast with
  | inner :: _ => Err (Rb_ShellValidation location inner normalized)
  | [] => Ok tt
  end.

(** The first simple command, if there is one. *)
Definition first_simple (ast : CommandList) : option SimpleCommand :=
  and_or ← head (cl_commands ast);
  match ci_command (ao_first and_or) with
  | Cmd_Simple cmd => Some cmd
  | Cmd_Job job => head (sj_commands job)
  | _ => None
  end.

Definition validate_agent_command (command location : string) (has_prompt : bool) : VRes :=
  let normalized := normalize_template command in
  ast ← map_err (λ inner, Rb_ShellError location inner normalized) (parse normalized);
  match first_simple ast with
  | None => Ok tt
  | Some simple =>
      match first_literal (sc_name simple) with
      | None => Ok tt
      | Some name =>
          let basename := last_segment name in
          ensure (listed basename SUPPORTED_AGENT_COMMANDS)
            (Rb_InvalidFormat location
               ("unrecognized agent command '" +:+ basename +:+ "'; must be one of: "
                +:+ String.concat ", " SUPPORTED_AGENT_COMMANDS)) ≫= λ _,
          ensure (negb (has_long_option "session-id" simple))
            (Rb_InvalidFormat location
               (basename +:+ " command must not include '--session-id' (added automatically)"))
            ≫= λ _,
          ensure
            (negb has_prompt
             || match positional_args CLAUDE_OPTIONS_WITH_VALUES CLAUDE_MULTI_VALUE_OPTIONS simple with
                | [] => true | _ => false end)
            (Rb_InvalidFormat location
               (basename +:+ " command must not include positional arguments when prompt is configured (use prompt field or inline, not both)"))
      end
  end.

Definition validate_template_namespaces (template location : string) : VRes :=
  each (λ var_name,
    match split_once "." var_name with
    | Some (namespace, _) =>
        ensure (listed namespace VALID_TEMPLATE_NAMESPACES)
          (Rb_InvalidFormat location
             ("unrecognized template namespace '" +:+ namespace +:+ "' in ${" +:+ var_name
              +:+ "}; valid namespaces: " +:+ String.concat ", " VALID_TEMPLATE_NAMESPACES))
    | None => Ok tt
    end) (captures template).
End Validators.

(** ** The checks of a runbook: [parser.rs] *)

(** 2. Map keys become names. *)
Definition fixup_names (r : Runbook) : Runbook :=
  mkRunbook (rb_imports r) (rb_consts r)
    (map_imap (λ name c, Some (mkCommandDef name (command_description c) (command_args c)
                                 (command_defaults c) (command_run c))) (rb_commands r))
    (map_imap (λ name j, Some (mkJobDef name (def_job_name j) (def_vars j) (def_defaults j)
                                 (def_cwd j) (def_workspace j) (def_job_on_done j)
                                 (def_job_on_fail j) (def_job_on_cancel j) (def_locals j)
                                 (def_notify j) (def_steps j))) (rb_jobs r))
    (map_imap (λ name a, Some (mkAgentDef name (agent_run a) (agent_prompt a)
                                 (agent_prompt_file a) (agent_env a) (agent_cwd a)
                                 (agent_prime a) (agent_on_idle a) (agent_on_dead a)
                                 (agent_on_prompt a) (agent_on_error a) (agent_on_stop a)
                                 (agent_max_concurrency a) (agent_notify a)
                                 (agent_session a))) (rb_agents r))
    (map_imap (λ name q, Some (mkQueueDef name (qdef_type q) (qdef_list q) (qdef_take q)
                                 (qdef_vars q) (qdef_defaults q) (qdef_retry q)
                                 (qdef_poll q))) (rb_queues r))
    (map_imap (λ name w, Some (mkWorkerDef name (worker_source_queue w) (worker_handler_job w)
                                 (worker_def_concurrency w))) (rb_workers r))
    (map_imap (λ name c, Some (mkCronDef name (cron_interval c) (cron_run c)
                                 (cron_concurrency c))) (rb_crons r)).

(** ["job.<name>.step[<i>]"], and with the name of the step. *)
Definition step_at (job_name : string) (i : nat) : string :=
  "job." +:+ job_name +:+ ".step[" +:+ pretty i +:+ "]".
Definition step_location (job_name : string) (i : nat) (step : StepDef) : string :=
  step_at job_name i +:+ "(" +:+ def_step_name step +:+ ")".

(** A duration that must be valid, with the error at [location]. *)
Definition check_duration (location s : string) : VRes :=
  map_err (Rb_InvalidFormat location) (validate_duration_str s).

(** The transitions of a step or job, with the names of their fields. *)
Definition transitions (on_done on_fail on_cancel : option StepTransition) :
    list (string * option StepTransition) :=
  [("on_done", on_done); ("on_fail", on_fail); ("on_cancel", on_cancel)].
Definition job_transitions (j : JobDef) : list (string * option StepTransition) :=
  transitions (def_job_on_done j) (def_job_on_fail j) (def_job_on_cancel j).
Definition step_transitions (s : StepDef) : list (string * option StepTransition) :=
  transitions (def_on_done s) (def_on_fail s) (def_on_cancel s).

Definition step_names (j : JobDef) : list string := def_step_name <$> def_steps j.

(** The steps that transitions name. *)
Definition named_steps (ts : list (string * option StepTransition)) : list string :=
  omap (λ '(_, t), transition_step <$> t) ts.

(** 3. *)
Definition check_step_names (job_name : string) (j : JobDef) : VRes :=
  for_each_i (λ i step,
    ensure (negb (is_empty (def_step_name step)))
      (Rb_InvalidFormat (step_at job_name i) "step name is required")) 0 (def_steps j).

(** 6.5 *)
Definition check_cron (name : string) (c : CronDef) : VRes :=
  check_duration ("cron." +:+ name +:+ ".interval") (cron_interval c).

(** 6.6 *)
Definition check_concurrency (name : string) (a : AgentDef) : VRes :=
  match agent_max_concurrency a with
  | Some max =>
      ensure (negb (max =? 0)%Z)
        (Rb_InvalidFormat ("agent." +:+ name +:+ ".max_concurrency") "max_concurrency must be >= 1")
  | None => Ok tt
  end.

(** 6.7 *)
Definition check_color (name : string) (a : AgentDef) : VRes :=
  match agent_session a !! "tmux" ≫= tmux_color with
  | Some color =>
      ensure (listed color VALID_SESSION_COLORS)
        (Rb_InvalidFormat ("agent." +:+ name +:+ ".session.tmux.color")
           ("unknown color '" +:+ color +:+ "'; valid colors: "
            +:+ String.concat ", " VALID_SESSION_COLORS))
  | None => Ok tt
  end.

Definition check_action (name field : string) (t : ActionTrigger) (a : AgentAction) : VRes :=
  ensure (is_valid_for_trigger a t)
    (Rb_InvalidFormat ("agent." +:+ name +:+ "." +:+ field)
       ("action '" +:+ action_as_str a +:+ "' is not valid for " +:+ field +:+ ": "
        +:+ invalid_reason a t)).

(** 7. *)
Definition check_triggers (name : string) (a : AgentDef) : VRes :=
  check_action name "on_idle" OnIdle (config_action (agent_on_idle a)) ≫= λ _,
  check_action name "on_dead" OnDead (config_action (agent_on_dead a)) ≫= λ _,
  check_action name "on_prompt" OnPrompt (config_action (agent_on_prompt a)) ≫= λ _,
  each (check_action name "on_error" OnError) (all_actions (agent_on_error a)).

(** 8. The names seen so far are those of the steps before. *)
Fixpoint check_duplicates_from (job_name : string) (i : nat) (seen : list string)
    (steps : list StepDef) : VRes :=
  match steps with
  | [] => Ok tt
  | step :: steps =>
      ensure (negb (listed (def_step_name step) seen))
        (Rb_InvalidFormat (step_location job_name i step)
           ("duplicate step name '" +:+ def_step_name step +:+ "'")) ≫= λ _,
      check_duplicates_from job_name (S i) (def_step_name step :: seen) steps
  end.
Definition check_duplicates (job_name : string) (j : JobDef) : VRes :=
  check_duplicates_from job_name 0 [] (def_steps j).

(** 9. *)
Definition check_transition (names : list string) (location : string)
    (t : string * option StepTransition) : VRes :=
  match t with
  | (_, None) => Ok tt
  | (field, Some t) =>
      ensure (listed (transition_step t) names)
        (Rb_InvalidFormat (location +:+ "." +:+ field)
           ("references unknown step '" +:+ transition_step t +:+ "'; available steps: "
            +:+ sorted_names names))
  end.
Definition check_transitions (job_name : string) (j : JobDef) : VRes :=
  let names := step_names j in
  each (check_transition names ("job." +:+ job_name)) (job_transitions j) ≫= λ _,
  for_each_i (λ i step,
    each (check_transition names (step_location job_name i step)) (step_transitions step))
    0 (def_steps j).

(** 11. *)
Definition referenced_steps (j : JobDef) : list string :=
  (named_steps (job_transitions j) ++ (def_steps j ≫= λ s, named_steps (step_transitions s)))%list.
Definition check_reachable (job_name : string) (j : JobDef) : VRes :=
  if (length (def_steps j) <=? 1)%nat then Ok tt
  else
    each (λ step,
      ensure (listed (def_step_name step) (referenced_steps j))
        (Rb_InvalidFormat ("job." +:+ job_name +:+ ".step." +:+ def_step_name step)
           ("step '" +:+ def_step_name step
            +:+ "' is unreachable (not referenced by any on_done/on_fail/on_cancel)")))
      (drop 1 (def_steps j)).

(** 5. *)
Definition check_external_queue `{!TemplateRegex} (name : string) (q : QueueDef) : VRes :=
  let at_queue := Rb_InvalidFormat ("queue." +:+ name) in
  match qdef_list q with
  | None => Err (at_queue "external queue requires 'list' field")
  | Some list =>
      match qdef_take q with
      | None => Err (at_queue "external queue requires 'take' field")
      | Some take =>
          validate_shell_command list ("queue." +:+ name +:+ ".list") ≫= λ _,
          validate_shell_command take ("queue." +:+ name +:+ ".take") ≫= λ _,
          ensure (match qdef_retry q with None => true | Some _ => false end)
            (at_queue "external queue must not have 'retry' field") ≫= λ _,
          match qdef_poll q with
          | Some poll => check_duration ("queue." +:+ name +:+ ".poll") poll
          | None => Ok tt
          end
      end
  end.
Definition check_persisted_queue (name : string) (q : QueueDef) : VRes :=
  let at_queue := Rb_InvalidFormat ("queue." +:+ name) in
  ensure (match qdef_vars q with [] => false | _ => true end)
    (at_queue "persisted queue requires 'vars' field") ≫= λ _,
  ensure (match qdef_list q with None => true | Some _ => false end)
    (at_queue "persisted queue must not have 'list' field") ≫= λ _,
  ensure (match qdef_take q with None => true | Some _ => false end)
    (at_queue "persisted queue must not have 'take' field") ≫= λ _,
  ensure (match qdef_poll q with None => true | Some _ => false end)
    (at_queue "persisted queue must not have 'poll' field") ≫= λ _,
  match qdef_retry q with
  | Some retry => check_duration ("queue." +:+ name +:+ ".retry.cooldown") (retry_cooldown retry)
  | None => Ok tt
  end.
Definition check_queue `{!TemplateRegex} (name : string) (q : QueueDef) : VRes :=
  match qdef_type q with
  | External => check_external_queue name q
  | Persisted => check_persisted_queue name q
  end.

Section Checks.
Context `{TR : !TemplateRegex} `{TC : !TemplateCaptures} `{HO : !HashOrder}.

(** The entries of a map in the order of its iteration. *)
Definition entries {V} (m : gmap string V) : list (string * V) :=
  omap (λ k, (λ v, (k, v)) <$> m !! k) (hash_order (dom m)).

(** The entries sorted by key. *)
Definition sorted_entries {V} (m : gmap string V) : list (string * V) :=
  omap (λ k, (λ v, (k, v)) <$> m !! k) (merge_sort String.le (elements (dom m))).

Definition for_map {V} (f : string → V → VRes) (m : gmap string V) : VRes :=
  each (λ '(k, v), f k v) (entries m).

(** 4. *)
Definition check_command_shell (name : string) (c : CommandDef) : VRes :=
  match command_run c with
  | Run_Shell shell_cmd =>
      let location := "command." +:+ name +:+ ".run" in
      validate_shell_command shell_cmd location ≫= λ _,
      validate_command_template_refs shell_cmd location
  | _ => Ok tt
  end.

Definition check_job_shell (job_name : string) (j : JobDef) : VRes :=
  for_each_i (λ i step,
    match def_run step with
    | Run_Shell shell_cmd =>
        let location := step_location job_name i step +:+ ".run" in
        validate_shell_command shell_cmd location ≫= λ _,
        validate_template_namespaces shell_cmd location
    | _ => Ok tt
    end) 0 (def_steps j) ≫= λ _,
  for_map (λ local_name local_value,
    validate_template_namespaces local_value
      ("job." +:+ job_name +:+ ".locals." +:+ local_name)) (def_locals j).

Definition check_prime_commands (location : string) (cmds : list string) : VRes :=
  for_each_i (λ i cmd,
    validate_shell_command cmd (location +:+ "[" +:+ pretty i +:+ "]")) 0 cmds.

Definition check_prime (name : string) (prime : PrimeDef) : VRes :=
  let location := "agent." +:+ name +:+ ".prime" in
  match prime with
  | Prime_Commands cmds => check_prime_commands location cmds
  | Prime_PerSource defs =>
      for_map (λ source def,
        ensure (listed source VALID_PRIME_SOURCES)
          (Rb_InvalidFormat location
             ("unknown prime source '" +:+ source +:+ "'; valid sources: "
              +:+ String.concat ", " VALID_PRIME_SOURCES)) ≫= λ _,
        match def with
        | Prime_Commands cmds => check_prime_commands (location +:+ "." +:+ source) cmds
        | _ => Ok tt
        end) defs
  | Prime_Script _ => Ok tt
  end.

Definition has_prompt (a : AgentDef) : bool :=
  match agent_prompt a, agent_prompt_file a with None, None => false | _, _ => true end.

Definition check_agent_shell (name : string) (a : AgentDef) : VRes :=
  (if is_empty (agent_run a) then Ok tt
   else
     let run_location := "agent." +:+ name +:+ ".run" in
     validate_shell_command (agent_run a) run_location ≫= λ _,
     validate_agent_command (agent_run a) run_location (has_prompt a)) ≫= λ _,
  match agent_prompt a with
  | Some prompt => validate_template_namespaces prompt ("agent." +:+ name +:+ ".prompt")
  | None => Ok tt
  end ≫= λ _,
  match agent_prime a with Some prime => check_prime name prime | None => Ok tt end.

(** ** [validate_cross_refs] *)

(** A name that must be a key of [m]; [available] lists the keys. *)
Definition check_ref {V} (m : gmap string V) (location what whats name available : string) : VRes :=
  ensure (bool_decide (is_Some (m !! name)))
    (Rb_InvalidFormat location
       ("references unknown " +:+ what +:+ " '" +:+ name +:+ "'; available " +:+ whats +:+ ": "
        +:+ available)).

(** The keys in the order of iteration. *)
Definition keys_listed {V} (m : gmap string V) : string :=
  String.concat ", " (hash_order (dom m)).

Definition check_worker_refs (r : Runbook) (name : string) (w : WorkerDef) : VRes :=
  check_ref (rb_queues r) ("worker." +:+ name +:+ ".source.queue") "queue" "queues"
    (worker_source_queue w) (keys_listed (rb_queues r)) ≫= λ _,
  check_ref (rb_jobs r) ("worker." +:+ name +:+ ".handler.job") "job" "jobs"
    (worker_handler_job w) (keys_listed (rb_jobs r)).

Definition check_cron_refs (r : Runbook) (name : string) (c : CronDef) : VRes :=
  let location := "cron." +:+ name +:+ ".run" in
  match cron_run c with
  | Run_Job job => check_ref (rb_jobs r) location "job" "jobs" job (sorted_keys (rb_jobs r))
  | Run_Agent agent _ =>
      check_ref (rb_agents r) location "agent" "agents" agent (sorted_keys (rb_agents r))
  | Run_Shell _ => Err (Rb_InvalidFormat location "cron run must reference a job or agent")
  end.

(** The agent and the job that a directive names. *)
Definition check_run_refs (r : Runbook) (location : string) (run : RunDirective) : VRes :=
  match directive_agent run with
  | Some agent => check_ref (rb_agents r) location "agent" "agents" agent (sorted_keys (rb_agents r))
  | None => Ok tt
  end ≫= λ _,
  match directive_job run with
  | Some job => check_ref (rb_jobs r) location "job" "jobs" job (sorted_keys (rb_jobs r))
  | None => Ok tt
  end.

Definition check_step_refs (r : Runbook) (job_name : string) (j : JobDef) : VRes :=
  for_each_i (λ i step, check_run_refs r (step_location job_name i step +:+ ".run") (def_run step))
    0 (def_steps j).

Definition check_command_refs (r : Runbook) (name : string) (c : CommandDef) : VRes :=
  check_run_refs r ("command." +:+ name +:+ ".run") (command_run c).

Definition validate_cross_refs (r : Runbook) : VRes :=
  for_map (check_worker_refs r) (rb_workers r) ≫= λ _,
  for_map (check_cron_refs r) (rb_crons r) ≫= λ _,
  for_map (check_step_refs r) (rb_jobs r) ≫= λ _,
  for_map (check_command_refs r) (rb_commands r).

(** ** [parse_runbook_inner] *)

Definition validate_runbook (r : Runbook) (validate_refs : bool) : VRes :=
  for_map check_step_names (rb_jobs r) ≫= λ _,
  for_map check_command_shell (rb_commands r) ≫= λ _,
  for_map check_job_shell (rb_jobs r) ≫= λ _,
  for_map check_agent_shell (rb_agents r) ≫= λ _,
  for_map check_queue (rb_queues r) ≫= λ _,
  for_map check_cron (rb_crons r) ≫= λ _,
  for_map check_concurrency (rb_agents r) ≫= λ _,
  for_map check_color (rb_agents r) ≫= λ _,
  for_map check_triggers (rb_agents r) ≫= λ _,
  for_map check_duplicates (rb_jobs r) ≫= λ _,
  for_map check_transitions (rb_jobs r) ≫= λ _,
  each (λ '(name, j), check_reachable name j) (sorted_entries (rb_jobs r)) ≫= λ _,
  if validate_refs then validate_cross_refs r else Ok tt.

Definition parse_runbook_inner `{!RunbookFormat} (content : string) (format : Format)
    (validate_refs : bool) : Res RunbookError Runbook :=
  match deserialize format content with
  | inl message => Err (Rb_Deserialize format message)
  | inr r =>
      let r := fixup_names r in
      validate_runbook r validate_refs ≫= λ _, Ok r
  end.

Definition parse_runbook_with_format `{!RunbookFormat} (content : string) (format : Format) :
    Res RunbookError Runbook :=
  parse_runbook_inner content format true.

Definition parse_runbook `{!RunbookFormat} (content : string) : Res RunbookError Runbook :=
  parse_runbook_with_format content Format_Toml.

Definition parse_runbook_no_xref `{!RunbookFormat} (content : string) (format : Format) :
    Res RunbookError Runbook :=
  parse_runbook_inner content format false.
End Checks.
