(* ===== verification/RunbookSpec.v ===== *)
(** What the validation of runbooks promises: an accepted runbook is well typed
    in terms of the look-ups of the runtime, validation always ends, and the
    order in which hash maps are checked does not decide what is accepted. *)

From S2P Require Import Prelude Bytes Slug Vars Runbook WorkerQueue ShellAst ShellLexer ShellParser.
From S2P Require Import ShellParserSpec ShellValidate RunbookParse.

Local Open Scope string_scope.

(** ** Sound checks

    [sound P r]: the check ends, and [P] holds if it passes. *)

Definition sound {E A} (P : A → Prop) (r : Res E A) : Prop := post P (λ _, True) r.

Lemma sound_bind {E A B} (P : A → Prop) (Q : B → Prop) (r : Res E A) (f : A → Res E B) :
  sound P r → (∀ a, P a → sound Q (f a)) → sound Q (r ≫= f).
Proof. intros H Hf. apply post_bind. by eapply post_mono. Qed.

Lemma sound_then {E} (P Q : Prop) (r s : Res E unit) :
  sound (λ _, P) r → sound (λ _, Q) s → sound (λ _, P ∧ Q) (r ≫= λ _, s).
Proof.
  intros Hr Hs. eapply sound_bind; [exact Hr |]. intros u Hp.
  eapply post_mono; [exact Hs | done | done].
Qed.

Lemma sound_weaken {E A} (P Q : A → Prop) (r : Res E A) :
  sound P r → (∀ a, P a → Q a) → sound Q r.
Proof. intros H HPQ. by eapply post_mono. Qed.

Lemma sound_any {E A} (P : A → Prop) (r : Res E A) : sound P r → sound (λ _, True) r.
Proof. intros H. by eapply sound_weaken. Qed.

Lemma sound_map_err {E F A} (P : A → Prop) (f : E → F) (r : Res E A) :
  sound P r → sound P (map_err f r).
Proof. by destruct r. Qed.

Lemma ensure_sound {E} b (e : E) : sound (λ _, b = true) (ensure b e).
Proof. by destruct b. Qed.

Lemma ensure_ok {E} b (e : E) : ensure b e = Ok tt ↔ b = true.
Proof. by destruct b. Qed.

Lemma for_each_sound {E A} (P : A → Prop) (f : A → Res E unit) l :
  (∀ x, x ∈ l → sound (λ _, P x) (f x)) → sound (λ _, Forall P l) (each f l).
Proof.
  intros H. induction l as [|x l IH]; [constructor |]. simpl.
  eapply sound_bind; [apply H; by left |]. intros u Hx.
  eapply sound_weaken; [apply IH; intros y Hy; apply H; by right |]. intros u' Hl. by constructor.
Qed.

Lemma for_each_i_sound {E A} (P : A → Prop) (f : nat → A → Res E unit) i l :
  (∀ j x, x ∈ l → sound (λ _, P x) (f j x)) → sound (λ _, Forall P l) (for_each_i f i l).
Proof.
  revert i. induction l as [|x l IH]; intros i H; [constructor |]. simpl.
  eapply sound_bind; [apply H; by left |]. intros u Hx.
  eapply sound_weaken; [apply IH; intros j y Hy; apply H; by right |]. intros u' Hl. by constructor.
Qed.

Lemma listed_spec x l : listed x l = true ↔ x ∈ l.
Proof.
  unfold listed. rewrite existsb_exists. split.
  - intros (y & Hin & ->%String.eqb_eq). by apply list_elem_of_In.
  - intros Hx. exists x. split; [by apply list_elem_of_In | by apply String.eqb_eq].
Qed.

(** ** Maps *)

Section Maps.
Context `{HO : !HashOrder}.

Lemma entries_spec {V} (m : gmap string V) k v : (k, v) ∈ entries m ↔ m !! k = Some v.
Proof.
  unfold entries. rewrite list_elem_of_omap. split.
  - intros (k' & _ & H). destruct (m !! k') as [v'|] eqn:E; [| done]. simpl in H. by simplify_eq.
  - intros H. exists k. rewrite H. split; [| done].
    rewrite (hash_order_perm (dom m)). apply elem_of_elements, elem_of_dom. by exists v.
Qed.

Lemma sorted_entries_spec {V} (m : gmap string V) k v : (k, v) ∈ sorted_entries m ↔ m !! k = Some v.
Proof.
  unfold sorted_entries. rewrite list_elem_of_omap. split.
  - intros (k' & _ & H). destruct (m !! k') as [v'|] eqn:E; [| done]. simpl in H. by simplify_eq.
  - intros H. exists k. rewrite H. split; [| done].
    rewrite merge_sort_Permutation. apply elem_of_elements, elem_of_dom. by exists v.
Qed.

Lemma for_map_sound {V} (P : string → V → Prop) f (m : gmap string V) :
  (∀ k v, m !! k = Some v → sound (λ _, P k v) (f k v)) →
  sound (λ _, map_Forall P m) (for_map f m).
Proof.
  intros H. unfold for_map.
  eapply sound_weaken; [apply (for_each_sound (λ '(k, v), P k v)) |].
  - intros [k v] Hin%entries_spec. by apply H.
  - intros u Hall k v Hkv.
    apply (proj1 (Forall_forall _ _) Hall (k, v)). by apply entries_spec.
Qed.
End Maps.

(** ** Shell commands *)

Section Shell.
Context `{TR : !TemplateRegex} `{TC : !TemplateCaptures}.

Lemma parse_sound s : sound (λ _, True) (parse s).
Proof. eapply post_mono; [apply parse_post | done | done]. Qed.

Lemma validate_shell_command_sound command location :
  sound (λ _, True) (validate_shell_command command location).
Proof.
  unfold validate_shell_command. cbv zeta.
  eapply sound_bind; [apply sound_map_err, parse_sound |]. intros ast _. by destruct (validate ast).
Qed.

Lemma for_each_any {E A} (f : A → Res E unit) l :
  (∀ x, sound (λ _, True) (f x)) → sound (λ _, True) (each f l).
Proof. intros H. eapply sound_any, (for_each_sound (λ _, True)). intros x _. apply H. Qed.

Lemma for_each_i_any {E A} (f : nat → A → Res E unit) i l :
  (∀ j x, sound (λ _, True) (f j x)) → sound (λ _, True) (for_each_i f i l).
Proof. intros H. eapply sound_any, (for_each_i_sound (λ _, True)). intros j x _. apply H. Qed.

Lemma validate_template_namespaces_sound template location :
  sound (λ _, True) (validate_template_namespaces template location).
Proof.
  apply for_each_any. intros x. destruct (split_once _ x) as [[ns rest]|]; [| done].
  eapply sound_any, ensure_sound.
Qed.

Lemma validate_command_template_refs_sound command location :
  sound (λ _, True) (validate_command_template_refs command location).
Proof.
  apply for_each_any. intros x. eapply sound_bind.
  - apply for_each_any. intros [prefix hint]. eapply sound_any, ensure_sound.
  - intros _ _. eapply sound_any, ensure_sound.
Qed.

Lemma validate_agent_command_sound command location has_prompt :
  sound (λ _, True) (validate_agent_command command location has_prompt).
Proof.
  unfold validate_agent_command. cbv zeta.
  eapply sound_bind; [apply sound_map_err, parse_sound |]. intros ast _.
  destruct (first_simple ast) as [c|]; [| done].
  destruct (first_literal _) as [name|]; [| done].
  eapply sound_bind; [apply ensure_sound |]. intros _ _.
  eapply sound_bind; [apply ensure_sound |]. intros _ _. eapply sound_any, ensure_sound.
Qed.
End Shell.

(** ** Durations *)

Lemma multiplier_list suffix :
  listed suffix
    [""; "s"; "sec"; "secs"; "second"; "seconds"; "ms"; "millis"; "millisecond";
     "milliseconds"; "m"; "min"; "mins"; "minute"; "minutes"; "h"; "hr"; "hrs";
     "hour"; "hours"; "d"; "day"; "days"] = true
  ↔ is_millis suffix = true ∨ is_Some (multiplier suffix).
Proof.
  unfold listed, is_millis, multiplier. simpl.
  repeat match goal with |- context [String.eqb suffix ?x] =>
    let E := fresh in destruct (String.eqb_spec suffix x) as [E|E]; [try rewrite E; simpl; naive_solver |]
  end.
  simpl. split; [done |]. by intros [?|[? ?]].
Qed.

Lemma duration_agrees (s : string) :
  (∃ d, parse_duration s = inr d) ↔ validate_duration_str s = Ok tt.
Proof.
  unfold validate_duration_str, parse_duration. cbv zeta.
  destruct (is_empty (trim s)); [split; [by intros [d H] | done] |].
  destruct (split_digits (trim s)) as [num suffix].
  destruct (parse_u64 num) as [n|]; [| split; [by intros [d H] | done]].
  pose proof (multiplier_list (trim suffix)) as Hm.
  destruct (listed _ _).
  - split; [done | intros _]. destruct (proj1 Hm eq_refl) as [->|[m Hs]]; [by eexists |].
    destruct (is_millis _); [by eexists |]. rewrite Hs. by eexists.
  - split; [| done]. intros [d H]. destruct (is_millis (trim suffix)) eqn:Ei.
    + by assert (false = true) by (apply Hm; by left).
    + destruct (multiplier (trim suffix)) as [m|] eqn:Em; [| done].
      by assert (false = true) by (apply Hm; right; by eexists).
Qed.

(** A duration that validation accepts is a duration at run time, and the other
    way round: the check of the parser and the reader of the engine agree on
    every text. *)
Theorem durations_agree (s : string) :
  validate_duration_str s = Ok tt ↔ ∃ d, parse_duration s = inr d.
Proof. symmetry. apply duration_agrees. Qed.

(** ** Well-typed runbooks *)

(** A duration the runtime can read. *)
Definition readable (s : string) : Prop := ∃ d, parse_duration s = inr d.

(** Every transition of [ts] leads to a step of the job. *)
Definition leads_to_step (j : JobDef) (ts : list (string * option StepTransition)) : Prop :=
  ∀ name, name ∈ named_steps ts → is_Some (get_step name j).

(** The agent and the job that a directive names are defined. *)
Definition run_resolves (r : Runbook) (run : RunDirective) : Prop :=
  match run with
  | Run_Shell _ => True
  | Run_Job job => is_Some (get_job_def job r)
  | Run_Agent agent _ => is_Some (get_agent agent r)
  end.

Record job_typed (r : Runbook) (name : string) (j : JobDef) : Prop := {
  jt_kind : def_kind j = name;
  jt_named : Forall (λ s, def_step_name s ≠ "") (def_steps j);
  jt_unique : NoDup (step_names j);
  jt_transitions : leads_to_step j (job_transitions j);
  jt_step_transitions : Forall (λ s, leads_to_step j (step_transitions s)) (def_steps j);
  jt_reachable : Forall (λ s, def_step_name s ∈ referenced_steps j) (drop 1 (def_steps j));
  jt_runs : Forall (λ s, run_resolves r (def_run s)) (def_steps j)
}.

Record agent_typed (name : string) (a : AgentDef) : Prop := {
  at_name : agent_def_name a = name;
  at_concurrency : agent_max_concurrency a ≠ Some 0%Z;
  at_on_idle : is_valid_for_trigger (config_action (agent_on_idle a)) OnIdle = true;
  at_on_dead : is_valid_for_trigger (config_action (agent_on_dead a)) OnDead = true;
  at_on_prompt : is_valid_for_trigger (config_action (agent_on_prompt a)) OnPrompt = true;
  at_on_error : ∀ e, is_valid_for_trigger (config_action (action_for (agent_on_error a) e)) OnError = true
}.

(** What a queue of either type has and has not. *)
Definition queue_typed (name : string) (q : QueueDef) : Prop :=
  qdef_name q = name ∧
  match qdef_type q with
  | External =>
      is_Some (qdef_list q) ∧ is_Some (qdef_take q) ∧ qdef_retry q = None ∧
      (∀ poll, qdef_poll q = Some poll → readable poll)
  | Persisted =>
      qdef_vars q ≠ [] ∧ qdef_list q = None ∧ qdef_take q = None ∧ qdef_poll q = None ∧
      (∀ retry, qdef_retry q = Some retry → readable (retry_cooldown retry))
  end.

Definition worker_typed (r : Runbook) (name : string) (w : WorkerDef) : Prop :=
  worker_def_name w = name ∧ is_Some (get_queue (worker_source_queue w) r) ∧
  is_Some (get_job_def (worker_handler_job w) r).

Definition cron_typed (r : Runbook) (name : string) (c : CronDef) : Prop :=
  cron_def_name c = name ∧ readable (cron_interval c) ∧
  match cron_run c with Run_Shell _ => False | run => run_resolves r run end.

Record runbook_typed (r : Runbook) : Prop := {
  rt_jobs : map_Forall (job_typed r) (rb_jobs r);
  rt_agents : map_Forall agent_typed (rb_agents r);
  rt_queues : map_Forall queue_typed (rb_queues r);
  rt_workers : map_Forall (worker_typed r) (rb_workers r);
  rt_crons : map_Forall (cron_typed r) (rb_crons r);
  rt_commands : map_Forall (λ name c, command_name c = name ∧ run_resolves r (command_run c))
                  (rb_commands r)
}.

(** ** Every check *)

Lemma validate_duration_total s : validate_duration_str s ≠ NoFuel.
Proof.
  unfold validate_duration_str. cbv zeta. destruct (is_empty _); [done |].
  destruct (split_digits _) as [num suffix]. destruct (parse_u64 num); [| done].
  by destruct (listed _ _).
Qed.

Lemma check_duration_sound location s : sound (λ _, readable s) (check_duration location s).
Proof.
  unfold check_duration. pose proof (validate_duration_total s) as Ht.
  pose proof (proj2 (duration_agrees s)) as Hr.
  destruct (validate_duration_str s) as [[]|e|]; [by apply Hr | done | done].
Qed.

Lemma check_step_names_sound name j :
  sound (λ _, Forall (λ s, def_step_name s ≠ "") (def_steps j)) (check_step_names name j).
Proof.
  apply for_each_i_sound. intros i s _. eapply sound_weaken; [apply ensure_sound |].
  intros u H. by destruct (def_step_name s).
Qed.

Lemma check_duplicates_from_sound name i seen steps :
  sound (λ _, NoDup (def_step_name <$> steps) ∧ Forall (λ s, def_step_name s ∉ seen) steps)
    (check_duplicates_from name i seen steps).
Proof.
  revert i seen. induction steps as [|s steps IH]; intros i seen; simpl; [split; constructor |].
  eapply sound_bind; [apply ensure_sound |]. intros u Hs.
  eapply sound_weaken; [apply IH |]. intros u' [Hnd Hall].
  assert (def_step_name s ∉ seen) as Hns.
  { intros Hin%listed_spec. by rewrite Hin in Hs. }
  assert (def_step_name s ∉ def_step_name <$> steps) as Hns'.
  { intros (s' & Heq & Hin)%list_elem_of_fmap.
    apply (proj1 (Forall_forall _ _) Hall s' Hin). rewrite <- Heq. by left. }
  split; [by constructor |]. constructor; [done |].
  eapply Forall_impl; [exact Hall |]. set_solver.
Qed.

Lemma get_step_known name j : name ∈ step_names j → is_Some (get_step name j).
Proof.
  unfold step_names, get_step. intros (s & -> & Hin)%list_elem_of_fmap.
  destruct (List.find _ _) as [s'|] eqn:E; [by eexists |].
  eapply List.find_none in E; [| by apply list_elem_of_In]. by rewrite String.eqb_refl in E.
Qed.

Lemma check_transitions_list_sound names location ts j :
  names = step_names j →
  sound (λ _, leads_to_step j ts) (each (check_transition names location) ts).
Proof.
  intros ->. eapply sound_weaken;
    [apply (for_each_sound (λ '(_, t), ∀ t', t = Some t' → transition_step t' ∈ step_names j)) |].
  - intros [field [t|]] _; simpl; [| by intros].
    eapply sound_weaken; [apply ensure_sound |]. intros u Ht t' [= <-]. by apply listed_spec.
  - intros u Hall name Hin. unfold named_steps in Hin.
    apply list_elem_of_omap in Hin as ([field [t|]] & Hin & [= <-]).
    apply get_step_known. by apply (proj1 (Forall_forall _ _) Hall _ Hin).
Qed.

Lemma check_transitions_sound name j :
  sound (λ _, leads_to_step j (job_transitions j) ∧
              Forall (λ s, leads_to_step j (step_transitions s)) (def_steps j))
    (check_transitions name j).
Proof.
  unfold check_transitions. cbv zeta. apply sound_then; [by apply check_transitions_list_sound |].
  apply for_each_i_sound. intros i s _. by apply check_transitions_list_sound.
Qed.

Lemma check_reachable_sound name j :
  sound (λ _, Forall (λ s, def_step_name s ∈ referenced_steps j) (drop 1 (def_steps j)))
    (check_reachable name j).
Proof.
  unfold check_reachable. destruct (Nat.leb_spec (length (def_steps j)) 1) as [Hl|Hl].
  - simpl. destruct (def_steps j) as [|s [|s' steps]]; simpl in *; [constructor.. | lia].
  - apply for_each_sound. intros s _. eapply sound_weaken; [apply ensure_sound |].
    intros u H. by apply listed_spec.
Qed.

Lemma check_triggers_sound name a :
  sound (λ _, is_valid_for_trigger (config_action (agent_on_idle a)) OnIdle = true ∧
              is_valid_for_trigger (config_action (agent_on_dead a)) OnDead = true ∧
              is_valid_for_trigger (config_action (agent_on_prompt a)) OnPrompt = true ∧
              ∀ e, is_valid_for_trigger (config_action (action_for (agent_on_error a) e)) OnError = true)
    (check_triggers name a).
Proof.
  unfold check_triggers. repeat (apply sound_then; [apply ensure_sound |]).
  eapply sound_weaken; [apply (for_each_sound (λ x, is_valid_for_trigger x OnError = true)) |].
  - intros x _. apply ensure_sound.
  - intros u Hall e. pose proof (proj1 (Forall_forall _ _) Hall) as Hin. clear Hall. rename Hin into Hall.
    destruct (agent_on_error a) as [config|ms]; simpl in *; [apply Hall; by left |].
    destruct (List.find _ ms) as [m|] eqn:E; [| done]. apply Hall, list_elem_of_fmap.
    exists m. split; [done |]. apply List.find_some in E as [Hin _]. by apply list_elem_of_In.
Qed.

Lemma check_concurrency_sound name a :
  sound (λ _, agent_max_concurrency a ≠ Some 0%Z) (check_concurrency name a).
Proof.
  unfold check_concurrency. destruct (agent_max_concurrency a) as [m|]; [| done].
  eapply sound_weaken; [apply ensure_sound |]. intros u H [= ->]. done.
Qed.

Lemma check_color_sound name a : sound (λ _, True) (check_color name a).
Proof.
  unfold check_color. destruct (_ ≫= tmux_color); [| done]. eapply sound_any, ensure_sound.
Qed.

Section ChecksSpec.
Context `{TR : !TemplateRegex} `{TC : !TemplateCaptures} `{HO : !HashOrder}.

Lemma check_queue_sound name q : qdef_name q = name → sound (λ _, queue_typed name q) (check_queue name q).
Proof.
  intros Hn. unfold check_queue, queue_typed. destruct (qdef_type q).
  - unfold check_external_queue. cbv zeta.
    destruct (qdef_list q); [| done]. destruct (qdef_take q); [| done].
    eapply sound_bind; [apply validate_shell_command_sound |]. intros _ _.
    eapply sound_bind; [apply validate_shell_command_sound |]. intros _ _.
    eapply sound_bind; [apply ensure_sound |]. intros u Hr.
    destruct (qdef_retry q); [done |]. destruct (qdef_poll q) as [poll|].
    + eapply sound_weaken; [apply check_duration_sound |]. intros u' Hd.
      split_and!; try done. by intros p [= <-].
    + simpl. split_and!; try done.
  - unfold check_persisted_queue. cbv zeta.
    eapply sound_bind; [apply ensure_sound |]. intros u1 H1.
    eapply sound_bind; [apply ensure_sound |]. intros u2 H2.
    eapply sound_bind; [apply ensure_sound |]. intros u3 H3.
    eapply sound_bind; [apply ensure_sound |]. intros u4 H4.
    destruct (qdef_vars q) eqn:Ev; [done |]. destruct (qdef_list q); [done |].
    destruct (qdef_take q); [done |]. destruct (qdef_poll q); [done |].
    destruct (qdef_retry q) as [retry|].
    + eapply sound_weaken; [apply check_duration_sound |]. intros u' Hd.
      split_and!; try done. by intros r [= <-].
    + simpl. split_and!; done.
Qed.

Lemma check_command_shell_sound name c : sound (λ _, True) (check_command_shell name c).
Proof.
  unfold check_command_shell. destruct (command_run c); [| done..].
  eapply sound_bind; [apply validate_shell_command_sound |]. intros _ _.
  apply validate_command_template_refs_sound.
Qed.

Lemma for_map_any {V} (f : string → V → Res RunbookError unit) (m : gmap string V) :
  (∀ k v, sound (λ _, True) (f k v)) → sound (λ _, True) (for_map f m).
Proof. intros H. eapply sound_any, (for_map_sound (λ _ _, True)). intros k v _. apply H. Qed.

Lemma check_job_shell_sound name j : sound (λ _, True) (check_job_shell name j).
Proof.
  unfold check_job_shell. eapply sound_bind.
  - apply for_each_i_any. intros i s. destruct (def_run s); [| done..].
    eapply sound_bind; [apply validate_shell_command_sound |]. intros _ _.
    apply validate_template_namespaces_sound.
  - intros _ _. apply for_map_any. intros k v. apply validate_template_namespaces_sound.
Qed.

Lemma check_prime_sound name p : sound (λ _, True) (check_prime name p).
Proof.
  assert (∀ location cmds, sound (λ _, True) (check_prime_commands location cmds)) as Hc.
  { intros location cmds. apply for_each_i_any. intros i c. apply validate_shell_command_sound. }
  destruct p as [| |defs]; simpl; [done | apply Hc |].
  apply for_map_any. intros k d. eapply sound_bind; [apply ensure_sound |].
  intros _ _. destruct d; [done | apply Hc | done].
Qed.

Lemma check_agent_shell_sound name a : sound (λ _, True) (check_agent_shell name a).
Proof.
  unfold check_agent_shell. eapply sound_bind.
  { destruct (is_empty _); [by instantiate (1 := λ _, True) |].
    eapply sound_bind; [apply validate_shell_command_sound |]. intros _ _.
    apply validate_agent_command_sound. }
  intros _ _. eapply sound_bind.
  { destruct (agent_prompt a); [apply validate_template_namespaces_sound | done]. }
  intros _ _. destruct (agent_prime a); [apply check_prime_sound | done].
Qed.

Lemma check_ref_sound {V} (m : gmap string V) location what whats name available :
  sound (λ _, is_Some (m !! name)) (check_ref m location what whats name available).
Proof.
  eapply sound_weaken; [apply ensure_sound |]. intros u Hb. by apply bool_decide_eq_true in Hb.
Qed.

Lemma check_run_refs_sound r location run :
  sound (λ _, run_resolves r run) (check_run_refs r location run).
Proof.
  unfold check_run_refs. destruct run as [|job|agent attach]; simpl; [done | |].
  - apply check_ref_sound.
  - eapply sound_bind; [apply check_ref_sound |]. by intros u Hr.
Qed.

(** What the references between entities add. *)
Definition refs_resolve (r : Runbook) : Prop :=
  map_Forall (λ _ w, is_Some (get_queue (worker_source_queue w) r) ∧
                     is_Some (get_job_def (worker_handler_job w) r)) (rb_workers r) ∧
  map_Forall (λ _ c, match cron_run c with
                     | Run_Shell _ => False
                     | run => run_resolves r run
                     end) (rb_crons r) ∧
  map_Forall (λ _ j, Forall (λ s, run_resolves r (def_run s)) (def_steps j)) (rb_jobs r) ∧
  map_Forall (λ _ c, run_resolves r (command_run c)) (rb_commands r).

Lemma validate_cross_refs_sound r : sound (λ _, refs_resolve r) (validate_cross_refs r).
Proof.
  unfold validate_cross_refs. apply sound_then; [| apply sound_then; [| apply sound_then]];
    apply for_map_sound; intros name x _.
  - apply sound_then; apply check_ref_sound.
  - unfold check_cron_refs. cbv zeta. destruct (cron_run x); [done | apply check_ref_sound..].
  - apply for_each_i_sound. intros i s _. apply check_run_refs_sound.
  - apply check_run_refs_sound.
Qed.

(** The names of the entities are their keys. *)
Definition names_fixed (r : Runbook) : Prop :=
  map_Forall (λ name j, def_kind j = name) (rb_jobs r) ∧
  map_Forall (λ name a, agent_def_name a = name) (rb_agents r) ∧
  map_Forall (λ name q, qdef_name q = name) (rb_queues r) ∧
  map_Forall (λ name w, worker_def_name w = name) (rb_workers r) ∧
  map_Forall (λ name c, cron_def_name c = name) (rb_crons r) ∧
  map_Forall (λ name c, command_name c = name) (rb_commands r).

Lemma fixup_names_fixed r : names_fixed (fixup_names r).
Proof.
  split_and!; intros name x H; simpl in H; rewrite map_lookup_imap in H;
    match type of H with (?m !! _ ≫= _) = _ => destruct (m !! name); [| done] end;
    simpl in H; by simplify_eq.
Qed.

(** What validation without references establishes. *)
Record locally_typed (r : Runbook) : Prop := {
  lt_step_names : map_Forall (λ _ j, Forall (λ s, def_step_name s ≠ "") (def_steps j)) (rb_jobs r);
  lt_duplicates : map_Forall (λ _ j, NoDup (step_names j)) (rb_jobs r);
  lt_transitions : map_Forall (λ _ j, leads_to_step j (job_transitions j) ∧
                     Forall (λ s, leads_to_step j (step_transitions s)) (def_steps j)) (rb_jobs r);
  lt_reachable : map_Forall (λ _ j, Forall (λ s, def_step_name s ∈ referenced_steps j)
                                      (drop 1 (def_steps j))) (rb_jobs r);
  lt_agents : map_Forall agent_typed (rb_agents r);
  lt_queues : map_Forall queue_typed (rb_queues r);
  lt_crons : map_Forall (λ _ c, readable (cron_interval c)) (rb_crons r)
}.

Lemma validate_runbook_sound r refs :
  names_fixed r →
  sound (λ _, locally_typed r ∧ (refs = true → refs_resolve r)) (validate_runbook r refs).
Proof.
  intros (Hj & Ha & Hq & Hw & Hc & Hcmd). unfold validate_runbook.
  eapply sound_bind; [apply for_map_sound; intros; apply check_step_names_sound |]. intros u1 H1.
  eapply sound_bind; [apply for_map_any; intros; apply check_command_shell_sound |]. intros _ _.
  eapply sound_bind; [apply for_map_any; intros; apply check_job_shell_sound |]. intros _ _.
  eapply sound_bind; [apply for_map_any; intros; apply check_agent_shell_sound |]. intros _ _.
  eapply sound_bind; [apply for_map_sound; intros k q Hk; by apply check_queue_sound, Hq |].
  intros u5 H5.
  eapply sound_bind; [apply (for_map_sound (λ _ c, readable (cron_interval c)));
                      intros; apply check_duration_sound |]. intros u6 H6.
  eapply sound_bind; [apply for_map_sound; intros; apply check_concurrency_sound |]. intros u7 H7.
  eapply sound_bind; [apply for_map_any; intros; apply check_color_sound |]. intros _ _.
  eapply sound_bind; [apply for_map_sound; intros; apply check_triggers_sound |]. intros u9 H9.
  eapply sound_bind; [apply (for_map_sound (λ _ j, NoDup (step_names j))); intros k j _;
    eapply sound_weaken; [apply check_duplicates_from_sound |]; by intros u [Hd _] |].
  intros u10 H10.
  eapply sound_bind; [apply for_map_sound; intros; apply check_transitions_sound |].
  intros u11 H11.
  eapply sound_bind.
  { apply (for_each_sound (λ '(_, j), Forall (λ s, def_step_name s ∈ referenced_steps j)
                                        (drop 1 (def_steps j)))).
    intros [k j] _. apply check_reachable_sound. }
  intros u12 H12.
  assert (locally_typed r) as Hl.
  { split; try done.
    - intros k j Hk. apply (proj1 (Forall_forall _ _) H12 (k, j)). by apply sorted_entries_spec.
    - intros k a Hk. destruct (H9 k a Hk) as (? & ? & ? & ?). split; try done.
      + by apply Ha.
      + by apply (H7 k). }
  destruct refs; [| done].
  eapply sound_weaken; [apply validate_cross_refs_sound |]. by intros u Hr.
Qed.

(** Well typed from its parts. *)
Lemma runbook_typed_intro r : names_fixed r → locally_typed r → refs_resolve r → runbook_typed r.
Proof.
  intros (Hj & Ha & Hq & Hw & Hc & Hcmd) [] (Rw & Rc & Rj & Rcmd).
  split; try done.
  - intros k j Hk. destruct (lt_transitions0 k j Hk).
    split; [by apply Hj | by eapply lt_step_names0 | by eapply lt_duplicates0 | done | done
           | by eapply lt_reachable0 | by eapply Rj].
  - intros k w Hk. split; [by apply Hw | by eapply Rw].
  - intros k c Hk. split_and!; [by apply Hc | by eapply lt_crons0 | by apply (Rc k c Hk)].
  - intros k c Hk. split; [by apply Hcmd | by eapply Rcmd].
Qed.

Context `{RF : !RunbookFormat}.

Lemma parse_runbook_inner_sound content format refs :
  sound (λ r, names_fixed r ∧ locally_typed r ∧ (refs = true → refs_resolve r))
    (parse_runbook_inner content format refs).
Proof.
  unfold parse_runbook_inner. destruct (deserialize format content) as [message|r0]; [done |].
  cbv zeta. pose proof (fixup_names_fixed r0) as Hn.
  eapply sound_bind; [by apply validate_runbook_sound |]. intros u [Hl Hr]. by split.
Qed.

(** Parsing a runbook always ends, and what it accepts is well typed: the steps
    of a job have distinct names, each but the first is named by a transition,
    every transition leads to a step the runtime finds, and every agent, job
    and queue that is named is found; queues have what their type needs,
    durations can be read, and the actions of agents fit their triggers for
    every error. *)
Theorem parsed_runbook_well_typed content format :
  match parse_runbook_with_format content format with
  | Ok r => runbook_typed r
  | Err _ => True
  | NoFuel => False
  end.
Proof.
  pose proof (parse_runbook_inner_sound content format true) as H.
  unfold parse_runbook_with_format. destruct (parse_runbook_inner content format true); try done.
  destruct H as (Hn & Hl & Hr). apply runbook_typed_intro; auto.
Qed.
End ChecksSpec.

(** ** The order of hash maps *)

(** Two checks that accept the same. *)
Definition same_verdict {E} (r1 r2 : Res E unit) : Prop := r1 = Ok tt ↔ r2 = Ok tt.

#[export] Instance same_verdict_equiv {E} : Equivalence (@same_verdict E).
Proof. split; unfold same_verdict; [by intros r | by intros r1 r2 H | by intros r1 r2 r3 -> ->]. Qed.

Lemma bind_ok_iff {E} (r s : Res E unit) : (r ≫= λ _, s) = Ok tt ↔ r = Ok tt ∧ s = Ok tt.
Proof. destruct r as [[]|e|]; simpl; [naive_solver | | ]; split; (discriminate || by intros []). Qed.

Lemma same_bind {E} (r1 r2 s1 s2 : Res E unit) :
  same_verdict r1 r2 → same_verdict s1 s2 → same_verdict (r1 ≫= λ _, s1) (r2 ≫= λ _, s2).
Proof. unfold same_verdict. rewrite !bind_ok_iff. naive_solver. Qed.

Lemma same_ensure {E} b (e1 e2 : E) : same_verdict (ensure b e1) (ensure b e2).
Proof. unfold same_verdict. by rewrite !ensure_ok. Qed.

Lemma for_each_ok {E A} (f : A → Res E unit) l :
  each f l = Ok tt ↔ Forall (λ x, f x = Ok tt) l.
Proof.
  induction l as [|x l IH]; simpl; [by split; [constructor |] |].
  by rewrite bind_ok_iff, IH, Forall_cons.
Qed.

Lemma for_map_ok (o : HashOrder) {V} (f : string → V → Res RunbookError unit) m :
  for_map (HO := o) f m = Ok tt ↔ map_Forall (λ k v, f k v = Ok tt) m.
Proof.
  unfold for_map. rewrite for_each_ok, Forall_forall. split.
  - intros H k v Hk. apply (H (k, v)). by apply entries_spec.
  - intros H [k v] Hin%entries_spec. by apply H.
Qed.

Lemma same_for_map (o1 o2 : HashOrder) {V} (f1 f2 : string → V → Res RunbookError unit) m :
  (∀ k v, same_verdict (f1 k v) (f2 k v)) →
  same_verdict (for_map (HO := o1) f1 m) (for_map (HO := o2) f2 m).
Proof.
  intros H. unfold same_verdict. rewrite !for_map_ok.
  split; intros Hall k v Hk; apply (H k v), Hall, Hk.
Qed.

Lemma same_for_each_i {E A} (f1 f2 : nat → A → Res E unit) i l :
  (∀ j x, same_verdict (f1 j x) (f2 j x)) →
  same_verdict (for_each_i f1 i l) (for_each_i f2 i l).
Proof.
  intros H. revert i. induction l as [|x l IH]; intros i; simpl; [done |]. by apply same_bind.
Qed.

Section Order.
Context `{TR : !TemplateRegex} `{TC : !TemplateCaptures} `{RF : !RunbookFormat}.
Context (o1 o2 : HashOrder).

Lemma check_agent_shell_order name a :
  same_verdict (check_agent_shell (HO := o1) name a)
               (check_agent_shell (HO := o2) name a).
Proof.
  unfold check_agent_shell. apply same_bind; [done |]. apply same_bind; [done |].
  destruct (agent_prime a) as [[| |defs]|]; [done.. | | done]. simpl. by apply same_for_map.
Qed.

Lemma validate_cross_refs_order r :
  same_verdict (validate_cross_refs (HO := o1) r) (validate_cross_refs (HO := o2) r).
Proof.
  unfold validate_cross_refs. repeat apply same_bind; apply same_for_map; intros k x; try done.
  apply same_bind; apply same_ensure.
Qed.

Lemma validate_runbook_order r refs :
  same_verdict (validate_runbook (HO := o1) r refs)
               (validate_runbook (HO := o2) r refs).
Proof.
  unfold validate_runbook. repeat apply same_bind; try (by apply same_for_map); try done.
  - apply same_for_map. intros k j. apply same_bind; [done |]. by apply same_for_map.
  - apply same_for_map. apply check_agent_shell_order.
  - destruct refs; [apply validate_cross_refs_order | done].
Qed.

(** Whether a runbook is accepted, and as what, does not depend on the order
    in which hash maps are iterated; only the first error found does. *)
Theorem acceptance_order_independent content format r :
  parse_runbook_with_format (HO := o1) content format = Ok r
  ↔ parse_runbook_with_format (HO := o2) content format = Ok r.
Proof.
  unfold parse_runbook_with_format, parse_runbook_inner.
  destruct (deserialize format content) as [message|r0]; [done |]. cbv zeta.
  pose proof (validate_runbook_order (fixup_names r0) true) as [H1 H2].
  destruct (validate_runbook (HO := o1) (fixup_names r0) true) as [[]|e|] eqn:E1,
    (validate_runbook (HO := o2) (fixup_names r0) true) as [[]|e'|] eqn:E2;
    simpl; try done; (by specialize (H1 eq_refl)) || (by specialize (H2 eq_refl)).
Qed.
End Order.

(** ** A runbook that is accepted *)

Definition plain_order : HashOrder := {|
  hash_order := λ X, elements X;
  hash_order_perm := λ X, Permutation_refl _
|}.

(** Patterns that match nothing. *)
Definition no_patterns : TemplateRegex := {|
  replace_env := λ _ s, s;
  replace_var := λ _ s, s
|}.
Definition no_captures : TemplateCaptures := {| captures := λ _, [] |}.

Definition sample_steps : list StepDef :=
  [mkStepDef "compile" (Run_Shell "make all && echo ok | tee log") (Some (mkStepTransition "review"))
     None None;
   mkStepDef "review" (Run_Agent "coder" None) None (Some (mkStepTransition "compile")) None].

Definition sample_job : JobDef :=
  mkJobDef "" None [] ∅ None None None None None ∅ (mkNotifyConfig None None None) sample_steps.

(** Its cooldown is no duration. *)
Definition sample_nudge : ActionConfig :=
  Config_WithOptions Act_Nudge (Some "go on") false None (Finite 3) (Some "soon").

Definition sample_agent : AgentDef :=
  mkAgentDef "" "claude --model haiku" (Some "review it") None ∅ None None sample_nudge
    ActionConfig_default ActionConfig_default (Error_ByType []) None (Some 2%Z)
    (mkNotifyConfig None None None) ∅.

Definition sample_queue : QueueDef :=
  mkQueueDef "" External (Some "gh issue list") (Some "gh issue edit") [] ∅ None (Some "30s").

Definition sample_runbook : Runbook :=
  mkRunbook ∅ ∅ {["ship" := mkCommandDef "" None (mkArgSpec [] [] [] None) ∅ (Run_Job "build")]}
    {["build" := sample_job]} {["coder" := sample_agent]} {["issues" := sample_queue]}
    {["fixer" := mkWorkerDef "" "issues" "build" 1]}
    {["nightly" := mkCronDef "" "1d" (Run_Job "build") None]}.

Definition sample_format : RunbookFormat := {| deserialize := λ _ _, inr sample_runbook |}.

#[local] Existing Instances plain_order no_patterns no_captures sample_format.

Lemma sample_accepted :
  parse_runbook_with_format "" Format_Toml = Ok (fixup_names sample_runbook).
Proof. vm_compute. reflexivity. Qed.

Lemma parsed_runbook_well_typed_witness :
  parse_runbook_with_format "" Format_Toml = Ok (fixup_names sample_runbook) ∧
  runbook_typed (fixup_names sample_runbook).
Proof.
  split; [exact sample_accepted |].
  pose proof (parsed_runbook_well_typed (HO := plain_order) "" Format_Toml) as H.
  rewrite sample_accepted in H. exact H.
Defined.

(** The cooldown of an action is not among the durations that are checked: the
    runtime finds out at the second attempt. *)
Lemma action_cooldown_unchecked :
  parse_runbook_with_format "" Format_Toml = Ok (fixup_names sample_runbook) ∧
  ∃ a c, get_agent "coder" (fixup_names sample_runbook) = Some a ∧
    config_cooldown (agent_on_idle a) = Some c ∧
    parse_duration c = inl "invalid number in duration: soon".
Proof. split; [exact sample_accepted |]. by do 2 eexists. Qed.

Local Close Scope string_scope.
