(* ===== verification/CommandArgs.v ===== *)
(** The arguments of commands: [crates/runbook/src/command.rs].

    The code reads characters; this model reads bytes, as every character it
    tells apart is ASCII but for white space, which [ws_prefix] finds, and the
    name of a short flag, which [first_char] takes whole. *)

From S2P Require Import Prelude Bytes Slug Runbook Monitor JobCreate ShellAst ShellLexer RunbookParse.

Local Open Scope string_scope.

Inductive ArgSpecError :=
  | Arg_InvalidSyntax (message : string)
  | Arg_VariadicNotLast (name : string)
  | Arg_OptionalBeforeRequired (name : string)
  | Arg_DuplicateName (name : string).

Inductive ArgValidationError :=
  | Arg_MissingPositional (name : string)
  | Arg_MissingOption (name : string)
  | Arg_MissingVariadic (name : string)
  | Arg_UnexpectedPositional (arg : string)
  | Arg_UnknownOption (name : string).

(** ** [parse_arg_spec] *)

(** The variables of the loop: the result so far, the names it has, and whether
    an optional positional was seen. *)
Record SpecState := mkSpecState {
  pt_spec : ArgSpec;
  pt_names : gset string;
  pt_optional : bool
}.

Abbreviation SRes := (Res ArgSpecError).

Definition ArgSpec_default : ArgSpec := mkArgSpec [] [] [] None.

Definition check_name (name : string) (st : SpecState) : SRes SpecState :=
  if bool_decide (name ∈ pt_names st) then Err (Arg_DuplicateName name)
  else Ok (mkSpecState (pt_spec st) ({[ name ]} ∪ pt_names st) (pt_optional st)).

Definition on_spec (f : ArgSpec → ArgSpec) (st : SpecState) : SpecState :=
  mkSpecState (f (pt_spec st)) (pt_names st) (pt_optional st).

Definition push_positional (d : ArgDef) (s : ArgSpec) : ArgSpec :=
  mkArgSpec (spec_positional s ++ [d]) (spec_flags s) (spec_options s) (spec_variadic s).
Definition push_flag (d : FlagDef) (s : ArgSpec) : ArgSpec :=
  mkArgSpec (spec_positional s) (spec_flags s ++ [d]) (spec_options s) (spec_variadic s).
Definition push_option (d : OptionDef) (s : ArgSpec) : ArgSpec :=
  mkArgSpec (spec_positional s) (spec_flags s) (spec_options s ++ [d]) (spec_variadic s).
Definition set_variadic (d : VariadicDef) (s : ArgSpec) : ArgSpec :=
  mkArgSpec (spec_positional s) (spec_flags s) (spec_options s) (Some d).

Definition has_variadic (st : SpecState) : bool :=
  match spec_variadic (pt_spec st) with Some _ => true | None => false end.

(** What is read up to the character [c], which is dropped. *)
Fixpoint take_until (c : ascii) (s : string) : string * string :=
  match s with
  | EmptyString => (EmptyString, EmptyString)
  | String a s' =>
      if a =c c then (EmptyString, s')
      else let '(t, r) := take_until c s' in (String a t, r)
  end.

(** What is read up to the bracket that closes [depth] open ones. *)
Fixpoint take_bracketed (depth : nat) (s : string) : string * string :=
  match s with
  | EmptyString => (EmptyString, EmptyString)
  | String a s' =>
      let keep depth := let '(t, r) := take_bracketed depth s' in (String a t, r) in
      if a =c "[" then keep (S depth)
      else if a =c "]" then
        if (depth =? 1)%nat then (EmptyString, s') else keep (depth - 1)
      else keep depth
  end.

(** What is read up to white space. *)
Fixpoint take_token (s : string) : string * string :=
  match s with
  | EmptyString => (EmptyString, EmptyString)
  | String a s' =>
      if (0 <? ws_prefix s)%nat then (EmptyString, s)
      else let '(t, r) := take_token s' in (String a t, r)
  end.

Definition peek_ellipsis (chars : string) : bool * string :=
  match strip_prefix "..." chars with
  | Some rest => (true, rest)
  | None => (false, chars)
  end.

(** The second character of a text, if there is one. *)
Definition second_char (s : string) : option string :=
  let rest := drop_str (String.length (first_char s)) s in
  if is_empty rest then None else Some (first_char rest).

Definition parse_flag_names (flag_part : string) : SRes (option string * string) :=
  let flag_part := trim flag_part in
  if contains "/" flag_part then
    match split_all "/" flag_part with
    | [short_part; long_part] =>
        let short_part := trim short_part in
        let long_part := trim long_part in
        if starts_with "-" short_part && negb (starts_with "--" short_part) then
          match strip_prefix "--" long_part with
          | Some stripped => Ok (second_char short_part, stripped)
          | None => Err (Arg_InvalidSyntax ("invalid long flag: " +:+ long_part))
          end
        else Err (Arg_InvalidSyntax ("invalid short flag: " +:+ short_part))
    | _ => Err (Arg_InvalidSyntax ("invalid flag syntax: " +:+ flag_part))
    end
  else
    match strip_prefix "--" flag_part with
    | Some stripped => Ok (None, stripped)
    | None =>
        if starts_with "-" flag_part then
          match second_char flag_part with
          | Some c => Ok (Some c, c)
          | None => Err (Arg_InvalidSyntax "empty flag")
          end
        else Err (Arg_InvalidSyntax ("flag must start with -: " +:+ flag_part))
    end.

Definition parse_flag_or_option (content : string) (required : bool) (st : SpecState) :
    SRes SpecState :=
  let content := trim content in
  match split_once "<" content with
  | Some (flag_part, _) =>
      names ← parse_flag_names (trim flag_part);
      let '(short, name) := (names : option string * string) in
      on_spec (push_option (mkOptionDef name short required)) <$> check_name name st
  | None =>
      names ← parse_flag_names content;
      let '(short, name) := (names : option string * string) in
      on_spec (push_flag (mkFlagDef name short)) <$> check_name name st
  end.

Definition add_variadic (name : string) (required : bool) (st : SpecState) : SRes SpecState :=
  let var_name := trim_end_matches "..." (String.length name) name in
  st ← check_name var_name st;
  if has_variadic st then Err (Arg_VariadicNotLast var_name)
  else Ok (on_spec (set_variadic (mkVariadicDef var_name required)) st).

Definition add_required (name : string) (st : SpecState) : SRes SpecState :=
  if has_variadic st then Err (Arg_VariadicNotLast name)
  else if pt_optional st then Err (Arg_OptionalBeforeRequired name)
  else on_spec (push_positional (mkArgDef name true)) <$> check_name name st.

Definition add_optional (name : string) (st : SpecState) : SRes SpecState :=
  if has_variadic st then Err (Arg_VariadicNotLast name)
  else
    st ← check_name name st;
    Ok (mkSpecState (push_positional (mkArgDef name false) (pt_spec st)) (pt_names st) true).

(** After ["<"]. *)
Definition read_required (s : string) (st : SpecState) : SRes (SpecState * string) :=
  let '(token, rest) := take_until ">" s in
  let name := trim token in
  let '(trailing_ellipsis, rest) := peek_ellipsis rest in
  (λ st, (st, rest)) <$>
    (if ends_with "..." name || trailing_ellipsis then add_variadic name true st
     else add_required name st).

(** After ["["]. *)
Definition read_optional (s : string) (st : SpecState) : SRes (SpecState * string) :=
  let '(token, rest) := take_bracketed 1 s in
  let content := trim token in
  let '(trailing_ellipsis, rest) := peek_ellipsis rest in
  (λ st, (st, rest)) <$>
    (if starts_with "-" content then
       if trailing_ellipsis then
         Err (Arg_InvalidSyntax ("ellipsis not valid after flag/option: [" +:+ content +:+ "]..."))
       else parse_flag_or_option content false st
     else if ends_with "..." content || trailing_ellipsis then add_variadic content false st
     else add_optional content st).

(** After ["-"]. *)
Definition read_dashed (s : string) (st : SpecState) : SRes (SpecState * string) :=
  let '(token, rest) := take_token s in
  let current_token := String "-" token in
  let rest := trim_start rest in
  match strip_prefix "<" rest with
  | Some rest =>
      let '(val_name, rest) := take_until ">" rest in
      (λ st, (st, rest)) <$>
        parse_flag_or_option (current_token +:+ " <" +:+ val_name +:+ ">") true st
  | None => (λ st, (st, rest)) <$> parse_flag_or_option current_token true st
  end.

Definition spec_round (a : SpecState * string) : SRes ((SpecState * string) + ArgSpec) :=
  let '(st, s) := a in
  match s with
  | EmptyString => Ok (inr (pt_spec st))
  | String c s' =>
      if c =c "<" then inl <$> read_required s' st
      else if c =c "[" then inl <$> read_optional s' st
      else if c =c "-" then inl <$> read_dashed s' st
      else if (0 <? ws_prefix s)%nat then Ok (inl (st, drop_str (ws_prefix s) s))
      else Err (Arg_InvalidSyntax ("unexpected character: " +:+ first_char s))
  end.

Definition parse_arg_spec (spec : string) : SRes ArgSpec :=
  let spec := trim spec in
  if is_empty spec then Ok ArgSpec_default
  else loop (S (String.length spec)) spec_round (mkSpecState ArgSpec_default ∅ false, spec).

(** ** Arguments *)

Definition positional_part (d : ArgDef) : string :=
  if arg_required d then "<" +:+ arg_name d +:+ ">" else "[" +:+ arg_name d +:+ "]".
Definition variadic_part (d : VariadicDef) : string :=
  if variadic_required d then "<" +:+ variadic_name d +:+ "...>"
  else "[" +:+ variadic_name d +:+ "...]".
Definition option_part (d : OptionDef) : string :=
  let text := "--" +:+ opt_name d +:+ " <" +:+ opt_name d +:+ ">" in
  if opt_required d then text else "[" +:+ text +:+ "]".
Definition flag_part (d : FlagDef) : string := "[--" +:+ flag_name d +:+ "]".

Definition usage_line (s : ArgSpec) : string :=
  String.concat " "
    ((positional_part <$> spec_positional s)
     ++ (variadic_part <$> option_list (spec_variadic s))
     ++ (option_part <$> spec_options s) ++ (flag_part <$> spec_flags s))%list.

Definition positional_names (s : ArgSpec) : list string := arg_name <$> spec_positional s.

(** A known option that takes the next argument, or a known flag. *)
Definition find_named (s : ArgSpec) (by_option : OptionDef → bool) (by_flag : FlagDef → bool) :
    option (OptionDef + FlagDef) :=
  match List.find by_option (spec_options s) with
  | Some o => Some (inl o)
  | None => inr <$> List.find by_flag (spec_flags s)
  end.

(** The option or flag that an argument names. *)
Definition named_by (s : ArgSpec) (arg : string) : option (OptionDef + FlagDef) :=
  match strip_prefix "--" arg with
  | Some stripped =>
      find_named s (λ o, String.eqb (opt_name o) stripped) (λ f, String.eqb (flag_name f) stripped)
  | None =>
      if starts_with "-" arg && (String.length arg =? 2)%nat then
        match second_char arg with
        | Some c => find_named s (λ o, bool_decide (opt_short o = Some c))
                      (λ f, bool_decide (flag_short f = Some c))
        | None => None
        end
      else None
  end.

(** The loop of [split_raw_args], with the arguments that are left. *)
Fixpoint split_from (s : ArgSpec) (raw : list string) (positional : list string)
    (named : gmap string string) : list string * gmap string string :=
  match raw with
  | [] => (positional, named)
  | arg :: rest =>
      if String.eqb arg "--" then ((positional ++ rest)%list, named)
      else
        match named_by s arg with
        | Some (inl o) =>
            match rest with
            | value :: rest' => split_from s rest' positional (<[opt_name o := value]> named)
            | [] => ((positional ++ [arg])%list, named)
            end
        | Some (inr f) => split_from s rest positional (<[flag_name f := "true"]> named)
        | None => split_from s rest (positional ++ [arg])%list named
        end
  end.

Definition split_raw_args (s : ArgSpec) (raw : list string) : list string * gmap string string :=
  split_from s raw [] ∅.

(** ** Commands *)

Definition known_names (s : ArgSpec) : list string :=
  ((arg_name <$> spec_positional s) ++ (opt_name <$> spec_options s)
   ++ (flag_name <$> spec_flags s) ++ (variadic_name <$> option_list (spec_variadic s)))%list.

(** A value given by name or by default. *)
Definition has_named (c : CommandDef) (named : gmap string string) (name : string) : bool :=
  bool_decide (is_Some (named !! name)) || bool_decide (is_Some (command_defaults c !! name)).

Definition validate_args `{HO : !HashOrder} (c : CommandDef) (positional : list string)
    (named : gmap string string) : Res ArgValidationError unit :=
  let spec := command_args c in
  each (λ key, ensure (listed key (known_names spec)) (Arg_UnknownOption key))
    (hash_order (dom named)) ≫= λ _,
  for_each_i (λ i d,
    ensure (negb (arg_required d)
            || bool_decide (is_Some (positional !! i)) || has_named c named (arg_name d))
      (Arg_MissingPositional (arg_name d))) 0 (spec_positional spec) ≫= λ _,
  each (λ d, ensure (negb (opt_required d) || has_named c named (opt_name d))
               (Arg_MissingOption (opt_name d))) (spec_options spec) ≫= λ _,
  let start_idx := length (spec_positional spec) in
  match spec_variadic spec with
  | Some v =>
      ensure (negb (variadic_required v)
              || (start_idx <? length positional)%nat || has_named c named (variadic_name v))
        (Arg_MissingVariadic (variadic_name v))
  | None =>
      match positional !! start_idx with
      | Some extra => Err (Arg_UnexpectedPositional extra)
      | None => Ok tt
      end
  end.

(** The positional arguments under their names; what is left over is returned. *)
Fixpoint bind_positional (defs : list ArgDef) (positional : list string)
    (result : gmap string string) : gmap string string :=
  match defs, positional with
  | d :: defs, value :: positional =>
      bind_positional defs positional (<[arg_name d := value]> result)
  | _, _ => result
  end.

Definition parse_args (c : CommandDef) (positional : list string) (named : gmap string string) :
    gmap string string :=
  let spec := command_args c in
  let result := bind_positional (spec_positional spec) positional (command_defaults c) in
  let result :=
    match spec_variadic spec with
    | Some v =>
        match drop (length (spec_positional spec)) positional with
        | [] => result
        | values => <[variadic_name v := String.concat " " values]> result
        end
    | None => result
    end in
  named ∪ result.

(** [RunDirective]. *)
Definition run_is_shell (r : RunDirective) : bool :=
  match r with Run_Shell _ => true | _ => false end.
Definition run_is_job (r : RunDirective) : bool :=
  match r with Run_Job _ => true | _ => false end.
Definition shell_command_of (r : RunDirective) : option string :=
  match r with Run_Shell cmd => Some cmd | _ => None end.
Definition directive_attach (r : RunDirective) : option bool :=
  match r with Run_Agent _ attach => attach | _ => None end.
