(* ===== verification/CommandArgsSpec.v ===== *)
(** What the arguments of commands promise: the usage line of a specification
    reads back as the specification without its short names, and arguments that validate bind every
    required name. *)

From S2P Require Import Prelude Bytes Slug Runbook Monitor JobCreate ShellAst ShellLexer RunbookParse.
From S2P Require Import RunbookSpec CommandArgs.

Local Open Scope string_scope.

(** ** Texts that trimming keeps *)

(** A visible ASCII character. *)
Definition graphic (a : ascii) : bool := in_range 33 126 a.

Lemma graphic_range a : graphic a = true → (33 ≤ byte a ≤ 126)%N.
Proof. unfold graphic, in_range. rewrite andb_true_iff, !N.leb_le. lia. Qed.

Ltac bytes_off H :=
  repeat match goal with |- context [(?x =? ?y)%N] => rewrite (proj2 (N.eqb_neq x y)) by lia end;
  repeat match goal with |- context [(?x <=? ?y)%N] =>
    first [rewrite (proj2 (N.leb_gt x y)) by lia | rewrite (proj2 (N.leb_le x y)) by lia] end.

Lemma ws_prefix_graphic a s : graphic a = true → ws_prefix (String a s) = 0.
Proof.
  intros H%graphic_range. unfold ws_prefix, in_range. bytes_off H. simpl.
  by destruct s as [|b [|c s]].
Qed.

Lemma ws_suffix_graphic a s : graphic a = true → ws_suffix (String a s) = 0.
Proof.
  intros H%graphic_range. unfold ws_suffix. 
  assert (in_range 9 13 a || (byte a =? 32)%N = false) as ->
    by (unfold in_range; bytes_off H; done).
  destruct s as [|b s]; [done |].
  assert (Nat.eqb (ws_prefix (String b (String a "")%string)) 2 = false) as ->.
  { unfold ws_prefix. destruct (in_range 9 13 b || (byte b =? 32)%N); [done |].
    bytes_off H. by rewrite !andb_false_r. }
  destruct s as [|c s]; [done |].
  assert (Nat.eqb (ws_prefix (String c (String b (String a "")))%string) 3 = false) as ->; [| done].
  unfold ws_prefix. destruct (in_range 9 13 c || (byte c =? 32)%N); [done |].
  destruct ((byte c =? 194)%N && _); [done |].
  unfold in_range. bytes_off H. simpl. by rewrite !andb_false_r.
Qed.

Lemma trim_graphic a m b m' :
  graphic a = true → graphic b = true → String a m = m' +:+ String b "" →
  trim (String a m) = String a m.
Proof.
  intros Ha Hb E. unfold trim, trim_start. rewrite drop_ws_zero by by apply ws_prefix_graphic.
  unfold trim_end. rewrite E, rev_str_app. simpl.
  rewrite drop_ws_zero by by apply ws_suffix_graphic. simpl. by rewrite rev_str_involutive.
Qed.

(** ** Good specifications *)

Definition name_char (a : ascii) : bool := is_alnum a || (a =c "_") || (a =c "-").

(** A name of letters, digits, ["_"] and ["-"] that does not start with ["-"]. *)
Definition good_name (s : string) : bool :=
  negb (is_empty s) && negb (starts_with "-" s) && all_chars name_char s.


(** A text whose first and last characters are visible. *)
Definition edged (s : string) : Prop :=
  (∃ a m, s = String a m ∧ graphic a = true) ∧ (∃ m b, s = m +:+ String b "" ∧ graphic b = true).

Lemma trim_edged s : edged s → trim s = s.
Proof. intros [(a & m & -> & Ha) (m' & b & E & Hb)]. by eapply trim_graphic. Qed.

Lemma trim_edged_space s : edged s → trim (s +:+ " ") = s.
Proof.
  intros [(a & m & E & Ha) (m' & b & E' & Hb)]. unfold trim.
  assert (trim_start (s +:+ " ") = s +:+ " ") as ->.
  { rewrite E. apply drop_ws_zero, ws_prefix_graphic, Ha. }
  unfold trim_end. rewrite rev_str_app, string_length_app, Nat.add_1_r.
  change (rev_str " " +:+ rev_str s) with (String " " (rev_str s)).
  rewrite (drop_ws_step _ _ 0) by done. cbn [drop_str].
  rewrite drop_ws_zero; [apply rev_str_involutive |].
  rewrite E', rev_str_app. by apply ws_suffix_graphic.
Qed.

Lemma last_char p s : s ≠ "" → all_chars p s = true → ∃ m b, s = m +:+ String b "" ∧ p b = true.
Proof.
  induction s as [|a s IH]; [done |]. simpl. intros _ [Ha Hs]%andb_true_iff.
  destruct s as [|c s]; [by exists "", a |].
  destruct IH as (m & b & E & Hb); [done.. |]. exists (String a m), b. by rewrite E.
Qed.

Lemma graphic_edged s : s ≠ "" → all_chars graphic s = true → edged s.
Proof.
  intros Hs Hg. split; [| by apply last_char]. destruct s as [|a s]; [done |].
  exists a, s. split; [done |]. by apply andb_true_iff in Hg as [? _].
Qed.

Lemma edged_concat l : l ≠ [] → Forall edged l → edged (String.concat " " l).
Proof.
  intros Hl H. induction H as [|s l Hs H IH]; [done |]. destruct l as [|t l]; [done |].
  destruct IH as [_ (m & b & E & Hb)]; [done |]. destruct Hs as [(a & m' & E' & Ha) _].
  change (String.concat " " (s :: t :: l)) with (s +:+ " " +:+ String.concat " " (t :: l)).
  split.
  - rewrite E'. by eexists _, _.
  - rewrite E. exists (s +:+ " " +:+ m), b. by rewrite !string_app_assoc.
Qed.

Lemma all_chars_mono (p q : ascii → bool) s :
  (∀ a, p a = true → q a = true) → all_chars p s = true → all_chars q s = true.
Proof.
  intros Hpq. induction s as [|a s IH]; [done |]. simpl. intros [Ha Hs]%andb_true_iff.
  by rewrite Hpq, IH.
Qed.

Lemma name_char_graphic a : name_char a = true → graphic a = true.
Proof. destruct a as [[] [] [] [] [] [] [] []]; (done || (intros H; vm_compute in H; discriminate)). Qed.

Lemma not_name_char c s : name_char c = false → all_chars name_char s = true → has_char c s = false.
Proof.
  intros Hc. induction s as [|a s IH]; [done |]. simpl. intros [Ha Hs]%andb_true_iff.
  destruct (Ascii.eqb_spec a c) as [->|]; [congruence |]. by apply IH.
Qed.

Lemma good_name_spec s :
  good_name s = true ↔ s ≠ "" ∧ starts_with "-" s = false ∧ all_chars name_char s = true.
Proof.
  unfold good_name. rewrite !andb_true_iff, !negb_true_iff.
  assert (is_empty s = false ↔ s ≠ "") as -> by (rewrite <- is_empty_spec; by destruct (is_empty s)).
  naive_solver.
Qed.

(** ** Reading *)

Lemma take_until_app c s r : has_char c s = false → take_until c (s +:+ String c r) = (s, r).
Proof.
  induction s as [|a s IH]; simpl; [by rewrite Ascii.eqb_refl |].
  destruct (a =c c); [done |]. intros H. by rewrite IH.
Qed.

Lemma take_bracketed_app s r :
  has_char "[" s = false → has_char "]" s = false → take_bracketed 1 (s +:+ String "]" r) = (s, r).
Proof.
  induction s as [|a s IH]; [done |]. simpl.
  destruct (a =c "["), (a =c "]"); try done. intros H1 H2. by rewrite IH.
Qed.

(** What may follow a part. *)
Definition at_space (r : string) : Prop := r = "" ∨ ∃ r', r = " " +:+ r'.

Lemma take_token_app s r :
  all_chars graphic s = true → at_space r → take_token (s +:+ r) = (s, r).
Proof.
  intros Hs Hr. induction s as [|a s IH].
  - destruct Hr as [->|[r' ->]]; done.
  - simpl in Hs. apply andb_true_iff in Hs as [Ha Hs].
    change (String a s +:+ r) with (String a (s +:+ r)). cbn [take_token].
    rewrite ws_prefix_graphic by done. simpl. by rewrite IH.
Qed.

Lemma no_ellipsis r : at_space r → peek_ellipsis r = (false, r).
Proof. intros [->|[r' ->]]; done. Qed.

Lemma contains_char c s : has_char c s = false → contains (String c "") s = false.
Proof.
  induction s as [|a s IH]; [done |]. cbn [has_char contains].
  intros [Ha Hs]%orb_false_iff. rewrite IH by done. rewrite orb_false_r.
  unfold starts_with. cbn [strip_prefix]. rewrite Ascii.eqb_sym in Ha. by rewrite Ha.
Qed.

(** ** The parts of a usage line *)

Inductive Item :=
  | It_Positional (d : ArgDef)
  | It_Variadic (d : VariadicDef)
  | It_Option (d : OptionDef)
  | It_Flag (d : FlagDef).

Definition item_text (i : Item) : string :=
  match i with
  | It_Positional d => positional_part d
  | It_Variadic d => variadic_part d
  | It_Option d => option_part d
  | It_Flag d => flag_part d
  end.

Definition item_name (i : Item) : string :=
  match i with
  | It_Positional d => arg_name d
  | It_Variadic d => variadic_name d
  | It_Option d => opt_name d
  | It_Flag d => flag_name d
  end.

(** A usage line has no short names. *)
Definition item_good (i : Item) : Prop :=
  good_name (item_name i) = true ∧
  match i with
  | It_Option d => opt_short d = None
  | It_Flag d => flag_short d = None
  | _ => True
  end.

Definition push_item (i : Item) : ArgSpec → ArgSpec :=
  match i with
  | It_Positional d => push_positional d
  | It_Variadic d => set_variadic d
  | It_Option d => push_option d
  | It_Flag d => push_flag d
  end.

Definition add_item (st : SpecState) (i : Item) : SpecState :=
  mkSpecState (push_item i (pt_spec st)) ({[ item_name i ]} ∪ pt_names st)
    (match i with It_Positional d => pt_optional st || negb (arg_required d) | _ => pt_optional st end).

(** [i] can come after what was read. *)
Definition may_follow (st : SpecState) (i : Item) : Prop :=
  item_name i ∉ pt_names st ∧
  match i with
  | It_Positional d => has_variadic st = false ∧ (arg_required d = true → pt_optional st = false)
  | It_Variadic _ => has_variadic st = false
  | _ => True
  end.

Section Names.
Context (n : string) (Hn : good_name n = true).

Lemma name_graphic : all_chars graphic n = true.
Proof using Hn.
  apply good_name_spec in Hn as (_ & _ & H). by eapply all_chars_mono, H; apply name_char_graphic.
Qed.

Lemma name_lacks c : name_char c = false → has_char c n = false.
Proof using Hn. intros Hc. apply good_name_spec in Hn as (_ & _ & H). by apply not_name_char. Qed.

Lemma name_trim : trim n = n.
Proof using Hn.
  apply trim_edged, graphic_edged; [| apply name_graphic]. by apply good_name_spec in Hn as [? _].
Qed.

Lemma flag_edged : edged ("--" +:+ n).
Proof using Hn. apply graphic_edged; [done |]. simpl. apply name_graphic. Qed.

Lemma option_edged : edged ("--" +:+ n +:+ " <" +:+ n +:+ ">").
Proof using Hn.
  split; [by eexists _, _ |]. exists ("--" +:+ n +:+ " <" +:+ n), ">"%char.
  by rewrite !string_app_assoc.
Qed.

Lemma variadic_trim : trim (n +:+ "...") = n +:+ "...".
Proof using Hn.
  apply trim_edged, graphic_edged.
  - apply good_name_spec in Hn as [H _]. by destruct n.
  - by rewrite all_chars_app, name_graphic.
Qed.

Lemma name_no_dots : ends_with "..." n = false.
Proof using Hn.
  unfold ends_with. destruct (starts_with _ _) eqn:E; [| done].
  apply starts_with_spec in E as [r E]. apply (f_equal rev_str) in E.
  rewrite rev_str_involutive in E.
  pose proof (name_lacks "." eq_refl) as H. rewrite E, rev_str_app, has_char_app in H.
  by rewrite orb_true_r in H.
Qed.

Lemma variadic_dots : ends_with "..." (n +:+ "...") = true.
Proof. unfold ends_with. rewrite rev_str_app. apply starts_with_app. Qed.

Lemma variadic_base :
  trim_end_matches "..." (String.length (n +:+ "...")) (n +:+ "...") = n.
Proof using Hn.
  rewrite string_length_app. replace (String.length n + String.length "...") with
    (S (S (S (String.length n)))) by (simpl; lia).
  assert (strip_suffix "..." (n +:+ "...") = Some n) as E.
  { unfold strip_suffix. rewrite rev_str_app, strip_prefix_app. simpl. by rewrite rev_str_involutive. }
  cbn [trim_end_matches]. rewrite E.
  assert (strip_suffix "..." n = None) as ->; [| done].
  pose proof name_no_dots as H. unfold ends_with, starts_with in H. unfold strip_suffix.
  by destruct (strip_prefix _ _).
Qed.

Lemma long_flag : parse_flag_names ("--" +:+ n) = Ok (None, n).
Proof using Hn.
  unfold parse_flag_names. rewrite trim_edged by apply flag_edged. cbv zeta.
  rewrite contains_char; [| by apply name_lacks]. by rewrite strip_prefix_app.
Qed.

Lemma read_flag required st :
  n ∉ pt_names st →
  parse_flag_or_option ("--" +:+ n) required st = Ok (add_item st (It_Flag (mkFlagDef n None))).
Proof using Hn.
  intros Hf. unfold parse_flag_or_option. rewrite trim_edged by apply flag_edged. cbv zeta.
  rewrite (proj2 (split_once_None _ _)) by (simpl; by apply name_lacks).
  rewrite long_flag. simpl. unfold check_name. by rewrite bool_decide_eq_false_2.
Qed.

Lemma read_option required st :
  n ∉ pt_names st →
  parse_flag_or_option ("--" +:+ n +:+ " <" +:+ n +:+ ">") required st
  = Ok (add_item st (It_Option (mkOptionDef n None required))).
Proof using Hn.
  intros Hf. unfold parse_flag_or_option. rewrite trim_edged by apply option_edged. cbv zeta.
  replace ("--" +:+ n +:+ " <" +:+ n +:+ ">") with (("--" +:+ n +:+ " ") +:+ String "<" (n +:+ ">"))
    by by rewrite !string_app_assoc.
  rewrite split_once_app by (simpl; rewrite has_char_app, name_lacks; done).
  replace ("--" +:+ n +:+ " ") with (("--" +:+ n) +:+ " ") by by rewrite string_app_assoc.
  rewrite trim_edged_space by apply flag_edged.
  rewrite long_flag. simpl. unfold check_name. by rewrite bool_decide_eq_false_2.
Qed.
End Names.

(** ** Reading a part *)

Lemma check_fresh n st :
  n ∉ pt_names st → check_name n st = Ok (mkSpecState (pt_spec st) ({[ n ]} ∪ pt_names st) (pt_optional st)).
Proof. intros H. unfold check_name. by rewrite bool_decide_eq_false_2. Qed.

Lemma add_variadic_ok n required st :
  good_name n = true → may_follow st (It_Variadic (mkVariadicDef n required)) →
  add_variadic (n +:+ "...") required st = Ok (add_item st (It_Variadic (mkVariadicDef n required))).
Proof.
  intros Hn [Hf Hv]. unfold add_variadic. rewrite variadic_base by done.
  rewrite check_fresh by done. cbn [mbind res_bind]. unfold has_variadic in *. cbn [pt_spec].
  by destruct (spec_variadic _).
Qed.

Lemma add_positional_ok d st :
  may_follow st (It_Positional d) →
  (if arg_required d then add_required (arg_name d) st else add_optional (arg_name d) st)
  = Ok (add_item st (It_Positional d)).
Proof.
  intros (Hf & Hv & Ho). unfold add_required, add_optional. rewrite Hv.
  destruct d as [n []]; simpl in *.
  - rewrite Ho, check_fresh by done. simpl. unfold add_item, on_spec. simpl. by rewrite Ho.
  - rewrite check_fresh by done. simpl. unfold add_item, on_spec. simpl. by rewrite ?orb_true_r.
Qed.

(** Optional parts. *)
Lemma read_bracketed text r st :
  has_char "[" text = false → has_char "]" text = false → at_space r →
  read_optional (text +:+ "]" +:+ r) st
  = (λ st, (st, r)) <$>
      (let content := trim text in
       if starts_with "-" content then parse_flag_or_option content false st
       else if ends_with "..." content then add_variadic content false st
       else add_optional content st).
Proof.
  intros H1 H2 Hr. unfold read_optional. change ("]" +:+ r) with (String "]" r).
  rewrite take_bracketed_app, no_ellipsis by done.
  cbv zeta beta iota. by rewrite !orb_false_r.
Qed.

(** Required parts. *)
Lemma read_angled text r st :
  has_char ">" text = false → at_space r →
  read_required (text +:+ ">" +:+ r) st
  = (λ st, (st, r)) <$>
      (let name := trim text in
       if ends_with "..." name then add_variadic name true st else add_required name st).
Proof.
  intros H Hr. unfold read_required. change (">" +:+ r) with (String ">" r).
  rewrite take_until_app, no_ellipsis by done.
  cbv zeta beta iota. by rewrite !orb_false_r.
Qed.

Lemma round_angle st s : spec_round (st, "<" +:+ s) = inl <$> read_required s st.
Proof. done. Qed.
Lemma round_bracket st s : spec_round (st, "[" +:+ s) = inl <$> read_optional s st.
Proof. done. Qed.
Lemma round_dash st s : spec_round (st, "-" +:+ s) = inl <$> read_dashed s st.
Proof. done. Qed.

Lemma item_read_positional d r st :
  item_good (It_Positional d) → may_follow st (It_Positional d) → at_space r →
  spec_round (st, item_text (It_Positional d) +:+ r) = Ok (inl (add_item st (It_Positional d), r)).
Proof.
  intros [Hn Hs] Hf Hr. simpl in Hn. cbn [item_text].
  pose proof (add_positional_ok d st Hf) as Hd. unfold positional_part.
  pose proof (proj1 (good_name_spec _) Hn) as (_ & Hdash & _).
  destruct (arg_required d); rewrite !string_app_assoc.
  + rewrite round_angle.
    rewrite read_angled by (try apply name_lacks; done). cbv zeta.
    by rewrite name_trim, name_no_dots, Hd.
  + rewrite round_bracket.
    rewrite read_bracketed by (try apply name_lacks; done). cbv zeta.
    by rewrite name_trim, Hdash, name_no_dots, Hd.
Qed.

(** The text of the part in the goal, written another way. *)
Ltac part_is t :=
  match goal with |- spec_round (_, ?p) = _ =>
    let E := fresh in assert (p = t) as E by
      (unfold item_text, option_part, flag_part, variadic_part; repeat (progress simpl || rewrite string_app_assoc); done);
    rewrite E; clear E
  end.

Lemma item_read_variadic v r st :
  item_good (It_Variadic v) → may_follow st (It_Variadic v) → at_space r →
  spec_round (st, item_text (It_Variadic v) +:+ r) = Ok (inl (add_item st (It_Variadic v), r)).
Proof.
  intros [Hn Hs] Hf Hr. destruct v as [n b]. simpl in Hn.
  pose proof (proj1 (good_name_spec _) Hn) as (Hne & Hdash & _).
  assert (∀ c, name_char c = false → ("." =c c) = false → has_char c (n +:+ "...") = false) as Hc.
  { intros c H1 H2. rewrite has_char_app, name_lacks by done. cbn [has_char orb]. by rewrite H2. }
  assert (starts_with "-" (n +:+ "...") = false) as Hd.
  { destruct n as [|a n]; [done |]. unfold starts_with in *. cbn [strip_prefix String.append] in *.
    by destruct (Ascii.eqb "-" a). }
  pose proof (add_variadic_ok n b st Hn Hf) as Hv.
  destruct b.
  + part_is ("<" +:+ (n +:+ "...") +:+ ">" +:+ r). rewrite round_angle.
    rewrite read_angled by (try apply Hc; done). cbv zeta.
    by rewrite variadic_trim, variadic_dots, Hv.
  + part_is ("[" +:+ (n +:+ "...") +:+ "]" +:+ r). rewrite round_bracket.
    rewrite read_bracketed by (try apply Hc; done). cbv zeta.
    by rewrite variadic_trim, Hd, variadic_dots, Hv.
Qed.

Lemma item_read_option o r st :
  item_good (It_Option o) → may_follow st (It_Option o) → at_space r →
  spec_round (st, item_text (It_Option o) +:+ r) = Ok (inl (add_item st (It_Option o), r)).
Proof.
  intros [Hn Hs] [Hf _] Hr. destruct o as [n short b]. simpl in Hn, Hs, Hf. subst short.
  destruct b.
  + part_is ("-" +:+ ("-" +:+ n) +:+ " <" +:+ n +:+ ">" +:+ r). rewrite round_dash.
    unfold read_dashed. rewrite take_token_app; [| simpl; by apply name_graphic | right; by eexists].
    assert (trim_start (" <" +:+ n +:+ ">" +:+ r) = "<" +:+ n +:+ ">" +:+ r) as ->.
    { unfold trim_start. cbn [String.length String.append]. rewrite (drop_ws_step _ _ 0) by done.
      by apply drop_ws_zero, ws_prefix_graphic. }
    rewrite strip_prefix_app. cbv zeta.
    change (n +:+ ">" +:+ r) with (n +:+ String ">" r).
    rewrite take_until_app by by apply name_lacks.
    replace (String "-" ("-" +:+ n) +:+ " <" +:+ n +:+ ">") with ("--" +:+ n +:+ " <" +:+ n +:+ ">")
      by by rewrite ?string_app_assoc.
    by rewrite read_option.
  + part_is ("[" +:+ ("--" +:+ n +:+ " <" +:+ n +:+ ">") +:+ "]" +:+ r). rewrite round_bracket.
    rewrite read_bracketed; [| | | done].
    2, 3: by rewrite !has_char_app, !(name_lacks n).
    cbv zeta. rewrite trim_edged by by apply option_edged. by rewrite read_option.
Qed.

Lemma item_read_flag f r st :
  item_good (It_Flag f) → may_follow st (It_Flag f) → at_space r →
  spec_round (st, item_text (It_Flag f) +:+ r) = Ok (inl (add_item st (It_Flag f), r)).
Proof.
  intros [Hn Hs] [Hf _] Hr. destruct f as [n short]. simpl in Hn, Hs, Hf. subst short.
  part_is ("[" +:+ ("--" +:+ n) +:+ "]" +:+ r). rewrite round_bracket.
  rewrite read_bracketed; [| simpl; by apply name_lacks.. | done].
  cbv zeta. rewrite trim_edged by by apply flag_edged. by rewrite read_flag.
Qed.

Lemma item_read i r st :
  item_good i → may_follow st i → at_space r →
  spec_round (st, item_text i +:+ r) = Ok (inl (add_item st i, r)).
Proof.
  destruct i; [apply item_read_positional | apply item_read_variadic | apply item_read_option
              | apply item_read_flag].
Qed.

(** ** The loop ends *)

Lemma take_until_shorter c s : (String.length (take_until c s).2 ≤ String.length s)%nat.
Proof.
  induction s as [|a s IH]; [done |]. cbn [take_until String.length]. destruct (a =c c); [simpl; lia |].
  destruct (take_until c s). simpl in *. lia.
Qed.

Lemma take_bracketed_shorter depth s : (String.length (take_bracketed depth s).2 ≤ String.length s)%nat.
Proof.
  revert depth. induction s as [|a s IH]; intros depth; [done |]. cbn [take_bracketed String.length].
  assert (∀ d, (String.length (let '(t, r) := take_bracketed d s in (String a t, r)).2
                ≤ S (String.length s))%nat) as H.
  { intros d. specialize (IH d). destruct (take_bracketed d s). simpl in *. lia. }
  destruct (a =c "["); [apply H |]. destruct (a =c "]"); [| apply H].
  destruct (depth =? 1)%nat; [simpl; lia | apply H].
Qed.

Lemma take_token_shorter s : (String.length (take_token s).2 ≤ String.length s)%nat.
Proof.
  induction s as [|a s IH]; [done |]. cbn [take_token].
  destruct (0 <? ws_prefix (String a s))%nat; [done |]. destruct (take_token s). simpl in *. lia.
Qed.

Lemma length_drop_str n s : (String.length (drop_str n s) ≤ String.length s)%nat.
Proof. revert s. induction n as [|n IH]; intros [|a s]; simpl; [lia.. |]. specialize (IH s). lia. Qed.

Lemma drop_ws_shorter f n s : (String.length (drop_ws f n s) ≤ String.length s)%nat.
Proof.
  revert s. induction n as [|n IH]; intros s; [done |]. cbn [drop_ws]. destruct (f s); [done |].
  etrans; [apply IH | apply length_drop_str].
Qed.

Lemma strip_prefix_shorter p s r :
  strip_prefix p s = Some r → (String.length r ≤ String.length s)%nat.
Proof. intros ->%strip_prefix_Some. rewrite string_length_app. lia. Qed.

Lemma peek_ellipsis_shorter s : (String.length (peek_ellipsis s).2 ≤ String.length s)%nat.
Proof.
  unfold peek_ellipsis. destruct (strip_prefix _ s) eqn:E; [by eapply strip_prefix_shorter | done].
Qed.

(** A check that ends. *)
Abbreviation ends r := (post (λ _, True) (λ _, True) r).

Lemma check_name_ends n st : ends (check_name n st).
Proof. unfold check_name. by destruct (bool_decide _). Qed.

Lemma ends_fmap {E A B} (f : A → B) (r : Res E A) : ends r → ends (f <$> r).
Proof. by destruct r. Qed.

Lemma parse_flag_or_option_ends content required st : ends (parse_flag_or_option content required st).
Proof.
  assert (∀ s, ends (parse_flag_names s)) as Hn.
  { intros s. unfold parse_flag_names. cbv zeta. destruct (contains _ _).
    - destruct (split_all _ _) as [|? [|? [|]]]; try done.
      destruct (_ && _); [| done]. by destruct (strip_prefix _ _).
    - destruct (strip_prefix _ _); [done |]. destruct (starts_with _ _); [| done].
      by destruct (second_char _). }
  unfold parse_flag_or_option. cbv zeta.
  destruct (split_once _ _) as [[p q]|];
    (apply post_bind; eapply post_mono; [apply Hn | | done]; intros [short name] _;
     apply ends_fmap, check_name_ends).
Qed.

Lemma add_variadic_ends name required st : ends (add_variadic name required st).
Proof.
  unfold add_variadic. cbv zeta. apply post_bind. eapply post_mono; [apply check_name_ends | | done].
  intros st' _. by destruct (has_variadic st').
Qed.

Lemma add_required_ends name st : ends (add_required name st).
Proof.
  unfold add_required. destruct (has_variadic st), (pt_optional st); try done.
  apply ends_fmap, check_name_ends.
Qed.

Lemma add_optional_ends name st : ends (add_optional name st).
Proof.
  unfold add_optional. destruct (has_variadic st); [done |]. apply post_bind.
  by eapply post_mono; [apply check_name_ends | |].
Qed.

(** A reader that ends, with no more left than [s]. *)
Definition reads (s : string) (r : Res ArgSpecError (SpecState * string)) : Prop :=
  post (λ x, (String.length x.2 ≤ String.length s)%nat) (λ _, True) r.

Lemma reads_fmap s rest (r : Res ArgSpecError SpecState) :
  ends r → (String.length rest ≤ String.length s)%nat → reads s ((λ st, (st, rest)) <$> r).
Proof. by destruct r. Qed.

Lemma read_required_reads s st : reads s (read_required s st).
Proof.
  unfold read_required. pose proof (take_until_shorter ">" s) as H.
  destruct (take_until ">" s) as [t r]. cbv zeta.
  pose proof (peek_ellipsis_shorter r) as H'. destruct (peek_ellipsis r) as [b r'].
  simpl in *. apply reads_fmap; [| lia].
  destruct (_ || _); [apply add_variadic_ends | apply add_required_ends].
Qed.

Lemma read_optional_reads s st : reads s (read_optional s st).
Proof.
  unfold read_optional. pose proof (take_bracketed_shorter 1 s) as H.
  destruct (take_bracketed 1 s) as [t r]. cbv zeta.
  pose proof (peek_ellipsis_shorter r) as H'. destruct (peek_ellipsis r) as [b r'].
  simpl in *. apply reads_fmap; [| lia].
  destruct (starts_with _ _).
  - destruct b; [done | apply parse_flag_or_option_ends].
  - destruct (_ || _); [apply add_variadic_ends | apply add_optional_ends].
Qed.

Lemma read_dashed_reads s st : reads s (read_dashed s st).
Proof.
  unfold read_dashed. pose proof (take_token_shorter s) as H.
  destruct (take_token s) as [t r]. cbv zeta.
  pose proof (drop_ws_shorter ws_prefix (String.length r) r) as H'.
  fold (trim_start r) in H'. cbn [snd] in H.
  destruct (strip_prefix "<" (trim_start r)) as [r'|] eqn:E.
  - apply strip_prefix_shorter in E. pose proof (take_until_shorter ">" r') as H2.
    destruct (take_until ">" r') as [v r2]. cbn [snd] in H2.
    apply reads_fmap; [apply parse_flag_or_option_ends | lia].
  - apply reads_fmap; [apply parse_flag_or_option_ends | lia].
Qed.

Lemma spec_round_ends st s :
  post (λ r, match r with
             | inl a => (String.length a.2 < String.length s)%nat
             | inr _ => True
             end) (λ _, True) (spec_round (st, s)).
Proof.
  destruct s as [|c s]; [done |]. unfold spec_round.
  assert (∀ r, reads s r → post (λ r, match r with
             | inl a => (String.length a.2 < String.length (String c s))%nat
             | inr _ => True
             end) (λ _, True) (inl (B := ArgSpec) <$> r)) as Hr.
  { intros r H. destruct r as [[st' r]|e|]; simpl in *; [lia | done..]. }
  destruct (c =c "<"); [apply Hr, read_required_reads |].
  destruct (c =c "["); [apply Hr, read_optional_reads |].
  destruct (c =c "-"); [apply Hr, read_dashed_reads |].
  destruct (ws_prefix (String c s)) as [|k]; simpl; [done |].
  pose proof (length_drop_str k s). lia.
Qed.

(** Every specification is read to its end. *)
Lemma parse_arg_spec_ends spec : ends (parse_arg_spec spec).
Proof.
  unfold parse_arg_spec. cbv zeta. destruct (is_empty _); [done |].
  apply (post_loop (λ _, True) (λ a, String.length a.2)); [| done | simpl; lia].
  intros [st s] _. eapply post_mono; [apply spec_round_ends | | done].
  intros [a|b]; simpl; [| done]. intros H. split; [done | exact H].
Qed.

(** ** A usage line reads back *)

(** The loop gives [r] with some fuel. *)
Definition runs (a : SpecState * string) (r : ArgSpec) : Prop := ∃ n, loop n spec_round a = Ok r.

Lemma runs_step a a' r : spec_round a = Ok (inl a') → runs a' r → runs a r.
Proof. intros E [n H]. exists (S n). simpl. by rewrite E. Qed.

Lemma loop_more {E A B} (body : A → Res E (A + B)) n m a r :
  (n ≤ m)%nat → loop n body a = Ok r → loop m body a = Ok r.
Proof.
  revert m a. induction n as [|n IH]; intros m a Hm; [done |]. destruct m as [|m]; [lia |]. simpl.
  destruct (body a) as [[a'|b]|e|]; simpl; [apply IH; lia | done..].
Qed.

Lemma runs_parse s r :
  edged s → runs (mkSpecState ArgSpec_default ∅ false, s) r → parse_arg_spec s = Ok r.
Proof.
  intros Hs [n H]. pose proof (parse_arg_spec_ends s) as Ht. revert Ht.
  unfold parse_arg_spec. rewrite trim_edged by done. cbv zeta.
  destruct (is_empty s) eqn:Es; [by apply is_empty_spec in Es as ->; destruct Hs as [(? & ? & ? & _) _] |].
  intros Ht. destruct (loop (S (String.length s)) spec_round _) as [r'|e|] eqn:El; [| | done].
  - apply (loop_more _ _ (n + S (String.length s))) in H, El; [congruence | lia..].
  - exfalso. clear Ht Hs Es. revert n H El. generalize (S (String.length s)).
    generalize (mkSpecState ArgSpec_default ∅ false, s). intros a m. revert a.
    induction m as [|m IH]; intros a n H El; [done |]. destruct n as [|n]; [done |].
    simpl in *. destruct (spec_round a) as [[a'|b]|e'|]; simpl in *; [by eapply IH | done..].
Qed.

(** Every part of [l] can come after those before. *)
Fixpoint fits (st : SpecState) (l : list Item) : Prop :=
  match l with
  | [] => True
  | i :: l => may_follow st i ∧ fits (add_item st i) l
  end.

Definition line (l : list Item) : string := String.concat " " (item_text <$> l).

Lemma runs_items l st :
  Forall item_good l → fits st l → runs (st, line l) (pt_spec (foldl add_item st l)).
Proof.
  intros H. revert st. induction H as [|i l Hi Hl IH]; intros st Hf; [by exists 1 |].
  destruct Hf as [Hm Hf]. destruct l as [|j l].
  - unfold line. simpl. rewrite <- (string_app_nil_r (item_text i)).
    eapply runs_step; [apply item_read; [done.. | by left] |]. by exists 1.
  - unfold line. change (String.concat " " (item_text <$> i :: j :: l))
      with (item_text i +:+ (" " +:+ line (j :: l))).
    eapply runs_step; [apply item_read; [done.. | right; by eexists] |].
    eapply runs_step; [| by apply IH]. done.
Qed.

Lemma item_edged i : item_good i → edged (item_text i).
Proof.
  intros [Hn _]. destruct i as [d|v|o|f]; simpl in *.
  - unfold positional_part. destruct (arg_required d);
      (split; [by eexists _, _ |]); [exists ("<" +:+ arg_name d) | exists ("[" +:+ arg_name d)];
      eexists; by rewrite string_app_assoc.
  - unfold variadic_part. destruct (variadic_required v);
      (split; [by eexists _, _ |]);
      [exists ("<" +:+ variadic_name v +:+ "..."), ">"%char
      |exists ("[" +:+ variadic_name v +:+ "..."), "]"%char]; by rewrite !string_app_assoc.
  - unfold option_part. cbv zeta. destruct (opt_required o); [by apply option_edged |].
    split; [by eexists _, _ |].
    exists ("[" +:+ "--" +:+ opt_name o +:+ " <" +:+ opt_name o +:+ ">"), "]"%char.
    by rewrite !string_app_assoc.
  - split; [by eexists _, _ |]. exists ("[--" +:+ flag_name f), "]"%char.
    by rewrite !string_app_assoc.
Qed.

Lemma parse_line l :
  Forall item_good l → fits (mkSpecState ArgSpec_default ∅ false) l →
  parse_arg_spec (line l) = Ok (foldl (λ s i, push_item i s) ArgSpec_default l).
Proof.
  intros Hg Hf. destruct l as [|i l]; [done |].
  assert (edged (line (i :: l))) as He.
  { apply edged_concat; [done |]. apply Forall_fmap. eapply Forall_impl; [exact Hg | apply item_edged]. }
  rewrite (runs_parse _ _ He (runs_items _ _ Hg Hf)). f_equal. clear Hg Hf He.
  assert (∀ st l, pt_spec (foldl add_item st l) = foldl (λ s i, push_item i s) (pt_spec st) l) as H.
  { intros st l'. revert st. induction l' as [|j l' IH]; intros st; [done | apply IH]. }
  apply H.
Qed.

(** ** Specifications *)

(** A specification that a usage line can show: good and distinct names, none
    short, required positional arguments before optional ones. *)
Record shown (s : ArgSpec) : Prop := {
  sh_names : Forall (λ n, good_name n = true) (known_names s);
  sh_distinct : NoDup (known_names s);
  sh_flags : Forall (λ f, flag_short f = None) (spec_flags s);
  sh_options : Forall (λ o, opt_short o = None) (spec_options s);
  sh_positional : ∃ l1 l2, spec_positional s = (l1 ++ l2)%list ∧
    Forall (λ d, arg_required d = true) l1 ∧ Forall (λ d, arg_required d = false) l2
}.

Definition items (s : ArgSpec) : list Item :=
  ((It_Positional <$> spec_positional s) ++ (It_Variadic <$> option_list (spec_variadic s))
   ++ (It_Option <$> spec_options s) ++ (It_Flag <$> spec_flags s))%list.

Lemma line_items s : line (items s) = usage_line s.
Proof. unfold line, items, usage_line. by rewrite !fmap_app, <- !list_fmap_compose. Qed.

(** Reading them back collects them. *)
Lemma collect_items s : foldl (λ s i, push_item i s) ArgSpec_default (items s) = s.
Proof.
  unfold items. rewrite !foldl_app.
  assert (∀ l s, foldl (λ s i, push_item i s) s (It_Positional <$> l)
                 = mkArgSpec (spec_positional s ++ l) (spec_flags s) (spec_options s) (spec_variadic s)) as Hp.
  { induction l as [|d l IH]; intros t; simpl.
    - rewrite app_nil_r. by destruct t.
    - rewrite IH. simpl. by rewrite <- app_assoc. }
  assert (∀ l s, foldl (λ s i, push_item i s) s (It_Option <$> l)
                 = mkArgSpec (spec_positional s) (spec_flags s) (spec_options s ++ l) (spec_variadic s)) as Ho.
  { induction l as [|d l IH]; intros t; simpl.
    - rewrite app_nil_r. by destruct t.
    - rewrite IH. simpl. by rewrite <- app_assoc. }
  assert (∀ l s, foldl (λ s i, push_item i s) s (It_Flag <$> l)
                 = mkArgSpec (spec_positional s) (spec_flags s ++ l) (spec_options s) (spec_variadic s)) as Hf.
  { induction l as [|d l IH]; intros t; simpl.
    - rewrite app_nil_r. by destruct t.
    - rewrite IH. simpl. by rewrite <- app_assoc. }
  rewrite Hf, Ho, Hp. destruct s as [p f o [v|]]; done.
Qed.

Lemma fits_app st l1 l2 : fits st (l1 ++ l2) ↔ fits st l1 ∧ fits (foldl add_item st l1) l2.
Proof.
  revert st. induction l1 as [|i l1 IH]; intros st; simpl; [naive_solver |]. rewrite IH. naive_solver.
Qed.

(** Names that are new, one by one. *)
Lemma names_after st l :
  pt_names (foldl add_item st l) = list_to_set (item_name <$> l) ∪ pt_names st.
Proof.
  revert st. induction l as [|i l IH]; intros st; simpl; [set_solver |]. rewrite IH. simpl. set_solver.
Qed.

(** Parts whose order does not matter: [P] says that [i] fits apart from its name. *)
Lemma fits_names (P : SpecState → Item → Prop) st l :
  (∀ st i, item_name i ∉ pt_names st → P st i → may_follow st i) →
  (∀ st i j, i ∈ l → j ∈ l → P st i → P st j → P (add_item st i) j) →
  NoDup (item_name <$> l) → (∀ i, i ∈ l → item_name i ∉ pt_names st ∧ P st i) →
  fits st l.
Proof.
  intros Hfollow. revert st. induction l as [|i l IH]; intros st Hstep Hnd H; [done |].
  simpl in Hnd. apply NoDup_cons in Hnd as [Hi Hnd].
  destruct (H i) as [Hn Hp]; [by left |]. split; [by apply Hfollow |].
  apply IH; [intros; apply Hstep; [by right.. | done | done] | done |].
  intros j Hj. destruct (H j) as [Hn' Hp']; [by right |]. split.
  - simpl. apply not_elem_of_union. split; [| done]. apply not_elem_of_singleton.
    intros E. apply Hi. rewrite <- E. by apply list_elem_of_fmap_2.
  - apply Hstep; [by left | by right | done | done].
Qed.

Lemma items_names s : item_name <$> items s ≡ₚ known_names s.
Proof.
  unfold items, known_names. rewrite !fmap_app, <- !list_fmap_compose. simpl.
  apply Permutation_app_head. rewrite (Permutation_app_comm (_ <$> option_list _)).
  by rewrite <- app_assoc.
Qed.

Lemma items_good s : shown s → Forall item_good (items s).
Proof.
  intros [Hn _ Hf Ho _]. rewrite <- (items_names s), Forall_fmap in Hn.
  apply Forall_forall. intros i Hi. split; [by apply (proj1 (Forall_forall _ _) Hn) |].
  destruct i as [d|v|o|f]; try done; unfold items in Hi; rewrite !elem_of_app, !list_elem_of_fmap in Hi.
  - destruct Hi as [(x & ? & ?)|[(x & ? & ?)|[(x & E & Hx)|(x & ? & ?)]]]; try done.
    injection E as ->. by apply (proj1 (Forall_forall _ _) Ho).
  - destruct Hi as [(x & ? & ?)|[(x & ? & ?)|[(x & ? & ?)|(x & E & Hx)]]]; try done.
    injection E as ->. by apply (proj1 (Forall_forall _ _) Hf).
Qed.

(** The last part of a list of parts fits when each prefix does. *)
Lemma fits_positional st l :
  has_variadic st = false →
  (∃ l1 l2, l = (l1 ++ l2)%list ∧
     Forall (λ d, arg_required d = true) l1 ∧ Forall (λ d, arg_required d = false) l2) →
  pt_optional st = false → NoDup (arg_name <$> l) → (∀ d, d ∈ l → arg_name d ∉ pt_names st) →
  fits st (It_Positional <$> l).
Proof.
  intros Hv (l1 & l2 & -> & H1 & H2) Ho Hnd Hf. rewrite fmap_app. apply fits_app.
  rewrite fmap_app in Hnd. apply NoDup_app in Hnd as (Hnd1 & Hdisj & Hnd2).
  assert (∀ l, item_name <$> (It_Positional <$> l) = arg_name <$> l) as En
    by (intros l; by rewrite <- list_fmap_compose).
  split.
  - apply (fits_names (λ st i, has_variadic st = false ∧ pt_optional st = false ∧
      match i with It_Positional d => arg_required d = true | _ => False end)).
    + intros st' [d| | |] Hn (? & ? & ?); simpl; try done; by destruct (has_variadic st').
    + intros st' [d| | |] [d'| | |] _ _ (? & Hp & Hd) (? & ? & ?); try done.
      split_and!; try done. simpl. by rewrite Hp, Hd.
    + by rewrite En.
    + intros i (d & -> & Hd)%list_elem_of_fmap. split; [apply Hf, elem_of_app; by left |].
      split_and!; [done.. |]. by apply (proj1 (Forall_forall _ _) H1).
  - apply (fits_names (λ st i, has_variadic st = false ∧
      match i with It_Positional d => arg_required d = false | _ => False end)).
    + intros st' [d| | |] Hn (? & Hd); simpl; try done. split_and!; try done. by rewrite Hd.
    + intros st' [d| | |] [d'| | |] _ _ (? & Hd) (? & ?); done.
    + by rewrite En.
    + intros i (d & -> & Hd)%list_elem_of_fmap. split.
      * rewrite names_after, En. apply not_elem_of_union. split.
        -- intros Hin%elem_of_list_to_set. eapply Hdisj; [exact Hin |].
           by apply (list_elem_of_fmap_2 arg_name).
        -- apply Hf, elem_of_app. by right.
      * split; [| by apply (proj1 (Forall_forall _ _) H2)].
        clear -Hv. revert st Hv. induction l1 as [|d1 l1 IH]; intros st Hv; [done |]. by apply IH.
Qed.

Lemma variadic_after_positional st l :
  has_variadic (foldl add_item st (It_Positional <$> l)) = has_variadic st.
Proof. revert st. induction l as [|d l IH]; intros st; [done |]. simpl. by rewrite IH. Qed.

Lemma shown_fits s : shown s → fits (mkSpecState ArgSpec_default ∅ false) (items s).
Proof.
  intros [_ Hd _ _ Hp]. rewrite <- (items_names s) in Hd.
  unfold items in *. rewrite !fmap_app, <- !list_fmap_compose in Hd.
  apply NoDup_app in Hd as (Hd1 & Hx1 & Hd2). rewrite fits_app.
  split; [by apply fits_positional |].
  assert (∀ n, n ∈ item_name ∘ It_Variadic <$> option_list (spec_variadic s) ∨
               n ∈ ((item_name ∘ It_Option <$> spec_options s)
                    ++ (item_name ∘ It_Flag <$> spec_flags s))%list →
               n ∉ pt_names (foldl add_item (mkSpecState ArgSpec_default ∅ false)
                               (It_Positional <$> spec_positional s))) as Hnew.
  { intros n Hn. rewrite names_after, <- list_fmap_compose. simpl. rewrite union_empty_r_L.
    intros Hin%elem_of_list_to_set. eapply Hx1; [exact Hin |]. by apply elem_of_app. }
  set (st := foldl _ _ _) in *. apply NoDup_app in Hd2 as (Hd2 & Hx2 & Hd3).
  assert (has_variadic st = false) as Hv by apply variadic_after_positional.
  apply fits_app. split.
  - destruct (spec_variadic s) as [v|]; simpl; [| done]. split; [| done].
    split; [| done]. apply Hnew. left. by left.
  - apply (fits_names (λ _ i, match i with It_Option _ | It_Flag _ => True | _ => False end)).
    + intros st' [d|v|o|f] Hn HP; done.
    + intros st' i j _ _ _ Hj; done.
    + by rewrite fmap_app, <- !list_fmap_compose.
    + intros i Hi. split.
      * rewrite names_after. apply not_elem_of_union.
        assert (item_name i ∈ ((item_name ∘ It_Option <$> spec_options s)
                              ++ (item_name ∘ It_Flag <$> spec_flags s))%list) as Hin.
        { apply (list_elem_of_fmap_2 item_name) in Hi. by rewrite fmap_app, <- !list_fmap_compose in Hi. }
        split; [| by apply Hnew; right]. intros Hv'%elem_of_list_to_set.
        rewrite <- list_fmap_compose in Hv'. by eapply Hx2.
      * apply elem_of_app in Hi as [Hi|Hi]; apply list_elem_of_fmap in Hi as (x & -> & _); done.
Qed.

(** What a usage line does not show: the short names. *)
Definition without_short (s : ArgSpec) : ArgSpec :=
  mkArgSpec (spec_positional s) ((λ f, mkFlagDef (flag_name f) None) <$> spec_flags s)
    ((λ o, mkOptionDef (opt_name o) None (opt_required o)) <$> spec_options s) (spec_variadic s).

Lemma usage_without_short s : usage_line (without_short s) = usage_line s.
Proof. unfold usage_line. simpl. by rewrite <- !list_fmap_compose. Qed.

Lemma shown_without_short s :
  Forall (λ n, good_name n = true) (known_names s) → NoDup (known_names s) →
  (∃ l1 l2, spec_positional s = (l1 ++ l2)%list ∧
     Forall (λ d, arg_required d = true) l1 ∧ Forall (λ d, arg_required d = false) l2) →
  shown (without_short s).
Proof.
  intros Hn Hd Hp.
  assert (known_names (without_short s) = known_names s) as Hk.
  { unfold known_names. simpl. by rewrite <- !list_fmap_compose. }
  split; [by rewrite Hk | by rewrite Hk | | | exact Hp].
  - apply Forall_fmap, Forall_true. done.
  - apply Forall_fmap, Forall_true. done.
Qed.

(** C30. The usage line of a specification of arguments reads back as that
    specification without its short names, which the line does not show: parsing
    and printing agree on required and optional positional arguments, variadic
    ones, options and flags, in this order.  It takes that the names are
    distinct, not empty, of letters, digits, [_] and [-] and do not begin with
    [-], and that the required positional arguments come first. *)
Theorem usage_line_parses_back (s : ArgSpec) :
  Forall (λ n, good_name n = true) (known_names s) → NoDup (known_names s) →
  (∃ l1 l2, spec_positional s = (l1 ++ l2)%list ∧
     Forall (λ d, arg_required d = true) l1 ∧ Forall (λ d, arg_required d = false) l2) →
  parse_arg_spec (usage_line s) = Ok (without_short s).
Proof.
  intros Hn Hd Hp. pose proof (shown_without_short s Hn Hd Hp) as Hs.
  rewrite <- usage_without_short, <- line_items, parse_line; [by rewrite collect_items | |].
  - by apply items_good.
  - by apply shown_fits.
Qed.

Definition sample_spec : ArgSpec :=
  mkArgSpec [mkArgDef "name" true; mkArgDef "branch" false] [mkFlagDef "dry-run" None]
    [mkOptionDef "base" None true; mkOptionDef "out_2" None false] (Some (mkVariadicDef "files" false)).

(** The same with a short name for its flag. *)
Definition short_spec : ArgSpec :=
  mkArgSpec (spec_positional sample_spec) [mkFlagDef "dry-run" (Some "n")] (spec_options sample_spec)
    (spec_variadic sample_spec).

Lemma usage_line_parses_back_witness :
  usage_line short_spec = "<name> [branch] [files...] --base <base> [--out_2 <out_2>] [--dry-run]" ∧
  parse_arg_spec (usage_line short_spec) = Ok (without_short short_spec) ∧
  without_short short_spec = sample_spec.
Proof.
  split; [reflexivity |]. split; [| reflexivity]. apply usage_line_parses_back.
  - by repeat constructor.
  - apply (bool_decide_unpack (NoDup (known_names short_spec))). vm_compute. exact I.
  - exists [mkArgDef "name" true], [mkArgDef "branch" false]. by repeat constructor.
Defined.

(** ** Arguments that validate *)

Lemma bind_positional_keeps defs positional m k :
  is_Some (m !! k) → is_Some (bind_positional defs positional m !! k).
Proof.
  revert positional m. induction defs as [|d defs IH]; intros [|v positional] m Hm; try done.
  cbn [bind_positional]. apply IH.
  destruct (decide (arg_name d = k)) as [<-|]; [by rewrite lookup_insert_eq; eexists |].
  by rewrite lookup_insert_ne.
Qed.

Lemma bind_positional_binds defs positional m i d :
  defs !! i = Some d → is_Some (positional !! i) →
  is_Some (bind_positional defs positional m !! arg_name d).
Proof.
  revert positional m i. induction defs as [|e defs IH]; intros [|v positional] m [|i] Hd Hv;
    try done; try by destruct Hv.
  - injection Hd as ->. cbn [bind_positional]. apply bind_positional_keeps.
    rewrite lookup_insert_eq. by eexists.
  - by eapply IH.
Qed.

Lemma bind_positional_known defs positional m k :
  is_Some (bind_positional defs positional m !! k) → k ∈ arg_name <$> defs ∨ is_Some (m !! k).
Proof.
  revert positional m. induction defs as [|d defs IH]; intros [|v positional] m H; try by right.
  destruct (IH _ _ H) as [Hin|Hm]; [left; by right |].
  destruct (decide (arg_name d = k)) as [<-|Hne]; [left; by left |].
  rewrite lookup_insert_ne in Hm by done. by right.
Qed.

(** The names of an argument list that must have a value. *)
Definition required_names (s : ArgSpec) : list string :=
  (omap (λ d, if arg_required d then Some (arg_name d) else None) (spec_positional s)
   ++ omap (λ d, if opt_required d then Some (opt_name d) else None) (spec_options s)
   ++ omap (λ d, if variadic_required d then Some (variadic_name d) else None)
        (option_list (spec_variadic s)))%list.

Lemma for_each_i_ok {E A} (f : nat → A → Res E unit) i l :
  for_each_i f i l = Ok tt → ∀ j x, l !! j = Some x → f (i + j)%nat x = Ok tt.
Proof.
  revert i. induction l as [|x l IH]; intros i H [|j] y Hj; try done; simpl in *;
    apply bind_ok_iff in H as [Hx Hl].
  - injection Hj as <-. by rewrite Nat.add_0_r.
  - rewrite Nat.add_succ_r. by apply (IH (S i) Hl).
Qed.

(** [parse_args] without the named arguments. *)
Definition unnamed_args (c : CommandDef) (positional : list string) : gmap string string :=
  let result := bind_positional (spec_positional (command_args c)) positional (command_defaults c) in
  match spec_variadic (command_args c) with
  | Some v =>
      match drop (length (spec_positional (command_args c))) positional with
      | [] => result
      | values => <[variadic_name v := String.concat " " values]> result
      end
  | None => result
  end.

Section Arguments.
Context `{HO : !HashOrder} (c : CommandDef) (positional : list string) (named : gmap string string).

Lemma unnamed_keeps k :
  is_Some (bind_positional (spec_positional (command_args c)) positional (command_defaults c) !! k) →
  is_Some (unnamed_args c positional !! k).
Proof.
  unfold unnamed_args. destruct (spec_variadic _) as [v|]; [| done]. destruct (drop _ _); [done |].
  intros H. destruct (decide (variadic_name v = k)) as [->|]; [by rewrite lookup_insert_eq; eexists |].
  by rewrite lookup_insert_ne.
Qed.

Lemma parse_args_eq : parse_args c positional named = named ∪ unnamed_args c positional.
Proof. done. Qed.

Lemma named_bound k : has_named c named k = true → is_Some (parse_args c positional named !! k).
Proof.
  rewrite parse_args_eq. unfold has_named. rewrite orb_true_iff, !bool_decide_eq_true.
  intros [H|H]; rewrite lookup_union_is_Some; [by left | right].
  by apply unnamed_keeps, bind_positional_keeps.
Qed.

Lemma args_known k :
  Forall (λ n, n ∈ known_names (command_args c)) (hash_order (dom named)) →
  is_Some (parse_args c positional named !! k) →
  k ∈ known_names (command_args c) ∨ is_Some (command_defaults c !! k).
Proof.
  rewrite parse_args_eq, lookup_union_is_Some. intros Hn [H|H].
  - left. apply (proj1 (Forall_forall _ _) Hn). rewrite (hash_order_perm (dom named)).
    by apply elem_of_elements, elem_of_dom.
  - assert (is_Some (bind_positional (spec_positional (command_args c)) positional
                       (command_defaults c) !! k)
            ∨ k ∈ variadic_name <$> option_list (spec_variadic (command_args c))) as [Hb|Hv].
    { revert H. unfold unnamed_args. destruct (spec_variadic _) as [v|]; [| by left].
      destruct (drop _ _); [by left |].
      destruct (decide (variadic_name v = k)) as [<-|]; [right; by left |].
      rewrite lookup_insert_ne by done. by left. }
    + apply bind_positional_known in Hb as [Hb|Hb]; [left | by right].
      unfold known_names. rewrite !elem_of_app. by left.
    + left. unfold known_names. rewrite !elem_of_app. by do 3 right.
Qed.

(** Arguments that pass validation give every required name a value, and give
    values to no names but those of the specification and the defaults. *)
Theorem validated_args_complete :
  validate_args c positional named = Ok tt →
  (∀ k, k ∈ required_names (command_args c) → is_Some (parse_args c positional named !! k)) ∧
  (∀ k, is_Some (parse_args c positional named !! k) →
        k ∈ known_names (command_args c) ∨ is_Some (command_defaults c !! k)).
Proof.
  unfold validate_args. cbv zeta. rewrite !bind_ok_iff.
  intros (Hk & Hp & Ho & Hv). rewrite for_each_ok in Hk. rewrite for_each_ok in Ho.
  assert (Forall (λ n, n ∈ known_names (command_args c)) (hash_order (dom named))) as Hknown.
  { eapply Forall_impl; [exact Hk |]. intros k H. by apply ensure_ok, listed_spec in H. }
  split; [| intros k; by apply args_known].
  intros k. unfold required_names. rewrite !elem_of_app, !list_elem_of_omap.
  intros [(d & Hd & E)|[(d & Hd & E)|(d & Hd & E)]].
  - destruct (arg_required d) eqn:Er; [| done]. injection E as <-.
    apply list_elem_of_lookup in Hd as [i Hi].
    pose proof (for_each_i_ok _ _ _ Hp i d Hi) as H. apply ensure_ok in H. simpl in H.
    rewrite Er, !orb_true_iff, bool_decide_eq_true in H. destruct H as [[H|H]|H]; [done | |].
    + rewrite parse_args_eq, lookup_union_is_Some. right.
      apply unnamed_keeps. by eapply bind_positional_binds.
    + by apply named_bound.
  - destruct (opt_required d) eqn:Er; [| done]. injection E as <-.
    pose proof (proj1 (Forall_forall _ _) Ho d Hd) as H. apply ensure_ok in H.
    rewrite Er in H. simpl in H. by apply named_bound.
  - destruct (spec_variadic (command_args c)) as [v|] eqn:Es; [| by apply not_elem_of_nil in Hd].
    apply list_elem_of_singleton in Hd as ->. destruct (variadic_required v) eqn:Er; [| done].
    injection E as <-. apply ensure_ok in Hv. simpl in Hv.
    apply orb_true_iff in Hv as [Hl|H]; [| by apply named_bound].
    rewrite parse_args_eq, lookup_union_is_Some. right. unfold unnamed_args. rewrite Es.
    apply Nat.ltb_lt in Hl. destruct (drop _ _) eqn:Ed.
    { apply (f_equal length) in Ed. rewrite length_drop in Ed. simpl in Ed. lia. }
    rewrite lookup_insert_eq. by eexists.
Qed.
End Arguments.

Definition sample_command : CommandDef :=
  mkCommandDef "fix" None sample_spec {["base" := "main"]} (Run_Job "fix").

Lemma validated_args_complete_witness :
  validate_args (HO := plain_order) sample_command ["bug"; "b1"; "x"; "y"] {["dry-run" := "true"]}
    = Ok tt ∧
  is_Some (parse_args sample_command ["bug"; "b1"; "x"; "y"] {["dry-run" := "true"]} !! "name").
Proof.
  split; [vm_compute; reflexivity |].
  apply (validated_args_complete (HO := plain_order)); [vm_compute; reflexivity |].
  by left.
Defined.
