(* ===== verification/RunbookImport.v ===== *)
(** The comments of runbook files: the text functions of
    [crates/runbook/src/find.rs]. *)

From S2P Require Import Prelude Runbook Bytes Vars Slug Monitor ShellAst RunbookParse.

Local Open Scope string_scope.

Definition cr_str : string := String "013"%char EmptyString.

(** [str::lines]: the lines without their line ends. *)
Definition without_line_end (l : string) : string :=
  match strip_suffix newline_str l with
  | Some l' => default l' (strip_suffix cr_str l')
  | None => l
  end.
Definition str_lines (s : string) : list string := without_line_end <$> raw_lines s.

Record FileComment := mkFileComment { comment_short : string; comment_long : string }.

Definition strip_comment_prefix (line : string) : string :=
  match strip_prefix "# " line with
  | Some l => l
  | None => default "" (strip_prefix "#" line)
  end.

(** The lines before the first empty one, and those after it. *)
Fixpoint split_at_empty (lines : list string) : list string * list string :=
  match lines with
  | [] => ([], [])
  | l :: lines =>
      if is_empty l then ([], lines)
      else let '(short, long) := split_at_empty lines in (l :: short, long)
  end.

Definition file_comment (lines : list string) : option FileComment :=
  match lines with
  | [] => None
  | _ =>
      let '(short_lines, long_lines) := split_at_empty lines in
      Some (mkFileComment (String.concat newline_str short_lines)
              (String.concat newline_str long_lines))
  end.

(** The loop of [extract_file_comment]; blank lines before the comment are skipped. *)
Fixpoint leading_comment (started : bool) (lines : list string) : list string :=
  match lines with
  | [] => []
  | line :: lines =>
      let trimmed := trim line in
      if starts_with "#" trimmed then strip_comment_prefix trimmed :: leading_comment true lines
      else if is_empty trimmed && negb started then leading_comment started lines
      else []
  end.

Definition extract_file_comment (content : string) : option FileComment :=
  file_comment (leading_comment false (str_lines content)).

(** The name in [command "name"]. *)
Definition command_block_name (line : string) : option string :=
  rest ← strip_prefix "command " (trim line);
  match trim rest with
  | EmptyString => None
  | String a after_quote =>
      if Ascii.eqb a "034"%char then fst <$> split_once "034"%char after_quote else None
  end.

(** The comment above a line; [prev] are the lines before it, the nearest first. *)
Fixpoint comment_above (prev comment_lines : list string) : list string :=
  match prev with
  | [] => comment_lines
  | line :: prev =>
      let trimmed := trim line in
      if starts_with "#" trimmed then
        comment_above prev (strip_comment_prefix trimmed :: comment_lines)
      else if is_empty trimmed then
        match comment_lines with
        | [] => comment_above prev comment_lines
        | _ => comment_lines
        end
      else comment_lines
  end.

(** The loop of [extract_block_comments]; a later block of the same name
    replaces the comment. *)
Fixpoint block_comments_from (prev lines : list string) (result : gmap string FileComment) :
    gmap string FileComment :=
  match lines with
  | [] => result
  | line :: lines =>
      let result :=
        match command_block_name line with
        | Some name =>
            match file_comment (comment_above prev []) with
            | Some comment => <[name := comment]> result
            | None => result
            end
        | None => result
        end in
      block_comments_from (line :: prev) lines result
  end.

Definition extract_block_comments (content : string) : gmap string FileComment :=
  block_comments_from [] (str_lines content) ∅.

(** The second line of a short comment, or its only one. *)
Definition description_line (comment : FileComment) : string :=
  let lines := str_lines (comment_short comment) in
  match lines !! 1 with
  | Some l => l
  | None => default "" (head lines)
  end.

(** A command without a description takes it from the comments of its file. *)
Definition describe (block_comments : gmap string FileComment) (file_comment : option FileComment)
    (name : string) (c : CommandDef) : CommandDef :=
  match command_description c with
  | Some _ => c
  | None =>
      match (match block_comments !! name with Some comment => Some comment | None => file_comment end) with
      | Some comment =>
          let desc_line := description_line comment in
          if is_empty desc_line then c
          else mkCommandDef (command_name c) (Some desc_line) (command_args c)
                 (command_defaults c) (command_run c)
      | None => c
      end
  end.

(** [Path::extension]: what follows the last dot of the file name, unless the
    name starts with it. *)
Definition path_extension (path : string) : option string :=
  let file_name := match rfind "/" path with Some i => drop_str (S i) path | None => path end in
  match rfind "." file_name with
  | Some (S i) => Some (drop_str (S (S i)) file_name)
  | _ => None
  end.

Definition format_for_path (path : string) : option Format :=
  match path_extension path with
  | Some e =>
      if String.eqb e "toml" then Some Format_Toml
      else if String.eqb e "hcl" then Some Format_Hcl
      else if String.eqb e "json" then Some Format_Json
      else None
  | None => None
  end.

(** Imports of libraries into runbooks: [crates/runbook/src/import.rs].

    The patterns for directives and constants are the class [ConstPatterns]; the
    libraries, which the build generates, are the class [Libraries]. *)

Local Open Scope string_scope.

Class ConstPatterns := {
  (** [IF_DIRECTIVE]: the name, the operator and the literal. *)
  if_directive : string → option (string * string * string);
  else_directive : string → bool;
  endif_directive : string → bool;
  (** [replace_all], given the whole match and the name. *)
  replace_raw : (string → string → string) → string → string;
  replace_const : (string → string → string) → string → string
}.

Class Libraries := { builtin_libraries : list (string * list (string * string)) }.

Inductive ImportWarning :=
  | Import_LocalOverride (entity_type name source : string)
  | Import_UnknownConst (source name : string).

Definition warning_display (w : ImportWarning) : string :=
  match w with
  | Import_LocalOverride entity_type name source =>
      "local " +:+ entity_type +:+ " '" +:+ name +:+ "' overrides imported from '" +:+ source +:+ "'"
  | Import_UnknownConst source name =>
      "unknown const '" +:+ name +:+ "' for import '" +:+ source +:+ "'"
  end.

Definition const_values (d : ImportDef) : gmap string string :=
  import_const_value <$> import_consts d.

(** ** Constants *)

Section Consts.
Context `{CP : !ConstPatterns}.

(** Whether lines are kept; the innermost directive comes first. *)
Definition active (stack : list (bool * bool)) : bool :=
  match stack with [] => true | (a, _) :: _ => a end.

Definition condition (values : gmap string string) (name op literal : string) : bool :=
  let matches := String.eqb (default "" (values !! name)) literal in
  if String.eqb op "==" then matches else negb matches.

(** The loop of [process_const_directives]: the lines that are kept. *)
Fixpoint process_lines (values : gmap string string) (lines : list string)
    (stack : list (bool * bool)) : Res string (list string) :=
  match lines with
  | [] => match stack with [] => Ok [] | _ => Err "unclosed if directive" end
  | line :: lines =>
      match if_directive line with
      | Some (name, op, literal) =>
          process_lines values lines
            ((active stack && condition values name op literal, false) :: stack)
      | None =>
          if else_directive line then
            match stack with
            | [] => Err "else without matching if"
            | (a, else_seen) :: parents =>
                if (else_seen : bool) then Err "duplicate else"
                else process_lines values lines ((active parents && negb a, true) :: parents)
            end
          else if endif_directive line then
            match stack with
            | [] => Err "endif without matching if"
            | _ :: stack => process_lines values lines stack
            end
          else
            kept ← process_lines values lines stack;
            Ok (if active stack then line :: kept else kept)
      end
  end.

Definition process_const_directives (content : string) (values : gmap string string) :
    Res string string :=
  kept ← process_lines values (split_all newline content) [];
  Ok (String.concat newline_str kept).

Definition interpolate_consts (content : string) (values : gmap string string) : Res string string :=
  content ← process_const_directives content values;
  let result := replace_raw (λ whole name, default whole (values !! name)) content in
  Ok (replace_const (λ whole name, match values !! name with
                                   | Some val => escape_for_shell val
                                   | None => whole
                                   end) result).
End Consts.

Section Validate.
Context `{HO : !HashOrder}.

Definition import_location (source : string) : string :=
  "import " +:+ String "034" (source +:+ String "034" "").

Definition missing_const (source name : string) : RunbookError :=
  Rb_InvalidFormat (import_location source)
    ("missing required const '" +:+ name +:+ "'; add const " +:+ String "034" (name +:+ String "034"
       (" { value = " +:+ String "034" ("..." +:+ String "034" " }")))).

(** A value for every const that is defined. *)
Fixpoint resolve_consts (source : string) (defs : list (string * ConstDef))
    (provided values : gmap string string) : Res RunbookError (gmap string string) :=
  match defs with
  | [] => Ok values
  | (name, def) :: defs =>
      match provided !! name with
      | Some val => resolve_consts source defs provided (<[name := val]> values)
      | None =>
          match const_default def with
          | Some d => resolve_consts source defs provided (<[name := d]> values)
          | None => Err (missing_const source name)
          end
      end
  end.

Definition validate_consts (defs : gmap string ConstDef) (provided : gmap string string)
    (source : string) : Res RunbookError (gmap string string * list ImportWarning) :=
  values ← resolve_consts source (entries defs) provided ∅;
  Ok (values,
      omap (λ name, match defs !! name with
                    | Some _ => None
                    | None => Some (Import_UnknownConst source name)
                    end) (hash_order (dom provided))).
End Validate.

(** ** Libraries *)

Definition resolve_library `{!Libraries} (source : string) :
    Res RunbookError (list (string * string)) :=
  match List.find (λ '(s, _), String.eqb s source) builtin_libraries with
  | Some (_, files) => Ok files
  | None =>
      Err (Rb_InvalidFormat (import_location source)
             ("unknown library '" +:+ source +:+ "'; available libraries: "
              +:+ String.concat ", " builtin_libraries.*1))
  end.

Record LibraryInfo := mkLibraryInfo {
  lib_source : string;
  lib_files : list (string * string);
  lib_description : string
}.

Definition available_libraries `{!Libraries} : list LibraryInfo :=
  (λ '(source, files),
     mkLibraryInfo source files
       (default "" (comment_short <$>
          (head files ≫= λ '(_, content), extract_file_comment content)))) <$> builtin_libraries.

(** ** Merging *)

Section Merge.
Context `{HO : !HashOrder}.

(** [merge_map]; it always succeeds. *)
Definition merge_entry {V} (entity_type import_source : string)
    (acc : gmap string V * list ImportWarning) (entry : string * V) :
    gmap string V * list ImportWarning :=
  let '(target, warnings) := acc in
  let '(name, value) := entry in
  match target !! name with
  | Some _ =>
      (target, (warnings ++ [Import_LocalOverride entity_type name import_source])%list)
  | None => (<[name := value]> target, warnings)
  end.
Definition merge_map {V} (entity_type import_source : string) (target source : gmap string V)
    (warnings : list ImportWarning) : gmap string V * list ImportWarning :=
  foldl (merge_entry entity_type import_source) (target, warnings) (entries source).

(** [rename_keys]: the new map is collected from the iteration. *)
Definition rename_keys {V} (renames : gmap string string) (m : gmap string V) : gmap string V :=
  foldl (λ acc '(k, v), <[default k (renames !! k) := v]> acc) ∅ (entries m).

(** The new names of the entities of one kind. *)
Definition renames_of {V} (prefix : string) (m : gmap string V) : gmap string string :=
  map_imap (λ k _, Some (prefix +:+ ":" +:+ k)) m.

Definition renamed (renames : gmap string string) (name : string) : string :=
  default name (renames !! name).

Definition rename_run_directive (job_renames agent_renames : gmap string string)
    (directive : RunDirective) : RunDirective :=
  match directive with
  | Run_Job job => Run_Job (renamed job_renames job)
  | Run_Agent agent attach => Run_Agent (renamed agent_renames agent) attach
  | Run_Shell cmd => Run_Shell cmd
  end.

(** The cross-references of a runbook under new names. *)
Definition rename_refs (queues jobs agents : gmap string string) (r : Runbook) : Runbook :=
  let run := rename_run_directive jobs agents in
  mkRunbook (rb_imports r) (rb_consts r)
    ((λ c, mkCommandDef (command_name c) (command_description c) (command_args c)
             (command_defaults c) (run (command_run c))) <$> rb_commands r)
    ((λ j, mkJobDef (def_kind j) (def_job_name j) (def_vars j) (def_defaults j) (def_cwd j)
             (def_workspace j) (def_job_on_done j) (def_job_on_fail j) (def_job_on_cancel j)
             (def_locals j) (def_notify j)
             ((λ s, mkStepDef (def_step_name s) (run (def_run s)) (def_on_done s) (def_on_fail s)
                      (def_on_cancel s)) <$> def_steps j)) <$> rb_jobs r)
    (rb_agents r) (rb_queues r)
    ((λ w, mkWorkerDef (worker_def_name w) (renamed queues (worker_source_queue w))
             (renamed jobs (worker_handler_job w)) (worker_def_concurrency w)) <$> rb_workers r)
    ((λ c, mkCronDef (cron_def_name c) (cron_interval c) (run (cron_run c))
             (cron_concurrency c)) <$> rb_crons r).

(** The keys are renamed, become the names as in [fixup_names], and the
    references follow. *)
Definition prefix_names (r : Runbook) (prefix : string) : Runbook :=
  let renamed_keys :=
    mkRunbook (rb_imports r) (rb_consts r)
      (rename_keys (renames_of prefix (rb_commands r)) (rb_commands r))
      (rename_keys (renames_of prefix (rb_jobs r)) (rb_jobs r))
      (rename_keys (renames_of prefix (rb_agents r)) (rb_agents r))
      (rename_keys (renames_of prefix (rb_queues r)) (rb_queues r))
      (rename_keys (renames_of prefix (rb_workers r)) (rb_workers r))
      (rename_keys (renames_of prefix (rb_crons r)) (rb_crons r)) in
  rename_refs (renames_of prefix (rb_queues r)) (renames_of prefix (rb_jobs r))
    (renames_of prefix (rb_agents r)) (fixup_names renamed_keys).

Definition merge_runbook (target source : Runbook) (alias : option string) (import_source : string) :
    Runbook * list ImportWarning :=
  let source := match alias with Some prefix => prefix_names source prefix | None => source end in
  let '(commands, w) := merge_map "command" import_source (rb_commands target) (rb_commands source) [] in
  let '(jobs, w) := merge_map "job" import_source (rb_jobs target) (rb_jobs source) w in
  let '(agents, w) := merge_map "agent" import_source (rb_agents target) (rb_agents source) w in
  let '(queues, w) := merge_map "queue" import_source (rb_queues target) (rb_queues source) w in
  let '(workers, w) := merge_map "worker" import_source (rb_workers target) (rb_workers source) w in
  let '(crons, w) := merge_map "cron" import_source (rb_crons target) (rb_crons source) w in
  (mkRunbook (rb_imports target) (rb_consts target) commands jobs agents queues workers crons, w).
End Merge.

(** ** The pipeline *)

Section Pipeline.
Context `{TR : !TemplateRegex} `{TC : !TemplateCaptures} `{HO : !HashOrder}.
Context `{RF : !RunbookFormat} `{CP : !ConstPatterns} `{LB : !Libraries}.

(** A runbook without its imports and consts. *)
Definition clear_metadata (r : Runbook) : Runbook :=
  mkRunbook ∅ ∅ (rb_commands r) (rb_jobs r) (rb_agents r) (rb_queues r) (rb_workers r) (rb_crons r).

Definition file_location (source filename : string) : string :=
  import_location (source +:+ "/" +:+ filename).

(** The consts of one file join those of the files before. *)
Fixpoint add_const_defs (source filename : string) (new : list (string * ConstDef))
    (all : gmap string ConstDef) : Res RunbookError (gmap string ConstDef) :=
  match new with
  | [] => Ok all
  | (name, def) :: new =>
      match all !! name with
      | Some existing =>
          if bool_decide (const_default existing = const_default def) then
            add_const_defs source filename new all
          else Err (Rb_InvalidFormat (import_location source)
                      ("conflicting const '" +:+ name +:+ "' in library file '" +:+ filename +:+ "'"))
      | None => add_const_defs source filename new (<[name := def]> all)
      end
  end.

Fixpoint collect_consts (source : string) (library_files : list (string * string))
    (all : gmap string ConstDef) : Res RunbookError (gmap string ConstDef) :=
  match library_files with
  | [] => Ok all
  | (filename, content) :: library_files =>
      stripped ← map_err (Rb_InvalidFormat (file_location source filename))
                   (process_const_directives content ∅);
      file_meta ← parse_runbook_no_xref stripped Format_Hcl;
      all ← add_const_defs source filename (entries (rb_consts file_meta)) all;
      collect_consts source library_files all
  end.

Definition with_commands (f : string → CommandDef → CommandDef) (r : Runbook) : Runbook :=
  mkRunbook (rb_imports r) (rb_consts r) (map_imap (λ name c, Some (f name c)) (rb_commands r))
    (rb_jobs r) (rb_agents r) (rb_queues r) (rb_workers r) (rb_crons r).

Fixpoint load_library (source : string) (values : gmap string string)
    (library_files : list (string * string)) (lib_runbook : Runbook) : Res RunbookError Runbook :=
  match library_files with
  | [] => Ok lib_runbook
  | (filename, content) :: library_files =>
      interpolated ← map_err (Rb_InvalidFormat (file_location source filename))
                       (interpolate_consts content values);
      file_runbook ← parse_runbook_with_format interpolated Format_Hcl;
      let file_runbook :=
        with_commands (describe (extract_block_comments content) (extract_file_comment content))
          (clear_metadata file_runbook) in
      load_library source values library_files
        (merge_runbook lib_runbook file_runbook None (source +:+ "/" +:+ filename)).1
  end.

Definition Runbook_default : Runbook := mkRunbook ∅ ∅ ∅ ∅ ∅ ∅ ∅ ∅.

(** One import into [runbook]. *)
Definition import_library (source : string) (import_def : ImportDef) (runbook : Runbook) :
    Res RunbookError (Runbook * list ImportWarning) :=
  library_files ← resolve_library source;
  all_const_defs ← collect_consts source library_files ∅;
  consts ← validate_consts all_const_defs (const_values import_def) source;
  let '(values, const_warnings) := (consts : gmap string string * list ImportWarning) in
  lib_runbook ← load_library source values library_files Runbook_default;
  validate_cross_refs lib_runbook ≫= λ _,
  let '(runbook, merge_warnings) :=
    merge_runbook runbook lib_runbook (import_alias import_def) source in
  Ok (runbook, (const_warnings ++ merge_warnings)%list).

Fixpoint import_all (imports : list (string * ImportDef)) (runbook : Runbook)
    (all_warnings : list ImportWarning) : Res RunbookError (Runbook * list ImportWarning) :=
  match imports with
  | [] => Ok (runbook, all_warnings)
  | (source, import_def) :: imports =>
      result ← import_library source import_def runbook;
      let '(runbook, warnings) := (result : Runbook * list ImportWarning) in
      import_all imports runbook (all_warnings ++ warnings)%list
  end.

Definition parse_with_imports (content : string) (format : Format) :
    Res RunbookError (Runbook * list ImportWarning) :=
  runbook ← parse_runbook_no_xref content format;
  let imports := rb_imports runbook in
  let runbook := clear_metadata runbook in
  if bool_decide (imports = ∅) then
    validate_cross_refs runbook ≫= λ _, Ok (runbook, [])
  else
    result ← import_all (entries imports) runbook [];
    let '(runbook, all_warnings) := (result : Runbook * list ImportWarning) in
    validate_cross_refs runbook ≫= λ _, Ok (runbook, all_warnings).
End Pipeline.
