(* ===== verification/RunbookImportSpec.v ===== *)
(** What imports promise: directives are nested blocks, and a runbook with its
    imports is as well typed as one without. *)

From S2P Require Import Prelude Bytes Slug Vars Runbook ShellAst RunbookParse RunbookSpec RunbookImport.

Local Open Scope string_scope.

(** ** Directives are nested blocks *)

Section Directives.
Context `{CP : !ConstPatterns}.

(** A text as a tree: plain lines, and conditionals with the lines of their
    directives. *)
Inductive Node :=
  | Node_Line (line : string)
  | Node_If (if_line name op literal : string) (yes : list Node)
      (otherwise : option (string * list Node)) (endif_line : string).

(** Whether each line is what the tree says. *)
Inductive well_formed : list Node → Prop :=
  | wf_nil : well_formed []
  | wf_line line ns :
      if_directive line = None → else_directive line = false → endif_directive line = false →
      well_formed ns → well_formed (Node_Line line :: ns)
  | wf_if if_line name op literal yes endif_line ns :
      if_directive if_line = Some (name, op, literal) →
      if_directive endif_line = None → else_directive endif_line = false →
      endif_directive endif_line = true →
      well_formed yes → well_formed ns →
      well_formed (Node_If if_line name op literal yes None endif_line :: ns)
  | wf_if_else if_line name op literal yes else_line no endif_line ns :
      if_directive if_line = Some (name, op, literal) →
      if_directive else_line = None → else_directive else_line = true →
      if_directive endif_line = None → else_directive endif_line = false →
      endif_directive endif_line = true →
      well_formed yes → well_formed no → well_formed ns →
      well_formed (Node_If if_line name op literal yes (Some (else_line, no)) endif_line :: ns).

(** The lines of a tree. *)
Fixpoint node_lines (n : Node) : list string :=
  match n with
  | Node_Line line => [line]
  | Node_If if_line _ _ _ yes otherwise endif_line =>
      ([if_line] ++ concat (map node_lines yes)
       ++ match otherwise with
          | Some (else_line, no) => else_line :: concat (map node_lines no)
          | None => []
          end ++ [endif_line])%list
  end.
Definition tree_lines (ns : list Node) : list string := concat (map node_lines ns).

(** The lines that are kept: one branch of every conditional. *)
Fixpoint node_kept (values : gmap string string) (n : Node) : list string :=
  match n with
  | Node_Line line => [line]
  | Node_If _ name op literal yes otherwise _ =>
      if condition values name op literal then concat (map (node_kept values) yes)
      else match otherwise with
           | Some (_, no) => concat (map (node_kept values) no)
           | None => []
           end
  end.
Definition tree_kept (values : gmap string string) (ns : list Node) : list string :=
  concat (map (node_kept values) ns).

(** A tree before the rest of a text adds what it keeps. *)
Lemma process_tree values ns rest stack :
  well_formed ns →
  process_lines values (tree_lines ns ++ rest) stack
  = (kept ← process_lines values rest stack;
     Ok ((if active stack then tree_kept values ns else []) ++ kept)%list).
Proof.
  intros H. revert rest stack.
  induction H as [|line ns H1 H2 H3 _ IH
                 |if_line name op literal yes endif_line ns Hi E1 E2 E3 _ IHy _ IHn
                 |if_line name op literal yes else_line no endif_line ns Hi L1 L2 E1 E2 E3 _ IHy _ IHo _ IHn];
    intros rest stack.
  - simpl. destruct (process_lines values rest stack); simpl; [| done..]. by destruct (active stack).
  - change (tree_lines (Node_Line line :: ns)) with (line :: tree_lines ns). simpl.
    rewrite H1, H2, H3, IH. destruct (process_lines values rest stack); simpl; [| done..].
    by destruct (active stack).
  - change (tree_lines (_ :: ns)) with
      ((if_line :: (tree_lines yes ++ [endif_line])) ++ tree_lines ns)%list.
    rewrite <- app_assoc. simpl. rewrite Hi, <- app_assoc, IHy. simpl.
    rewrite E1, E2, E3, IHn. destruct (process_lines values rest stack); simpl; [| done..].
    unfold tree_kept. simpl. destruct (active stack), (condition values name op literal); simpl; try done.
    by rewrite <- app_assoc.
  - change (tree_lines (_ :: ns)) with
      ((if_line :: (tree_lines yes ++ (else_line :: tree_lines no) ++ [endif_line])) ++ tree_lines ns)%list.
    simpl. rewrite Hi, <- !app_assoc, IHy. simpl. rewrite L1, L2, <- !app_assoc, IHo. simpl.
    rewrite E1, E2, E3, IHn. destruct (process_lines values rest stack); simpl; [| done..].
    unfold tree_kept. simpl. destruct (active stack), (condition values name op literal); simpl; try done;
      by rewrite <- app_assoc.
Qed.

(** What is left of a text after a tree: nothing at the top level, else the
    directive that ends the branch. *)
Definition ends_branch (stack : list (bool * bool)) (rest : list string) : Prop :=
  match rest with
  | [] => stack = []
  | line :: _ =>
      stack ≠ [] ∧ if_directive line = None ∧ (else_directive line = true ∨ endif_directive line = true)
  end.

(** Every text that is accepted starts with a tree. *)
Lemma process_parses values lines stack kept :
  process_lines values lines stack = Ok kept →
  ∃ ns rest, well_formed ns ∧ lines = (tree_lines ns ++ rest)%list ∧ ends_branch stack rest.
Proof.
  remember (length lines) as n eqn:Hn. revert lines stack kept Hn.
  induction n as [n IH] using lt_wf_ind. intros lines stack kept -> H.
  destruct lines as [|line lines].
  { exists [], []. split_and!; [constructor | done |]. by destruct stack. }
  simpl in H. destruct (if_directive line) as [[[name op] literal]|] eqn:Ei.
  - destruct (IH (length lines) ltac:(simpl; lia) _ _ _ eq_refl H)
      as (yes & rest & Hy & -> & Hr).
    rewrite process_tree in H by done.
    destruct rest as [|close rest]; [done |]. destruct Hr as (_ & Hc & Hk). simpl in H.
    rewrite Hc in H. destruct (else_directive close) eqn:Eo.
    + destruct (process_lines values rest _) as [kept1| |] eqn:E1; [| done..]. clear H.
      destruct (IH (length rest) ltac:(simpl; rewrite length_app; simpl; lia) _ _ _ eq_refl E1)
        as (no & rest1 & Hno & -> & Hr1).
      rewrite process_tree in E1 by done.
      destruct rest1 as [|close1 rest1]; [done |]. destruct Hr1 as (_ & Hc1 & Hk1). simpl in E1.
      rewrite Hc1 in E1. destruct (else_directive close1) eqn:Eo1; [done |].
      destruct Hk1 as [?|Hend]; [done |]. rewrite Hend in E1.
      destruct (process_lines values rest1 stack) as [kept2| |] eqn:E2; [| done..].
      destruct (IH (length rest1) ltac:(simpl; rewrite !length_app; simpl; rewrite length_app; simpl; lia)
                  _ _ _ eq_refl E2) as (ns & rest2 & Hns & -> & Hr2).
      exists (Node_If line name op literal yes (Some (close, no)) close1 :: ns), rest2.
      split_and!; [by econstructor | | done].
      change (tree_lines (_ :: ns)) with
        ((line :: (tree_lines yes ++ (close :: tree_lines no) ++ [close1])) ++ tree_lines ns)%list.
      simpl. by rewrite <- !app_assoc; simpl; rewrite <- !app_assoc.
    + destruct Hk as [?|Hend]; [done |]. rewrite Hend in H.
      destruct (process_lines values rest stack) as [kept2| |] eqn:E2; [| done..].
      destruct (IH (length rest) ltac:(simpl; rewrite length_app; simpl; lia) _ _ _ eq_refl E2)
        as (ns & rest2 & Hns & -> & Hr2).
      exists (Node_If line name op literal yes None close :: ns), rest2.
      split_and!; [by econstructor | | done].
      change (tree_lines (_ :: ns)) with
        ((line :: (tree_lines yes ++ [close])) ++ tree_lines ns)%list.
      simpl. by rewrite <- !app_assoc.
  - destruct (else_directive line) eqn:Eo.
    { destruct stack as [|[a seen] stack]; [done |].
      exists [], (line :: lines). split_and!; [constructor | done |]. by repeat split; [| | left]. }
    destruct (endif_directive line) eqn:Ee.
    { destruct stack as [|[a seen] stack]; [done |].
      exists [], (line :: lines). split_and!; [constructor | done |]. by repeat split; [| | right]. }
    destruct (process_lines values lines stack) as [kept1| |] eqn:E1; [| done..].
    destruct (IH (length lines) ltac:(simpl; lia) _ _ _ eq_refl E1) as (ns & rest & Hns & -> & Hr).
    exists (Node_Line line :: ns), rest. split_and!; [by constructor | done..].
Qed.

(** C31. Directives in a library are nested blocks: a text is accepted exactly when
    its lines are those of a well-formed tree, and what is kept of it is one
    branch of every conditional. *)
Theorem directives_are_blocks content values text :
  process_const_directives content values = Ok text ↔
  ∃ ns, well_formed ns ∧ split_all newline content = tree_lines ns ∧
        text = String.concat newline_str (tree_kept values ns).
Proof.
  unfold process_const_directives.
  assert (∀ ns, well_formed ns → process_lines values (tree_lines ns) [] = Ok (tree_kept values ns)) as Ht.
  { intros ns Hns. pose proof (process_tree values ns [] [] Hns) as H.
    rewrite app_nil_r in H. rewrite H. simpl. by rewrite app_nil_r. }
  split.
  - destruct (process_lines values (split_all newline content) []) as [kept| |] eqn:E; [| done..].
    intros [= <-]. destruct (process_parses _ _ _ _ E) as (ns & rest & Hns & Hl & Hr).
    destruct rest as [|line rest]; [| by destruct Hr]. rewrite app_nil_r in Hl.
    exists ns. split_and!; [done.. |]. rewrite Hl, Ht in E by done. by injection E as <-.
  - intros (ns & Hns & -> & ->). by rewrite Ht.
Qed.
End Directives.

(** ** Predicates on every entity *)

Record Kinds := mkKinds {
  kd_command : string → CommandDef → Prop;
  kd_job : string → JobDef → Prop;
  kd_agent : string → AgentDef → Prop;
  kd_queue : string → QueueDef → Prop;
  kd_worker : string → WorkerDef → Prop;
  kd_cron : string → CronDef → Prop
}.

Record every (K : Kinds) (r : Runbook) : Prop := {
  ev_commands : map_Forall (kd_command K) (rb_commands r);
  ev_jobs : map_Forall (kd_job K) (rb_jobs r);
  ev_agents : map_Forall (kd_agent K) (rb_agents r);
  ev_queues : map_Forall (kd_queue K) (rb_queues r);
  ev_workers : map_Forall (kd_worker K) (rb_workers r);
  ev_crons : map_Forall (kd_cron K) (rb_crons r)
}.

(** Entities under their own names. *)
Definition own_names : Kinds :=
  mkKinds (λ name c, command_name c = name) (λ name j, def_kind j = name)
    (λ name a, agent_def_name a = name) (λ name q, qdef_name q = name)
    (λ name w, worker_def_name w = name) (λ name c, cron_def_name c = name).

Record job_body (j : JobDef) : Prop := {
  jb_named : Forall (λ s, def_step_name s ≠ "") (def_steps j);
  jb_unique : NoDup (step_names j);
  jb_transitions : leads_to_step j (job_transitions j);
  jb_step_transitions : Forall (λ s, leads_to_step j (step_transitions s)) (def_steps j);
  jb_reachable : Forall (λ s, def_step_name s ∈ referenced_steps j) (drop 1 (def_steps j))
}.

(** What entities are apart from their names and references. *)
Definition good_bodies : Kinds :=
  mkKinds (λ _ _, True) (λ _ j, job_body j) (λ _ a, agent_typed (agent_def_name a) a)
    (λ _ q, queue_typed (qdef_name q) q) (λ _ _, True) (λ _ c, readable (cron_interval c)).

Lemma every_own_names r : every own_names r ↔ names_fixed r.
Proof. split; [intros []; by split_and! | intros (? & ? & ? & ? & ? & ?); by split]. Qed.

Lemma good_bodies_of r : names_fixed r → locally_typed r → every good_bodies r.
Proof.
  intros (Hj & Ha & Hq & _) []. split; try done.
  - intros k j Hk. destruct (lt_transitions k j Hk).
    split; [by eapply lt_step_names | by eapply lt_duplicates | done | done | by eapply lt_reachable].
  - intros k a Hk. simpl. rewrite (Ha k a Hk). by apply lt_agents.
  - intros k q Hk. simpl. rewrite (Hq k q Hk). by apply lt_queues.
Qed.

Lemma locally_typed_of r : every own_names r → every good_bodies r → locally_typed r.
Proof.
  intros [_ _ Ha Hq _ _] [_ Jj Ja Jq _ Jc]. split; try done;
    try (intros k j Hk; by destruct (Jj k j Hk)).
  - intros k a Hk. rewrite <- (Ha k a Hk). by eapply Ja.
  - intros k q Hk. rewrite <- (Hq k q Hk). by eapply Jq.
Qed.

(** ** Merging and renaming *)

Section MergeSpec.
Context `{HO : !HashOrder}.

Lemma foldl_entries_Forall {V W} (P : string → W → Prop) (Q : string → V → Prop)
    (f : gmap string W → string * V → gmap string W) (m : gmap string V) acc :
  (∀ acc k v, map_Forall P acc → Q k v → map_Forall P (f acc (k, v))) →
  map_Forall Q m → map_Forall P acc → map_Forall P (foldl f acc (entries m)).
Proof.
  intros Hf Hm. assert (Forall (λ kv, Q kv.1 kv.2) (entries m)) as Hall.
  { apply Forall_forall. intros [k v] Hin%entries_spec. by apply Hm. }
  revert acc. induction Hall as [|[k v] l Hkv _ IH]; intros acc Ha; [done |].
  simpl. apply IH, Hf; done.
Qed.

Lemma merge_map_Forall {V} (P : string → V → Prop) kind source_name (target source : gmap string V) w :
  map_Forall P target → map_Forall P source →
  map_Forall P (merge_map kind source_name target source w).1.
Proof.
  intros Ht Hs. unfold merge_map.
  assert (∀ l t w', (foldl (merge_entry kind source_name) (t, w') l).1
                    = foldl (λ t kv, match t !! kv.1 with
                                     | Some _ => t
                                     | None => <[kv.1 := kv.2]> t
                                     end) t l) as ->.
  { induction l as [|[k v] l IH]; intros t w'; [done |]. simpl. by destruct (t !! k). }
  apply (foldl_entries_Forall P P); try done. intros acc k v Ha Hkv. simpl.
  destruct (acc !! k); [done |]. by apply map_Forall_insert_mono.
Qed.

Lemma rename_keys_Forall {V} (P : V → Prop) renames (m : gmap string V) :
  map_Forall (λ _, P) m → map_Forall (λ _, P) (rename_keys renames m).
Proof.
  intros Hm. unfold rename_keys. apply (foldl_entries_Forall (λ _, P) (λ _, P)); try done.
  intros acc k v Ha Hkv. by apply map_Forall_insert_mono.
Qed.

Lemma merge_every K target source alias name :
  every K target →
  every K (match alias with Some prefix => prefix_names source prefix | None => source end) →
  every K (merge_runbook target source alias name).1.
Proof.
  intros [] Hs. unfold merge_runbook. cbv zeta. destruct Hs.
  set (src := match alias with Some prefix => _ | None => _ end) in *. clearbody src.
  pose proof (merge_map_Forall (kd_command K) "command" name (rb_commands target) (rb_commands src) []).
  destruct (merge_map "command" _ _ _ _) as [commands w1].
  pose proof (merge_map_Forall (kd_job K) "job" name (rb_jobs target) (rb_jobs src) w1).
  destruct (merge_map "job" _ _ _ _) as [jobs w2].
  pose proof (merge_map_Forall (kd_agent K) "agent" name (rb_agents target) (rb_agents src) w2).
  destruct (merge_map "agent" _ _ _ _) as [agents w3].
  pose proof (merge_map_Forall (kd_queue K) "queue" name (rb_queues target) (rb_queues src) w3).
  destruct (merge_map "queue" _ _ _ _) as [queues w4].
  pose proof (merge_map_Forall (kd_worker K) "worker" name (rb_workers target) (rb_workers src) w4).
  destruct (merge_map "worker" _ _ _ _) as [workers w5].
  pose proof (merge_map_Forall (kd_cron K) "cron" name (rb_crons target) (rb_crons src) w5).
  destruct (merge_map "cron" _ _ _ _) as [crons w6].
  split; simpl in *; auto.
Qed.

Lemma bind_fmap_list {A B C} (f : A → B) (g : B → list C) l :
  (f <$> l) ≫= g = l ≫= (λ x, g (f x)).
Proof. induction l as [|x l IH]; [done |]. rewrite fmap_cons, !bind_cons. by rewrite IH. Qed.

(** A job with other names and references has the same body. *)
Lemma rename_job_body j kind (run : RunDirective → RunDirective) :
  job_body j →
  job_body (mkJobDef kind (def_job_name j) (def_vars j) (def_defaults j) (def_cwd j)
    (def_workspace j) (def_job_on_done j) (def_job_on_fail j) (def_job_on_cancel j)
    (def_locals j) (def_notify j)
    ((λ s, mkStepDef (def_step_name s) (run (def_run s)) (def_on_done s) (def_on_fail s)
             (def_on_cancel s)) <$> def_steps j)).
Proof.
  set (f := λ s, mkStepDef (def_step_name s) (run (def_run s)) (def_on_done s) (def_on_fail s)
                   (def_on_cancel s)).
  set (j' := mkJobDef _ _ _ _ _ _ _ _ _ _ _ _). intros [].
  assert (step_names j' = step_names j) as En.
  { unfold step_names. simpl. rewrite <- list_fmap_compose. by apply list_fmap_ext. }
  assert (∀ ts, leads_to_step j ts → leads_to_step j' ts) as Hts.
  { intros ts H name Hin. apply get_step_known. rewrite En.
    destruct (H name Hin) as [s Hs]. apply get_step_in in Hs as [Hs <-].
    by apply list_elem_of_fmap_2. }
  assert (referenced_steps j' = referenced_steps j) as Er.
  { unfold referenced_steps. f_equal.
    exact (bind_fmap_list f (λ s, named_steps (step_transitions s)) (def_steps j)). }
  split.
  - simpl. by apply Forall_fmap.
  - by rewrite En.
  - by apply Hts.
  - simpl. apply Forall_fmap. eapply Forall_impl; [exact jb_step_transitions0 |]. intros s. apply Hts.
  - simpl. rewrite Er, <- fmap_drop. by apply Forall_fmap.
Qed.

Lemma fmap_Forall_mono {V W} (P : string → V → Prop) (Q : string → W → Prop) (f : V → W) (m : gmap string V) :
  (∀ k v, P k v → Q k (f v)) → map_Forall P m → map_Forall Q (f <$> m).
Proof.
  intros Hf H k w Hk. rewrite lookup_fmap in Hk. apply fmap_Some in Hk as (v & Hv & ->). by apply Hf, H.
Qed.

Lemma imap_Forall_mono {V W} (P : string → V → Prop) (Q : string → W → Prop) (f : string → V → W)
    (m : gmap string V) :
  (∀ k v, P k v → Q k (f k v)) → map_Forall P m → map_Forall Q (map_imap (λ k v, Some (f k v)) m).
Proof.
  intros Hf H k w Hk. rewrite map_lookup_imap in Hk. destruct (m !! k) as [v|] eqn:E; [| done].
  injection Hk as <-. by apply Hf, H.
Qed.

Lemma prefix_own_names r prefix : every own_names (prefix_names r prefix).
Proof.
  unfold prefix_names. cbv zeta. set (renamed := mkRunbook _ _ _ _ _ _ _ _).
  pose proof (proj2 (every_own_names _) (fixup_names_fixed renamed)) as [H1 H2 H3 H4 H5 H6].
  revert H1 H2 H3 H4 H5 H6. generalize (fixup_names renamed). clear renamed. intros r' H1 H2 H3 H4 H5 H6.
  split; simpl; try done; (eapply fmap_Forall_mono; [| eassumption]); by intros k x.
Qed.

Lemma prefix_good_bodies r prefix : every good_bodies r → every good_bodies (prefix_names r prefix).
Proof.
  intros [_ Hj Ha Hq _ Hc]. unfold prefix_names. cbv zeta. split; try done; simpl.
  - eapply (fmap_Forall_mono (λ _ j, job_body j)); [intros k j; apply rename_job_body |].
    eapply (imap_Forall_mono (λ _ j, job_body j)); [| by apply rename_keys_Forall].
    intros k j Hb. pose proof (rename_job_body j k id Hb) as Hb'.
    replace (def_steps j) with
      ((λ s, mkStepDef (def_step_name s) (id (def_run s)) (def_on_done s) (def_on_fail s)
               (def_on_cancel s)) <$> def_steps j) at 1; [done |].
    rewrite <- (list_fmap_id (def_steps j)) at 2. apply list_fmap_ext. by intros i [].
  - eapply (imap_Forall_mono (λ _ a, agent_typed (agent_def_name a) a)).
    + intros k a []. by split.
    + by apply (rename_keys_Forall (λ a, agent_typed (agent_def_name a) a)).
  - eapply (imap_Forall_mono (λ _ q, queue_typed (qdef_name q) q)).
    + intros k q [_ H]. by split.
    + by apply (rename_keys_Forall (λ q, queue_typed (qdef_name q) q)).
  - eapply (fmap_Forall_mono (λ _ c, readable (cron_interval c))); [by intros k c |].
    eapply (imap_Forall_mono (λ _ c, readable (cron_interval c))); [by intros k c |].
    by apply (rename_keys_Forall (λ c, readable (cron_interval c))).
Qed.
End MergeSpec.

(** ** The pipeline *)

Section PipelineSpec.
Context `{TR : !TemplateRegex} `{TC : !TemplateCaptures} `{HO : !HashOrder}.
Context `{RF : !RunbookFormat} `{CP : !ConstPatterns} `{LB : !Libraries}.

(** Names and bodies are right; references are checked later. *)
Definition entities_ok (r : Runbook) : Prop := every own_names r ∧ every good_bodies r.

Lemma parsed_entities content format refs :
  sound entities_ok (parse_runbook_inner content format refs).
Proof.
  eapply sound_weaken; [apply parse_runbook_inner_sound |]. intros r (Hn & Hl & _).
  split; [by apply every_own_names | by apply good_bodies_of].
Qed.

Lemma clear_entities r : entities_ok r → entities_ok (clear_metadata r).
Proof. intros [[] []]. by split; split. Qed.

Lemma describe_entities b f r : entities_ok r → entities_ok (with_commands (describe b f) r).
Proof.
  intros [[] []]. split; split; try done. simpl.
  eapply (imap_Forall_mono (kd_command own_names)); [| done]. intros k c Hk. simpl in *.
  unfold describe. destruct (command_description c); [done |].
  destruct (b !! k) as [comment|]; [cbv zeta; by destruct (is_empty _) |].
  destruct f as [comment|]; [cbv zeta; by destruct (is_empty _) | done].
Qed.

Lemma merge_entities target source alias name :
  entities_ok target → entities_ok source → entities_ok (merge_runbook target source alias name).1.
Proof.
  intros [T1 T2] [S1 S2]. split; apply merge_every; try done; destruct alias; try done.
  - apply prefix_own_names.
  - by apply prefix_good_bodies.
Qed.

Lemma process_lines_total values lines stack : sound (λ _, True) (process_lines values lines stack).
Proof.
  revert stack. induction lines as [|line lines IH]; intros stack; simpl; [by destruct stack |].
  destruct (if_directive line) as [[[name op] literal]|]; [apply IH |].
  destruct (else_directive line).
  { destruct stack as [|[a [|]] stack]; [done | done | apply IH]. }
  destruct (endif_directive line); [destruct stack; [done | apply IH] |].
  eapply sound_bind; [apply IH |]. done.
Qed.

Lemma directives_total content values : sound (λ _, True) (process_const_directives content values).
Proof. eapply sound_bind; [apply process_lines_total |]. done. Qed.

Lemma resolve_consts_total source defs provided values :
  sound (λ _, True) (resolve_consts source defs provided values).
Proof.
  revert values. induction defs as [|[name def] defs IH]; intros values; simpl; [done |].
  destruct (provided !! name); [apply IH |]. destruct (const_default def); [apply IH | done].
Qed.

Lemma collect_consts_total source files all : sound (λ _, True) (collect_consts source files all).
Proof.
  revert all. induction files as [|[filename content] files IH]; intros all; simpl; [done |].
  eapply sound_bind; [apply sound_map_err, directives_total |]. intros text _.
  eapply sound_bind; [eapply sound_any, parsed_entities |]. intros meta _.
  eapply (sound_bind (λ _, True)); [| intros; apply IH].
  generalize (entries (rb_consts meta)). intros new. revert all.
  induction new as [|[name def] new IHn]; intros all; simpl; [done |].
  destruct (all !! name); [| apply IHn]. destruct (bool_decide _); [apply IHn | done].
Qed.

Lemma load_library_sound source values files lib :
  entities_ok lib → sound entities_ok (load_library source values files lib).
Proof.
  revert lib. induction files as [|[filename content] files IH]; intros lib Hl; simpl; [done |].
  eapply (sound_bind (λ _, True)).
  { apply sound_map_err. eapply sound_bind; [apply directives_total |]. done. }
  intros text _. eapply sound_bind; [apply parsed_entities |]. intros r Hr. cbv zeta.
  apply IH, merge_entities; [done |]. by apply describe_entities, clear_entities.
Qed.

Lemma empty_entities : entities_ok Runbook_default.
Proof. split; split; apply map_Forall_empty. Qed.

Lemma import_library_sound source def r :
  entities_ok r → sound (λ x, entities_ok x.1) (import_library source def r).
Proof.
  intros Hr. unfold import_library. eapply (sound_bind (λ _, True)).
  { unfold resolve_library. by destruct (List.find _ _) as [[s files]|]. }
  intros files _. eapply sound_bind; [apply collect_consts_total |]. intros defs _.
  eapply (sound_bind (λ _, True)).
  { eapply sound_bind; [apply resolve_consts_total |]. done. }
  intros [values w] _. eapply sound_bind; [apply load_library_sound, empty_entities |]. intros lib Hlib.
  eapply sound_bind; [apply validate_cross_refs_sound |]. intros u _.
  pose proof (merge_entities r lib (import_alias def) source Hr Hlib) as Hm.
  by destruct (merge_runbook _ _ _ _).
Qed.

Lemma import_all_sound imports r w :
  entities_ok r → sound (λ x, entities_ok x.1) (import_all imports r w).
Proof.
  revert r w. induction imports as [|[source def] imports IH]; intros r w Hr; simpl; [done |].
  eapply sound_bind; [by apply import_library_sound |]. intros [r' w'] Hr'. by apply IH.
Qed.

(** C29. Parsing with imports always ends, and the merged runbook is well typed as a
    whole: whatever libraries add, override or rename, every job, agent and
    queue that is named is found in the result, steps have distinct names and
    their transitions lead to steps, and durations, queues and actions are
    valid. *)
Theorem imported_runbook_well_typed content format :
  match parse_with_imports content format with
  | Ok (r, _) => runbook_typed r
  | Err _ => True
  | NoFuel => False
  end.
Proof.
  assert (sound (λ x, runbook_typed x.1) (parse_with_imports content format)) as H;
    [| by destruct (parse_with_imports content format) as [[r w]|e|]].
  assert (∀ r (x : Runbook * list ImportWarning), entities_ok r → x.1 = r →
    sound (λ x, runbook_typed x.1) (validate_cross_refs r ≫= λ _, Ok x)) as Hfinal.
  { intros r x [Hn Hb] <-. eapply sound_bind; [apply validate_cross_refs_sound |]. intros u Hrefs.
    apply runbook_typed_intro; [by apply every_own_names | by apply locally_typed_of | done]. }
  unfold parse_with_imports, parse_runbook_no_xref.
  eapply sound_bind; [apply parsed_entities |]. intros r Hr. cbv zeta.
  apply clear_entities in Hr. destruct (bool_decide _); [by apply Hfinal |].
  eapply sound_bind; [by apply import_all_sound |]. intros [r' w] Hr'. by apply Hfinal.
Qed.
End PipelineSpec.

(** ** A runbook with imports *)

Definition no_directives : ConstPatterns := {|
  if_directive := λ _, None;
  else_directive := λ _, false;
  endif_directive := λ _, false;
  replace_raw := λ _ s, s;
  replace_const := λ _ s, s
|}.

(** A library with one command. *)
Definition shell_library (cmd : string) : Runbook :=
  mkRunbook ∅ ∅ {["check" := mkCommandDef "" None (mkArgSpec [] [] [] None) ∅ (Run_Shell cmd)]}
    ∅ ∅ ∅ ∅ ∅.

(** A runbook that imports two libraries with a command of the same name. *)
Definition importing_format : RunbookFormat := {|
  deserialize := λ _ content,
    inr (if String.eqb content "a" then shell_library "echo a"
         else if String.eqb content "b" then shell_library "echo b"
         else mkRunbook {["a" := mkImportDef None ∅; "b" := mkImportDef None ∅]} ∅ ∅ ∅ ∅ ∅ ∅ ∅)
|}.
Definition two_libraries : Libraries := {|
  builtin_libraries := [("a", [("a.hcl", "a")]); ("b", [("b.hcl", "b")])]
|}.

Lemma reversed_perm (X : gset string) : rev (elements X) ≡ₚ elements X.
Proof. by rewrite <- Permutation_rev. Qed.
Definition reversed_order : HashOrder := {|
  hash_order := λ X, rev (elements X);
  hash_order_perm := reversed_perm
|}.

#[local] Existing Instances no_patterns no_captures no_directives importing_format two_libraries.

(** The command [check] of the runbook with its imports, and the warnings. *)
Definition imported_check (o : HashOrder) : option (RunDirective * list ImportWarning) :=
  match parse_with_imports (HO := o) "main" Format_Hcl with
  | Ok (r, w) => (λ c, (command_run c, w)) <$> get_command "check" r
  | _ => None
  end.

(** Two imports with a command of the same name are no error: the one that the
    hash map yields first wins, and the warning calls it local. *)
Lemma conflicting_imports_merge :
  imported_check plain_order
    = Some (Run_Shell "echo a", [Import_LocalOverride "command" "check" "b"]) ∧
  imported_check reversed_order
    = Some (Run_Shell "echo b", [Import_LocalOverride "command" "check" "a"]).
Proof. split; vm_compute; reflexivity. Qed.

Lemma imported_runbook_well_typed_witness :
  ∃ r w, parse_with_imports (HO := plain_order) "main" Format_Hcl = Ok (r, w) ∧ runbook_typed r.
Proof.
  pose proof (imported_runbook_well_typed (HO := plain_order) "main" Format_Hcl) as H.
  destruct (parse_with_imports (HO := plain_order) "main" Format_Hcl) as [[r w]|e|] eqn:E.
  - exists r, w. split; [reflexivity | exact H].
  - vm_compute in E. discriminate E.
  - vm_compute in E. discriminate E.
Defined.

Local Close Scope string_scope.
