(* ===== verification/RunbookFind.v ===== *)
(** The search for runbooks: [crates/runbook/src/find.rs].

    The file system is the class [RunbookFiles].  Warnings go to the log and are
    left out. *)

From S2P Require Import Prelude Ids Bytes Slug Vars Runbook ShellAst RunbookParse RunbookSpec.
From S2P Require Import RunbookImport RunbookImportSpec.

Local Open Scope string_scope.

Class RunbookFiles := {
  path_exists : PathBuf → bool;
  (** The entries that could be read, with their paths. *)
  read_dir : PathBuf → string + list PathBuf;
  is_dir : PathBuf → bool;
  read_to_string : PathBuf → string + string
}.

(** Why a file was skipped. *)
Inductive SkipReason :=
  | Skip_Unreadable (e : string)
  | Skip_Invalid (e : RunbookError).

(** [FindError]; the details are the skipped files, which the code prints. *)
Inductive FindError :=
  | Find_Duplicate (name : string)
  | Find_DuplicateAcrossFiles (entity_type name : string) (file_a file_b : PathBuf)
  | Find_NotFoundSkipped (name : string) (count : nat) (details : list (PathBuf * SkipReason))
  | Find_Io (e : string).

(** ** Sorting *)

(** Stable, as [sort_by]. *)
Fixpoint insert_by {A} (le : A → A → bool) (x : A) (l : list A) : list A :=
  match l with
  | [] => [x]
  | y :: l' => if le x y then x :: l else y :: insert_by le x l'
  end.
Definition sort_by {A} (le : A → A → bool) (l : list A) : list A := foldr (insert_by le) [] l.

(** The order of paths, by components. *)
Fixpoint components_le (l1 l2 : list string) : bool :=
  match l1, l2 with
  | [], _ => true
  | _, [] => false
  | a :: l1, b :: l2 => if String.eqb a b then components_le l1 l2 else String.leb a b
  end.
Definition path_le (a b : PathBuf) : bool := components_le (split_all "/" a) (split_all "/" b).

Definition sort_by_name {A} (l : list (string * A)) : list (string * A) :=
  sort_by (λ a b, String.leb a.1 b.1) l.

Section Find.
Context `{TR : !TemplateRegex} `{TC : !TemplateCaptures} `{HO : !HashOrder}.
Context `{RF : !RunbookFormat} `{CP : !ConstPatterns} `{LB : !Libraries} `{FS : !RunbookFiles}.

Definition parse_file_content (content : string) (format : Format) : Res RunbookError Runbook :=
  match format with
  | Format_Hcl => fst <$> parse_with_imports content format
  | _ => parse_runbook_with_format content format
  end.

(** One round of the search: a directory, whose directories are pushed. *)
Definition collect_entry (acc : list PathBuf * list (PathBuf * Format)) (path : PathBuf) :
    list PathBuf * list (PathBuf * Format) :=
  let '(stack, files) := acc in
  if is_dir path then (path :: stack, files)
  else match format_for_path path with
       | Some format => (stack, (files ++ [(path, format)])%list)
       | None => (stack, files)
       end.
Definition collect_round (acc : list PathBuf * list (PathBuf * Format)) :
    Res string (list PathBuf * list (PathBuf * Format) + list (PathBuf * Format)) :=
  match acc with
  | ([], files) => Ok (inr (sort_by (λ a b, path_le a.1 b.1) files))
  | (current :: stack, files) =>
      match read_dir current with
      | inl e => Err e
      | inr paths => Ok (inl (foldl collect_entry (stack, files) paths))
      end
  end.

(** [collect_runbook_files]; the loop ends if the directories do. *)
Definition collect_runbook_files (fuel : nat) (dir : PathBuf) : Res string (list (PathBuf * Format)) :=
  loop fuel collect_round ([dir], []).

(** A file, its text and what it parses to, or why it is skipped. *)
Definition load_file (file : PathBuf * Format) : Res FindError (string * Runbook + SkipReason) :=
  match read_to_string file.1 with
  | inl e => Ok (inr (Skip_Unreadable e))
  | inr content =>
      match parse_file_content content file.2 with
      | Ok r => Ok (inl (content, r))
      | Err e => Ok (inr (Skip_Invalid e))
      | NoFuel => NoFuel
      end
  end.

(** The files of a directory, none if it does not exist. *)
Definition runbook_files (fuel : nat) (dir : PathBuf) : Res FindError (list (PathBuf * Format)) :=
  if path_exists dir then map_err Find_Io (collect_runbook_files fuel dir) else Ok [].

(** The loop of [find_runbook]. *)
Fixpoint find_in (name : string) (matches : Runbook → bool) (files : list (PathBuf * Format))
    (found : option Runbook) (skipped : list (PathBuf * SkipReason)) : Res FindError (option Runbook) :=
  match files with
  | [] =>
      match found, skipped with
      | None, _ :: _ => Err (Find_NotFoundSkipped name (length skipped) skipped)
      | _, _ => Ok found
      end
  | file :: files =>
      loaded ← load_file file;
      match loaded with
      | inr reason => find_in name matches files found (skipped ++ [(file.1, reason)])%list
      | inl (_, runbook) =>
          if matches runbook then
            match found with
            | Some _ => Err (Find_Duplicate name)
            | None => find_in name matches files (Some runbook) skipped
            end
          else find_in name matches files found skipped
      end
  end.

Definition find_runbook (fuel : nat) (dir : PathBuf) (name : string) (matches : Runbook → bool) :
    Res FindError (option Runbook) :=
  files ← runbook_files fuel dir; find_in name matches files None [].

Definition defined {A} (o : option A) : bool := match o with Some _ => true | None => false end.

Definition find_runbook_by_command fuel dir name :=
  find_runbook fuel dir name (λ rb, defined (get_command name rb)).
Definition find_runbook_by_worker fuel dir name :=
  find_runbook fuel dir name (λ rb, defined (get_worker name rb)).
Definition find_runbook_by_queue fuel dir name :=
  find_runbook fuel dir name (λ rb, defined (get_queue name rb)).
Definition find_runbook_by_cron fuel dir name :=
  find_runbook fuel dir name (λ rb, defined (get_cron name rb)).

(** ** Collecting *)

Fixpoint collect_from {T} (extractor : Runbook → string → list (string * T))
    (files : list (PathBuf * Format)) : Res FindError (list (string * T)) :=
  match files with
  | [] => Ok []
  | file :: files =>
      loaded ← load_file file;
      rest ← collect_from extractor files;
      match loaded with
      | inl (content, runbook) => Ok (extractor runbook content ++ rest)%list
      | inr _ => Ok rest
      end
  end.

Definition collect_all {T} (fuel : nat) (dir : PathBuf)
    (extractor : Runbook → string → list (string * T)) : Res FindError (list (string * T)) :=
  files ← runbook_files fuel dir; sort_by_name <$> collect_from extractor files.

Definition collect_all_commands (fuel : nat) (dir : PathBuf) : Res FindError (list (string * CommandDef)) :=
  collect_all fuel dir (λ runbook content,
    (λ '(name, cmd), (name, describe (extract_block_comments content) (extract_file_comment content)
                              name cmd)) <$> entries (rb_commands runbook)).
Definition collect_all_queues (fuel : nat) (dir : PathBuf) : Res FindError (list (string * QueueDef)) :=
  collect_all fuel dir (λ runbook _, entries (rb_queues runbook)).
Definition collect_all_workers (fuel : nat) (dir : PathBuf) : Res FindError (list (string * WorkerDef)) :=
  collect_all fuel dir (λ runbook _, entries (rb_workers runbook)).
Definition collect_all_crons (fuel : nat) (dir : PathBuf) : Res FindError (list (string * CronDef)) :=
  collect_all fuel dir (λ runbook _, entries (rb_crons runbook)).

(** The comment of the command in the first file that defines it. *)
Fixpoint command_with_comment (command_name : string) (files : list (PathBuf * Format)) :
    Res FindError (option (CommandDef * option FileComment)) :=
  match files with
  | [] => Ok None
  | file :: files =>
      loaded ← load_file file;
      match loaded with
      | inl (content, runbook) =>
          match get_command command_name runbook with
          | Some cmd =>
              Ok (Some (cmd, match extract_block_comments content !! command_name with
                             | Some comment => Some comment
                             | None => extract_file_comment content
                             end))
          | None => command_with_comment command_name files
          end
      | inr _ => command_with_comment command_name files
      end
  end.
Definition find_command_with_comment (fuel : nat) (dir : PathBuf) (command_name : string) :
    Res FindError (option (CommandDef * option FileComment)) :=
  files ← runbook_files fuel dir; command_with_comment command_name files.

(** ** Summaries *)

Record RunbookSummary := mkRunbookSummary {
  summary_file : string;
  summary_description : option string;
  summary_imports : gmap string ImportDef;
  summary_commands : list string;
  summary_jobs : list string;
  summary_agents : list string;
  summary_queues : list string;
  summary_workers : list string;
  summary_crons : list string
}.

Definition names_of {V} (m : gmap string V) : list string := sort_by String.leb (hash_order (dom m)).

Definition summarize (dir : PathBuf) (path : PathBuf) (content : string) (r : Runbook) : RunbookSummary :=
  mkRunbookSummary (default path (strip_prefix (dir +:+ "/") path))
    (comment_short <$> extract_file_comment content) (rb_imports r)
    (names_of (rb_commands r)) (names_of (rb_jobs r)) (names_of (rb_agents r))
    (names_of (rb_queues r)) (names_of (rb_workers r)) (names_of (rb_crons r)).

Fixpoint summaries_from (dir : PathBuf) (files : list (PathBuf * Format)) :
    Res FindError (list RunbookSummary) :=
  match files with
  | [] => Ok []
  | (path, format) :: files =>
      match read_to_string path with
      | inl _ => summaries_from dir files
      | inr content =>
          match parse_runbook_no_xref content format with
          | Ok r => cons (summarize dir path content r) <$> summaries_from dir files
          | Err _ => summaries_from dir files
          | NoFuel => NoFuel
          end
      end
  end.

Definition collect_runbook_summaries (fuel : nat) (dir : PathBuf) : Res FindError (list RunbookSummary) :=
  files ← runbook_files fuel dir;
  sort_by (λ a b, String.leb (summary_file a) (summary_file b)) <$> summaries_from dir files.

(** ** Conflicts between files *)

Definition kind_names (r : Runbook) : list (string * list string) :=
  [("command", hash_order (dom (rb_commands r))); ("job", hash_order (dom (rb_jobs r)));
   ("agent", hash_order (dom (rb_agents r))); ("queue", hash_order (dom (rb_queues r)));
   ("worker", hash_order (dom (rb_workers r))); ("cron", hash_order (dom (rb_crons r)))].

(** The names of a file, recorded or reported. *)
Definition note_name (path : PathBuf) (acc : gmap (string * string) PathBuf * list FindError)
    (key : string * string) : gmap (string * string) PathBuf * list FindError :=
  let '(seen, errors) := acc in
  match seen !! key with
  | Some prev_path => (seen, (errors ++ [Find_DuplicateAcrossFiles key.1 key.2 prev_path path])%list)
  | None => (<[key := path]> seen, errors)
  end.
Definition note_names (path : PathBuf) (r : Runbook)
    (acc : gmap (string * string) PathBuf * list FindError) :
    gmap (string * string) PathBuf * list FindError :=
  foldl (note_name path) acc (kind_names r ≫= λ '(kind, names), (λ name, (kind, name)) <$> names).

Fixpoint check_files (files : list (PathBuf * Format))
    (acc : gmap (string * string) PathBuf * list FindError) :
    Res FindError (gmap (string * string) PathBuf * list FindError) :=
  match files with
  | [] => Ok acc
  | file :: files =>
      loaded ← load_file file;
      match loaded with
      | inl (_, runbook) => check_files files (note_names file.1 runbook acc)
      | inr _ => check_files files acc
      end
  end.

Definition validate_runbook_dir (fuel : nat) (dir : PathBuf) : Res (list FindError) unit :=
  match files ← runbook_files fuel dir; check_files files (∅, []) with
  | Ok (_, []) => Ok tt
  | Ok (_, errors) => Err errors
  | Err e => Err [e]
  | NoFuel => NoFuel
  end.
End Find.

(** ** What the search promises *)

Section FindSpec.
Context `{TR : !TemplateRegex} `{TC : !TemplateCaptures} `{HO : !HashOrder}.
Context `{RF : !RunbookFormat} `{CP : !ConstPatterns} `{LB : !Libraries} `{FS : !RunbookFiles}.

Lemma parse_file_content_sound content format :
  sound runbook_typed (parse_file_content content format).
Proof.
  pose proof (imported_runbook_well_typed content Format_Hcl) as Hi.
  pose proof (parse_runbook_inner_sound content format true) as Hp.
  assert (sound runbook_typed (parse_runbook_with_format content format)) as Hw.
  { eapply sound_weaken; [exact Hp |]. intros r (Hn & Hl & Hr). apply runbook_typed_intro; auto. }
  destruct format; simpl; [done | | done].
  by destruct (parse_with_imports content Format_Hcl) as [[r w]|e|].
Qed.

Lemma load_file_total file : ∃ x, load_file file = Ok x.
Proof.
  unfold load_file. destruct (read_to_string file.1) as [e|content]; [by eexists |].
  pose proof (parse_file_content_sound content file.2) as H.
  destruct (parse_file_content content file.2); [by eexists | by eexists | done].
Qed.

(** What a file turns out to be. *)
Definition file_result (file : PathBuf * Format) : string * Runbook + SkipReason :=
  match load_file file with Ok x => x | _ => inr (Skip_Unreadable "") end.

Lemma load_file_result file : load_file file = Ok (file_result file).
Proof. unfold file_result. by destruct (load_file_total file) as [x ->]. Qed.

(** The runbooks of [files] that match, and the files that are skipped. *)
Definition matching (matches : Runbook → bool) (files : list (PathBuf * Format)) : list Runbook :=
  omap (λ file, match file_result file with
                | inl (_, r) => if matches r then Some r else None
                | inr _ => None
                end) files.
Definition skipped_files (files : list (PathBuf * Format)) : list (PathBuf * SkipReason) :=
  omap (λ file, match file_result file with
                | inl _ => None
                | inr reason => Some (file.1, reason)
                end) files.

Lemma matching_cons matches file files :
  matching matches (file :: files)
  = match file_result file with
    | inl (_, r) => if matches r then r :: matching matches files else matching matches files
    | inr _ => matching matches files
    end.
Proof. unfold matching. simpl. destruct (file_result file) as [[? r]|]; [by destruct (matches r) | done]. Qed.

Lemma skipped_cons file files :
  skipped_files (file :: files)
  = match file_result file with
    | inl _ => skipped_files files
    | inr reason => (file.1, reason) :: skipped_files files
    end.
Proof. unfold skipped_files. simpl. by destruct (file_result file). Qed.

Lemma find_in_found name matches files r skipped :
  find_in name matches files (Some r) skipped
  = match matching matches files with [] => Ok (Some r) | _ => Err (Find_Duplicate name) end.
Proof.
  revert skipped. induction files as [|file files IH]; intros skipped; [done |].
  cbn [find_in]. rewrite load_file_result, matching_cons. cbn [mbind res_bind].
  destruct (file_result file) as [[content r']|reason]; [| apply IH].
  destruct (matches r'); [done | apply IH].
Qed.

Lemma find_in_outcome name matches files skipped :
  find_in name matches files None skipped
  = match matching matches files with
    | [] => match (skipped ++ skipped_files files)%list with
            | [] => Ok None
            | all => Err (Find_NotFoundSkipped name (length all) all)
            end
    | [r] => Ok (Some r)
    | _ => Err (Find_Duplicate name)
    end.
Proof.
  revert skipped. induction files as [|file files IH]; intros skipped.
  { simpl. rewrite app_nil_r. by destruct skipped. }
  cbn [find_in]. rewrite load_file_result, matching_cons, skipped_cons. cbn [mbind res_bind].
  destruct (file_result file) as [[content r]|reason].
  - destruct (matches r); [| apply IH]. rewrite find_in_found.
    by destruct (matching matches files).
  - rewrite IH. by rewrite <- app_assoc.
Qed.

(** Every directory has a size that is more than the sizes of its entries. *)
Definition dirs_shrink (size : PathBuf → nat) : Prop :=
  ∀ dir paths, read_dir dir = inr paths →
    (sum_list_with size (filter (λ p, is_dir p = true) paths) < size dir)%nat.

Lemma collect_entries_size size paths stack files :
  sum_list_with size (foldl collect_entry (stack, files) paths).1
  = (sum_list_with size (filter (λ p, is_dir p = true) paths) + sum_list_with size stack)%nat.
Proof.
  revert stack files. induction paths as [|p paths IH]; intros stack files; [done |]. simpl.
  rewrite filter_cons. destruct (is_dir p) eqn:Ed.
  - rewrite IH. rewrite decide_True by done. simpl. lia.
  - rewrite decide_False by done. destruct (format_for_path p); by rewrite IH.
Qed.

(** The search of directories that shrink ends. *)
Lemma collect_ends size fuel dir :
  dirs_shrink size → (size dir < fuel)%nat → sound (λ _, True) (collect_runbook_files fuel dir).
Proof.
  intros Hs Hf. unfold collect_runbook_files.
  apply (post_loop (λ _, True) (λ acc, sum_list_with size acc.1)); [| done | simpl; lia].
  intros [[|current stack] files] _; [done |]. simpl.
  destruct (read_dir current) as [e|paths] eqn:E; [done |]. split; [done |].
  rewrite collect_entries_size. specialize (Hs _ _ E). lia.
Qed.

(** The search for the runbook that defines a name ends, and reads every file:
    one match is returned whatever else is wrong, two are a duplicate, and
    without a match the files that could not be used are reported, or nothing
    is found if there are none. *)
Theorem find_runbook_outcome size fuel dir name matches :
  dirs_shrink size → (size dir < fuel)%nat →
  match runbook_files fuel dir with
  | Ok files =>
      find_runbook fuel dir name matches
      = match matching matches files with
        | [] => match skipped_files files with
                | [] => Ok None
                | all => Err (Find_NotFoundSkipped name (length all) all)
                end
        | [r] => Ok (Some r)
        | _ => Err (Find_Duplicate name)
        end
  | Err e => find_runbook fuel dir name matches = Err e
  | NoFuel => False
  end.
Proof.
  intros Hs Hf. pose proof (collect_ends size fuel dir Hs Hf) as Hc.
  unfold find_runbook. destruct (runbook_files fuel dir) as [files|e|] eqn:E; [| done |].
  - simpl. rewrite find_in_outcome. done.
  - unfold runbook_files in E. destruct (path_exists dir); [| done].
    by destruct (collect_runbook_files fuel dir).
Qed.
End FindSpec.

(** ** A directory with two runbooks *)

Definition sample_files : RunbookFiles := {|
  path_exists := λ _, true;
  read_dir := λ d, if String.eqb d "runbooks" then inr ["runbooks/b.toml"; "runbooks/lib"; "runbooks/x.md"]
                   else if String.eqb d "runbooks/lib" then inr ["runbooks/lib/a.json"; "runbooks/lib/z.toml"]
                   else inl "not a directory";
  is_dir := λ p, String.eqb p "runbooks/lib";
  read_to_string := λ p, if String.eqb p "runbooks/lib/z.toml" then inl "permission denied" else inr p
|}.
(** One of them defines the sample runbook. *)
Definition sample_texts : RunbookFormat := {|
  deserialize := λ format content,
    inr (if String.eqb content "runbooks/b.toml" then sample_runbook else Runbook_default)
|}.
Definition no_libraries : Libraries := {| builtin_libraries := [] |}.

#[local] Existing Instances plain_order no_patterns no_captures no_directives sample_texts
  no_libraries sample_files.

Definition sample_size (p : PathBuf) : nat :=
  if String.eqb p "runbooks" then 2 else if String.eqb p "runbooks/lib" then 1 else 0.

Lemma find_runbook_outcome_witness :
  runbook_files 3 "runbooks"
    = Ok [("runbooks/b.toml", Format_Toml); ("runbooks/lib/a.json", Format_Json);
          ("runbooks/lib/z.toml", Format_Toml)] ∧
  find_runbook 3 "runbooks" "ship" (λ rb, defined (get_command "ship" rb))
    = Ok (Some (fixup_names sample_runbook)) ∧
  ∃ details, find_runbook 3 "runbooks" "nothing" (λ _, false)
    = Err (Find_NotFoundSkipped "nothing" 1 details).
Proof.
  assert (dirs_shrink sample_size) as Hs.
  { intros dir paths. simpl. destruct (String.eqb_spec dir "runbooks") as [->|];
      [intros [= <-]; vm_compute; lia |].
    destruct (String.eqb_spec dir "runbooks/lib") as [->|]; [intros [= <-]; vm_compute; lia | done]. }
  assert (sample_size "runbooks" < 3)%nat as Hf by (vm_compute; lia).
  pose proof (find_runbook_outcome sample_size 3 "runbooks" "ship"
                (λ rb, defined (get_command "ship" rb)) Hs Hf) as H1.
  pose proof (find_runbook_outcome sample_size 3 "runbooks" "nothing" (λ _, false) Hs Hf) as H2.
  split; [vm_compute; reflexivity |]. split.
  - vm_compute in H1. vm_compute. exact H1.
  - eexists. vm_compute in H2. vm_compute. exact H2.
Defined.

Local Close Scope string_scope.
