(* ===== verification/Protocol.v ===== *)
(** The messages between the command line and the daemon:
    [crates/daemon/src/protocol.rs], [protocol_query.rs], [protocol_status.rs],
    [protocol_types.rs] and the framing of [protocol_wire.rs].

    JSON is the codec of the caller; a stream is the bytes that are still to be
    read. *)

From S2P Require Import Prelude Ids Entities Job Event.

Local Open Scope string_scope.

(** ** Summaries: [protocol_types.rs] *)

Record JobSummary := mkJobSummary {
  js_id : string; js_name : string; js_kind : string; js_step : string;
  js_step_status : StepStatusKind; js_created_at_ms : Z; js_updated_at_ms : Z;
  js_namespace : string; js_retry_count : Z
}.

Record StepRecordDetail := mkStepRecordDetail {
  srd_name : string; srd_started_at_ms : Z; srd_finished_at_ms : option Z;
  srd_outcome : StepOutcomeKind; srd_detail : option string;
  srd_agent_id : option string; srd_agent_name : option string
}.

Definition StepRecordDetail_from (r : StepRecord) : StepRecordDetail :=
  mkStepRecordDetail (step_name r) (step_started_ms r) (step_finished_ms r)
    (StepOutcomeKind_from (step_outcome r))
    (match step_outcome r with
     | Outcome_Failed e => Some e
     | Outcome_Waiting reason => Some reason
     | _ => None
     end)
    (step_agent_id r) (step_agent_name r).

Record AgentSummary := mkAgentSummary {
  as_job_id : string; as_step_name : string; as_agent_id : string;
  as_agent_name : option string; as_namespace : option string; as_status : string;
  as_files_read : nat; as_files_written : nat; as_commands_run : nat;
  as_exit_reason : option string; as_updated_at_ms : Z
}.

Record JobDetail := mkJobDetail {
  jd_id : string; jd_name : string; jd_kind : string; jd_step : string;
  jd_step_status : StepStatusKind; jd_vars : gmap string string;
  jd_workspace_path : option PathBuf; jd_session_id : option string; jd_error : option string;
  jd_steps : list StepRecordDetail; jd_agents : list AgentSummary; jd_namespace : string
}.

Record AgentDetail := mkAgentDetail {
  ad_agent_id : string; ad_agent_name : option string; ad_job_id : string;
  ad_job_name : string; ad_step_name : string; ad_namespace : option string;
  ad_status : string; ad_workspace_path : option PathBuf; ad_session_id : option string;
  ad_files_read : nat; ad_files_written : nat; ad_commands_run : nat;
  ad_exit_reason : option string; ad_error : option string; ad_started_at_ms : Z;
  ad_finished_at_ms : option Z; ad_updated_at_ms : Z
}.

Record SessionSummary := mkSessionSummary {
  ss_id : string; ss_namespace : string; ss_job_id : option string; ss_updated_at_ms : Z
}.

Record WorkspaceSummary := mkWorkspaceSummary {
  wss_id : string; wss_path : PathBuf; wss_branch : option string; wss_status : string;
  wss_created_at_ms : Z; wss_namespace : string
}.

Record WorkspaceDetail := mkWorkspaceDetail {
  wd_id : string; wd_path : PathBuf; wd_branch : option string; wd_owner : option string;
  wd_status : string; wd_created_at_ms : Z
}.

Record WorkspaceEntry := mkWorkspaceEntry {
  we_id : string; we_path : PathBuf; we_branch : option string
}.

Record QueueItemSummary := mkQueueItemSummary {
  qis_id : string; qis_status : string; qis_data : gmap string string;
  qis_worker_name : option string; qis_pushed_at_epoch_ms : Z; qis_failure_count : Z
}.

Record QueueSummary := mkQueueSummary {
  qs_name : string; qs_namespace : string; qs_queue_type : string; qs_item_count : nat;
  qs_workers : list string
}.

Record DecisionSummary := mkDecisionSummary {
  ds_id : string; ds_job_id : string; ds_job_name : string; ds_source : string;
  ds_summary : string; ds_created_at_ms : Z; ds_namespace : string
}.

Record DecisionOptionDetail := mkDecisionOptionDetail {
  dod_number : nat; dod_label : string; dod_description : option string; dod_recommended : bool
}.

Record DecisionDetail := mkDecisionDetail {
  dd_id : string; dd_job_id : string; dd_job_name : string; dd_agent_id : option string;
  dd_source : string; dd_context : string; dd_options : list DecisionOptionDetail;
  dd_chosen : option N; dd_message : option string; dd_created_at_ms : Z;
  dd_resolved_at_ms : option Z; dd_superseded_by : option string; dd_namespace : string
}.

Record WorkerSummary := mkWorkerSummary {
  ws_name : string; ws_namespace : string; ws_queue : string; ws_status : string;
  ws_active : nat; ws_concurrency : Z; ws_updated_at_ms : Z
}.

(** ** Status and prune entries: [protocol_status.rs] *)

Record CronSummary := mkCronSummary {
  cs_name : string; cs_namespace : string; cs_interval : string; cs_job : string;
  cs_status : string; cs_time : string
}.

Record JobStatusEntry := mkJobStatusEntry {
  jse_id : string; jse_name : string; jse_kind : string; jse_step : string;
  jse_step_status : StepStatusKind; jse_elapsed_ms : Z; jse_last_activity_ms : Z;
  jse_waiting_reason : option string; jse_escalate_source : option string
}.

Record QueueStatus := mkQueueStatus {
  qst_name : string; qst_pending : nat; qst_active : nat; qst_dead : nat
}.

Record AgentStatusEntry := mkAgentStatusEntry {
  ase_agent_id : string; ase_agent_name : string; ase_command_name : string; ase_status : string
}.

Record NamespaceStatus := mkNamespaceStatus {
  nst_namespace : string; nst_active_jobs : list JobStatusEntry;
  nst_escalated_jobs : list JobStatusEntry; nst_orphaned_jobs : list JobStatusEntry;
  nst_workers : list WorkerSummary; nst_queues : list QueueStatus;
  nst_active_agents : list AgentStatusEntry; nst_pending_decisions : nat
}.

Record OrphanAgent := mkOrphanAgent {
  oa_agent_id : string; oa_session_name : option string; oa_log_path : PathBuf
}.

Record OrphanSummary := mkOrphanSummary {
  os_job_id : string; os_project : string; os_kind : string; os_name : string;
  os_current_step : string; os_step_status : StepStatusKind;
  os_workspace_root : option PathBuf; os_agents : list OrphanAgent; os_updated_at : string
}.

Record JobEntry := mkJobEntry { je_id : string; je_name : string; je_step : string }.
Record AgentEntry := mkAgentEntry { ae_agent_id : string; ae_job_id : string; ae_step_name : string }.
Record WorkerEntry := mkWorkerEntry { wke_name : string; wke_namespace : string }.
Record CronEntry := mkCronEntry { ce_name : string; ce_namespace : string }.
Record SessionEntry := mkSessionEntry { se_id : string; se_job_id : string; se_namespace : string }.
Record QueueItemEntry := mkQueueItemEntry {
  qie_queue_name : string; qie_item_id : string; qie_status : string
}.

Record MetricsHealthSummary := mkMetricsHealthSummary {
  mhs_last_collection_ms : Z; mhs_sessions_tracked : nat; mhs_last_error : option string;
  mhs_ghost_sessions : list string
}.

Record ProjectSummary := mkProjectSummary {
  ps_name : string; ps_root : PathBuf; ps_active_jobs : nat; ps_active_agents : nat;
  ps_workers : nat; ps_crons : nat
}.

(** ** Requests: [protocol_query.rs] and [protocol.rs] *)

Inductive Query :=
  | Query_ListJobs
  | Query_GetJob (id : string)
  | Query_ListSessions
  | Query_GetSession (id : string)
  | Query_ListWorkspaces
  | Query_GetWorkspace (id : string)
  | Query_GetJobLogs (id : string) (lines : nat)
  | Query_GetAgentLogs (id : string) (step : option string) (lines : nat)
  | Query_GetAgentSignal (agent_id : string)
  | Query_ListQueues (project_root : PathBuf) (namespace : string)
  | Query_ListQueueItems (queue_name namespace : string) (project_root : option PathBuf)
  | Query_GetAgent (agent_id : string)
  | Query_ListAgents (job_id status : option string)
  | Query_GetWorkerLogs (name namespace : string) (lines : nat) (project_root : option PathBuf)
  | Query_ListWorkers
  | Query_ListCrons
  | Query_GetCronLogs (name namespace : string) (lines : nat) (project_root : option PathBuf)
  | Query_StatusOverview
  | Query_ListProjects
  | Query_ListOrphans
  | Query_DismissOrphan (id : string)
  | Query_GetQueueLogs (queue_name namespace : string) (lines : nat)
  | Query_ListDecisions (namespace : string)
  | Query_GetDecision (id : string).

Inductive Request {Value : Type} :=
  | Req_Ping
  | Req_Hello (version : string)
  | Req_Event (event : Event Value)
  | Req_Query (query : Query)
  | Req_Shutdown (kill : bool)
  | Req_Status
  | Req_SessionSend (id input : string)
  | Req_AgentSend (agent_id message : string)
  | Req_JobResume (id : string) (message : option string) (vars : gmap string string)
      (kill all : bool)
  | Req_JobCancel (ids : list string)
  | Req_RunCommand (project_root invoke_dir : PathBuf) (namespace command : string)
      (args : list string) (named_args : gmap string string)
  | Req_WorkspaceDrop (id : string)
  | Req_WorkspaceDropFailed
  | Req_WorkspaceDropAll
  | Req_SessionKill (id : string)
  | Req_PeekSession (session_id : string) (with_color : bool)
  | Req_JobPrune (all failed orphans dry_run : bool) (namespace : option string)
  | Req_AgentPrune (all dry_run : bool)
  | Req_WorkspacePrune (all dry_run : bool) (namespace : option string)
  | Req_WorkerPrune (all dry_run : bool) (namespace : option string)
  | Req_WorkerStart (project_root : PathBuf) (namespace worker_name : string) (all : bool)
  | Req_WorkerWake (worker_name namespace : string)
  | Req_WorkerStop (worker_name namespace : string) (project_root : option PathBuf)
  | Req_WorkerRestart (project_root : PathBuf) (namespace worker_name : string)
  | Req_WorkerResize (worker_name namespace : string) (concurrency : Z)
  | Req_CronStart (project_root : PathBuf) (namespace cron_name : string) (all : bool)
  | Req_CronStop (cron_name namespace : string) (project_root : option PathBuf)
  | Req_CronRestart (project_root : PathBuf) (namespace cron_name : string)
  | Req_CronPrune (all dry_run : bool)
  | Req_CronOnce (project_root : PathBuf) (namespace cron_name : string)
  | Req_QueuePush (project_root : PathBuf) (namespace queue_name : string) (data : Value)
  | Req_QueueDrop (project_root : PathBuf) (namespace queue_name item_id : string)
  | Req_QueueRetry (project_root : PathBuf) (namespace queue_name : string)
      (item_ids : list string) (all_dead : bool) (status : option string)
  | Req_QueueRetryBulk (project_root : PathBuf) (namespace queue_name : string)
      (item_ids : list string) (all_dead : bool) (status_filter : option string)
  | Req_QueueDrain (project_root : PathBuf) (namespace queue_name : string)
  | Req_QueueFail (project_root : PathBuf) (namespace queue_name item_id : string)
  | Req_QueueDone (project_root : PathBuf) (namespace queue_name item_id : string)
  | Req_QueuePrune (project_root : PathBuf) (namespace queue_name : string) (all dry_run : bool)
  | Req_DecisionResolve (id : string) (chosen : option N) (message : option string)
  | Req_JobResumeAll (kill : bool)
  | Req_AgentResume (agent_id : string) (kill all : bool)
  | Req_SessionPrune (all dry_run : bool) (namespace : option string).
Arguments Request : clear implicits.

Inductive Response :=
  | Resp_Ok
  | Resp_Pong
  | Resp_Hello (version : string)
  | Resp_ShuttingDown
  | Resp_Event (accepted : bool)
  | Resp_Jobs (jobs : list JobSummary)
  | Resp_Job (job : option JobDetail)
  | Resp_Agents (agents : list AgentSummary)
  | Resp_Agent (agent : option AgentDetail)
  | Resp_Sessions (sessions : list SessionSummary)
  | Resp_Session (session : option SessionSummary)
  | Resp_Workspaces (workspaces : list WorkspaceSummary)
  | Resp_Workspace (workspace : option WorkspaceDetail)
  | Resp_Status (uptime_secs : Z) (jobs_active sessions_active orphan_count : nat)
  | Resp_Error (message : string)
  | Resp_CommandStarted (job_id job_name : string)
  | Resp_AgentRunStarted (agent_run_id agent_name : string)
  | Resp_WorkspacesDropped (dropped : list WorkspaceEntry)
  | Resp_JobLogs (log_path : PathBuf) (content : string)
  | Resp_AgentLogs (log_path : PathBuf) (content : string) (steps : list string)
  | Resp_SessionPeek (output : string)
  | Resp_JobsPruned (pruned : list JobEntry) (skipped : nat)
  | Resp_AgentsPruned (pruned : list AgentEntry) (skipped : nat)
  | Resp_WorkspacesPruned (pruned : list WorkspaceEntry) (skipped : nat)
  | Resp_WorkersPruned (pruned : list WorkerEntry) (skipped : nat)
  | Resp_CronsPruned (pruned : list CronEntry) (skipped : nat)
  | Resp_QueuesPruned (pruned : list QueueItemEntry) (skipped : nat)
  | Resp_JobsCancelled (cancelled already_terminal not_found : list string)
  | Resp_WorkerStarted (worker_name : string)
  | Resp_WorkersStarted (started : list string) (skipped : list (string * string))
  | Resp_WorkerResized (worker_name : string) (old_concurrency new_concurrency : Z)
  | Resp_CronStarted (cron_name : string)
  | Resp_CronsStarted (started : list string) (skipped : list (string * string))
  | Resp_Crons (crons : list CronSummary)
  | Resp_CronLogs (log_path : PathBuf) (content : string)
  | Resp_QueuePushed (queue_name item_id : string)
  | Resp_QueueDropped (queue_name item_id : string)
  | Resp_QueueRetried (queue_name item_id : string)
  | Resp_QueueItemsRetried (queue_name : string) (item_ids already_retried not_found : list string)
  | Resp_QueueDrained (queue_name : string) (items : list QueueItemSummary)
  | Resp_QueueFailed (queue_name item_id : string)
  | Resp_QueueCompleted (queue_name item_id : string)
  | Resp_AgentSignal (signaled : bool) (kind : option AgentSignalKind) (message : option string)
  | Resp_QueueItems (items : list QueueItemSummary)
  | Resp_WorkerLogs (log_path : PathBuf) (content : string)
  | Resp_Workers (workers : list WorkerSummary)
  | Resp_Queues (queues : list QueueSummary)
  | Resp_StatusOverview (uptime_secs : Z) (namespaces : list NamespaceStatus)
      (metrics_health : option MetricsHealthSummary)
  | Resp_Orphans (orphans : list OrphanSummary)
  | Resp_Projects (projects : list ProjectSummary)
  | Resp_QueueLogs (log_path : PathBuf) (content : string)
  | Resp_Decisions (decisions : list DecisionSummary)
  | Resp_Decision (decision : option DecisionDetail)
  | Resp_DecisionResolved (id : string)
  | Resp_AgentResumed (resumed : list string) (skipped : list (string * string))
  | Resp_JobsResumed (resumed : list string) (skipped : list (string * string))
  | Resp_SessionsPruned (pruned : list SessionEntry) (skipped : nat).

(** ** Framing: [protocol_wire.rs] *)

Inductive ProtocolError :=
  | Proto_Io
  | Proto_Json
  | Proto_MessageTooLarge (size max : Z)
  | Proto_ConnectionClosed
  | Proto_Timeout.

(** 200 MB *)
Definition MAX_MESSAGE_SIZE : Z := 200 * 1024 * 1024.

(** What follows the bytes of a stream: its end, an error, or nothing until the
    time is up. *)
Inductive StreamEnd := End_Eof | End_Error | End_Stall.

Record Stream := mkStream { stream_bytes : string; stream_end : StreamEnd }.

(** [read_exact]; a stall is seen by the timeout around the call. *)
Definition read_exact (n : nat) (r : Stream) : StreamEnd + (string * Stream) :=
  let s := stream_bytes r in
  if (n <=? String.length s)%nat
  then inr (String.substring 0 n s,
            mkStream (String.substring n (String.length s - n) s) (stream_end r))
  else inl (stream_end r).

Definition byte_of (z : Z) : ascii := Ascii.ascii_of_N (Z.to_N (z `mod` 256)%Z).

(** [u32::to_be_bytes] and [from_be_bytes]. *)
Definition to_be_bytes (n : Z) : string :=
  String (byte_of (n `div` 2 ^ 24)) (String (byte_of (n `div` 2 ^ 16))
    (String (byte_of (n `div` 2 ^ 8)) (String (byte_of n) EmptyString))).

Fixpoint from_be_bytes (acc : Z) (s : string) : Z :=
  match s with
  | EmptyString => acc
  | String a s => from_be_bytes (acc * 256 + Z.of_N (Ascii.N_of_ascii a)) s
  end.

(** [encode] and [decode], given the JSON of the type. *)
Definition encode_message {T} (to_json : T → option string) (msg : T) : ProtocolError + string :=
  match to_json msg with
  | None => inl Proto_Json
  | Some json =>
      let size := Z.of_nat (String.length json) in
      if (MAX_MESSAGE_SIZE <? size)%Z then inl (Proto_MessageTooLarge size MAX_MESSAGE_SIZE)
      else inr json
  end.

Definition decode_message {T} (from_json : string → option T) (bytes : string) : ProtocolError + T :=
  match from_json bytes with None => inl Proto_Json | Some msg => inr msg end.

Definition read_message (r : Stream) : ProtocolError + (string * Stream) :=
  match read_exact 4 r with
  | inl End_Eof => inl Proto_ConnectionClosed
  | inl End_Error => inl Proto_Io
  | inl End_Stall => inl Proto_Timeout
  | inr (len_buf, r) =>
      let len := from_be_bytes 0 len_buf in
      if (MAX_MESSAGE_SIZE <? len)%Z then inl (Proto_MessageTooLarge len MAX_MESSAGE_SIZE)
      else match read_exact (Z.to_nat len) r with
           | inl End_Stall => inl Proto_Timeout
           | inl _ => inl Proto_Io
           | inr (buf, r) => inr (buf, r)
           end
  end.

(** The bytes of a message on the stream; the length is cast to [u32]. *)
Definition write_message (data : string) : ProtocolError + string :=
  let len := Z.of_nat (String.length data) in
  if (MAX_MESSAGE_SIZE <? len)%Z then inl (Proto_MessageTooLarge len MAX_MESSAGE_SIZE)
  else inr (to_be_bytes (u32_wrap len) +:+ data).

Definition read_request {T} (from_json : string → option T) (r : Stream) : ProtocolError + T :=
  match read_message r with
  | inl e => inl e
  | inr (bytes, _) => decode_message from_json bytes
  end.

Definition write_response {T} (to_json : T → option string) (response : T) : ProtocolError + string :=
  match encode_message to_json response with
  | inl e => inl e
  | inr data => write_message data
  end.

Local Close Scope string_scope.

(** ** What the framing promises *)

Lemma byte_of_value z : Z.of_N (Ascii.N_of_ascii (byte_of z)) = (z `mod` 256)%Z.
Proof.
  unfold byte_of. pose proof (Z.mod_pos_bound z 256 ltac:(lia)).
  rewrite Ascii.N_ascii_embedding by lia. lia.
Qed.

Lemma be_bytes_roundtrip n : is_u32 n → from_be_bytes 0 (to_be_bytes n) = n.
Proof.
  unfold is_u32. intros Hn. unfold to_be_bytes. cbn [from_be_bytes].
  rewrite !byte_of_value. change (2 ^ 24)%Z with 16777216%Z. change (2 ^ 16)%Z with 65536%Z.
  change (2 ^ 8)%Z with 256%Z. change (2 ^ 32)%Z with 4294967296%Z in Hn.
  Z.to_euclidean_division_equations. lia.
Qed.

Lemma substring_app_l a b : String.substring 0 (String.length a) (a +:+ b) = a.
Proof. induction a as [|c a IH]; simpl; [by destruct b | by rewrite IH]. Qed.

Lemma substring_all b : String.substring 0 (String.length b) b = b.
Proof. induction b as [|c b IH]; simpl; [done | by rewrite IH]. Qed.

Lemma substring_app_r a b :
  String.substring (String.length a) (String.length b) (a +:+ b) = b.
Proof. induction a as [|c a IH]; simpl; [apply substring_all | by rewrite IH]. Qed.

Lemma read_exact_app a b e :
  read_exact (String.length a) (mkStream (a +:+ b) e) = inr (a, mkStream b e).
Proof.
  unfold read_exact. cbn [stream_bytes stream_end]. rewrite string_length_app.
  destruct (Nat.leb_spec (String.length a) (String.length a + String.length b)); [| lia].
  rewrite substring_app_l, Nat.add_comm, Nat.add_sub, substring_app_r. done.
Qed.

Lemma read_exact_short n r :
  (String.length (stream_bytes r) < n)%nat → read_exact n r = inl (stream_end r).
Proof. unfold read_exact. intros H. by destruct (Nat.leb_spec n (String.length (stream_bytes r))); [lia |]. Qed.

Lemma write_message_ok data frame :
  write_message data = inr frame →
  (Z.of_nat (String.length data) ≤ MAX_MESSAGE_SIZE)%Z ∧
  frame = to_be_bytes (Z.of_nat (String.length data)) +:+ data.
Proof.
  unfold write_message. destruct (Z.ltb_spec MAX_MESSAGE_SIZE (Z.of_nat (String.length data)));
    [done |]. intros [= <-]. split; [done |]. rewrite u32_wrap_small; [done |].
  unfold is_u32, MAX_MESSAGE_SIZE in *. lia.
Qed.

(** A message that was written is read back whole, and what follows it on the
    stream is left for the next read. *)
Lemma read_written data frame rest e :
  write_message data = inr frame →
  read_message (mkStream (frame +:+ rest) e) = inr (data, mkStream rest e).
Proof.
  intros [Hle ->]%write_message_ok. unfold read_message. rewrite string_app_assoc.
  change 4 with (String.length (to_be_bytes (Z.of_nat (String.length data)))).
  rewrite read_exact_app, be_bytes_roundtrip
    by (unfold is_u32; unfold MAX_MESSAGE_SIZE in Hle; lia).
  destruct (Z.ltb_spec MAX_MESSAGE_SIZE (Z.of_nat (String.length data))); [lia |].
  by rewrite Nat2Z.id, read_exact_app.
Qed.

(** A frame that breaks off is an error, never a message. *)
Lemma read_broken_off data frame part lost e :
  write_message data = inr frame → frame = part +:+ lost → lost ≠ EmptyString →
  ∃ err, read_message (mkStream part e) = inl err.
Proof.
  intros Hw Hf Hl. pose proof (write_message_ok _ _ Hw) as [Hle Hfr].
  destruct (Nat.lt_ge_cases (String.length part) 4) as [Hs|Hs].
  { unfold read_message. rewrite read_exact_short by done. destruct e; by eexists. }
  set (hd := to_be_bytes (Z.of_nat (String.length data))) in *.
  assert (∃ t, part = hd +:+ t) as [t ->].
  { exists (String.substring 4 (String.length part - 4) part).
    rewrite Hfr in Hf. unfold hd, to_be_bytes in Hf |- *. clear -Hf Hs.
    do 4 (destruct part as [|? part]; simpl in Hs; [lia |]). cbn in Hf.
    injection Hf as -> -> -> -> _. cbn. by rewrite Nat.sub_0_r, substring_all. }
  rewrite Hfr, string_app_assoc in Hf.
  assert (data = t +:+ lost) as ->.
  { unfold hd, to_be_bytes in Hf. cbn in Hf. by injection Hf. }
  unfold read_message. change 4 with (String.length hd).
  rewrite read_exact_app. unfold hd.
  rewrite be_bytes_roundtrip by (unfold is_u32; unfold MAX_MESSAGE_SIZE in Hle; lia).
  destruct (Z.ltb_spec MAX_MESSAGE_SIZE (Z.of_nat (String.length (t +:+ lost)))); [lia |].
  rewrite Nat2Z.id, read_exact_short; [destruct e; by eexists |].
  cbn [stream_bytes]. rewrite string_length_app. destruct lost; simpl; [done | lia].
Qed.

(** C36. What one side sends arrives at the other side as it was sent, if the
    JSON does; a connection that breaks off before the end of a message, or in
    the middle of it, is an error and never a message. *)
Theorem message_roundtrip {T} (to_json : T → option string) (from_json : string → option T)
    (Hjson : ∀ m s, to_json m = Some s → from_json s = Some m) (msg : T) frame
    (Hsent : write_response to_json msg = inr frame) :
  (∀ rest e, read_request from_json (mkStream (frame +:+ rest) e) = inr msg) ∧
  (∀ part lost e, frame = part +:+ lost → lost ≠ EmptyString →
     ∃ err, read_request from_json (mkStream part e) = inl err).
Proof.
  unfold write_response, encode_message in Hsent.
  destruct (to_json msg) as [json|] eqn:Hj; [| done].
  destruct (_ <? _)%Z; [done |]. unfold read_request. split.
  - intros rest e. rewrite (read_written json frame) by done. unfold decode_message.
    by rewrite (Hjson msg json).
  - intros part lost e Hf Hl. destruct (read_broken_off json frame part lost e Hsent Hf Hl) as [err ->].
    by eexists.
Qed.

Lemma message_roundtrip_witness :
  write_response (T:=bool) (λ b, Some (if b then "true" else "false")%string) true
  = inr (String "000" (String "000" (String "000" (String "004" "true"))))%string ∧
  read_request (λ s, if String.eqb s "true" then Some true
                     else if String.eqb s "false" then Some false else None)
    (mkStream (String "000" (String "000" (String "000" (String "004" "true"))))%string End_Eof)
  = inr true.
Proof.
  split; [vm_compute; reflexivity |].
  refine (proj1 (message_roundtrip (T:=bool) (λ b, Some (if b then "true" else "false")%string)
    (λ s, if String.eqb s "true" then Some true
          else if String.eqb s "false" then Some false else None)
    _ true (String "000" (String "000" (String "000" (String "004" "true"))))%string _)
    EmptyString End_Eof).
  - intros [] s [= <-]; reflexivity.
  - vm_compute. reflexivity.
Defined.
