(* ===== verification/Breadcrumb.v ===== *)
(** The files the daemon keeps about jobs and agents: the paths of
    [crates/engine/src/log_paths.rs], and the part of [std::fs] that the daemon
    uses on them. *)

From S2P Require Import Prelude Ids Bytes Vars Slug Entities Job Event State Runtime WorkerQueue.

Local Open Scope string_scope.

(** [std::fs] on a world; an error is [None] or [false]. *)
Class Files (W : Type) := {
  (** The paths of the entries that could be read. *)
  fs_read_dir : PathBuf → W → option (list PathBuf);
  fs_read : PathBuf → W → option string;
  fs_exists : PathBuf → W → bool;
  fs_is_dir : PathBuf → W → bool;
  (** [symlink_metadata(..).is_file()] *)
  fs_is_file : PathBuf → W → bool;
  (** The time since the last modification, in nanoseconds, if it is known and
      not in the future. *)
  fs_age : PathBuf → W → option Z;
  fs_create_dir_all : PathBuf → W → bool * W;
  fs_write : PathBuf → string → W → bool * W;
  fs_rename : PathBuf → PathBuf → W → bool * W;
  fs_remove_file : PathBuf → W → W;
  fs_remove_dir_all : PathBuf → W → W
}.

(** [Path::file_name], for a path that does not end in [".."]. *)
Definition path_file_name (path : PathBuf) : string :=
  match split_once "/"%char (rev_str path) with
  | Some (r, _) => rev_str r
  | None => path
  end.

(** ** [log_paths.rs] *)

Definition job_log_path (logs_dir : PathBuf) (job_id : string) : PathBuf :=
  path_join (path_join logs_dir "job") (job_id +:+ ".log").

Definition agent_log_path (logs_dir : PathBuf) (agent_id : string) : PathBuf :=
  path_join (path_join logs_dir "agent") (agent_id +:+ ".log").

Definition agent_session_log_dir (logs_dir : PathBuf) (agent_id : string) : PathBuf :=
  path_join (path_join logs_dir "agent") agent_id.

Definition cron_log_path (logs_dir : PathBuf) (cron_name : string) : PathBuf :=
  path_join (path_join logs_dir "cron") (cron_name +:+ ".log").

Definition worker_log_path (logs_dir : PathBuf) (worker_name : string) : PathBuf :=
  path_join (path_join logs_dir "worker") (worker_name +:+ ".log").

Definition queue_log_path (logs_dir : PathBuf) (queue_name : string) : PathBuf :=
  path_join (path_join logs_dir "queue") (queue_name +:+ ".log").

Definition breadcrumb_path (logs_dir : PathBuf) (job_id : string) : PathBuf :=
  path_join logs_dir (job_id +:+ ".crumb.json").

Definition metrics_usage_path (state_dir : PathBuf) : PathBuf :=
  path_join (path_join state_dir "metrics") "usage.jsonl".

Local Close Scope string_scope.

(** Times as text: [format_utc_now] and [days_to_civil] of
    [crates/engine/src/breadcrumb.rs], and [parse_rfc3339_to_epoch_ms] of
    [crates/daemon/src/listener/query_orphans.rs], which reads them back. *)

Local Open Scope Z_scope.

(** ** Writing *)

(** Days since the epoch to year, month and day. *)
Definition days_to_civil (days : Z) : Z * Z * Z :=
  let z := days + 719468 in
  let era := Z.quot (if 0 <=? z then z else z - 146096) 146097 in
  let doe := z - era * 146097 in
  let yoe := (doe - doe / 1460 + doe / 36524 - doe / 146096) / 365 in
  let y := yoe + era * 400 in
  let doy := doe - (365 * yoe + yoe / 4 - yoe / 100) in
  let mp := (5 * doy + 2) / 153 in
  let d := doy - (153 * mp + 2) / 5 + 1 in
  let m := if mp <? 10 then mp + 3 else mp - 9 in
  (if m <=? 2 then y + 1 else y, m, d).

Local Open Scope string_scope.

(** [{:0w}] of a number that is not negative. *)
Fixpoint zeros (n : nat) : string :=
  match n with O => "" | S n => String "0" (zeros n) end.
Definition pad0 (w : nat) (n : Z) : string :=
  let s := pretty (Z.to_N n) in zeros (w - String.length s) +:+ s.

(** [format_utc_now], of the seconds since the epoch. *)
Definition format_utc (secs : Z) : string :=
  let days := (secs / 86400)%Z in
  let time_of_day := (secs mod 86400)%Z in
  let hours := (time_of_day / 3600)%Z in
  let minutes := ((time_of_day mod 3600) / 60)%Z in
  let seconds := (time_of_day mod 60)%Z in
  let '(year, month, day) := days_to_civil days in
  pad0 4 year +:+ "-" +:+ pad0 2 month +:+ "-" +:+ pad0 2 day +:+ "T"
  +:+ pad0 2 hours +:+ ":" +:+ pad0 2 minutes +:+ ":" +:+ pad0 2 seconds +:+ "Z".

(** ** Reading *)

(** [&s[a..b]]; a slice inside a character panics. *)
Definition slice (s : string) (a b : nat) : option string :=
  if is_char_boundary s a && is_char_boundary s b then Some (String.substring a (b - a) s)
  else None.

Definition byte_is (s : string) (i : nat) (c : ascii) : bool :=
  match String.get i s with Some a => Ascii.eqb a c | None => false end.

Definition parse_field (s : string) (a b : nat) : option Z :=
  f ← slice s a b; Some (default 0%Z (parse_u64 f)).

(** The milliseconds of a date, in [u64]. *)
Definition civil_to_ms (year month day hour min sec : Z) : Z :=
  let y := (if month <=? 2 then u64_wrap (year - 1) else year)%Z in
  let era := (y / 400)%Z in
  let yoe := (y - era * 400)%Z in
  let m := (if 2 <? month then month - 3 else month + 9)%Z in
  let doy := ((153 * m + 2) / 5 + day - 1)%Z in
  let doe := (yoe * 365 + yoe / 4 - yoe / 100 + doy)%Z in
  let days := (era * 146097 + doe - 719468)%Z in
  u64_wrap ((days * 86400 + hour * 3600 + min * 60 + sec) * 1000).

(** [None] is a panic; what is not a date is 0. *)
Definition parse_rfc3339_to_epoch_ms (s : string) : option Z :=
  if (String.length s <? 20)%nat || negb (byte_is s 4 "-") || negb (byte_is s 7 "-")
     || negb (byte_is s 10 "T") || negb (byte_is s 13 ":") || negb (byte_is s 16 ":")
  then Some 0%Z
  else
    year ← parse_field s 0 4;
    month ← parse_field s 5 7;
    day ← parse_field s 8 10;
    hour ← parse_field s 11 13;
    min ← parse_field s 14 16;
    sec ← parse_field s 17 19;
    if negb ((1 <=? month) && (month <=? 12))%Z || negb ((1 <=? day) && (day <=? 31))%Z
    then Some 0%Z
    else Some (civil_to_ms year month day hour min sec).

Local Close Scope string_scope.

(** ** Round trip *)

(** A day of the 400-year cycle is found again from its year, month and day. *)
Definition day_check (doe : Z) : bool :=
  let yoe := (doe - doe / 1460 + doe / 36524 - doe / 146096) / 365 in
  let doy := doe - (365 * yoe + yoe / 4 - yoe / 100) in
  let mp := (5 * doy + 2) / 153 in
  let d := doy - (153 * mp + 2) / 5 + 1 in
  let m := if mp <? 10 then mp + 3 else mp - 9 in
  let m' := if 2 <? m then m - 3 else m + 9 in
  let doy' := (153 * m' + 2) / 5 + d - 1 in
  (0 <=? yoe) && (yoe <? 400) && (1 <=? m) && (m <=? 12) && (1 <=? d) && (d <=? 31)
  && (yoe * 365 + yoe / 4 - yoe / 100 + doy' =? doe)
  && ((doy <? 306) || (m <=? 2)).

Fixpoint all_below (n : nat) (z : Z) (p : Z → bool) : bool :=
  match n with O => true | S n => p z && all_below n (z + 1) p end.

Lemma all_below_spec n z p :
  all_below n z p = true → ∀ x, z ≤ x < z + Z.of_nat n → p x = true.
Proof.
  revert z. induction n as [|n IH]; intros z; cbn [all_below]; [lia |].
  intros [Hz Hn]%andb_true_iff x Hx. destruct (Z.eq_dec x z) as [->|]; [done |].
  apply (IH (z + 1)); [done | lia].
Qed.

Lemma day_check_all doe : 0 ≤ doe < 146097 → day_check doe = true.
Proof.
  intros H. apply (all_below_spec (Z.to_nat 146097) 0); [vm_compute; reflexivity | lia].
Qed.

(** The numbers of a date are in range, and give back the days. *)
Lemma civil_roundtrip days hour min sec :
  0 ≤ days → 0 ≤ hour → 0 ≤ min → 0 ≤ sec →
  (days * 86400 + hour * 3600 + min * 60 + sec) * 1000 < 2 ^ 64 →
  let '(year, month, day) := days_to_civil days in
  1970 ≤ year ∧ 1 ≤ month ≤ 12 ∧ 1 ≤ day ≤ 31 ∧
  civil_to_ms year month day hour min sec = (days * 86400 + hour * 3600 + min * 60 + sec) * 1000.
Proof.
  intros Hd Hh Hm Hs Hmax. unfold days_to_civil.
  destruct (Z.leb_spec 0 (days + 719468)); [| lia].
  rewrite Z.quot_div_nonneg by lia.
  set (z := days + 719468) in *. set (era := z / 146097). set (doe := z - era * 146097).
  assert (0 ≤ doe < 146097) as Hdoe by (unfold doe, era; Z.to_euclidean_division_equations; lia).
  pose proof (day_check_all doe Hdoe) as Hc. unfold day_check in Hc.
  set (yoe := (doe - doe / 1460 + doe / 36524 - doe / 146096) / 365) in *.
  set (doy := doe - (365 * yoe + yoe / 4 - yoe / 100)) in *.
  set (mp := (5 * doy + 2) / 153) in *.
  set (d := doy - (153 * mp + 2) / 5 + 1) in *.
  set (m := if mp <? 10 then mp + 3 else mp - 9) in *.
  rewrite !andb_true_iff, !Z.leb_le, !Z.ltb_lt, Z.eqb_eq, orb_true_iff, Z.leb_le, Z.ltb_lt in Hc.
  destruct Hc as [[[[[[[Hy0 Hy1] Hm0] Hm1] Hd0] Hd1] Hdoy] Hlate].
  assert (4 ≤ era) as Hera4 by (unfold era; apply Z.div_le_lower_bound; lia).
  assert (z = era * 146097 + doe) as Hz by (unfold doe; lia).
  assert (1970 ≤ (if m <=? 2 then yoe + era * 400 + 1 else yoe + era * 400)) as H1970.
  { assert (4 < era ∨ era = 4) as [?|He] by lia; [destruct (m <=? 2); lia |].
    assert (135080 ≤ doe) as Hlow by lia.
    assert (369 < yoe ∨ yoe = 369) as [?|Hy].
    { clear -Hlow Hdoe. unfold yoe. Z.to_euclidean_division_equations. lia. }
    { destruct (m <=? 2); lia. }
    assert (306 ≤ doy) as Hlast by (unfold doy; rewrite Hy; change (369 / 4) with 92; change (369 / 100) with 3; lia).
    destruct (Z.leb_spec m 2); lia. }
  split_and!; [done | done | done | done | done |].
  unfold civil_to_ms.
  assert ((if m <=? 2 then u64_wrap ((if m <=? 2 then yoe + era * 400 + 1 else yoe + era * 400) - 1)
           else (if m <=? 2 then yoe + era * 400 + 1 else yoe + era * 400)) = yoe + era * 400) as ->.
  { destruct (m <=? 2); [| done]. rewrite u64_wrap_small; [lia |]. unfold is_u64.
    assert (era * 146097 * 86400000 < 2 ^ 65) by lia. lia. }
  assert ((yoe + era * 400) / 400 = era) as -> by (Z.to_euclidean_division_equations; lia).
  replace (yoe + era * 400 - era * 400) with yoe by lia.
  set (m' := if 2 <? m then m - 3 else m + 9) in *.
  replace (era * 146097 + (yoe * 365 + yoe / 4 - yoe / 100 + ((153 * m' + 2) / 5 + d - 1)) - 719468)
    with days by lia.
  apply u64_wrap_small. unfold is_u64. lia.
Qed.

(** A field of [w] digits: its text has [w] ASCII characters and reads back. *)
Definition field_check (w : nat) (n : Z) : bool :=
  (String.length (pad0 w n) =? w)%nat &&
  forallb (in_range 48 57) (String.list_ascii_of_string (pad0 w n)) &&
  bool_decide (parse_u64 (pad0 w n) = Some n).

Lemma field_check_2 n : 0 ≤ n < 100 → field_check 2 n = true.
Proof.
  intros H. apply (all_below_spec (Z.to_nat 100) 0); [vm_compute; reflexivity | lia].
Qed.

Lemma field_check_4 n : 0 ≤ n < 10000 → field_check 4 n = true.
Proof.
  intros H. apply (all_below_spec (Z.to_nat 10000) 0); [vm_compute; reflexivity | lia].
Qed.

Lemma pad0_2 n :
  0 ≤ n < 100 → ∃ a b, pad0 2 n = String a (String b EmptyString) ∧
    in_range 48 57 a = true ∧ in_range 48 57 b = true ∧
    parse_u64 (String a (String b EmptyString)) = Some n.
Proof.
  intros H%field_check_2. unfold field_check in H.
  rewrite !andb_true_iff, Nat.eqb_eq, bool_decide_eq_true in H. destruct H as [[Hl Hd] Hp].
  destruct (pad0 2 n) as [|a [|b [|]]]; simpl in Hl; try lia.
  simpl in Hd. rewrite !andb_true_iff in Hd. exists a, b. naive_solver.
Qed.

Lemma pad0_4 n :
  0 ≤ n < 10000 → ∃ a b c d,
    pad0 4 n = String a (String b (String c (String d EmptyString))) ∧
    in_range 48 57 a = true ∧
    parse_u64 (String a (String b (String c (String d EmptyString)))) = Some n.
Proof.
  intros H%field_check_4. unfold field_check in H.
  rewrite !andb_true_iff, Nat.eqb_eq, bool_decide_eq_true in H. destruct H as [[Hl Hd] Hp].
  destruct (pad0 4 n) as [|a [|b [|c [|d [|]]]]]; simpl in Hl; try lia.
  simpl in Hd. rewrite !andb_true_iff in Hd. exists a, b, c, d. naive_solver.
Qed.

Lemma digit_boundary s i a :
  String.get i s = Some a → in_range 48 57 a = true → is_char_boundary s i = true.
Proof.
  intros Hg Hr. unfold is_char_boundary. rewrite Hg. unfold in_range, byte in Hr.
  rewrite andb_true_iff, !N.leb_le in Hr. apply orb_true_iff. left. apply N.ltb_lt. lia.
Qed.

(** A field between a digit and a separator is read. *)
Lemma parse_field_digits s i j a c f n :
  String.get i s = Some a → in_range 48 57 a = true →
  String.get j s = Some c → (Ascii.N_of_ascii c < 128)%N →
  String.substring i (j - i) s = f → parse_u64 f = Some n → parse_field s i j = Some n.
Proof.
  intros Ha Hr Hc Hlt Hs Hp. unfold parse_field, slice.
  rewrite (digit_boundary s i a) by done. unfold is_char_boundary. rewrite Hc.
  apply N.ltb_lt in Hlt. rewrite Hlt. simpl. by rewrite Hs, Hp.
Qed.

Local Opaque parse_u64 civil_to_ms in_range.

(** The time a breadcrumb carries is read back exactly, from 1970 to the
    end of the year 9999: the calendar of [days_to_civil] and the one of
    [parse_rfc3339_to_epoch_ms] are inverse. *)
Lemma timestamp_roundtrip secs :
  0 ≤ secs → (days_to_civil (secs / 86400)).1.1 < 10000 →
  parse_rfc3339_to_epoch_ms (format_utc secs) = Some (secs * 1000).
Proof.
  intros Hs Hy. unfold format_utc.
  set (days := secs / 86400) in *. set (tod := secs mod 86400).
  assert (0 ≤ tod < 86400) as Htod by (apply Z.mod_pos_bound; lia).
  assert (secs = days * 86400 + tod) as Hsecs by (unfold days, tod; pose proof (Z.div_mod secs 86400); lia).
  set (h := tod / 3600). set (mi := (tod mod 3600) / 60). set (se := tod mod 60).
  assert (0 ≤ h < 24 ∧ 0 ≤ mi < 60 ∧ 0 ≤ se < 60 ∧ tod = h * 3600 + mi * 60 + se)
    as (Hh & Hmi & Hse & Htime)
    by (unfold h, mi, se; Z.to_euclidean_division_equations; lia).
  clearbody h mi se days. clear Htod.
  pose proof (civil_roundtrip days h mi se) as Hc.
  destruct (days_to_civil days) as [[y mo] d] eqn:Hciv. simpl in Hy.
  assert (0 ≤ days) as Hd0 by lia.
  assert (days < 4000000) as Hdays.
  { destruct (Z.lt_ge_cases days 4000000) as [?|Hge]; [done | exfalso].
    revert Hciv. unfold days_to_civil. destruct (Z.leb_spec 0 (days + 719468)); [| lia].
    rewrite Z.quot_div_nonneg by lia. intros [= Hye _ _].
    set (era := (days + 719468) / 146097) in *.
    assert (32 ≤ era) as He by (apply Z.div_le_lower_bound; lia).
    set (doe := days + 719468 - era * 146097) in *.
    assert (0 ≤ doe < 146097) as Hdoe by (unfold doe, era; Z.to_euclidean_division_equations; lia).
    pose proof (day_check_all doe Hdoe) as Hk. unfold day_check in Hk.
    set (yoe := (doe - doe / 1460 + doe / 36524 - doe / 146096) / 365) in *.
    rewrite !andb_true_iff, !Z.leb_le in Hk. destruct Hk as [[[[[[[Hy0 _] _] _] _] _] _] _].
    clearbody yoe era. revert Hye. clear -Hy Hy0 He. set (b := (_ <=? 2)). destruct b; lia. }
  destruct Hc as (Hy0 & [Hm0 Hm1] & [Hda0 Hda1] & Hms); [lia.. |].
  destruct (pad0_4 y) as (y1 & y2 & y3 & y4 & -> & Hy1 & Hpy); [lia |].
  destruct (pad0_2 mo) as (m1 & m2 & -> & Hm1' & _ & Hpm); [lia |].
  destruct (pad0_2 d) as (d1 & d2 & -> & Hd1' & _ & Hpd); [lia |].
  destruct (pad0_2 h) as (h1 & h2 & -> & Hh1 & _ & Hph); [lia |].
  destruct (pad0_2 mi) as (i1 & i2 & -> & Hi1 & _ & Hpi); [lia |].
  destruct (pad0_2 se) as (s1 & s2 & -> & Hs1 & _ & Hps); [lia |].
  unfold parse_rfc3339_to_epoch_ms. simpl (_ || _).
  rewrite (parse_field_digits _ 0 4 y1 "-"%char _ y), (parse_field_digits _ 5 7 m1 "-"%char _ mo),
    (parse_field_digits _ 8 10 d1 "T"%char _ d), (parse_field_digits _ 11 13 h1 ":"%char _ h),
    (parse_field_digits _ 14 16 i1 ":"%char _ mi), (parse_field_digits _ 17 19 s1 "Z"%char _ se)
    by (done || reflexivity).
  cbn [mbind option_bind].
  destruct (Z.leb_spec 1 mo), (Z.leb_spec mo 12), (Z.leb_spec 1 d), (Z.leb_spec d 31); try lia.
  simpl. rewrite Hms. f_equal. lia.
Qed.

Example timestamp_sample :
  format_utc 1768473000 = "2026-01-15T10:30:00Z"%string ∧
  parse_rfc3339_to_epoch_ms (format_utc 1768473000) = Some (1768473000 * 1000).
Proof. split; vm_compute; reflexivity. Qed.

(** Breadcrumbs: [crates/engine/src/breadcrumb.rs], and the detection of
    orphaned jobs in [startup_inner] of [crates/daemon/src/lifecycle/mod.rs].

    A breadcrumb is a small file beside the log of a job.  It is written while
    the job runs and read only at startup, to find jobs that were lost. *)

Local Open Scope string_scope.

Record BreadcrumbAgent := mkBreadcrumbAgent {
  bca_agent_id : string;
  bca_session_name : option string;
  bca_log_path : PathBuf
}.

Record Breadcrumb := mkBreadcrumb {
  bc_job_id : string;
  bc_project : string;
  bc_kind : string;
  bc_name : string;
  bc_vars : gmap string string;
  bc_current_step : string;
  bc_step_status : string;
  bc_agents : list BreadcrumbAgent;
  bc_workspace_id : option string;
  bc_workspace_root : option PathBuf;
  bc_updated_at : string;
  bc_runbook_hash : string;
  bc_cwd : option PathBuf
}.

(** [serde_json] on breadcrumbs. *)
Class BreadcrumbJson := {
  crumb_to_json : Breadcrumb → option string;
  crumb_from_json : string → option Breadcrumb
}.

(** ** Writing *)

(** The agents of the step history; the session is that of the current step. *)
Definition breadcrumb_agents (logs_dir : PathBuf) (j : Job) : list BreadcrumbAgent :=
  omap (λ r, match step_agent_id r with
             | Some agent_id =>
                 Some (mkBreadcrumbAgent agent_id
                         (if String.eqb (step_name r) (job_step j) then job_session_id j else None)
                         (agent_log_path logs_dir agent_id))
             | None => None
             end) (job_step_history j).

Definition build_breadcrumb (logs_dir : PathBuf) (now_secs : Z) (j : Job) : Breadcrumb :=
  mkBreadcrumb (job_id j) (job_namespace j) (job_kind j) (job_name j) (job_vars j) (job_step j)
    (StepStatus_display (job_step_status j)) (breadcrumb_agents logs_dir j) (job_workspace_id j)
    (job_workspace_path j) (format_utc now_secs) (job_runbook_hash j) (Some (job_cwd j)).

(** [Path::with_extension], for a file name with a dot after its start. *)
Definition with_extension (path : PathBuf) (ext : string) : PathBuf :=
  match rsplit_once "."%char path with
  | Some (stem, _) => stem +:+ "." +:+ ext
  | None => path +:+ "." +:+ ext
  end.

Section Breadcrumbs.
Context {W : Type} `{FL : !Files W} `{BJ : !BreadcrumbJson}.

(** [BreadcrumbWriter::write]: a failure is only logged. *)
Definition write_breadcrumb (logs_dir : PathBuf) (now_secs : Z) (j : Job) (w : W) : W :=
  let breadcrumb := build_breadcrumb logs_dir now_secs j in
  let path := breadcrumb_path logs_dir (bc_job_id breadcrumb) in
  let tmp_path := with_extension path "crumb.tmp" in
  let '(ok, w) := fs_create_dir_all logs_dir w in
  if negb ok then w
  else match crumb_to_json breadcrumb with
       | None => w
       | Some json =>
           let '(ok, w) := fs_write tmp_path json w in
           if negb ok then w else (fs_rename tmp_path path w).2
       end.

(** [BreadcrumbWriter::delete]. *)
Definition delete_breadcrumb (logs_dir : PathBuf) (job_id : string) (w : W) : W :=
  let path := breadcrumb_path logs_dir job_id in
  if fs_exists path w then fs_remove_file path w else w.

(** ** Startup *)

(** A file of the logs directory, if it is a breadcrumb that can be read. *)
Definition read_breadcrumb (w : W) (path : PathBuf) : option Breadcrumb :=
  let name := path_file_name path in
  if utf8_valid name && ends_with ".crumb.json" name then
    fs_read path w ≫= crumb_from_json
  else None.

Definition scan_breadcrumbs (logs_dir : PathBuf) (w : W) : list Breadcrumb :=
  match fs_read_dir logs_dir w with
  | None => []
  | Some paths => omap (read_breadcrumb w) paths
  end.

(** 7 days in nanoseconds. *)
Definition stale_threshold : Z := 7 * 24 * 60 * 60 * 1000000000.

(** One breadcrumb at startup: is it an orphan, and what becomes of its file. *)
Definition check_breadcrumb {Value} (state : MaterializedState Value) (logs_path : PathBuf)
    (bc : Breadcrumb) (w : W) : bool * W :=
  let path := breadcrumb_path logs_path (bc_job_id bc) in
  match jobs state !! bc_job_id bc with
  | Some job => (false, if Job_is_terminal job then fs_remove_file path w else w)
  | None =>
      let is_stale := match fs_age path w with
                      | Some age => (stale_threshold <? age)%Z
                      | None => false
                      end in
      if is_stale then (false, fs_remove_file path w) else (true, w)
  end.

Fixpoint detect_orphans {Value} (state : MaterializedState Value) (logs_path : PathBuf)
    (bcs : list Breadcrumb) (w : W) : list Breadcrumb * W :=
  match bcs with
  | [] => ([], w)
  | bc :: bcs =>
      let '(orphan, w) := check_breadcrumb state logs_path bc w in
      let '(orphans, w) := detect_orphans state logs_path bcs w in
      ((if orphan then bc :: orphans else orphans), w)
  end.

(** Step 7b of the startup. *)
Definition startup_orphans {Value} (state : MaterializedState Value) (logs_path : PathBuf) (w : W)
    : list Breadcrumb * W :=
  detect_orphans state logs_path (scan_breadcrumbs logs_path w) w.
End Breadcrumbs.

Local Close Scope string_scope.

(** ** Lemmas *)

(** An orphan is a breadcrumb without a job. *)
Lemma detect_orphans_spec {W Value} `{FL : !Files W} (state : MaterializedState Value) logs_path bcs w bc :
  bc ∈ (detect_orphans state logs_path bcs w).1 → bc ∈ bcs ∧ jobs state !! bc_job_id bc = None.
Proof.
  revert w. induction bcs as [|b bcs IH]; intros w; simpl; [set_solver |].
  destruct (check_breadcrumb state logs_path b w) as [o w1] eqn:Hc.
  destruct (detect_orphans state logs_path bcs w1) as [os w2] eqn:Hd. simpl. intros Hin.
  specialize (IH w1). rewrite Hd in IH. simpl in IH. destruct o.
  - apply elem_of_cons in Hin as [->|Hin]; [| naive_solver set_solver].
    split; [set_solver |]. revert Hc. unfold check_breadcrumb.
    destruct (jobs state !! bc_job_id b); [by intros [= ? ?] | done].
  - naive_solver set_solver.
Qed.
