(* ===== verification/Suggest.v ===== *)
(** "Did you mean" hints: the pure part of
    [crates/daemon/src/listener/suggest.rs], and that the distance it uses is
    the least number of edits. *)

From S2P Require Import Prelude Ids Bytes State RunbookFind.

Local Open Scope string_scope.

(** ** Distance *)

(** [str::chars], each character as its bytes. *)
Fixpoint chars (s : string) : list string :=
  match s with
  | EmptyString => []
  | String a s' =>
      match chars s', s' with
      | c :: cs, String b _ =>
          if is_cont b then String a c :: cs else String a EmptyString :: c :: cs
      | _, _ => [String a EmptyString]
      end
  end.

(** The rest of a row of the table: [ups] is the row above from this column on,
    [diag] and [left] the entries before. *)
Fixpoint fill_row {A} `{EqDecision A} (x : A) (bs : list A) (diag : nat) (ups : list nat) (left : nat)
    : list nat :=
  match bs, ups with
  | y :: bs, up :: ups =>
      let cost := if decide (x = y) then 0 else 1 in
      let v := ((up + 1) `min` (left + 1) `min` (diag + cost))%nat in
      v :: fill_row x bs up ups v
  | _, _ => []
  end.

Definition next_row {A} `{EqDecision A} (i : nat) (x : A) (bs : list A) (above : list nat) : list nat :=
  match above with
  | diag :: ups => i :: fill_row x bs diag ups i
  | [] => []
  end.

(** The rows [i], [i + 1], ... up to the last. *)
Fixpoint last_row {A} `{EqDecision A} (i : nat) (xs bs : list A) (above : list nat) : list nat :=
  match xs with
  | [] => above
  | x :: xs => last_row (S i) xs bs (next_row i x bs above)
  end.

Definition table_distance {A} `{EqDecision A} (a b : list A) : nat :=
  List.last (last_row 1 a b (seq 0 (S (length b)))) 0.

Definition edit_distance (a b : string) : nat := table_distance (chars a) (chars b).

(** ** Hints *)

Definition find_similar (input : string) (candidates : list string) : list string :=
  let threshold := ((String.length input / 3) `max` 2)%nat in
  let matches :=
    omap (λ c, let dist := edit_distance input c in
               if (dist <=? threshold)%nat || starts_with input c || starts_with c input
               then Some (dist, c) else None)
      (List.filter (λ c, negb (String.eqb c input)) candidates) in
  (sort_by (λ x y, (x.1 <=? y.1)%nat) matches).*2.

Definition blank_lines : string := newline_str +:+ newline_str.

Definition format_suggestion (similar : list string) : string :=
  match similar with
  | [] => ""
  | [s] => blank_lines +:+ "  did you mean: " +:+ s +:+ "?"
  | _ => blank_lines +:+ "  did you mean one of: " +:+ String.concat ", " similar +:+ "?"
  end.

Inductive ResourceType := Res_Queue | Res_Worker | Res_Cron | Res_Command.

Definition find_in_other_namespaces {Value} (env : Env) (resource_type : ResourceType)
    (name current_namespace : string) (s : MaterializedState Value) : option string :=
  match resource_type with
  | Res_Queue =>
      head (omap (λ k, let '(ns, qname) := split_scoped_name k in
                       if String.eqb qname name && negb (String.eqb ns current_namespace)
                       then Some ns else None)
             (iter_order env TQueues (dom (queue_items s))))
  | Res_Worker =>
      worker_namespace <$>
        List.find (λ w, String.eqb (worker_name w) name
                        && negb (String.eqb (worker_namespace w) current_namespace))
          (table_values env TWorkers (workers s))
  | Res_Cron =>
      cron_rec_namespace <$>
        List.find (λ c, String.eqb (cron_rec_name c) name
                        && negb (String.eqb (cron_rec_namespace c) current_namespace))
          (table_values env TCrons (crons s))
  | Res_Command => None
  end.

Definition format_cross_project_suggestion (command_prefix name namespace : string) : string :=
  blank_lines +:+ "  did you mean: " +:+ command_prefix +:+ " " +:+ name +:+ " --project "
  +:+ namespace +:+ "?".

(** The hint for a name among candidates, or in another project. *)
Definition suggest_from_candidates {Value} (env : Env) (name namespace command_prefix : string)
    (s : MaterializedState Value) (resource_type : ResourceType) (candidates : list string) : string :=
  let hint := format_suggestion (find_similar name candidates) in
  if negb (is_empty hint) then hint
  else match find_in_other_namespaces env resource_type name namespace s with
       | Some other_ns => format_cross_project_suggestion command_prefix name other_ns
       | None => ""
       end.

Local Close Scope string_scope.

(** ** The least number of edits *)

Section Distance.
Context {A : Type} `{DecA : !EqDecision A}.
Implicit Types (a b c : list A).

(** One character is deleted, inserted or replaced. *)
Inductive edit : list A → list A → Prop :=
  | edit_delete x a : edit (x :: a) a
  | edit_insert x a : edit a (x :: a)
  | edit_replace x y a : edit (x :: a) (y :: a)
  | edit_skip x a b : edit a b → edit (x :: a) (x :: b).

Definition cost (x y : A) : nat := if decide (x = y) then 0 else 1.

(** A way to turn one list into another from left to right, and its cost. *)
Inductive align : list A → list A → nat → Prop :=
  | align_nil : align [] [] 0
  | align_delete x a b n : align a b n → align (x :: a) b (S n)
  | align_insert y a b n : align a b n → align a (y :: b) (S n)
  | align_pair x y a b n : align a b n → align (x :: a) (y :: b) (cost x y + n).

Lemma cost_le x y : cost x y ≤ 1.
Proof. unfold cost. case_decide; lia. Qed.

Lemma cost_refl x : cost x x = 0.
Proof. unfold cost. by rewrite decide_True. Qed.

Lemma align_refl a : align a a 0.
Proof.
  induction a as [|x a IH]; [constructor |]. pose proof (align_pair x x a a 0 IH) as H.
  by rewrite cost_refl in H.
Qed.

Lemma align_edits a b n : align a b n → ∃ m, m ≤ n ∧ nsteps edit m a b.
Proof.
  assert (∀ x m a b, nsteps edit m a b → nsteps edit m (x :: a) (x :: b)) as Hskip.
  { intros x m a' b' Hm. induction Hm; [constructor |]. econstructor; [by apply edit_skip | done]. }
  induction 1 as [|x a b n _ (m & Hm & IH)|y a b n _ (m & Hm & IH)|x y a b n _ (m & Hm & IH)].
  - exists 0. split; [lia | constructor].
  - exists (S m). split; [lia |]. econstructor; [apply edit_delete | done].
  - exists (S m). split; [lia |]. econstructor; [apply edit_insert | by apply Hskip].
  - unfold cost. destruct (decide (x = y)) as [<-|Hne].
    + exists m. split; [lia | by apply Hskip].
    + exists (S m). split; [lia |]. econstructor; [apply edit_replace | by apply Hskip].
Qed.

Lemma align_replace x y a c n : align (y :: a) c n → ∃ m, m ≤ S n ∧ align (x :: a) c m.
Proof.
  remember (y :: a) as l eqn:El. intros H. revert x y a El.
  induction H as [|x' a' b n H IH|y' a' b n H IH|x' y' a' b n H IH]; intros x y a El; simplify_eq.
  - exists (S n). split; [lia |]. by constructor.
  - destruct (IH x y a eq_refl) as (m & Hm & Ha). exists (S m). split; [lia | by constructor].
  - exists (cost x y' + n). split; [pose proof (cost_le x y'); lia | by constructor].
Qed.

Lemma align_drop x a c n : align (x :: a) c n → ∃ m, m ≤ S n ∧ align a c m.
Proof.
  remember (x :: a) as l eqn:El. intros H. revert x a El.
  induction H as [|x' a' b n H IH|y' a' b n H IH|x' y' a' b n H IH]; intros x a El; simplify_eq.
  - exists n. split; [lia | done].
  - destruct (IH x a eq_refl) as (m & Hm & Ha). exists (S m). split; [lia | by constructor].
  - exists (S n). split; [lia | by constructor].
Qed.

(** One edit changes the cost by one at most. *)
Lemma align_edit a b c n : edit a b → align b c n → ∃ m, m ≤ S n ∧ align a c m.
Proof.
  intros He. revert c n. induction He as [x a|x a|x y a|x a b He IH]; intros c n Hal.
  - exists (S n). split; [lia | by constructor].
  - by apply align_drop in Hal.
  - by apply align_replace with (y := y).
  - remember (x :: b) as l eqn:El. revert x a b He IH El.
    induction Hal as [|x' a' b' n H IHH|y' a' b' n H IHH|x' y' a' b' n H IHH];
      intros x a b He IH El; simplify_eq.
    + destruct (IH _ _ H) as (m & Hm & Ha). exists (S m). split; [lia | by constructor].
    + destruct (IHH x a b He IH eq_refl) as (m & Hm & Ha). exists (S m). split; [lia | by constructor].
    + destruct (IH _ _ H) as (m & Hm & Ha). exists (cost x y' + m). split; [lia | by constructor].
Qed.

Lemma edits_align a b n : nsteps edit n a b → ∃ m, m ≤ n ∧ align a b m.
Proof.
  intros H. induction H as [a|n a b c He _ (m & Hm & Ha)].
  - exists 0. split; [lia | apply align_refl].
  - destruct (align_edit _ _ _ _ He Ha) as (m' & Hm' & Ha'). exists m'. split; [lia | done].
Qed.

(** The least cost of an alignment. *)
Definition least (a b : list A) (n : nat) : Prop := align a b n ∧ ∀ m, align a b m → n ≤ m.

Lemma align_snoc_inv a b n :
  align a b n →
  (a = [] ∧ b = [] ∧ n = 0) ∨
  (∃ a' x m, a = a' ++ [x] ∧ align a' b m ∧ n = S m) ∨
  (∃ b' y m, b = b' ++ [y] ∧ align a b' m ∧ n = S m) ∨
  (∃ a' b' x y m, a = a' ++ [x] ∧ b = b' ++ [y] ∧ align a' b' m ∧ n = cost x y + m).
Proof.
  induction 1 as [|x a b n H IH|y a b n H IH|x y a b n H IH].
  - by left.
  - right. destruct IH as [(-> & -> & ->)|[(a' & z & m & -> & Ha & ->)|
      [(b' & z & m & -> & Ha & ->)|(a' & b' & z & t & m & -> & -> & Ha & ->)]]].
    + left. exists [], x, 0. split_and!; done.
    + left. exists (x :: a'), z, (S m). split_and!; [done | by constructor | done].
    + right. left. exists b', z, (S m). split_and!; [done | by constructor | done].
    + right. right. exists (x :: a'), b', z, t, (S m). split_and!; [done | done | by constructor | lia].
  - right. destruct IH as [(-> & -> & ->)|[(a' & z & m & -> & Ha & ->)|
      [(b' & z & m & -> & Ha & ->)|(a' & b' & z & t & m & -> & -> & Ha & ->)]]].
    + right. left. exists [], y, 0. split_and!; done.
    + left. exists a', z, (S m). split_and!; [done | by constructor | done].
    + right. left. exists (y :: b'), z, (S m). split_and!; [done | by constructor | done].
    + right. right. exists a', (y :: b'), z, t, (S m). split_and!; [done | done | by constructor | lia].
  - right. destruct IH as [(-> & -> & ->)|[(a' & z & m & -> & Ha & ->)|
      [(b' & z & m & -> & Ha & ->)|(a' & b' & z & t & m & -> & -> & Ha & ->)]]].
    + right. right. exists [], [], x, y, 0. split_and!; [done | done | constructor | done].
    + left. exists (x :: a'), z, (cost x y + m). split_and!; [done | by constructor | lia].
    + right. left. exists (y :: b'), z, (cost x y + m). split_and!; [done | by constructor | lia].
    + right. right. exists (x :: a'), (y :: b'), z, t, (cost x y + m).
      split_and!; [done | done | by constructor | lia].
Qed.

Lemma align_app a b n a' b' n' : align a b n → align a' b' n' → align (a ++ a') (b ++ b') (n + n').
Proof.
  intros H H'. induction H; simpl; [done | by constructor | by constructor |].
  rewrite <-Nat.add_assoc. by constructor.
Qed.

Lemma least_nil_l b : least [] b (length b).
Proof.
  split.
  - induction b; simpl; by constructor.
  - intros m H. remember [] as a eqn:E. induction H; simpl; simplify_eq; [lia |].
    specialize (IHalign eq_refl). lia.
Qed.

Lemma least_nil_r a : least a [] (length a).
Proof.
  split.
  - induction a; simpl; by constructor.
  - intros m H. remember [] as b eqn:E. induction H; simpl; simplify_eq; [lia |].
    specialize (IHalign eq_refl). lia.
Qed.

Lemma least_snoc a x b y n1 n2 n3 :
  least a (b ++ [y]) n1 → least (a ++ [x]) b n2 → least a b n3 →
  least (a ++ [x]) (b ++ [y]) ((n1 + 1) `min` (n2 + 1) `min` (n3 + cost x y)).
Proof.
  intros [A1 L1] [A2 L2] [A3 L3]. split.
  - assert (align (a ++ [x]) (b ++ [y]) (n1 + 1)).
    { rewrite <-(app_nil_r (b ++ [y])). apply align_app; [done |]. apply (align_delete x [] [] 0), align_nil. }
    assert (align (a ++ [x]) (b ++ [y]) (n2 + 1)).
    { rewrite <-(app_nil_r (a ++ [x])) at 1. apply align_app; [done |]. apply (align_insert y [] [] 0), align_nil. }
    assert (align (a ++ [x]) (b ++ [y]) (n3 + cost x y)).
    { apply align_app; [done |]. pose proof (align_pair x y [] [] 0 align_nil) as Hc.
      by rewrite Nat.add_0_r in Hc. }
    destruct (Nat.min_dec (n1 + 1) (n2 + 1)) as [->| ->];
      match goal with |- context [?p `min` ?q] => by destruct (Nat.min_dec p q) as [->| ->] end.
  - intros m H. apply align_snoc_inv in H as
      [(Ha & _)|[(a' & z & k & Ea & Ha & ->)|[(b' & z & k & Eb & Ha & ->)|
       (a' & b' & z & t & k & Ea & Eb & Ha & ->)]]].
    + by apply app_nil in Ha as [_ ?].
    + apply app_inj_tail in Ea as [<- <-]. apply L1 in Ha. lia.
    + apply app_inj_tail in Eb as [<- <-]. apply L2 in Ha. lia.
    + apply app_inj_tail in Ea as [<- <-]. apply app_inj_tail in Eb as [<- <-]. apply L3 in Ha. lia.
Qed.

(** The table is right: a row lists the least costs from a prefix of the first
    list to the prefixes of the second. *)
Lemma fill_row_least p x seen bs diag ups left :
  least p seen diag → least (p ++ [x]) seen left → length ups = length bs →
  (∀ k v, ups !! k = Some v → least p (seen ++ take (S k) bs) v) →
  length (fill_row x bs diag ups left) = length bs ∧
  ∀ k v, fill_row x bs diag ups left !! k = Some v → least (p ++ [x]) (seen ++ take (S k) bs) v.
Proof.
  revert seen diag ups left. induction bs as [|y bs IH]; intros seen diag ups left Hd Hl Hlen Hups.
  { by destruct ups. }
  destruct ups as [|up ups]; [done |]. simpl in Hlen. injection Hlen as Hlen.
  pose proof (Hups 0 up eq_refl) as Hup. simpl in Hup. rewrite take_0 in Hup.
  cbn [fill_row]. fold (cost x y).
  pose proof (least_snoc _ _ _ _ _ _ _ Hup Hl Hd) as Hv.
  destruct (IH (seen ++ [y]) up ups _ Hup Hv Hlen) as [HL Hall].
  { intros k v Hk. specialize (Hups (S k) v Hk). rewrite <-app_assoc. done. }
  split; [simpl; by rewrite HL |]. intros [|k] v Hk; simpl in Hk.
  - injection Hk as <-. simpl. by rewrite take_0.
  - specialize (Hall k v Hk). by rewrite <-app_assoc in Hall.
Qed.

Definition row_ok (p b : list A) (row : list nat) : Prop :=
  length row = S (length b) ∧ ∀ j v, row !! j = Some v → least p (take j b) v.

Lemma next_row_ok p x b row : row_ok p b row → row_ok (p ++ [x]) b (next_row (S (length p)) x b row).
Proof.
  intros [Hlen Hrow]. destruct row as [|diag ups]; [done |]. simpl in Hlen. injection Hlen as Hlen.
  pose proof (Hrow 0 diag eq_refl) as Hd. rewrite take_0 in Hd.
  assert (least (p ++ [x]) [] (S (length p))) as Hl.
  { pose proof (least_nil_r (p ++ [x])) as Hl. rewrite length_app, Nat.add_comm in Hl. done. }
  destruct (fill_row_least p x [] b diag ups _ Hd Hl Hlen) as [HL Hall].
  { intros k v Hk. apply (Hrow (S k) v Hk). }
  split; [simpl; by rewrite HL |]. intros [|j] v Hj; simpl in Hj.
  - injection Hj as <-. by rewrite take_0.
  - apply (Hall j v Hj).
Qed.

Lemma last_row_ok xs p b row :
  row_ok p b row → row_ok (p ++ xs) b (last_row (S (length p)) xs b row).
Proof.
  revert p row. induction xs as [|x xs IH]; intros p row Hr; simpl; [by rewrite app_nil_r |].
  specialize (IH (p ++ [x]) _ (next_row_ok p x b row Hr)).
  rewrite length_app, Nat.add_comm, <-app_assoc in IH. exact IH.
Qed.

Lemma first_row_ok b : row_ok [] b (seq 0 (S (length b))).
Proof.
  split; [by rewrite length_seq |]. intros j v Hj. apply lookup_seq in Hj as [-> Hj]. simpl.
  pose proof (least_nil_l (take j b)) as H. rewrite length_take_le in H by lia. done.
Qed.

Lemma table_distance_least a b : least a b (table_distance a b).
Proof.
  destruct (last_row_ok a [] b _ (first_row_ok b)) as [Hlen Hrow]. cbn [length app] in Hrow, Hlen.
  unfold table_distance.
  assert (∀ (l : list nat) d, l ≠ [] → l !! (length l - 1) = Some (List.last l d)) as Hlast.
  { intros l d. induction l as [|v l IHl]; [done |]. intros _. destruct l as [|v' l]; [done |].
    specialize (IHl ltac:(done)). simpl in *. by rewrite Nat.sub_0_r in IHl. }
  specialize (Hrow (length b) (List.last (last_row 1 a b (seq 0 (S (length b)))) 0)).
  rewrite firstn_all in Hrow. apply Hrow. rewrite <-Hlast.
  - by rewrite Hlen, Nat.sub_1_r.
  - intros E. by rewrite E in Hlen.
Qed.
End Distance.

(** The distance behind the hints is the least number of characters to
    delete, insert or replace to turn one name into the other. *)
Theorem edit_distance_least a b :
  nsteps edit (edit_distance a b) (chars a) (chars b) ∧
  ∀ n, nsteps edit n (chars a) (chars b) → edit_distance a b ≤ n.
Proof.
  destruct (table_distance_least (chars a) (chars b)) as [Hal Hmin].
  fold (edit_distance a b) in Hal, Hmin. assert (∀ n, nsteps edit n (chars a) (chars b) → edit_distance a b ≤ n) as Hle.
  { intros n Hn. apply edits_align in Hn as (m & Hm & Ha). apply Hmin in Ha. lia. }
  split; [| done]. apply align_edits in Hal as (m & Hm & Hs).
  specialize (Hle m Hs). by replace (edit_distance a b) with m by lia.
Qed.

(** ** What is suggested *)

Lemma sort_by_perm {A} (le : A → A → bool) l : sort_by le l ≡ₚ l.
Proof.
  induction l as [|x l IH]; [done |]. change (sort_by le (x :: l)) with (insert_by le x (sort_by le l)).
  assert (∀ m, insert_by le x m ≡ₚ x :: m) as Hi.
  { induction m as [|y m IHm]; simpl; [done |]. destruct (le x y); [done |]. rewrite IHm. constructor. }
  by rewrite Hi, IH.
Qed.

Lemma find_similar_spec input candidates c :
  c ∈ find_similar input candidates ↔
  c ∈ candidates ∧ c ≠ input ∧
  (edit_distance input c ≤ (String.length input / 3) `max` 2 ∨
   starts_with input c = true ∨ starts_with c input = true).
Proof.
  unfold find_similar. rewrite list_elem_of_fmap.
  setoid_rewrite sort_by_perm. setoid_rewrite list_elem_of_omap.
  setoid_rewrite list_elem_of_In. setoid_rewrite filter_In.
  split.
  - intros ([d c'] & -> & x & [Hin Hne] & Hif). simpl.
    destruct (_ || _) eqn:Hc; [| done]. injection Hif as <- <-.
    rewrite !orb_true_iff, Nat.leb_le in Hc.
    apply negb_true_iff, String.eqb_neq in Hne. naive_solver.
  - intros (Hin & Hne & Hc). exists (edit_distance input c, c). split; [done |]. exists c.
    split; [split; [done | by apply negb_true_iff, String.eqb_neq] |].
    assert ((edit_distance input c <=? (String.length input / 3) `max` 2)%nat
            || starts_with input c || starts_with c input = true) as ->; [| done].
    rewrite !orb_true_iff, Nat.leb_le. naive_solver.
Qed.
