(* ===== verification/SessionLog.v ===== *)
(** Claude's session log: the readers of
    [crates/adapters/src/agent/watcher.rs] (the state of an agent, its last
    message), of [log_entry.rs] (the entries of the agent's own log) and of
    [crates/engine/src/usage_metrics.rs] (the tokens it has used).

    A log is its bytes, a JSON record on each line, and it may end in the middle
    of a line.  Opening a log may fail; a read of an open one succeeds, and no one
    writes to it between the look at its length and the read.  [serde_json]'s
    parser and its values are the class [SessionJson] and the classes it builds
    on.  A panic is [None]. *)

From S2P Require Import Prelude Ids Bytes Vars Slug Entities Event WorkerQueue JobCreate JobAgents.
From S2P Require Import RunbookImport Breadcrumb Suggest.
From Stdlib Require Import Floats.SpecFloat.

Local Open Scope string_scope.

Class SessionJson (Value : Type) := {
  (** [serde_json::from_str]. *)
  json_from_str : string → option Value;
  json_as_array : Value → option (list Value);
  json_is_null : Value → bool
}.

(** ** Text *)

(** [str::split_whitespace]; [skip] bytes belong to the last white space. *)
Fixpoint split_ws (skip : nat) (cur s : string) : list string :=
  match s with
  | EmptyString => if is_empty cur then [] else [cur]
  | String a s' =>
      match skip with
      | S skip => split_ws skip cur s'
      | O =>
          match ws_prefix s with
          | O => split_ws 0 (cur +:+ String a "") s'
          | S n => if is_empty cur then split_ws n "" s' else cur :: split_ws n "" s'
          end
      end
  end.
Definition split_whitespace (s : string) : list string := split_ws 0 "" s.

(** The characters whose lower case has another number of bytes. *)
Definition of_bytes (l : list N) : string := foldr (λ n s, String (ascii_of_N n) s) "" l.
Definition WIDTH_CHANGES : list (string * string) :=
  prod_map of_bytes of_bytes <$>
  [([196; 176], [105; 204; 135]); ([200; 186], [226; 177; 165]); ([200; 190], [226; 177; 166]);
   ([225; 186; 158], [195; 159]); ([226; 132; 166], [207; 137]); ([226; 132; 170], [107]);
   ([226; 132; 171], [195; 165]); ([226; 177; 162], [201; 171]); ([226; 177; 164], [201; 189]);
   ([226; 177; 173], [201; 145]); ([226; 177; 174], [201; 177]); ([226; 177; 175], [201; 144]);
   ([226; 177; 176], [201; 146]); ([226; 177; 190], [200; 191]); ([226; 177; 191], [201; 128]);
   ([234; 158; 141], [201; 165]); ([234; 158; 170], [201; 166]); ([234; 158; 171], [201; 156]);
   ([234; 158; 172], [201; 161]); ([234; 158; 173], [201; 172]); ([234; 158; 174], [201; 170]);
   ([234; 158; 176], [202; 158]); ([234; 158; 177], [202; 135]); ([234; 158; 178], [202; 157]);
   ([234; 159; 133], [202; 130]); ([234; 159; 139], [201; 164]); ([234; 159; 156], [198; 155])]%N.

Definition lower_one (ch : string) : string :=
  match ch with
  | String a EmptyString => String (lower_char a) ""
  | _ => match list_find (λ p, p.1 = ch) WIDTH_CHANGES with Some (_, p) => p.2 | None => ch end
  end.

(** [str::to_lowercase] up to characters beyond ASCII that keep their length:
    what is looked for is ASCII, and found by its position. *)
Definition lower_text (s : string) : string := foldr String.append "" (lower_one <$> chars s).

Definition has_any (ps : list string) (s : string) : bool := existsb (λ p, contains p s) ps.

(** ** The entries of the agent's log *)

Inductive EntryKind :=
  | FileRead (path : string)
  | FileWrite (path : string) (new : bool) (lines : nat)
  | FileEdit (path : string)
  | NotebookEdit (path : string)
  | BashCommand (command : string) (exit_code : option Z)
  | OjCall (args : list string)
  | TurnComplete (duration_secs tokens : option Z)
  | Entry_Error (message : string).

Record AgentLogEntry := mkLogEntry { le_timestamp : string; le_kind : EntryKind }.

(** An [f64], rounded to the nearest, and its text with one decimal. *)
Definition f64_of (n : Z) : spec_float := binary_normalize 53 1024 n 0 false.
Definition f64_div : spec_float → spec_float → spec_float := SFdiv 53 1024.

(** Half to even, as [{:.1}] rounds the exact value. *)
Definition round_half_even (num den : Z) : Z :=
  let q := (num / den)%Z in
  match Z.compare (2 * (num mod den))%Z den with
  | Lt => q
  | Gt => (q + 1)%Z
  | Eq => if Z.even q then q else (q + 1)%Z
  end.

(** [None] if it is an integer, else its text with one decimal. *)
Definition fraction_text (f : spec_float) : option string :=
  match f with
  | S754_finite false m (Zneg e) =>
      if (Zpos m mod 2 ^ Zpos e =? 0)%Z then None
      else let tenths := round_half_even (Zpos m * 10) (2 ^ Zpos e) in
           Some (pretty (tenths / 10)%Z +:+ "." +:+ pretty (tenths mod 10)%Z)
  | _ => None
  end.
Definition f64_floor (f : spec_float) : Z :=
  match f with
  | S754_finite false m (Zneg e) => Zpos m / 2 ^ Zpos e
  | S754_finite false m (Zpos e) => Zpos m * 2 ^ Zpos e
  | S754_finite false m 0 => Zpos m
  | _ => 0
  end%Z.

Definition format_tokens (tokens : Z) : string :=
  if (tokens <? 1000)%Z then pretty tokens +:+ " tokens"
  else
    let k := f64_div (f64_of tokens) (f64_of 1000) in
    default (pretty (f64_floor k)) (fraction_text k) +:+ "k tokens".

Definition EntryKind_display (k : EntryKind) : string :=
  match k with
  | FileRead path => "read: " +:+ path
  | FileWrite path new lines =>
      "wrote: " +:+ path +:+ " (" +:+ (if new then "new, " else "") +:+ pretty lines +:+ " lines)"
  | FileEdit path => "edited: " +:+ path
  | NotebookEdit path => "edited: " +:+ path +:+ " (notebook)"
  | BashCommand command (Some code) => "bash: " +:+ command +:+ " (exit " +:+ pretty code +:+ ")"
  | BashCommand command None => "bash: " +:+ command
  | OjCall args => "oj: " +:+ String.concat " " args
  | TurnComplete duration_secs tokens =>
      "turn complete (" +:+ match duration_secs with Some s => pretty s +:+ "s" | None => "?s" end
      +:+ ", " +:+ match tokens with Some t => format_tokens t | None => "? tokens" end +:+ ")"
  | Entry_Error message => "error: " +:+ message
  end.

Definition AgentLogEntry_display (e : AgentLogEntry) : string :=
  le_timestamp e +:+ " " +:+ EntryKind_display (le_kind e).

(** A field of a date: a slice that may panic, then a number or not. *)
Definition date_field (parse : string → option Z) (s : string) (a b : nat)
    (k : Z → option (option Z)) : option (option Z) :=
  f ← slice s a b;
  match parse f with Some n => k n | None => Some None end.

(** The seconds of a date; two or four bytes fit every type of a number. *)
Definition parse_iso_epoch (s : string) : option (option Z) :=
  let s := trim s in
  if (String.length s <? 19)%nat then Some None
  else
    date_field parse_i32 s 0 4 (λ year,
    date_field parse_u64 s 5 7 (λ month,
    date_field parse_u64 s 8 10 (λ day,
    date_field parse_u64 s 11 13 (λ hour,
    date_field parse_u64 s 14 16 (λ min,
    date_field parse_u64 s 17 19 (λ sec,
      let y := (if month <=? 2 then year - 1 else year)%Z in
      let era := Z.quot (if 0 <=? y then y else y - 399)%Z 400 in
      let yoe := (y - era * 400)%Z in
      let doy := ((153 * (if 2 <? month then month - 3 else month + 9) + 2) / 5 + day - 1)%Z in
      let doe := (yoe * 365 + yoe / 4 - yoe / 100 + doy)%Z in
      let days := (era * 146097 + doe - 719468)%Z in
      Some (Some (u64_wrap (days * 86400 + hour * 3600 + min * 60 + sec))))))))).

Definition compute_duration_secs (start : option string) (end_ : string) : option (option Z) :=
  match start with
  | None => Some None
  | Some start =>
      match parse_iso_epoch start with
      | None => None
      | Some None => Some None
      | Some (Some start_secs) =>
          match parse_iso_epoch end_ with
          | None => None
          | Some end_secs => Some ((λ e, Z.max 0 (e - start_secs)) <$> end_secs)
          end
      end
  end.

Fixpoint take_code (s : string) : string :=
  match s with
  | String a s' => if is_digit a || Ascii.eqb a "-" then String a (take_code s') else ""
  | EmptyString => ""
  end.

(** The place is found in the lower-case text and used in the text. *)
Definition extract_exit_code (content : string) : option (option Z) :=
  match find_str "exit code:" (lower_text content) with
  | None => Some None
  | Some (before, _) =>
      after ← slice content (String.length before + 10) (String.length content);
      Some (parse_i32 (take_code (trim after)))
  end.

Definition missing_code (e : AgentLogEntry) : bool :=
  match le_kind e with BashCommand _ None => true | _ => false end.
Definition set_code (code : Z) (e : AgentLogEntry) : AgentLogEntry :=
  match le_kind e with
  | BashCommand command _ => mkLogEntry (le_timestamp e) (BashCommand command (Some code))
  | _ => e
  end.

(** The first entry without an exit code gets it. *)
Fixpoint patch_first (code : Z) (es : list AgentLogEntry) : list AgentLogEntry :=
  match es with
  | [] => []
  | e :: es => if missing_code e then set_code code e :: es else e :: patch_first code es
  end.
Definition patch_exit_code (code : Z) (es : list AgentLogEntry) : list AgentLogEntry :=
  reverse (patch_first code (reverse es)).

Section Readers.
Context {Value : Type} `{JV : !JsonValue Value} `{JI : !JsonItem Value} `{SJ : !SessionJson Value}.
Implicit Types (json : Value).

Definition get_str json (key : string) : option string := json_get key json ≫= json_as_str.

(** ** The state of an agent *)

Definition detect_error json : option AgentError :=
  err ← match get_str json "error" with
        | Some e => Some e
        | None => m ← json_get "message" json; get_str m "error"
        end;
  let lower := lower_text err in
  Some (if has_any ["unauthorized"; "invalid api key"] lower then Unauthorized
        else if has_any ["credit"; "quota"; "billing"] lower then OutOfCredits
        else if has_any ["network"; "connection"; "offline"] lower then NoInternet
        else if has_any ["rate limit"; "too many requests"] lower then RateLimited
        else OtherError err).

Definition is_active (item : Value) : bool :=
  match get_str item "type" with
  | Some ty => String.eqb ty "tool_use" || String.eqb ty "thinking"
  | None => false
  end.

(** The blocks of a message. *)
Definition content_of (msg : option Value) : option (list Value) :=
  msg ← msg; content ← json_get "content" msg; json_as_array content.

(** An assistant's message without an active block waits for input. *)
Definition content_state (msg : option Value) : AgentState :=
  if existsb is_active (default [] (content_of msg))
  then AgentState_Working else AgentState_WaitingForInput.

Definition parse_state_from_line (line : string) : AgentState :=
  match json_from_str line with
  | None => AgentState_Working
  | Some json =>
      match detect_error json with
      | Some failure => AgentState_Failed failure
      | None =>
          if negb (bool_decide (get_str json "type" = Some "assistant")) then AgentState_Working
          else
            let msg := json_get "message" json in
            match msg ≫= json_get "stop_reason" with
            | Some sr => if json_is_null sr then content_state msg else AgentState_Working
            | None => content_state msg
            end
      end
  end.

(** ** [SessionLogParser] *)

Record SessionLogParser := mkParser { last_offset : nat; last_line : string }.
Definition SessionLogParser_new : SessionLogParser := mkParser 0 "".

Definition line_complete (raw : string) : bool := ends_with newline_str raw.

(** The loop over the lines: the offset behind the last complete line, and the
    last line that is not blank. *)
Fixpoint parse_lines (ls : list string) (current_offset : nat) (line : string) : nat * string :=
  match ls with
  | [] => (current_offset, line)
  | raw :: ls =>
      if negb (utf8_valid raw) then (current_offset, line)
      else
        let complete := line_complete raw in
        let current_offset :=
          (if complete then current_offset + String.length raw else current_offset)%nat in
        let trimmed := trim raw in
        if is_empty trimmed then
          if complete then parse_lines ls current_offset line else (current_offset, line)
        else if complete then parse_lines ls current_offset trimmed
        else (current_offset, trimmed)
  end.

(** [SessionLogParser::parse], of the file if it could be opened. *)
Definition parse_log (file : option string) (p : SessionLogParser) : AgentState * SessionLogParser :=
  match file with
  | None => (AgentState_Working, p)
  | Some content =>
      let file_len := String.length content in
      let p := if (file_len <? last_offset p)%nat then SessionLogParser_new else p in
      if Nat.eqb file_len (last_offset p) then (parse_state_from_line (last_line p), p)
      else
        let '(offset, line) :=
          parse_lines (raw_lines (drop_str (last_offset p) content)) (last_offset p) (last_line p) in
        (parse_state_from_line line, mkParser offset line)
  end.

Definition parse_session_log (file : option string) : AgentState :=
  (parse_log file SessionLogParser_new).1.

(** ** The last message *)

(** [lines().map_while(Result::ok)]: up to the first line that is not UTF-8. *)
Fixpoint valid_lines (ls : list string) : list string :=
  match ls with
  | [] => []
  | raw :: ls => if utf8_valid raw then without_line_end raw :: valid_lines ls else []
  end.

Definition text_block (item : Value) : option string :=
  if bool_decide (get_str item "type" = Some "text") then get_str item "text" else None.

(** The lines from the last one back; [None] also for an assistant's record
    without a list of blocks. *)
Fixpoint find_assistant_text (lines : list string) : option string :=
  match lines with
  | [] => None
  | line :: lines =>
      let trimmed := trim line in
      if is_empty trimmed then find_assistant_text lines
      else
        match json_from_str trimmed with
        | None => find_assistant_text lines
        | Some json =>
            if negb (bool_decide (get_str json "type" = Some "assistant"))
            then find_assistant_text lines
            else
              content ← content_of (json_get "message" json);
              let text := String.concat newline_str (omap text_block content) in
              if is_empty text then find_assistant_text lines else Some text
        end
  end.

Definition extract_last_assistant_text (file : option string) : option string :=
  content ← file;
  find_assistant_text (take 50 (reverse (valid_lines (raw_lines content)))).

(** ** Records *)

(** The loop over the complete lines, up to the first that is not UTF-8: what
    [f] makes of the records, and the offset behind them. *)
Fixpoint each_record {A} (f : Value → A → option A) (ls : list string) (current_offset : nat)
    (acc : A) : option (A * nat) :=
  match ls with
  | [] => Some (acc, current_offset)
  | raw :: ls =>
      if negb (utf8_valid raw) || negb (line_complete raw) then Some (acc, current_offset)
      else
        let current_offset := (current_offset + String.length raw)%nat in
        let trimmed := trim raw in
        if is_empty trimmed then each_record f ls current_offset acc
        else match json_from_str trimmed with
             | None => each_record f ls current_offset acc
             | Some json => acc ← f json acc; each_record f ls current_offset acc
             end
  end.

Definition extract_timestamp json : option string :=
  match get_str json "timestamp" with
  | Some t => Some t
  | None =>
      match (m ← json_get "message" json; get_str m "created_at") with
      | Some t => Some t
      | None => get_str json "isoTimestamp"
      end
  end.

Definition extract_error json : option string :=
  match get_str json "error" with
  | Some e => Some e
  | None => m ← json_get "message" json; get_str m "error"
  end.

Definition bash_entry (command : string) : option EntryKind :=
  let trimmed := trim command in
  if String.eqb trimmed "oj" || starts_with "oj " trimmed || starts_with "./oj " trimmed then
    let rest := match strip_prefix "./oj " trimmed with
                | Some r => Some r
                | None => strip_prefix "oj " trimmed
                end in
    Some (OjCall (default [] (split_whitespace <$> rest)))
  else if (80 <? String.length command)%nat then
    start ← slice command 0 77; Some (BashCommand (start +:+ "...") None)
  else Some (BashCommand command None).

(** The entry of a tool's input; a tool that is not shown has none. *)
Definition tool_kind (tool_name : string) (input : option Value) : option (option EntryKind) :=
  let get key := (input ← input; get_str input key) in
  if String.eqb tool_name "Read" then Some (FileRead <$> get "file_path")
  else if String.eqb tool_name "Edit" then Some (FileEdit <$> get "file_path")
  else if String.eqb tool_name "NotebookEdit" then Some (NotebookEdit <$> get "notebook_path")
  else if String.eqb tool_name "Write" then
    Some ((λ path, FileWrite path true (length (str_lines (default "" (get "content")))))
            <$> get "file_path")
  else if String.eqb tool_name "Bash" then
    kind ← bash_entry (default "" (get "command")); Some (Some kind)
  else Some None.

Definition block_entries json (block : Value) : option (list AgentLogEntry) :=
  if negb (bool_decide (get_str block "type" = Some "tool_use")) then Some []
  else
    match get_str block "name" with
    | None => Some []
    | Some tool_name =>
        kind ← tool_kind tool_name (json_get "input" block);
        Some (match kind with
              | Some kind => [mkLogEntry (default "" (extract_timestamp json)) kind]
              | None => []
              end)
    end.

Fixpoint tool_entries json (content : list Value) : option (list AgentLogEntry) :=
  match content with
  | [] => Some []
  | block :: content =>
      es ← block_entries json block; rest ← tool_entries json content; Some (es ++ rest)%list
  end.

Definition turn_entries json (message : Value) (last_user : option string) :
    option (list AgentLogEntry) :=
  if bool_decide (default "" (get_str message "stop_reason") = "end_turn") then
    let timestamp := default "" (extract_timestamp json) in
    let tokens := (u ← json_get "usage" message; t ← json_get "output_tokens" u; json_as_u64 t) in
    duration ← compute_duration_secs last_user timestamp;
    Some [mkLogEntry timestamp (TurnComplete duration tokens)]
  else Some [].

(** The entries so far, and the time of the last message of the user. *)
Definition Extraction : Type := list AgentLogEntry * option string.

Definition extract_entries json (st : Extraction) : option Extraction :=
  let '(entries, last_user) := st in
  let record_type := default "" (get_str json "type") in
  if String.eqb record_type "user" then
    Some (entries, match extract_timestamp json with Some ts => Some ts | None => last_user end)
  else
    match extract_error json with
    | Some message =>
        Some ((entries ++ [mkLogEntry (default "" (extract_timestamp json)) (Entry_Error message)])%list,
              last_user)
    | None =>
        if String.eqb record_type "assistant" then
          match json_get "message" json with
          | None => Some st
          | Some message =>
              tools ← tool_entries json (default [] (content_of (Some message)));
              turn ← turn_entries json message last_user;
              Some ((entries ++ tools ++ turn)%list, last_user)
          end
        else if String.eqb record_type "result" then
          code ← match get_str json "content" with
                 | Some content => extract_exit_code content
                 | None => Some None
                 end;
          Some (match code with Some code => patch_exit_code code entries | None => entries end,
                last_user)
        else Some st
    end.

(** [parse_entries_from]: the entries of the complete lines from the offset on,
    and the offset behind them. *)
Definition parse_entries_from (file : option string) (offset : nat) :
    option (list AgentLogEntry * nat) :=
  match file with
  | None => Some ([], offset)
  | Some content =>
      '(st, offset) ← each_record extract_entries (raw_lines (drop_str offset content)) offset ([], None);
      Some (st.1, offset)
  end.

(** ** Tokens *)

Record UsageDeltas := mkUsage {
  input_tokens : Z;
  output_tokens : Z;
  cache_creation_input_tokens : Z;
  cache_read_input_tokens : Z;
  usage_model : option string
}.
Definition UsageDeltas_zero : UsageDeltas := mkUsage 0 0 0 0 None.

Definition usage_count (usage : option Value) (key : string) : Z :=
  default 0%Z (u ← usage; v ← json_get key u; json_as_u64 v).

Definition count_usage json (d : UsageDeltas) : option UsageDeltas :=
  Some (if negb (bool_decide (get_str json "type" = Some "assistant")) then d
        else match json_get "message" json with
             | None => d
             | Some message =>
                 let usage := json_get "usage" message in
                 mkUsage (input_tokens d +u64 usage_count usage "input_tokens")%oj
                         (output_tokens d +u64 usage_count usage "output_tokens")%oj
                         (cache_creation_input_tokens d +u64 usage_count usage "cache_creation_input_tokens")%oj
                         (cache_read_input_tokens d +u64 usage_count usage "cache_read_input_tokens")%oj
                         (match get_str message "model" with Some m => Some m | None => usage_model d end)
             end).

(** [parse_session_usage] does not panic. *)
Definition parse_session_usage (file : option string) (offset : nat) : UsageDeltas * nat :=
  match file with
  | None => (UsageDeltas_zero, offset)
  | Some content =>
      default (UsageDeltas_zero, offset)
        (each_record count_usage (raw_lines (drop_str offset content)) offset UsageDeltas_zero)
  end.
End Readers.

Local Close Scope string_scope.

Example tokens_1150 : format_tokens 1150 = "1.1k tokens"%string.
Proof. vm_compute. reflexivity. Qed.
Example tokens_1250 : format_tokens 1250 = "1.2k tokens"%string.
Proof. vm_compute. reflexivity. Qed.
Example tokens_2000 : format_tokens 2000 = "2k tokens"%string.
Proof. vm_compute. reflexivity. Qed.
Example tokens_1999 : format_tokens 1999 = "2.0k tokens"%string.
Proof. vm_compute. reflexivity. Qed.
