(* ===== verification/SessionLogSpec.v ===== *)
(** What the readers of a session log promise.

    A log is read in pieces while it grows.  The parser that keeps its place gives
    the state a reading of the whole file would give; the entries of the pieces
    are those of the whole, but for what needs a record of an earlier piece. *)

From S2P Require Import Prelude Ids Bytes Vars Slug Entities Event WorkerQueue JobCreate JobAgents.
From S2P Require Import RunbookImport Breadcrumb Suggest SessionLog.

Local Open Scope string_scope.

(** ** White space *)

Inductive White : string → Prop :=
  | White_nil : White ""
  | White_ws s k : ws_prefix s = S k → White (drop_str (S k) s) → White s.

Lemma length_drop_lt k s : s ≠ "" → (String.length (drop_str (S k) s) < String.length s)%nat.
Proof.
  destruct s as [|a s]; [done | intros _]. simpl.
  assert (∀ n s, String.length (drop_str n s) ≤ String.length s)%nat as H.
  { induction n as [|n IH]; intros [|b t]; simpl; [lia.. |]. specialize (IH t). lia. }
  specialize (H k s). lia.
Qed.

Lemma drop_ws_White n s :
  (String.length s ≤ n)%nat → drop_ws ws_prefix n s = "" ↔ White s.
Proof.
  revert s. induction n as [|n IH]; intros s Hn; simpl.
  - destruct s; simpl in Hn; [split; [constructor | done] | lia].
  - destruct (ws_prefix s) as [|k] eqn:E.
    + split; [intros ->; constructor |]. intros H. inversion H; [done | congruence].
    + destruct s as [|a s]; [done |].
      pose proof (length_drop_lt k (String a s) ltac:(done)) as Hl.
      simpl in Hl, Hn |- *. rewrite IH by lia.
      split; [intros H; by apply (White_ws _ k) |].
      intros H. inversion H as [|? k' E' H']; subst. rewrite E in E'. by injection E' as <-.
Qed.

Lemma trim_start_White s : trim_start s = "" ↔ White s.
Proof. by apply drop_ws_White. Qed.

Lemma ws_prefix_app a b : ws_prefix a ≠ 0 → ws_prefix (a +:+ b) = ws_prefix a.
Proof.
  destruct a as [|x [|y [|z a]]]; [done | simpl.. | done].
  - destruct (in_range 9 13 x || (byte x =? 32)%N); [done | by destruct b].
  - destruct (in_range 9 13 x || (byte x =? 32)%N); [done |].
    destruct ((byte x =? 194)%N && _); [done |]. done.
Qed.

(** The bytes of the white space at the end. *)
Lemma ws_suffix_split r k :
  ws_suffix r = S k → ∃ w r', rev_str r = r' +:+ w ∧ rev_str (drop_str (S k) r) = r' ∧ ws_prefix w = S k.
Proof.
  destruct r as [|a r1]; [done |]. unfold ws_suffix.
  destruct (in_range 9 13 a || (byte a =? 32)%N) eqn:E1.
  { intros [= <-]. exists (String a ""), (rev_str r1). simpl. by rewrite E1. }
  destruct r1 as [|b r2]; [done |].
  destruct (Nat.eqb _ 2) eqn:E2.
  { intros [= <-]. apply Nat.eqb_eq in E2. exists (String b (String a "")), (rev_str r2).
    split_and!; [| done | done]. simpl. by rewrite string_app_assoc. }
  destruct r2 as [|c r3]; [done |]. destruct (Nat.eqb _ 3) eqn:E3; [| done].
  intros [= <-]. apply Nat.eqb_eq in E3.
  exists (String c (String b (String a ""))), (rev_str r3).
  split_and!; [| done | done]. simpl. by rewrite !string_app_assoc.
Qed.

Lemma drop_ws_suffix_ne n r :
  rev_str r ≠ "" → ws_prefix (rev_str r) = 0 → drop_ws ws_suffix n r ≠ "".
Proof.
  revert r. induction n as [|n IH]; intros r Hne H0; [simpl; by intros -> |].
  destruct (ws_suffix r) as [|k] eqn:E; [rewrite (drop_ws_zero _ _ _ E); by intros -> |].
  rewrite (drop_ws_step _ _ _ _ E).
  destruct (ws_suffix_split r k E) as (w & r' & Hr & Hd & Hw).
  assert (r' ≠ "") as Hr'.
  { intros ->. rewrite Hr in H0. simpl in H0. congruence. }
  apply IH; rewrite Hd; [done |].
  destruct (ws_prefix r') eqn:E'; [done |]. exfalso.
  rewrite Hr, ws_prefix_app in H0 by congruence. congruence.
Qed.

Lemma rev_str_empty s : rev_str s = "" → s = "".
Proof. intros H. by rewrite <- (rev_str_involutive s), H. Qed.

Lemma trim_start_stops n s : (String.length s ≤ n)%nat → ws_prefix (drop_ws ws_prefix n s) = 0.
Proof.
  revert s. induction n as [|n IH]; intros s Hn; simpl.
  - by destruct s; simpl in Hn; [| lia].
  - destruct (ws_prefix s) as [|k] eqn:E; [done |]. apply IH.
    destruct s as [|a s]; [done |].
    pose proof (length_drop_lt k (String a s) ltac:(done)). simpl in *. lia.
Qed.

(** A text is blank if it is white space from its start. *)
Lemma blank_White s : is_empty (trim s) = true ↔ White s.
Proof.
  rewrite is_empty_spec, <- trim_start_White. unfold trim, trim_end. split; [| by intros ->].
  intros H%rev_str_empty. apply dec_stable. intros Hne. revert H.
  apply drop_ws_suffix_ne; rewrite rev_str_involutive; [done | by apply trim_start_stops].
Qed.

(** White space up to a boundary of characters. *)
Lemma ws_prefix_valid a b k :
  utf8_valid a = true → a ≠ "" → ws_prefix (a +:+ b) = S k →
  ws_prefix a = S k ∧ utf8_valid (drop_str (S k) a) = true.
Proof.
  destruct a as [|x a1]; [done |]. intros Hv _. revert Hv. simpl.
  destruct (in_range 9 13 x || (byte x =? 32)%N) eqn:E1.
  { intros Hv [= <-]. split; [done |]. revert Hv.
    assert ((byte x <? 128)%N = true) as ->; [| done].
    unfold in_range in E1. rewrite orb_true_iff, andb_true_iff, !N.leb_le, N.eqb_eq in E1.
    apply N.ltb_lt. lia. }
  destruct (byte x <? 128)%N eqn:E2.
  { apply N.ltb_lt in E2. intros _. destruct (a1 +:+ b) as [|y s2]; [done |].
    destruct (N.eqb_spec (byte x) 194); [lia |]. cbn [andb]. destruct s2 as [|z s3]; [done |].
    destruct (N.eqb_spec (byte x) 225); [lia |]. destruct (N.eqb_spec (byte x) 226); [lia |].
    destruct (N.eqb_spec (byte x) 227); [lia |]. done. }
  destruct a1 as [|y a2]; [done |]. simpl.
  destruct (in_range 194 223 x) eqn:E3.
  { intros [_ Hv]%andb_true_iff. unfold in_range in E3. rewrite andb_true_iff, !N.leb_le in E3.
    destruct ((byte x =? 194)%N && _); [by intros [= <-] |].
    destruct (a2 +:+ b) as [|z s3]; [done |].
    destruct (N.eqb_spec (byte x) 225); [lia |]. destruct (N.eqb_spec (byte x) 226); [lia |].
    destruct (N.eqb_spec (byte x) 227); [lia |]. done. }
  destruct a2 as [|z a3]; [done |]. simpl.
  destruct (N.eqb_spec (byte x) 194) as [Hx|_].
  { unfold in_range in E3. rewrite Hx in E3. done. }
  cbn [andb]. destruct (in_range 224 239 x) eqn:E4.
  { intros [_ Hv]%andb_true_iff.
    match goal with |- (if ?c then _ else _) = _ → _ => destruct c end; [by intros [= <-] | done]. }
  intros _. unfold in_range in E4. apply andb_false_iff in E4. rewrite !N.leb_gt in E4.
  destruct (N.eqb_spec (byte x) 225); [lia |]. destruct (N.eqb_spec (byte x) 226); [lia |].
  destruct (N.eqb_spec (byte x) 227); [lia |]. done.
Qed.

Lemma White_app a b : utf8_valid a = true → White (a +:+ b) → White a.
Proof.
  intros Hv Hw. remember (a +:+ b) as s eqn:Hs. revert a Hv Hs.
  induction Hw as [|s k Hk _ IH]; intros a Hv Hs.
  { destruct a; [constructor | done]. }
  destruct (decide (a = "")) as [->|Hne]; [constructor |]. subst s.
  destruct (ws_prefix_valid a b k Hv Hne Hk) as [Ha Hd].
  apply (White_ws _ k Ha), IH; [done |].
  assert (S k ≤ String.length a)%nat as Hl.
  { clear -Ha. destruct a as [|x [|y [|z a]]]; [done | simpl in Ha |- *.. | simpl in Ha |- *];
      repeat case_match; simplify_eq; lia. }
  clear -Hl. revert a Hl. generalize (S k). intros n.
  induction n as [|n IH]; intros [|x a] Hl; simpl in *; [done.. | lia |]. apply IH. lia.
Qed.

(** ** Lines *)

Definition cat (ls : list string) : string := foldr String.append "" ls.

(** A complete line, and the rest behind the last one. *)
Definition Whole (l : string) : Prop := ∃ t, l = t +:+ newline_str ∧ has_char newline t = false.

Lemma cat_app a b : cat (a ++ b)%list = cat a +:+ cat b.
Proof. induction a as [|l a IH]; [done |]. simpl. by rewrite IH, string_app_assoc. Qed.

Lemma raw_lines_whole full x : Forall Whole full → raw_lines (cat full +:+ x) = (full ++ raw_lines x)%list.
Proof.
  induction 1 as [|l full (t & -> & Ht) _ IH]; [done |]. simpl.
  rewrite !string_app_assoc. change (newline_str +:+ ?s) with (String newline s).
  by rewrite raw_lines_cons, IH.
Qed.

Lemma log_shape c : ∃ full v, c = cat full +:+ v ∧ Forall Whole full ∧ has_char newline v = false.
Proof.
  induction c as [|a c (full & v & -> & Hf & Hv)].
  { exists [], "". done. }
  destruct (Ascii.eqb_spec a newline) as [->|Hne].
  { exists (newline_str :: full), v. split_and!; [done | | done]. constructor; [by exists "" | done]. }
  destruct Hf as [|l full (t & -> & Ht) Hf].
  - exists [], (String a v). split_and!; [done | done |]. simpl. by apply Ascii.eqb_neq in Hne as ->.
  - exists (String a (t +:+ newline_str) :: full), v. split_and!; [done | | done].
    constructor; [| done]. exists (String a t). split; [done |]. simpl.
    by apply Ascii.eqb_neq in Hne as ->.
Qed.

Lemma whole_complete l : Whole l → line_complete l = true.
Proof.
  intros (t & -> & _). unfold line_complete, ends_with. rewrite rev_str_app. apply starts_with_app.
Qed.

Lemma last_incomplete v : has_char newline v = false → line_complete v = false.
Proof.
  intros Hv. apply not_true_is_false. unfold line_complete, ends_with.
  intros [r Hr]%starts_with_spec. simpl in Hr.
  assert (v = rev_str r +:+ newline_str) as ->.
  { by rewrite <- (rev_str_involutive v), Hr. }
  rewrite has_char_app in Hv. simpl in Hv. by rewrite orb_true_r in Hv.
Qed.

(** The last line that is not blank, trimmed. *)
Definition last_text (ls : list string) (d : string) : string :=
  foldl (λ d raw, if is_empty (trim raw) then d else trim raw) d ls.

(** Every line is UTF-8, also one that has only begun. *)
Definition readable_log (c : string) : Prop := Forall (λ raw, utf8_valid raw = true) (raw_lines c).

Lemma readable_log_by c : forallb utf8_valid (raw_lines c) = true → readable_log c.
Proof. intros H. apply Forall_forall. intros l Hl%list_elem_of_In. by apply (proj1 (forallb_forall _ _) H). Qed.

Lemma parse_lines_whole full ls off line :
  Forall Whole full → Forall (λ raw, utf8_valid raw = true) full →
  parse_lines (full ++ ls)%list off line
  = parse_lines ls (off + String.length (cat full))%nat (last_text full line).
Proof.
  intros Hw Hv. revert off line. induction Hw as [|l full Hl Hw IH]; intros off line.
  { simpl. by rewrite Nat.add_0_r. }
  apply Forall_cons in Hv as [Hvl Hv]. simpl. rewrite Hvl, (whole_complete l Hl). simpl.
  rewrite string_length_app, Nat.add_assoc. by destruct (is_empty (trim l)); rewrite IH.
Qed.

(** The loop over a text whose lines are all UTF-8. *)
Lemma parse_lines_text full v off line :
  Forall Whole full → has_char newline v = false → readable_log (cat full +:+ v) →
  parse_lines (raw_lines (cat full +:+ v)) off line
  = ((off + String.length (cat full))%nat, last_text (raw_lines (cat full +:+ v)) line).
Proof.
  intros Hw Hn. unfold readable_log. rewrite raw_lines_whole by done.
  intros [Hf Hv]%Forall_app. rewrite parse_lines_whole by done.
  unfold last_text. rewrite foldl_app. rewrite raw_lines_last in Hv |- * by done.
  destruct v as [|a v]; [done |]. apply Forall_cons in Hv as [Hv _]. cbn [parse_lines].
  rewrite Hv, last_incomplete by done. cbn [negb foldl]. by destruct (is_empty _).
Qed.

(** ** The parser follows the log *)

(** The parser knows the complete lines of [c] and its last text. *)
Definition synced (p : SessionLogParser) (c : string) : Prop :=
  ∃ full v, c = cat full +:+ v ∧ Forall Whole full ∧ has_char newline v = false ∧
    last_offset p = String.length (cat full) ∧ last_line p = last_text (raw_lines c) "".

Lemma synced_new : synced SessionLogParser_new "".
Proof. by exists [], "". Qed.

(** The bytes of the complete lines. *)
Definition complete_bytes (c : string) : nat :=
  sum_list (String.length <$> filter line_complete (raw_lines c)).

Lemma complete_bytes_whole full v :
  Forall Whole full → has_char newline v = false →
  complete_bytes (cat full +:+ v) = String.length (cat full).
Proof.
  intros Hf Hv. unfold complete_bytes. rewrite raw_lines_whole, filter_app by done.
  assert (filter line_complete (raw_lines v) = []) as ->.
  { rewrite raw_lines_last by done. destruct v; [done |].
    rewrite filter_cons_False; [done |]. intros H%Is_true_true. by rewrite last_incomplete in H. }
  rewrite app_nil_r. induction Hf as [|l full Hl Hf IH]; [done |].
  rewrite filter_cons_True by (apply Is_true_true; by apply whole_complete).
  cbn [cat foldr fmap list_fmap sum_list]. rewrite string_length_app. f_equal. apply IH.
Qed.

(** What is appended to a text that is not blank leaves it not blank. *)
Lemma last_text_grown v x d e :
  has_char newline v = false → v ≠ "" → utf8_valid v = true → is_empty (trim v) = false →
  last_text (raw_lines (v +:+ x)) d = last_text (raw_lines (v +:+ x)) e.
Proof.
  intros Hn Hne Hv Hb.
  assert (∃ y ls, raw_lines (v +:+ x) = (v +:+ y) :: ls) as (y & ls & ->).
  { destruct (split_once newline x) as [[x1 x2]|] eqn:E.
    - apply split_once_Some in E as [-> Hx1]. rewrite <- string_app_assoc, raw_lines_cons
        by (by rewrite has_char_app, Hn, Hx1).
      rewrite string_app_assoc. eauto.
    - apply split_once_None in E. rewrite raw_lines_last by (by rewrite has_char_app, Hn, E).
      destruct v; [done |]. simpl. by exists x, []. }
  assert (is_empty (trim (v +:+ y)) = false) as Hb'.
  { apply not_true_is_false. intros H%blank_White%White_app%blank_White; [congruence | done]. }
  unfold last_text. simpl. by rewrite Hb'.
Qed.

Section Follow.
Context {Value : Type} `{JV : !JsonValue Value} `{JI : !JsonItem Value} `{SJ : !SessionJson Value}.

(** Reading what was appended. *)
Lemma parse_grown p c x :
  synced p c → readable_log c → readable_log (c +:+ x) →
  (parse_log (Some (c +:+ x)) p).1 = parse_state_from_line (last_text (raw_lines (c +:+ x)) "") ∧
  synced (parse_log (Some (c +:+ x)) p).2 (c +:+ x).
Proof.
  intros (full & v & -> & Hf & Hv & Ho & Hl) Hr Hr'. unfold parse_log.
  assert (String.length (cat full) ≤ String.length ((cat full +:+ v) +:+ x))%nat as Hlen
    by (rewrite !string_length_app; lia).
  destruct (Nat.ltb_spec (String.length ((cat full +:+ v) +:+ x)) (last_offset p)); [lia |].
  destruct (Nat.eqb_spec (String.length ((cat full +:+ v) +:+ x)) (last_offset p)) as [He|_].
  { rewrite Ho, !string_length_app in He.
    assert (v = "" ∧ x = "") as [-> ->] by (destruct v, x; simpl in He; try lia; done).
    rewrite !string_app_nil_r in *. rewrite <- Hl. split; [done |].
    exists full, "". by rewrite string_app_nil_r. }
  rewrite Ho, string_app_assoc in *. rewrite drop_str_app.
  destruct (log_shape (v +:+ x)) as (full2 & v2 & Hw & Hf2 & Hv2).
  assert (readable_log (cat full2 +:+ v2)) as Hr2.
  { unfold readable_log in Hr'. rewrite raw_lines_whole, Hw in Hr' by done. by apply Forall_app in Hr' as [_ ?]. }
  rewrite Hw, parse_lines_text by done.
  assert (last_text (raw_lines (cat full2 +:+ v2)) (last_line p)
          = last_text (raw_lines (cat full +:+ cat full2 +:+ v2)) "") as Heq.
  { rewrite (raw_lines_whole full (cat full2 +:+ v2)) by done.
    rewrite Hl, (raw_lines_whole full v) by done. unfold last_text. rewrite !foldl_app.
    fold (last_text full ""). fold (last_text (raw_lines v) (last_text full "")).
    fold (last_text (raw_lines (cat full2 +:+ v2)) (last_text (raw_lines v) (last_text full ""))).
    fold (last_text (raw_lines (cat full2 +:+ v2)) (last_text full "")).
    unfold readable_log in Hr. rewrite raw_lines_whole in Hr by done. apply Forall_app in Hr as [_ Hr].
    rewrite (raw_lines_last v) in Hr |- * by done. destruct v as [|a v]; [done |].
    apply Forall_cons in Hr as [Hva _].
    change (last_text [String a v] ?d)
      with (if is_empty (trim (String a v)) then d else trim (String a v)).
    destruct (is_empty (trim (String a v))) eqn:E; [done |]. rewrite <- Hw. by apply last_text_grown. }
  split; simpl; [by rewrite Heq |].
  exists (full ++ full2)%list, v2. rewrite cat_app, string_app_assoc.
  split_and!; [done | by apply Forall_app | done | by rewrite string_length_app | done].
Qed.

(** A file with fewer bytes than the parser has read is read from its start. *)
Lemma parse_restarted p c c' :
  synced p c → (String.length c' < complete_bytes c)%nat →
  parse_log (Some c') p = parse_log (Some c') SessionLogParser_new.
Proof.
  intros (full & v & -> & Hf & Hv & Ho & _). rewrite complete_bytes_whole by done. intros Hlt.
  unfold parse_log. rewrite Ho. by destruct (Nat.ltb_spec (String.length c') (String.length (cat full))); [| lia].
Qed.

(** A log over time, each time it is looked at: it cannot be opened, it has grown,
    or it was replaced by one shorter than its complete lines.  When it is read,
    every line is UTF-8, the last one too: no look falls inside a character.  The
    [Example]s [emptied_log], [replaced_log] and [cut_log] show that the parser
    does not follow other histories. *)
Inductive LogHistory : string → list (option string) → Prop :=
  | History_end c : LogHistory c []
  | History_closed c l : LogHistory c l → LogHistory c (None :: l)
  | History_grown c x l :
      readable_log (c +:+ x) → LogHistory (c +:+ x) l → LogHistory c (Some (c +:+ x) :: l)
  | History_replaced c c' l :
      (String.length c' < complete_bytes c)%nat → readable_log c' → LogHistory c' l →
      LogHistory c (Some c' :: l).

(** The answers of one parser to looks at the log. *)
Fixpoint observe (p : SessionLogParser) (files : list (option string)) : list AgentState :=
  match files with
  | [] => []
  | f :: files => let '(st, p) := parse_log f p in st :: observe p files
  end.

Lemma parse_whole c :
  readable_log c → parse_session_log (Some c) = parse_state_from_line (last_text (raw_lines c) "").
Proof.
  intros Hr. apply (parse_grown SessionLogParser_new "" c); [apply synced_new | constructor | done].
Qed.

Lemma observe_history p c files :
  synced p c → readable_log c → LogHistory c files → observe p files = parse_session_log <$> files.
Proof.
  intros Hp Hr Hh. revert p Hp Hr.
  induction Hh as [c|c l Hl IH|c x l Hx Hl IH|c c' l Hlt Hc' Hl IH]; intros p Hp Hr; cbn [observe].
  - done.
  - simpl. by rewrite (IH p).
  - destruct (parse_grown p c x Hp Hr Hx) as [H1 H2].
    destruct (parse_log (Some (c +:+ x)) p) as [st p'] eqn:E. simpl in H1, H2.
    cbn [fmap list_fmap]. by rewrite H1, parse_whole, (IH p').
  - rewrite (parse_restarted p c c' Hp Hlt).
    destruct (parse_grown SessionLogParser_new "" c' synced_new ltac:(constructor) Hc') as [H1 H2].
    cbn [String.append] in H1, H2.
    destruct (parse_log (Some c') SessionLogParser_new) as [st p'] eqn:E. simpl in H1, H2.
    cbn [fmap list_fmap]. by rewrite H1, parse_whole, (IH p').
Qed.

(** C21. The parser that keeps its place in a session log answers each time what a
    reading of the whole file answers, the state of the last line that is not blank,
    as long as the log has a [LogHistory]: at each look it cannot be opened, or it
    is the log of the look before with something behind it, or it was replaced by
    one shorter than the complete lines of the log before; and whenever it is read
    each of its lines, the last one too, is UTF-8 (no look falls inside a
    character).  For a log emptied before its first line was complete, one replaced
    by a log as long or longer, or a look inside a character this does not hold. *)
Theorem parser_follows_log files :
  LogHistory "" files →
  observe SessionLogParser_new files = parse_session_log <$> files ∧
  ∀ c, readable_log c → parse_session_log (Some c) = parse_state_from_line (last_text (raw_lines c) "").
Proof.
  intros Hh. split; [| apply parse_whole].
  by apply (observe_history _ ""); [apply synced_new | constructor |].
Qed.

(** ** Entries in pieces *)

Fixpoint run_records {A} (f : Value → A → option A) (js : list Value) (acc : A) : option A :=
  match js with
  | [] => Some acc
  | json :: js => acc ← f json acc; run_records f js acc
  end.

(** The records of lines. *)
Definition log_records (ls : list string) : list Value :=
  omap (λ raw, if is_empty (trim raw) then None else json_from_str (trim raw)) ls.

Lemma run_records_app {A} (f : Value → A → option A) js js' acc :
  run_records f (js ++ js')%list acc = (acc ← run_records f js acc; run_records f js' acc).
Proof.
  revert acc. induction js as [|json js IH]; intros acc; [done |]. simpl.
  destruct (f json acc); [apply IH | done].
Qed.

Lemma each_record_text {A} (f : Value → A → option A) full v off acc :
  Forall Whole full → has_char newline v = false → readable_log (cat full +:+ v) →
  each_record f (raw_lines (cat full +:+ v)) off acc
  = (λ a, (a, off + String.length (cat full))%nat) <$> run_records f (log_records full) acc.
Proof.
  intros Hf Hv. unfold readable_log. rewrite raw_lines_whole by done. intros [Hr _]%Forall_app.
  revert off acc. induction Hf as [|l full Hl Hf IH]; intros off acc.
  { simpl. rewrite Nat.add_0_r, (raw_lines_last v) by done. destruct v as [|a v]; [done |].
    simpl. rewrite last_incomplete by done. by rewrite orb_true_r. }
  apply Forall_cons in Hr as [Hrl Hr]. cbn [app each_record cat foldr].
  rewrite Hrl, (whole_complete l Hl). cbn [negb orb]. unfold log_records. cbn [omap list_omap].
  fold (log_records full). fold (cat full). rewrite string_length_app, Nat.add_assoc.
  destruct (is_empty (trim l)); [by apply IH |].
  destruct (json_from_str (trim l)) as [json|]; [| by apply IH]. cbn [run_records].
  destruct (f json acc) as [acc'|]; [by apply IH | done].
Qed.

(** [e] tells what [e'] does, or less: an exit code or a duration may be missing.
    With [codes] the exit codes are the same, with [durations] the durations. *)
Definition tells (codes durations : bool) (e e' : AgentLogEntry) : Prop :=
  le_timestamp e = le_timestamp e' ∧
  match le_kind e, le_kind e' with
  | BashCommand command code, BashCommand command' code' =>
      command = command' ∧ (code = code' ∨ codes = false ∧ code = None)
  | TurnComplete duration tokens, TurnComplete duration' tokens' =>
      tokens = tokens' ∧ (duration = duration' ∨ durations = false ∧ duration = None)
  | kind, kind' => kind = kind'
  end.

#[local] Instance tells_reflexive codes durations : Reflexive (tells codes durations).
Proof. intros [t []]; by repeat split; try left. Qed.

#[local] Instance tells_transitive codes durations : Transitive (tells codes durations).
Proof.
  intros [t1 k1] [t2 k2] [t3 k3] [H1 K1] [H2 K2]. unfold tells in *. simpl in *. split; [congruence |].
  destruct k1, k2; try done; destruct k3; try done; intuition congruence.
Qed.

Lemma tells_weaken codes durations e e' : tells codes durations e e' → tells false false e e'.
Proof.
  destruct e as [t k], e' as [t' k']. unfold tells. simpl. intros [Ht K]. split; [done |].
  destruct k, k'; try done; by destruct K as [-> [->|[_ ->]]]; split; auto.
Qed.

Lemma tells_exact e e' : tells true true e e' → e = e'.
Proof.
  destruct e as [t k], e' as [t' k']. unfold tells. simpl. intros [-> K].
  f_equal. destruct k, k'; try done; by destruct K as [-> [->|[? _]]].
Qed.

Lemma tells_exact_all l l' : Forall2 (tells true true) l l' → l = l'.
Proof. induction 1 as [|e e' l l' ->%tells_exact _ ->]; done. Qed.

Lemma tells_missing d e e' : tells true d e e' → missing_code e = missing_code e'.
Proof.
  destruct e as [t k], e' as [t' k']. unfold tells, missing_code. simpl. intros [_ K].
  destruct k, k'; try done. by destruct K as [_ [->|[? _]]].
Qed.

Lemma tells_set d code e e' : tells true d e e' → tells true d (set_code code e) (set_code code e').
Proof.
  destruct e as [t k], e' as [t' k']. unfold tells, set_code. simpl. intros [Ht K].
  destruct k, k'; try done. destruct K as [-> _]. by split; [| split; [| left]].
Qed.

Lemma tells_known code e e' : missing_code e' = true → tells false false e e' → tells false false e (set_code code e').
Proof.
  destruct e as [t k], e' as [t' k']. unfold tells, set_code, missing_code. simpl. intros Hm [Ht K].
  destruct k, k'; try done. destruct exit_code0; [done |]. destruct K as [-> K].
  split; [done |]. split; [done |]. right. by destruct K as [->|[_ ->]].
Qed.

(** ** Patching *)

Lemma patch_first_same d code l l' :
  Forall2 (tells true d) l l' → Forall2 (tells true d) (patch_first code l) (patch_first code l').
Proof.
  induction 1 as [|e e' l l' He Hl IH]; [constructor |]. cbn [patch_first].
  rewrite (tells_missing _ e e' He). destruct (missing_code e'); constructor; try done. by apply tells_set.
Qed.

Lemma patch_first_known code l l' :
  Forall2 (tells false false) l l' → Forall2 (tells false false) l (patch_first code l').
Proof.
  induction 1 as [|e e' l l' He Hl IH]; [constructor |]. cbn [patch_first].
  destruct (missing_code e') eqn:E; constructor; try done. by apply tells_known.
Qed.

Lemma patch_first_app code l l' :
  patch_first code (l ++ l')%list
  = (if existsb missing_code l then patch_first code l ++ l' else l ++ patch_first code l')%list.
Proof.
  induction l as [|e l IH]; [done |]. cbn [app patch_first existsb].
  destruct (missing_code e); [done |]. rewrite IH. cbn [orb]. by destruct (existsb missing_code l).
Qed.

Lemma patch_first_none code l : existsb missing_code l = false → patch_first code l = l.
Proof.
  induction l as [|e l IH]; [done |]. cbn [existsb patch_first]. intros [-> H]%orb_false_iff. by rewrite IH.
Qed.

Lemma exists_missing d l l' :
  Forall2 (tells true d) l l' → existsb missing_code l = existsb missing_code l'.
Proof. induction 1 as [|e e' l l' He Hl IH]; [done |]. cbn [existsb]. by rewrite (tells_missing _ e e' He), IH. Qed.

(** A piece that starts later: it does not know the entries before it, which a
    later record may complete, and, without [d], perhaps not the time of the
    user's last message. *)
Definition lags (d : bool) (pre : list AgentLogEntry) (whole piece : Extraction) : Prop :=
  ∃ pre' rest, whole.1 = (pre' ++ rest)%list ∧ Forall2 (tells false false) pre pre' ∧
    Forall2 (tells true d) piece.1 rest ∧ (piece.2 = whole.2 ∨ d = false ∧ piece.2 = None).

Lemma patch_lags d pre pre' piece rest code :
  Forall2 (tells false false) pre pre' → Forall2 (tells true d) piece rest →
  ∃ pre2 rest2, patch_exit_code code (pre' ++ rest)%list = (pre2 ++ rest2)%list ∧
    Forall2 (tells false false) pre pre2 ∧ Forall2 (tells true d) (patch_exit_code code piece) rest2.
Proof.
  intros Hp Hr. unfold patch_exit_code. rewrite reverse_app, patch_first_app.
  apply Forall2_reverse in Hr. pose proof (exists_missing _ _ _ Hr) as Hex.
  destruct (existsb missing_code (reverse rest)).
  - exists pre', (reverse (patch_first code (reverse rest))). split; [by rewrite reverse_app, reverse_involutive |].
    split; [done |]. by apply Forall2_reverse, patch_first_same.
  - exists (reverse (patch_first code (reverse pre'))), rest.
    split; [by rewrite reverse_app, reverse_involutive |]. split.
    + rewrite <-(reverse_involutive pre). by apply Forall2_reverse, patch_first_known, Forall2_reverse.
    + rewrite patch_first_none by done. rewrite <-(reverse_involutive rest). by apply Forall2_reverse.
Qed.

Lemma turn_lags d json message u u' es :
  turn_entries json message u = Some es → u' = u ∨ d = false ∧ u' = None →
  ∃ es', turn_entries json message u' = Some es' ∧ Forall2 (tells true d) es' es.
Proof.
  intros H [-> | [-> ->]]; [by exists es |]. unfold turn_entries in *. case_bool_decide; [| by exists es; simplify_eq].
  simpl. destruct (compute_duration_secs u _); [| done]. simpl in H. simplify_eq. eexists. split; [done |].
  constructor; [| constructor]. split; [done |]. simpl. by split; [| right].
Qed.

Lemma extract_lags d pre json whole piece whole' :
  lags d pre whole piece → extract_entries json whole = Some whole' →
  ∃ piece', extract_entries json piece = Some piece' ∧ lags d pre whole' piece'.
Proof.
  destruct whole as [es u], piece as [es' u']. intros (pre' & rest & Hes & Hpre & Hrest & Hu) H. cbn [fst snd] in Hes, Hrest, Hu. subst es.
  unfold extract_entries in *.
  assert (∀ e e', Forall2 (tells true d) e e' →
    lags d pre ((pre' ++ rest) ++ e', u)%list (es' ++ e, u')%list) as Hadd.
  { intros e e' He. exists pre', (rest ++ e')%list. simpl. split; [by rewrite app_assoc |].
    split_and!; [done | by apply Forall2_app | done]. }
  destruct (String.eqb _ "user").
  { simplify_eq. eexists. split; [done |]. exists pre', rest. split_and!; [done..|]. simpl.
    by destruct (extract_timestamp json); [left |]. }
  destruct (extract_error json) as [message|].
  { simplify_eq. eexists. split; [done |]. apply Hadd. by repeat constructor. }
  destruct (String.eqb _ "assistant").
  { destruct (json_get "message" json) as [message|].
    2: { simplify_eq. eexists. split; [done |]. by exists pre', rest. }
    destruct (tool_entries json _) as [tools|]; [| done]. simpl in *.
    destruct (turn_entries json message u) as [turn|] eqn:Ht; [| done]. simpl in H. simplify_eq.
    destruct (turn_lags d json message u u' turn Ht Hu) as (turn' & -> & Heq). simpl.
    eexists. split; [done |]. rewrite <-!app_assoc. rewrite (app_assoc pre'). apply Hadd. apply Forall2_app; [| done].
    by apply Forall2_same_length_lookup; split; [| intros i x y Hx Hy; simplify_eq]. }
  destruct (String.eqb _ "result").
  2: { simplify_eq. eexists. split; [done |]. by exists pre', rest. }
  destruct (match get_str json "content" with Some _ => _ | None => _ end) as [code|]; [| done].
  simpl in *. simplify_eq. eexists. split; [done |]. destruct code as [code|].
  - destruct (patch_lags d pre pre' es' rest code Hpre Hrest) as (pre2 & rest2 & H1 & H2 & H3).
    exists pre2, rest2. by split_and!.
  - by exists pre', rest.
Qed.

Lemma run_lags d pre js whole piece whole' :
  lags d pre whole piece → run_records extract_entries js whole = Some whole' →
  ∃ piece', run_records extract_entries js piece = Some piece' ∧ lags d pre whole' piece'.
Proof.
  revert whole piece. induction js as [|json js IH]; intros whole piece Hl H; simpl in *.
  { simplify_eq. by eexists. }
  destruct (extract_entries json whole) as [whole1|] eqn:E; [| done]. simpl in H.
  destruct (extract_lags d pre json whole piece whole1 Hl E) as (piece1 & -> & Hl1). simpl.
  by apply (IH whole1).
Qed.

(** A log that grows, and the entries of each piece. *)
Inductive Grows : string → list string → Prop :=
  | Grows_end c : Grows c []
  | Grows_more c x l : readable_log (c +:+ x) → Grows (c +:+ x) l → Grows c ((c +:+ x) :: l).

Fixpoint read_pieces (contents : list string) (offset : nat) : option (list (list AgentLogEntry) * nat) :=
  match contents with
  | [] => Some ([], offset)
  | c :: contents =>
      '(es, offset) ← parse_entries_from (Some c) offset;
      '(rest, offset) ← read_pieces contents offset;
      Some (es :: rest, offset)
  end.

(** The text of each piece: what follows the complete lines of the piece before. *)
Fixpoint piece_texts (contents : list string) (offset : nat) : list string :=
  match contents with
  | [] => []
  | c :: contents => drop_str offset c :: piece_texts contents (complete_bytes c)
  end.

(** The first record is a message of the user that has a time. *)
Definition starts_turn (text : string) : bool :=
  match log_records (raw_lines text) with
  | json :: _ =>
      String.eqb (default "" (get_str json "type")) "user" && bool_decide (is_Some (extract_timestamp json))
  | [] => false
  end.

(** What the last piece tells: the entries the log ends with, with the exit codes
    known by then; all of them if the piece starts with a message of the user. *)
Definition last_told (piece : list AgentLogEntry) (text : string) (es : list AgentLogEntry) : Prop :=
  ∃ pre rest, es = (pre ++ rest)%list ∧ Forall2 (tells true false) piece rest ∧
    (starts_turn text = true → piece = rest).

Fixpoint final (c : string) (l : list string) : string :=
  match l with [] => c | c' :: l => final c' l end.

Lemma Grows_final c l : Grows c l → readable_log c → ∃ y, final c l = c +:+ y ∧ readable_log (c +:+ y).
Proof.
  induction 1 as [c|c x l Hx Hl IH]; intros Hr.
  - exists "". by rewrite string_app_nil_r.
  - destruct (IH Hx) as (y & Hy & Hr'). exists (x +:+ y). rewrite <- string_app_assoc.
    done.
Qed.

(** The records of a log that has grown start with the records before. *)
Lemma run_prefix {A} (f : Value → A → option A) full v y off acc r :
  Forall Whole full → has_char newline v = false → readable_log (cat full +:+ v +:+ y) →
  each_record f (raw_lines (cat full +:+ v +:+ y)) off acc = Some r →
  ∃ a, run_records f (log_records full) acc = Some a.
Proof.
  intros Hf Hv Hr He. destruct (log_shape (v +:+ y)) as (full2 & v2 & Hw & Hf2 & Hv2).
  rewrite Hw, <- string_app_assoc, <- cat_app in He, Hr.
  rewrite each_record_text in He by (done || by apply Forall_app).
  unfold log_records in He. rewrite omap_app, run_records_app in He. fold (log_records full) in He.
  destruct (run_records f (log_records full) acc); [eauto | done].
Qed.

Lemma read_pieces_length contents offset pieces o :
  read_pieces contents offset = Some (pieces, o) → length pieces = length contents.
Proof.
  revert offset pieces o. induction contents as [|c contents IH]; intros offset pieces o H; cbn [read_pieces] in H; [by simplify_eq |].
  destruct (parse_entries_from _ _) as [[es off]|]; [| done]. cbn [mbind option_bind] in H.
  destruct (read_pieces contents off) as [[rest off2]|] eqn:E; [| done]. simpl in H. simplify_eq.
  simpl. f_equal. by apply (IH off _ o).
Qed.

Lemma extract_user json es u t :
  String.eqb (default "" (get_str json "type")) "user" = true → extract_timestamp json = Some t →
  extract_entries json (es, u) = Some (es, Some t).
Proof. intros Hu Ht. unfold extract_entries. by rewrite Hu, Ht. Qed.

(** One piece, after the lines [full] whose entries are [es0]. *)
Lemma piece_entries full full2 v2 es0 u0 es2 u2 :
  Forall Whole full2 → has_char newline v2 = false →
  run_records extract_entries (log_records full) ([], None) = Some (es0, u0) →
  run_records extract_entries (log_records (full ++ full2)) ([], None) = Some (es2, u2) →
  ∃ piece pre rest, fst <$> run_records extract_entries (log_records full2) ([], None) = Some piece ∧
    es2 = (pre ++ rest)%list ∧ Forall2 (tells false false) es0 pre ∧
    Forall2 (tells true false) piece rest ∧ (starts_turn (cat full2 +:+ v2) = true → piece = rest).
Proof.
  intros Hf2 Hv2 H0 H2. unfold log_records in H2. rewrite omap_app, run_records_app in H2.
  fold (log_records full) (log_records full2) in H2. rewrite H0 in H2. simpl in H2.
  assert (∀ d piece, lags d es0 (es0, u0) ([], piece) ↔ piece = u0 ∨ d = false ∧ piece = None) as Hstart.
  { intros d piece. split; [by intros (? & ? & _ & _ & _ & ?) |]. intros Hu. exists es0, [].
    simpl. rewrite app_nil_r. by split_and!. }
  destruct (run_lags false es0 (log_records full2) (es0, u0) ([], None) (es2, u2))
    as ([piece u] & Hpe & pre & rest & He & Hpre & Hrest & _); [apply Hstart; by right | done |].
  rewrite Hpe. destruct (starts_turn (cat full2 +:+ v2)) eqn:Hs.
  2: { exists piece, pre, rest. by split_and!. }
  unfold starts_turn in Hs. rewrite raw_lines_whole in Hs by done.
  destruct (log_records full2) as [|json js] eqn:Hl.
  { simpl in H2, Hpe. simplify_eq. exists [], es2, []. rewrite app_nil_r. by split_and!. }
  unfold log_records in Hs, Hl. rewrite omap_app, Hl in Hs. cbn [app] in Hs.
  apply andb_true_iff in Hs as [Htype Htime%bool_decide_eq_true].
  destruct Htime as [t Ht]. cbn [run_records] in H2, Hpe.
  rewrite (extract_user _ _ _ t) in H2 by done. rewrite (extract_user _ _ _ t) in Hpe by done.
  cbn [mbind option_bind] in H2, Hpe.
  destruct (run_lags true es0 js (es0, Some t) ([], Some t) (es2, u2))
    as ([piece' u'] & Hpe' & pre' & rest' & He' & Hpre' & Hrest'%tells_exact_all & _).
  { exists es0, []. simpl. rewrite app_nil_r. by split_and!; [| | | left]. }
  { done. }
  rewrite Hpe in Hpe'. injection Hpe' as <- <-. simpl in He', Hrest'. subst rest'.
  exists piece, pre', piece. by split_and!.
Qed.

Lemma pieces_cover c l full v es0 u0 es o :
  Grows c l → c = cat full +:+ v → Forall Whole full → has_char newline v = false → readable_log c →
  run_records extract_entries (log_records full) ([], None) = Some (es0, u0) →
  parse_entries_from (Some (final c l)) 0 = Some (es, o) →
  ∃ bs full' v' es1, final c l = cat full' +:+ v' ∧ Forall Whole full' ∧ has_char newline v' = false ∧
    read_pieces l (String.length (cat full)) = Some (bs, String.length (cat full')) ∧
    fst <$> run_records extract_entries (log_records full') ([], None) = Some es1 ∧
    Forall2 (tells false false) (es0 ++ concat bs)%list es1 ∧
    (l = [] → es1 = es0) ∧
    (∀ piece text, last bs = Some piece →
       last (piece_texts l (String.length (cat full))) = Some text → last_told piece text es1).
Proof.
  intros Hg. revert full v es0 u0. induction Hg as [c|c x l Hx Hl IH]; intros full v es0 u0 Hc Hf Hv Hr H0 H.
  { exists [], full, v, es0. rewrite H0. cbn. rewrite app_nil_r. by split_and!. }
  destruct (log_shape (v +:+ x)) as (full2 & v2 & Hw & Hf2 & Hv2).
  assert (c +:+ x = cat (full ++ full2) +:+ v2) as Hcx
    by (by rewrite Hc, cat_app, !string_app_assoc, Hw).
  assert (Forall Whole (full ++ full2)) as Hff by (by apply Forall_app).
  destruct (Grows_final _ _ Hl Hx) as (y & Hy & Hry).
  cbn [final] in H |- *.
  assert (∃ a, run_records extract_entries (log_records (full ++ full2)) ([], None) = Some a) as [[es2 u2] H2].
  { unfold parse_entries_from in H. rewrite Hy, Hcx, string_app_assoc in H. cbn [drop_str] in H.
    destruct (each_record _ _ _ _) as [r|] eqn:E in H; [| done].
    eapply (run_prefix extract_entries (full ++ full2) v2 y); [done | done | | exact E].
    by rewrite <- string_app_assoc, <- Hcx. }
  destruct (IH (full ++ full2)%list v2 es2 u2 Hcx Hff Hv2 Hx H2 H)
    as (bs & full' & v' & es3 & Hfin & Hf' & Hv' & Hp & Hrun & Htells & Hend & Hlast).
  destruct (piece_entries full full2 v2 es0 u0 es2 u2 Hf2 Hv2 H0 H2)
    as (piece & pre & rest & Hpe & He & Hpre & Hrest & Hexact).
  assert (drop_str (String.length (cat full)) (c +:+ x) = cat full2 +:+ v2) as Hdrop
    by (by rewrite Hc, string_app_assoc, drop_str_app, Hw).
  assert (complete_bytes (c +:+ x) = String.length (cat (full ++ full2))) as Hcb
    by (by rewrite Hcx, complete_bytes_whole).
  destruct (read_pieces l (String.length (cat (full ++ full2)))) as [[bs' o']|] eqn:Hrp; [| done].
  injection Hp as -> ->.
  exists (piece :: bs), full', v', es3. split_and!; try done.
  - cbn [read_pieces]. unfold parse_entries_from. rewrite Hdrop.
    rewrite each_record_text; [| done | done |].
    2: { rewrite <- Hw. rewrite Hc, string_app_assoc in Hx. unfold readable_log in *.
         rewrite raw_lines_whole in Hx by done. by apply Forall_app in Hx as [_ ?]. }
    destruct (run_records _ (log_records full2) _) as [[pes pu]|]; [| done].
    simpl in Hpe |- *. injection Hpe as ->. rewrite cat_app, string_length_app in Hrp. by rewrite Hrp.
  - subst es2. transitivity ((pre ++ rest) ++ concat bs)%list; [| done].
    cbn [concat]. rewrite app_assoc. apply Forall2_app; [| done]. apply Forall2_app; [done |].
    eapply Forall2_impl; [exact Hrest | apply tells_weaken].
  - intros p' text Hb Ht. cbn [piece_texts] in Ht. rewrite Hdrop, Hcb in Ht.
    destruct l as [|c2 l].
    + simpl in Hrp. injection Hrp as <- _. simpl in Hb, Ht. injection Hb as <-. injection Ht as <-.
      rewrite (Hend eq_refl). exists pre, rest. by split_and!.
    + destruct bs as [|b bs]; [by apply read_pieces_length in Hrp |].
      rewrite last_cons_cons in Hb. cbn [piece_texts] in Ht. rewrite last_cons_cons in Ht. by apply Hlast.
Qed.

(** C38. The log of an agent is written from pieces of the session log.  However the
    session log grows (by pieces of whole characters: at every look each line, the
    last one too, is UTF-8), every complete line is read in exactly one piece, and
    the entries of the pieces, in order, are those of a reading of the whole log,
    one for one: each is the same, but that its exit code or its duration may be
    missing.  What is missing is what another piece tells: the entries of the last
    piece (of every piece, for the log as it was then) are those the whole reading
    ends with, with the same exit codes; and if the piece starts with a message of
    the user that has a time, they are the same entries.  It takes that the reading
    of the whole does not panic; then the pieces do not. *)
Theorem pieces_cover_log contents es o :
  Grows "" contents → parse_entries_from (Some (final "" contents)) 0 = Some (es, o) →
  ∃ pieces, read_pieces contents 0 = Some (pieces, o) ∧
    o = complete_bytes (final "" contents) ∧
    Forall2 (tells false false) (concat pieces) es ∧
    ∀ piece text, last pieces = Some piece → last (piece_texts contents 0) = Some text →
      last_told piece text es.
Proof.
  intros Hg H. destruct (pieces_cover "" contents [] "" [] None es o) as
    (bs & full & v & es1 & Hf & Hw & Hv & Hp & Hr & He & _ & Hl); try done; [constructor |].
  unfold parse_entries_from in H. cbn [drop_str] in H.
  assert (readable_log (final "" contents)) as Hrd.
  { destruct (Grows_final _ _ Hg) as (y & -> & ?); [constructor | done]. }
  rewrite Hf in H, Hrd. rewrite each_record_text in H by done.
  destruct (run_records _ _ _) as [[es2 u2]|]; [| done]. simpl in H, Hr. simplify_eq.
  exists bs. rewrite Hf, complete_bytes_whole by done. by split_and!.
Qed.

(** A log that was replaced is not read until it is longer than the old one was:
    the offset of the entries does not go back. *)
Lemma replaced_log_skipped c' offset :
  (String.length c' ≤ offset)%nat → parse_entries_from (Some c') offset = Some ([], offset).
Proof.
  intros Hl. unfold parse_entries_from.
  assert (drop_str offset c' = "") as ->; [| done].
  revert offset Hl. induction c' as [|a c' IH]; intros [|n] Hl; simpl in *; [done.. | lia |].
  apply IH. lia.
Qed.

(** A long command is cut at byte 77, also inside a character. *)
Lemma long_command_panics command :
  (80 < String.length command)%nat → starts_with "oj" (trim command) = false →
  starts_with "./oj " (trim command) = false →
  is_char_boundary command 77 = false → bash_entry command = None.
Proof.
  intros Hl Ho Hd Hb. unfold bash_entry.
  assert (String.eqb (trim command) "oj" || starts_with "oj " (trim command) = false) as ->.
  { apply orb_false_iff. split; apply not_true_is_false.
    - intros H%String.eqb_eq. rewrite H in Ho. done.
    - intros [r Hr]%starts_with_spec. rewrite Hr in Ho. done. }
  rewrite Hd. cbn [orb]. destruct (Nat.ltb_spec 80 (String.length command)); [| lia].
  unfold slice. by rewrite Hb, andb_false_r.
Qed.
End Follow.

(** ** Examples *)

Inductive Json :=
  | Json_Null
  | Json_Str (s : string)
  | Json_Num (n : Z)
  | Json_Arr (l : list Json)
  | Json_Obj (fields : list (string * Json)).

Fixpoint field (key : string) (fields : list (string * Json)) : option Json :=
  match fields with
  | [] => None
  | (k, v) :: fields => if String.eqb k key then Some v else field key fields
  end.

#[local] Instance json_value : JsonValue Json := {
  json_get key v := match v with Json_Obj fields => field key fields | _ => None end;
  json_object_len v := match v with Json_Obj fields => Some (N.of_nat (length fields)) | _ => None end;
  json_as_u64 v := match v with Json_Num n => Some n | _ => None end
}.
#[local] Instance json_item : JsonItem Json := {
  json_strings m := Json_Obj (prod_map id Json_Str <$> map_to_list m);
  json_as_object v := match v with Json_Obj fields => Some (list_to_map fields) | _ => None end;
  json_as_str v := match v with Json_Str s => Some s | _ => None end;
  json_to_string v := match v with Json_Str s => s | _ => "" end
}.

Definition user_record : Json :=
  Json_Obj [("type", Json_Str "user"); ("timestamp", Json_Str "2026-01-30T08:17:05Z")].
Definition bash_record : Json :=
  Json_Obj [("type", Json_Str "assistant"); ("timestamp", Json_Str "2026-01-30T08:17:09Z");
            ("message", Json_Obj [("stop_reason", Json_Null); ("content", Json_Arr
              [Json_Obj [("type", Json_Str "tool_use"); ("name", Json_Str "Bash");
                         ("input", Json_Obj [("command", Json_Str "ls")])]])])].
Definition result_record : Json :=
  Json_Obj [("type", Json_Str "result"); ("content", Json_Str "Exit code: 2")].
Definition end_record : Json :=
  Json_Obj [("type", Json_Str "assistant"); ("timestamp", Json_Str "2026-01-30T08:18:00Z");
            ("message", Json_Obj [("stop_reason", Json_Str "end_turn");
                                  ("usage", Json_Obj [("output_tokens", Json_Num 12)])])].
Definition idle_record : Json :=
  Json_Obj [("type", Json_Str "assistant"); ("message", Json_Obj [("content", Json_Arr [])])].

(** A command of 90 bytes, its 77th and 78th one character. *)
Definition long_record : Json :=
  Json_Obj [("type", Json_Str "assistant");
            ("message", Json_Obj [("content", Json_Arr
              [Json_Obj [("type", Json_Str "tool_use"); ("name", Json_Str "Bash");
                         ("input", Json_Obj [("command", Json_Str
                            (of_bytes (repeat 97%N 76 ++ [195; 169]%N ++ repeat 97%N 12)))])]])])].

(** A parser that knows some texts. *)
#[local] Instance session_json : SessionJson Json := {
  json_from_str s :=
    field s [("U", user_record); ("B", bash_record); ("R", result_record); ("E", end_record);
             ("I", idle_record); ("P", long_record)];
  json_as_array v := match v with Json_Arr l => Some l | _ => None end;
  json_is_null v := match v with Json_Null => true | _ => false end
}.

Definition log_of (ls : list string) : string := cat ((λ l, l +:+ newline_str) <$> ls).

(** The log grows by pieces of lines, is replaced and closed. *)
Lemma parser_follows_log_witness :
  let files := [Some (log_of ["U"] +:+ "B"); Some (log_of ["U"; "B"; "I"]); None; Some "I"] in
  LogHistory "" files ∧
  observe SessionLogParser_new files
  = [AgentState_Working; AgentState_WaitingForInput; AgentState_Working; AgentState_WaitingForInput].
Proof.
  intros files.
  assert (LogHistory "" files) as H.
  { apply (History_grown "" (log_of ["U"] +:+ "B")); [apply readable_log_by; vm_compute; reflexivity |].
    apply (History_grown (log_of ["U"] +:+ "B") (newline_str +:+ log_of ["I"])); [apply readable_log_by; vm_compute; reflexivity |].
    apply History_closed. apply History_replaced; [vm_compute; lia | apply readable_log_by; vm_compute; reflexivity |].
    constructor. }
  split; [exact H |]. rewrite (proj1 (parser_follows_log files H)). vm_compute. reflexivity.
Defined.

(** Histories the parser does not follow.  A log emptied before its first line was
    complete, and one replaced by a log of the same length, leave the old state. *)
Example emptied_log :
  let files := [Some "I"; Some ""] in
  observe SessionLogParser_new files = [AgentState_WaitingForInput; AgentState_WaitingForInput] ∧
  parse_session_log <$> files = [AgentState_WaitingForInput; AgentState_Working].
Proof. by vm_compute. Qed.
Example replaced_log :
  let files := [Some (log_of ["I"]); Some (log_of ["U"])] in
  observe SessionLogParser_new files = [AgentState_WaitingForInput; AgentState_WaitingForInput] ∧
  parse_session_log <$> files = [AgentState_WaitingForInput; AgentState_Working].
Proof. by vm_compute. Qed.

(** So does a look at a last line that ends inside a character. *)
Example cut_log :
  let files := [Some "I"; Some ("I" +:+ of_bytes [195]%N)] in
  observe SessionLogParser_new files = [AgentState_WaitingForInput; AgentState_WaitingForInput] ∧
  parse_session_log <$> files = [AgentState_WaitingForInput; AgentState_Working].
Proof. by vm_compute. Qed.

Lemma pieces_cover_log_witness :
  let contents := [log_of ["U"; "B"] +:+ "R"; log_of ["U"; "B"; "R"; "E"]] in
  ∃ pieces, read_pieces contents 0 = Some (pieces, 8) ∧
    Forall2 (tells false false) (concat pieces)
      [mkLogEntry "2026-01-30T08:17:09Z" (BashCommand "ls" (Some 2%Z));
       mkLogEntry "2026-01-30T08:18:00Z" (TurnComplete (Some 55%Z) (Some 12%Z))].
Proof.
  intros contents.
  assert (Grows "" contents) as Hg.
  { apply (Grows_more "" (log_of ["U"; "B"] +:+ "R")); [apply readable_log_by; vm_compute; reflexivity |].
    apply (Grows_more (log_of ["U"; "B"] +:+ "R") (newline_str +:+ log_of ["E"])); [apply readable_log_by; vm_compute; reflexivity |]. constructor. }
  destruct (pieces_cover_log contents
              [mkLogEntry "2026-01-30T08:17:09Z" (BashCommand "ls" (Some 2%Z));
               mkLogEntry "2026-01-30T08:18:00Z" (TurnComplete (Some 55%Z) (Some 12%Z))] 8 Hg)
    as (pieces & Hp & _ & He & _); [vm_compute; reflexivity |].
  exists pieces. split; [exact Hp | exact He].
Defined.

(** Read in two pieces the exit code and the duration are lost. *)
Example late_records_lost :
  read_pieces [log_of ["U"; "B"]; log_of ["U"; "B"; "R"; "E"]] 0
  = Some ([[mkLogEntry "2026-01-30T08:17:09Z" (BashCommand "ls" None)];
           [mkLogEntry "2026-01-30T08:18:00Z" (TurnComplete None (Some 12%Z))]], 8).
Proof. vm_compute. reflexivity. Qed.

(** The place of an exit code is wrong behind a character whose lower case is
    shorter or longer: it is not found, or the slice panics. *)
Example exit_code_found : extract_exit_code "error, Exit code: 7" = Some (Some 7%Z).
Proof. vm_compute. reflexivity. Qed.
Example exit_code_missed :
  extract_exit_code (of_bytes [226; 132; 170]%N +:+ " Exit code: 7") = Some None.
Proof. vm_compute. reflexivity. Qed.
Example exit_code_panics :
  extract_exit_code (of_bytes [200; 186; 200; 186; 200; 186]%N +:+ " Exit code: 7") = None.
Proof. vm_compute. reflexivity. Qed.

Local Close Scope string_scope.
