(* ===== verification/Diagnostics.v ===== *)
(** What errors say: the positions, snippets and messages of
    [crates/shell/src/span.rs], [error.rs], [parse_error.rs], [validation.rs],
    [crates/runbook/src/parser.rs] and [find.rs].

    A text is its bytes.  Slicing a [str] off a character boundary panics, which
    is [None]. *)

From S2P Require Import Prelude Ids Bytes Slug ShellAst ShellValidate RunbookParse RunbookFind Suggest.

Local Open Scope string_scope.

(** ** [span.rs] *)

Fixpoint repeat_char (c : ascii) (n : nat) : string :=
  match n with O => "" | S n => String c (repeat_char c n) end.

(** The line of the position [limit], and where it starts: the loop over
    [char_indices], from byte [i] on. *)
Fixpoint line_at (s : string) (i line start limit : nat) : nat * nat :=
  match s with
  | EmptyString => (line, start)
  | String a s =>
      if (limit <=? i)%nat then (line, start)
      else if Ascii.eqb a newline then line_at s (S i) (S line) (S i) limit
      else line_at s (S i) line start limit
  end.

(** The number of the line, the column, and the line. *)
Definition locate_span (source : string) (span : Span) : option (nat * nat * string) :=
  let '(line_num, line_start) := line_at source 0 1 0 (sp_start span) in
  let line_content := split_next newline (drop_str line_start source) in
  let effective_start := sp_start span `min` String.length source in
  if (line_start <=? effective_start)%nat then
    if is_char_boundary source effective_start
    then Some (line_num, length (chars (text_between line_start effective_start source)), line_content)
    else None
  else Some (line_num, 0, line_content).

Definition diagnostic_context (source : string) (span : Span) (message : string) : option string :=
  '(line_num, col, line_content) ← locate_span source span;
  let gutter := pretty line_num in
  Some ("error: " +:+ message +:+ newline_str
        +:+ "  --> line " +:+ gutter +:+ ", column " +:+ pretty (col + 1)%nat +:+ newline_str
        +:+ "   |" +:+ newline_str
        +:+ repeat_char " " (3 - String.length gutter) +:+ gutter +:+ " | " +:+ line_content +:+ newline_str
        +:+ "   | " +:+ repeat_char " " col +:+ repeat_char "^" (span_len span `max` 1)).

(** The bytes of the first [n] characters. *)
Definition bytes_of (cs : list string) : nat := sum_list (String.length <$> cs).

(** A snippet of [context_chars] characters around the start of the span. *)
Definition context_snippet (input : string) (span : Span) (context_chars : nat) : option string :=
  let before := chars (take_str (sp_start span) input) in
  let after := chars (drop_str (sp_start span) input) in
  if negb (is_char_boundary input (sp_start span)) || (sp_end span <? sp_start span)%nat then None
  else
    let start := if (context_chars =? 0)%nat then 0
                 else bytes_of (take (length before - context_chars) before) in
    let end_ := sp_start span + bytes_of (take (context_chars + 1) after) in
    Some (text_between start end_ input +:+ newline_str
          +:+ repeat_char " " (sp_start span - start)
          +:+ repeat_char "^" ((sp_end span - sp_start span) `max` 1)).

(** ** Messages *)

Definition at_position (message : string) (span : Span) : string :=
  message +:+ " at position " +:+ pretty (sp_start span).

Definition LexerError_display (e : LexerError) : string :=
  match e with
  | Lex_UnexpectedChar ch span => at_position ("unexpected character '" +:+ ch +:+ "'") span
  | Lex_UnterminatedVariable span => at_position "unterminated variable" span
  | Lex_EmptyVariable span => at_position "empty variable name" span
  | Lex_InvalidVariableName name span => at_position ("invalid variable name '" +:+ name +:+ "'") span
  | Lex_UnterminatedSubstitution span => at_position "unterminated command substitution" span
  | Lex_InvalidRedirection message span => at_position ("invalid redirection: " +:+ message) span
  | Lex_UnterminatedSingleQuote span => at_position "unterminated single quote" span
  | Lex_UnterminatedDoubleQuote span => at_position "unterminated double quote" span
  | Lex_InvalidEscape ch span => at_position ("invalid escape sequence '\" +:+ ch +:+ "'") span
  | Lex_TrailingBackslash span => at_position "trailing backslash" span
  | Lex_UnterminatedHereDoc delimiter span =>
      at_position "unterminated here-document" span +:+ ", expected '" +:+ delimiter +:+ "' delimiter"
  end.

Fixpoint ParseError_display (e : ParseError) : string :=
  match e with
  | Parse_Lexer e => "lexer error: " +:+ LexerError_display e
  | Parse_UnexpectedToken found expected span =>
      at_position ("unexpected token " +:+ show_token found) span +:+ ", expected " +:+ expected
  | Parse_UnexpectedEof expected => "unexpected end of input, expected " +:+ expected
  | Parse_EmptyCommand span => at_position "empty command" span
  | Parse_InSubstitution inner _ => "in command substitution: " +:+ ParseError_display inner
  end.

Definition ValidationError_display (e : ValidationError) : string :=
  match e with
  | Val_EmptyCommand span => at_position "empty command" span
  | Val_MissingCommandAfter operator _ => "missing command after `" +:+ operator +:+ "`"
  | Val_MissingCommandBefore operator _ => "missing command before `" +:+ operator +:+ "`"
  | Val_EmptyJobSegment _ => "empty job segment"
  | Val_EmptySubshell _ => "empty subshell"
  | Val_EmptyBraceGroup _ => "empty brace group"
  | Val_StandaloneAssignment name value _ =>
      "assignment without command: `" +:+ name +:+ "=" +:+ default "" value +:+ "`"
  | Val_RedirectionWithoutCommand _ => "redirection without command"
  | Val_ExcessiveNesting depth max _ =>
      "excessive nesting depth (" +:+ pretty depth +:+ " levels, max " +:+ pretty max +:+ ")"
  | Val_IfsAssignment _ =>
      "IFS configuration is not supported; word splitting uses default whitespace"
  end.

(** The methods [diagnostic] and [context] of the three errors.  The first
    [None] of the parser's is a panic, the second an error without a span. *)
Definition lexer_diagnostic (e : LexerError) (input : string) : option string :=
  diagnostic_context input (lexer_error_span e) (LexerError_display e).
Definition lexer_context (e : LexerError) (input : string) (context_chars : nat) : option string :=
  context_snippet input (lexer_error_span e) context_chars.
Definition parse_diagnostic (e : ParseError) (input : string) : option (option string) :=
  match parse_error_span e with
  | None => Some None
  | Some span => Some <$> diagnostic_context input span (ParseError_display e)
  end.
Definition parse_context (e : ParseError) (input : string) (context_chars : nat)
    : option (option string) :=
  match parse_error_span e with
  | None => Some None
  | Some span => Some <$> context_snippet input span context_chars
  end.
Definition validation_diagnostic (e : ValidationError) (input : string) : option string :=
  diagnostic_context input (validation_error_span e) (ValidationError_display e).
Definition validation_context (e : ValidationError) (input : string) (context_chars : nat)
    : option string :=
  context_snippet input (validation_error_span e) context_chars.

(** ** Runbooks *)

(** [shell_diagnostic] of [parser.rs] *)
Definition shell_diagnostic (e : ParseError) (source : string) : option string :=
  default (ParseError_display e) <$> parse_diagnostic e source.

Definition RunbookError_display (e : RunbookError) : option string :=
  match e with
  | Rb_Deserialize Format_Toml message => Some ("TOML parse error: " +:+ message)
  | Rb_Deserialize Format_Hcl message => Some ("HCL parse error: " +:+ message)
  | Rb_Deserialize Format_Json message => Some ("JSON parse error: " +:+ message)
  | Rb_InvalidFormat location message => Some ("invalid format for " +:+ location +:+ ": " +:+ message)
  | Rb_ShellError location inner source_text =>
      text ← shell_diagnostic inner source_text;
      Some ("invalid shell command in " +:+ location +:+ ":" +:+ newline_str +:+ text)
  | Rb_ShellValidation location inner source_text =>
      text ← validation_diagnostic inner source_text;
      Some ("invalid shell command in " +:+ location +:+ ":" +:+ newline_str +:+ text)
  end.

Definition SkipReason_display (r : SkipReason) : option string :=
  match r with
  | Skip_Unreadable e => Some e
  | Skip_Invalid e => RunbookError_display e
  end.

(** A line of the details of the skipped runbooks. *)
Definition skipped_line (skipped : PathBuf * SkipReason) : option string :=
  text ← SkipReason_display skipped.2; Some ("  " +:+ skipped.1 +:+ ": " +:+ text).

Definition FindError_display (e : FindError) : option string :=
  match e with
  | Find_Duplicate name =>
      Some ("'" +:+ name +:+ "' defined in multiple runbooks; use --runbook <file>")
  | Find_DuplicateAcrossFiles entity_type name file_a file_b =>
      Some (entity_type +:+ " '" +:+ name +:+ "' defined in both " +:+ file_a +:+ " and " +:+ file_b)
  | Find_NotFoundSkipped name count details =>
      lines ← mapM skipped_line details;
      Some (name +:+ " not found; " +:+ pretty count +:+ " runbook(s) skipped due to errors:"
            +:+ newline_str +:+ String.concat newline_str lines)
  | Find_Io e => Some e
  end.

Local Close Scope string_scope.

(** ** What a position means *)

Local Open Scope string_scope.

Fixpoint newlines (s : string) : nat :=
  match s with
  | EmptyString => 0
  | String a s => (if Ascii.eqb a newline then 1 else 0) + newlines s
  end.

Lemma split_next_spec c s :
  ∃ after, s = split_next c s +:+ after ∧ has_char c (split_next c s) = false ∧
           (after = "" ∨ ∃ r, after = String c r).
Proof.
  unfold split_next. destruct (split_once c s) as [[l r]|] eqn:Hs.
  - apply split_once_Some in Hs as [-> Hl]. exists (String c r). eauto.
  - apply split_once_None in Hs. exists "". rewrite string_app_nil_r. auto.
Qed.

Lemma split_next_unbroken c l r : has_char c l = false → split_next c (l +:+ r) = l +:+ split_next c r.
Proof.
  intros Hl. unfold split_next at 2. destruct (split_once c r) as [[r1 r2]|] eqn:Hr.
  - apply split_once_Some in Hr as [-> Hr1]. rewrite <- string_app_assoc. apply split_next_app.
    by rewrite has_char_app, Hl.
  - apply split_once_None in Hr. unfold split_next.
    assert (split_once c (l +:+ r) = None) as -> by (apply split_once_None; by rewrite has_char_app, Hl).
    done.
Qed.

(** What is before the position: whole lines, and the start of a line. *)
Lemma line_at_spec s i line start limit :
  ∃ u v, take_str (limit - i) s = u +:+ v ∧ has_char newline v = false ∧
    (line_at s i line start limit).1 = line + newlines u ∧
    (u = "" ∧ (line_at s i line start limit).2 = start ∨
     (∃ b, u = b +:+ newline_str) ∧ (line_at s i line start limit).2 = i + String.length u).
Proof.
  revert i line start. induction s as [|a s IH]; intros i line start.
  { exists "", "". simpl. split_and!; [by destruct (limit - i) | done | lia | by left]. }
  simpl. destruct (Nat.leb_spec limit i) as [Hle|Hlt].
  { exists "", "". replace (limit - i) with 0 by lia. split_and!; [done | done | simpl; lia | by left]. }
  replace (limit - i) with (S (limit - S i)) by lia. cbn [take_str].
  destruct (Ascii.eqb_spec a newline) as [->|Hne].
  - destruct (IH (S i) (S line) (S i)) as (u & v & -> & Hv & Hl & Hu).
    exists (String newline u), v. cbn [newlines]. rewrite Ascii.eqb_refl.
    split_and!; [done | done | rewrite Hl; lia | right]. split.
    + destruct Hu as [[-> _]|[[b ->] _]]; [by exists "" | by exists (String newline b)].
    + destruct Hu as [[-> ->]|[_ ->]]; simpl; lia.
  - destruct (IH (S i) line start) as (u & v & -> & Hv & Hl & Hu).
    destruct Hu as [[-> Hs]|[[b ->] Hs]].
    + exists "", (String a v). split_and!; [done | | by rewrite Hl | by left].
      simpl. rewrite Hv. by destruct (Ascii.eqb_spec a newline).
    + exists (String a (b +:+ newline_str)), v. split_and!; [done | done | |].
      * rewrite Hl. simpl. by destruct (Ascii.eqb_spec a newline).
      * right. split; [by exists (String a b) | rewrite Hs; simpl; lia].
Qed.

Lemma text_after u v w n :
  (String.length u ≤ n)%nat → (n ≤ String.length (u +:+ v))%nat →
  text_between (String.length u) n (u +:+ v +:+ w) = take_str (n - String.length u) v.
Proof.
  intros Hu Hn. unfold text_between. rewrite drop_str_app. rewrite string_length_app in Hn.
  assert (n - String.length u ≤ String.length v)%nat as Hle by lia. clear Hu Hn.
  generalize dependent (n - String.length u). clear. intros m. revert v.
  induction m as [|m IH]; intros [|a v]; simpl; try done; try lia. intros. f_equal. apply IH. lia.
Qed.

(** The position of a diagnosis is right: the source is whole lines, the line
    that is shown and the rest; the number of the line counts the lines before
    it, the start of the span is in the line or at its end, and the column is
    the number of characters of the line before it.  Nothing is shown, for the
    code panics, exactly if the span starts inside a character. *)
Theorem located source span :
  let pos := sp_start span `min` String.length source in
  match locate_span source span with
  | None => is_char_boundary source pos = false
  | Some (line, col, content) =>
      ∃ before after, source = before +:+ content +:+ after ∧
        (before = "" ∨ ∃ b, before = b +:+ newline_str) ∧
        has_char newline content = false ∧ (after = "" ∨ ∃ r, after = String newline r) ∧
        line = 1 + newlines before ∧
        (String.length before ≤ pos ≤ String.length before + String.length content)%nat ∧
        col = length (chars (take_str (pos - String.length before) content))
  end.
Proof.
  set (pos := sp_start span `min` String.length source). cbv zeta. unfold locate_span.
  destruct (line_at_spec source 0 1 0 (sp_start span)) as (u & v & Huv & Hv & Hl & Hu).
  destruct (line_at source 0 1 0 (sp_start span)) as [line start]. simpl in Hl, Hu.
  rewrite Nat.sub_0_r in Huv. fold pos.
  assert (start = String.length u) as -> by (destruct Hu as [[-> ->]|[_ ->]]; done).
  pose proof (take_str_drop (sp_start span) source) as Hsrc. rewrite Huv in Hsrc.
  set (rest := drop_str (sp_start span) source) in *. clearbody rest.
  assert (pos = String.length u + String.length v) as Hpos.
  { rewrite <- string_length_app, <- Huv, length_take_str. done. }
  rewrite (proj2 (Nat.leb_le _ _)) by lia.
  assert (drop_str (String.length u) source = v +:+ rest) as Hdrop.
  { rewrite <- Hsrc, string_app_assoc. apply drop_str_app. }
  rewrite Hdrop, split_next_unbroken by done.
  destruct (split_next_spec newline rest) as (after & Hrest & Hn & Ha).
  assert (source = u +:+ (v +:+ split_next newline rest) +:+ after) as Heq.
  { rewrite <- Hsrc. rewrite Hrest at 1. by rewrite !string_app_assoc. }
  destruct (is_char_boundary source pos) eqn:Hb; [| done].
  exists u, after. split_and!.
  - exact Heq.
  - destruct Hu as [[-> _]|[Hb' _]]; [by left | by right].
  - by rewrite has_char_app, Hv.
  - done.
  - done.
  - lia.
  - rewrite string_length_app. lia.
  - f_equal. f_equal. rewrite Heq at 1. apply text_after; [lia |].
    rewrite !string_length_app. lia.
Qed.
