(* ===== verification/ShellExpand.v ===== *)
(** The expansions of the shell: [crates/shell/src/exec/expand/] and
    [expand_glob.rs], with the errors of [exec/error.rs] and the context of
    [exec/run.rs] they work on.

    An operation is a function on the shell that may fail ([SX]); a failure
    keeps what was done.  The system is the class [ShellOS].  The execution of a
    substitution is a parameter here; [ShellExec] supplies it.

    Text is a byte string.  The characters that [expand/text.rs] looks for are
    ASCII, so that going through the bytes of a text is the same as going
    through its characters; where characters matter, [chars] splits. *)

From S2P Require Import Prelude Ids Bytes Slug Runtime RunbookFind ShellAst Suggest.

Local Open Scope string_scope.

(** ** Errors *)

Inductive ExecError :=
  | Exec_CommandFailed (command : string) (exit_code : Z) (span : Span)
  | Exec_SpawnFailed (command source : string) (span : Span)
  | Exec_RedirectFailed (message source : string) (span : Span)
  | Exec_UndefinedVariable (name : string) (span : Span)
  | Exec_Unsupported (feature : string) (span : Span)
  | Exec_GlobPattern (pattern message : string) (span : Span)
  | Exec_Parse (e : ParseError)
  (** Not of the source: the task panics. *)
  | Exec_Panic.

(** [ExecError::span] *)
Definition exec_error_span (e : ExecError) : Span :=
  match e with
  | Exec_CommandFailed _ _ span | Exec_SpawnFailed _ _ span | Exec_RedirectFailed _ _ span
  | Exec_UndefinedVariable _ span | Exec_Unsupported _ span | Exec_GlobPattern _ _ span => span
  | Exec_Parse e => default (mkSpan 0 0) (parse_error_span e)
  | Exec_Panic => mkSpan 0 0
  end.

(** ** The system *)

Inductive Stdio := Io_Inherit | Io_Piped | Io_Null | Io_File (handle : nat).

(** What [tokio::process::Command] is given. *)
Record ProcessSpec := mkProcess {
  pr_program : string;
  pr_args : list string;
  pr_cwd : PathBuf;
  pr_envs : gmap string string;
  pr_stdin : Stdio;
  pr_stdout : Stdio;
  pr_stderr : Stdio
}.

(** The exit code, if there is one, and the bytes that were read. *)
Record ExitOutput := mkExit {
  ex_code : option Z;
  ex_stdout : string;
  ex_stderr : string
}.

(** An error of the system is its text. *)
Class ShellOS (W : Type) := {
  os_current_dir : W → string + PathBuf;
  (** [dirs::home_dir], [std::env::var("USER")], [std::process::id]. *)
  os_home_dir : option string;
  os_user : option string;
  os_pid : Z;
  (** [Instant::now], in nanoseconds. *)
  os_instant : W → Z * W;
  (** [glob::glob]: the message of an error, or the paths and errors it yields. *)
  os_glob : string → W → string + list (string + PathBuf);
  (** Files are opened once and are then known by a number. *)
  os_open_read : PathBuf → W → (string + nat) * W;
  os_open_write : PathBuf → bool → W → (string + nat) * W;
  os_try_clone : nat → W → (string + nat) * W;
  os_write_all : nat → string → W → option string * W;
  (** A child is known by a number, too. *)
  os_spawn : ProcessSpec → W → (string + nat) * W;
  (** All of the data is written to the standard input, which is then closed. *)
  os_write_stdin : nat → string → W → option string * W;
  (** [tokio::io::copy], from the output of one child to the input of another. *)
  os_relay : nat → nat → W → W;
  os_wait : nat → W → (string + ExitOutput) * W
}.

(** ** The context *)

Record ExecContext := mkContext {
  cx_cwd : PathBuf;
  cx_env : gmap string string;
  cx_variables : gmap string string;
  cx_snippet_limit : Z;
  cx_pipefail : bool;
  cx_ifs : string;
  cx_last_exit_code : Z
}.

Definition cx_upd_variables (f : gmap string string → gmap string string) (c : ExecContext) : ExecContext :=
  mkContext (cx_cwd c) (cx_env c) (f (cx_variables c)) (cx_snippet_limit c) (cx_pipefail c) (cx_ifs c)
    (cx_last_exit_code c).
Definition cx_set_limit (limit : Z) (c : ExecContext) : ExecContext :=
  mkContext (cx_cwd c) (cx_env c) (cx_variables c) limit (cx_pipefail c) (cx_ifs c)
    (cx_last_exit_code c).
Definition cx_set_last_exit (code : Z) (c : ExecContext) : ExecContext :=
  mkContext (cx_cwd c) (cx_env c) (cx_variables c) (cx_snippet_limit c) (cx_pipefail c) (cx_ifs c) code.

Record Shell {W : Type} := mkShell { sh_ctx : ExecContext; sh_world : W }.
Arguments Shell : clear implicits.
Arguments mkShell {W}.

Definition SX (W A : Type) : Type := Shell W → Res ExecError A * Shell W.

#[export] Instance sx_ret W : MRet (SX W) := λ A a sh, (Ok a, sh).
#[export] Instance sx_bind W : MBind (SX W) := λ A B k m sh,
  match m sh with
  | (Ok a, sh) => k a sh
  | (Err e, sh) => (Err e, sh)
  | (NoFuel, sh) => (NoFuel, sh)
  end.

(** A result that does not depend on the shell. *)
Definition lift {W A} (r : Res ExecError A) : SX W A := λ sh, (r, sh).
Definition fail {W A} (e : ExecError) : SX W A := lift (Err e).
Definition context {W} : SX W ExecContext := λ sh, (Ok (sh_ctx sh), sh).
Definition upd_context {W} (f : ExecContext → ExecContext) : SX W unit := λ sh,
  (Ok tt, mkShell (f (sh_ctx sh)) (sh_world sh)).
Definition system {W A} (f : W → A * W) : SX W A := λ sh,
  let '(a, w) := f (sh_world sh) in (Ok a, mkShell (sh_ctx sh) w).
(** A call of the system that may fail. *)
Definition try_system {W A} (err : string → ExecError) (f : W → (string + A) * W) : SX W A := λ sh,
  let '(r, w) := f (sh_world sh) in
  (match r with inl e => Err (err e) | inr a => Ok a end, mkShell (sh_ctx sh) w).
Definition try_system_unit {W} (err : string → ExecError) (f : W → option string * W) : SX W unit :=
  try_system err (λ w, let '(o, w) := f w in (match o with Some e => inl e | None => inr tt end, w)).

(** [f] for each element, in order; the results are collected. *)
Fixpoint collect_each {W A B} (f : A → SX W B) (xs : list A) : SX W (list B) :=
  match xs with
  | [] => mret []
  | x :: xs => y ← f x; ys ← collect_each f xs; mret (y :: ys)
  end.

(** ** Paths *)

(** [Path::is_absolute] *)
Definition path_is_absolute (path : PathBuf) : bool := starts_with "/" path.

(** [Path::join] *)
Definition path_push (base rel : PathBuf) : PathBuf :=
  if path_is_absolute rel then rel else path_join base rel.

(** The parts between slashes that are no component of the path. *)
Definition no_component (part : string) : bool := is_empty part || String.eqb part ".".

Fixpoint drop_blank (parts : list string) : list string :=
  match parts with
  | part :: rest => if no_component part then drop_blank rest else parts
  | [] => []
  end.
Definition drop_blank_end (parts : list string) : list string := rev (drop_blank (rev parts)).

(** [Path::file_name] *)
Definition path_last (path : PathBuf) : option string :=
  match rev (drop_blank_end (split_all "/" path)) with
  | last :: _ => if String.eqb last ".." then None else Some last
  | [] => None
  end.

(** The components [prefix] taken from the parts of a path. *)
Fixpoint strip_parts (parts prefix : list string) : option (list string) :=
  match prefix with
  | [] => Some parts
  | c :: prefix' =>
      (fix after (parts : list string) : option (list string) :=
         match parts with
         | part :: rest =>
             if no_component part then after rest
             else if String.eqb part c then strip_parts rest prefix' else None
         | [] => None
         end) parts
  end.

(** A path starts at the root, at ["."], or with a name. *)
Definition path_start (path : PathBuf) : bool * bool :=
  (path_is_absolute path, String.eqb path "." || starts_with "./" path).

(** [Path::strip_prefix] *)
Definition path_strip_prefix (path base : PathBuf) : option PathBuf :=
  let parts := split_all "/" path in
  let prefix := filter (λ part, no_component part = false) (split_all "/" base) in
  match path_start base, prefix with
  | (false, false), [] => Some (String.concat "/" (drop_blank_end parts))
  | start, _ =>
      if bool_decide (path_start path = start)
      then rest ← strip_parts parts prefix;
           Some (String.concat "/" (drop_blank_end (drop_blank rest)))
      else None
  end.

(** ** Glob expansion *)

(** [GlobConfig] *)
Record GlobConfig := mkGlobConfig { nullglob : bool }.
Definition GlobConfig_default : GlobConfig := mkGlobConfig false.

(** The flags are meant for the bytes of the text. *)
Record GlobEligibility := mkGlob { ge_text : string; ge_eligible : list bool }.
Definition GlobEligibility_new : GlobEligibility := mkGlob "" [].

Definition push_marked (flag : bool) (s : string) (g : GlobEligibility) : GlobEligibility :=
  mkGlob (ge_text g +:+ s) (ge_eligible g ++ repeat flag (String.length s)).
Definition push_eligible : string → GlobEligibility → GlobEligibility := push_marked true.
Definition push_ineligible : string → GlobEligibility → GlobEligibility := push_marked false.

Definition is_glob_meta (a : ascii) : bool :=
  Ascii.eqb a "*" || Ascii.eqb a "?" || Ascii.eqb a "[".

(** [has_glob_pattern]: a byte without a flag is not eligible. *)
Fixpoint has_glob_in (s : string) (eligible : list bool) : bool :=
  match s with
  | EmptyString => false
  | String a s' => (is_glob_meta a && default false (head eligible)) || has_glob_in s' (tail eligible)
  end.
Definition has_glob_pattern (g : GlobEligibility) : bool := has_glob_in (ge_text g) (ge_eligible g).

(** [process_glob_escapes]: one flag for each character. *)
Fixpoint process_glob_chars (cs : list string) : string * list bool :=
  match cs with
  | [] => ("", [])
  | ch :: rest =>
      match rest with
      | next :: rest' =>
          if String.eqb ch "\" &&
             (String.eqb next "*" || String.eqb next "?" || String.eqb next "[" || String.eqb next "\")
          then let '(text, eligible) := process_glob_chars rest' in (next +:+ text, false :: eligible)
          else let '(text, eligible) := process_glob_chars rest in (ch +:+ text, true :: eligible)
      | [] => (ch, [true])
      end
  end.
Definition process_glob_escapes (s : string) : string * list bool := process_glob_chars (chars s).

Definition push_eligible_with_escapes (s : string) (g : GlobEligibility) : GlobEligibility :=
  let '(text, eligible) := process_glob_escapes s in
  mkGlob (ge_text g +:+ text) (ge_eligible g ++ eligible).

(** Whether the name at the end of a path starts with a dot. *)
Definition hidden (path : PathBuf) : bool :=
  match path_last path with Some name => starts_with "." name | None => false end.
Definition pattern_matches_hidden (pattern : string) : bool := hidden pattern.

Section Glob.
Context {W : Type} `{OS : !ShellOS W}.

Definition expand_glob_pattern (pattern : string) (cwd : PathBuf) (config : GlobConfig) (span : Span)
    (w : W) : Res ExecError (list string) :=
  let full_pattern := path_push cwd pattern in
  let include_hidden := pattern_matches_hidden pattern in
  match os_glob full_pattern w with
  | inl message => Err (Exec_GlobPattern pattern message span)
  | inr paths =>
      let matches := sort_by String.leb
        (omap (λ result : string + PathBuf,
           match result with
           | inl _ => None
           | inr path =>
               let relative := default path (path_strip_prefix path cwd) in
               if negb include_hidden && hidden relative then None else Some relative
           end) paths) in
      match matches with
      | [] => Ok (if nullglob config then [] else [pattern])
      | _ => Ok matches
      end
  end.
End Glob.

(** ** Modifiers *)

(** [parse_modifier]: the colon, the operator and the text after them.  A slice
    that starts inside a character panics. *)
Definition parse_modifier (modifier : string) : option (bool * ascii * string) :=
  match modifier with
  | String ":" rest =>
      match rest with
      | EmptyString => Some (true, "-"%char, "")
      | String op val => if is_char_boundary modifier 2 then Some (true, op, val) else None
      end
  | String op val => if is_char_boundary modifier 1 then Some (false, op, val) else None
  | EmptyString => Some (false, "-"%char, "")
  end.

Definition is_special_name (name : string) : bool :=
  String.eqb name "?" || String.eqb name "$" || String.eqb name "#" || String.eqb name "0".

Section Expand.
Context {W : Type} `{OS : !ShellOS W}.
Abbreviation M := (SX W) (only parsing).
(** [execute_substitution]: the output of a command substitution. *)
Context (execute_substitution : SubstitutionBody → M string).

Definition lookup_variable (name : string) : M (option string) :=
  c ← context; mret (cx_variables c !! name).

(** [apply_modifier], with [expand] for the text of the modifier. *)
Definition apply_modifier (expand : string → M string) (name modifier : string) (value : option string)
    (span : Span) : M string :=
  match parse_modifier modifier with
  | None => fail Exec_Panic
  | Some (check_empty, op, default_val) =>
      let should_apply :=
        match value with None => true | Some v => check_empty && is_empty v end in
      let own := mret (default "" value) in
      if Ascii.eqb op "-" then
        if should_apply then expand default_val else own
      else if Ascii.eqb op "=" then
        if should_apply then
          expanded ← expand default_val;
          (if is_special_name name then mret tt
           else upd_context (cx_upd_variables <[name := expanded]>));;
          mret expanded
        else own
      else if Ascii.eqb op "+" then
        if should_apply then mret "" else expand default_val
      else if Ascii.eqb op "?" then
        if should_apply then fail (Exec_UndefinedVariable name span) else own
      else own
  end.

(** ** Text: [expand/text.rs] *)

(** The name at the start of a text, and what follows it. *)
Fixpoint scan_name (s : string) : string * string :=
  match s with
  | String a s' =>
      if is_valid_variable_char a then let '(name, rest) := scan_name s' in (String a name, rest)
      else ("", s)
  | EmptyString => ("", "")
  end.

(** The state of [expand_braced_var]. *)
Record Braced := mkBraced { br_name : string; br_modifier : string; br_in_modifier : bool }.
Definition push_br_name (a : ascii) (b : Braced) : Braced :=
  mkBraced (br_name b +:+ String a "") (br_modifier b) (br_in_modifier b).
Definition push_br_modifier (a : ascii) (b : Braced) : Braced :=
  mkBraced (br_name b) (br_modifier b +:+ String a "") true.
Definition push_if_modifier (a : ascii) (b : Braced) : Braced :=
  if br_in_modifier b then push_br_modifier a b else b.

Definition is_modifier_op (a : ascii) : bool :=
  Ascii.eqb a ":" || Ascii.eqb a "-" || Ascii.eqb a "+" || Ascii.eqb a "=" || Ascii.eqb a "?".

(** The loop of [expand_braced_var], up to the closing brace: what was read, and
    the text after the brace if there is one. *)
Fixpoint scan_braced (depth : nat) (b : Braced) (s : string) : Braced * option string :=
  match s with
  | EmptyString => (b, None)
  | String a s' =>
      if Ascii.eqb a "}" then
        match depth with
        | S (S _ as depth') => scan_braced depth' (push_if_modifier a b) s'
        | _ => (b, Some s')
        end
      else if Ascii.eqb a "{" then scan_braced (S depth) (push_if_modifier a b) s'
      else if is_modifier_op a && negb (br_in_modifier b) && Nat.eqb depth 1
      then scan_braced depth (push_br_modifier a b) s'
      else if br_in_modifier b then scan_braced depth (push_br_modifier a b) s'
      else if is_valid_variable_char a then scan_braced depth (push_br_name a b) s'
      else scan_braced depth (push_br_modifier a b) s'
  end.

(** The loop of [expand_command_subst]: the text before the closing parenthesis
    and what follows it. *)
Fixpoint scan_parens (depth : nat) (content : string) (s : string) : string * option string :=
  match s with
  | EmptyString => (content, None)
  | String a s' =>
      if Ascii.eqb a "(" then scan_parens (S depth) (content +:+ String a "") s'
      else if Ascii.eqb a ")" then
        match depth with
        | S (S _ as depth') => scan_parens depth' (content +:+ String a "") s'
        | _ => (content, Some s')
        end
      else scan_parens depth (content +:+ String a "") s'
  end.

(** The loop of [expand_backtick_subst]. *)
Fixpoint scan_backtick (content : string) (s : string) : string * option string :=
  match s with
  | EmptyString => (content, None)
  | String a s' =>
      if Ascii.eqb a "`" then (content, Some s')
      else
        match s' with
        | String next s'' =>
            if Ascii.eqb a "\" && (Ascii.eqb next "`" || Ascii.eqb next "\" || Ascii.eqb next "$")
            then scan_backtick (content +:+ String next "") s''
            else scan_backtick (content +:+ String a "") s'
        | EmptyString => (content +:+ String a "", None)
        end
  end.

(** [execute_substitution] of a text, without the line ends at the end. *)
Definition substituted (content : string) : M string :=
  output ← execute_substitution (Sub_Unparsed content);
  mret (trim_end_char newline output).

(** [expand_braced_var] at [start_pos]; the text starts after the brace. *)
Definition expand_braced_var (expand : string → M string) (start_pos : nat) (s : string) :
    M (string * string) :=
  match scan_braced 1 (mkBraced "" "" false) s with
  | (b, Some rest) =>
      value ← lookup_variable (br_name b);
      expanded ← (if br_in_modifier b
                  then apply_modifier expand (br_name b) (br_modifier b) value (mkSpan start_pos start_pos)
                  else match value with
                       | Some v => mret v
                       | None => fail (Exec_UndefinedVariable (br_name b) (mkSpan start_pos start_pos))
                       end);
      mret (expanded, rest)
  | (b, None) => mret ("${" +:+ br_name b +:+ br_modifier b, "")
  end.

Definition expand_command_subst (s : string) : M (string * string) :=
  match scan_parens 1 "" s with
  | (content, Some rest) => output ← substituted content; mret (output, rest)
  | (content, None) => mret ("$(" +:+ content, "")
  end.

Definition expand_backtick_subst (s : string) : M (string * string) :=
  match scan_backtick "" s with
  | (content, Some rest) => output ← substituted content; mret (output, rest)
  | (content, None) => mret ("`" +:+ content, "")
  end.

Definition expand_simple_var (start_pos : nat) (s : string) : M (string * string) :=
  let '(name, rest) := scan_name s in
  value ← lookup_variable name;
  match value with
  | Some v => mret (v, rest)
  | None => fail (Exec_UndefinedVariable name (mkSpan start_pos start_pos))
  end.

(** What the text at [pos] stands for, and the text that follows it: a round of
    the loop of [expand_heredoc_body]. *)
Definition expand_piece (expand : string → M string) (pos : nat) (a : ascii) (s : string) :
    M (string * string) :=
  if Ascii.eqb a "$" then
    match s with
    | String "{" s' => expand_braced_var expand pos s'
    | String "(" s' => expand_command_subst s'
    | String c _ => if is_valid_variable_start c then expand_simple_var pos s else mret ("$", s)
    | EmptyString => mret ("$", s)
    end
  else if Ascii.eqb a "`" then expand_backtick_subst s
  else if Ascii.eqb a "\" then
    match s with
    | String c s' =>
        if Ascii.eqb c "$" || Ascii.eqb c "`" || Ascii.eqb c "\" then mret (String c "", s')
        else if Ascii.eqb c newline then mret ("", s')
        else mret ("\", s)
    | EmptyString => mret ("\", s)
    end
  else mret (String a "", s).

Fixpoint expand_text (fuel : nat) (body result s : string) : M string :=
  match s with
  | EmptyString => mret result
  | String a s' =>
      match fuel with
      | O => lift NoFuel
      | S fuel =>
          piece ← expand_piece (λ text, expand_text fuel text "" text)
                    (String.length body - String.length s) a s';
          expand_text fuel body (result +:+ piece.1) piece.2
      end
  end.

(** [expand_heredoc_body]; every round and every nested text is shorter. *)
Definition expand_heredoc_body (body : string) : M string :=
  expand_text (String.length body) body "" body.

(** ** Words: [expand/word.rs] *)

(** [get_user_home] *)
Definition get_user_home (username : string) : option string :=
  match os_user with
  | Some current => if String.eqb username current then os_home_dir else None
  | None => None
  end.

Definition expand_tilde (text : string) : string :=
  match text with
  | String "~" rest =>
      let '(prefix, suffix) :=
        match split_once "/" rest with
        | Some (prefix, after) => (prefix, "/" +:+ after)
        | None => (rest, "")
        end in
      match (if is_empty prefix then os_home_dir else get_user_home prefix) with
      | Some home => home +:+ suffix
      | None => text
      end
  | _ => text
  end.

Definition resolve_special_variable (c : ExecContext) (name : string) : option string :=
  if String.eqb name "?" then Some (pretty (cx_last_exit_code c))
  else if String.eqb name "$" then Some (pretty os_pid)
  else if String.eqb name "#" then Some "0"
  else if String.eqb name "0" then Some "oj-shell"
  else None.

(** The value of a [Part_Variable]. *)
Definition expand_variable (name : string) (modifier : option string) (span : Span) : M string :=
  c ← context;
  let value := match resolve_special_variable c name with
               | Some v => Some v
               | None => cx_variables c !! name
               end in
  match modifier with
  | Some m => apply_modifier expand_heredoc_body name m value span
  | None => match value with Some v => mret v | None => fail (Exec_UndefinedVariable name span) end
  end.

(** The output of a [Part_Substitution]. *)
Definition expand_substitution (body : SubstitutionBody) : M string :=
  output ← execute_substitution body; mret (trim_end_char newline output).

(** A literal, with a tilde at the start of an unquoted first one. *)
Definition expand_literal (is_first : bool) (value : string) (quoted : QuoteStyle) : string :=
  match quoted with
  | Unquoted => if is_first && starts_with "~" value then expand_tilde value else value
  | _ => value
  end.

Fixpoint expand_parts (span : Span) (is_first : bool) (parts : list WordPart) (result : GlobEligibility) :
    M GlobEligibility :=
  match parts with
  | [] => mret result
  | part :: parts =>
      result ← match part with
               | Part_Literal value Unquoted =>
                   mret (push_eligible_with_escapes (expand_literal is_first value Unquoted) result)
               | Part_Literal value _ => mret (push_ineligible value result)
               | Part_Variable name modifier =>
                   expanded ← expand_variable name modifier span;
                   mret (push_ineligible expanded result)
               | Part_Substitution body _ =>
                   output ← expand_substitution body;
                   mret (push_ineligible output result)
               end;
      expand_parts span false parts result
  end.

(** [expand_word_with_eligibility], [expand_word] *)
Definition expand_word_with_eligibility (word : Word) : M GlobEligibility :=
  expand_parts (wd_span word) true (wd_parts word) GlobEligibility_new.
Definition expand_word (word : Word) : M string :=
  eligibility ← expand_word_with_eligibility word; mret (ge_text eligibility).
End Expand.

(** ** Fields *)

Record ExpandedField := mkField {
  fd_text : string;
  fd_glob_eligible : list bool;
  fd_splittable : bool
}.

Definition field_literal (text : string) (glob_eligible process_escapes : bool) : ExpandedField :=
  if process_escapes then
    let '(text, eligible) := process_glob_escapes text in mkField text eligible false
  else mkField text (repeat glob_eligible (String.length text)) false.
Definition field_splittable (text : string) : ExpandedField :=
  mkField text (repeat false (String.length text)) true.

(** [byte as char], as UTF-8: a byte that is not ASCII becomes two. *)
Definition byte_as_char (a : ascii) : string :=
  if (byte a <? 128)%N then String a ""
  else String (Ascii.ascii_of_N (192 + byte a / 64))
         (String (Ascii.ascii_of_N (128 + byte a mod 64)) "").

(** The bytes of a part that is not split; a byte without a flag is not
    eligible. *)
Fixpoint push_bytes (s : string) (eligible : list bool) (g : GlobEligibility) : GlobEligibility :=
  match s with
  | EmptyString => g
  | String a s' =>
      push_bytes s' (tail eligible) (push_marked (default false (head eligible)) (byte_as_char a) g)
  end.

Definition in_ifs (ifs ch : string) : bool := existsb (String.eqb ch) (chars ifs).

(** The fields so far, the current one, and [has_content]. *)
Definition Splitting : Type := list GlobEligibility * GlobEligibility * bool.

Definition open_field (current : GlobEligibility) (has_content : bool) : bool :=
  negb (is_empty (ge_text current)) || has_content.

(** The characters of a part that is split; while [skipping], the inner loop
    takes separators. *)
Fixpoint split_chars (ifs : string) (skipping : bool) (cs : list string) (st : Splitting) : Splitting :=
  match cs with
  | [] => st
  | ch :: cs =>
      let '(fields, current, has_content) := st in
      if in_ifs ifs ch then
        if skipping then split_chars ifs true cs st
        else split_chars ifs true cs
               (if open_field current has_content
                then ((fields ++ [current])%list, GlobEligibility_new, false) else st)
      else split_chars ifs false cs (fields, push_ineligible ch current, true)
  end.

Definition split_part (ifs : string) (st : Splitting) (part : ExpandedField) : Splitting :=
  let '(fields, current, has_content) := st in
  if negb (fd_splittable part)
  then (fields, push_bytes (fd_text part) (fd_glob_eligible part) current, true)
  else split_chars ifs false (chars (fd_text part)) st.

Definition split_fields_with_eligibility (parts : list ExpandedField) (ifs : string) :
    list GlobEligibility :=
  match parts with
  | [] => []
  | _ =>
      if is_empty ifs then
        let result := foldl (λ g part, push_bytes (fd_text part) (fd_glob_eligible part) g)
                        GlobEligibility_new parts in
        if is_empty (ge_text result) then [] else [result]
      else
        let '(fields, current, has_content) :=
          foldl (split_part ifs) ([], GlobEligibility_new, false) parts in
        if open_field current has_content then (fields ++ [current])%list else fields
  end.

Definition is_quoted_literal (part : WordPart) : bool :=
  match part with
  | Part_Literal _ SingleQuote | Part_Literal _ DoubleQuote => true
  | _ => false
  end.
Definition is_unquoted_literal (part : WordPart) : bool :=
  match part with Part_Literal _ Unquoted => true | _ => false end.
Definition is_fully_quoted (word : Word) : bool :=
  forallb (λ p, negb (is_unquoted_literal p)) (wd_parts word)
  && existsb is_quoted_literal (wd_parts word).

Definition get_ifs (c : ExecContext) : string := default (cx_ifs c) (cx_variables c !! "IFS").

Section Fields.
Context {W : Type} `{OS : !ShellOS W}.
Abbreviation M := (SX W) (only parsing).
Context (execute_substitution : SubstitutionBody → M string).

Fixpoint expand_fields (span : Span) (is_first : bool) (parts : list WordPart)
    (fields : list ExpandedField) : M (list ExpandedField) :=
  match parts with
  | [] => mret fields
  | part :: parts =>
      field ← match part with
              | Part_Literal value quoted =>
                  let is_unquoted := bool_decide (quoted = Unquoted) in
                  mret (field_literal (expand_literal is_first value quoted) is_unquoted is_unquoted)
              | Part_Variable name modifier =>
                  expanded ← expand_variable execute_substitution name modifier span;
                  mret (field_splittable expanded)
              | Part_Substitution body _ =>
                  output ← expand_substitution execute_substitution body;
                  mret (field_splittable output)
              end;
      expand_fields span false parts (fields ++ [field])%list
  end.

(** The names that a field stands for. *)
Definition glob_field (config : GlobConfig) (span : Span) (field : GlobEligibility) : M (list string) :=
  if has_glob_pattern field then
    λ sh, (expand_glob_pattern (ge_text field) (cx_cwd (sh_ctx sh)) config span (sh_world sh), sh)
  else mret [ge_text field].

Definition expand_word_split_glob (word : Word) (config : GlobConfig) : M (list string) :=
  if is_fully_quoted word then
    result ← expand_word execute_substitution word; mret [result]
  else
    parts ← expand_fields (wd_span word) true (wd_parts word) [];
    c ← context;
    names ← collect_each (glob_field config (wd_span word))
              (split_fields_with_eligibility parts (get_ifs c));
    mret (concat names).
End Fields.

Local Close Scope string_scope.
