(* ===== verification/ShellExec.v ===== *)
(** The execution of scripts: [crates/shell/src/exec/run.rs], [redirect.rs],
    [result.rs] and [mod.rs].

    Scripts nest: a group or a substitution holds a list of commands, and a text
    may hold a substitution that is parsed when it is reached.  The fuel of
    [execute_command_list] bounds the nesting. *)

From S2P Require Import Prelude Ids Bytes Slug Runtime RunbookFind ShellAst ShellParser RunbookImport.
From S2P Require Import Suggest ShellExpand.

Local Open Scope string_scope.

(** ** Results *)

Record CommandTrace := mkTrace {
  ct_command : string;
  ct_args : list string;
  ct_exit_code : Z;
  ct_duration : Z;
  ct_stdout_snippet : option string;
  ct_stderr_snippet : option string;
  ct_span : Span
}.

Record ExecOutput := mkExecOutput { eo_exit_code : Z; eo_traces : list CommandTrace }.

(** [String::from_utf8_lossy]: the replacement character stands for each longest
    start of a character that goes no further, and for a byte that starts none. *)
Definition replacement : string :=
  String "239" (String "191" (String "189" EmptyString)).

(** What may follow the first byte of a character of more than one byte: the
    range of the second byte, and how many others follow it. *)
Definition utf8_second (a : ascii) : option (N * N * nat) :=
  if in_range 194 223 a then Some (128%N, 191%N, 0)
  else if in_range 224 239 a then
    Some (if (byte a =? 224)%N then 160%N else 128%N, if (byte a =? 237)%N then 159%N else 191%N, 1)
  else if in_range 240 244 a then
    Some (if (byte a =? 240)%N then 144%N else 128%N, if (byte a =? 244)%N then 143%N else 191%N, 2)
  else None.

(** In a character: what was read of it, and the bytes it still needs. *)
Inductive Decoding := Between | Inside (read : string) (lo hi : N) (more : nat).

Definition start_char (a : ascii) : string * Decoding :=
  if (byte a <? 128)%N then (String a "", Between)
  else match utf8_second a with
       | Some (lo, hi, more) => ("", Inside (String a "") lo hi more)
       | None => (replacement, Between)
       end.

Fixpoint lossy_from (state : Decoding) (s : string) : string :=
  match s with
  | EmptyString => match state with Between => "" | Inside _ _ _ _ => replacement end
  | String a s' =>
      match state with
      | Inside read lo hi more =>
          if in_range lo hi a then
            match more with
            | O => read +:+ String a (lossy_from Between s')
            | S more => lossy_from (Inside (read +:+ String a "") 128 191 more) s'
            end
          else let '(out, state) := start_char a in replacement +:+ out +:+ lossy_from state s'
      | Between => let '(out, state) := start_char a in out +:+ lossy_from state s'
      end
  end.
Definition from_utf8_lossy (s : string) : string := lossy_from Between s.

(** The last boundary of a character at or before [end_]. *)
Fixpoint boundary_before (s : string) (end_ : nat) : nat :=
  match end_ with
  | O => 0
  | S end' => if is_char_boundary s end_ then end_ else boundary_before s end'
  end.

Definition truncate_snippet (bytes : string) (limit : Z) : option string :=
  if is_empty bytes then None
  else
    let s := from_utf8_lossy bytes in
    if (Z.of_nat (String.length s) <=? limit)%Z then Some s
    else Some (take_str (boundary_before s (Z.to_nat (Z.min limit (Z.of_nat (String.length s))))) s).

(** ** Redirections *)

Inductive StdioConfig :=
  | Cfg_Default
  | Cfg_File (path : string) (append : bool)
  | Cfg_Null
  | Cfg_PipedData.

#[global] Instance StdioConfig_eq_dec : EqDecision StdioConfig.
Proof. solve_decision. Defined.

(** The three streams, and the data for the input. *)
Record Streams := mkStreams {
  st_stdin : StdioConfig;
  st_stdout : StdioConfig;
  st_stderr : StdioConfig;
  st_data : option string
}.
Definition default_streams : Streams := mkStreams Cfg_Default Cfg_Default Cfg_Default None.

Definition set_stdin (cfg : StdioConfig) (data : option string) (s : Streams) : Streams :=
  mkStreams cfg (st_stdout s) (st_stderr s) data.
Definition set_stdout (cfg : StdioConfig) (s : Streams) : Streams :=
  mkStreams (st_stdin s) cfg (st_stderr s) (st_data s).
Definition set_stderr (cfg : StdioConfig) (s : Streams) : Streams :=
  mkStreams (st_stdin s) (st_stdout s) cfg (st_data s).

(** A file descriptor that is not one of the three changes nothing. *)
Definition set_stream (fd : Z) (cfg : StdioConfig) (s : Streams) : Streams :=
  if (fd =? 0)%Z then set_stdin cfg (st_data s) s
  else if (fd =? 1)%Z then set_stdout cfg s
  else if (fd =? 2)%Z then set_stderr cfg s
  else s.
Definition get_stream (fd : Z) (s : Streams) : StdioConfig :=
  if (fd =? 0)%Z then st_stdin s
  else if (fd =? 1)%Z then st_stdout s
  else if (fd =? 2)%Z then st_stderr s
  else Cfg_Default.

(** [<<-]: one tab at the start of each line. *)
Definition strip_tab (line : string) : string := default line (strip_prefix (String "009" "") line).
Definition strip_tabs_of (body : string) : string :=
  String.concat newline_str (strip_tab <$> str_lines body).

(** A child: its number, and which of its ends are still held. *)
Record Child := mkChild { ch_pid : nat; ch_stdin : bool; ch_stdout : bool; ch_stderr : bool }.

Definition is_piped (io : Stdio) : bool := match io with Io_Piped => true | _ => false end.

Section Exec.
Context {W : Type} `{OS : !ShellOS W}.
Abbreviation M := (SX W) (only parsing).

(** A word is expanded with what [execute_substitution] is; see [Run]. *)
Section Redirect.
Context (execute_substitution : SubstitutionBody → M string).
Abbreviation expand_word := (expand_word execute_substitution) (only parsing).

Definition unsupported_fd (what : string) (fd : Z) (span : Span) : ExecError :=
  Exec_Unsupported (what +:+ pretty fd) span.

(** One redirection, on the configuration so far. *)
Definition redirect_stream (redir : Redirection) (s : Streams) : M Streams :=
  match redir with
  | Redir_Out fd target append =>
      path ← expand_word target;
      let n := default 1%Z fd in
      if (n =? 1)%Z then mret (set_stdout (Cfg_File path append) s)
      else if (n =? 2)%Z then mret (set_stderr (Cfg_File path append) s)
      else fail (unsupported_fd "redirection to fd " n (wd_span target))
  | Redir_In fd source =>
      path ← expand_word source;
      let n := default 0%Z fd in
      if (n =? 0)%Z then mret (set_stdin (Cfg_File path false) None s)
      else fail (unsupported_fd "input redirection to fd " n (wd_span source))
  | Redir_HereDoc _ _ body strip_tabs quoted =>
      let stripped := if strip_tabs then strip_tabs_of body else body in
      content ← (if quoted then mret stripped else expand_heredoc_body execute_substitution stripped);
      mret (set_stdin Cfg_PipedData (Some content) s)
  | Redir_HereString _ content =>
      expanded ← expand_word content;
      mret (set_stdin Cfg_PipedData (Some (expanded +:+ newline_str)) s)
  | Redir_Both append target =>
      path ← expand_word target;
      mret (set_stderr (Cfg_File path append) (set_stdout (Cfg_File path append) s))
  | Redir_Duplicate source Dup_Close _ => mret (set_stream source Cfg_Null s)
  | Redir_Duplicate source (Dup_Fd dest_fd) output =>
      let src_config := get_stream dest_fd s in
      mret (if output then
              if (source =? 1)%Z then set_stdout src_config s
              else if (source =? 2)%Z then set_stderr src_config s else s
            else if (source =? 0)%Z then set_stdin src_config (st_data s) s else s)
  end.

Fixpoint redirect_streams (redirs : list Redirection) (s : Streams) : M Streams :=
  match redirs with
  | [] => mret s
  | redir :: redirs => s ← redirect_stream redir s; redirect_streams redirs s
  end.

(** [open_read], [open_write] *)
Definition open_read (path : string) (cwd : PathBuf) (span : Span) : M nat :=
  try_system (λ e, Exec_RedirectFailed ("cannot open '" +:+ path +:+ "' for reading") e span)
    (os_open_read (path_push cwd path)).
Definition open_write (path : string) (append : bool) (cwd : PathBuf) (span : Span) : M nat :=
  try_system (λ e, Exec_RedirectFailed ("cannot open '" +:+ path +:+ "' for "
                                        +:+ (if append then "appending" else "writing")) e span)
    (os_open_write (path_push cwd path) append).

Definition apply_stdin (cfg : StdioConfig) (given : Stdio) (cwd : PathBuf) (span : Span) : M Stdio :=
  match cfg with
  | Cfg_Default => mret given
  | Cfg_File path _ => file ← open_read path cwd span; mret (Io_File file)
  | Cfg_Null => mret Io_Null
  | Cfg_PipedData => mret Io_Piped
  end.

Definition apply_output (cfg : StdioConfig) (given : Stdio) (cwd : PathBuf) (span : Span) : M Stdio :=
  match cfg with
  | Cfg_Default => mret given
  | Cfg_File path append => file ← open_write path append cwd span; mret (Io_File file)
  | Cfg_Null => mret Io_Null
  | Cfg_PipedData => mret given
  end.

(** The two outputs; one file for both is opened once. *)
Definition apply_outputs (out err : StdioConfig) (cwd : PathBuf) (given_out given_err : Stdio) :
    M (Stdio * Stdio) :=
  let span := mkSpan 0 0 in
  let apart :=
    o ← apply_output out given_out cwd span; e ← apply_output err given_err cwd span; mret (o, e) in
  match out, err with
  | Cfg_File path1 append1, Cfg_File path2 append2 =>
      if String.eqb path1 path2 && Bool.eqb append1 append2 then
        file ← open_write path1 append1 cwd span;
        file_clone ← try_system
                       (λ e, Exec_RedirectFailed ("cannot clone file handle for '" +:+ path1 +:+ "'") e span)
                       (os_try_clone file);
        mret (Io_File file, Io_File file_clone)
      else apart
  | _, _ => apart
  end.

(** [apply_redirections]: the process with its streams, and the data for its
    input. *)
Definition apply_redirections (process : ProcessSpec) (redirs : list Redirection) :
    M (ProcessSpec * option string) :=
  s ← redirect_streams redirs default_streams;
  c ← context;
  stdin ← apply_stdin (st_stdin s) (pr_stdin process) (cx_cwd c) (mkSpan 0 0);
  '(out, err) ← apply_outputs (st_stdout s) (st_stderr s) (cx_cwd c) (pr_stdout process) (pr_stderr process);
  mret (mkProcess (pr_program process) (pr_args process) (pr_cwd process) (pr_envs process) stdin out err,
        st_data s).

(** [apply_captured_redirections]: what was captured is written to the files;
    whether each output was. *)
Definition write_captured (path data : string) (file : nat) (span : Span) : M unit :=
  try_system_unit (λ e, Exec_RedirectFailed ("cannot write to '" +:+ path +:+ "'") e span)
    (os_write_all file data).

Fixpoint apply_captured_redirections (redirs : list Redirection) (stdout stderr : string)
    (redirected : bool * bool) : M (bool * bool) :=
  match redirs with
  | [] => mret redirected
  | redir :: redirs =>
      redirected ←
        match redir with
        | Redir_Out fd target append =>
            path ← expand_word target;
            let n := default 1%Z fd in
            c ← context;
            if (n =? 1)%Z then
              file ← open_write path append (cx_cwd c) (wd_span target);
              write_captured path stdout file (wd_span target);;
              mret (true, redirected.2)
            else if (n =? 2)%Z then
              file ← open_write path append (cx_cwd c) (wd_span target);
              write_captured path stderr file (wd_span target);;
              mret (redirected.1, true)
            else fail (unsupported_fd "redirection to fd " n (wd_span target))
        | Redir_Both append target =>
            path ← expand_word target;
            c ← context;
            file ← open_write path append (cx_cwd c) (wd_span target);
            write_captured path stdout file (wd_span target);;
            write_captured path stderr file (wd_span target);;
            mret (true, true)
        | Redir_In _ _ | Redir_HereDoc _ _ _ _ _ | Redir_HereString _ _ | Redir_Duplicate _ _ _ =>
            mret redirected
        end;
      apply_captured_redirections redirs stdout stderr redirected
  end.
End Redirect.

(** ** Processes *)

(** A command with its words expanded. *)
Record ExpandedCmd := mkExpanded {
  xc_name : string;
  xc_args : list string;
  xc_env : list (string * string);
  xc_span : Span;
  xc_redirections : list Redirection
}.

Definition take_out (limit : Z) (c : Child) (output : ExitOutput) : option string :=
  truncate_snippet (if ch_stdout c then ex_stdout output else "") limit.
Definition take_err (limit : Z) (c : Child) (output : ExitOutput) : option string :=
  truncate_snippet (if ch_stderr c then ex_stderr output else "") limit.

Section Process.
Context (execute_substitution : SubstitutionBody → M string).

Definition expand_assignment (ea : EnvAssignment) : M (string * string) :=
  val ← expand_word execute_substitution (ea_value ea); mret (ea_name ea, val).

Definition expand_command (cmd : SimpleCommand) : M ExpandedCmd :=
  name ← expand_word execute_substitution (sc_name cmd);
  args ← collect_each (λ arg, expand_word_split_glob execute_substitution arg GlobConfig_default)
           (sc_args cmd);
  env ← collect_each expand_assignment (sc_env cmd);
  mret (mkExpanded name (concat args) env (sc_span cmd) (sc_redirections cmd)).

Definition process_of (c : ExecContext) (stdin : Stdio) (ec : ExpandedCmd) : ProcessSpec :=
  mkProcess (xc_name ec) (xc_args ec) (cx_cwd c)
    (foldl (λ m kv, <[kv.1 := kv.2]> m) (cx_env c) (xc_env ec)) stdin Io_Piped Io_Piped.

Definition command_spawn_failed (ec : ExpandedCmd) (source : string) : ExecError :=
  Exec_SpawnFailed (xc_name ec) source (xc_span ec).

(** The process is started, and its input written if there is data for it. *)
Definition start_child (stdin : Stdio) (ec : ExpandedCmd) : M Child :=
  c ← context;
  '(process, stdin_data) ← apply_redirections execute_substitution (process_of c stdin ec)
                             (xc_redirections ec);
  pid ← try_system (command_spawn_failed ec) (os_spawn process);
  let child := mkChild pid (is_piped (pr_stdin process)) (is_piped (pr_stdout process))
                 (is_piped (pr_stderr process)) in
  match stdin_data with
  | Some data =>
      if ch_stdin child then
        try_system_unit (command_spawn_failed ec) (os_write_stdin pid data);;
        mret (mkChild pid false (ch_stdout child) (ch_stderr child))
      else mret child
  | None => mret child
  end.

Definition wait_child (ec : ExpandedCmd) (start : Z) (child : Child) : M CommandTrace :=
  output ← try_system (command_spawn_failed ec) (os_wait (ch_pid child));
  end_ ← system os_instant;
  c ← context;
  mret (mkTrace (xc_name ec) (xc_args ec) (default (-1)%Z (ex_code output)) (end_ - start)
          (take_out (cx_snippet_limit c) child output) (take_err (cx_snippet_limit c) child output)
          (xc_span ec)).

(** [execute_simple_command] *)
Definition execute_simple_command (cmd : SimpleCommand) : M (Z * CommandTrace) :=
  start ← system os_instant;
  ec ← expand_command cmd;
  if is_empty (xc_name ec) then
    upd_context (cx_upd_variables (λ vars, foldl (λ m kv, <[kv.1 := kv.2]> m) vars (xc_env ec)));;
    end_ ← system os_instant;
    mret (0%Z, mkTrace "" [] 0 (end_ - start) None None (sc_span cmd))
  else
    child ← start_child Io_Inherit ec;
    trace ← wait_child ec start child;
    mret (ct_exit_code trace, trace).

(** ** Pipelines: [execute_job] *)

Definition Spawned : Type := ExpandedCmd * Z * Child.

Fixpoint spawn_all (is_first : bool) (ecs : list ExpandedCmd) : M (list Spawned) :=
  match ecs with
  | [] => mret []
  | ec :: ecs =>
      start ← system os_instant;
      child ← start_child (if is_first then Io_Inherit else Io_Piped) ec;
      rest ← spawn_all false ecs;
      mret ((ec, start, child) :: rest)
  end.

(** The output of each child goes to the next one, if both ends are there. *)
Fixpoint relay_all (children : list Child) : M unit :=
  match children with
  | from :: ((to :: _) as rest) =>
      (if ch_stdout from && ch_stdin to
       then system (λ w, (tt, os_relay (ch_pid from) (ch_pid to) w)) else mret tt);;
      relay_all rest
  | _ => mret tt
  end.

(** The ends between the children are taken; one that is not relayed is closed. *)
Fixpoint take_ends (is_first : bool) (spawned : list Spawned) : list Spawned :=
  match spawned with
  | [] => []
  | (ec, start, c) :: rest =>
      let is_last := match rest with [] => true | _ => false end in
      (ec, start, mkChild (ch_pid c) (ch_stdin c && is_first) (ch_stdout c && is_last) (ch_stderr c))
        :: take_ends false rest
  end.

(** The code of the last command, and of the last one that failed. *)
Fixpoint job_codes (traces : list CommandTrace) (last_exit : Z) (rightmost_failure : option Z) :
    Z * option Z :=
  match traces with
  | [] => (last_exit, rightmost_failure)
  | t :: traces =>
      job_codes traces (ct_exit_code t)
        (if (ct_exit_code t =? 0)%Z then rightmost_failure else Some (ct_exit_code t))
  end.

Definition job_exit_code (pipefail : bool) (traces : list CommandTrace) : Z :=
  let '(last_exit, rightmost_failure) := job_codes traces 0 None in
  if pipefail then default 0%Z rightmost_failure else last_exit.

Definition execute_job (job : ShellJob) : M (Z * list CommandTrace) :=
  match sj_commands job with
  | [] => mret (0%Z, [])
  | commands =>
      expanded ← collect_each expand_command commands;
      spawned ← spawn_all true expanded;
      relay_all ((λ s : Spawned, s.2) <$> spawned);;
      traces ← collect_each (λ s : Spawned, wait_child s.1.1 s.1.2 s.2) (take_ends true spawned);
      c ← context;
      mret (job_exit_code (cx_pipefail c) traces, traces)
  end.

(** ** Groups *)

(** The traces of one stream, one after the other. *)
Definition joined (snippet : CommandTrace → option string) (traces : list CommandTrace) : string :=
  foldr (λ t rest, default "" (snippet t) +:+ rest) "" traces.

Definition clear_redirected (redirected : bool * bool) (t : CommandTrace) : CommandTrace :=
  mkTrace (ct_command t) (ct_args t) (ct_exit_code t) (ct_duration t)
    (if redirected.1 then None else ct_stdout_snippet t)
    (if redirected.2 then None else ct_stderr_snippet t) (ct_span t).

(** What is done with the output of a group. *)
Definition redirect_group (redirs : list Redirection) (ran : Z * list CommandTrace) :
    M (Z * list CommandTrace) :=
  match redirs with
  | [] => mret ran
  | _ =>
      redirected ← apply_captured_redirections execute_substitution redirs
                     (joined ct_stdout_snippet ran.2) (joined ct_stderr_snippet ran.2) (false, false);
      mret (ran.1, clear_redirected redirected <$> ran.2)
  end.
End Process.

(** [m] on a clone of the context. *)
Definition in_clone {A} (m : M A) : M A := λ sh,
  let '(r, sh') := m sh in (r, mkShell (sh_ctx sh) (sh_world sh')).

(** A command of a group that fails is an exit code; its traces are lost. *)
Definition catch_failed (m : M ExecOutput) : M (Z * list CommandTrace) := λ sh,
  match m sh with
  | (Ok output, sh) => (Ok (eo_exit_code output, eo_traces output), sh)
  | (Err (Exec_CommandFailed _ exit_code _), sh) => (Ok (exit_code, []), sh)
  | (Err e, sh) => (Err e, sh)
  | (NoFuel, sh) => (NoFuel, sh)
  end.

Definition usize_max : Z := 2 ^ 64 - 1.

Section Lists.
(** [execute_command_list], for a list inside another. *)
Context (run_list : CommandList → M ExecOutput).

(** With another limit, which is set back also when [m] fails. *)
Definition with_limit {A} (limit : Z) (m : M A) : M A := λ sh,
  let saved_limit := cx_snippet_limit (sh_ctx sh) in
  let '(r, sh) := m (mkShell (cx_set_limit limit (sh_ctx sh)) (sh_world sh)) in
  (r, mkShell (cx_set_limit saved_limit (sh_ctx sh)) (sh_world sh)).

(** [execute_command_list_capture] *)
Definition execute_command_list_capture (cmd_list : CommandList) : M string :=
  output ← with_limit usize_max (run_list cmd_list);
  mret (joined ct_stdout_snippet (eo_traces output)).

Definition execute_substitution (body : SubstitutionBody) : M string :=
  match body with
  | Sub_Parsed ast => in_clone (execute_command_list_capture ast)
  | Sub_Unparsed text =>
      ast ← lift (map_err Exec_Parse (parse text));
      in_clone (execute_command_list_capture ast)
  end.

Definition execute_subshell (subshell : Subshell) : M (Z * list CommandTrace) :=
  ran ← in_clone (catch_failed (run_list (ss_body subshell)));
  redirect_group execute_substitution (ss_redirections subshell) ran.

Definition execute_brace_group (group : BraceGroup) : M (Z * list CommandTrace) :=
  ran ← catch_failed (run_list (bg_body group));
  redirect_group execute_substitution (bg_redirections group) ran.

Definition execute_command_item (item : CommandItem) : M (Z * list CommandTrace) :=
  if ci_background item then fail (Exec_Unsupported "background execution (&)" (ci_span item))
  else match ci_command item with
       | Cmd_Simple cmd => '(exit_code, trace) ← execute_simple_command execute_substitution cmd;
                           mret (exit_code, [trace])
       | Cmd_Job job => execute_job execute_substitution job
       | Cmd_Subshell subshell => execute_subshell subshell
       | Cmd_BraceGroup group => execute_brace_group group
       end.

(** ** Chains and lists *)

Definition should_run (op : LogicalOp) (last_exit : Z) : bool :=
  match op with
  | Op_And => (last_exit =? 0)%Z
  | Op_Or => negb (last_exit =? 0)%Z
  end.

(** An item of a chain; its exit code is [$?] for the next. *)
Definition run_item (item : CommandItem) : M (Z * list CommandTrace) :=
  ran ← execute_command_item item;
  upd_context (cx_set_last_exit ran.1);;
  mret ran.

Fixpoint run_chain (rest : list (LogicalOp * CommandItem)) (ran : Z * list CommandTrace) :
    M (Z * list CommandTrace) :=
  match rest with
  | [] => mret ran
  | (op, next_item) :: rest =>
      if should_run op ran.1 then
        next ← run_item next_item;
        run_chain rest (next.1, ran.2 ++ next.2)%list
      else run_chain rest ran
  end.

Definition execute_and_or_list (and_or : AndOrList) : M (Z * list CommandTrace) :=
  first ← run_item (ao_first and_or); run_chain (ao_rest and_or) first.

(** The lists of a script, up to one that fails. *)
Fixpoint run_commands (commands : list AndOrList) (ran : Z * list CommandTrace) : M ExecOutput :=
  match commands with
  | [] => mret (mkExecOutput ran.1 ran.2)
  | and_or :: commands =>
      '(exit_code, cmd_traces) ← execute_and_or_list and_or;
      if (exit_code =? 0)%Z then run_commands commands (exit_code, ran.2 ++ cmd_traces)%list
      else
        let failing_cmd := default "" (ct_command <$> last cmd_traces) in
        fail (Exec_CommandFailed failing_cmd exit_code (ao_span and_or))
  end.
End Lists.

Fixpoint execute_command_list (fuel : nat) (cmd_list : CommandList) : M ExecOutput :=
  match fuel with
  | O => lift NoFuel
  | S fuel => run_commands (execute_command_list fuel) (cl_commands cmd_list) (0%Z, [])
  end.

(** ** [ShellExecutor] *)

Record ShellExecutor := mkExecutor {
  se_cwd : option PathBuf;
  se_env : gmap string string;
  se_variables : gmap string string;
  se_snippet_limit : Z;
  se_pipefail : bool
}.
Definition ShellExecutor_new : ShellExecutor := mkExecutor None ∅ ∅ 8192 false.

Definition executor_context (x : ShellExecutor) (w : W) : Res ExecError ExecContext :=
  let at_dir cwd := mkContext cwd (se_env x) (se_variables x) (se_snippet_limit x) (se_pipefail x)
                      (String " " (String "009" (String newline ""))) 0 in
  match se_cwd x with
  | Some p => Ok (at_dir p)
  | None => match os_current_dir w with
            | inl source => Err (Exec_SpawnFailed "" source (mkSpan 0 0))
            | inr cwd => Ok (at_dir cwd)
            end
  end.

Definition shell_execute (fuel : nat) (x : ShellExecutor) (ast : CommandList) (w : W) : Res ExecError ExecOutput * W :=
  match executor_context x w with
  | Ok c => let '(r, sh) := execute_command_list fuel ast (mkShell c w) in (r, sh_world sh)
  | Err e => (Err e, w)
  | NoFuel => (NoFuel, w)
  end.

Definition execute_str (fuel : nat) (x : ShellExecutor) (script : string) (w : W) : Res ExecError ExecOutput * W :=
  match parse script with
  | Ok ast => shell_execute fuel x ast w
  | Err e => (Err (Exec_Parse e), w)
  | NoFuel => (NoFuel, w)
  end.
End Exec.

Local Close Scope string_scope.
