(* ===== verification/ClaudeAgent.v ===== *)
(** Terminal sessions and the agents that run in them.  First the sessions: the trait of [crates/adapters/src/session/mod.rs], the
    adapter for tmux of [session/tmux.rs], the wrapper of [traced.rs], and
    [run_with_timeout] of [subprocess.rs].

    An adapter is an instance of [SessionAdapter] on a world of the client's
    choice.  The processes that the tmux adapter starts are the class [Commands],
    and what it relies on of tmux, for names of plain characters, is [TmuxLaws].  The two checks of
    [is_process_running] run at the same time in the code and one after the other
    here.  Tracing is not modelled. *)

From S2P Require Import Prelude Ids Runbook Bytes Slug Vars Entities Event State RunbookImport Effect.
From S2P Require Import Executor Runtime WorkerQueue JobCreate AgentRuns JobAgents Breadcrumb Suggest.
From S2P Require Import SessionLog ShellExec.

Local Open Scope string_scope.

Inductive SessionError :=
  | Session_NotFound (id : string)
  | Session_SpawnFailed (msg : string)
  | Session_CommandFailed (msg : string).

Definition SessionError_display (e : SessionError) : string :=
  match e with
  | Session_NotFound id => "session not found: " +:+ id
  | Session_SpawnFailed msg => "spawn failed: " +:+ msg
  | Session_CommandFailed msg => "command failed: " +:+ msg
  end.

Class SessionAdapter (Value W : Type) := {
  sa_spawn : string → PathBuf → string → list (string * string) → W → (SessionError + string) * W;
  sa_send : string → string → W → option SessionError * W;
  sa_send_literal : string → string → W → option SessionError * W;
  sa_send_enter : string → W → option SessionError * W;
  sa_kill : string → W → option SessionError * W;
  sa_is_alive : string → W → (SessionError + bool) * W;
  sa_capture_output : string → Z → W → (SessionError + string) * W;
  sa_is_process_running : string → string → W → (SessionError + bool) * W;
  sa_get_exit_code : string → W → (SessionError + option Z) * W;
  sa_configure : string → Value → W → option SessionError * W
}.

(** [TracedSession]: every call is passed on but [configure], which the wrapper
    does not define, so that it is the trait's own, which does nothing. *)
Definition TracedSession {Value W} (inner : SessionAdapter Value W) : SessionAdapter Value W := {|
  sa_spawn := sa_spawn (SessionAdapter := inner);
  sa_send := sa_send (SessionAdapter := inner);
  sa_send_literal := sa_send_literal (SessionAdapter := inner);
  sa_send_enter := sa_send_enter (SessionAdapter := inner);
  sa_kill := sa_kill (SessionAdapter := inner);
  sa_is_alive := sa_is_alive (SessionAdapter := inner);
  sa_capture_output := sa_capture_output (SessionAdapter := inner);
  sa_is_process_running := sa_is_process_running (SessionAdapter := inner);
  sa_get_exit_code := sa_get_exit_code (SessionAdapter := inner);
  sa_configure := λ _ _ w, (None, w)
|}.

(** ** Processes *)

(** How [Command::output] under a timeout ends. *)
Inductive CommandEnd :=
  | Cmd_Output (o : ProcessOutput)
  | Cmd_IoError (msg : string)
  | Cmd_Elapsed.

Class Commands (Value W : Type) := {
  (** The words of a command, and its timeout in seconds. *)
  command_output : list string → Z → W → CommandEnd * W;
  cwd_exists : PathBuf → W → bool;
  (** [serde_json::from_value]. *)
  tmux_config_from_value : Value → string + TmuxSessionConfig
}.

Definition TMUX_TIMEOUT : Z := 10.

Section Tmux.
Context {Value W : Type} `{CM : !Commands Value W}.

Definition run_with_timeout (cmd : list string) (timeout : Z) (description : string) (w : W) :
    (string + ProcessOutput) * W :=
  let '(e, w) := command_output cmd timeout w in
  (match e with
   | Cmd_Output o => inr o
   | Cmd_IoError io_err => inl (description +:+ " failed: " +:+ io_err)
   | Cmd_Elapsed => inl (description +:+ " timed out after " +:+ pretty timeout +:+ "s")
   end, w).

(** The session named behind [-t]. *)
Fixpoint target_of (args : list string) : string :=
  match args with
  | a :: (b :: _) as rest => if String.eqb a "-t" then b else target_of rest
  | _ => "unknown"
  end.

Definition tmux_output (args : list string) (description : string) (w : W) :
    (SessionError + ProcessOutput) * W :=
  let '(r, w) := run_with_timeout ("tmux" :: args) TMUX_TIMEOUT description w in
  (match r with
   | inl e => inl (Session_CommandFailed e)
   | inr output =>
       if out_success output then inr output else inl (Session_NotFound (target_of args))
   end, w).

Definition tmux_run (args : list string) (description : string) (w : W) : option SessionError * W :=
  let '(r, w) := tmux_output args description w in
  (match r with inl e => Some e | inr _ => None end, w).

(** The result is only logged. *)
Definition tmux_set_option (session_id option value : string) (w : W) : W :=
  (run_with_timeout ["tmux"; "set-option"; "-t"; session_id; option; value] TMUX_TIMEOUT
     "tmux set-option" w).2.

Definition has_session (id : string) (w : W) : (string + ProcessOutput) * W :=
  run_with_timeout ["tmux"; "has-session"; "-t"; id] TMUX_TIMEOUT "tmux has-session" w.
Definition kill_session (id : string) (w : W) : W :=
  (run_with_timeout ["tmux"; "kill-session"; "-t"; id] TMUX_TIMEOUT "tmux kill-session" w).2.

Definition env_args (env : list (string * string)) : list string :=
  concat ((λ kv, ["-e"; kv.1 +:+ "=" +:+ kv.2]) <$> env).

Definition tmux_spawn (name : string) (cwd : PathBuf) (cmd : string) (env : list (string * string))
    (w : W) : (SessionError + string) * W :=
  if negb (cwd_exists cwd w) then
    (inl (Session_SpawnFailed ("working directory does not exist: " +:+ cwd)), w)
  else
    let session_id := "oj-" +:+ name in
    let '(existing, w) := has_session session_id w in
    let w := match existing with
             | inr o => if out_success o then kill_session session_id w else w
             | inl _ => w
             end in
    let tmux_cmd := (["tmux"; "new-session"; "-d"; "-s"; session_id; "-c"; cwd]
                     ++ env_args env ++ [cmd])%list in
    let '(r, w) := run_with_timeout tmux_cmd TMUX_TIMEOUT "tmux new-session" w in
    (match r with
     | inl e => inl (Session_SpawnFailed e)
     | inr output =>
         if out_success output then inr session_id
         else inl (Session_SpawnFailed (from_utf8_lossy (out_stderr output)))
     end, w).

Definition tmux_is_alive (id : string) (w : W) : (SessionError + bool) * W :=
  let '(r, w) := has_session id w in
  (match r with inl e => inl (Session_CommandFailed e) | inr o => inr (out_success o) end, w).

Definition tmux_capture_output (id : string) (lines : Z) (w : W) : (SessionError + string) * W :=
  let '(r, w) := tmux_output ["capture-pane"; "-t"; id; "-p"; "-S"; "-" +:+ pretty lines]
                   "tmux capture-pane" w in
  (match r with inl e => inl e | inr o => inr (from_utf8_lossy (out_stdout o)) end, w).

Definition tmux_is_process_running (id pattern : string) (w : W) : (SessionError + bool) * W :=
  let '(r, w) := tmux_output ["list-panes"; "-t"; id; "-F"; "#{pane_pid}"] "tmux list-panes" w in
  match r with
  | inl e => (inl e, w)
  | inr output =>
      let pane_pid := trim (from_utf8_lossy (out_stdout output)) in
      if is_empty pane_pid then (inr false, w)
      else
        let '(ps, w) := run_with_timeout ["ps"; "-p"; pane_pid; "-o"; "command="] TMUX_TIMEOUT
                          "ps pane check" w in
        match ps with
        | inl e => (inl (Session_CommandFailed e), w)
        | inr ps_output =>
            let '(pgrep, w) := run_with_timeout ["pgrep"; "-P"; pane_pid; "-f"; pattern] TMUX_TIMEOUT
                                 "pgrep child check" w in
            match pgrep with
            | inl e => (inl (Session_CommandFailed e), w)
            | inr pgrep_output =>
                (inr ((out_success ps_output && contains pattern (from_utf8_lossy (out_stdout ps_output)))
                      || out_success pgrep_output), w)
            end
        end
  end.

Definition tmux_get_exit_code (id : string) (w : W) : (SessionError + option Z) * W :=
  let '(r, w) := tmux_output ["display-message"; "-t"; id; "-p"; "#{pane_dead_status}"]
                   "tmux display-message" w in
  (match r with
   | inl e => inl e
   | inr o => inr (parse_i32 (trim (from_utf8_lossy (out_stdout o))))
   end, w).

Definition set_if (o : option string) (f : string → W → W) (w : W) : W :=
  match o with Some v => f v w | None => w end.

Definition tmux_configure (id : string) (config : Value) (w : W) : option SessionError * W :=
  match tmux_config_from_value config with
  | inl e => (Some (Session_CommandFailed ("invalid tmux config: " +:+ e)), w)
  | inr config =>
      let w := set_if (tmux_color config)
                 (λ color, tmux_set_option id "status-style" ("bg=" +:+ color +:+ ",fg=black")) w in
      let w := set_if (tmux_title config)
                 (λ title w, tmux_set_option id "set-titles-string" title
                               (tmux_set_option id "set-titles" "on" w)) w in
      (None,
       match tmux_status config with
       | None => w
       | Some status =>
           set_if (status_right status) (λ right, tmux_set_option id "status-right" (" " +:+ right +:+ " "))
             (set_if (status_left status) (λ left, tmux_set_option id "status-left" (" " +:+ left +:+ " ")) w)
       end)
  end.

Definition TmuxAdapter : SessionAdapter Value W := {|
  sa_spawn := tmux_spawn;
  sa_send id input := tmux_run ["send-keys"; "-t"; id; input] "tmux send-keys";
  sa_send_literal id text :=
    tmux_run ["send-keys"; "-t"; id; "-l"; "--"; text] "tmux send-keys literal";
  sa_send_enter id := tmux_run ["send-keys"; "-t"; id; "Enter"] "tmux send-keys enter";
  sa_kill id w := (None, kill_session id w);
  sa_is_alive := tmux_is_alive;
  sa_capture_output := tmux_capture_output;
  sa_is_process_running := tmux_is_process_running;
  sa_get_exit_code := tmux_get_exit_code;
  sa_configure := tmux_configure
|}.
End Tmux.

Arguments TmuxAdapter {Value W CM}.

(** ** What tmux is relied on for *)

(** A letter, a digit, [-] or [_]. *)
Definition session_char (a : ascii) : bool := is_alnum a || Ascii.eqb a "-" || Ascii.eqb a "_".

(** The names that the adapter gives its sessions when it is asked for a name of
    letters, digits, [-] and [_], as [generate_session_name] makes them: nothing in
    them is a pattern, an identifier or a part of a target for tmux ([$], [@],
    [=], [:], [.], [*], [?], [[]), and tmux keeps them as they are. *)
Definition plain_name (id : string) : bool :=
  starts_with "oj-" id && all_chars session_char id.

(** What tmux makes of a target of that kind: a session of that name, or the only
    one whose name starts with it. *)
Definition resolve_target (live : gset string) (id : string) : option string :=
  if decide (id ∈ live) then Some id
  else match filter (λ s, starts_with id s) (elements live) with [s] => Some s | _ => None end.

(** tmux as nobody else uses it meanwhile, for plain names only. *)
Class TmuxLaws {Value W : Type} (CM : Commands Value W) (live : W → gset string) := {
  has_session_law id w e w' : plain_name id = true →
    command_output ["tmux"; "has-session"; "-t"; id] TMUX_TIMEOUT w = (e, w') →
    live w' = live w ∧
    ∀ o, e = Cmd_Output o → out_success o = bool_decide (is_Some (resolve_target (live w) id));
  (** A command that does not end in time may have had its effect. *)
  kill_session_law id w e w' : plain_name id = true →
    command_output ["tmux"; "kill-session"; "-t"; id] TMUX_TIMEOUT w = (e, w') →
    let killed := match resolve_target (live w) id with
                  | Some s => live w ∖ {[s]}
                  | None => live w
                  end in
    live w' = killed ∨ (live w' = live w ∧ ∀ o, e ≠ Cmd_Output o);
  new_session_law id args w e w' : plain_name id = true →
    command_output ("tmux" :: "new-session" :: "-d" :: "-s" :: id :: args) TMUX_TIMEOUT w = (e, w') →
    match e with
    | Cmd_Output o =>
        if out_success o then live w' = {[id]} ∪ live w ∧ id ∉ live w else live w' = live w
    | _ => live w' = live w ∨ live w' = {[id]} ∪ live w
    end
}.

Section TmuxSpec.
Context {Value W : Type} {CM : Commands Value W} {live : W → gset string} `{TL : !TmuxLaws CM live}.

Lemma resolve_target_prefix l id s : resolve_target l id = Some s → s ∈ l ∧ starts_with id s = true.
Proof.
  unfold resolve_target. case_decide as Hin.
  { intros [= <-]. split; [done |]. apply starts_with_spec. exists "". by rewrite string_app_nil_r. }
  destruct (filter _ (elements l)) as [|s' [|]] eqn:E; [done | | done]. intros [= <-].
  assert (s' ∈ filter (λ s, starts_with id s) (elements l)) as [H1 H2]%list_elem_of_filter
    by (rewrite E; by apply list_elem_of_here).
  split; [by apply elem_of_elements | by apply Is_true_true].
Qed.

Lemma kill_session_spares id w s :
  plain_name id = true → s ∈ live w → starts_with id s = false → s ∈ live (kill_session id w).
Proof.
  intros Hid Hs Hp. unfold kill_session, run_with_timeout.
  destruct (command_output _ _ w) as [e w'] eqn:E. simpl.
  destruct (kill_session_law id w e w' Hid E) as [H | [-> _]]; [| done]. rewrite H.
  destruct (resolve_target (live w) id) as [t|] eqn:Et; [| done].
  apply resolve_target_prefix in Et as [_ Ht].
  apply elem_of_difference. split; [done |]. intros ->%elem_of_singleton. congruence.
Qed.

(** A kill that ends leaves no session of that name. *)
Lemma kill_session_gone id w o w' :
  plain_name id = true →
  command_output ["tmux"; "kill-session"; "-t"; id] TMUX_TIMEOUT w = (Cmd_Output o, w') →
  id ∉ live w'.
Proof.
  intros Hid E. destruct (kill_session_law id w _ w' Hid E) as [H | [_ H]]; [| by destruct (H o)]. rewrite H.
  unfold resolve_target. case_decide as Hin; [set_solver |].
  destruct (filter _ _) as [|s [|]]; [done | | done]. intros [? _]%elem_of_difference. done.
Qed.

(** A session with a plain name that the tmux adapter reports as started has the
    name asked for with a prefix and is alive, and no other session was ended but
    one whose name starts with it (an older one of that name is, if tmux ends it
    in time). *)
Lemma tmux_session_started name cwd cmd env w id w' :
  all_chars session_char name = true →
  sa_spawn (SessionAdapter := TmuxAdapter) name cwd cmd env w = (inr id, w') →
  id = "oj-" +:+ name ∧ id ∈ live w' ∧
  (∀ s, s ∈ live w → starts_with id s = false → s ∈ live w') ∧
  (∀ s, s ∈ live w' → s = id ∨ s ∈ live w) ∧
  ∀ b w2, sa_is_alive (SessionAdapter := TmuxAdapter) id w' = (inr b, w2) → b = true.
Proof.
  intros Hname. assert (plain_name ("oj-" +:+ name) = true) as Hid by exact Hname.
  simpl. unfold tmux_spawn. destruct (negb _); [done |].
  destruct (has_session ("oj-" +:+ name) w) as [ex w1] eqn:E1.
  unfold has_session, run_with_timeout in E1.
  destruct (command_output _ _ w) as [e1 w1'] eqn:E1c. injection E1 as _ <-.
  destruct (has_session_law _ _ _ _ Hid E1c) as [Hl1 _]. clear E1c e1.
  set (w2 := match ex with inr o => _ | inl _ => w1' end).
  assert ((∀ s, s ∈ live w → starts_with ("oj-" +:+ name) s = false → s ∈ live w2) ∧
          ∀ s, s ∈ live w2 → s ∈ live w) as [Hspare Hsub].
  { rewrite <- Hl1. unfold w2. destruct ex as [|o]; [done |]. destruct (out_success o); [| done].
    split; [intros s; by apply kill_session_spares |]. intros s. unfold kill_session, run_with_timeout.
    destruct (command_output _ _ w1') as [e w''] eqn:E. simpl.
    destruct (kill_session_law _ _ _ _ Hid E) as [-> | [-> _]]; [| done].
    destruct (resolve_target _ _); set_solver. }
  clearbody w2. unfold run_with_timeout.
  destruct (command_output _ _ w2) as [e3 w3] eqn:E3. apply new_session_law in E3; [| done].
  destruct e3 as [o | m | ]; [| done..]. destruct (out_success o); [| done].
  intros [= <- <-]. destruct E3 as [Hlive _]. rewrite Hlive. split_and!; [done | set_solver.. |].
  intros b w4. unfold tmux_is_alive, has_session, run_with_timeout.
  destruct (command_output _ _ w3) as [e4 w4'] eqn:E4.
  destruct (has_session_law _ _ _ _ Hid E4) as [_ Ho]. destruct e4 as [o'| |]; [| done..].
  intros [= <- _]. rewrite (Ho o' eq_refl). apply bool_decide_eq_true. rewrite Hlive.
  unfold resolve_target. rewrite decide_True by set_solver. by eexists.
Qed.
End TmuxSpec.

(** The wrapper drops the configuration of a session. *)
Lemma traced_configure_dropped {Value W} (S : SessionAdapter Value W) id config w :
  sa_configure (SessionAdapter := TracedSession S) id config w = (None, w).
Proof. done. Qed.

Local Close Scope string_scope.

(** ** A tmux whose sessions are a set of names *)

Section Witness.
Local Open Scope string_scope.

Definition output_of (ok : bool) : CommandEnd := Cmd_Output (mkOutput (Some (if ok then 0 else 1)%Z) "" "").

#[local] Instance set_tmux : Commands unit (gset string) := {
  command_output cmd _ live :=
    match cmd with
    | ["tmux"; "has-session"; "-t"; id] =>
        (output_of (bool_decide (is_Some (resolve_target live id))), live)
    | ["tmux"; "kill-session"; "-t"; id] =>
        match resolve_target live id with
        | Some s => (output_of true, live ∖ {[s]})
        | None => (output_of false, live)
        end
    | "tmux" :: "new-session" :: "-d" :: "-s" :: id :: _ =>
        if decide (id ∈ live) then (output_of false, live) else (output_of true, {[id]} ∪ live)
    | _ => (Cmd_IoError "no such command", live)
    end;
  cwd_exists _ _ := true;
  tmux_config_from_value _ := inl "none"
}.

#[local] Instance set_tmux_laws : TmuxLaws set_tmux (λ live, live).
Proof.
  split.
  - intros id w e w' _. simpl. intros [= <- <-]. split; [done |]. intros o [= <-].
    by destruct (bool_decide (is_Some (resolve_target w id))).
  - intros id w e w' _. simpl. destruct (resolve_target w id); intros [= <- <-]; by left.
  - intros id args w e w' _. simpl. case_decide; intros [= <- <-]; done.
Qed.

Lemma tmux_session_started_witness :
  ∃ w', sa_spawn (SessionAdapter := TmuxAdapter) "fix-build-1a2b" "/p" "claude" []
          {["oj-fix-build-1a2b"; "oj-other"]} = (inr "oj-fix-build-1a2b", w') ∧
    "oj-fix-build-1a2b" ∈ w' ∧ "oj-other" ∈ w'.
Proof.
  set (w0 := {["oj-fix-build-1a2b"; "oj-other"]} : gset string).
  destruct (sa_spawn (SessionAdapter := TmuxAdapter) "fix-build-1a2b" "/p" "claude" [] w0)
    as [r w'] eqn:E.
  assert (r = inr "oj-fix-build-1a2b") as ->.
  { change r with (r, w').1. rewrite <- E. vm_compute. reflexivity. }
  exists w'. split; [done |].
  destruct (tmux_session_started (live := λ live : gset string, live) "fix-build-1a2b" _ _ _ _ _ _ eq_refl E)
    as (_ & Hin & Hspare & _).
  split; [exact Hin |]. apply Hspare; [set_solver | reflexivity].
Defined.
End Witness.

(** The adapter for Claude: [crates/adapters/src/agent/claude.rs], the watchers of
    [agent/watcher.rs], and the defaults of [env.rs].

    The adapter keeps the registered agents and the watchers it has started; a
    watcher is known by its number, and the sender that would stop it is held by
    its agent's entry, so that a replaced entry stops it too.  A watcher is a step
    function: what wakes it (a change of the file, the timer, the stop), and what
    has happened to the world since, are its inputs.  Sessions are an instance of
    [SessionAdapter]; files, random bytes, the clock and the environment are the
    class [AgentHost].  What runs while the code sleeps is part of [ah_sleep]. *)

Local Open Scope string_scope.

Class AgentHost (W : Type) := {
  ah_exists : PathBuf → W → bool;
  ah_create_dir_all : PathBuf → W → option string * W;
  ah_copy : PathBuf → PathBuf → W → option string * W;
  ah_random_byte : W → Z * W;
  (** [tokio::time::sleep], in milliseconds. *)
  ah_sleep : Z → W → W;
  (** [std::env::var] and [dirs::home_dir]. *)
  ah_env : string → option string;
  ah_home : option PathBuf;
  ah_canonicalize : PathBuf → W → option PathBuf;
  (** The entries that could be read, with their times of modification. *)
  ah_read_dir : PathBuf → W → option (list (PathBuf * option Z));
  (** The bytes of a file that can be opened. *)
  ah_open : PathBuf → W → option string;
  (** [create_file_watcher]: whether it can be made. *)
  ah_watch_file : PathBuf → W → bool * W
}.

Inductive AgentAdapterError :=
  | Agent_NotFound (id : string)
  | Agent_SpawnFailed (msg : string)
  | Agent_SendFailed (msg : string)
  | Agent_KillFailed (msg : string)
  | Agent_SessionError (msg : string)
  | Agent_WorkspaceError (msg : string).

Definition AgentAdapterError_display (e : AgentAdapterError) : string :=
  match e with
  | Agent_NotFound id => "agent not found: " +:+ id
  | Agent_SpawnFailed msg => "spawn failed: " +:+ msg
  | Agent_SendFailed msg => "send failed: " +:+ msg
  | Agent_KillFailed msg => "kill failed: " +:+ msg
  | Agent_SessionError msg => "session error: " +:+ msg
  | Agent_WorkspaceError msg => "workspace error: " +:+ msg
  end.

(** ** Names and commands *)

Definition tmux_char (ch : string) : string :=
  match ch with
  | String a EmptyString =>
      if is_alnum a || Ascii.eqb a "-" || Ascii.eqb a "_" then ch else "-"
  | _ => "-"
  end.

Definition sanitize_for_tmux (s : string) (max_len : nat) : string :=
  let sanitized := foldr String.append "" (tmux_char <$> chars s) in
  let collapsed := String.concat "-" (filter (λ w, negb (is_empty w)) (split_all "-" sanitized)) in
  if (String.length collapsed <=? max_len)%nat then collapsed
  else trim_end_char "-" (take_str max_len collapsed).

Definition hex_digit (n : Z) : string :=
  match String.get (Z.to_nat n) "0123456789abcdef" with Some a => String a "" | None => "" end.

Definition augment_command_for_skip_permissions (command : string) : string :=
  if contains "--dangerously-skip-permissions" command
     && negb (contains "--allow-dangerously-skip-permissions" command)
  then command +:+ " --allow-dangerously-skip-permissions" else command.

(** ** Prompts *)

Inductive PromptResult :=
  | Prompt_Handled
  | Prompt_NotPresent
  | Prompt_Unexpected (output : string).

Record PromptCheck := mkPromptCheck {
  pc_detect : list string;
  pc_match_any : bool;
  pc_response : option string;
  pc_check_errors : bool
}.

Definition prompt_matches (check : PromptCheck) (output : string) : bool :=
  if pc_match_any check then existsb (λ p, contains p output) (pc_detect check)
  else forallb (λ p, contains p output) (pc_detect check).

Definition permissions_check : PromptCheck :=
  mkPromptCheck ["Bypass Permissions mode"; "1. No"; "2. Yes"] false (Some "2") true.
Definition workspace_check : PromptCheck :=
  mkPromptCheck ["Accessing workspace"; "1. Yes"; "2. No"] false (Some "1") true.
Definition login_check : PromptCheck :=
  mkPromptCheck ["Select login method"; "Choose the text style"] true None false.
Definition trust_check : PromptCheck :=
  mkPromptCheck ["Do you trust the files in this folder?"; "Do you trust"] true (Some "y") false.

(** ** Data of watchers and agents *)

Record WatcherConfig := mkWatcherConfig {
  wc_agent_id : AgentId;
  wc_log_session_id : string;
  wc_tmux_session_id : string;
  wc_project_path : PathBuf;
  wc_process_name : string;
  wc_owner : OwnerId
}.

Record WatchLoop := mkWatchLoop {
  wl_log_path : option PathBuf;
  (** Whether there is a watcher of the file. *)
  wl_file_rx : bool;
  wl_parser : SessionLogParser;
  wl_last_state : AgentState;
  wl_last_log_offset : nat
}.

Inductive SessionLogWait :=
  | Log_Found (path : PathBuf)
  | Log_SessionDied
  | Log_Timeout.

Inductive Wake := Wake_File | Wake_Poll | Wake_Shutdown.

Inductive WatchNext :=
  | Watching (st : WatchLoop)
  | Watch_Ended
  | Watch_Panicked.

Record AgentInfo := mkAgentInfo {
  ai_session_id : string;
  ai_workspace_path : PathBuf;
  (** The number of the watcher that the sender stops. *)
  ai_shutdown : option nat
}.

(** The world with the adapter's agents, and the watchers it has started, each with
    whether the adapter has told it to stop (its sender was used or dropped).  That
    is all the adapter knows of them: a watcher that ended by itself, as its
    session was gone or its task panicked, keeps its entry and its flag, and one
    told to stop runs on until it looks at the message, which it does not while it
    waits for its log. *)
Record Claude {W : Type} := mkClaude {
  cl_world : W;
  cl_agents : gmap AgentId AgentInfo;
  cl_watchers : list (WatcherConfig * bool)
}.
Arguments Claude : clear implicits.

Record AgentHandle := mkAgentHandle {
  handle_agent_id : AgentId;
  handle_session_id : string;
  handle_workspace_path : PathBuf
}.

Record AgentReconnectConfig := mkReconnectConfig {
  rc_agent_id : AgentId;
  rc_session_id : string;
  rc_workspace_path : PathBuf;
  rc_process_name : string;
  rc_owner : OwnerId
}.

#[export] Instance AgentState_eq_dec : EqDecision AgentState.
Proof. solve_decision. Defined.

(** ** [env.rs] *)

Section Host.
Context {W : Type} `{AH : !AgentHost W}.

Definition parse_duration_ms (var : string) : option Z := v ← ah_env var; parse_u64 v.
Definition watcher_poll_ms : Z := default 5000%Z (parse_duration_ms "OJ_WATCHER_POLL_MS").
Definition session_poll_ms : Z := default 1000%Z (parse_duration_ms "OJ_SESSION_POLL_MS").
Definition prompt_poll_max_attempts : nat :=
  match parse_duration_ms "OJ_PROMPT_POLL_MS" with
  | Some d => Z.to_nat (Z.max (d / 200) 1)
  | None => 15
  end.

Fixpoint generate_short_random (len : nat) (w : W) : string * W :=
  match len with
  | O => ("", w)
  | S len =>
      let '(b, w) := ah_random_byte w in
      let '(rest, w) := generate_short_random len w in
      (hex_digit (b mod 16) +:+ rest, w)
  end.

Definition generate_session_name (job_name step_name : string) (w : W) : string * W :=
  let sanitized_job := sanitize_for_tmux job_name 20 in
  let sanitized_step := sanitize_for_tmux step_name 15 in
  let '(random_suffix, w) := generate_short_random 4 w in
  (sanitized_job +:+ "-" +:+ sanitized_step +:+ "-" +:+ random_suffix, w).

(** ** Session logs *)

Definition project_dir_name (path : PathBuf) (w : W) : string :=
  let canonical := default path (ah_canonicalize path w) in
  foldr String.append ""
    ((λ ch, if String.eqb ch "/" || String.eqb ch "." then "-" else ch) <$> chars canonical).

(** [max_by_key] of the times: the last of the newest; no time is the oldest. *)
Definition not_older (t t' : option Z) : bool :=
  match t, t' with
  | None, _ => true
  | Some _, None => false
  | Some t, Some t' => (t <=? t')%Z
  end.
Definition newest (es : list (PathBuf * option Z)) : option (PathBuf * option Z) :=
  foldl (λ best e, match best with
                   | Some b => if not_older b.2 e.2 then Some e else Some b
                   | None => Some e
                   end) None es.

Definition find_session_log_in (project_path : PathBuf) (session_id : string) (claude_base : PathBuf)
    (w : W) : option PathBuf :=
  let project_dir :=
    path_join (path_join claude_base "projects") (project_dir_name project_path w) in
  let session_file := path_join project_dir (session_id +:+ ".jsonl") in
  if ah_exists session_file w then Some session_file
  else
    entries ← ah_read_dir project_dir w;
    fst <$> newest (filter (λ e, path_extension e.1 = Some "jsonl") entries).

Definition find_session_log (project_path : PathBuf) (session_id : string) (w : W) : option PathBuf :=
  let claude_base :=
    match ah_env "CLAUDE_CONFIG_DIR" with
    | Some dir => dir
    | None => path_join (default "" ah_home) ".claude"
    end in
  find_session_log_in project_path session_id claude_base w.

Definition prepare_workspace (workspace_path project_root : PathBuf) (w : W) : option string * W :=
  let '(r, w) := ah_create_dir_all workspace_path w in
  match r with
  | Some e => (Some e, w)
  | None =>
      let project_settings := path_join project_root ".claude/settings.json" in
      if ah_exists project_settings w then
        let claude_dir := path_join workspace_path ".claude" in
        let '(r, w) := ah_create_dir_all claude_dir w in
        match r with
        | Some e => (Some e, w)
        | None => ah_copy project_settings (path_join claude_dir "settings.local.json") w
        end
      else (None, w)
  end.

(** ** Prompts on a session *)

Context {Value : Type} `{SA : !SessionAdapter Value W}.

Fixpoint poll_from (attempt n : nat) (session_id : string) (check : PromptCheck) (w : W) :
    (AgentAdapterError + PromptResult) * W :=
  match n with
  | O => (inr Prompt_NotPresent, w)
  | S n =>
      let w := if Nat.eqb attempt 0 then w else ah_sleep 200 w in
      let '(r, w) := sa_capture_output session_id 50 w in
      match r with
      | inl _ => poll_from (S attempt) n session_id check w
      | inr output =>
          if prompt_matches check output then
            match pc_response check with
            | Some key =>
                let '(e, w) := sa_send session_id key w in
                match e with
                | Some e => (inl (Agent_SendFailed (SessionError_display e)), w)
                | None => (inr Prompt_Handled, w)
                end
            | None => (inr Prompt_Handled, w)
            end
          else if pc_check_errors check && (contains "Error:" output || contains "error:" output)
          then (inr (Prompt_Unexpected output), w)
          else poll_from (S attempt) n session_id check w
      end
  end.

Definition poll_for_prompt (session_id : string) (max_attempts : nat) (check : PromptCheck) (w : W) :=
  poll_from 0 max_attempts session_id check w.

(** [check_prompt]; the result is logged. *)
Definition check_prompt (session_id : string) (check : PromptCheck) (w : W) :=
  poll_for_prompt session_id prompt_poll_max_attempts check w.

Definition NOT_AUTHENTICATED : string :=
  "Claude Code is not authenticated. Run `claude` once manually to complete setup.".

Definition handle_startup_prompts (session_id : string) (has_skip_permissions : bool) (w : W) :
    option AgentAdapterError * W :=
  let '(r, w) := if has_skip_permissions then check_prompt session_id permissions_check w
                 else (inr Prompt_NotPresent, w) in
  match r with
  | inl e => (Some e, w)
  | inr _ =>
      let '(r, w) := check_prompt session_id workspace_check w in
      match r with
      | inl e => (Some e, w)
      | inr _ =>
          let '(r, w) := check_prompt session_id login_check w in
          match r with
          | inl e => (Some e, w)
          | inr Prompt_Handled =>
              let '(_, w) := sa_kill session_id w in
              (Some (Agent_SpawnFailed NOT_AUTHENTICATED), w)
          | inr _ => (None, w)
          end
      end
  end.

(** ** Watchers *)

Context `{JV : !JsonValue Value} `{JI : !JsonItem Value} `{SJ : !SessionJson Value}.

Definition check_and_accept_trust_prompt (tmux_session_id : string) (w : W) : bool * W :=
  let '(r, w) := poll_for_prompt tmux_session_id 1 trust_check w in
  (match r with inr Prompt_Handled => true | _ => false end, w).

(** The rounds from the [i]-th on, [n] of them. *)
Fixpoint wait_from (i n : nat) (config : WatcherConfig) (w : W) : SessionLogWait * W :=
  match n with
  | O => (Log_Timeout, w)
  | S n =>
      match find_session_log (wc_project_path config) (wc_log_session_id config) w with
      | Some path => (Log_Found path, w)
      | None =>
          let '(alive, w) := sa_is_alive (wc_tmux_session_id config) w in
          match alive with
          | inr false => (Log_SessionDied, w)
          | _ =>
              let w := if (i <? 5)%nat
                       then (check_and_accept_trust_prompt (wc_tmux_session_id config) w).2 else w in
              wait_from (S i) n config (ah_sleep session_poll_ms w)
          end
      end
  end.
Definition wait_for_session_log_or_exit (config : WatcherConfig) (w : W) : SessionLogWait * W :=
  wait_from 0 30 config w.

Definition state_event (config : WatcherConfig) (state : AgentState) : Event Value :=
  match state with
  | AgentState_WaitingForInput => AgentIdle (wc_agent_id config)
  | _ => from_agent_state (wc_agent_id config) state (wc_owner config)
  end.

(** The exit code that is asked for when the session is gone is only logged. *)
Definition check_liveness (config : WatcherConfig) (w : W) : option AgentState * W :=
  let session_id := wc_tmux_session_id config in
  let '(alive, w) := sa_is_alive session_id w in
  match alive with
  | inr true =>
      let '(running, w) := sa_is_process_running session_id (wc_process_name config) w in
      match running with
      | inr false =>
          let '(code, w) := sa_get_exit_code session_id w in
          (Some (AgentState_Exited (match code with inr c => c | inl _ => None end)), w)
      | _ => (None, w)
      end
  | _ => let '(_, w) := sa_get_exit_code session_id w in (Some AgentState_SessionGone, w)
  end.

(** [watch_agent] up to the loop: the events sent, and the state of the loop
    unless the session has died. *)
Definition watch_start (config : WatcherConfig) (w : W) :
    list (Event Value) * option WatchLoop * W :=
  let '(wait, w) := wait_for_session_log_or_exit config w in
  match wait with
  | Log_SessionDied => ([AgentGone (wc_agent_id config) (wc_owner config)], None, w)
  | Log_Found path =>
      let '(ok, w) := ah_watch_file path w in
      let '(state, parser) := parse_log (ah_open path w) SessionLogParser_new in
      (if decide (state = AgentState_Working) then [] else [state_event config state],
       Some (mkWatchLoop (Some path) ok parser state 0), w)
  | Log_Timeout => ([], Some (mkWatchLoop None false SessionLogParser_new AgentState_Working 0), w)
  end.

(** A round of the loop: the events and the log entries it sends, and what comes
    next.  [log_tx] tells whether there is a channel for entries. *)
Definition watch_step (config : WatcherConfig) (log_tx : bool) (st : WatchLoop) (wake : Wake) (w : W) :
    list (Event Value) * list (AgentId * list AgentLogEntry) * WatchNext * W :=
  match wake with
  | Wake_File =>
      match wl_file_rx st, wl_log_path st with
      | true, Some log =>
          let '(new_state, parser) := parse_log (ah_open log w) (wl_parser st) in
          let events := if decide (new_state = wl_last_state st) then []
                        else [state_event config new_state] in
          let st := mkWatchLoop (wl_log_path st) (wl_file_rx st) parser new_state
                      (wl_last_log_offset st) in
          if log_tx then
            match parse_entries_from (ah_open log w) (wl_last_log_offset st) with
            | None => (events, [], Watch_Panicked, w)
            | Some (entries, new_offset) =>
                (events, match entries with [] => [] | _ => [(wc_agent_id config, entries)] end,
                 Watching (mkWatchLoop (wl_log_path st) (wl_file_rx st) parser new_state new_offset), w)
            end
          else (events, [], Watching st, w)
      | _, _ => ([], [], Watching st, w)
      end
  | Wake_Poll =>
      let '(state, w) := check_liveness config w in
      match state with
      | Some state =>
          ([from_agent_state (wc_agent_id config) state (wc_owner config)], [], Watch_Ended, w)
      | None => ([], [], Watching st, w)
      end
  | Wake_Shutdown => ([], [], Watch_Ended, w)
  end.

(** The loop over what wakes it; before each the world may have changed. *)
Fixpoint watch_loop (config : WatcherConfig) (log_tx : bool) (st : WatchLoop)
    (wakes : list ((W → W) * Wake)) (w : W) : list (Event Value) * WatchNext * W :=
  match wakes with
  | [] => ([], Watching st, w)
  | (change, wake) :: wakes =>
      let '(events, _, next, w) := watch_step config log_tx st wake (change w) in
      match next with
      | Watching st =>
          let '(rest, next, w) := watch_loop config log_tx st wakes w in ((events ++ rest)%list, next, w)
      | _ => (events, next, w)
      end
  end.

(** The whole life of a watcher. *)
Definition watch_agent (config : WatcherConfig) (log_tx : bool) (wakes : list ((W → W) * Wake)) (w : W) :
    list (Event Value) * WatchNext * W :=
  match watch_start config w with
  | (events, Some st, w) =>
      let '(rest, next, w) := watch_loop config log_tx st wakes w in ((events ++ rest)%list, next, w)
  | (events, None, w) => (events, Watch_Ended, w)
  end.

(** ** The adapter *)

Abbreviation C := (Claude W) (only parsing).

Definition set_cl_world (w : W) (c : C) : C := mkClaude W w (cl_agents c) (cl_watchers c).

(** The sender is used or dropped. *)
Definition shut_down (n : option nat) (c : C) : C :=
  match n with
  | Some n => mkClaude W (cl_world c) (cl_agents c) (alter (λ x, (x.1, true)) n (cl_watchers c))
  | None => c
  end.

(** A call on the world. *)
Definition at_world {A} (f : W → A * W) (c : C) : A * C :=
  let '(a, w) := f (cl_world c) in (a, set_cl_world w c).

Definition start_watcher_and_register (config : WatcherConfig) (workspace_path : PathBuf) (c : C) :
    AgentHandle * C :=
  let agent_id := wc_agent_id config in
  let session_id := wc_tmux_session_id config in
  let n := length (cl_watchers c) in
  let c := mkClaude W (cl_world c) (cl_agents c) (cl_watchers c ++ [(config, false)])%list in
  let c := match cl_agents c !! agent_id with
           | Some old => shut_down (ai_shutdown old) c
           | None => c
           end in
  (mkAgentHandle agent_id session_id workspace_path,
   mkClaude W (cl_world c) (<[agent_id := mkAgentInfo session_id workspace_path (Some n)]> (cl_agents c))
     (cl_watchers c)).

(** The working directory, if one is asked for that does not exist. *)
Definition cwd_missing (config : AgentSpawnConfig Value) (w : W) : option PathBuf :=
  cwd ← spawn_cwd config; if ah_exists cwd w then None else Some cwd.

Definition claude_spawn (config : AgentSpawnConfig Value) (c : C) : (AgentAdapterError + AgentHandle) * C :=
  match cwd_missing config (cl_world c) with
  | Some cwd => (inl (Agent_SpawnFailed ("working directory does not exist: " +:+ cwd)), c)
  | None =>
      let '(r, c) := at_world (prepare_workspace (spawn_workspace_path config) (spawn_project_root config)) c in
      match r with
      | Some e => (inl (Agent_WorkspaceError e), c)
      | None =>
          let cwd := default (spawn_workspace_path config) (spawn_cwd config) in
          let '(session_name, c) :=
            at_world (generate_session_name (spawn_job_name config) (spawn_agent_name config)) c in
          let command := augment_command_for_skip_permissions (spawn_command config) in
          let '(r, c) := at_world (sa_spawn session_name cwd command (spawn_env config)) c in
          match r with
          | inl e => (inl (Agent_SessionError (SessionError_display e)), c)
          | inr spawned_id =>
              let c := match spawn_session_config config !! "tmux" with
                       | Some tmux_config => (at_world (sa_configure spawned_id tmux_config) c).2
                       | None => c
                       end in
              let '(r, c) := at_world (handle_startup_prompts spawned_id
                               (contains "--dangerously-skip-permissions" command)) c in
              match r with
              | Some e => (inl e, c)
              | None =>
                  let process_name := extract_process_name (spawn_command config) in
                  let watcher_config :=
                    mkWatcherConfig (spawn_agent_id config) (spawn_agent_id config) spawned_id cwd
                      process_name (spawn_owner config) in
                  let '(h, c) := start_watcher_and_register watcher_config (spawn_workspace_path config) c in
                  (inr h, c)
              end
          end
      end
  end.

Definition claude_reconnect (config : AgentReconnectConfig) (c : C) : AgentHandle * C :=
  let watcher_config :=
    mkWatcherConfig (rc_agent_id config) (rc_agent_id config) (rc_session_id config)
      (rc_workspace_path config) (rc_process_name config) (rc_owner config) in
  start_watcher_and_register watcher_config (rc_workspace_path config) c.

(** Calls one after the other, up to the first that fails. *)
Fixpoint send_keys (n : nat) (session_id : string) (w : W) : option SessionError * W :=
  match n with
  | O => (None, w)
  | S n =>
      let '(e, w) := sa_send session_id "Escape" w in
      match e with
      | Some e => (Some e, w)
      | None => send_keys n session_id (ah_sleep 50 w)
      end
  end.

Definition send_input (session_id input : string) (w : W) : option SessionError * W :=
  let '(e, w) := send_keys 2 session_id w in
  match e with
  | Some e => (Some e, w)
  | None =>
      let '(e, w) := sa_send_literal session_id input w in
      match e with
      | Some e => (Some e, w)
      | None =>
          sa_send_enter session_id
            (ah_sleep (Z.min (100 + Z.of_nat (String.length input)) 2000) w)
      end
  end.

Definition claude_send (agent_id : AgentId) (input : string) (c : C) : option AgentAdapterError * C :=
  match cl_agents c !! agent_id with
  | None => (Some (Agent_NotFound agent_id), c)
  | Some info =>
      let '(e, c) := at_world (send_input (ai_session_id info) input) c in
      ((λ e, Agent_SendFailed (SessionError_display e)) <$> e, c)
  end.

Definition claude_kill (agent_id : AgentId) (c : C) : option AgentAdapterError * C :=
  match cl_agents c !! agent_id with
  | None => (Some (Agent_NotFound agent_id), c)
  | Some info =>
      let c := mkClaude W (cl_world c) (delete agent_id (cl_agents c)) (cl_watchers c) in
      let c := shut_down (ai_shutdown info) c in
      let '(e, c) := at_world (sa_kill (ai_session_id info)) c in
      ((λ e, Agent_KillFailed (SessionError_display e)) <$> e, c)
  end.

Definition claude_get_state (agent_id : AgentId) (c : C) : (AgentAdapterError + AgentState) * C :=
  match cl_agents c !! agent_id with
  | None => (inl (Agent_NotFound agent_id), c)
  | Some info =>
      let '(alive, c) := at_world (sa_is_alive (ai_session_id info)) c in
      match alive with
      | inr true =>
          (inr (match find_session_log (ai_workspace_path info) agent_id (cl_world c) with
                | Some log_path => parse_session_log (ah_open log_path (cl_world c))
                | None => AgentState_Working
                end), c)
      | _ => (inr AgentState_SessionGone, c)
      end
  end.

Definition claude_session_log_size (agent_id : AgentId) (c : C) : option Z :=
  info ← cl_agents c !! agent_id;
  log_path ← find_session_log (ai_workspace_path info) agent_id (cl_world c);
  (λ content, Z.of_nat (String.length content)) <$> ah_open log_path (cl_world c).

Definition claude_last_assistant_message (agent_id : AgentId) (c : C) : option string :=
  info ← cl_agents c !! agent_id;
  log_path ← find_session_log (ai_workspace_path info) agent_id (cl_world c);
  extract_last_assistant_text (ah_open log_path (cl_world c)).

(** The executor's adapters: agents by Claude, sessions as they are, the rest as
    in the world below. *)
Definition claude_adapters (base : Adapters Value W) : Adapters Value C := {|
  agents_spawn config c :=
    let '(r, c) := claude_spawn config c in
    (match r with inl e => inl (AgentAdapterError_display e) | inr h => inr (handle_session_id h) end, c);
  agents_send agent_id input c :=
    let '(e, c) := claude_send agent_id input c in (AgentAdapterError_display <$> e, c);
  agents_kill agent_id c :=
    let '(e, c) := claude_kill agent_id c in (AgentAdapterError_display <$> e, c);
  sessions_send id input c :=
    let '(e, c) := at_world (sa_send id input) c in (SessionError_display <$> e, c);
  sessions_kill id c :=
    let '(e, c) := at_world (sa_kill id) c in (SessionError_display <$> e, c);
  create_parent_dir path := at_world (create_parent_dir path);
  create_dir_all path := at_world (create_dir_all path);
  git_worktree_add repo branch path start := at_world (git_worktree_add repo branch path start);
  git_worktree_remove path branch c := set_cl_world (git_worktree_remove path branch (cl_world c)) c;
  path_exists path c := path_exists path (cl_world c);
  remove_dir_all path := at_world (remove_dir_all path);
  notify title message c := set_cl_world (notify title message (cl_world c)) c
|}.
End Host.

Local Close Scope string_scope.
