(* ===== verification/ClaudeAgentSpec.v ===== *)
(** What the adapter for Claude promises: names that tmux can take, one
    watcher not told to stop for each registered agent whatever the executor runs,
    and watchers that report exactly the changes of a session log that grows or is
    replaced by a shorter one. *)

From S2P Require Import Prelude Ids Bytes Vars Slug Entities Event State Scheduler Effect Executor.
From S2P Require Import Runtime WorkerQueue JobCreate AgentRuns Breadcrumb Suggest SessionLog.
From S2P Require Import SessionLogSpec ClaudeAgent.

Local Open Scope string_scope.

(** ** Names *)

Lemma all_chars_trim_start p c s : all_chars p s = true → all_chars p (trim_start_char c s) = true.
Proof.
  induction s as [|a s IH]; [done |]. simpl. intros H. pose proof H as [_ Hs]%andb_true_iff.
  destruct (Ascii.eqb a c); [by apply IH | done].
Qed.

Lemma length_trim_start c s : (String.length (trim_start_char c s) ≤ String.length s)%nat.
Proof. induction s as [|a s IH]; simpl; [done |]. destruct (Ascii.eqb a c); simpl; lia. Qed.

Lemma tmux_chars_ok cs : all_chars session_char (foldr String.append "" (tmux_char <$> cs)) = true.
Proof.
  induction cs as [|ch cs IH]; [done |]. cbn [fmap list_fmap foldr]. rewrite all_chars_app, IH, andb_true_r.
  destruct ch as [|a [|b ch]]; [done | | done]. simpl.
  destruct (is_alnum a || Ascii.eqb a "-" || Ascii.eqb a "_") eqn:E; [| done].
  simpl. unfold session_char. by rewrite E.
Qed.

Lemma split_all_ok p c s : all_chars p s = true → Forall (λ w, all_chars p w = true) (split_all c s).
Proof.
  induction s as [|a s IH]; simpl; [by repeat constructor |]. intros [Ha Hs]%andb_true_iff.
  specialize (IH Hs). destruct (Ascii.eqb a c); [by constructor |].
  destruct IH as [|w ws Hw Hws]; [repeat constructor; simpl; by rewrite Ha |].
  constructor; [simpl; by rewrite Ha | done].
Qed.

Lemma concat_ok p ws :
  p "-"%char = true → Forall (λ w, all_chars p w = true) ws → all_chars p (String.concat "-" ws) = true.
Proof.
  intros Hp H. induction H as [|w ws Hw Hws IH]; [done |].
  destruct Hws as [|w' ws Hw' Hws]; [done |].
  change (String.concat "-" (w :: w' :: ws)) with (w +:+ "-" +:+ String.concat "-" (w' :: ws)).
  rewrite !all_chars_app, Hw, IH. simpl. by rewrite Hp.
Qed.

Lemma sanitize_safe s n :
  all_chars session_char (sanitize_for_tmux s n) = true ∧ (String.length (sanitize_for_tmux s n) ≤ n)%nat.
Proof.
  unfold sanitize_for_tmux.
  set (collapsed := String.concat _ _).
  assert (all_chars session_char collapsed = true) as Hc.
  { apply concat_ok; [done |]. apply Forall_forall. intros w [_ Hw]%list_elem_of_filter.
    revert w Hw. apply Forall_forall, split_all_ok, tmux_chars_ok. }
  destruct (Nat.leb_spec (String.length collapsed) n) as [Hl|Hl]; [done |].
  unfold trim_end_char. split.
  - rewrite all_chars_rev. apply all_chars_trim_start. rewrite all_chars_rev. by apply all_chars_take.
  - rewrite length_rev_str. pose proof (length_trim_start "-" (rev_str (take_str n collapsed))) as H.
    rewrite length_rev_str, length_take_str in H. lia.
Qed.

Lemma hex_digit_ok n : (0 ≤ n < 16)%Z →
  all_chars session_char (hex_digit n) = true ∧ String.length (hex_digit n) = 1.
Proof.
  intros H. assert (∃ k, n = Z.of_nat k ∧ (k < 16)%nat) as (k & -> & Hk).
  { exists (Z.to_nat n). lia. }
  unfold hex_digit. rewrite Nat2Z.id. do 16 (destruct k as [|k]; [by vm_compute |]). lia.
Qed.

Section Names.
Context {W : Type} `{AH : !AgentHost W}.

Lemma random_ok n (w : W) :
  all_chars session_char (generate_short_random n w).1 = true ∧
  String.length (generate_short_random n w).1 = n.
Proof.
  revert w. induction n as [|n IH]; intros w; simpl; [done |].
  destruct (ah_random_byte w) as [b w1]. specialize (IH w1).
  destruct (generate_short_random n w1) as [rest w2]. simpl in IH |- *.
  destruct (hex_digit_ok (b mod 16)) as [H1 H2]; [apply Z.mod_pos_bound; lia |].
  rewrite all_chars_app, H1, string_length_app, H2. split; [apply IH | lia].
Qed.

(** C0. The name of a session, made of a job's name, an agent's name and random
    bytes, has at most 41 bytes, all of them letters, digits, [-] or [_], whatever
    the names are: no character that tmux would read as part of a target. *)
Theorem session_name_safe job_name step_name (w : W) :
  all_chars session_char (generate_session_name job_name step_name w).1 = true ∧
  (String.length (generate_session_name job_name step_name w).1 ≤ 41)%nat.
Proof.
  unfold generate_session_name. destruct (random_ok 4 w) as [H1 H2].
  destruct (generate_short_random 4 w) as [r w']. simpl in H1, H2.
  destruct (sanitize_safe job_name 20) as [Hj Hjl], (sanitize_safe step_name 15) as [Hs Hsl].
  cbn [fst]. rewrite !all_chars_app, Hj, Hs, H1, !string_length_app. simpl. split; [done | lia].
Qed.
End Names.

Section Spec.
Context {Value W : Type} `{AH : !AgentHost W} {SA : SessionAdapter Value W}.
Context `{JV : !JsonValue Value} `{JI : !JsonItem Value} `{SJ : !SessionJson Value}.
Abbreviation C := (Claude W) (only parsing).
Implicit Types (c : C).

(** ** One watcher for each agent *)

(** The watchers that were not told to stop are those of the registered agents,
    one for each. *)
Definition Claude_wf c : Prop :=
  (∀ n cfg, cl_watchers c !! n = Some (cfg, false) →
     ∃ info, cl_agents c !! wc_agent_id cfg = Some info ∧ ai_shutdown info = Some n) ∧
  (∀ a info, cl_agents c !! a = Some info →
     ∃ n cfg, ai_shutdown info = Some n ∧ cl_watchers c !! n = Some (cfg, false) ∧
       wc_agent_id cfg = a ∧ wc_tmux_session_id cfg = ai_session_id info).

Lemma Claude_wf_world c w : Claude_wf c → Claude_wf (set_cl_world w c).
Proof. done. Qed.

Lemma at_world_wf {A} (f : W → A * W) c : Claude_wf c → Claude_wf (at_world f c).2.
Proof. unfold at_world. destruct (f (cl_world c)). apply Claude_wf_world. Qed.

Lemma at_world_same {A} (f : W → A * W) c :
  cl_agents (at_world f c).2 = cl_agents c ∧ cl_watchers (at_world f c).2 = cl_watchers c.
Proof. unfold at_world. by destruct (f (cl_world c)). Qed.

Lemma alter_stop (l : list (WatcherConfig * bool)) n m cfg :
  alter (λ x, (x.1, true)) n l !! m = Some (cfg, false) ↔ m ≠ n ∧ l !! m = Some (cfg, false).
Proof.
  destruct (decide (m = n)) as [->|Hne].
  - rewrite list_lookup_alter_eq. split; [| by intros []].
    destruct (l !! n) as [[x b]|]; simpl; [| done]. congruence.
  - rewrite list_lookup_alter_ne by done. naive_solver.
Qed.

Lemma kill_wf agent_id info c :
  cl_agents c !! agent_id = Some info → Claude_wf c →
  Claude_wf (shut_down (ai_shutdown info) (mkClaude W (cl_world c) (delete agent_id (cl_agents c)) (cl_watchers c))).
Proof.
  intros Hi [Hrun Hreg]. destruct (Hreg _ _ Hi) as (n & cfg & Hn & Hw & Hid & _). rewrite Hn. split; simpl.
  - intros m cfg' [Hm Hl]%alter_stop. destruct (Hrun m cfg' Hl) as (info' & Ha & Hs).
    exists info'. split; [| done]. rewrite lookup_delete_ne; [done |]. intros Heq.
    rewrite <- Heq, Hi in Ha. congruence.
  - intros a info' Ha. apply lookup_delete_Some in Ha as [Hne Ha].
    destruct (Hreg _ _ Ha) as (n' & cfg' & Hn' & Hw' & Hid' & Hs'). exists n', cfg'. split_and!; try done.
    apply alter_stop. split; [| done]. intros ->. rewrite Hw in Hw'. simplify_eq.
Qed.

Lemma register_wf cfg ws c : Claude_wf c → Claude_wf (start_watcher_and_register cfg ws c).2.
Proof.
  intros [Hrun Hreg]. unfold start_watcher_and_register. simpl.
  set (n := length (cl_watchers c)). set (l := (cl_watchers c ++ [(cfg, false)])%list).
  assert (∀ m x, cl_watchers c !! m = Some x → m ≠ n ∧ l !! m = Some x) as Hold.
  { intros m x Hm. pose proof (lookup_lt_Some _ _ _ Hm). split; [unfold n; lia |].
    unfold l. by apply lookup_app_l_Some. }
  assert (∀ m cfg', l !! m = Some (cfg', false) →
            (m = n ∧ cfg' = cfg) ∨ cl_watchers c !! m = Some (cfg', false)) as Hnew.
  { intros m cfg'. unfold l. intros [H|[Hl H]]%lookup_app_Some; [by right |].
    apply list_lookup_singleton_Some in H as [Hm [= <-]]. left. unfold n. split; [lia | done]. }
  assert (l !! n = Some (cfg, false)) as Hn by (unfold l, n; by rewrite lookup_app_r, Nat.sub_diag).
  destruct (cl_agents c !! wc_agent_id cfg) as [old|] eqn:Eold.
  - destruct (Hreg _ _ Eold) as (k & kcfg & Hk & Hkl & Hkid & _). rewrite Hk. simpl.
    destruct (Hold _ _ Hkl) as [Hkn Hkl']. split; simpl.
    + intros m cfg' [Hmk Hm]%alter_stop. destruct (Hnew _ _ Hm) as [[-> ->]|Hm'].
      { eexists. by rewrite lookup_insert_eq. }
      destruct (Hrun _ _ Hm') as (info & Ha & Hs). exists info. split; [| done].
      rewrite lookup_insert_ne; [done |]. intros Heq. rewrite <- Heq, Eold in Ha. congruence.
    + intros a info [(<- & <-)|[Hne Ha]]%lookup_insert_Some.
      { exists n, cfg. split_and!; try done. by apply alter_stop. }
      destruct (Hreg _ _ Ha) as (n' & cfg' & Hn' & Hw' & Hid' & Hs'). destruct (Hold _ _ Hw') as [Hnn Hw2].
      exists n', cfg'. split_and!; try done. apply alter_stop. split; [| done].
      intros ->. rewrite Hkl in Hw'. simplify_eq.
  - split; simpl.
    + intros m cfg' Hm. destruct (Hnew _ _ Hm) as [[-> ->]|Hm'].
      { eexists. by rewrite lookup_insert_eq. }
      destruct (Hrun _ _ Hm') as (info & Ha & Hs). exists info. split; [| done].
      rewrite lookup_insert_ne; [done |]. intros Heq. by rewrite <- Heq, Eold in Ha.
    + intros a info [(<- & <-)|[Hne Ha]]%lookup_insert_Some; [by exists n, cfg |].
      destruct (Hreg _ _ Ha) as (n' & cfg' & Hn' & Hw' & Hid' & Hs'). destruct (Hold _ _ Hw') as [Hnn Hw2].
      by exists n', cfg'.
Qed.

(** One call on the world in a longer operation. *)
Ltac world_call c1 :=
  match goal with
  | |- context [at_world ?f ?c] =>
      let Hs := fresh "Hsame" in
      pose proof (at_world_same f c) as Hs; destruct (at_world f c) as [? c1]; simpl in Hs
  end.

(** What spawning does: an error registers nothing; a success registers the agent
    with a watcher of its session, its owner and its working directory. *)
Lemma spawn_outcome config c :
  match claude_spawn config c with
  | (inl _, c') => cl_agents c' = cl_agents c ∧ cl_watchers c' = cl_watchers c
  | (inr h, c') =>
      ∃ c1, cl_agents c1 = cl_agents c ∧ cl_watchers c1 = cl_watchers c ∧
        (h, c') = start_watcher_and_register
          (mkWatcherConfig (spawn_agent_id config) (spawn_agent_id config) (handle_session_id h)
             (default (spawn_workspace_path config) (spawn_cwd config))
             (extract_process_name (spawn_command config)) (spawn_owner config))
          (spawn_workspace_path config) c1
  end.
Proof.
  unfold claude_spawn. destruct (cwd_missing _ _) as [cwd|]; [done |].
  world_call c1. destruct o as [e|]; [done |].
  world_call c2. destruct Hsame as [Ha Hw], Hsame0 as [Ha2 Hw2].
  world_call c3. destruct Hsame as [Ha3 Hw3]. destruct s0 as [e|id]; [split; congruence |].
  set (c4 := match spawn_session_config config !! "tmux" with Some _ => _ | None => _ end).
  assert (cl_agents c4 = cl_agents c3 ∧ cl_watchers c4 = cl_watchers c3) as [Ha4 Hw4].
  { unfold c4. destruct (_ !! "tmux"); [apply at_world_same | done]. }
  clearbody c4. world_call c5. destruct Hsame as [Ha5 Hw5].
  destruct o as [e|]; [split; congruence |].
  exists c5. split_and!; [congruence | congruence | done].
Qed.

Lemma spawn_wf config c : Claude_wf c → Claude_wf (claude_spawn config c).2.
Proof.
  intros Hc. pose proof (spawn_outcome config c) as H. destruct (claude_spawn config c) as [[e|h] c'].
  - destruct H as [Ha Hw]. unfold Claude_wf in *. simpl. by rewrite Ha, Hw.
  - destruct H as (c1 & Ha & Hw & Heq). simpl. change c' with (h, c').2. rewrite Heq.
    apply register_wf. unfold Claude_wf in *. by rewrite Ha, Hw.
Qed.

Lemma send_wf agent_id input c : Claude_wf c → Claude_wf (claude_send agent_id input c).2.
Proof.
  intros Hc. unfold claude_send. destruct (_ !! _) as [info|]; [| done].
  pose proof (at_world_wf (send_input (ai_session_id info) input) c Hc). by destruct (at_world _ c).
Qed.

Lemma claude_kill_wf agent_id c : Claude_wf c → Claude_wf (claude_kill agent_id c).2.
Proof.
  intros Hc. unfold claude_kill. destruct (_ !! _) as [info|] eqn:E; [| done].
  pose proof (at_world_wf (sa_kill (ai_session_id info)) _ (kill_wf _ _ _ E Hc)) as H.
  by destruct (at_world _ _).
Qed.

Context (base : Adapters Value W).

Lemma call_wf (op : C → option string * C) err (x : Exec Value C) :
  (∀ c, Claude_wf c → Claude_wf (op c).2) → Claude_wf (ex_world x) →
  Claude_wf (ex_world (call op err x).2).
Proof. intros Hop Hx. unfold call. specialize (Hop _ Hx). by destruct (op (ex_world x)). Qed.

Lemma ok_none_world {E} (r : option ExecuteError * Exec Value C) (P : C → Prop) (e : E) :
  P (ex_world r.2) → P (ex_world (ok_none r).2).
Proof. destruct r as [[?|] ?]; done. Qed.

Lemma at_world_then {A B} (f : W → A * W) (g : A → B) c :
  Claude_wf c → Claude_wf (let '(a, c) := at_world f c in (g a, c)).2.
Proof. intros Hc. pose proof (at_world_wf f c Hc). by destruct (at_world f c). Qed.

Lemma create_workspace_wf env id path owner ty repo branch start (x : Exec Value C) :
  Claude_wf (ex_world x) →
  Claude_wf (ex_world (execute_create_workspace (Adapters0 := claude_adapters base)
                         env id path owner ty repo branch start x).2).
Proof.
  intros Hx. unfold execute_create_workspace.
  set (x1 := apply_now env (WorkspaceCreated id path branch owner ty) x).
  assert (Claude_wf (ex_world x1)) as Hx1 by done. clearbody x1.
  destruct (bool_decide (ty = Some "worktree")).
  - match goal with |- context [call ?op ?err x1] =>
      pose proof (call_wf op err x1 (at_world_wf _) Hx1) as H2; destruct (call op err x1) as [[e|] x2]
    end; [done |].
    destruct repo as [repo|]; [| done]. destruct branch as [branch|]; [| done]. simpl in H2 |- *.
    pose proof (at_world_wf (git_worktree_add repo branch path (default "HEAD" start)) _ H2) as H3.
    destruct (at_world _ (ex_world x2)) as [[e|[err|]] c3]; done.
  - match goal with |- context [call ?op ?err x1] =>
      pose proof (call_wf op err x1 (at_world_wf _) Hx1) as H2; destruct (call op err x1) as [[e|] x2]
    end; done.
Qed.

Lemma delete_workspace_wf env id (x : Exec Value C) :
  Claude_wf (ex_world x) →
  Claude_wf (ex_world (execute_delete_workspace (Adapters0 := claude_adapters base) env id x).2).
Proof.
  intros Hx. unfold execute_delete_workspace. destruct (_ !! id) as [ws|]; [| done].
  match goal with |- context [set_world ?w ?y] => set (x1 := set_world w y) end.
  assert (Claude_wf (ex_world x1)) as Hx1 by exact Hx. clearbody x1.
  match goal with |- context [if ?b then call ?op ?err x1 else _] =>
    destruct b; [pose proof (call_wf op err x1 (at_world_wf _) Hx1) as H2;
                 destruct (call op err x1) as [[e|] x2]; done | done]
  end.
Qed.

Lemma execute_wf env effect (x : Exec Value C) :
  Claude_wf (ex_world x) →
  Claude_wf (ex_world (execute (Adapters0 := claude_adapters base) env effect x).2).
Proof.
  intros Hx. destruct effect; cbn [execute]; try done;
    try (by apply create_workspace_wf); try (by apply delete_workspace_wf).
  - simpl. match goal with |- context [claude_spawn ?cfg ?c] =>
      pose proof (spawn_wf cfg c Hx) as H; destruct (claude_spawn cfg c) as [[e|h] c']; done end.
  - apply (ok_none_world _ _ tt), call_wf; [| done]. intros c Hc. simpl.
    pose proof (send_wf agent_id input c Hc). by destruct (claude_send _ _ c).
  - apply (ok_none_world _ _ tt), call_wf; [| done]. intros c Hc. simpl.
    pose proof (claude_kill_wf agent_id c Hc). by destruct (claude_kill _ c).
  - apply (ok_none_world _ _ tt), call_wf; [| done]. intros c Hc. by apply at_world_then.
  - apply (ok_none_world _ _ tt), call_wf; [| done]. intros c Hc. by apply at_world_then.
Qed.

(** The same in full.  It is about the watchers that the adapter started and has not
    told to stop ([cl_watchers]), not about the tasks that run. *)
Definition watched_once c : Prop :=
  (** Each watches a registered agent in the session the agent is registered with,
      and the agent's entry would stop it. *)
  (∀ n cfg, cl_watchers c !! n = Some (cfg, false) →
     ∃ info, cl_agents c !! wc_agent_id cfg = Some info ∧
       wc_tmux_session_id cfg = ai_session_id info ∧ ai_shutdown info = Some n) ∧
  (** Each registered agent has one. *)
  (∀ a info, cl_agents c !! a = Some info →
     ∃ n cfg, cl_watchers c !! n = Some (cfg, false) ∧ wc_agent_id cfg = a ∧
       wc_tmux_session_id cfg = ai_session_id info) ∧
  (** No agent has two. *)
  (∀ n m cfg cfg', cl_watchers c !! n = Some (cfg, false) → cl_watchers c !! m = Some (cfg', false) →
     wc_agent_id cfg = wc_agent_id cfg' → n = m).

Lemma watched_once_wf c : watched_once c ↔ Claude_wf c.
Proof.
  split.
  - intros (Hrun & Hag & _). split.
    + intros n cfg Hn. destruct (Hrun n cfg Hn) as (info & Hi & _ & Hs). by exists info.
    + intros a info Ha. destruct (Hag a info Ha) as (n & cfg & Hn & <- & Hs).
      destruct (Hrun n cfg Hn) as (info' & Hi & _ & Hs'). exists n, cfg.
      rewrite Hi in Ha. injection Ha as <-. by split_and!.
  - intros [Hrun Hag]. split_and!.
    + intros n cfg Hn. destruct (Hrun n cfg Hn) as (info & Hi & Hs). exists info. split_and!; [done | | done].
      destruct (Hag _ _ Hi) as (m & cfg' & Hs' & Hm & _ & He). rewrite Hs in Hs'. injection Hs' as <-.
      rewrite Hn in Hm. by injection Hm as <-.
    + intros a info Ha. destruct (Hag a info Ha) as (n & cfg & _ & Hn & Hid & Hs). by exists n, cfg.
    + intros n m cfg cfg' Hn Hm Heq.
      destruct (Hrun _ _ Hn) as (i1 & H1 & H1'), (Hrun _ _ Hm) as (i2 & H2 & H2'). congruence.
Qed.

Lemma reconnect_wf config c : Claude_wf c → Claude_wf (claude_reconnect config c).2.
Proof. intros H. unfold claude_reconnect. by apply register_wf. Qed.

(** C22. The adapter's book of watchers.  Of the watchers that it has started and has
    not told to stop, each watches a registered agent in the session the agent is
    registered with, every registered agent has one, and no agent has two: so one
    that was killed or replaced has its watcher told to stop.  This holds of a new
    adapter, and is kept by every reconnection and by whatever effects the executor
    runs over the adapter, also when they fail.  It is not said which watchers still
    run: one told to stop may run on while it waits for its log, and one whose
    session ended, or that panicked, has ended though its agent is still
    registered. *)
Theorem one_watcher_each :
  (∀ w, watched_once (mkClaude W w ∅ [])) ∧
  (∀ config c, watched_once c → watched_once (claude_reconnect config c).2) ∧
  (∀ envs effects (x : Exec Value C), watched_once (ex_world x) →
     watched_once (ex_world (execute_all (Adapters0 := claude_adapters base) envs effects x).2)).
Proof.
  split_and!.
  - intros w. apply watched_once_wf. split; [intros n cfg Hn; by apply lookup_nil_Some in Hn || done | done].
  - intros config c H%watched_once_wf. by apply watched_once_wf, reconnect_wf.
  - intros envs effects x Hx%watched_once_wf. apply watched_once_wf.
    revert envs x Hx. induction effects as [|e effects IH]; intros envs x Hx; [done |].
    cbn [execute_all]. pose proof (execute_wf (envs 0) e x Hx) as H1.
    destruct (execute (envs 0) e x) as [[err|o] x1]; [done |].
    specialize (IH (λ i, envs (S i)) x1 H1). by destruct (execute_all _ effects x1) as [[|] ?].
Qed.

(** ** What a watcher reports *)

(** The states that differ from the one before. *)
Fixpoint changes (last : AgentState) (states : list AgentState) : list AgentState :=
  match states with
  | [] => []
  | s :: states => if decide (s = last) then changes last states else s :: changes s states
  end.

(** The looks of the loop at the log. *)
Fixpoint looks (config : WatcherConfig) (log_tx : bool) (st : WatchLoop)
    (wakes : list ((W → W) * Wake)) (w : W) : list (option string) :=
  match wakes with
  | [] => []
  | (change, wake) :: wakes =>
      let '(_, _, next, w2) := watch_step config log_tx st wake (change w) in
      (match wake, wl_file_rx st, wl_log_path st with
       | Wake_File, true, Some log => [ah_open log (change w)]
       | _, _, _ => []
       end ++
       match next with Watching st => looks config log_tx st wakes w2 | _ => [] end)%list
  end.

(** The report that ends a loop: the session or the process is gone. *)
Definition end_report (config : WatcherConfig) (next : WatchNext) (evs : list (Event Value)) : Prop :=
  evs = [] ∨
  (next = Watch_Ended ∧
   (evs = [AgentGone (wc_agent_id config) (wc_owner config)] ∨
    ∃ code, evs = [AgentExited (wc_agent_id config) code (wc_owner config)])).

Lemma loop_reports config log_tx st wakes w :
  ∃ last,
    (watch_loop config log_tx st wakes w).1.1
    = ((state_event config <$> changes (wl_last_state st)
          (observe (wl_parser st) (looks config log_tx st wakes w))) ++ last)%list ∧
    end_report config (watch_loop config log_tx st wakes w).1.2 last.
Proof.
  revert st w. induction wakes as [|[change wake] wakes IH]; intros st w.
  { exists []. split; [done | by left]. }
  cbn [watch_loop looks]. set (w1 := change w). clearbody w1.
  destruct wake; unfold watch_step.
  - destruct (wl_file_rx st) eqn:Erx; [destruct (wl_log_path st) as [log|] eqn:Elog |].
    + destruct (parse_log (ah_open log w1) (wl_parser st)) as [s p] eqn:Ep. cbn [observe app].
      destruct log_tx; [destruct (parse_entries_from _ _) as [[es off]|] |].
      * match goal with |- context [watch_loop _ _ ?st1 wakes ?w1] => destruct (IH st1 w1) as (last & H1 & H2);
          destruct (watch_loop config true st1 wakes w1) as [[evs nxt] w3] end.
        simpl in H1, H2 |- *. rewrite Ep. exists last. split; [| done]. rewrite H1.
        cbn [changes]. by destruct (decide (s = wl_last_state st)) as [->|].
      * simpl. rewrite Ep. exists []. split; [| by left]. rewrite app_nil_r. cbn [changes].
        by destruct (decide (s = wl_last_state st)).
      * match goal with |- context [watch_loop _ _ ?st1 wakes ?w1] => destruct (IH st1 w1) as (last & H1 & H2);
          destruct (watch_loop config false st1 wakes w1) as [[evs nxt] w3] end.
        simpl in H1, H2 |- *. rewrite Ep. exists last. split; [| done]. rewrite H1.
        cbn [changes]. by destruct (decide (s = wl_last_state st)) as [->|].
    + destruct (IH st w1) as (last & H1 & H2).
      destruct (watch_loop config log_tx st wakes w1) as [[evs nxt] w3]. by exists last.
    + destruct (IH st w1) as (last & H1 & H2).
      destruct (watch_loop config log_tx st wakes w1) as [[evs nxt] w3]. by exists last.
  - unfold check_liveness. destruct (sa_is_alive _ w1) as [[e|[]] w2].
    + destruct (sa_get_exit_code _ w2) as [r w3]. eexists. split; [reflexivity |]. right. eauto.
    + destruct (sa_is_process_running _ _ w2) as [[e|[]] w3].
      * destruct (IH st w3) as (last & H1 & H2).
        destruct (watch_loop config log_tx st wakes w3) as [[evs nxt] w4]. by exists last.
      * destruct (IH st w3) as (last & H1 & H2).
        destruct (watch_loop config log_tx st wakes w3) as [[evs nxt] w4]. by exists last.
      * destruct (sa_get_exit_code _ w3) as [r w4]. eexists. split; [reflexivity |]. right. eauto.
    + destruct (sa_get_exit_code _ w2) as [r w3]. eexists. split; [reflexivity |]. right. eauto.
  - exists []. split; [done | by left].
Qed.

Lemma watch_start_found config w path w1 st w2 events :
  wait_for_session_log_or_exit config w = (Log_Found path, w1) →
  watch_start config w = (events, Some st, w2) →
  parse_log (ah_open path w2) SessionLogParser_new = (wl_last_state st, wl_parser st) ∧
  events = if decide (wl_last_state st = AgentState_Working) then [] else [state_event config (wl_last_state st)].
Proof.
  unfold watch_start. intros ->. destruct (ah_watch_file path w1) as [ok w2'].
  destruct (parse_log (ah_open path w2') SessionLogParser_new) as [s p] eqn:Ep.
  intros H. injection H as He Hst Hw. subst. done.
Qed.

Lemma observe_first p f files :
  observe p (f :: files) = (parse_log f p).1 :: observe (parse_log f p).2 files.
Proof. simpl. by destruct (parse_log f p). Qed.

(** C23. A watcher that has found its session log reports exactly the changes of
    the state that the whole log has each time it looks at it, starting from
    working, and at last at most one report that the session or its process is
    gone, after which it has ended.  This holds for what it sees of the log when
    that is a [LogHistory]: at each look the log cannot be opened, has only grown
    or was replaced by one shorter than its complete lines, and no look falls
    inside a character; for other histories the state reported may be stale. *)
Theorem watcher_reports_changes config log_tx wakes w path w1 st w2 events :
  wait_for_session_log_or_exit config w = (Log_Found path, w1) →
  watch_start config w = (events, Some st, w2) →
  let seen := ah_open path w2 :: looks config log_tx st wakes w2 in
  LogHistory "" seen →
  ∃ last,
    (watch_agent config log_tx wakes w).1.1
    = ((state_event config <$> changes AgentState_Working (parse_session_log <$> seen)) ++ last)%list ∧
    end_report config (watch_agent config log_tx wakes w).1.2 last.
Proof.
  intros Hw Hs seen Hh. rewrite <- (proj1 (parser_follows_log seen Hh)). clear Hh.
  unfold seen. clear seen. destruct (watch_start_found _ _ _ _ _ _ _ Hw Hs) as [Hp ->].
  rewrite observe_first, Hp. cbn [fst snd changes]. unfold watch_agent. rewrite Hs.
  destruct (loop_reports config log_tx st wakes w2) as (last & Hl & He).
  destruct (watch_loop config log_tx st wakes w2) as [[rest next] w3]. simpl in Hl, He |- *.
  exists last. split; [| done]. rewrite Hl.
  by destruct (decide (wl_last_state st = AgentState_Working)) as [->|].
Qed.
End Spec.

(** ** A desk with one session *)

#[local] Existing Instances json_value json_item session_json.

Record Desk := mkDesk {
  dk_alive : bool;
  dk_pane : string;
  dk_send_ok : bool;
  dk_log : option string;
  dk_calls : list string
}.

Definition noted (call : string) (w : Desk) : Desk :=
  mkDesk (dk_alive w) (dk_pane w) (dk_send_ok w) (dk_log w) (dk_calls w ++ [call])%list.
Definition with_log (log : string) (w : Desk) : Desk :=
  mkDesk (dk_alive w) (dk_pane w) (dk_send_ok w) (Some log) (dk_calls w).
Definition dead (w : Desk) : Desk := mkDesk false (dk_pane w) (dk_send_ok w) (dk_log w) (dk_calls w).

#[local] Instance desk_sessions : SessionAdapter Json Desk := {
  sa_spawn name _ _ _ w := (inr ("oj-" +:+ name), noted "spawn" w);
  sa_send _ key w := (if dk_send_ok w then None else Some (Session_NotFound "s"), noted key w);
  sa_send_literal _ _ w := (None, noted "literal" w);
  sa_send_enter _ w := (None, noted "enter" w);
  sa_kill _ w := (None, noted "kill" w);
  sa_is_alive _ w := (inr (dk_alive w), w);
  sa_capture_output _ _ w := (inr (dk_pane w), w);
  sa_is_process_running _ _ w := (inr true, w);
  sa_get_exit_code _ w := (inr None, w);
  sa_configure _ _ w := (None, noted "configure" w)
}.

#[local] Instance desk_host : AgentHost Desk := {
  ah_exists _ w := match dk_log w with Some _ => true | None => false end;
  ah_create_dir_all _ w := (None, w);
  ah_copy _ _ w := (None, w);
  ah_random_byte w := (171%Z, w);
  ah_sleep _ w := w;
  ah_env _ := None;
  ah_home := Some "/home/u";
  ah_canonicalize _ _ := None;
  ah_read_dir _ _ := None;
  ah_open _ w := dk_log w;
  ah_watch_file _ w := (true, w)
}.

Definition desk : Desk := mkDesk true "" true (Some (log_of ["U"])) [].
Definition desk_config : WatcherConfig :=
  mkWatcherConfig "a" "a" "oj-s" "/p" "claude" (Owner_Job "j").
Definition desk_wakes : list ((Desk → Desk) * Wake) :=
  [(with_log (log_of ["U"; "I"]), Wake_File); (id, Wake_File); (dead, Wake_Poll); (id, Wake_File)].

Lemma watcher_reports_changes_witness :
  ∃ last, (watch_agent desk_config true desk_wakes desk).1.1
          = (([AgentIdle "a"] : list (Event Json)) ++ last)%list ∧
    end_report desk_config (watch_agent desk_config true desk_wakes desk).1.2 last.
Proof.
  assert (LogHistory "" [Some (log_of ["U"]); Some (log_of ["U"; "I"]); Some (log_of ["U"; "I"])]) as Hh.
  { apply (History_grown "" (log_of ["U"])); [apply readable_log_by; vm_compute; reflexivity |].
    apply (History_grown (log_of ["U"]) (log_of ["I"])); [apply readable_log_by; vm_compute; reflexivity |].
    apply (History_grown (log_of ["U"; "I"]) ""); [apply readable_log_by; vm_compute; reflexivity |]. constructor. }
  set (path := "/home/u/.claude/projects/-p/a.jsonl").
  set (st := mkWatchLoop (Some path) true (mkParser 2 "U") AgentState_Working 0).
  assert (wait_for_session_log_or_exit desk_config desk = (Log_Found path, desk)) as Hw
    by (vm_compute; reflexivity).
  assert (watch_start (Value := Json) desk_config desk = ([], Some st, desk)) as Hs
    by (vm_compute; reflexivity).
  assert (ah_open path desk :: looks desk_config true st desk_wakes desk
          = [Some (log_of ["U"]); Some (log_of ["U"; "I"]); Some (log_of ["U"; "I"])]) as Hl
    by (vm_compute; reflexivity).
  rewrite <- Hl in Hh.
  destruct (watcher_reports_changes desk_config true desk_wakes desk path desk st desk [] Hw Hs Hh)
    as (last & H1 & H2).
  exists last. split; [rewrite H1, Hl; vm_compute; reflexivity | exact H2].
Defined.

Definition desk_adapters : Adapters Json Desk := {|
  agents_spawn := λ _ w, (inr "sess", w);
  agents_send := λ _ _ w, (None, w);
  agents_kill := λ _ w, (None, w);
  sessions_send := λ _ _ w, (None, w);
  sessions_kill := λ _ w, (None, w);
  create_parent_dir := λ _ w, (None, w);
  create_dir_all := λ _ w, (None, w);
  git_worktree_add := λ _ _ _ _ w, (inr None, w);
  git_worktree_remove := λ _ _ w, w;
  path_exists := λ _ _, true;
  remove_dir_all := λ _ w, (None, w);
  notify := λ _ _ w, w
|}.

(** An agent is started twice: its first watcher is told to stop. *)
Lemma one_watcher_each_witness :
  let spawn := SpawnAgent "a" "n" (Owner_Job "j") "/w" ∅ "claude" [] None ∅ in
  let x := mkExec Json (Claude Desk) MaterializedState_default Scheduler_new (mkClaude Desk desk ∅ []) [] in
  let c := ex_world (execute_all (Adapters0 := claude_adapters desk_adapters) (λ _, env_at 1)
                       [spawn; spawn; KillAgent "b"] x).2 in
  snd <$> cl_watchers c = [true; false] ∧ watched_once c.
Proof.
  intros spawn x c. split; [vm_compute; reflexivity |].
  destruct (one_watcher_each desk_adapters) as (Hnew & _ & Hrun).
  exact (Hrun (λ _, env_at 1) [spawn; spawn; KillAgent "b"] x (Hnew desk)).
Defined.

(** A long command whose 77th byte is inside a character ends the watcher's task:
    the end of the session is not reported any more. *)
Example watcher_dies :
  let '(events, next, _) := watch_agent desk_config true
    [(with_log (log_of ["U"; "P"]), Wake_File); (dead, Wake_Poll)] desk in
  events = [] ∧ next = Watch_Panicked.
Proof. vm_compute. done. Qed.

(** An agent that is killed before its log is there is reported as gone. *)
Example killed_agent_reported :
  (watch_agent desk_config true [] (mkDesk false "" true None [])).1.1 = [AgentGone "a" (Owner_Job "j")].
Proof. vm_compute. done. Qed.

Definition desk_spawn : AgentSpawnConfig Json :=
  mkAgentSpawnConfig Json "a" "n" "claude --dangerously-skip-permissions" [] "/w" (Some "/elsewhere") ""
    "job" "j" "/w" {["tmux" := Json_Null]} (Owner_Job "j").

(** When the answer to a prompt cannot be sent the agent is not started, but its
    session is left running. *)
Example session_left_behind :
  let '(r, c) := claude_spawn desk_spawn
    (mkClaude Desk (mkDesk true "Bypass Permissions mode 1. No 2. Yes" false (Some "") []) ∅ []) in
  match r with inl _ => True | inr _ => False end ∧
  dk_calls (cl_world c) = ["spawn"; "configure"; "2"] ∧ cl_watchers c = [].
Proof. vm_compute. done. Qed.

(** Under the wrapper the session is not configured; and the log of an agent with
    a working directory is watched there, but looked for in the workspace when its
    state is asked for. *)
Example traced_session_plain :
  let c := (claude_spawn (SA := TracedSession desk_sessions) desk_spawn (mkClaude Desk desk ∅ [])).2 in
  dk_calls (cl_world c) = ["spawn"] ∧
  (wc_project_path ∘ fst) <$> cl_watchers c = ["/elsewhere"] ∧
  ai_workspace_path <$> cl_agents c !! "a" = Some "/w".
Proof. vm_compute. done. Qed.

Local Close Scope string_scope.
