(* ===== verification/Listener.v ===== *)
(** The listener of the daemon: the context and the shared parts of
    [crates/daemon/src/listener/mod.rs], [mutations.rs] ([emit]), [suggest.rs],
    [workers.rs] ([hash_runbook]), and the errors of [protocol_wire.rs] it
    reports.

    A request is handled by a state-passing function that may fail: [LM].  The
    state is shared with the engine, which runs concurrently: before every lock
    of it the engine may have changed it ([ls_engine]).  Events go to the log,
    where the engine finds them; an error keeps what was sent before. *)

From S2P Require Import Prelude Ids Runbook Bytes Entities Job Event State Runtime Wal Breadcrumb.
From S2P Require Import Suggest Protocol.

Local Open Scope string_scope.

Inductive ConnectionError :=
  | Conn_Protocol (e : ProtocolError)
  | Conn_WalError
  | Conn_Internal (msg : string)
  (** Not of the source: the task that handles the connection panics. *)
  | Conn_Panic.

Definition ProtocolError_display (e : ProtocolError) : string :=
  match e with
  | Proto_Io => "IO error"
  | Proto_Json => "JSON error"
  | Proto_MessageTooLarge size max =>
      "Message too large: " +:+ pretty size +:+ " bytes (max " +:+ pretty max +:+ ")"
  | Proto_ConnectionClosed => "Connection closed"
  | Proto_Timeout => "Timeout"
  end.

Definition ConnectionError_display (e : ConnectionError) : string :=
  match e with
  | Conn_Protocol e => "Protocol error: " +:+ ProtocolError_display e
  | Conn_WalError => "WAL error"
  | Conn_Internal msg => "Internal error: " +:+ msg
  | Conn_Panic => ""
  end.

(** The processes and files the listener uses beside those of the engine. *)
Class ListenIO (W : Type) := {
  (** [tmux kill-session]; the result is ignored. *)
  tmux_kill_session : string → W → W;
  tmux_has_session : string → W → bool * W;
  (** [tmux capture-pane], with colours or without: an error, or the output. *)
  tmux_capture_pane : string → bool → W → (string + ProcessOutput) * W;
  (** [git worktree remove --force] of a directory; the result is ignored. *)
  git_worktree_remove : PathBuf → W → W;
  (** [read_config_name] and [Path::file_name] of a project root. *)
  config_project_name : PathBuf → W → option string;
  root_file_name : PathBuf → option string;
  (** The runbook of a directory that holds a queue, and the names that the
      runbooks of a directory define: an error, or what was found. *)
  find_runbook_by_queue : PathBuf → string → W → string + option Runbook;
  collect_all_commands : PathBuf → W → option (list (string * CommandDef));
  collect_all_queues : PathBuf → W → option (list (string * QueueDef));
  collect_all_workers : PathBuf → W → option (list (string * WorkerDef));
  collect_all_crons : PathBuf → W → option (list (string * CronDef));
  (** [env::state_dir], if it can be found. *)
  daemon_state_dir : option PathBuf;
  (** The directory of the logs, [ctx.logs_path]. *)
  logs_path : PathBuf;
  (** [PROTOCOL_VERSION] *)
  protocol_version : string
}.

(** [MetricsHealth] of [crates/engine/src/usage_metrics.rs]. *)
Record MetricsHealth := mkMetricsHealth {
  mh_last_collection_ms : Z;
  mh_sessions_tracked : nat;
  mh_last_error : option string;
  mh_ghost_sessions : list string
}.

(** ** The context *)

Record Listen {Value W : Type} := mkListen {
  ls_state : MaterializedState Value;
  ls_engine : nat → MaterializedState Value → MaterializedState Value;
  ls_orphans : list Breadcrumb;
  ls_health : MetricsHealth;
  ls_wal : Wal;
  ls_world : W;
  ls_start_time : Z;
  ls_shutdown : bool;
  ls_ids : nat → string;
  ls_envs : nat → Env
}.
Arguments Listen : clear implicits.
Arguments mkListen {Value W}.

Definition LM (Value W A : Type) : Type := Listen Value W → (ConnectionError + A) * Listen Value W.

#[export] Instance lm_ret Value W : MRet (LM Value W) := λ A a l, (inr a, l).

#[export] Instance lm_bind Value W : MBind (LM Value W) := λ A B k m l,
  match m l with
  | (inl e, l) => (inl e, l)
  | (inr a, l) => k a l
  end.

Section Listener.
Context {Value W : Type} `{RIO : !RuntimeIO Value W} `{LIO : !ListenIO W} `{EC : !Codec (Event Value)}.
Abbreviation L := (Listen Value W) (only parsing).
Abbreviation M := (LM Value W) (only parsing).
Abbreviation St := (MaterializedState Value) (only parsing).
Implicit Types (l : L) (s : St).

Definition fail_with {A} (e : ConnectionError) : M A := λ l, (inl e, l).

Definition ls_set_state s l : L :=
  mkListen s (ls_engine l) (ls_orphans l) (ls_health l) (ls_wal l) (ls_world l) (ls_start_time l)
    (ls_shutdown l) (ls_ids l) (ls_envs l).

Definition ls_set_orphans (o : list Breadcrumb) l : L :=
  mkListen (ls_state l) (ls_engine l) o (ls_health l) (ls_wal l) (ls_world l) (ls_start_time l)
    (ls_shutdown l) (ls_ids l) (ls_envs l).

Definition ls_set_wal (w : Wal) l : L :=
  mkListen (ls_state l) (ls_engine l) (ls_orphans l) (ls_health l) w (ls_world l) (ls_start_time l)
    (ls_shutdown l) (ls_ids l) (ls_envs l).

Definition ls_set_world (w : W) l : L :=
  mkListen (ls_state l) (ls_engine l) (ls_orphans l) (ls_health l) (ls_wal l) w (ls_start_time l)
    (ls_shutdown l) (ls_ids l) (ls_envs l).

Definition ls_notify_shutdown l : L :=
  mkListen (ls_state l) (ls_engine l) (ls_orphans l) (ls_health l) (ls_wal l) (ls_world l)
    (ls_start_time l) true (ls_ids l) (ls_envs l).

Definition ls_skip_env l : L :=
  mkListen (ls_state l) (ls_engine l) (ls_orphans l) (ls_health l) (ls_wal l) (ls_world l)
    (ls_start_time l) (ls_shutdown l) (ls_ids l) (λ n, ls_envs l (S n)).

(** The state as the next lock finds it. *)
Definition ls_view l : St := ls_engine l 0 (ls_state l).

Definition ls_locked l : L :=
  mkListen (ls_view l) (λ n, ls_engine l (S n)) (ls_orphans l) (ls_health l) (ls_wal l) (ls_world l)
    (ls_start_time l) (ls_shutdown l) (ls_ids l) (λ n, ls_envs l (S n)).

(** [ctx.state.lock()], read and released. *)
Definition lock {A} (f : Env → St → A) : M A := λ l,
  (inr (f (ls_envs l 0) (ls_view l)), ls_locked l).

(** [ctx.state.lock().apply_event(&event)] *)
Definition lock_apply (ev : Event Value) : M unit := λ l,
  (inr tt, ls_set_state (apply_event (ls_envs l 0) ev (ls_view l)) (ls_locked l)).

Definition get_orphans : M (list Breadcrumb) := λ l, (inr (ls_orphans l), l).
Definition set_orphans (o : list Breadcrumb) : M unit := λ l, (inr tt, ls_set_orphans o l).

(** The system clock in epoch milliseconds, and the monotonic clock. *)
Definition now_ms : M Z := λ l, (inr (clock (ls_envs l 0) 0), ls_skip_env l).
Definition uptime_secs : M Z := λ l,
  (inr ((instant (ls_envs l 0) 0 - ls_start_time l) / 1000000000)%Z, ls_skip_env l).

(** [UuidIdGen.next()], [Uuid::new_v4()]. *)
Definition fresh_id : M string := λ l,
  (inr (ls_ids l 0),
   mkListen (ls_state l) (ls_engine l) (ls_orphans l) (ls_health l) (ls_wal l) (ls_world l)
     (ls_start_time l) (ls_shutdown l) (λ n, ls_ids l (S n)) (ls_envs l)).

Definition world {A} (f : W → A * W) : M A := λ l,
  let '(a, w) := f (ls_world l) in (inr a, ls_set_world w l).
Definition act_on (f : W → W) : M unit := world (λ w, (tt, f w)).
Definition see {A} (f : W → A) : M A := λ l, (inr (f (ls_world l)), l).

(** A slice inside a character panics. *)
Definition or_panic {A} (o : option A) : M A :=
  match o with Some a => mret a | None => fail_with Conn_Panic end.

(** [emit] *)
Definition emit (ev : Event Value) : M unit := λ l,
  match append ev (ls_wal l) with
  | (inl _, wal) => (inl Conn_WalError, ls_set_wal wal l)
  | (inr _, wal) => (inr tt, ls_set_wal wal l)
  end.

(** [let _ = ctx.event_bus.send(event)] *)
Definition try_emit (ev : Event Value) : M unit := λ l,
  (inr tt, ls_set_wal (append ev (ls_wal l)).2 l).

Fixpoint each_do {A} (f : A → M unit) (xs : list A) : M unit :=
  match xs with
  | [] => mret tt
  | x :: xs => f x;; each_do f xs
  end.

Definition emit_all (evs : list (Event Value)) : M unit := each_do emit evs.

Definition answer_error (message : string) : M Response := mret (Resp_Error message).

(** [match m { Ok(a) => k(a), Err(resp) => return Ok(resp) }] *)
Definition or_return {A} (m : M (Response + A)) (k : A → M Response) : M Response :=
  x ← m; match x with inl resp => mret resp | inr a => k a end.

(** [match o { Some(a) => k(a), None => return Ok(resp) }] *)
Definition or_answer {A} (o : option A) (message : string) (k : A → M Response) : M Response :=
  match o with Some a => k a | None => answer_error message end.

(** ** Hints: [suggest_for_resource] *)

Definition suggest_for_resource (name namespace command_prefix : string) (resource_type : ResourceType)
    (runbook_names : W → list string) (state_names : Env → St → list string) : M string :=
  names ← see runbook_names;
  match find_similar name names with
  | _ :: _ as similar => mret (format_suggestion similar)
  | [] =>
      names ← lock state_names;
      match find_similar name names with
      | _ :: _ as similar => mret (format_suggestion similar)
      | [] =>
          other ← lock (λ env s, find_in_other_namespaces env resource_type name namespace s);
          mret (match other with
                | Some other_ns => format_cross_project_suggestion command_prefix name other_ns
                | None => ""
                end)
      end
  end.

(** ** Runbooks *)

Definition root_namespace (project_root : PathBuf) (w : W) : string :=
  resolve_namespace (config_project_name project_root w) (root_file_name project_root).

Definition runbook_dir (root : PathBuf) : PathBuf := path_join root ".oj/runbooks".

(** The search for a runbook whose absence is an error. *)
Definition required {A} (missing : string) (found : string + option A) : string + A :=
  match found with
  | inl e => inl e
  | inr None => inl missing
  | inr (Some a) => inr a
  end.

(** The runbook, and the root it was found under. *)
Definition load_runbook_with_fallback (project_root : PathBuf) (namespace : string)
    (load_fn : PathBuf → W → string + Runbook) (suggest_fn : M string)
    : M (Response + (Runbook * PathBuf)) :=
  project_namespace ← see (root_namespace project_root);
  known_root ← lock (λ env s, project_root_for_namespace env s namespace);
  let '(preferred_root, fallback_root) :=
    if negb (is_empty namespace) && negb (String.eqb namespace project_namespace) then
      match known_root with
      | Some known => (known, Some project_root)
      | None => (project_root, None)
      end
    else (project_root, known_root) in
  first ← see (load_fn preferred_root);
  match first with
  | inr rb => mret (inr (rb, preferred_root))
  | inl e =>
      alt_result ← see (λ w,
        alt ← fallback_root;
        if String.eqb alt preferred_root then None
        else match load_fn alt w with inr rb => Some (rb, alt) | inl _ => None end);
      match alt_result with
      | Some result => mret (inr result)
      | None => hint ← suggest_fn; mret (inl (Resp_Error (e +:+ hint)))
      end
  end.

Definition require_scoped_resource (namespace name resource_type : string) (exists_ : St → string → bool)
    (suggest_fn : M string) : M (Response + unit) :=
  found ← lock (λ _ s, exists_ s (scoped_name namespace name));
  if (found : bool) then mret (inr tt)
  else hint ← suggest_fn;
       mret (inl (Resp_Error ("unknown " +:+ resource_type +:+ ": " +:+ name +:+ hint))).

Definition scoped_exists (namespace name : string) (check : St → string → bool) : M bool :=
  lock (λ _ s, check s (scoped_name namespace name)).

(** The results of starting many; an error of one is a reason to skip it. *)
Fixpoint collect_start_results (names : list string) (start_fn : string → M Response)
    (extract_name : Response → option string) (started : list string)
    (skipped : list (string * string)) : M (list string * list (string * string)) :=
  match names with
  | [] => mret (started, skipped)
  | name :: names => λ l,
      match start_fn name l with
      | (inl Conn_Panic, l) => (inl Conn_Panic, l)
      | (inl e, l) =>
          collect_start_results names start_fn extract_name started
            (skipped ++ [(name, ConnectionError_display e)])%list l
      | (inr resp, l) =>
          match extract_name resp with
          | Some started_name =>
              collect_start_results names start_fn extract_name (started ++ [started_name])%list skipped l
          | None =>
              let reason := match resp with Resp_Error m => m | _ => "unexpected response" end in
              collect_start_results names start_fn extract_name started
                (skipped ++ [(name, reason)])%list l
          end
      end
  end.

(** [hash_runbook] *)
Definition hash_runbook (runbook : Runbook) : string + (Value * string) :=
  match runbook_to_json runbook with
  | inl e => inl ("failed to serialize runbook: " +:+ e)
  | inr runbook_json =>
      match json_to_text runbook_json with
      | inl e => inl ("failed to serialize runbook: " +:+ e)
      | inr canonical => inr (runbook_json, sha256_hex canonical)
      end
  end.

Definition hash_and_emit_runbook (runbook : Runbook) : M string :=
  match hash_runbook runbook with
  | inl e => fail_with (Conn_Internal e)
  | inr (runbook_json, runbook_hash) =>
      emit (RunbookLoaded runbook_hash 1 runbook_json);; mret runbook_hash
  end.
End Listener.

#[global] Notation "x ←? m ; k" := (or_return m (λ x, k))
  (at level 20, m at level 100, k at level 200, only parsing).

Local Close Scope string_scope.
