(* ===== verification/Mutations.v ===== *)
(** Requests about jobs, sessions, agents and workspaces:
    [crates/daemon/src/listener/mutations.rs], all but the prunes. *)

From S2P Require Import Prelude Ids Runbook Bytes Entities Job Event State Runtime Wal CommandArgs.
From S2P Require Import Protocol Breadcrumb Suggest Listener.

Local Open Scope string_scope.

(** [{:?}] of a step status, for a decision id without characters to escape. *)
Definition StepStatus_debug (s : StepStatus) : string :=
  match s with
  | Pending => "Pending"
  | Running => "Running"
  | Waiting None => "Waiting(None)"
  | Waiting (Some id) => "Waiting(Some(" +:+ String "034" id +:+ String "034" "))"
  | Completed => "Completed"
  | Failed => "Failed"
  end.

(** Waiting, failed or not started: resumed without [--kill]. *)
Definition resumable (s : StepStatus) : bool :=
  match s with Waiting _ | Failed | Pending => true | Running | Completed => false end.

Definition id_matches (id full : string) : bool := String.eqb full id || starts_with id full.

(** The agents of a job, the latest first. *)
Definition job_agents (j : Job) : list string := omap step_agent_id (rev (job_step_history j)).

(** [step_history.iter().rfind(|r| r.name == job.step)] and its agent. *)
Definition current_step_agent (j : Job) : option string :=
  List.find (λ r, String.eqb (step_name r) (job_step j)) (rev (job_step_history j)) ≫= step_agent_id.

(** The id an agent run is known by. *)
Definition run_known_as (r : AgentRun) : string := default (run_id r) (run_agent_id r).

Section Jobs.
Context {Value W : Type} `{RIO : !RuntimeIO Value W} `{LIO : !ListenIO W} `{EC : !Codec (Event Value)}.
Abbreviation L := (Listen Value W) (only parsing).
Abbreviation M := (LM Value W) (only parsing).
Abbreviation St := (MaterializedState Value) (only parsing).
Implicit Types (l : L) (s : St).

Definition handle_status : M Response :=
  uptime ← uptime_secs;
  counts ← lock (λ _ s, (size (filter (λ kj, Job_is_terminal kj.2 = false) (jobs s)), size (sessions s)));
  orphans ← get_orphans;
  mret (Resp_Status uptime counts.1 counts.2 (length orphans)).

(** ** Sessions *)

Definition handle_session_send (id input : string) : M Response :=
  session ← lock (λ _ s, match sessions s !! id with
                         | Some _ => Some id
                         | None => jobs s !! id ≫= job_session_id
                         end);
  or_answer session ("Session not found: " +:+ id) (λ sid,
    emit (SessionInput sid input);; mret Resp_Ok).

Definition handle_session_kill (id : string) : M Response :=
  session ← lock (λ _ s, match sessions s !! id with Some _ => Some id | None => None end);
  or_answer session ("Session not found: " +:+ id) (λ sid,
    act_on (tmux_kill_session sid);;
    emit (SessionDeleted sid);; mret Resp_Ok).

(** ** Resuming jobs *)

(** Why a job at an agent step cannot be resumed without a message; [None] is
    a panic. *)
Definition resume_message_error (s : St) (id kind current_step hash : string) : option (option string) :=
  match runbooks s !! hash with
  | None => Some None
  | Some stored =>
      match runbook_from_json (runbook_data stored) with
      | inl _ => Some None
      | inr runbook =>
          match get_job_def kind runbook ≫= get_step current_step with
          | None => Some None
          | Some step_def =>
              if run_is_agent (def_run step_def) then
                short_id ← short id 12;
                Some (Some ("agent steps require --message for resume. Example:" +:+ newline_str +:+
                            "  oj job resume " +:+ short_id +:+ " -m " +:+
                            String "034" "I fixed the import, try again" +:+ String "034" ""))
              else Some None
          end
      end
  end.

Definition validate_resume_message (id kind current_step hash : string) : M (option string) :=
  err ← lock (λ _ s, resume_message_error s id kind current_step hash);
  or_panic err.

Definition orphan_no_hash (id : string) : string :=
  "job " +:+ id +:+ " is orphaned (state lost during daemon restart) and cannot be resumed: "
  +:+ "breadcrumb missing runbook hash (written by older daemon version). "
  +:+ "Dismiss with `oj job prune --orphans` and re-run the job.".

Definition orphan_no_runbook (id : string) : string :=
  "job " +:+ id +:+ " is orphaned (state lost during daemon restart) and cannot be resumed: "
  +:+ "runbook is no longer available. Dismiss with `oj job prune --orphans` and re-run the job.".

(** The events that rebuild an orphan in the state, at its step and failed. *)
Definition rebuild_orphan (orphan : Breadcrumb) : list (Event Value) :=
  let cwd := default "" (match bc_cwd orphan with Some c => Some c | None => bc_workspace_root orphan end) in
  [JobCreated (bc_job_id orphan) (bc_kind orphan) (bc_name orphan) (bc_runbook_hash orphan) cwd
     (bc_vars orphan) (bc_current_step orphan) 0 (bc_project orphan) None;
   JobAdvanced (bc_job_id orphan) "failed"].

(** [position] and [remove]: the first entry with the id. *)
Fixpoint remove_orphan (id : string) (orphans : list Breadcrumb) : list Breadcrumb :=
  match orphans with
  | [] => []
  | bc :: orphans => if String.eqb (bc_job_id bc) id then orphans else bc :: remove_orphan id orphans
  end.

Definition resume_orphan (id : string) (message : option string) (vars : gmap string string) (kill : bool)
    : M Response :=
  orphans ← get_orphans;
  or_answer (List.find (λ bc, id_matches id (bc_job_id bc)) orphans) ("job not found: " +:+ id) (λ orphan,
    if is_empty (bc_runbook_hash orphan) then answer_error (orphan_no_hash (bc_job_id orphan))
    else
      available ← lock (λ _ s, is_some (runbooks s !! bc_runbook_hash orphan));
      if negb available then answer_error (orphan_no_runbook (bc_job_id orphan))
      else
        emit_all (rebuild_orphan orphan ++ [JobResume (bc_job_id orphan) message vars kill])%list;;
        orphans ← get_orphans;
        set_orphans (remove_orphan (bc_job_id orphan) orphans);;
        mret Resp_Ok).

Definition handle_job_resume (id : string) (message : option string) (vars : gmap string string)
    (kill : bool) : M Response :=
  job_info ← lock (λ _ s, (λ j, (job_id j, job_kind j, job_step j, job_runbook_hash j)) <$> get_job s id);
  match job_info with
  | Some (id, kind, current_step, hash) =>
      invalid ← (if negb (is_some message) && negb (String.eqb current_step "failed")
                 then validate_resume_message id kind current_step hash else mret None);
      match invalid with
      | Some err_msg => answer_error err_msg
      | None => emit (JobResume id message vars kill);; mret Resp_Ok
      end
  | None => resume_orphan id message vars kill
  end.

(** The jobs to resume, and those left out with the reason. *)
Definition resume_targets (kill : bool) (js : list Job) : list string * list (string * string) :=
  foldr (λ j acc,
    if Job_is_terminal j then acc
    else if negb kill && negb (resumable (job_step_status j)) then
      (acc.1, (job_id j, "job is " +:+ StepStatus_debug (job_step_status j)
                         +:+ " (use --kill to force)") :: acc.2)
    else (job_id j :: acc.1, acc.2)) ([], []) js.

Definition handle_job_resume_all (kill : bool) : M Response :=
  found ← lock (λ env s, resume_targets kill (table_values env TJobs (jobs s)));
  let '(targets, skipped) := found in
  each_do (λ id, emit (JobResume id None ∅ kill)) targets;;
  mret (Resp_JobsResumed targets skipped).

(** ** Cancelling *)

Fixpoint cancel_jobs (ids cancelled already_terminal not_found : list string) : M Response :=
  match ids with
  | [] => mret (Resp_JobsCancelled cancelled already_terminal not_found)
  | id :: ids =>
      is_valid ← lock (λ _ s, (λ j, negb (Job_is_terminal j)) <$> get_job s id);
      match is_valid with
      | Some true =>
          emit (JobCancel id);; cancel_jobs ids (cancelled ++ [id])%list already_terminal not_found
      | Some false => cancel_jobs ids cancelled (already_terminal ++ [id])%list not_found
      | None => cancel_jobs ids cancelled already_terminal (not_found ++ [id])%list
      end
  end.

Definition handle_job_cancel (ids : list string) : M Response := cancel_jobs ids [] [] [].

(** ** Workspaces *)

Definition workspace_entry (kw : string * Workspace) : WorkspaceEntry :=
  mkWorkspaceEntry kw.1 (workspace_path kw.2) (workspace_branch kw.2).

Definition is_failed_workspace (w : Workspace) : bool :=
  match workspace_status w with Workspace_Failed _ => true | _ => false end.

(** The workspaces to drop, or the message of the error. *)
Definition workspaces_to_drop (id : option string) (failed_only drop_all : bool) (env : Env) (s : St)
    : string + list WorkspaceEntry :=
  let all := table_entries env TWorkspaces (workspaces s) in
  match id with
  | Some id =>
      match List.filter (λ kw, id_matches id kw.1) all with
      | [kw] => inr [workspace_entry kw]
      | [] => inl ("workspace not found: " +:+ id)
      | matches => inl ("ambiguous workspace ID '" +:+ id +:+ "': " +:+ pretty (length matches) +:+ " matches")
      end
  | None =>
      if failed_only then inr (workspace_entry <$> List.filter (λ kw, is_failed_workspace kw.2) all)
      else if drop_all then inr (workspace_entry <$> all)
      else inl "specify a workspace ID, --failed, or --all"
  end.

Definition handle_workspace_drop (id : option string) (failed_only drop_all : bool) : M Response :=
  found ← lock (workspaces_to_drop id failed_only drop_all);
  match found with
  | inl message => answer_error message
  | inr dropped =>
      each_do (λ e, emit (WorkspaceDrop (we_id e))) dropped;;
      mret (Resp_WorkspacesDropped dropped)
  end.

(** ** Agents *)

Definition first_of {A} (o1 o2 : option A) : option A := match o1 with Some a => Some a | None => o2 end.

(** Steps 1 to 4 of [handle_agent_send]. *)
Definition resolve_agent (agent_id : string) (env : Env) (s : St) : option string :=
  let all := table_values env TJobs (jobs s) ≫= job_agents in
  first_of (List.find (String.eqb agent_id) all)
  (first_of (get_job s agent_id ≫= λ j, head (job_agents j))
  (first_of (List.find (starts_with agent_id) all)
   (run_known_as <$>
      List.find (λ r, id_matches agent_id (run_known_as r) || id_matches agent_id (run_id r))
        (table_values env TAgentRuns (agent_runs s))))).

Definition handle_agent_send (agent_id message : string) : M Response :=
  resolved ← lock (resolve_agent agent_id);
  match resolved with
  | Some aid => emit (AgentInput aid message);; mret Resp_Ok
  | None =>
      alive ← world (tmux_has_session agent_id);
      if (alive : bool) then emit (AgentInput agent_id message);; mret Resp_Ok
      else answer_error ("Agent not found: " +:+ agent_id)
  end.

(** A job to resume, with its agent and its session. *)
Record ResumeTarget := mkResumeTarget {
  target_job : string;
  target_agent : string;
  target_session : option string
}.

Definition resume_target (j : Job) (aid : string) : ResumeTarget :=
  mkResumeTarget (job_id j) aid (job_session_id j).

(** All agents of current steps that can be resumed. *)
Definition all_agent_targets (kill : bool) (js : list Job) : list ResumeTarget * list (string * string) :=
  foldr (λ j acc,
    if Job_is_terminal j then acc
    else match current_step_agent j with
         | None => acc
         | Some aid =>
             if negb kill && negb (resumable (job_step_status j)) then
               (acc.1, (aid, "agent is " +:+ StepStatus_debug (job_step_status j)
                             +:+ " (use --kill to force)") :: acc.2)
             else (resume_target j aid :: acc.1, acc.2)
         end) ([], []) js.

(** The first agent of the step histories with the id or prefix. *)
Definition find_agent_target (agent_id : string) (js : list Job) : string + ResumeTarget :=
  match List.find (λ ja, id_matches agent_id ja.2)
          (js ≫= λ j, pair j <$> omap step_agent_id (job_step_history j)) with
  | None => inl ("agent not found: " +:+ agent_id)
  | Some (j, aid) =>
      if Job_is_terminal j then
        inl ("job " +:+ job_id j +:+ " is already " +:+ job_step j +:+ " — cannot resume agent")
      else inr (resume_target j aid)
  end.

Definition agent_targets (agent_id : string) (kill all : bool) (env : Env) (s : St)
    : string + (list ResumeTarget * list (string * string)) :=
  let js := table_values env TJobs (jobs s) in
  if all then inr (all_agent_targets kill js)
  else match find_agent_target agent_id js with
       | inl e => inl e
       | inr t => inr ([t], [])
       end.

(** With [--kill] the session ends first; an error of the log is ignored there. *)
Definition kill_target (t : ResumeTarget) : M unit :=
  match target_session t with
  | Some sid => act_on (tmux_kill_session sid);; try_emit (SessionDeleted sid)
  | None => mret tt
  end.

Definition handle_agent_resume (agent_id : string) (kill all : bool) : M Response :=
  found ← lock (agent_targets agent_id kill all);
  match found with
  | inl message => answer_error message
  | inr (targets, skipped) =>
      (if kill then each_do kill_target targets else mret tt);;
      each_do (λ t, emit (JobResume (target_job t) None ∅ kill)) targets;;
      mret (Resp_AgentResumed (target_agent <$> targets) skipped)
  end.
End Jobs.

Local Close Scope string_scope.

(** Pruning: the [handle_*_prune] requests of
    [crates/daemon/src/listener/mutations.rs].

    Each request first decides, under one lock, what to prune and what to skip,
    then deletes it unless it is a dry run. *)

Local Open Scope string_scope.

Record PruneFlags := mkPruneFlags {
  prune_all : bool;
  prune_dry_run : bool;
  prune_namespace : option string
}.

(** What a prune makes of an entity: it is not looked at, skipped, or pruned. *)
Inductive Verdict {A : Type} := Ignore | Skip | Prune (a : A).
Arguments Verdict : clear implicits.

Fixpoint collect {X A} (judge : X → Verdict A) (xs : list X) : list A * nat :=
  match xs with
  | [] => ([], 0)
  | x :: xs =>
      let '(pruned, skipped) := collect judge xs in
      match judge x with
      | Ignore => (pruned, skipped)
      | Skip => (pruned, S skipped)
      | Prune a => (a :: pruned, skipped)
      end
  end.

Definition outside (namespace : option string) (ns : string) : bool :=
  match namespace with Some wanted => negb (String.eqb ns wanted) | None => false end.

(** 12 and 24 hours in milliseconds. *)
Definition half_day_ms : Z := 12 * 60 * 60 * 1000.
Definition day_ms : Z := 24 * 60 * 60 * 1000.

(** [now.saturating_sub(t) < threshold]; a time of 0 is unknown and old. *)
Definition too_young (now threshold t : Z) : bool :=
  (0 <? t)%Z && (Z.max 0 (now - t) <? threshold)%Z.

(** The start of the first step. *)
Definition first_started_ms (j : Job) : Z :=
  default 0%Z (step_started_ms <$> head (job_step_history j)).

(** ** Jobs *)

Definition job_entry (j : Job) : JobEntry := mkJobEntry (job_id j) (job_name j) (job_step j).

Definition judge_job (now : Z) (flags : PruneFlags) (failed : bool) (j : Job) : Verdict JobEntry :=
  if outside (prune_namespace flags) (job_namespace j) then Ignore
  else if negb (Job_is_terminal j) then Skip
  else if failed && negb (String.eqb (job_step j) "failed") then Skip
  else
    let skip_age_check := prune_all flags || (failed && String.eqb (job_step j) "failed")
                          || String.eqb (job_step j) "cancelled" in
    if negb skip_age_check && too_young now half_day_ms (first_started_ms j) then Skip
    else Prune (job_entry j).

Definition orphan_entry (bc : Breadcrumb) : JobEntry := mkJobEntry (bc_job_id bc) (bc_name bc) "orphaned".

(** ** Agents *)

Definition job_agent_entries (j : Job) : list AgentEntry :=
  omap (λ r, (λ aid, mkAgentEntry aid (job_id j) (step_name r)) <$> step_agent_id r) (job_step_history j).

Definition judge_agents_job (now : Z) (flags : PruneFlags) (j : Job)
    : Verdict (string * list AgentEntry) :=
  if negb (Job_is_terminal j) then Skip
  else if negb (prune_all flags) && too_young now day_ms (first_started_ms j) then Skip
  else Prune (job_id j, job_agent_entries j).

Definition judge_agent_run (now : Z) (flags : PruneFlags) (r : AgentRun) : Verdict (string * AgentEntry) :=
  if negb (AgentRun_is_terminal r) then Skip
  else if negb (prune_all flags) && too_young now day_ms (run_created_at_ms r) then Skip
  else Prune (run_id r, mkAgentEntry (run_known_as r) "" (run_agent_name r)).

(** ** Workers, crons, sessions *)

Definition judge_worker (flags : PruneFlags) (r : WorkerRecord) : Verdict WorkerEntry :=
  if outside (prune_namespace flags) (worker_namespace r) then Ignore
  else if negb (String.eqb (worker_status r) "stopped") then Skip
  else Prune (mkWorkerEntry (worker_name r) (worker_namespace r)).

Definition judge_cron (r : CronRecord) : Verdict CronEntry :=
  if negb (String.eqb (cron_rec_status r) "stopped") then Skip
  else Prune (mkCronEntry (cron_rec_name r) (cron_rec_namespace r)).

(** The namespace of a session's job or agent run, whether that has ended, and
    when it began. *)
Definition session_owner {Value} (env : Env) (s : MaterializedState Value) (ses : Session)
    : string * bool * Z :=
  match jobs s !! session_job_id ses with
  | Some j => (job_namespace j, Job_is_terminal j, first_started_ms j)
  | None =>
      match List.find (λ r, bool_decide (run_session_id r = Some (session_id ses)))
              (table_values env TAgentRuns (agent_runs s)) with
      | Some r => (run_namespace r, AgentRun_is_terminal r, run_created_at_ms r)
      | None => ("", true, 0%Z)
      end
  end.

Definition judge_session {Value} (env : Env) (now : Z) (flags : PruneFlags)
    (s : MaterializedState Value) (ses : Session) : Verdict SessionEntry :=
  let '(namespace, ended, created_at) := session_owner env s ses in
  if outside (prune_namespace flags) namespace then Ignore
  else if negb ended then Skip
  else if negb (prune_all flags) && too_young now half_day_ms created_at then Skip
  else Prune (mkSessionEntry (session_id ses) (session_job_id ses) namespace).

(** ** Workspaces *)

(** The namespace of a workspace, from its owner. *)
Definition workspace_namespace {Value} (s : MaterializedState Value) (w : Workspace) : option string :=
  match workspace_owner w with
  | Some (Owner_Job job_id) => job_namespace <$> jobs s !! job_id
  | Some (Owner_AgentRun ar_id) => run_namespace <$> agent_runs s !! ar_id
  | None => None
  end.

(** The workspaces of a namespace, and those whose namespace is not known. *)
Definition allowed_workspaces {Value} (s : MaterializedState Value) (ns : string) : gset string :=
  dom (filter (λ kw, default ns (workspace_namespace s kw.2) = ns) (workspaces s)).

Definition not_allowed (allowed : option (gset string)) (id : string) : bool :=
  match allowed with Some ids => negb (bool_decide (id ∈ ids)) | None => false end.

(** 12 hours in nanoseconds. *)
Definition half_day_ns : Z := 12 * 60 * 60 * 1000000000.

Section Prune.
Context {Value W : Type} `{RIO : !RuntimeIO Value W} `{LIO : !ListenIO W} `{EC : !Codec (Event Value)}.
Context `{FL : !Files W}.
Abbreviation L := (Listen Value W) (only parsing).
Abbreviation M := (LM Value W) (only parsing).
Abbreviation St := (MaterializedState Value) (only parsing).
Implicit Types (l : L) (s : St).

Definition cleanup_agent_files (agent_id : string) (w : W) : W :=
  fs_remove_dir_all (agent_session_log_dir logs_path agent_id)
    (fs_remove_file (agent_log_path logs_path agent_id) w).

Definition cleanup_job_files (job_id : string) (w : W) : W :=
  cleanup_agent_files job_id
    (fs_remove_file (breadcrumb_path logs_path job_id)
      (fs_remove_file (job_log_path logs_path job_id) w)).

(** The orphans, the last first; without a dry run they are removed. *)
Definition prune_orphans (dry_run : bool) : M (list JobEntry) :=
  orphans ← get_orphans;
  (if dry_run then mret tt
   else act_on (λ w, foldl (λ w bc, cleanup_job_files (bc_job_id bc) w) w (rev orphans));;
        set_orphans []);;
  mret (orphan_entry <$> rev orphans).

Definition handle_job_prune (flags : PruneFlags) (failed orphans : bool) : M Response :=
  now ← now_ms;
  let prune_terminal := prune_all flags || failed || negb orphans in
  found ← (if prune_terminal
           then lock (λ env s, collect (judge_job now flags failed) (table_values env TJobs (jobs s)))
           else mret ([], 0));
  let '(to_prune, skipped) := found in
  (if prune_dry_run flags then mret tt
   else each_do (λ e, emit (JobDeleted (je_id e));; act_on (cleanup_job_files (je_id e))) to_prune);;
  orphaned ← (if orphans then prune_orphans (prune_dry_run flags) else mret []);
  mret (Resp_JobsPruned (to_prune ++ orphaned)%list skipped).

Definition agents_to_prune (now : Z) (flags : PruneFlags) (env : Env) (s : St)
    : list (string * list AgentEntry) * list (string * AgentEntry) * nat :=
  let '(js, skipped) := collect (judge_agents_job now flags) (table_values env TJobs (jobs s)) in
  let '(runs, skipped') := collect (judge_agent_run now flags)
                             (table_values env TAgentRuns (agent_runs s)) in
  (js, runs, skipped + skipped')%nat.

Definition handle_agent_prune (flags : PruneFlags) : M Response :=
  now ← now_ms;
  found ← lock (agents_to_prune now flags);
  let '(js, runs, skipped) := found in
  let to_prune := ((js ≫= snd) ++ runs.*2)%list in
  (if prune_dry_run flags then mret tt
   else each_do (λ ja, emit (JobDeleted ja.1);; act_on (cleanup_job_files ja.1)) js;;
        each_do (λ ra, emit (AgentRunDeleted ra.1)) runs;;
        each_do (λ e, act_on (cleanup_agent_files (ae_agent_id e))) to_prune);;
  mret (Resp_AgentsPruned to_prune skipped).

Definition handle_worker_prune (flags : PruneFlags) : M Response :=
  found ← lock (λ env s, collect (judge_worker flags) (table_values env TWorkers (workers s)));
  let '(to_prune, skipped) := found in
  (if prune_dry_run flags then mret tt
   else each_do (λ e, emit (WorkerDeleted (wke_name e) (wke_namespace e))) to_prune);;
  mret (Resp_WorkersPruned to_prune skipped).

Definition handle_cron_prune (flags : PruneFlags) : M Response :=
  found ← lock (λ env s, collect judge_cron (table_values env TCrons (crons s)));
  let '(to_prune, skipped) := found in
  (if prune_dry_run flags then mret tt
   else each_do (λ e, emit (CronDeleted (ce_name e) (ce_namespace e))) to_prune);;
  mret (Resp_CronsPruned to_prune skipped).

Definition handle_session_prune (flags : PruneFlags) : M Response :=
  now ← now_ms;
  found ← lock (λ env s, collect (judge_session env now flags s)
                           (table_values env TSessions (sessions s)));
  let '(to_prune, skipped) := found in
  (if prune_dry_run flags then mret tt
   else each_do (λ e, act_on (tmux_kill_session (se_id e));; emit (SessionDeleted (se_id e))) to_prune);;
  mret (Resp_SessionsPruned to_prune skipped).

(** A child of the workspaces directory; its file name as it is. *)
Definition judge_workspace_dir (flags : PruneFlags) (allowed : option (gset string)) (w : W)
    (path : PathBuf) : Verdict WorkspaceEntry :=
  if negb (fs_is_dir path w) then Ignore
  else
    let id := path_file_name path in
    if not_allowed allowed id then Ignore
    else if negb (prune_all flags)
            && match fs_age path w with Some age => (age <? half_day_ns)%Z | None => false end
    then Skip
    else Prune (mkWorkspaceEntry id path None).

(** The entries of the state whose directory is gone. *)
Definition orphaned_workspaces (allowed : option (gset string)) (listed : list WorkspaceEntry)
    (w : W) (env : Env) (s : St) : list WorkspaceEntry :=
  workspace_entry <$>
    List.filter (λ kw, negb (existsb (λ e, String.eqb (we_id e) kw.1) listed)
                       && negb (not_allowed allowed kw.1)
                       && negb (fs_is_dir (workspace_path kw.2) w))
      (table_entries env TWorkspaces (workspaces s)).

Definition remove_workspace_dir (path : PathBuf) (w : W) : W :=
  if fs_is_dir path w then
    let w := if fs_is_file (path_join path ".git") w then git_worktree_remove path w else w in
    fs_remove_dir_all path w
  else w.

Definition workspace_prune_inner (flags : PruneFlags) (workspaces_dir : PathBuf) : M Response :=
  allowed ← (match prune_namespace flags with
             | Some ns => lock (λ _ s, Some (allowed_workspaces s ns))
             | None => mret None
             end);
  entries ← see (fs_read_dir workspaces_dir);
  match entries with
  | None => mret (Resp_WorkspacesPruned [] 0)
  | Some paths =>
      found ← see (λ w, collect (judge_workspace_dir flags allowed w) paths);
      let '(on_disk, skipped) := found in
      w ← see (λ w, w);
      orphaned ← lock (orphaned_workspaces allowed on_disk w);
      let to_prune := (on_disk ++ orphaned)%list in
      (if prune_dry_run flags then mret tt
       else each_do (λ e, act_on (remove_workspace_dir (we_path e));;
                          emit (WorkspaceDeleted (we_id e))) to_prune);;
      mret (Resp_WorkspacesPruned to_prune skipped)
  end.

Definition handle_workspace_prune (flags : PruneFlags) : M Response :=
  workspace_prune_inner flags (path_join (default "." daemon_state_dir) "workspaces").
End Prune.

Local Close Scope string_scope.
