(* ===== verification/ListenRun.v ===== *)
(** Requests about workers, crons and commands:
    [crates/daemon/src/listener/workers.rs], [crons.rs] and [commands.rs].

    Each start loads the runbook, checks what it names, and sends the runbook
    and the start as events; nothing is sent when a check fails. *)

From S2P Require Import Prelude Ids Runbook Bytes Slug Entities Job Event State Runtime Wal WorkerQueue.
From S2P Require Import ShellAst RunbookParse CommandArgs Breadcrumb Suggest Protocol Listener.

Local Open Scope string_scope.

Section ListenRun.
Context {Value W : Type} `{RIO : !RuntimeIO Value W} `{LIO : !ListenIO W} `{CIO : !CronIO W}.
Context `{EC : !Codec (Event Value)} `{HO : !HashOrder}.
Abbreviation L := (Listen Value W) (only parsing).
Abbreviation M := (LM Value W) (only parsing).
Abbreviation St := (MaterializedState Value) (only parsing).
Implicit Types (l : L) (s : St).

(** The names that the runbooks of a root define; none if they cannot be read. *)
Definition runbook_names {V} (collect : PathBuf → W → option (list (string * V))) (root : PathBuf)
    (w : W) : list string := (default [] (collect (runbook_dir root) w)).*1.

(** ** Workers *)

Definition load_runbook_for_worker (worker_name : string) (root : PathBuf) (w : W) : string + Runbook :=
  required ("no runbook found containing worker '" +:+ worker_name +:+ "'")
    (find_runbook_by_worker (runbook_dir root) worker_name w).

Definition suggest_for_worker (project_root : option PathBuf) (name namespace command_prefix : string)
    : M string :=
  suggest_for_resource name namespace command_prefix Res_Worker
    (λ w, match project_root with Some r => runbook_names collect_all_workers r w | None => [] end)
    (λ env s, worker_name <$> List.filter (λ r, String.eqb (worker_namespace r) namespace)
                                (table_values env TWorkers (workers s))).

Definition worker_running (s : St) (scoped : string) : bool :=
  match workers s !! scoped with Some r => String.eqb (worker_status r) "running" | None => false end.

Definition worker_started_event (name : string) (root : PathBuf) (hash : string) (def : WorkerDef)
    (namespace : string) : Event Value :=
  WorkerStarted name root hash (worker_source_queue def) (worker_def_concurrency def) namespace.

(** [handle_worker_start] without [all]. *)
Definition handle_worker_start (project_root : PathBuf) (namespace name : string) : M Response :=
  loaded ←? load_runbook_with_fallback project_root namespace (load_runbook_for_worker name)
              (suggest_for_worker (Some project_root) name namespace "oj worker start");
  let '(runbook, root) := loaded in
  or_answer (get_worker name runbook) ("unknown worker: " +:+ name) (λ def,
  or_answer (get_queue (worker_source_queue def) runbook)
    ("worker '" +:+ name +:+ "' references unknown queue '" +:+ worker_source_queue def +:+ "'") (λ _,
  or_answer (get_job_def (worker_handler_job def) runbook)
    ("worker '" +:+ name +:+ "' references unknown job '" +:+ worker_handler_job def +:+ "'") (λ _,
    already_running ← lock (λ _ s, worker_running s (scoped_name namespace name));
    if (already_running : bool) then
      emit (WorkerWake name namespace);; mret (Resp_WorkerStarted name)
    else
      hash ← hash_and_emit_runbook runbook;
      emit (worker_started_event name root hash def namespace);;
      mret (Resp_WorkerStarted name)))).

Definition resolve_effective_project_root (project_root : PathBuf) (namespace : string) : M PathBuf :=
  project_namespace ← see (root_namespace project_root);
  if negb (is_empty namespace) && negb (String.eqb namespace project_namespace) then
    known ← lock (λ env s, project_root_for_namespace env s namespace);
    mret (default project_root known)
  else mret project_root.

Definition worker_started_name (r : Response) : option string :=
  match r with Resp_WorkerStarted name => Some name | _ => None end.

Definition handle_worker_start_all (project_root : PathBuf) (namespace : string) : M Response :=
  root ← resolve_effective_project_root project_root namespace;
  names ← see (runbook_names collect_all_workers root);
  results ← collect_start_results names (handle_worker_start root namespace) worker_started_name [] [];
  mret (Resp_WorkersStarted results.1 results.2).

Definition handle_worker_stop (name namespace : string) (project_root : option PathBuf) : M Response :=
  _ ←? require_scoped_resource namespace name "worker" (λ s k, is_some (workers s !! k))
         (suggest_for_worker project_root name namespace "oj worker stop");
  emit (WorkerStopped name namespace);; mret Resp_Ok.

Definition handle_worker_restart (project_root : PathBuf) (namespace name : string) : M Response :=
  exists_ ← scoped_exists namespace name (λ s k, is_some (workers s !! k));
  (if (exists_ : bool) then emit (WorkerStopped name namespace) else mret tt);;
  handle_worker_start project_root namespace name.

Definition handle_worker_resize (name namespace : string) (concurrency : Z) : M Response :=
  if (concurrency =? 0)%Z then answer_error "concurrency must be at least 1"
  else
    old ← lock (λ _ s, worker_concurrency <$> workers s !! scoped_name namespace name);
    or_answer old ("unknown worker: " +:+ name) (λ old_concurrency,
      emit (WorkerResized name concurrency namespace);;
      mret (Resp_WorkerResized name old_concurrency concurrency)).

(** ** Crons *)

Definition load_runbook_for_cron (cron_name : string) (root : PathBuf) (w : W) : string + Runbook :=
  required ("no runbook found containing cron '" +:+ cron_name +:+ "'")
    (find_runbook_by_cron (runbook_dir root) cron_name w).

Definition suggest_for_cron (project_root : option PathBuf) (name namespace command_prefix : string)
    : M string :=
  suggest_for_resource name namespace command_prefix Res_Cron
    (λ w, match project_root with Some r => runbook_names collect_all_crons r w | None => [] end)
    (λ env s, cron_rec_name <$> List.filter (λ r, String.eqb (cron_rec_namespace r) namespace)
                                  (table_values env TCrons (crons s))).

(** What a cron runs: the job kind, empty for an agent, and the run target; or
    the message of the error. *)
Definition cron_target (name : string) (def : CronDef) (runbook : Runbook) : string + (string * string) :=
  match cron_run def with
  | Run_Job job =>
      if is_some (get_job_def job runbook) then inr (job, "job:" +:+ job)
      else inl ("cron '" +:+ name +:+ "' references unknown job '" +:+ job +:+ "'")
  | Run_Agent agent _ =>
      if is_some (get_agent agent runbook) then inr ("", "agent:" +:+ agent)
      else inl ("cron '" +:+ name +:+ "' references unknown agent '" +:+ agent +:+ "'")
  | Run_Shell _ => inl ("cron '" +:+ name +:+ "' run must reference a job or agent")
  end.

(** The runbook of a cron, its root, the definition and what it runs. *)
Definition with_cron (project_root : PathBuf) (namespace name command_prefix : string)
    (k : Runbook → PathBuf → CronDef → string * string → M Response) : M Response :=
  loaded ←? load_runbook_with_fallback project_root namespace (load_runbook_for_cron name)
              (suggest_for_cron (Some project_root) name namespace command_prefix);
  let '(runbook, root) := loaded in
  or_answer (get_cron name runbook) ("unknown cron: " +:+ name) (λ def,
    match cron_target name def runbook with
    | inl message => answer_error message
    | inr target => k runbook root def target
    end).

(** [handle_cron_start] without [all].  The event is applied at once. *)
Definition handle_cron_start (project_root : PathBuf) (namespace name : string) : M Response :=
  with_cron project_root namespace name "oj cron start" (λ runbook root def target,
    hash ← hash_and_emit_runbook runbook;
    let event := CronStarted name root hash (cron_interval def) target.2 namespace in
    emit event;; lock_apply event;;
    mret (Resp_CronStarted name)).

Definition cron_started_name (r : Response) : option string :=
  match r with Resp_CronStarted name => Some name | _ => None end.

Definition handle_cron_start_all (project_root : PathBuf) (namespace : string) : M Response :=
  names ← see (runbook_names collect_all_crons project_root);
  results ← collect_start_results names (handle_cron_start project_root namespace) cron_started_name [] [];
  mret (Resp_CronsStarted results.1 results.2).

Definition handle_cron_stop (name namespace : string) (project_root : option PathBuf) : M Response :=
  _ ←? require_scoped_resource namespace name "cron" (λ s k, is_some (crons s !! k))
         (suggest_for_cron project_root name namespace "oj cron stop");
  emit (CronStopped name namespace);; lock_apply (CronStopped name namespace);;
  mret Resp_Ok.

Definition handle_cron_once (project_root : PathBuf) (namespace name : string) : M Response :=
  with_cron project_root namespace name "oj cron once" (λ runbook root _ target,
    let '(job_kind, run_target) := target in
    hash ← hash_and_emit_runbook runbook;
    if starts_with "agent:" run_target then
      let agent_name := default "" (strip_prefix "agent:" run_target) in
      agent_run_id ← fresh_id;
      emit (CronOnce name "" "" "" (Some agent_run_id) (Some agent_name) root hash run_target namespace);;
      mret (Resp_CommandStarted agent_run_id ("agent:" +:+ agent_name))
    else
      job_id ← fresh_id;
      nonce ← or_panic (short job_id 8);
      let job_name := job_display_name job_kind nonce namespace in
      emit (CronOnce name job_id job_name job_kind None None root hash run_target namespace);;
      mret (Resp_CommandStarted job_id job_name)).

Definition handle_cron_restart (project_root : PathBuf) (namespace name : string) : M Response :=
  exists_ ← scoped_exists namespace name (λ s k, is_some (crons s !! k));
  (if (exists_ : bool) then emit (CronStopped name namespace) else mret tt);;
  handle_cron_start project_root namespace name.

(** ** Commands *)

Definition ArgValidationError_display (e : ArgValidationError) : string :=
  match e with
  | Arg_MissingPositional name => "missing required argument: <" +:+ name +:+ ">"
  | Arg_MissingOption name => "missing required option: --" +:+ name
  | Arg_MissingVariadic name => "missing required argument: <" +:+ name +:+ "...>"
  | Arg_UnexpectedPositional arg => "unexpected positional argument: " +:+ arg
  | Arg_UnknownOption name => "unknown option: --" +:+ name
  end.

Definition load_runbook (name : string) (root : PathBuf) (w : W) : string + Runbook :=
  required ("unknown command: " +:+ name) (find_runbook_by_command (runbook_dir root) name w).

Definition suggest_for_command (project_root : PathBuf) (name namespace : string) : M string :=
  suggest_for_resource name namespace "oj run" Res_Command
    (runbook_names collect_all_commands project_root) (λ _ _, []).

Definition handle_run_command (project_root invoke_dir : PathBuf) (namespace command : string)
    (args : list string) (named_args : gmap string string) : M Response :=
  loaded ←? load_runbook_with_fallback project_root namespace (load_runbook command)
              (suggest_for_command project_root command namespace);
  let '(runbook, root) := loaded in
  or_answer (get_command command runbook) ("unknown command: " +:+ command) (λ cmd_def,
    match validate_args cmd_def args named_args with
    | Err e => answer_error (ArgValidationError_display e)
    | _ =>
        let job_name := default command (directive_job (command_run cmd_def)) in
        job_id ← fresh_id;
        emit (CommandRun job_id job_name root invoke_dir namespace command
                (parse_args cmd_def args named_args));;
        mret (match directive_agent (command_run cmd_def) with
              | Some agent => Resp_AgentRunStarted job_id agent
              | None => Resp_CommandStarted job_id job_name
              end)
    end).
End ListenRun.

Local Close Scope string_scope.
