(* ===== verification/ListenQueues.v ===== *)
(** Requests about queues: [crates/daemon/src/listener/queues.rs].

    Every request loads the runbook that holds the queue first; all but a push
    are for persisted queues only.  An item is named by its id or by a prefix
    of one id only. *)

From S2P Require Import Prelude Ids Runbook Bytes Slug Entities Job Event State Runtime WorkerQueue.
From S2P Require Import DecisionBuilder Wal RunbookParse CommandArgs Protocol Breadcrumb Suggest.
From S2P Require Import Listener Mutations ListenRun.

Local Open Scope string_scope.

(** [{:?}] of an item's status. *)
Definition QueueItemStatus_debug (s : QueueItemStatus) : string :=
  match s with
  | Item_Pending => "Pending"
  | Item_Active => "Active"
  | Item_Completed => "Completed"
  | Item_Failed => "Failed"
  | Item_Dead => "Dead"
  end.

Definition item_has (statuses : list QueueItemStatus) (i : QueueItem) : bool :=
  bool_decide (item_status i ∈ statuses).

Record RetryFilter := mkRetryFilter {
  retry_ids : list string;
  retry_all_dead : bool;
  retry_status : option string
}.

(** Whether the items are chosen by their status. *)
Definition filtered (f : RetryFilter) : bool := retry_all_dead f || is_some (retry_status f).

Definition matches_filter (f : RetryFilter) (i : QueueItem) : bool :=
  if retry_all_dead f then item_has [Item_Dead] i
  else match retry_status f with
       | Some status =>
           let status := to_lowercase status in
           if String.eqb status "dead" then item_has [Item_Dead] i
           else if String.eqb status "failed" then item_has [Item_Failed] i
           else false
       | None => false
       end.

Definition item_summary (i : QueueItem) : QueueItemSummary :=
  mkQueueItemSummary (item_id i) (QueueItemStatus_display (item_status i)) (item_data i)
    (item_worker_name i) (item_pushed_at_epoch_ms i) (item_failure_count i).

(** The full id of an item named by its id or by a prefix, or the message of
    the error. *)
Definition resolve_item (queue_name wanted : string) (items : list QueueItem) : string + string :=
  match List.find (λ i, String.eqb (item_id i) wanted) items with
  | Some i => inr (item_id i)
  | None =>
      match List.filter (λ i, starts_with wanted (item_id i)) items with
      | [i] => inr (item_id i)
      | [] => inl ("item '" +:+ wanted +:+ "' not found in queue '" +:+ queue_name +:+ "'")
      | matches =>
          inl ("ambiguous item ID '" +:+ wanted +:+ "': " +:+ pretty (length matches)
               +:+ " matches in queue '" +:+ queue_name +:+ "'")
      end
  end.

(** The item to prune and its status, by age unless all are. *)
Definition judge_item (now : Z) (all : bool) (queue_name : string) (i : QueueItem)
    : Verdict QueueItemEntry :=
  if negb (item_has [Item_Completed; Item_Dead] i) then Skip
  else if negb all && (Z.max 0 (now - item_pushed_at_epoch_ms i) <? half_day_ms)%Z then Skip
  else Prune (mkQueueItemEntry queue_name (item_id i) (QueueItemStatus_display (item_status i))).

Section ListenQueues.
Context {Value W : Type} `{RIO : !RuntimeIO Value W} `{LIO : !ListenIO W}.
Context `{EC : !Codec (Event Value)} `{HO : !HashOrder} `{JI : !JsonItem Value}.
Abbreviation L := (Listen Value W) (only parsing).
Abbreviation M := (LM Value W) (only parsing).
Abbreviation St := (MaterializedState Value) (only parsing).
Implicit Types (l : L) (s : St).

Definition load_runbook_for_queue (queue_name : string) (root : PathBuf) (w : W) : string + Runbook :=
  required ("no runbook found containing queue '" +:+ queue_name +:+ "'")
    (find_runbook_by_queue (runbook_dir root) queue_name w).

(** The queues of a namespace with items or a history of them. *)
Definition state_queues (namespace : string) (env : Env) (s : St) : list string :=
  omap (λ k, let '(item_ns, name) := split_scoped_name k in
             if String.eqb item_ns namespace then Some name else None)
    (iter_order env TQueues (dom (queue_items s))).

Definition suggest_for_queue (project_root : PathBuf) (name namespace command_prefix : string)
    : M string :=
  suggest_for_resource name namespace command_prefix Res_Queue
    (runbook_names collect_all_queues project_root) (state_queues namespace).

(** The runbook of a queue, its root and the queue's definition. *)
Definition with_queue (project_root : PathBuf) (namespace name command_prefix : string)
    (k : Runbook → PathBuf → QueueDef → M Response) : M Response :=
  loaded ←? load_runbook_with_fallback project_root namespace (load_runbook_for_queue name)
              (suggest_for_queue project_root name namespace command_prefix);
  let '(runbook, root) := loaded in
  or_answer (get_queue name runbook) ("unknown queue: " +:+ name) (λ def, k runbook root def).

Definition with_persisted_queue (project_root : PathBuf) (namespace name command_prefix : string)
    (k : Runbook → PathBuf → M Response) : M Response :=
  with_queue project_root namespace name command_prefix (λ runbook root def,
    if bool_decide (qdef_type def = Persisted) then k runbook root
    else answer_error ("queue '" +:+ name +:+ "' is not a persisted queue")).

(** The items of a queue; a queue without an entry has none. *)
Definition items_of (s : St) (namespace queue_name : string) : list QueueItem :=
  default [] (queue_items s !! scoped_name namespace queue_name).

Definition resolve_queue_item_id (namespace queue_name wanted : string) : M (Response + string) :=
  found ← lock (λ _ s, resolve_item queue_name wanted (items_of s namespace queue_name));
  mret (match found with inl message => inl (Resp_Error message) | inr id => inr id end).

(** The status of an item when its id has been resolved. *)
Definition item_status_of (namespace queue_name id : string) : M (option QueueItemStatus) :=
  lock (λ _ s, item_status <$>
    List.find (λ i, String.eqb (item_id i) id) (items_of s namespace queue_name)).

(** ** Workers of a queue *)

(** The workers that take from a queue, in the order of the runbook's map. *)
Definition attached_workers (queue_name : string) (runbook : Runbook) : list (string * WorkerDef) :=
  List.filter (λ nw, String.eqb (worker_source_queue nw.2) queue_name)
    (omap (λ n, pair n <$> rb_workers runbook !! n) (hash_order (dom (rb_workers runbook)))).

Definition wake_worker (project_root : PathBuf) (namespace : string) (runbook : Runbook)
    (nw : string * WorkerDef) : M unit :=
  is_running ← lock (λ _ s, worker_running s (scoped_name namespace nw.1));
  if (is_running : bool) then emit (WorkerWake nw.1 namespace)
  else hash ← hash_and_emit_runbook runbook;
       emit (worker_started_event nw.1 project_root hash nw.2 namespace).

Definition wake_attached_workers (project_root : PathBuf) (namespace queue_name : string)
    (runbook : Runbook) : M unit :=
  each_do (wake_worker project_root namespace runbook) (attached_workers queue_name runbook).

(** ** Pushing *)

Definition missing_fields (def : QueueDef) (obj : gmap string Value) : list string :=
  List.filter (λ v, negb (is_some (obj !! v)) && negb (is_some (qdef_defaults def !! v)))
    (qdef_vars def).

Definition queue_field_text (v : Value) : string := default (json_to_string v) (json_as_str v).

(** The text of every field, and the defaults of those that are absent. *)
Definition final_data (def : QueueDef) (obj : gmap string Value) : gmap string string :=
  (queue_field_text <$> obj) ∪ qdef_defaults def.

(** A pending or active item with the same data. *)
Definition same_item (data : gmap string string) (items : list QueueItem) : option string :=
  item_id <$> List.find (λ i, item_has [Item_Pending; Item_Active] i
                              && bool_decide (item_data i = data)) items.

Definition push_new_item (root : PathBuf) (namespace queue_name : string) (runbook : Runbook)
    (data : gmap string string) : M Response :=
  existing ← lock (λ _ s, same_item data (items_of s namespace queue_name));
  match existing with
  | Some existing_id =>
      wake_attached_workers root namespace queue_name runbook;;
      mret (Resp_QueuePushed queue_name existing_id)
  | None =>
      item_id ← fresh_id;
      pushed_at ← now_ms;
      emit (QueuePushed queue_name item_id data pushed_at namespace);;
      wake_attached_workers root namespace queue_name runbook;;
      mret (Resp_QueuePushed queue_name item_id)
  end.

Definition handle_queue_push (project_root : PathBuf) (namespace queue_name : string) (data : Value)
    : M Response :=
  with_queue project_root namespace queue_name "oj queue push" (λ runbook root def,
    if negb (bool_decide (qdef_type def = Persisted)) then
      wake_attached_workers root namespace queue_name runbook;; mret Resp_Ok
    else
      or_answer (json_as_object data) "data must be a JSON object" (λ obj,
        match missing_fields def obj with
        | [] => push_new_item root namespace queue_name runbook (final_data def obj)
        | missing => answer_error ("missing required fields: " +:+ String.concat ", " missing)
        end)).

(** ** Dropping, draining, pruning *)

Definition handle_queue_drop (project_root : PathBuf) (namespace queue_name wanted : string)
    : M Response :=
  with_persisted_queue project_root namespace queue_name "oj queue drop" (λ _ _,
    id ←? resolve_queue_item_id namespace queue_name wanted;
    emit (QueueDropped queue_name id namespace);;
    mret (Resp_QueueDropped queue_name id)).

Definition handle_queue_drain (project_root : PathBuf) (namespace queue_name : string) : M Response :=
  with_persisted_queue project_root namespace queue_name "oj queue drain" (λ _ _,
    pending ← lock (λ _ s,
      item_summary <$> List.filter (item_has [Item_Pending]) (items_of s namespace queue_name));
    each_do (λ i, emit (QueueDropped queue_name (qis_id i) namespace)) pending;;
    mret (Resp_QueueDrained queue_name pending)).

Definition handle_queue_prune (project_root : PathBuf) (namespace queue_name : string)
    (all dry_run : bool) : M Response :=
  with_persisted_queue project_root namespace queue_name "oj queue prune" (λ _ _,
    now ← now_ms;
    found ← lock (λ _ s, collect (judge_item now all queue_name) (items_of s namespace queue_name));
    let '(to_prune, skipped) := found in
    (if dry_run then mret tt
     else each_do (λ e, emit (QueueDropped queue_name (qie_item_id e) namespace)) to_prune);;
    mret (Resp_QueuesPruned to_prune skipped)).

(** ** Forcing the end of an active item *)

Definition force_end (project_root : PathBuf) (namespace queue_name wanted command_prefix verb : string)
    (event : string → Event Value) (response : string → Response) : M Response :=
  with_persisted_queue project_root namespace queue_name command_prefix (λ _ _,
    id ←? resolve_queue_item_id namespace queue_name wanted;
    status ← item_status_of namespace queue_name id;
    match status with
    | Some (Item_Pending | Item_Completed | Item_Failed | Item_Dead) as found =>
        answer_error ("item '" +:+ id +:+ "' is " +:+ default "" (QueueItemStatus_debug <$> found)
                      +:+ ", only active items can be force-" +:+ verb)
    | Some Item_Active | None => emit (event id);; mret (response id)
    end).

Definition handle_queue_fail (project_root : PathBuf) (namespace queue_name wanted : string)
    : M Response :=
  force_end project_root namespace queue_name wanted "oj queue fail" "failed"
    (λ id, QueueFailed queue_name id "force-failed via oj queue fail" namespace)
    (Resp_QueueFailed queue_name).

Definition handle_queue_done (project_root : PathBuf) (namespace queue_name wanted : string)
    : M Response :=
  force_end project_root namespace queue_name wanted "oj queue done" "completed"
    (λ id, QueueCompleted queue_name id namespace) (Resp_QueueCompleted queue_name).

(** ** Retrying *)

(** One item that is named: the first error is the answer. *)
Definition retry_one (root : PathBuf) (namespace queue_name wanted : string) (runbook : Runbook)
    : M Response :=
  id ←? resolve_queue_item_id namespace queue_name wanted;
  status ← item_status_of namespace queue_name id;
  match status with
  | Some (Item_Pending | Item_Active | Item_Completed) as found =>
      answer_error ("item '" +:+ id +:+ "' is " +:+ default "" (QueueItemStatus_debug <$> found)
                    +:+ ", only dead or failed items can be retried")
  | Some (Item_Dead | Item_Failed) | None =>
      emit (QueueItemRetry queue_name id namespace);;
      wake_attached_workers root namespace queue_name runbook;;
      mret (Resp_QueueRetried queue_name id)
  end.

(** The items one after another: retried, in another status, and not found. *)
Fixpoint retry_each (namespace queue_name : string) (wanted : list string)
    (retried already_retried not_found : list string)
    : M (list string * list string * list string) :=
  match wanted with
  | [] => mret (retried, already_retried, not_found)
  | w :: wanted =>
      resolved ← resolve_queue_item_id namespace queue_name w;
      match resolved with
      | inl _ => retry_each namespace queue_name wanted retried already_retried (not_found ++ [w])%list
      | inr id =>
          status ← item_status_of namespace queue_name id;
          match status with
          | Some (Item_Dead | Item_Failed) =>
              emit (QueueItemRetry queue_name id namespace);;
              retry_each namespace queue_name wanted (retried ++ [id])%list already_retried not_found
          | Some _ =>
              retry_each namespace queue_name wanted retried (already_retried ++ [id])%list not_found
          | None =>
              retry_each namespace queue_name wanted retried already_retried (not_found ++ [w])%list
          end
      end
  end.

Definition retry_many (root : PathBuf) (namespace queue_name : string) (wanted : list string)
    (runbook : Runbook) : M Response :=
  results ← retry_each namespace queue_name wanted [] [] [];
  let '(retried, already_retried, not_found) := results in
  (match retried with
   | [] => mret tt
   | _ => wake_attached_workers root namespace queue_name runbook
   end);;
  mret (Resp_QueueItemsRetried queue_name retried already_retried not_found).

Definition handle_queue_retry (project_root : PathBuf) (namespace queue_name : string)
    (f : RetryFilter) : M Response :=
  with_persisted_queue project_root namespace queue_name "oj queue retry" (λ runbook root,
    wanted ← (if filtered f
              then lock (λ _ s, item_id <$>
                     List.filter (matches_filter f) (items_of s namespace queue_name))
              else mret (retry_ids f));
    match wanted with
    | [] => if filtered f then mret (Resp_QueueItemsRetried queue_name [] [] [])
            else retry_many root namespace queue_name [] runbook
    | [w] => if filtered f then retry_many root namespace queue_name [w] runbook
             else retry_one root namespace queue_name w runbook
    | wanted => retry_many root namespace queue_name wanted runbook
    end).
End ListenQueues.

Local Close Scope string_scope.

(** Resolving decisions: [crates/daemon/src/listener/decisions.rs]. *)

Local Open Scope string_scope.

Inductive ResolvedAction :=
  | Nudge | Complete | Cancel | Retry | Approve | Deny | Answer | Dismiss | Freeform.

#[export] Instance ResolvedAction_eq_dec : EqDecision ResolvedAction.
Proof. solve_decision. Defined.

Definition resolve_decision_action (source : DecisionSource) (chosen : option N)
    (options : list DecisionOption) : ResolvedAction :=
  match chosen with
  | None => Freeform
  | Some choice =>
      match source with
      | Source_Question => if (choice =? N.of_nat (length options))%N then Cancel else Answer
      | Source_Idle =>
          match choice with 3 => Cancel | 1 => Nudge | 2 => Complete | _ => Dismiss end%N
      | Source_Error | Source_Gate =>
          match choice with 3 => Cancel | 1 => Retry | 2 => Complete | _ => Dismiss end%N
      | Source_Approval =>
          match choice with 3 => Cancel | 1 => Approve | 2 => Deny | _ => Dismiss end%N
      end
  end.

(** [options.get(c - 1)]; a choice of 0 was refused before. *)
Definition build_question_resume_message (chosen : option N) (message : option string)
    (decision_id : string) (options : list DecisionOption) : string :=
  let selected := match chosen with
                  | Some c =>
                      let label := default "unknown" (option_label <$> options !! (N.to_nat c - 1)%nat) in
                      ["Selected: " +:+ label +:+ " (option " +:+ pretty c +:+ ")"]
                  | None => []
                  end in
  let parts := (selected ++ option_list message)%list in
  String.concat "; " (match parts with
                      | [] => ["decision " +:+ decision_id +:+ " resolved"]
                      | _ => parts
                      end).

Definition build_resume_message (chosen : option N) (message : option string) (decision_id : string)
    : string :=
  String.concat "; "
    match chosen, message with
    | Some c, Some m =>
        ["decision " +:+ decision_id +:+ " resolved: option " +:+ pretty c; "message: " +:+ m]
    | Some c, None => ["decision " +:+ decision_id +:+ " resolved: option " +:+ pretty c]
    | None, Some m => ["decision " +:+ decision_id +:+ " resolved: " +:+ m]
    | None, None => []
    end.

Section Actions.
Context {Value : Type}.

Definition map_decision_to_job_action (source : DecisionSource) (chosen : option N)
    (message : option string) (decision_id job_id : string) (job_step : option string)
    (options : list DecisionOption) : option (Event Value) :=
  let resume m := JobResume job_id (Some m) ∅ false in
  match resolve_decision_action source chosen options with
  | Freeform => (λ msg, resume ("decision " +:+ decision_id +:+ " freeform: " +:+ msg)) <$> message
  | Cancel | Deny => Some (JobCancel job_id)
  | Nudge | Retry => Some (resume (build_resume_message chosen message decision_id))
  | Complete => (λ step, StepCompleted job_id step) <$> job_step
  | Approve => Some (resume ("decision " +:+ decision_id +:+ " approved"))
  | Answer => Some (resume (build_question_resume_message chosen message decision_id options))
  | Dismiss => None
  end.

Definition map_decision_to_agent_run_action (source : DecisionSource) (chosen : option N)
    (message : option string) (decision_id : string) (ar_id : AgentRunId) (session_id : option string)
    (options : list DecisionOption) : list (Event Value) :=
  let send_to_session input := option_list ((λ sid, SessionInput sid (input +:+ newline_str)) <$> session_id) in
  match resolve_decision_action source chosen options with
  | Freeform => option_list ((λ msg, AgentRunResume ar_id (Some msg) false) <$> message)
  | Cancel =>
      [AgentRunStatusChanged ar_id Run_Failed (Some ("cancelled via decision " +:+ decision_id))]
  | Nudge => [AgentRunResume ar_id (Some (default "Please continue with the task." message)) false]
  | Complete =>
      let how := match source with Source_Error | Source_Gate => "skipped" | _ => "marked done" end in
      [AgentRunStatusChanged ar_id Run_Completed (Some (how +:+ " via decision " +:+ decision_id))]
  | Retry => [AgentRunResume ar_id (Some (build_resume_message chosen message decision_id)) true]
  | Approve => send_to_session "y"
  | Deny => send_to_session "n"
  | Answer =>
      match chosen, message with
      | Some c, _ => send_to_session (pretty c)
      | None, Some msg => send_to_session msg
      | None, None => []
      end
  | Dismiss => []
  end.
End Actions.

(** ** [handle_decision_resolve] *)

(** What is read under the lock: the decision, the step of its job, and the
    session of its agent run. *)
Record ToResolve := mkToResolve {
  tr_decision : Decision;
  tr_job_step : option string;
  tr_run_session : option string
}.

Section ListenDecisions.
Context {Value W : Type} `{EC : !Codec (Event Value)}.
Abbreviation M := (LM Value W) (only parsing).
Abbreviation St := (MaterializedState Value) (only parsing).
Implicit Types (s : St).

Definition refusal (id : string) (chosen : option N) (message : option string) (d : Decision)
    : option string :=
  let n := length (decision_options d) in
  if Decision_is_resolved d then Some ("decision " +:+ id +:+ " is already resolved")
  else match chosen with
       | Some choice =>
           if (choice =? 0)%N || (N.of_nat n <? choice)%N
           then Some ("choice " +:+ pretty choice +:+ " out of range (1.." +:+ pretty n +:+ ")")
           else None
       | None =>
           if is_some message then None
           else Some "must provide either a choice or a message (-m)"
       end.

Definition to_resolve (s : St) (d : Decision) : ToResolve :=
  mkToResolve d (job_step <$> jobs s !! decision_job_id d)
    match decision_owner d with
    | Owner_AgentRun ar_id => agent_runs s !! ar_id ≫= run_session_id
    | Owner_Job _ => None
    end.

Definition decision_actions (chosen : option N) (message : option string) (t : ToResolve)
    : list (Event Value) :=
  let d := tr_decision t in
  match decision_owner d with
  | Owner_AgentRun ar_id =>
      map_decision_to_agent_run_action (decision_source d) chosen message (decision_id d) ar_id
        (match tr_run_session t with Some sid => Some sid | None => decision_agent_id d end)
        (decision_options d)
  | Owner_Job _ =>
      option_list (map_decision_to_job_action (decision_source d) chosen message (decision_id d)
                     (decision_job_id d) (tr_job_step t) (decision_options d))
  end.

Definition handle_decision_resolve (id : string) (chosen : option N) (message : option string)
    : M Response :=
  found ← lock (λ _ s,
    match get_decision s id with
    | None => None
    | Some d => Some match refusal id chosen message d with
                     | Some m => inl m
                     | None => inr (to_resolve s d)
                     end
    end);
  match found with
  | None => fail_with (Conn_Internal ("decision not found: " +:+ id))
  | Some (inl m) => answer_error m
  | Some (inr t) =>
      let d := tr_decision t in
      now ← now_ms;
      emit (DecisionResolved (decision_id d) chosen message now (decision_namespace d));;
      emit_all (decision_actions chosen message t);;
      mret (Resp_DecisionResolved (decision_id d))
  end.
End ListenDecisions.

Local Close Scope string_scope.
