(* ===== verification/Query.v ===== *)
(** Queries about agents, crons and orphans:
    [crates/daemon/src/listener/query_agents.rs], [query_crons.rs] and
    [query_orphans.rs]. *)

From S2P Require Import Prelude Ids Runbook Bytes Vars Slug Entities Job Event State RunbookImport.
From S2P Require Import RunbookFind Runtime JobCreate Protocol Breadcrumb Suggest Listener Mutations.
From S2P Require Import ListenRun ListenQueues.

Local Open Scope string_scope.

(** [sort_by(|a, b| b.t.cmp(&a.t))]: the latest first, equal times in order. *)
Definition latest_first {A} (time : A → Z) (l : list A) : list A :=
  sort_by (λ a b, (time b <=? time a)%Z) l.

(** [find_map] *)
Fixpoint find_map {A B} (f : A → option B) (l : list A) : option B :=
  match l with
  | [] => None
  | a :: l => match f a with Some b => Some b | None => find_map f l end
  end.

(** ** Agent logs *)

(** What a line of an agent's log tells, after its time. *)
Definition line_kind (line : string) : option string := snd <$> split_once " " line.

Definition count_lines (prefixes : list string) (content : string) : nat :=
  length (List.filter (λ line, match line_kind line with
                               | Some rest => existsb (λ p, starts_with p rest) prefixes
                               | None => false
                               end) (str_lines content)).

(** Files read, files written, and commands run. *)
Definition log_stats (content : string) : nat * nat * nat :=
  (count_lines ["read:"] content, count_lines ["wrote:"; "edited:"] content,
   count_lines ["bash:"] content).

(** The reason an agent ended, from the outcome of its step. *)
Definition outcome_reason (s : StepRecordDetail) : option string :=
  match srd_outcome s with
  | OutcomeKind_Completed => Some "completed"
  | OutcomeKind_Waiting => Some "idle"
  | OutcomeKind_Failed =>
      Some match srd_detail s with Some d => "failed: " +:+ d | None => "failed" end
  | OutcomeKind_Running => None
  end.

Definition agent_summary (job_id : string) (namespace : option string) (content : string)
    (s : StepRecordDetail) (agent_id : string) : AgentSummary :=
  let '(files_read, files_written, commands_run) := log_stats content in
  mkAgentSummary job_id (srd_name s) agent_id (srd_agent_name s) namespace
    (StepOutcomeKind_display (srd_outcome s)) files_read files_written commands_run
    (if contains "error: session" content then Some "gone" else outcome_reason s)
    (default (srd_started_at_ms s) (srd_finished_at_ms s)).

(** The status of an agent as it is shown. *)
Definition record_status (s : AgentRecordStatus) : string :=
  match s with
  | Record_Starting | Record_Running => "running"
  | Record_Idle => "waiting"
  | Record_Exited => "completed"
  | Record_Gone => "failed"
  end.

(** [ar.agent_id.as_deref() == Some(&agent_id)] *)
Definition is_agent (agent_id : string) (o : option string) : bool := bool_decide (o = Some agent_id).

(** The first step of a job with the agent. *)
Definition step_of_agent (agent_id : string) (j : Job) : option StepRecord :=
  List.find (λ r, is_agent agent_id (step_agent_id r)) (job_step_history j).

Definition exit_of_outcome (o : StepOutcome) : option string :=
  match o with
  | Outcome_Completed => Some "completed"
  | Outcome_Waiting reason => Some ("idle: " +:+ reason)
  | Outcome_Failed msg => Some ("failed: " +:+ msg)
  | Outcome_Running => None
  end.

(** Matches a filter that may be absent. *)
Definition wanted_status (status : option string) (found : string) : bool :=
  match status with Some s => String.eqb found s | None => true end.

Definition run_summary (ar : AgentRun) : AgentSummary :=
  mkAgentSummary "" "" (run_known_as ar) (Some (run_agent_name ar))
    (namespace_to_option (run_namespace ar)) (AgentRunStatus_display (run_status ar))
    0 0 0 (run_error ar) (run_updated_at_ms ar).

Definition run_detail (ar : AgentRun) : AgentDetail :=
  mkAgentDetail (run_known_as ar) (Some (run_agent_name ar)) "" (run_command_name ar) ""
    (namespace_to_option (run_namespace ar)) (AgentRunStatus_display (run_status ar))
    (Some (run_cwd ar)) (run_session_id ar) 0 0 0 (run_error ar) (run_error ar)
    (run_created_at_ms ar) None (run_updated_at_ms ar).

(** Whether the agent may exit: an agent that is not known may. *)
Definition signal_answer (signal : option AgentSignal) : Response :=
  match signal with
  | Some sg => Resp_AgentSignal true (Some (signal_kind sg)) (signal_message sg)
  | None => Resp_AgentSignal false None None
  end.

Section QueryAgents.
Context {Value W : Type} `{LIO : !ListenIO W} `{FL : !Files W}.
Abbreviation St := (MaterializedState Value) (only parsing).
Implicit Types (s : St) (w : W).

Definition agent_log (agent_id : string) w : string :=
  default "" (fs_read (agent_log_path logs_path agent_id) w).

Definition compute_agent_summaries (job_id : string) (steps : list StepRecordDetail)
    (namespace : option string) w : list AgentSummary :=
  omap (λ st, (λ aid, agent_summary job_id namespace (agent_log aid w) st aid) <$> srd_agent_id st)
    steps.

Definition job_summaries (j : Job) w : list AgentSummary :=
  compute_agent_summaries (job_id j) (StepRecordDetail_from <$> job_step_history j)
    (namespace_to_option (job_namespace j)) w.

(** ** [handle_get_agent] *)

Definition job_agent_detail (agent_id : string) w (j : Job) : option AgentDetail :=
  sm ← List.find (λ a, id_matches agent_id (as_agent_id a)) (job_summaries j w);
  let step := List.find (λ st, is_agent (as_agent_id sm) (srd_agent_id st))
                (StepRecordDetail_from <$> job_step_history j) in
  let error := step ≫= λ st, match srd_outcome st with
                             | OutcomeKind_Failed => srd_detail st
                             | _ => None
                             end in
  Some (mkAgentDetail (as_agent_id sm) (as_agent_name sm) (job_id j) (job_name j) (as_step_name sm)
          (namespace_to_option (job_namespace j)) (as_status sm) (job_workspace_path j)
          (job_session_id j) (as_files_read sm) (as_files_written sm) (as_commands_run sm)
          (as_exit_reason sm) error (default 0%Z (srd_started_at_ms <$> step))
          (step ≫= srd_finished_at_ms) (as_updated_at_ms sm)).

Definition run_agent_detail (agent_id : string) (ar : AgentRun) : option AgentDetail :=
  if id_matches agent_id (run_known_as ar) || id_matches agent_id (run_id ar)
  then Some (run_detail ar) else None.

Definition handle_get_agent (agent_id : string) (env : Env) s w : Response :=
  Resp_Agent
    (first_of (find_map (job_agent_detail agent_id w) (table_values env TJobs (jobs s)))
       (find_map (run_agent_detail agent_id) (table_values env TAgentRuns (agent_runs s)))).

(** ** [handle_get_agent_signal] *)

Definition handle_get_agent_signal (agent_id : string) (env : Env) s : Response :=
  match List.find (λ ar, is_agent agent_id (run_agent_id ar))
          (table_values env TAgentRuns (agent_runs s)) with
  | Some ar => signal_answer (agent_signal (run_action_tracker ar))
  | None =>
      match List.find (λ j, is_agent agent_id (current_step_agent j)) (table_values env TJobs (jobs s)) with
      | Some j => signal_answer (agent_signal (job_action_tracker j))
      | None => Resp_AgentSignal true None None
      end
  end.

(** ** [handle_list_agents] *)

(** Whether a job filter lets an agent through: it hides standalone agents. *)
Definition owner_wanted (job_prefix : option string) (owner : OwnerId) : bool :=
  match job_prefix, owner with
  | None, _ => true
  | Some prefix, Owner_Job jid => starts_with prefix jid
  | Some _, Owner_AgentRun _ => false
  end.

Definition record_summary s w (r : AgentRecord) : AgentSummary :=
  let '(files_read, files_written, commands_run) := log_stats (agent_log (rec_agent_id r) w) in
  let '(owner_job_id, step, exit_reason) :=
    match rec_owner r with
    | Owner_Job jid =>
        let found := jobs s !! jid ≫= step_of_agent (rec_agent_id r) in
        (jid, default "" (step_name <$> found), found ≫= λ st, exit_of_outcome (step_outcome st))
    | Owner_AgentRun arid => ("", "", agent_runs s !! arid ≫= run_error)
    end in
  mkAgentSummary owner_job_id step (rec_agent_id r) (Some (rec_agent_name r))
    (namespace_to_option (rec_namespace r)) (record_status (rec_status r))
    files_read files_written commands_run exit_reason (rec_updated_at_ms r).

Definition listed_records (job_prefix status : option string) (env : Env) s : list AgentRecord :=
  List.filter (λ r, owner_wanted job_prefix (rec_owner r)
                    && wanted_status status (record_status (rec_status r)))
    (table_values env TAgents (agents s)).

(** The agents of the map; then those of jobs and runs that are not among the
    listed ones. *)
Definition handle_list_agents (job_prefix status : option string) (env : Env) s w : Response :=
  let records := listed_records job_prefix status env s in
  let tracked := rec_agent_id <$> records in
  let untracked id := negb (existsb (String.eqb id) tracked) in
  let of_jobs :=
    List.filter (λ a, untracked (as_agent_id a) && wanted_status status (as_status a))
      (List.filter (λ j, match job_prefix with Some p => starts_with p (job_id j) | None => true end)
         (table_values env TJobs (jobs s)) ≫= λ j, job_summaries j w) in
  let of_runs :=
    run_summary <$>
      List.filter (λ ar, untracked (run_known_as ar)
                         && wanted_status status (AgentRunStatus_display (run_status ar)))
        (table_values env TAgentRuns (agent_runs s)) in
  Resp_Agents (latest_first as_updated_at_ms ((record_summary s w <$> records) ++ of_jobs ++ of_runs)%list).
End QueryAgents.

(** ** Crons: [query_crons.rs] *)

(** The product wraps. *)
Definition parse_interval_ms (s : string) : option Z :=
  let '(num_str, suffix) := split_digits (trim s) in
  num ← parse_u64 num_str;
  m ← multiplier (trim suffix);
  Some (u64_wrap (num * (m * 1000))).

Definition u64_max : Z := 2 ^ 64 - 1.

Definition cron_time_display (c : CronRecord) (now : Z) : string :=
  if String.eqb (cron_rec_status c) "running" then
    let base := default (cron_rec_started_at_ms c) (cron_rec_last_fired_at_ms c) in
    if (base =? 0)%Z then "-"
    else
      let next := Z.min u64_max (base + default 0%Z (parse_interval_ms (cron_rec_interval c))) in
      if (next <=? now)%Z then "now"
      else "in " +:+ format_elapsed (Z.to_N ((next - now) / 1000))
  else match cron_rec_last_fired_at_ms c with
       | Some fired =>
           if ((0 <? fired) && (fired <=? now))%Z
           then format_elapsed (Z.to_N ((now - fired) / 1000)) +:+ " ago"
           else "-"
       | None => "-"
       end.

Definition cron_summary (now : Z) (c : CronRecord) : CronSummary :=
  mkCronSummary (cron_rec_name c) (cron_rec_namespace c) (cron_rec_interval c)
    (cron_rec_run_target c) (cron_rec_status c) (cron_time_display c now).

(** ** Orphans: [query_orphans.rs] *)

Definition parse_step_status_kind (s : string) : StepStatusKind :=
  if String.eqb s "pending" then Kind_Pending
  else if String.eqb s "running" then Kind_Running
  else if String.eqb s "waiting" then Kind_Waiting
  else if String.eqb s "completed" then Kind_Completed
  else if String.eqb s "failed" then Kind_Failed
  else Kind_Orphaned.

Definition orphan_agent (a : BreadcrumbAgent) : OrphanAgent :=
  mkOrphanAgent (bca_agent_id a) (bca_session_name a) (bca_log_path a).

Definition orphan_summary (bc : Breadcrumb) : OrphanSummary :=
  mkOrphanSummary (bc_job_id bc) (bc_project bc) (bc_kind bc) (bc_name bc) (bc_current_step bc)
    (parse_step_status_kind (bc_step_status bc)) (bc_workspace_root bc)
    (orphan_agent <$> bc_agents bc) (bc_updated_at bc).

Definition find_orphan (id : string) (orphans : list Breadcrumb) : option Breadcrumb :=
  List.find (λ bc, id_matches id (bc_job_id bc)) orphans.

Fixpoint remove_first {A} (P : A → bool) (l : list A) : list A :=
  match l with
  | [] => []
  | a :: l => if P a then l else a :: remove_first P l
  end.

(** [None] is a panic on the date of a breadcrumb. *)
Definition orphan_job (bc : Breadcrumb) : option JobSummary :=
  updated_at ← parse_rfc3339_to_epoch_ms (bc_updated_at bc);
  Some (mkJobSummary (bc_job_id bc) (bc_name bc) (bc_kind bc) (bc_current_step bc) Kind_Orphaned
          updated_at updated_at (bc_project bc) 0).

Definition append_orphan_summaries (js : list JobSummary) (orphans : list Breadcrumb)
    : option (list JobSummary) :=
  lost ← mapM orphan_job orphans; Some (js ++ lost)%list.

Definition orphan_agent_summary (bc : Breadcrumb) (a : BreadcrumbAgent) : AgentSummary :=
  mkAgentSummary (bc_job_id bc) (bc_current_step bc) (bca_agent_id a) None (Some (bc_project bc))
    "orphaned" 0 0 0 None 0.

Definition orphan_detail (bc : Breadcrumb) : JobDetail :=
  mkJobDetail (bc_job_id bc) (bc_name bc) (bc_kind bc) (bc_current_step bc) Kind_Orphaned (bc_vars bc)
    (bc_workspace_root bc) (find_map bca_session_name (bc_agents bc))
    (Some "Job was not recovered from WAL/snapshot") [] (orphan_agent_summary bc <$> bc_agents bc)
    (bc_project bc).

(** The namespace of an orphan with its entry. *)
Definition orphan_status_entry (now : Z) (bc : Breadcrumb) : option (string * JobStatusEntry) :=
  updated_at ← parse_rfc3339_to_epoch_ms (bc_updated_at bc);
  Some (bc_project bc,
        mkJobStatusEntry (bc_job_id bc) (bc_name bc) (bc_kind bc) (bc_current_step bc) Kind_Orphaned
          (Z.max 0 (now - updated_at)) updated_at None None).

Section Orphans.
Context {Value W : Type} `{LIO : !ListenIO W} `{FL : !Files W}.
Abbreviation M := (LM Value W) (only parsing).

Definition handle_list_orphans : M Response :=
  orphans ← get_orphans; mret (Resp_Orphans (orphan_summary <$> orphans)).

Definition dismiss_files (bc : Breadcrumb) (w : W) : W :=
  foldl (λ w a, cleanup_agent_files (bca_agent_id a) w)
    (fs_remove_file (job_log_path logs_path (bc_job_id bc))
      (fs_remove_file (breadcrumb_path logs_path (bc_job_id bc)) w))
    (bc_agents bc).

Definition handle_dismiss_orphan (id : string) : M Response :=
  orphans ← get_orphans;
  or_answer (find_orphan id orphans) ("orphan not found: " +:+ id) (λ bc,
    set_orphans (remove_first (λ bc, id_matches id (bc_job_id bc)) orphans);;
    act_on (dismiss_files bc);;
    mret Resp_Ok).
End Orphans.

Local Close Scope string_scope.

(** Overviews: [crates/daemon/src/listener/query_status.rs],
    [query_projects.rs], [query_queues.rs] and [query_logs.rs].

    A map from namespaces to lists, filled by one iteration, is the list of the
    pairs; what a namespace has is the pairs with its name, in their order. *)

Local Open Scope string_scope.

(** What a map of lists has for a name. *)
Definition grouped {A} (ns : string) (l : list (string * A)) : list A :=
  (List.filter (λ p, String.eqb p.1 ns) l).*2.

(** The names, sorted, each once. *)
Definition namespace_names (l : list string) : list string :=
  sort_by String.leb (elements (list_to_set l : gset string)).

(** [last().map(finished_at_ms.unwrap_or(started_at_ms))] *)
Definition last_activity (j : Job) : option Z :=
  (λ r, default (step_started_ms r) (step_finished_ms r)) <$> last (job_step_history j).

(** ** [query_status.rs] *)

Section Status.
Context {Value W : Type}.
Abbreviation St := (MaterializedState Value) (only parsing).
Implicit Types (s : St).

Definition job_entry_of (now : Z) s (j : Job) : JobStatusEntry :=
  mkJobStatusEntry (job_id j) (job_name j) (job_kind j) (job_step j)
    (StepStatusKind_from (job_step_status j)) (Z.max 0 (now - first_started_ms j))
    (default 0%Z (last_activity j))
    (match step_outcome <$> last (job_step_history j) with
     | Some (Outcome_Waiting reason) => Some reason
     | _ => None
     end)
    (match job_step_status j with
     | Waiting (Some d) => (λ d, to_lowercase (DecisionSource_debug (decision_source d))) <$> decisions s !! d
     | _ => None
     end).

Definition is_waiting (s : StepStatus) : bool := match s with Waiting _ => true | _ => false end.

(** The jobs that have not ended, those that wait or the others. *)
Definition status_jobs (waiting : bool) (now : Z) (env : Env) s : list (string * JobStatusEntry) :=
  (λ j, (job_namespace j, job_entry_of now s j)) <$>
    List.filter (λ j, negb (Job_is_terminal j) && Bool.eqb (is_waiting (job_step_status j)) waiting)
      (table_values env TJobs (jobs s)).

(** The standalone agents of the map that have not ended. *)
Definition standalone_records (env : Env) s : list AgentRecord :=
  List.filter (λ r, match rec_owner r, rec_status r with
                    | Owner_Job _, _ => false
                    | Owner_AgentRun _, (Record_Exited | Record_Gone) => false
                    | Owner_AgentRun _, _ => true
                    end) (table_values env TAgents (agents s)).

Definition record_entry s (r : AgentRecord) : string * AgentStatusEntry :=
  let command := match rec_owner r with
                 | Owner_AgentRun arid => default "" (run_command_name <$> agent_runs s !! arid)
                 | Owner_Job _ => ""
                 end in
  (rec_namespace r,
   mkAgentStatusEntry (rec_agent_id r) (rec_agent_name r) command
     (AgentRecordStatus_display (rec_status r))).

Definition run_entry (ar : AgentRun) : string * AgentStatusEntry :=
  (run_namespace ar,
   mkAgentStatusEntry (run_known_as ar) (run_agent_name ar) (run_command_name ar)
     (AgentRunStatus_display (run_status ar))).

Definition status_agents (env : Env) s : list (string * AgentStatusEntry) :=
  let records := standalone_records env s in
  ((record_entry s <$> records)
   ++ (run_entry <$> List.filter (λ ar, negb (AgentRun_is_terminal ar)
                                        && negb (existsb (String.eqb (run_known_as ar))
                                                   (rec_agent_id <$> records)))
                       (table_values env TAgentRuns (agent_runs s))))%list.

Definition worker_summary s (r : WorkerRecord) : WorkerSummary :=
  mkWorkerSummary (worker_name r) (worker_namespace r) (worker_queue_name r) (worker_status r)
    (length (worker_active_job_ids r)) (worker_concurrency r)
    (foldr Z.max 0%Z (omap (λ pid, jobs s !! pid ≫= last_activity) (worker_active_job_ids r))).

Definition status_workers (env : Env) s : list (string * WorkerSummary) :=
  (λ r, (worker_namespace r, worker_summary s r)) <$> table_values env TWorkers (workers s).

(** Failed items count as pending, since they are to be retried. *)
Definition queue_status (name : string) (items : list QueueItem) : QueueStatus :=
  let count statuses := length (List.filter (item_has statuses) items) in
  mkQueueStatus name (count [Item_Pending; Item_Failed]) (count [Item_Active]) (count [Item_Dead]).

Definition status_queues (env : Env) s : list (string * QueueStatus) :=
  (λ ki, let '(ns, name) := split_scoped_name ki.1 in (ns, queue_status name ki.2)) <$>
    table_entries env TQueues (queue_items s).

Definition pending_decisions (env : Env) s : list (string * Decision) :=
  (λ d, (decision_namespace d, d)) <$>
    List.filter (λ d, negb (Decision_is_resolved d)) (table_values env TDecisions (decisions s)).

Definition health_summary (h : MetricsHealth) : MetricsHealthSummary :=
  mkMetricsHealthSummary (mh_last_collection_ms h) (mh_sessions_tracked h) (mh_last_error h)
    (mh_ghost_sessions h).

(** [None] is a panic on the date of a breadcrumb. *)
Definition handle_status_overview (uptime now : Z) (orphans : list Breadcrumb) (health : MetricsHealth)
    (env : Env) s : option Response :=
  let active := status_jobs false now env s in
  let escalated := status_jobs true now env s in
  let agents := status_agents env s in
  let workers := status_workers env s in
  let queues := status_queues env s in
  let pending := pending_decisions env s in
  orphaned ← mapM (orphan_status_entry now) orphans;
  let names := namespace_names (active.*1 ++ escalated.*1 ++ orphaned.*1 ++ workers.*1 ++ queues.*1
                             ++ agents.*1 ++ pending.*1)%list in
  Some (Resp_StatusOverview uptime
          ((λ ns, mkNamespaceStatus ns (grouped ns active) (grouped ns escalated) (grouped ns orphaned)
                    (grouped ns workers) (grouped ns queues) (grouped ns agents)
                    (length (grouped ns pending))) <$> names)
          (Some (health_summary health))).

(** ** [query_projects.rs] *)

Definition count_in (ns : string) (l : list string) : nat :=
  length (List.filter (String.eqb ns) l).

(** The agent of the last step has not ended. *)
Definition last_agent_active (j : Job) : bool :=
  match last (job_step_history j) with
  | Some r => is_some (step_agent_id r)
              && match step_outcome r with Outcome_Running | Outcome_Waiting _ => true | _ => false end
  | None => false
  end.

Definition running_workers (env : Env) s : list WorkerRecord :=
  List.filter (λ r, String.eqb (worker_status r) "running") (table_values env TWorkers (workers s)).
Definition running_crons (env : Env) s : list CronRecord :=
  List.filter (λ c, String.eqb (cron_rec_status c) "running") (table_values env TCrons (crons s)).
Definition live_jobs (env : Env) s : list Job :=
  List.filter (λ j, negb (Job_is_terminal j)) (table_values env TJobs (jobs s)).

(** The root of the first running worker of the namespace, of the first running
    cron, or, with an active job, of any worker or cron. *)
Definition project_root_of (env : Env) s (ns : string) : option PathBuf :=
  first_of (worker_project_root <$>
              List.find (λ r, String.eqb (worker_namespace r) ns) (running_workers env s))
  (first_of (cron_rec_project_root <$>
               List.find (λ c, String.eqb (cron_rec_namespace c) ns) (running_crons env s))
  (if existsb (λ j, String.eqb (job_namespace j) ns) (live_jobs env s) then
     first_of (worker_project_root <$>
                 List.find (λ r, String.eqb (worker_namespace r) ns)
                   (table_values env TWorkers (workers s)))
              (cron_rec_project_root <$>
                 List.find (λ c, String.eqb (cron_rec_namespace c) ns)
                   (table_values env TCrons (crons s)))
   else None)).

Definition handle_list_projects (env : Env) s : Response :=
  let of_workers := worker_namespace <$> running_workers env s in
  let of_crons := cron_rec_namespace <$> running_crons env s in
  let of_jobs := job_namespace <$> live_jobs env s in
  let of_agents := job_namespace <$> List.filter last_agent_active (live_jobs env s) in
  Resp_Projects
    ((λ ns, mkProjectSummary ns (default "" (project_root_of env s ns)) (count_in ns of_jobs)
              (count_in ns of_agents) (count_in ns of_workers) (count_in ns of_crons)) <$>
       namespace_names (of_workers ++ of_crons ++ of_jobs)%list).
End Status.

(** ** [query_queues.rs] *)

Definition QueueType_text (t : QueueType) : string :=
  match t with External => "external" | Persisted => "persisted" end.

(** The order of pairs. *)
Definition queue_le (a b : QueueSummary) : bool :=
  match String.compare (qs_namespace a) (qs_namespace b) with
  | Lt => true
  | Gt => false
  | Eq => String.leb (qs_name a) (qs_name b)
  end.

(** The queues of the runbooks that are not listed yet. *)
Fixpoint add_defined (namespace : string) (defs : list (string * QueueDef)) (queues : list QueueSummary)
    : list QueueSummary :=
  match defs with
  | [] => queues
  | (name, def) :: defs =>
      if existsb (λ q, String.eqb (qs_name q) name && String.eqb (qs_namespace q) namespace) queues
      then add_defined namespace defs queues
      else add_defined namespace defs
             (queues ++ [mkQueueSummary name namespace (QueueType_text (qdef_type def)) 0 []])%list
  end.

Section Logs.
Context {Value W : Type} `{RIO : !RuntimeIO Value W} `{LIO : !ListenIO W} `{CIO : !CronIO W}.
Context `{FL : !Files W}.
Abbreviation St := (MaterializedState Value) (only parsing).
Implicit Types (s : St) (w : W).

Definition state_queue_summary (env : Env) s (ki : string * list QueueItem) : QueueSummary :=
  let '(ns, name) := split_scoped_name ki.1 in
  mkQueueSummary name ns "persisted" (length ki.2)
    (worker_name <$> List.filter (λ r, String.eqb (worker_queue_name r) name
                                       && String.eqb (worker_namespace r) ns)
                       (table_values env TWorkers (workers s))).

Definition list_queues (project_root : PathBuf) (namespace : string) (env : Env) s w : Response :=
  Resp_Queues
    (sort_by queue_le
       (add_defined namespace (default [] (collect_all_queues (runbook_dir project_root) w))
          (state_queue_summary env s <$> table_entries env TQueues (queue_items s)))).

(** ** [query_logs.rs] *)

(** The last lines, or all of the text for 0. *)
Definition last_lines (lines : nat) (text : string) : string :=
  if (0 <? lines)%nat
  then let all := str_lines text in String.concat newline_str (drop (length all - lines) all)
  else text.

Definition read_log_file (path : PathBuf) (lines : nat) w : string :=
  match fs_read path w with Some text => last_lines lines text | None => "" end.

(** The logs of the steps with an agent, each under a heading. *)
Fixpoint step_logs (lines : nat) w (records : list StepRecord)
    (acc : string * list string * PathBuf) : string * list string * PathBuf :=
  match records with
  | [] => acc
  | r :: records =>
      match step_agent_id r with
      | None => step_logs lines w records acc
      | Some aid =>
          let '(content, names, _) := acc in
          let path := agent_log_path logs_path aid in
          let content :=
            match fs_read path w with
            | Some text =>
                (if is_empty content then content else content +:+ newline_str)
                +:+ "=== " +:+ step_name r +:+ " ===" +:+ newline_str +:+ last_lines lines text
            | None => content
            end in
          step_logs lines w records (content, (names ++ [step_name r])%list, path)
      end
  end.

Definition handle_get_agent_logs (id : string) (step : option string) (lines : nat) s w : Response :=
  let job := get_job s id in
  match step with
  | Some name =>
      match job ≫= λ j, List.find (λ r, String.eqb (step_name r) name) (job_step_history j)
                        ≫= step_agent_id with
      | Some aid =>
          let path := agent_log_path logs_path aid in
          Resp_AgentLogs path (read_log_file path lines w) [name]
      | None => Resp_AgentLogs (path_join logs_path "agent") "" [name]
      end
  | None =>
      let '(content, names, path) :=
        step_logs lines w (default [] (job_step_history <$> job)) ("", [], path_join logs_path "agent") in
      Resp_AgentLogs path content names
  end.

Definition handle_get_job_logs (id : string) (lines : nat) (orphans : list Breadcrumb) s w : Response :=
  let full_id := default id (first_of (job_id <$> get_job s id) (bc_job_id <$> find_orphan id orphans)) in
  let path := job_log_path logs_path full_id in
  Resp_JobLogs path (read_log_file path lines w).

(** Whether a search for a runbook found one. *)
Definition was_found (found : string + option Runbook) : bool :=
  match found with inr (Some _) => true | _ => false end.

(** The names of the state, and those of the runbooks that are not among them. *)
Fixpoint add_candidates (names candidates : list string) : list string :=
  match names with
  | [] => candidates
  | n :: names =>
      add_candidates names (if existsb (String.eqb n) candidates then candidates
                            else (candidates ++ [n])%list)
  end.

Definition with_runbook_names {V} (collect : PathBuf → W → option (list (string * V)))
    (project_root : option PathBuf) (candidates : list string) w : list string :=
  match project_root with
  | Some root => add_candidates (runbook_names collect root w) candidates
  | None => candidates
  end.

Definition in_runbook (find : PathBuf → string → W → string + option Runbook)
    (project_root : option PathBuf) (name : string) w : bool :=
  match project_root with Some root => was_found (find (runbook_dir root) name w) | None => false end.

(** The answer when there is no log: a hint if the name is not known. *)
Definition hint_or (answer : Response) (unknown hint : string) : Response :=
  if is_empty hint then answer else Resp_Error (unknown +:+ hint).

Definition handle_get_worker_logs (name namespace : string) (lines : nat)
    (project_root : option PathBuf) (env : Env) s w : Response :=
  let scoped := scoped_name namespace name in
  let path := worker_log_path logs_path scoped in
  if fs_exists path w then Resp_WorkerLogs path (read_log_file path lines w)
  else if is_some (workers s !! scoped) || in_runbook find_runbook_by_worker project_root name w
  then Resp_WorkerLogs path ""
  else
    let known := worker_name <$> List.filter (λ r, String.eqb (worker_namespace r) namespace)
                                   (table_values env TWorkers (workers s)) in
    hint_or (Resp_WorkerLogs path "") ("unknown worker: " +:+ name)
      (suggest_from_candidates env name namespace "oj worker logs" s Res_Worker
         (with_runbook_names collect_all_workers project_root known w)).

(** A cron counts as known when any namespace has one of its name. *)
Definition handle_get_cron_logs (name namespace : string) (lines : nat)
    (project_root : option PathBuf) (env : Env) s w : Response :=
  let path := cron_log_path logs_path (scoped_name namespace name) in
  let known := cron_rec_name <$> table_values env TCrons (crons s) in
  if fs_exists path w then Resp_CronLogs path (read_log_file path lines w)
  else if existsb (String.eqb name) known || in_runbook find_runbook_by_cron project_root name w
  then Resp_CronLogs path ""
  else
    hint_or (Resp_CronLogs path "") ("unknown cron: " +:+ name)
      (suggest_from_candidates env name "" "oj cron logs" s Res_Cron
         (with_runbook_names collect_all_crons project_root known w)).

Definition handle_get_queue_logs (queue_name namespace : string) (lines : nat) w : Response :=
  let path := queue_log_path logs_path (scoped_name namespace queue_name) in
  Resp_QueueLogs path (read_log_file path lines w).
End Logs.

Local Close Scope string_scope.

(** Queries: [handle_query] of [crates/daemon/src/listener/query.rs].

    All but three queries are answered under one lock of the state.  A panic
    under it is [None]. *)

Local Open Scope string_scope.

Definition ALLOWED_VAR_PREFIXES : list string :=
  ["var."; "local."; "invoke."; "workspace."; "args."; "item."].

Definition allowed_var (key : string) : bool := existsb (λ p, starts_with p key) ALLOWED_VAR_PREFIXES.

Definition filter_vars_by_scope (vars : gmap string string) : gmap string string :=
  filter (λ kv, allowed_var kv.1 = true) vars.

(** The context of a decision, cut at 77 bytes when it is longer than 80. *)
Definition decision_brief (context : string) : option string :=
  if (80 <? String.length context)%nat
  then cut ← slice context 0 77; Some (cut +:+ "...")
  else Some context.

Definition source_text (d : Decision) : string :=
  to_lowercase (DecisionSource_debug (decision_source d)).

Definition option_detail (i : nat) (o : DecisionOption) : DecisionOptionDetail :=
  mkDecisionOptionDetail (i + 1) (option_label o) (option_description o) (option_recommended o).

Section Query.
Context {Value W : Type} `{RIO : !RuntimeIO Value W} `{LIO : !ListenIO W} `{CIO : !CronIO W}.
Context `{FL : !Files W}.
Abbreviation L := (Listen Value W) (only parsing).
Abbreviation M := (LM Value W) (only parsing).
Abbreviation St := (MaterializedState Value) (only parsing).
Implicit Types (l : L) (s : St) (w : W).

(** ** Jobs *)

Definition job_summary (j : Job) : JobSummary :=
  mkJobSummary (job_id j) (job_name j) (job_kind j) (job_step j)
    (StepStatusKind_from (job_step_status j)) (first_started_ms j) (default 0%Z (last_activity j))
    (job_namespace j) (job_total_retries j).

Definition job_detail w (j : Job) : JobDetail :=
  mkJobDetail (job_id j) (job_name j) (job_kind j) (job_step j)
    (StepStatusKind_from (job_step_status j)) (filter_vars_by_scope (job_vars j))
    (job_workspace_path j) (job_session_id j) (job_error j)
    (StepRecordDetail_from <$> job_step_history j) (job_summaries j w) (job_namespace j).

Definition query_list_jobs (orphans : list Breadcrumb) (env : Env) s : option Response :=
  js ← append_orphan_summaries (job_summary <$> table_values env TJobs (jobs s)) orphans;
  Some (Resp_Jobs js).

Definition query_get_job (id : string) (orphans : list Breadcrumb) s w : Response :=
  Resp_Job (first_of (job_detail w <$> get_job s id) (orphan_detail <$> find_orphan id orphans)).

(** ** Sessions and workspaces *)

Definition session_summary s (x : Session) : SessionSummary :=
  let owner := jobs s !! session_job_id x in
  mkSessionSummary (session_id x) (default "" (job_namespace <$> owner)) (Some (session_job_id x))
    (default 0%Z (owner ≫= last_activity)).

Definition query_get_session (id : string) (env : Env) s : Response :=
  Resp_Session (session_summary s <$> List.find (λ x, id_matches id (session_id x))
                                        (table_values env TSessions (sessions s))).

Definition workspace_summary s (x : Workspace) : WorkspaceSummary :=
  mkWorkspaceSummary (workspace_id x) (workspace_path x) (workspace_branch x)
    (WorkspaceStatus_display (workspace_status x)) (workspace_created_at_ms x)
    (default "" (workspace_namespace s x)).

Definition owner_text (o : OwnerId) : string :=
  match o with Owner_Job id => id | Owner_AgentRun id => id end.

Definition workspace_detail (x : Workspace) : WorkspaceDetail :=
  mkWorkspaceDetail (workspace_id x) (workspace_path x) (workspace_branch x)
    (owner_text <$> workspace_owner x) (WorkspaceStatus_display (workspace_status x))
    (workspace_created_at_ms x).

(** ** Queues *)

Definition query_list_queue_items (queue_name namespace : string) (project_root : option PathBuf)
    (env : Env) s w : Response :=
  match queue_items s !! scoped_name namespace queue_name with
  | Some items => Resp_QueueItems (item_summary <$> items)
  | None =>
      if in_runbook find_runbook_by_queue project_root queue_name w then Resp_QueueItems []
      else
        hint_or (Resp_QueueItems []) ("unknown queue: " +:+ queue_name)
          (suggest_from_candidates env queue_name namespace "oj queue show" s Res_Queue
             (with_runbook_names collect_all_queues project_root (state_queues namespace env s) w))
  end.

(** ** Decisions *)

Definition decision_job_name s (d : Decision) : string :=
  default "" (job_name <$> jobs s !! decision_job_id d).

Definition decision_summary s (d : Decision) : option DecisionSummary :=
  summary ← decision_brief (decision_context d);
  Some (mkDecisionSummary (decision_id d) (decision_job_id d) (decision_job_name s d) (source_text d)
          summary (decision_created_at_ms d) (decision_namespace d)).

(** The decisions to be made, in every namespace, the latest first. *)
Definition query_list_decisions (env : Env) s : option Response :=
  ds ← mapM (decision_summary s)
         (List.filter (λ d, negb (Decision_is_resolved d)) (table_values env TDecisions (decisions s)));
  Some (Resp_Decisions (latest_first ds_created_at_ms ds)).

Definition decision_detail s (d : Decision) : DecisionDetail :=
  mkDecisionDetail (decision_id d) (decision_job_id d) (decision_job_name s d) (decision_agent_id d)
    (source_text d) (decision_context d) (imap option_detail (decision_options d)) (decision_chosen d)
    (decision_message d) (decision_created_at_ms d) (decision_resolved_at_ms d)
    (decision_superseded_by d) (decision_namespace d).

(** ** [handle_query] *)

(** The queries answered under the lock, given the rest of the context. *)
Definition answer_query (q : Query) (start_time : Z) (health : MetricsHealth)
    (orphans : list Breadcrumb) w (env : Env) s : option Response :=
  match q with
  | Query_ListJobs => query_list_jobs orphans env s
  | Query_GetJob id => Some (query_get_job id orphans s w)
  | Query_GetAgent agent_id => Some (handle_get_agent agent_id env s w)
  | Query_ListSessions =>
      Some (Resp_Sessions (session_summary s <$> table_values env TSessions (sessions s)))
  | Query_GetSession id => Some (query_get_session id env s)
  | Query_ListWorkspaces =>
      Some (Resp_Workspaces (workspace_summary s <$> table_values env TWorkspaces (workspaces s)))
  | Query_GetWorkspace id => Some (Resp_Workspace (workspace_detail <$> workspaces s !! id))
  | Query_GetAgentLogs id step lines => Some (handle_get_agent_logs id step lines s w)
  | Query_GetJobLogs id lines => Some (handle_get_job_logs id lines orphans s w)
  | Query_ListQueues project_root namespace => Some (list_queues project_root namespace env s w)
  | Query_ListQueueItems queue_name namespace project_root =>
      Some (query_list_queue_items queue_name namespace project_root env s w)
  | Query_GetAgentSignal agent_id => Some (handle_get_agent_signal agent_id env s)
  | Query_ListAgents job_id status => Some (handle_list_agents job_id status env s w)
  | Query_GetWorkerLogs name namespace lines project_root =>
      Some (handle_get_worker_logs name namespace lines project_root env s w)
  | Query_ListWorkers =>
      Some (Resp_Workers (worker_summary s <$> table_values env TWorkers (workers s)))
  | Query_GetCronLogs name namespace lines project_root =>
      Some (handle_get_cron_logs name namespace lines project_root env s w)
  | Query_ListCrons =>
      Some (Resp_Crons (cron_summary (clock env 0) <$> table_values env TCrons (crons s)))
  | Query_StatusOverview =>
      handle_status_overview ((instant env 0 - start_time) / 1000000000)%Z (clock env 0) orphans health
        env s
  | Query_GetQueueLogs queue_name namespace lines =>
      Some (handle_get_queue_logs queue_name namespace lines w)
  | Query_ListDecisions _ => query_list_decisions env s
  | Query_GetDecision id => Some (Resp_Decision (decision_detail s <$> get_decision s id))
  | Query_ListOrphans | Query_DismissOrphan _ | Query_ListProjects => None
  end.

Definition handle_query (q : Query) : M Response :=
  match q with
  | Query_ListOrphans => handle_list_orphans
  | Query_DismissOrphan id => handle_dismiss_orphan id
  | Query_ListProjects => lock handle_list_projects
  | _ => λ l,
      (answer ← lock (answer_query q (ls_start_time l) (ls_health l) (ls_orphans l) (ls_world l));
       or_panic answer) l
  end.
End Query.

Local Close Scope string_scope.
