(* ===== verification/Reconcile.v ===== *)
(** After a restart: [crates/daemon/src/lifecycle/reconcile.rs], and the
    forwarder of the runtime's events of [lifecycle/mod.rs].

    Reconciliation works on a snapshot of the state taken at startup.  What it
    sends is the list it returns; the forwarder appends such events to the log.
    What the engine does meanwhile is in the runtime each operation starts
    from. *)

From S2P Require Import Prelude Ids Runbook Bytes Vars Slug Entities Job Timer Event State Scheduler.
From S2P Require Import Effect Executor Runtime WorkerQueue DecisionBuilder JobRun JobCreate Monitor.
From S2P Require Import AgentRuns JobAgents Wal Breadcrumb Suggest Protocol Listener Mutations.

Local Open Scope string_scope.

Section Reconcile.
Context {Value W : Type} `{AD : !Adapters Value W} `{RIO : !RuntimeIO Value W} `{!JsonItem Value}
  `{!TemplateRegex} `{!Processes W} `{!JsonBuild Value} `{AI : !AgentIO W} `{!SpawnIO W}
  `{LIO : !ListenIO W}.
Abbreviation R := (Rt Value W) (only parsing).
Abbreviation M := (RT Value W) (only parsing).
Abbreviation Events := (list (Event Value)) (only parsing).
Abbreviation St := (MaterializedState Value) (only parsing).
Implicit Types (r : R) (s : St).

(** The events of each, in order; the panic of one ends the task. *)
Fixpoint reconcile_each {A} (f : A → M Events) (xs : list A) : M Events :=
  match xs with
  | [] => mret []
  | x :: xs => sent ← f x; rest ← reconcile_each f xs; mret (sent ++ rest)%list
  end.

(** ** Sessions *)

(** A session is kept for a job that has not ended, or, without a job, for an
    agent run that has not. *)
Definition should_prune (env : Env) s (x : Session) : bool :=
  match jobs s !! session_job_id x with
  | Some j => Job_is_terminal j
  | None =>
      negb (existsb (λ ar, bool_decide (run_session_id ar = Some (session_id x))
                           && negb (AgentRun_is_terminal ar))
              (table_values env TAgentRuns (agent_runs s)))
  end.

Definition reconcile_session (x : Session) : M Events :=
  io (tmux_kill_session (session_id x));; mret [SessionDeleted (session_id x)].

Definition reconcile_sessions (env : Env) s : M Events :=
  reconcile_each reconcile_session
    (List.filter (should_prune env s) (table_values env TSessions (sessions s))).

(** ** Workers and crons that were running *)

Definition resume_worker_event (x : WorkerRecord) : Event Value :=
  WorkerStarted (worker_name x) (worker_project_root x) (worker_runbook_hash x) (worker_queue_name x)
    (worker_concurrency x) (worker_namespace x).

Definition resume_cron_event (c : CronRecord) : Event Value :=
  CronStarted (cron_rec_name c) (cron_rec_project_root c) (cron_rec_runbook_hash c)
    (cron_rec_interval c) (cron_rec_run_target c) (cron_rec_namespace c).

Definition resumed_workers (env : Env) s : Events :=
  resume_worker_event <$> List.filter (λ x, String.eqb (worker_status x) "running")
                            (table_values env TWorkers (workers s)).
Definition resumed_crons (env : Env) s : Events :=
  resume_cron_event <$> List.filter (λ c, String.eqb (cron_rec_status c) "running")
                          (table_values env TCrons (crons s)).

(** ** Agents *)

(** Whether a session is alive, and if so whether the agent runs in it. *)
Inductive Liveness := Session_Dead | Agent_Dead | Agent_Alive.

Definition liveness_of (session : SessionId) (w : W) : Liveness :=
  if session_alive session w then
    if process_running session "claude" w then Agent_Alive else Agent_Dead
  else Session_Dead.

(** The events in place of an error; a panic is not caught. *)
Definition or_send (m : M unit) (k : RuntimeError → Events) : M Events :=
  result ← attempt m;
  match result with
  | inr _ => mret []
  | inl Rt_Panic => throw Rt_Panic
  | inl e => mret (k e)
  end.

Definition run_failed (ar : AgentRun) (reason : string) : Event Value :=
  AgentRunStatusChanged (run_id ar) Run_Failed (Some reason).

Definition reconcile_agent_run (ar : AgentRun) : M Events :=
  match run_session_id ar, run_agent_id ar with
  | None, _ => mret [run_failed ar "no session at recovery"]
  | Some _, None => mret [run_failed ar "no agent_id at recovery"]
  | Some session, Some agent_id =>
      let owner := Owner_AgentRun (run_id ar) in
      live ← ask (liveness_of session);
      match live with
      | Agent_Alive =>
          or_send (recover_standalone_agent ar)
            (λ e, [run_failed ar ("recovery failed: " +:+ RuntimeError_display e)])
      | Agent_Dead => register_agent agent_id owner;; mret [AgentExited agent_id None owner]
      | Session_Dead => register_agent agent_id owner;; mret [AgentGone agent_id owner]
      end
  end.

Definition job_fails (j : Job) : Event Value := JobAdvanced (job_id j) "failed".

(** The event of a dead agent; a job whose step has no agent fails. *)
Definition agent_died (j : Job) (event : AgentId → OwnerId → Event Value) : M Events :=
  match current_step_agent j with
  | None => mret [job_fails j]
  | Some aid =>
      let owner := Owner_Job (job_id j) in
      register_agent aid owner;; mret [event aid owner]
  end.

Definition reconcile_job (j : Job) : M Events :=
  match job_step_status j, job_session_id j with
  | Waiting _, _ => mret []
  | _, None => mret [job_fails j]
  | _, Some session =>
      live ← ask (liveness_of session);
      match live with
      | Agent_Alive =>
          or_send (recover_agent j)
            (λ _, [AgentGone (default (job_id j +:+ "-" +:+ job_step j) (current_step_agent j))
                     (Owner_Job (job_id j))])
      | Agent_Dead => agent_died j (λ aid owner, AgentExited aid None owner)
      | Session_Dead => agent_died j AgentGone
      end
  end.

(** ** [reconcile_state] *)

Definition reconcile_state (env : Env) s : M Events :=
  deleted ← reconcile_sessions env s;
  of_runs ← reconcile_each reconcile_agent_run
              (List.filter (λ ar, negb (AgentRun_is_terminal ar))
                 (table_values env TAgentRuns (agent_runs s)));
  of_jobs ← reconcile_each reconcile_job
              (List.filter (λ j, negb (Job_is_terminal j)) (table_values env TJobs (jobs s)));
  mret (deleted ++ resumed_workers env s ++ resumed_crons env s ++ of_runs ++ of_jobs)%list.
End Reconcile.

(** ** The forwarder *)

(** A field of what is sent to the bus: a text or a number. *)
Inductive BusField := Bus_Text (s : string) | Bus_Count (n : nat).

Section Forward.
Context {Value : Type} `{EC : !Codec (Event Value)}.
Implicit Types (wal : Wal).

(** [map_event_to_bus_emit]: the type of the hook event, which is also its
    first field, and the other fields. *)
Definition map_event_to_bus_emit (ev : Event Value) : option (string * list (string * BusField)) :=
  match ev with
  | JobCreated id kind name _ _ _ _ _ _ _ =>
      Some ("OjJobCreated",
            [("job_id", Bus_Text id); ("job_name", Bus_Text name); ("job_kind", Bus_Text kind)])
  | JobAdvanced id step =>
      Some ("OjStepAdvanced",
            [("job_id", Bus_Text id); ("from_step", Bus_Text ""); ("to_step", Bus_Text step)])
  | StepStarted job_id step agent_id agent_name =>
      Some ("OjAgentSpawned",
            [("job_id", Bus_Text job_id); ("step", Bus_Text step);
             ("agent_name", Bus_Text (default "" agent_name));
             ("session_id", Bus_Text (default "" agent_id))])
  | AgentIdle agent_id =>
      Some ("OjAgentIdle", [("job_id", Bus_Text ""); ("agent_name", Bus_Text agent_id)])
  | AgentFailed agent_id error _ =>
      Some ("OjAgentEscalated",
            [("job_id", Bus_Text ""); ("agent_name", Bus_Text agent_id);
             ("reason", Bus_Text (AgentError_display error))])
  | StepWaiting job_id step reason _ =>
      Some ("OjAgentEscalated",
            [("job_id", Bus_Text job_id); ("step", Bus_Text step);
             ("reason", Bus_Text (default "" reason))])
  | StepCompleted job_id step =>
      Some ("OjJobCompleted", [("job_id", Bus_Text job_id); ("step", Bus_Text step)])
  | StepFailed job_id step error =>
      Some ("OjJobFailed",
            [("job_id", Bus_Text job_id); ("step", Bus_Text step); ("error", Bus_Text error)])
  | WorkerPollComplete worker_name items =>
      Some ("OjWorkerPollComplete",
            [("worker", Bus_Text worker_name); ("queue", Bus_Text "");
             ("item_count", Bus_Count (length items))])
  | _ => None
  end.

(** The rest of a batch: an event goes to the bus also when the log refused it. *)
Fixpoint drain (enabled : bool) (evs : list (Event Value)) wal
    : Wal * list (string * list (string * BusField)) :=
  match evs with
  | [] => (wal, [])
  | ev :: evs =>
      let '(wal, bus) := drain enabled evs (append ev wal).2 in
      (wal, ((if enabled then option_list (map_event_to_bus_emit ev) else []) ++ bus)%list)
  end.

(** The events that are waiting when the task wakes: one that the log refuses is
    dropped, the next one begins the batch. *)
Fixpoint forward (enabled : bool) (now : Z) (disk : FlushIO) (evs : list (Event Value)) wal
    : Wal * list (string * list (string * BusField)) :=
  match evs with
  | [] => (wal, [])
  | ev :: evs =>
      match append ev wal with
      | (inl _, wal) => forward enabled now disk evs wal
      | (inr _, wal) =>
          let '(wal, bus) := drain enabled evs wal in
          ((flush now disk wal).2,
           ((if enabled then option_list (map_event_to_bus_emit ev) else []) ++ bus)%list)
      end
  end.
End Forward.

Local Close Scope string_scope.
