(* ===== verification/ListenRequest.v ===== *)
(** The dispatch of requests: [handle_request] and [handle_connection] of
    [crates/daemon/src/listener/mod.rs], and [tmux.rs]. *)

From S2P Require Import Prelude Ids Runbook Bytes Vars Slug Entities Job Event State Runtime WorkerQueue.
From S2P Require Import RuntimeWitness Wal Engine ShellAst RunbookParse RunbookSpec Protocol Breadcrumb.
From S2P Require Import Suggest Listener Mutations ListenRun ListenQueues Query.

Local Open Scope string_scope.

Section ListenRequest.
Context {Value W : Type} `{RIO : !RuntimeIO Value W} `{LIO : !ListenIO W} `{CIO : !CronIO W}.
Context `{FL : !Files W} `{EC : !Codec (Event Value)} `{HO : !HashOrder} `{JI : !JsonItem Value}.
Abbreviation L := (Listen Value W) (only parsing).
Abbreviation M := (LM Value W) (only parsing).
Abbreviation St := (MaterializedState Value) (only parsing).
Implicit Types (l : L) (s : St).

(** ** [tmux.rs] *)

Definition capture_tmux_pane (session_id : string) (with_color : bool) : M (string + string) :=
  result ← world (tmux_capture_pane session_id with_color);
  mret (match result with
        | inl e => inl e
        | inr output =>
            if out_success output then inr (out_stdout output)
            else inl ("Session not found: " +:+ session_id)
        end).

(** The sessions of the state are killed in some order. *)
Definition kill_state_sessions : M unit :=
  ids ← lock (λ env s, iter_order env TSessions (dom (sessions s)));
  act_on (λ w, foldl (λ w id, tmux_kill_session id w) w ids).

Definition notify_shutdown : M unit := λ l, (inr tt, ls_notify_shutdown l).

(** ** [handle_request] *)

Definition handle_request (r : Request Value) : M Response :=
  match r with
  | Req_Ping => mret Resp_Pong
  | Req_Hello _ => mret (Resp_Hello protocol_version)
  | Req_Event event => emit event;; mret Resp_Ok
  | Req_Query query => handle_query query
  | Req_Shutdown kill =>
      (if kill then kill_state_sessions else mret tt);;
      notify_shutdown;; mret Resp_ShuttingDown
  | Req_Status => handle_status
  | Req_SessionSend id input => handle_session_send id input
  | Req_SessionKill id => handle_session_kill id
  | Req_AgentSend agent_id message => handle_agent_send agent_id message
  | Req_JobResume id message vars kill all =>
      if all then handle_job_resume_all kill else handle_job_resume id message vars kill
  | Req_JobResumeAll kill => handle_job_resume_all kill
  | Req_JobCancel ids => handle_job_cancel ids
  | Req_RunCommand project_root invoke_dir namespace command args named_args =>
      handle_run_command project_root invoke_dir namespace command args named_args
  | Req_PeekSession session_id with_color =>
      captured ← capture_tmux_pane session_id with_color;
      mret (match captured with inr output => Resp_SessionPeek output | inl m => Resp_Error m end)
  | Req_WorkspaceDrop id => handle_workspace_drop (Some id) false false
  | Req_WorkspaceDropFailed => handle_workspace_drop None true false
  | Req_WorkspaceDropAll => handle_workspace_drop None false true
  | Req_JobPrune all failed orphans dry_run namespace =>
      handle_job_prune (mkPruneFlags all dry_run namespace) failed orphans
  | Req_AgentPrune all dry_run => handle_agent_prune (mkPruneFlags all dry_run None)
  | Req_WorkspacePrune all dry_run namespace =>
      handle_workspace_prune (mkPruneFlags all dry_run namespace)
  | Req_WorkerPrune all dry_run namespace => handle_worker_prune (mkPruneFlags all dry_run namespace)
  | Req_CronPrune all dry_run => handle_cron_prune (mkPruneFlags all dry_run None)
  | Req_WorkerStart project_root namespace name all =>
      if all then handle_worker_start_all project_root namespace
      else handle_worker_start project_root namespace name
  | Req_WorkerWake name namespace => emit (WorkerWake name namespace);; mret Resp_Ok
  | Req_WorkerStop name namespace project_root => handle_worker_stop name namespace project_root
  | Req_WorkerRestart project_root namespace name => handle_worker_restart project_root namespace name
  | Req_WorkerResize name namespace concurrency => handle_worker_resize name namespace concurrency
  | Req_CronStart project_root namespace name all =>
      if all then handle_cron_start_all project_root namespace
      else handle_cron_start project_root namespace name
  | Req_CronStop name namespace project_root => handle_cron_stop name namespace project_root
  | Req_CronRestart project_root namespace name => handle_cron_restart project_root namespace name
  | Req_CronOnce project_root namespace name => handle_cron_once project_root namespace name
  | Req_QueuePush project_root namespace name data => handle_queue_push project_root namespace name data
  | Req_QueueDrop project_root namespace name id => handle_queue_drop project_root namespace name id
  | Req_QueueRetry project_root namespace name ids all_dead status
  | Req_QueueRetryBulk project_root namespace name ids all_dead status =>
      handle_queue_retry project_root namespace name (mkRetryFilter ids all_dead status)
  | Req_QueueDrain project_root namespace name => handle_queue_drain project_root namespace name
  | Req_QueueFail project_root namespace name id => handle_queue_fail project_root namespace name id
  | Req_QueueDone project_root namespace name id => handle_queue_done project_root namespace name id
  | Req_QueuePrune project_root namespace name all dry_run =>
      handle_queue_prune project_root namespace name all dry_run
  | Req_DecisionResolve id chosen message => handle_decision_resolve id chosen message
  | Req_AgentResume agent_id kill all => handle_agent_resume agent_id kill all
  | Req_SessionPrune all dry_run namespace => handle_session_prune (mkPruneFlags all dry_run namespace)
  end.

(** ** [handle_connection] *)

(** One request is read from the stream, handled, and answered: the bytes that
    are written, given the JSON of requests and responses. *)
Definition handle_connection (request_of : string → option (Request Value))
    (text_of : Response → option string) (stream : Stream) : M string :=
  match read_request request_of stream with
  | inl e => fail_with (Conn_Protocol e)
  | inr request =>
      response ← handle_request request;
      match write_response text_of response with
      | inl e => fail_with (Conn_Protocol e)
      | inr bytes => mret bytes
      end
  end.
End ListenRequest.

Local Close Scope string_scope.

(** What requests send to the log.

    [sends P m l]: from [l], the operation [m] appends events with the property
    [P] to the log, and nothing else, whether it succeeds or fails.  The rules
    of [sends] follow the operations of [Listener]. *)

Section Sends.
Context {Value W : Type} `{EC : !Codec (Event Value)}.
Abbreviation L := (Listen Value W) (only parsing).
Abbreviation M := (LM Value W) (only parsing).
Implicit Types (l : L) (P : Event Value → Prop).

Definition sends {A} P (m : M A) l : Prop :=
  ∀ res l', m l = (res, l') →
    ∃ evs, ls_wal l' = send_all evs (ls_wal l) ∧ Forall P evs.

Lemma send_all_app (evs1 evs2 : list (Event Value)) w :
  send_all (evs1 ++ evs2) w = send_all evs2 (send_all evs1 w).
Proof. revert w. induction evs1 as [|ev evs IH]; intros w; simpl; [done | apply IH]. Qed.

Lemma sends_weaken {A} P Q (m : M A) l : (∀ ev, P ev → Q ev) → sends P m l → sends Q m l.
Proof.
  intros HPQ H res l' E. destruct (H _ _ E) as (evs & ? & ?). exists evs. split; [done |].
  by eapply Forall_impl.
Qed.

(** An operation that leaves the log alone. *)
Lemma sends_none {A} P (m : M A) l : ls_wal (m l).2 = ls_wal l → sends P m l.
Proof. intros H res l' E. exists []. rewrite E in H. simpl in *. by split. Qed.

Lemma sends_ret {A} P (a : A) l : sends P (mret a) l.
Proof. by apply sends_none. Qed.

Lemma sends_fail {A} P e l : sends P (fail_with (A:=A) e) l.
Proof. by apply sends_none. Qed.

Lemma sends_bind {A B} P (m : M A) (k : A → M B) l :
  sends P m l → (∀ a l', m l = (inr a, l') → sends P (k a) l') → sends P (m ≫= k) l.
Proof.
  intros Hm Hk res l2. unfold mbind, lm_bind. destruct (m l) as [[e|a] l1] eqn:E.
  - intros [= <- <-]. by eapply Hm.
  - intros E2. destruct (Hm _ _ E) as (evs1 & H1 & ?). destruct (Hk a l1 eq_refl _ _ E2) as (evs2 & H2 & ?).
    exists (evs1 ++ evs2). rewrite send_all_app, <- H1. split; [done |]. by apply Forall_app.
Qed.

Lemma sends_emit P ev l : P ev → sends P (emit ev) l.
Proof.
  intros HP res l'. unfold emit. destruct (append ev (ls_wal l)) as [[e|n] w] eqn:E; intros [= <- <-];
    exists [ev]; simpl; unfold send; rewrite E; (split; [done | by constructor]).
Qed.

Lemma sends_each {A} P (f : A → M unit) xs l :
  (∀ x l', x ∈ xs → sends P (f x) l') → sends P (each_do f xs) l.
Proof.
  revert l. induction xs as [|x xs IH]; intros l H; simpl; [apply sends_ret |].
  apply sends_bind; [apply H; set_solver |]. intros [] l' _. apply IH. set_solver.
Qed.

(** ** The operations that read *)

Lemma sends_lock {A B} P f (k : A → M B) l :
  sends P (k (f (ls_envs l 0) (ls_view l))) (ls_locked l) → sends P (lock f ≫= k) l.
Proof. intros H. apply sends_bind; [by apply sends_none |]. by intros a l' [= <- <-]. Qed.

Lemma sends_see {A} P (f : W → A) l : sends P (see f) l.
Proof. by apply sends_none. Qed.

Lemma sends_world {A} P (f : W → A * W) l : sends P (world f) l.
Proof. apply sends_none. unfold world. by destruct (f (ls_world l)). Qed.

Lemma sends_act_on P (f : W → W) l : sends P (act_on f) l.
Proof. apply sends_world. Qed.

Lemma sends_pure_lock {A} P (f : Env → MaterializedState Value → A) l : sends P (lock f) l.
Proof. by apply sends_none. Qed.

Lemma sends_lock_apply P ev l : sends P (lock_apply ev) l.
Proof. by apply sends_none. Qed.

Lemma sends_get_orphans P l : sends P get_orphans l.
Proof. by apply sends_none. Qed.
Lemma sends_set_orphans P o l : sends P (set_orphans o) l.
Proof. by apply sends_none. Qed.
Lemma sends_now P l : sends P now_ms l.
Proof. by apply sends_none. Qed.
Lemma sends_uptime P l : sends P uptime_secs l.
Proof. by apply sends_none. Qed.
Lemma sends_fresh P l : sends P fresh_id l.
Proof. by apply sends_none. Qed.
Lemma sends_or_panic {A} P (o : option A) l : sends P (or_panic o) l.
Proof. destruct o; by apply sends_none. Qed.
Lemma sends_answer_error P m l : sends P (answer_error m) l.
Proof. by apply sends_none. Qed.

Lemma sends_or_return {A} P (m : M (Response + A)) (k : A → M Response) l :
  sends P m l → (∀ a l', m l = (inr (inr a), l') → sends P (k a) l') → sends P (or_return m k) l.
Proof.
  intros Hm Hk. apply sends_bind; [done |]. intros [resp|a] l' E; [apply sends_ret | by apply Hk].
Qed.

Lemma sends_or_answer {A} P (o : option A) msg (k : A → M Response) l :
  (∀ a, o = Some a → sends P (k a) l) → sends P (or_answer o msg k) l.
Proof. destruct o; simpl; [eauto | intros _; apply sends_answer_error]. Qed.

Lemma sends_collect_start P names start extract started skipped l :
  (∀ n l', sends P (start n) l') → sends P (collect_start_results names start extract started skipped) l.
Proof.
  intros H. revert started skipped l. induction names as [|n names IH]; intros started skipped l; simpl.
  - apply sends_ret.
  - intros res l2. destruct (start n l) as [r l1] eqn:E. destruct (H _ _ _ _ E) as (evs1 & Hw & HP).
    assert (∀ a b, sends P (λ _ : L, collect_start_results names start extract a b l1) l) as Hrest.
    { intros a b r' l' E'. destruct (IH a b l1 _ _ E') as (evs2 & Hw2 & HP2).
      exists (evs1 ++ evs2). rewrite send_all_app, <- Hw. split; [done |]. by apply Forall_app. }
    destruct r as [[]|resp]; try (apply Hrest).
    + intros [= <- <-]. by exists evs1.
    + destruct (extract resp); apply Hrest.
Qed.
End Sends.

Create HintDb sends.
#[export] Hint Resolve sends_ret sends_fail sends_see sends_world sends_act_on sends_pure_lock
  sends_lock_apply sends_get_orphans sends_set_orphans sends_now sends_uptime sends_fresh sends_or_panic
  sends_answer_error : sends.

(** One step of a derivation; what is left is about the events. *)
Ltac sends_step :=
  lazymatch goal with
  | |- sends _ (emit_all _) _ => unfold emit_all
  | |- sends _ (lock _ ≫= _) _ => apply sends_lock
  | |- sends _ (or_return _ _) _ => apply sends_or_return; [| intros ? ? _]
  | |- sends _ (or_answer _ _ _) _ => apply sends_or_answer; intros ? ?
  | |- sends _ (_ ≫= _) _ => apply sends_bind; [| intros ? ? _]
  | |- sends _ (emit _) _ => apply sends_emit
  | |- sends _ (each_do _ _) _ => apply sends_each; intros ? ? ?
  | |- sends _ (collect_start_results _ _ _ _ _) _ => apply sends_collect_start; intros ? ?
  | |- sends _ (let '(_, _) := ?x in _) _ => destruct x eqn:?
  | |- sends _ (if ?b then _ else _) _ => destruct b eqn:?
  | |- sends _ (match ?x with _ => _ end) _ => destruct x eqn:?
  | |- sends _ _ _ => solve [auto with sends nocore]
  end.
Ltac sends_auto := repeat sends_step.

(** ** Operations that succeed *)

Section Succeeds.
Context {Value W : Type} `{EC : !Codec (Event Value)}.
Abbreviation L := (Listen Value W) (only parsing).
Abbreviation M := (LM Value W) (only parsing).
Implicit Types (l : L).

Lemma bind_answers {A B} (m : M A) (k : A → M B) l b l' :
  (m ≫= k) l = (inr b, l') ↔ ∃ a l1, m l = (inr a, l1) ∧ k a l1 = (inr b, l').
Proof.
  unfold mbind, lm_bind. destruct (m l) as [[e|a] l1]; split; try naive_solver.
Qed.

Lemma emit_ok ev l l' :
  emit ev l = (inr tt, l') → l' = ls_set_wal (send ev (ls_wal l)) l.
Proof. unfold emit, send. destruct (append ev (ls_wal l)) as [[|] w]; by intros [= <-]. Qed.

Lemma set_wal_twice w1 w2 l : ls_set_wal w1 (ls_set_wal w2 l) = ls_set_wal w1 l.
Proof. done. Qed.

(** What a batch that succeeds leaves. *)
Lemma each_emit_ok {A} (f : A → Event Value) xs l l' :
  each_do (λ x, emit (f x)) xs l = (inr tt, l') →
  l' = ls_set_wal (send_all (f <$> xs) (ls_wal l)) l.
Proof.
  revert l. induction xs as [|x xs IH]; intros l; simpl.
  - intros [= <-]. by destruct l.
  - intros ([] & l1 & E & H)%bind_answers. apply emit_ok in E as ->. by apply IH in H.
Qed.

Lemma emit_all_ok evs l l' :
  emit_all evs l = (inr tt, l') → l' = ls_set_wal (send_all evs (ls_wal l)) l.
Proof. intros H%(each_emit_ok (λ x, x)). by rewrite list_fmap_id in H. Qed.
End Succeeds.

(** A concrete listener for the theorems about requests: a log that writes the
    type of each event, no files, and runbooks that all hold the sample. *)

Local Open Scope string_scope.

Definition name_codec : Codec (Event unit) := {|
  encode _ e := Some (event_name e);
  decode _ := None
|}.

Definition no_files : Files unit := {|
  fs_read_dir := λ _ _, Some [];
  fs_read := λ _ _, None;
  fs_exists := λ _ _, false;
  fs_is_dir := λ _ _, false;
  fs_is_file := λ _ _, false;
  fs_age := λ _ _, None;
  fs_create_dir_all := λ _ w, (true, w);
  fs_write := λ _ _ w, (true, w);
  fs_rename := λ _ _ w, (true, w);
  fs_remove_file := λ _ w, w;
  fs_remove_dir_all := λ _ w, w
|}.

(** A runbook with a persisted queue, its worker, and the job of the worker. *)
Definition queue_runbook : Runbook :=
  mkRunbook ∅ ∅ ∅ {["build" := sample_job]} ∅
    {["issues" := mkQueueDef "issues" Persisted None None ["title"] {["title" := "none"]} None None]}
    {["fixer" := mkWorkerDef "fixer" "issues" "build" 1]} ∅.

Definition quiet_listen : ListenIO unit := {|
  tmux_kill_session := λ _ w, w;
  tmux_has_session := λ _ w, (false, w);
  tmux_capture_pane := λ _ _ w, (inl "no tmux", w);
  git_worktree_remove := λ _ w, w;
  config_project_name := λ _ _, None;
  root_file_name := λ _, None;
  find_runbook_by_queue := λ _ _ _, inr (Some queue_runbook);
  collect_all_commands := λ _ _, Some [];
  collect_all_queues := λ _ _, Some [];
  collect_all_workers := λ _ _, Some [];
  collect_all_crons := λ _ _, Some [];
  daemon_state_dir := Some "/state";
  logs_path := "/logs";
  protocol_version := "1"
|}.

(** JSON values are all the empty object. *)
Definition object_json : JsonItem unit := {|
  json_strings := λ _, tt;
  json_as_object := λ _, Some ∅;
  json_as_str := λ _, None;
  json_to_string := λ _, "{}"
|}.

(** The listener on a state, with the engine at rest. *)
Definition sample_listen (s : MaterializedState unit) (orphans : list Breadcrumb) : Listen unit unit :=
  mkListen s (λ _ s, s) orphans (mkMetricsHealth 0 0 None []) (mkWal "" 0 0 [] 0 0) tt 0 false
    (λ _, "fresh") (λ _, env_at 100000000).

Local Close Scope string_scope.
