(* ===== verification/RequestSpec.v ===== *)
(** The contract of requests: which events each of them may put into the log.

    [may_send r ev] says it for a request [r] and an event [ev]; a query and a
    dry run send nothing.  The theorem is about every request, in every state
    and also when it fails midway. *)

From S2P Require Import Prelude Ids Runbook Bytes Vars Slug Entities Job Event State Runtime Wal.
From S2P Require Import WorkerQueue Engine RunbookParse Breadcrumb Suggest Protocol Listener Mutations.
From S2P Require Import ListenRun ListenQueues Query ListenRequest.

Local Open Scope string_scope.

Section Contract.
Context {Value : Type}.
Implicit Types (ev : Event Value).

(** The events that start a worker of a namespace. *)
Definition starts_worker (namespace : string) (ev : Event Value) : Prop :=
  match ev with
  | RunbookLoaded _ _ _ => True
  | WorkerStarted _ _ _ _ _ ns | WorkerWake _ ns => ns = namespace
  | _ => False
  end.

Definition starts_cron (namespace : string) (ev : Event Value) : Prop :=
  match ev with
  | RunbookLoaded _ _ _ => True
  | CronStarted _ _ _ _ _ ns => ns = namespace
  | _ => False
  end.

(** What the answer to a decision may do. *)
Definition acts_on_decision (ev : Event Value) : Prop :=
  match ev with
  | DecisionResolved _ _ _ _ _ | JobResume _ _ _ _ | JobCancel _ | StepCompleted _ _
  | AgentRunResume _ _ _ | AgentRunStatusChanged _ _ _ | SessionInput _ _ => True
  | _ => False
  end.

Definition may_send (r : Request Value) (ev : Event Value) : Prop :=
  match r with
  | Req_Event e => ev = e
  | Req_SessionSend _ input => match ev with SessionInput _ i => i = input | _ => False end
  | Req_SessionKill id => ev = SessionDeleted id
  | Req_AgentSend _ message => match ev with AgentInput _ m => m = message | _ => False end
  | Req_JobResume _ message vars kill all =>
      match ev with
      | JobResume _ m v k => k = kill ∧ if all then m = None ∧ v = ∅ else m = message ∧ v = vars
      | JobCreated _ _ _ _ _ _ _ _ _ _ => all = false
      | JobAdvanced _ step => all = false ∧ step = "failed"
      | _ => False
      end
  | Req_JobResumeAll kill => match ev with JobResume _ m v k => m = None ∧ v = ∅ ∧ k = kill | _ => False end
  | Req_JobCancel ids => match ev with JobCancel id => id ∈ ids | _ => False end
  | Req_RunCommand _ invoke_dir namespace command _ _ =>
      match ev with
      | CommandRun _ _ _ dir ns c _ => dir = invoke_dir ∧ ns = namespace ∧ c = command
      | _ => False
      end
  | Req_WorkspaceDrop _ | Req_WorkspaceDropFailed | Req_WorkspaceDropAll =>
      match ev with WorkspaceDrop _ => True | _ => False end
  | Req_JobPrune _ _ _ dry_run _ => match ev with JobDeleted _ => dry_run = false | _ => False end
  | Req_AgentPrune _ dry_run =>
      match ev with JobDeleted _ | AgentRunDeleted _ => dry_run = false | _ => False end
  | Req_WorkspacePrune _ dry_run _ => match ev with WorkspaceDeleted _ => dry_run = false | _ => False end
  | Req_WorkerPrune _ dry_run _ => match ev with WorkerDeleted _ _ => dry_run = false | _ => False end
  | Req_CronPrune _ dry_run => match ev with CronDeleted _ _ => dry_run = false | _ => False end
  | Req_SessionPrune _ dry_run _ => match ev with SessionDeleted _ => dry_run = false | _ => False end
  | Req_WorkerStart _ namespace _ _ => starts_worker namespace ev
  | Req_WorkerWake name namespace => ev = WorkerWake name namespace
  | Req_WorkerStop name namespace _ => ev = WorkerStopped name namespace
  | Req_WorkerRestart _ namespace name =>
      starts_worker namespace ev ∨ ev = WorkerStopped name namespace
  | Req_WorkerResize name namespace concurrency =>
      ev = WorkerResized name concurrency namespace ∧ concurrency ≠ 0%Z
  | Req_CronStart _ namespace _ _ => starts_cron namespace ev
  | Req_CronStop name namespace _ => ev = CronStopped name namespace
  | Req_CronRestart _ namespace name => starts_cron namespace ev ∨ ev = CronStopped name namespace
  | Req_CronOnce _ namespace name =>
      match ev with
      | RunbookLoaded _ _ _ => True
      | CronOnce n _ _ _ _ _ _ _ _ ns => n = name ∧ ns = namespace
      | _ => False
      end
  | Req_QueuePush _ namespace name _ =>
      starts_worker namespace ev ∨
      match ev with QueuePushed q _ _ _ ns => q = name ∧ ns = namespace | _ => False end
  | Req_QueueDrop _ namespace name _ | Req_QueueDrain _ namespace name =>
      match ev with QueueDropped q _ ns => q = name ∧ ns = namespace | _ => False end
  | Req_QueueRetry _ namespace name _ _ _ | Req_QueueRetryBulk _ namespace name _ _ _ =>
      starts_worker namespace ev ∨
      match ev with QueueItemRetry q _ ns => q = name ∧ ns = namespace | _ => False end
  | Req_QueueFail _ namespace name _ =>
      match ev with QueueFailed q _ _ ns => q = name ∧ ns = namespace | _ => False end
  | Req_QueueDone _ namespace name _ =>
      match ev with QueueCompleted q _ ns => q = name ∧ ns = namespace | _ => False end
  | Req_QueuePrune _ namespace name _ dry_run =>
      match ev with QueueDropped q _ ns => dry_run = false ∧ q = name ∧ ns = namespace | _ => False end
  | Req_DecisionResolve _ _ _ => acts_on_decision ev
  | Req_AgentResume _ kill _ =>
      match ev with
      | JobResume _ m v k => m = None ∧ v = ∅ ∧ k = kill
      | SessionDeleted _ => kill = true
      | _ => False
      end
  | Req_Ping | Req_Hello _ | Req_Query _ | Req_Shutdown _ | Req_Status | Req_PeekSession _ _ => False
  end.
End Contract.

Section Proofs.
Context {Value W : Type} `{RIO : !RuntimeIO Value W} `{LIO : !ListenIO W} `{CIO : !CronIO W}.
Context `{FL : !Files W} `{EC : !Codec (Event Value)} `{HO : !HashOrder} `{JI : !JsonItem Value}.
Abbreviation L := (Listen Value W) (only parsing).
Implicit Types (l : L) (P : Event Value → Prop).

(** ** Shared parts *)

Lemma sends_suggest P name ns prefix ty names of_state l :
  sends P (suggest_for_resource (Value:=Value) (W:=W) name ns prefix ty names of_state) l.
Proof. unfold suggest_for_resource. sends_auto. Qed.

Lemma sends_load P root ns load suggest l :
  (∀ l', sends P suggest l') →
  sends P (load_runbook_with_fallback (Value:=Value) (W:=W) root ns load suggest) l.
Proof.
  intros H. unfold load_runbook_with_fallback. sends_step; [sends_auto |]. sends_step.
  destruct (if negb (is_empty ns) && _ then _ else _) as [preferred fallback].
  sends_step; [sends_auto |]. destruct a0; [| sends_auto]. sends_step; [sends_auto |].
  destruct a0; [sends_auto |]. sends_step; [apply H | sends_auto].
Qed.

Lemma sends_require P ns name ty ex suggest l :
  (∀ l', sends P suggest l') →
  sends P (require_scoped_resource (Value:=Value) (W:=W) ns name ty ex suggest) l.
Proof. intros H. unfold require_scoped_resource. sends_auto. Qed.

Lemma sends_hash P rb l :
  (∀ h v j, P (RunbookLoaded h v j)) → sends P (hash_and_emit_runbook (W:=W) rb) l.
Proof. intros H. unfold hash_and_emit_runbook. sends_auto. apply H. Qed.
Hint Resolve sends_suggest sends_load sends_require : sends.
Hint Extern 2 (sends _ (hash_and_emit_runbook _) _) => apply sends_hash; intros; simpl; tauto : sends.

(** ** Workers, crons, queues *)

Lemma sends_worker_start root ns name l :
  sends (starts_worker ns) (handle_worker_start (Value:=Value) (W:=W) root ns name) l.
Proof. unfold handle_worker_start, suggest_for_worker. sends_auto; done. Qed.

Lemma sends_cron_start root ns name l :
  sends (starts_cron ns) (handle_cron_start (Value:=Value) (W:=W) root ns name) l.
Proof. unfold handle_cron_start, with_cron, suggest_for_cron. sends_auto; done. Qed.

Lemma sends_wake root ns queue rb l :
  sends (starts_worker ns) (wake_attached_workers (Value:=Value) (W:=W) root ns queue rb) l.
Proof. unfold wake_attached_workers, wake_worker. sends_auto; done. Qed.

Lemma sends_with_queue P root ns name prefix (k : Runbook → PathBuf → QueueDef → LM Value W Response) l :
  (∀ rb r d l', sends P (k rb r d) l') → sends P (with_queue root ns name prefix k) l.
Proof. intros H. unfold with_queue, suggest_for_queue. sends_auto. Qed.

Lemma sends_persisted P root ns name prefix (k : Runbook → PathBuf → LM Value W Response) l :
  (∀ rb r l', sends P (k rb r) l') → sends P (with_persisted_queue root ns name prefix k) l.
Proof. intros H. apply sends_with_queue. intros. sends_auto. Qed.

Lemma sends_resolve P ns q w l : sends P (resolve_queue_item_id (Value:=Value) (W:=W) ns q w) l.
Proof. unfold resolve_queue_item_id. sends_auto. Qed.

Lemma sends_status P ns q w l : sends P (item_status_of (Value:=Value) (W:=W) ns q w) l.
Proof. unfold item_status_of. sends_auto. Qed.

Hint Resolve sends_worker_start sends_cron_start sends_wake sends_resolve sends_status : sends.

Lemma sends_force_end P root ns q w prefix verb event answer l :
  (∀ id, P (event id)) → sends P (force_end (Value:=Value) (W:=W) root ns q w prefix verb event answer) l.
Proof. intros H. apply sends_persisted. intros. sends_auto; apply H. Qed.

(** Events of a retry. *)
Definition retries (ns q : string) (ev : Event Value) : Prop :=
  starts_worker ns ev ∨ match ev with QueueItemRetry q' _ ns' => q' = q ∧ ns' = ns | _ => False end.

Lemma sends_wake_retry root ns queue rb q l :
  sends (retries ns q) (wake_attached_workers (Value:=Value) (W:=W) root ns queue rb) l.
Proof. eapply sends_weaken; [| apply sends_wake]. by left. Qed.

Hint Resolve sends_wake_retry : sends.

Lemma sends_retry_each ns q ws a b c l :
  sends (retries ns q) (retry_each (Value:=Value) (W:=W) ns q ws a b c) l.
Proof.
  revert a b c l. induction ws as [|w ws IH]; intros a b c l; simpl; sends_auto; by right.
Qed.

Hint Resolve sends_retry_each : sends.

Lemma sends_retry root ns q f l :
  sends (retries ns q) (handle_queue_retry (Value:=Value) (W:=W) root ns q f) l.
Proof.
  apply sends_persisted. intros rb r l'. unfold retry_many, retry_one. sends_auto; by right.
Qed.

(** ** Decisions *)

Lemma decision_actions_act chosen message (t : ToResolve) (ev : Event Value) :
  ev ∈ decision_actions chosen message t → acts_on_decision ev.
Proof.
  unfold decision_actions, map_decision_to_job_action, map_decision_to_agent_run_action.
  destruct (decision_owner (tr_decision t)), (resolve_decision_action _ _ _), message, chosen,
    (tr_job_step t), (tr_run_session t), (decision_agent_id (tr_decision t));
    cbn; intros ?%list_elem_of_In; simpl in *; naive_solver.
Qed.

Lemma sends_decision id chosen message l :
  sends acts_on_decision (handle_decision_resolve (Value:=Value) (W:=W) id chosen message) l.
Proof.
  unfold handle_decision_resolve. sends_auto; [done |]. by eapply decision_actions_act.
Qed.

(** ** Jobs *)

Lemma sends_cancel (P : Event Value → Prop) ids l a b c :
  (∀ id, id ∈ ids → P (JobCancel id)) → sends P (cancel_jobs (Value:=Value) (W:=W) ids a b c) l.
Proof.
  revert a b c l. induction ids as [|id ids IH]; intros a b c l H; simpl; sends_auto.
  - apply H. set_solver.
  - apply IH. set_solver.
  - apply IH. set_solver.
  - apply IH. set_solver.
Qed.

Lemma sends_query P q l : sends P (handle_query (Value:=Value) (W:=W) q) l.
Proof.
  assert (∀ f : L → Env → MaterializedState Value → option Response,
            sends P (λ l, (answer ← lock (f l); or_panic answer) l) l) as Hlock.
  { intros f. apply sends_none. unfold mbind, lm_bind, lock. simpl. by destruct (f l _ _). }
  destruct q; try apply (Hlock (λ l, answer_query _ (ls_start_time l) (ls_health l) (ls_orphans l) (ls_world l)));
    simpl; unfold handle_list_orphans, handle_dismiss_orphan; sends_auto.
Qed.

Hint Resolve sends_decision sends_query : sends.
Hint Unfold retries : core.

Lemma sends_notify P l : sends P (notify_shutdown (Value:=Value) (W:=W)) l.
Proof. by apply sends_none. Qed.

Lemma sends_try_emit (P : Event Value → Prop) ev l : P ev → sends P (try_emit (W:=W) ev) l.
Proof. intros H res l' [= <- <-]. exists [ev]. split; [done | by constructor]. Qed.

Hint Resolve sends_notify sends_try_emit : sends.

(** ** Requests with parts of their own *)

Lemma sends_weak_or_l P Q {A} (m : LM Value W A) l : sends P m l → sends (λ ev, P ev ∨ Q ev) m l.
Proof. apply sends_weaken. by left. Qed.

Lemma sends_resume_orphan id message vars kill l :
  sends (may_send (Req_JobResume id message vars kill false)) (resume_orphan (W:=W) id message vars kill) l.
Proof.
  unfold resume_orphan. sends_auto. unfold rebuild_orphan in *. simpl in *.
  match goal with H : _ ∈ _ |- _ => apply list_elem_of_In in H; simpl in H end. naive_solver.
Qed.

Lemma sends_session_kill id l : sends (may_send (Req_SessionKill id)) (handle_session_kill (W:=W) id) l.
Proof. unfold handle_session_kill. sends_auto. by repeat case_match; simplify_eq/=. Qed.

Lemma sends_worker_restart root ns name l :
  sends (may_send (Req_WorkerRestart root ns name)) (handle_worker_restart (W:=W) root ns name) l.
Proof.
  unfold handle_worker_restart, scoped_exists. sends_auto; [by right |].
  apply sends_weak_or_l, sends_worker_start.
Qed.

Lemma sends_cron_restart root ns name l :
  sends (may_send (Req_CronRestart root ns name)) (handle_cron_restart (W:=W) root ns name) l.
Proof.
  unfold handle_cron_restart, scoped_exists. sends_auto; [by right |].
  apply sends_weak_or_l, sends_cron_start.
Qed.

Lemma sends_cron_once root ns name l :
  sends (may_send (Req_CronOnce root ns name)) (handle_cron_once (W:=W) root ns name) l.
Proof. unfold handle_cron_once, with_cron, suggest_for_cron. sends_auto; done. Qed.

Lemma sends_push root ns q data l :
  sends (may_send (Req_QueuePush root ns q data)) (handle_queue_push (W:=W) root ns q data) l.
Proof.
  apply sends_with_queue. intros rb r d l'. unfold push_new_item.
  sends_auto; first [by right | apply sends_weak_or_l, sends_wake].
Qed.

Lemma sends_drop root ns q w l :
  sends (may_send (Req_QueueDrop root ns q w)) (handle_queue_drop (Value:=Value) (W:=W) root ns q w) l.
Proof. apply sends_persisted. intros. sends_auto; done. Qed.

Lemma sends_drain root ns q l :
  sends (may_send (Req_QueueDrain root ns q)) (handle_queue_drain (Value:=Value) (W:=W) root ns q) l.
Proof. apply sends_persisted. intros. sends_auto; done. Qed.

Lemma sends_queue_prune root ns q all dry_run l :
  sends (may_send (Req_QueuePrune root ns q all dry_run))
    (handle_queue_prune (Value:=Value) (W:=W) root ns q all dry_run) l.
Proof. apply sends_persisted. intros. sends_auto; done. Qed.

Lemma sends_agent_resume id kill all l :
  sends (may_send (Req_AgentResume id kill all)) (handle_agent_resume (Value:=Value) (W:=W) id kill all) l.
Proof. unfold handle_agent_resume, kill_target. sends_auto; try apply sends_try_emit; done. Qed.

Lemma sends_worker_stop name ns root l :
  sends (may_send (Req_WorkerStop name ns root)) (handle_worker_stop (Value:=Value) (W:=W) name ns root) l.
Proof. unfold handle_worker_stop, suggest_for_worker. sends_auto. done. Qed.

Lemma sends_cron_stop name ns root l :
  sends (may_send (Req_CronStop name ns root)) (handle_cron_stop (Value:=Value) (W:=W) name ns root) l.
Proof. unfold handle_cron_stop, suggest_for_cron. sends_auto. done. Qed.

Lemma sends_fail_item root ns q w l :
  sends (may_send (Req_QueueFail root ns q w)) (handle_queue_fail (Value:=Value) (W:=W) root ns q w) l.
Proof. by apply sends_force_end. Qed.

Lemma sends_done_item root ns q w l :
  sends (may_send (Req_QueueDone root ns q w)) (handle_queue_done (Value:=Value) (W:=W) root ns q w) l.
Proof. by apply sends_force_end. Qed.

Hint Resolve sends_resume_orphan sends_fail_item sends_done_item sends_session_kill sends_worker_restart sends_cron_restart
  sends_cron_once sends_push sends_drop sends_drain sends_queue_prune sends_agent_resume
  sends_worker_stop sends_cron_stop : sends.
Hint Extern 1 (sends _ (handle_worker_start _ _ _) _) => exact (sends_worker_start _ _ _ _) : sends.
Hint Extern 1 (sends _ (handle_cron_start _ _ _) _) => exact (sends_cron_start _ _ _ _) : sends.
Hint Extern 1 (sends _ (handle_queue_retry _ _ _ _) _) => exact (sends_retry _ _ _ _ _) : sends.
Hint Extern 1 (sends _ (handle_job_cancel _) _) => apply sends_cancel : sends.

(** Opens the handlers of the other requests. *)
Ltac open_request :=
  unfold kill_state_sessions, handle_status, handle_session_send, handle_agent_send,
    handle_job_resume_all, handle_job_resume, validate_resume_message, handle_run_command,
    handle_workspace_drop, capture_tmux_pane, handle_job_prune, prune_orphans, handle_agent_prune,
    handle_workspace_prune, workspace_prune_inner, handle_worker_prune, handle_cron_prune,
    handle_session_prune, handle_worker_start_all, resolve_effective_project_root,
    handle_cron_start_all, handle_worker_resize, suggest_for_command; simpl.

(** C14. Every request keeps its contract, whatever the state, the runbooks and
    the files, and also when it fails midway: it appends to the log only events
    that [may_send] allows.  A query, a look at a session and a dry run of a
    prune append none. *)
Theorem request_contract (r : Request Value) l :
  ∃ evs, ls_wal (handle_request r l).2 = send_all evs (ls_wal l) ∧ Forall (may_send r) evs.
Proof.
  assert (sends (may_send r) (handle_request r) l) as H; [| by eapply H, surjective_pairing].
  destruct r; simpl; open_request; sends_auto; try solve [simpl; naive_solver].
Qed.
End Proofs.

Local Close Scope string_scope.
