(* ===== verification/RunbookSearch.v ===== *)
(** The search for runbooks behind the classes of the engine and the listener,
    and what it means for a worker that the listener starts.

    [RuntimeIO], [CronIO] and [ListenIO] have the search as operations, so that
    their theorems hold for any result.  Here these operations are the search of
    [RunbookFind] on the files of the world. *)

From S2P Require Import Prelude Ids Runbook Bytes Vars Slug Entities Job Event State Executor ShellAst.
From S2P Require Import RunbookParse RunbookSpec RunbookImport RunbookImportSpec RunbookFind Diagnostics.
From S2P Require Import Runtime Wal WorkerQueue Engine Breadcrumb Suggest Protocol Listener Mutations.
From S2P Require Import ListenRun ListenQueues Query ListenRequest.

Local Open Scope string_scope.

Section Search.
Context {Value W : Type} `{FL : !Files W}.
Context `{TR : !TemplateRegex} `{TC : !TemplateCaptures} `{HO : !HashOrder}.
Context `{RF : !RunbookFormat} `{CP : !ConstPatterns} `{LB : !Libraries}.
(** Enough for the directories of every world ([RunbookFind.collect_ends]). *)
Context (fuel : nat).

Definition files_at (w : W) : RunbookFiles := {|
  path_exists := λ p, fs_exists p w;
  read_dir := λ p, match fs_read_dir p w with Some ps => inr ps | None => inl "cannot read" end;
  is_dir := λ p, fs_is_dir p w;
  read_to_string := λ p, match fs_read p w with Some t => inr t | None => inl "cannot read" end
|}.

(** [map_err(|e| e.to_string())]; a panic of the text and a search that does not
    end are errors too. *)
Definition searched {A} (r : Res FindError A) : string + A :=
  match r with
  | Ok a => inr a
  | Err e => inl (default "panic" (FindError_display e))
  | NoFuel => inl "endless"
  end.

(** [.unwrap_or_default()] *)
Definition collected {A} (r : Res FindError A) : option A :=
  match r with Ok a => Some a | _ => None end.

Definition search_worker (dir : PathBuf) (name : string) (w : W) : string + option Runbook :=
  searched (RunbookFind.find_runbook_by_worker (FS := files_at w) fuel dir name).
Definition search_queue (dir : PathBuf) (name : string) (w : W) : string + option Runbook :=
  searched (RunbookFind.find_runbook_by_queue (FS := files_at w) fuel dir name).
Definition search_cron (dir : PathBuf) (name : string) (w : W) : string + option Runbook :=
  searched (RunbookFind.find_runbook_by_cron (FS := files_at w) fuel dir name).
Definition search_command (dir : PathBuf) (name : string) (w : W) : string + option Runbook :=
  searched (RunbookFind.find_runbook_by_command (FS := files_at w) fuel dir name).

(** The classes with this search, and everything else as it is. *)
Definition runtime_search (io : RuntimeIO Value W) : RuntimeIO Value W := {|
  job_log := io.(job_log);
  worker_log := io.(worker_log);
  breadcrumb_write := io.(breadcrumb_write);
  breadcrumb_delete := io.(breadcrumb_delete);
  load_merged_env := io.(load_merged_env);
  Runtime.find_runbook_by_worker := search_worker;
  runbook_to_json := io.(runbook_to_json);
  json_to_text := io.(json_to_text);
  sha256_hex := io.(sha256_hex);
  runbook_from_json := io.(runbook_from_json);
  runtime_env_var := io.(runtime_env_var);
  state_dir := io.(state_dir)
|}.

Definition cron_search (io : CronIO W) : CronIO W := {|
  append_cron_log := io.(append_cron_log);
  Runtime.find_runbook_by_cron := search_cron;
  Runtime.find_runbook_by_command := search_command
|}.

Definition listen_search (io : ListenIO W) : ListenIO W := {|
  tmux_kill_session := io.(tmux_kill_session);
  tmux_has_session := io.(tmux_has_session);
  tmux_capture_pane := io.(tmux_capture_pane);
  git_worktree_remove := io.(git_worktree_remove);
  config_project_name := io.(config_project_name);
  root_file_name := io.(root_file_name);
  Listener.find_runbook_by_queue := search_queue;
  Listener.collect_all_commands dir w :=
    collected (RunbookFind.collect_all_commands (FS := files_at w) fuel dir);
  Listener.collect_all_queues dir w :=
    collected (RunbookFind.collect_all_queues (FS := files_at w) fuel dir);
  Listener.collect_all_workers dir w :=
    collected (RunbookFind.collect_all_workers (FS := files_at w) fuel dir);
  Listener.collect_all_crons dir w :=
    collected (RunbookFind.collect_all_crons (FS := files_at w) fuel dir);
  daemon_state_dir := io.(daemon_state_dir);
  logs_path := io.(logs_path);
  protocol_version := io.(protocol_version)
|}.

(** ** What is found *)

Lemma load_file_typed (FS : RunbookFiles) file :
  sound (λ x, ∀ c r, x = inl (c, r) → runbook_typed r) (RunbookFind.load_file (FS:=FS) file).
Proof.
  unfold load_file. destruct (read_to_string file.1) as [e|content]; [done |].
  pose proof (parse_file_content_sound content file.2) as H.
  destruct (parse_file_content content file.2) as [r|e|]; simpl; [| done | done].
  by intros c r' [= _ <-].
Qed.

Lemma find_in_typed (FS : RunbookFiles) name matches files found skipped :
  (∀ r, found = Some r → runbook_typed r ∧ matches r = true) →
  sound (λ o, ∀ r, o = Some r → runbook_typed r ∧ matches r = true)
    (RunbookFind.find_in (FS:=FS) name matches files found skipped).
Proof.
  revert found skipped. induction files as [|file files IH]; intros found skipped H; simpl.
  { by destruct found, skipped. }
  pose proof (load_file_typed FS file) as Hl.
  destruct (RunbookFind.load_file file) as [[[c r]|reason]|e|]; simpl in *; [| by apply IH | done | done].
  destruct (matches r) eqn:Em; [| by apply IH]. destruct found; [done |].
  apply IH. intros r' [= <-]. split; [by eapply Hl | done].
Qed.

Lemma search_worker_typed dir name w rb :
  search_worker dir name w = inr (Some rb) →
  runbook_typed rb ∧ is_Some (get_worker name rb).
Proof.
  unfold search_worker, RunbookFind.find_runbook_by_worker, find_runbook.
  destruct (runbook_files fuel dir) as [files|e|]; simpl; [| done | done].
  pose proof (find_in_typed (files_at w) name (λ rb, defined (get_worker name rb)) files None [])
    as H.
  destruct (find_in _ _ _ _ _) as [o|e|]; simpl in *; [| done | done].
  intros [= ->]. destruct (H ltac:(done) rb eq_refl) as [Ht Hd]. split; [done |].
  unfold defined in Hd. destruct (get_worker name rb); [done | discriminate].
Qed.
End Search.

(** ** What is loaded *)

Section Loads.
Context {Value W : Type} `{RIO : !RuntimeIO Value W} `{LIO : !ListenIO W} `{EC : !Codec (Event Value)}.
Implicit Types (l : Listen Value W).

Lemma suggest_reads name ns prefix ty names of_state l hint l' :
  suggest_for_resource name ns prefix ty names of_state l = (inr hint, l') → ls_wal l' = ls_wal l.
Proof.
  unfold suggest_for_resource. rewrite bind_answers. intros (ns1 & l1 & [= <- <-] & H).
  destruct (find_similar name _); [| by injection H as <- <-].
  apply bind_answers in H as (ns2 & l2 & [= <- <-] & H).
  destruct (find_similar name _); [| by injection H as <- <-].
  apply bind_answers in H as (other & l3 & [= <- <-] & H). by injection H as <- <-.
Qed.

(** The runbook is that of a root, or the text of the error is that of the
    search of the preferred root, with a hint. *)
Lemma loaded_from root ns load suggest l x l' :
  (∀ l1 hint l2, suggest l1 = (inr hint, l2) → ls_wal l2 = ls_wal l1) →
  load_runbook_with_fallback root ns load suggest l = (inr x, l') →
  ls_wal l' = ls_wal l ∧
  match x with
  | inr (rb, dir) => load dir (ls_world l) = inr rb
  | inl resp => ∃ dir e hint, load dir (ls_world l) = inl e ∧ resp = Resp_Error (e +:+ hint)
  end.
Proof.
  intros Hs. unfold load_runbook_with_fallback.
  rewrite bind_answers. intros (pn & l1 & [= <- <-] & H).
  apply bind_answers in H as (known & l2 & [= <- <-] & H).
  set (roots := if negb (is_empty ns) && _ then _ else _) in H.
  destruct roots as [preferred fallback].
  apply bind_answers in H as (first & l3 & [= <- <-] & H). cbn [ls_world ls_locked] in H.
  destruct (load preferred (ls_world l)) as [e|rb] eqn:E; [| by injection H as <- <-].
  apply bind_answers in H as (alt & l4 & [= <- <-] & H). cbn [ls_world ls_locked] in H.
  destruct fallback as [dir|]; simpl in H.
  - destruct (String.eqb dir preferred).
    + apply bind_answers in H as (hint & l5 & Hh & [= <- <-]). apply Hs in Hh. eauto 10.
    + destruct (load dir (ls_world l)) as [e'|rb'] eqn:E'; [| by injection H as <- <-].
      apply bind_answers in H as (hint & l5 & Hh & [= <- <-]). apply Hs in Hh. eauto 10.
  - apply bind_answers in H as (hint & l5 & Hh & [= <- <-]). apply Hs in Hh. eauto 10.
Qed.

(** What reading the serialized form of a runbook gives: the names inside queues,
    workers and crons are not serialized and come back empty (the tables keep
    them as keys), jobs come back as they were. *)
Definition unnamed_queue (q : QueueDef) : QueueDef :=
  mkQueueDef "" (qdef_type q) (qdef_list q) (qdef_take q) (qdef_vars q) (qdef_defaults q)
    (qdef_retry q) (qdef_poll q).
Definition unnamed_worker (w : WorkerDef) : WorkerDef :=
  mkWorkerDef "" (worker_source_queue w) (worker_handler_job w) (worker_def_concurrency w).
Definition unnamed_cron (c : CronDef) : CronDef :=
  mkCronDef "" (cron_interval c) (cron_run c) (cron_concurrency c).

Definition read_back (rb rb' : Runbook) : Prop :=
  rb_jobs rb' = rb_jobs rb ∧ rb_queues rb' = unnamed_queue <$> rb_queues rb ∧
  rb_workers rb' = unnamed_worker <$> rb_workers rb ∧ rb_crons rb' = unnamed_cron <$> rb_crons rb.

(** The runbook that an event announces is the one that the engine works with,
    as it was cached or as it is read back, unless another has the same hash. *)
Lemma cached_after_loaded `{AD : !Adapters Value W} env hash json rb rb' s (r : Rt Value W) :
  runbook_from_json json = inr rb' →
  (∀ stored, runbooks s !! hash = Some stored → runbook_data stored = json) →
  (∀ cached, rt_cache r !! hash = Some cached → cached = rb ∨ cached = rb') →
  rt_state r = apply_event env (RunbookLoaded hash 1 json) s →
  ∃ known, (cached_runbook hash r).1 = inr known ∧ (known = rb ∨ known = rb').
Proof.
  intros Hj Hs Hc Hr. unfold cached_runbook, mbind, rt_bind, gets.
  destruct (rt_cache r !! hash) as [cached|]; [exists cached; split; [done | by apply Hc] |].
  assert (∃ stored, runbooks (rt_state r) !! hash = Some stored ∧ runbook_data stored = json)
    as (stored & Hst & Hd).
  { rewrite Hr. simpl. unfold apply_RunbookLoaded. destruct (runbooks s !! hash) as [st|] eqn:E.
    - exists st. by split; [| apply Hs].
    - eexists. simpl. rewrite lookup_insert_eq. by split. }
  exists rb'. split; [| by right]. unfold lock_state, gets. rewrite Hst. simpl. by rewrite Hd, Hj.
Qed.
End Loads.

(** ** A worker that is started *)

Section Started.
Context {Value W : Type} `{FL : !Files W} `{RIO : !RuntimeIO Value W} `{LIO : !ListenIO W}.
Context `{EC : !Codec (Event Value)} `{TR : !TemplateRegex} `{TC : !TemplateCaptures} `{HO : !HashOrder}.
Context `{RF : !RunbookFormat} `{CP : !ConstPatterns} `{LB : !Libraries}.
Context (fuel : nat).
Implicit Types (l : Listen Value W).

#[local] Instance searching_runtime : RuntimeIO Value W | 0 := runtime_search fuel RIO.
#[local] Instance searching_listener : ListenIO W | 0 := listen_search fuel LIO.

Lemma loaded_worker name dir w rb :
  load_runbook_for_worker (RIO:=searching_runtime) name dir w = inr rb →
  ∃ def, runbook_typed rb ∧ get_worker name rb = Some def ∧
    is_Some (get_queue (worker_source_queue def) rb) ∧
    is_Some (get_job_def (worker_handler_job def) rb).
Proof.
  unfold load_runbook_for_worker, required. simpl.
  destruct (search_worker fuel (runbook_dir dir) name w) as [e|[found|]] eqn:E; [done | | done].
  intros [= ->]. apply search_worker_typed in E as [Ht [def Hd]]. exists def.
  pose proof (RunbookSpec.rt_workers _ Ht _ _ Hd) as (_ & Hq & Hj). done.
Qed.

(** C27. With the runbooks of the disk, a request to start a worker that is answered
    fails only if the runbook cannot be found or used; nothing is sent then.
    Otherwise a worker that runs is woken, or the events are sent that load the
    runbook and start the worker; this runbook is well typed, it has the worker
    with its queue and its job, and the engine that has applied the first event
    works with the same runbook: as it was, or as it is read back from its
    serialized form, where queues and workers have lost their names.  There too
    the worker is found under its name, with the same queue, job and concurrency,
    and both are there.  It takes that the serialized form can be read back up to
    these names, and that the state and the cache have no other runbook under
    the hash. *)
Theorem started_worker_resolves root ns name l resp l' :
  handle_worker_start (RIO:=searching_runtime) (LIO:=searching_listener) root ns name l
    = (inr resp, l') →
  (∃ dir e hint,
     load_runbook_for_worker (RIO:=searching_runtime) name dir (ls_world l) = inl e ∧
     resp = Resp_Error (e +:+ hint) ∧ ls_wal l' = ls_wal l) ∨
  resp = Resp_WorkerStarted name ∧
  (ls_wal l' = send_all [WorkerWake name ns] (ls_wal l) ∨
   ∃ rb dir json hash def,
     ls_wal l' = send_all [RunbookLoaded hash 1 json; worker_started_event name dir hash def ns]
                   (ls_wal l) ∧
     hash_runbook (RIO:=searching_runtime) rb = inr (json, hash) ∧
     runbook_typed rb ∧ get_worker name rb = Some def ∧
     is_Some (get_queue (worker_source_queue def) rb) ∧
     is_Some (get_job_def (worker_handler_job def) rb) ∧
     ∀ (AD : Adapters Value W) env s (r : Rt Value W),
       ∀ rb', runbook_from_json json = inr rb' → read_back rb rb' →
       (∀ stored, runbooks s !! hash = Some stored → runbook_data stored = json) →
       (∀ cached, rt_cache r !! hash = Some cached → cached = rb ∨ cached = rb') →
       rt_state r = apply_event env (RunbookLoaded hash 1 json) s →
       ∃ known def', (cached_runbook hash r).1 = inr known ∧ get_worker name known = Some def' ∧
         worker_source_queue def' = worker_source_queue def ∧
         worker_handler_job def' = worker_handler_job def ∧
         worker_def_concurrency def' = worker_def_concurrency def ∧
         is_Some (get_queue (worker_source_queue def) known) ∧
         get_job_def (worker_handler_job def) known = get_job_def (worker_handler_job def) rb).
Proof.
  intros H. unfold handle_worker_start, or_return in H.
  apply bind_answers in H as (x & l1 & Hload & H).
  apply loaded_from in Hload as [Hwal Hx]; [| intros ???; apply suggest_reads].
  destruct x as [err|[rb dir]].
  { injection H as <- <-. destruct Hx as (d & e & hint & ? & ->). left. eauto 10. }
  right. destruct (loaded_worker _ _ _ _ Hx) as (def & Ht & Hd & [q Hq] & [j Hj]).
  rewrite Hd in H. simpl in H. rewrite Hq in H. simpl in H. rewrite Hj in H. simpl in H.
  apply bind_answers in H as (running & l2 & [= <- <-] & H).
  destruct (worker_running _ _).
  - apply bind_answers in H as ([] & l3 & ->%emit_ok & [= <- <-]). simpl. split; [done |]. left.
    by rewrite Hwal.
  - apply bind_answers in H as (hash & l3 & Hh & H).
    unfold hash_and_emit_runbook in Hh. destruct (hash_runbook rb) as [e|[json h]] eqn:Ehash; [done |].
    apply bind_answers in Hh as ([] & l4 & ->%emit_ok & [= <- <-]).
    apply bind_answers in H as ([] & l5 & ->%emit_ok & [= <- <-]). simpl. split; [done |]. right.
    exists rb, dir, json, h, def. rewrite Hwal. rewrite Hq, Hj.
    do 6 (split; [done |]). intros AD env s r rb' Hj' Hback Hs Hc Hr.
    destruct (cached_after_loaded (RIO:=searching_runtime) env h json rb rb' s r Hj' Hs Hc Hr)
      as (known & Hk & [->|Hknown]); [exists rb, def | exists known, (unnamed_worker def)].
    + by rewrite Hq.
    + subst known. destruct Hback as (Hjobs & Hqueues & Hworkers & _). split; [done |].
      unfold get_worker, get_queue, get_job_def in *. rewrite Hworkers, Hqueues, Hjobs, !lookup_fmap, Hd, Hq.
      by split_and!.
Qed.
End Started.

(** ** A disk with one runbook *)

Definition runbook_disk : Files unit := {|
  fs_read_dir := λ d _, if String.eqb d "/p/.oj/runbooks" then Some ["/p/.oj/runbooks/b.toml"] else None;
  fs_read := λ _ _, Some "";
  fs_exists := λ _ _, true;
  fs_is_dir := λ d _, String.eqb d "/p/.oj/runbooks";
  fs_is_file := λ _ _, true;
  fs_age := λ _ _, None;
  fs_create_dir_all := λ _ w, (true, w);
  fs_write := λ _ _ w, (true, w);
  fs_rename := λ _ _ w, (true, w);
  fs_remove_file := λ _ w, w;
  fs_remove_dir_all := λ _ w, w
|}.

(** The JSON of a runbook is the runbook; reading it back loses names. *)
Definition own_json : RuntimeIO Runbook unit := {|
  job_log := λ _ _ _ w, w;
  worker_log := λ _ _ w, w;
  breadcrumb_write := λ _ w, w;
  breadcrumb_delete := λ _ w, w;
  load_merged_env := λ _ _, ∅;
  Runtime.find_runbook_by_worker := λ _ _ _, inr None;
  runbook_to_json := inr;
  json_to_text := λ _, inr "{}";
  sha256_hex := λ s, s;
  runbook_from_json := λ rb, inr (mkRunbook (rb_imports rb) (rb_consts rb) (rb_commands rb) (rb_jobs rb)
    (rb_agents rb) (unnamed_queue <$> rb_queues rb) (unnamed_worker <$> rb_workers rb)
    (unnamed_cron <$> rb_crons rb));
  runtime_env_var := λ _, None;
  state_dir := "/state"
|}.

Definition own_codec : Codec (Event Runbook) := {|
  encode _ e := Some (event_name e);
  decode _ := None
|}.

Definition disk_listen : Listen Runbook unit :=
  mkListen MaterializedState_default (λ _ s, s) [] (mkMetricsHealth 0 0 None []) (mkWal "" 0 0 [] 0 0)
    tt 0 false (λ _, "fresh") (λ _, env_at 100000000).

#[local] Existing Instances runbook_disk own_json own_codec quiet_listen plain_order no_patterns
  no_captures sample_format no_directives no_libraries.

Lemma started_worker_resolves_witness :
  let result := handle_worker_start (RIO:=searching_runtime 3) (LIO:=searching_listener 3)
                  "/p" "" "fixer" disk_listen in
  result.1 = inr (Resp_WorkerStarted "fixer") ∧
  ∃ rb dir json hash def,
    ls_wal result.2 = send_all [RunbookLoaded hash 1 json; worker_started_event "fixer" dir hash def ""]
                        (ls_wal disk_listen) ∧
    get_worker "fixer" rb = Some def ∧
    ∀ (AD : Adapters Runbook unit) env (r : Rt Runbook unit),
      rt_cache r = ∅ → rt_state r = apply_event env (RunbookLoaded hash 1 json) MaterializedState_default →
      ∃ known, (cached_runbook (RuntimeIO0:=searching_runtime 3) hash r).1 = inr known ∧
        is_Some (get_worker "fixer" known).
Proof.
  intros result.
  pose proof (started_worker_resolves 3 "/p" "" "fixer" disk_listen
                (Resp_WorkerStarted "fixer") result.2) as H.
  assert (result = (inr (Resp_WorkerStarted "fixer"), result.2)) as E by (vm_compute; reflexivity).
  split; [by rewrite E |].
  destruct (H E) as [(d & e & hint & _ & ? & _)|[_ [Hw|(rb & dir & json & hash & def & Hw & Hhash & _ & Hd & _ & _ & Hres)]]].
  - discriminate.
  - exfalso. vm_compute in Hw. discriminate.
  - exists rb, dir, json, hash, def. split; [exact Hw | split; [exact Hd |]].
    intros AD env r Hcache Hr. assert (json = rb) as -> by (cbn in Hhash; congruence).
    destruct (Hres AD env MaterializedState_default r _ eq_refl) as (known & def' & Hk & Hd' & _).
    + by split_and!.
    + intros stored Hst. discriminate Hst.
    + intros cached Hc. rewrite Hcache in Hc. discriminate Hc.
    + exact Hr.
    + exists known. split; [exact Hk | by exists def'].
Defined.

Local Close Scope string_scope.
