(* ===== verification/ShellExecSpec.v ===== *)
(** What the execution of a script promises: it comes to an end, whatever the
    script holds; it changes nothing of the context but variables; and a value
    that is put between double quotes reaches its process unchanged.

    The operations are families: with every amount of fuel they run out of it or
    have one result, which they have from some amount on ([converges]). *)

From S2P Require Import Prelude Ids Bytes Slug Runtime Monitor RunbookFind ShellAst ShellLexer.
From S2P Require Import ShellParser ShellLexerSpec ShellParserSpec RunbookImport Suggest ShellExpand.
From S2P Require Import ShellExec.

Local Open Scope string_scope.

(** ** Operations that converge *)

(** What no operation changes: all of the context but the values of variables
    and the last exit code; and no variable is unset. *)
Record keeps (c c' : ExecContext) : Prop := {
  keeps_cwd : cx_cwd c' = cx_cwd c;
  keeps_env : cx_env c' = cx_env c;
  keeps_limit : cx_snippet_limit c' = cx_snippet_limit c;
  keeps_pipefail : cx_pipefail c' = cx_pipefail c;
  keeps_ifs : cx_ifs c' = cx_ifs c;
  keeps_variables : dom (cx_variables c) ⊆ dom (cx_variables c')
}.

#[export] Instance keeps_preorder : PreOrder keeps.
Proof.
  split; [by intros c; constructor |]. intros c1 c2 c3 [] []. constructor; try congruence. set_solver.
Qed.

Lemma keeps_insert name v c : keeps c (cx_upd_variables <[name := v]> c).
Proof. constructor; try done. simpl. rewrite dom_insert_L. set_solver. Qed.

Lemma keeps_inserts vars c :
  keeps c (cx_upd_variables (λ m, foldl (λ m (kv : string * string), <[kv.1 := kv.2]> m) m vars) c).
Proof.
  constructor; try done. simpl. generalize (cx_variables c). induction vars as [|[n v] vars IH]; [done |].
  intros m. simpl. etrans; [| apply IH]. rewrite dom_insert_L. set_solver.
Qed.

Section Converges.
Context {W : Type}.
Implicit Types (sh : Shell W).

(** A value with [Q], or an error; a command that failed has failed. *)
Definition ends {A} (Q : A → Prop) sh (r : Res ExecError A * Shell W) : Prop :=
  match r.1 with
  | Ok a => Q a
  | Err (Exec_CommandFailed _ code _) => code ≠ 0%Z
  | Err _ => True
  | NoFuel => False
  end ∧ keeps (sh_ctx sh) (sh_ctx r.2).

Definition converges {A} (Q : A → Prop) (m : nat → SX W A) : Prop :=
  ∀ sh, ∃ r, ends Q sh r ∧ (∀ n, (m n sh).1 = NoFuel ∨ m n sh = r) ∧
    ∃ n, ∀ n', (n ≤ n')%nat → m n' sh = r.

Lemma conv_const {A} (Q : A → Prop) (m : SX W A) : (∀ sh, ends Q sh (m sh)) → converges Q (λ _, m).
Proof.
  intros H sh. exists (m sh). split; [apply H |]. split; [intros _; by right |]. by exists 0.
Qed.

Lemma conv_mono {A} (Q Q' : A → Prop) (m : nat → SX W A) :
  converges Q m → (∀ a, Q a → Q' a) → converges Q' m.
Proof.
  intros Hm HQ sh. destruct (Hm sh) as (r & [He Hk] & H1 & H2). exists r. split; [| done].
  split; [| done]. destruct (r.1); auto.
Qed.

Lemma conv_bind {A B} (Q : A → Prop) (Q' : B → Prop) (m : nat → SX W A) (k : nat → A → SX W B) :
  converges Q m → (∀ a, Q a → converges Q' (λ n, k n a)) → converges Q' (λ n, m n ≫= k n).
Proof.
  intros Hm Hk sh. destruct (Hm sh) as ([[a|e| ] sh1] & [He Hkeep] & Hor & n1 & Hn1); simpl in *; [| |done].
  - destruct (Hk a He sh1) as (r & [He' Hkeep'] & Hor' & n2 & Hn2). exists r.
    split; [split; [done | by etrans] |]. unfold mbind, sx_bind. split.
    + intros n. destruct (Hor n) as [Hno| ->]; [| apply Hor'].
      left. destruct (m n sh) as [[]]; done.
    + exists (n1 `max` n2)%nat. intros n' Hn'. rewrite Hn1 by lia. apply Hn2. lia.
  - exists (Err e, sh1). split; [done |]. unfold mbind, sx_bind. split.
    + intros n. destruct (Hor n) as [Hno| ->]; [| by right]. left. by destruct (m n sh) as [[]].
    + exists n1. intros n' Hn'. by rewrite Hn1.
Qed.

(** More fuel for a smaller family. *)
Lemma conv_succ {A} (Q : A → Prop) (m : nat → SX W A) :
  converges Q m →
  converges Q (λ n, match n with O => lift NoFuel | S n => m n end).
Proof.
  intros Hm sh. destruct (Hm sh) as (r & He & Hor & n & Hn). exists r. split; [done |]. split.
  - intros [|n']; [by left | apply Hor].
  - exists (S n). intros [|n'] Hn'; [lia |]. apply Hn. lia.
Qed.

(** An operation with something done before and after it. *)
Lemma conv_around {A B} (Q : A → Prop) (Q' : B → Prop) (m : nat → SX W A) (m' : nat → SX W B)
    (before : Shell W → Shell W) (after : Shell W → Res ExecError A * Shell W → Res ExecError B * Shell W) :
  (∀ n sh, m' n sh = after sh (m n (before sh))) →
  (∀ sh r, r.1 = NoFuel → (after sh r).1 = NoFuel) →
  (∀ sh r, ends Q (before sh) r → ends Q' sh (after sh r)) →
  converges Q m → converges Q' m'.
Proof.
  intros Heq Hno He Hm sh. destruct (Hm (before sh)) as (r & Hr & Hor & n & Hn).
  exists (after sh r). split; [by apply He |]. split.
  - intros n'. rewrite Heq. destruct (Hor n') as [H| ->]; [left; auto | by right].
  - exists n. intros n' Hn'. by rewrite Heq, Hn.
Qed.

(** ** The primitive operations *)

Lemma conv_ret {A} (Q : A → Prop) (a : A) : Q a → converges Q (λ _, mret a).
Proof. intros H. apply conv_const. by split. Qed.

Definition real_failure (e : ExecError) : Prop :=
  match e with Exec_CommandFailed _ code _ => code ≠ 0%Z | _ => True end.

Lemma conv_fail {A} (Q : A → Prop) e : real_failure e → converges Q (λ _, fail e).
Proof. intros H. apply conv_const. by split. Qed.

Lemma conv_lift {A} (Q : A → Prop) (r : Res ExecError A) :
  post Q real_failure r → converges Q (λ _, lift r).
Proof. intros H. apply conv_const. split; [| done]. destruct r as [a|[]|]; done. Qed.

Lemma conv_context : converges (λ _, True) (λ _, context).
Proof. apply conv_const. by split. Qed.

Lemma conv_upd (f : ExecContext → ExecContext) :
  (∀ c, keeps c (f c)) → converges (λ _, True) (λ _, upd_context f).
Proof. intros H. apply conv_const. intros sh. split; [done | apply H]. Qed.

Lemma conv_system {A} (f : W → A * W) : converges (λ _, True) (λ _, system f).
Proof. apply conv_const. intros sh. unfold system. destruct (f _). by split. Qed.

Lemma conv_try {A} (err : string → ExecError) (f : W → (string + A) * W) :
  (∀ s, real_failure (err s)) → converges (λ _, True) (λ _, try_system err f).
Proof.
  intros H. apply conv_const. intros sh. unfold try_system. destruct (f _) as [[e|a] w]; [| by split].
  split; [| done]. specialize (H e). simpl. by destruct (err e).
Qed.

Lemma conv_try_unit (err : string → ExecError) (f : W → option string * W) :
  (∀ s, real_failure (err s)) → converges (λ _, True) (λ _, try_system_unit err f).
Proof. apply conv_try. Qed.

Lemma conv_each {A B} (Q : B → Prop) (f : nat → A → SX W B) xs :
  (∀ x, x ∈ xs → converges Q (λ n, f n x)) → converges (Forall Q) (λ n, collect_each (f n) xs).
Proof.
  induction xs as [|x xs IH]; intros H; simpl; [by apply conv_ret |].
  eapply conv_bind; [apply H; set_solver |]. intros y Hy.
  eapply conv_bind; [apply IH; set_solver |]. intros ys Hys. apply conv_ret. by constructor.
Qed.
End Converges.

Create HintDb conv.
#[export] Hint Resolve conv_ret conv_fail conv_context conv_system conv_upd conv_try conv_try_unit : conv.
#[export] Hint Resolve keeps_insert keeps_inserts : conv.
#[export] Hint Extern 1 (real_failure _) => exact I : conv.
#[export] Hint Extern 1 => exact I : conv.

(** One step through the code; what is left is about the operations in it. *)
Ltac conv_step :=
  cbv beta zeta;
  lazymatch goal with
  | |- converges _ (λ n, match ?x with _ => _ end) => destruct x eqn:?
  | |- converges _ (λ n, @mbind _ _ _ _ _ _) => apply (conv_bind (λ _, True)); [| intros ? ?]
  | |- converges _ _ => solve [eauto with conv nocore]
  end.
Ltac conv := repeat conv_step.


(** ** Texts *)

Lemma scan_braced_length depth b s b' rest :
  scan_braced depth b s = (b', Some rest) →
  (String.length (br_modifier b') + String.length rest < String.length (br_modifier b) + String.length s)%nat.
Proof.
  assert (∀ a b, String.length (br_modifier (push_br_modifier a b)) = S (String.length (br_modifier b)))
    as Hpush by (intros; simpl; rewrite string_length_app; simpl; lia).
  assert (∀ a b, String.length (br_modifier (push_if_modifier a b)) ≤ S (String.length (br_modifier b)))%nat
    as Hif by (intros a0 b0; unfold push_if_modifier; destruct (br_in_modifier b0); [rewrite Hpush |]; lia).
  revert depth b. induction s as [|a s IH]; intros depth b; [done |].
  cbn -[push_br_modifier push_if_modifier]. intros H.
  repeat match type of H with
  | scan_braced _ _ _ = _ => apply IH in H
  | (if ?c then _ else _) = _ => destruct c
  | match ?d with _ => _ end = _ => destruct d
  end; simplify_eq; rewrite ?Hpush in *; try lia.
  all: pose proof (Hif a b); simpl in *; lia.
Qed.

Lemma scan_parens_length depth content s content' rest :
  scan_parens depth content s = (content', Some rest) →
  (String.length content' + String.length rest < String.length content + String.length s)%nat.
Proof.
  revert depth content. induction s as [|a s IH]; intros depth content; [done |]. simpl. intros H.
  repeat match type of H with
  | scan_parens _ _ _ = _ => apply IH in H
  | (if ?c then _ else _) = _ => destruct c
  | match ?d with _ => _ end = _ => destruct d
  end; simplify_eq; rewrite ?string_length_app in *; simpl in *; lia.
Qed.

Lemma scan_backtick_length content s content' rest :
  scan_backtick content s = (content', Some rest) →
  (String.length content' + String.length rest < String.length content + String.length s)%nat.
Proof.
  remember (String.length s) as n eqn:Hn. revert s content Hn.
  induction n as [n IH] using lt_wf_ind. intros [|a s] content ->; [done |]. simpl. intros H.
  repeat match type of H with
  | scan_backtick _ _ = _ => eapply IH in H; [| | reflexivity]; [| simpl; lia]
  | (if ?c then _ else _) = _ => destruct c
  | match ?d with _ => _ end = _ => destruct d
  end; simplify_eq; rewrite ?string_length_app in *; simpl in *; lia.
Qed.

Lemma scan_name_length s : (String.length (scan_name s).2 ≤ String.length s)%nat.
Proof.
  induction s as [|a s IH]; simpl; [done |]. destruct (is_valid_variable_char a); [| done].
  destruct (scan_name s). simpl in *. lia.
Qed.

Lemma parse_modifier_length m check op val :
  parse_modifier m = Some (check, op, val) → (String.length val ≤ String.length m)%nat.
Proof.
  unfold parse_modifier. intros H. destruct m as [|a m]; [by simplify_eq |].
  repeat match type of H with match ?x with _ => _ end = _ => destruct x end;
    simplify_eq; simpl; lia.
Qed.

Section Expansion.
Context {W : Type} `{OS : !ShellOS W}.
(** The substitutions that converge: of the texts below [k]. *)
Context (sub : nat → SubstitutionBody → SX W string) (k : nat).
Abbreviation any := (λ _, True) (only parsing).
Hypothesis sub_text : ∀ t, (String.length t < k)%nat → converges any (λ n, sub n (Sub_Unparsed t)).

Lemma conv_apply_modifier expand name modifier value span :
  (∀ t, (String.length t ≤ String.length modifier)%nat → converges any (λ n, expand n t)) →
  converges (W:=W) any (λ n, apply_modifier (expand n) name modifier value span).
Proof.
  intros He. unfold apply_modifier. destruct (parse_modifier modifier) as [[[check op] val]|] eqn:E; [| conv].
  apply parse_modifier_length in E. specialize (He val E).
  conv.
Qed.

Lemma conv_lookup name : converges (W:=W) any (λ _, lookup_variable name).
Proof. unfold lookup_variable. conv. Qed.

Lemma conv_substituted content :
  (String.length content < k)%nat → converges any (λ n, substituted (sub n) content).
Proof. intros H. unfold substituted. eapply conv_bind; [by apply sub_text | intros ? _; conv]. Qed.

(** A piece of a text, and a text that is shorter than [s]. *)
Abbreviation piece_of s := (λ r : string * string, String.length r.2 ≤ String.length s)%nat.

Lemma conv_piece (expand : nat → string → SX W string) pos a s :
  (String.length s < k)%nat →
  (∀ t, (String.length t ≤ String.length s)%nat → converges any (λ n, expand n t)) →
  converges (piece_of s) (λ n, expand_piece (sub n) (expand n) pos a s).
Proof.
  intros Hk He.
  assert (∀ r, (String.length r.2 ≤ String.length s)%nat →
            converges (W:=W) (piece_of s) (λ _, mret r)) as Hret by (intros; by apply conv_ret).
  assert (∀ s', s = String "{" s' →
            converges (piece_of s) (λ n, expand_braced_var (expand n) pos s')) as Hbrace.
  { intros s' ->. unfold expand_braced_var.
    destruct (scan_braced 1 _ s') as [b [rest|]] eqn:E; [| apply conv_ret; simpl; lia].
    apply scan_braced_length in E. simpl in *.
    eapply conv_bind; [apply conv_lookup |]. intros value _.
    eapply (conv_bind any); [| intros ? _; apply conv_ret; simpl; lia].
    destruct (br_in_modifier b); [| conv]. apply conv_apply_modifier. intros t Ht. apply He. lia. }
  assert (∀ s', s = String "(" s' → converges (piece_of s) (λ n, expand_command_subst (sub n) s')) as Hparen.
  { intros s' ->. unfold expand_command_subst.
    destruct (scan_parens 1 "" s') as [content [rest|]] eqn:E; [| apply conv_ret; simpl; lia].
    apply scan_parens_length in E. simpl in *.
    eapply conv_bind; [apply conv_substituted; lia |]. intros ? _. apply conv_ret. simpl. lia. }
  unfold expand_piece. destruct (Ascii.eqb a "$").
  { destruct s as [|c s']; [by apply Hret |].
    assert (converges (W:=W) (piece_of (String c s'))
      (λ _, if is_valid_variable_start c then expand_simple_var pos (String c s')
            else mret ("$", String c s'))) as Hvar.
    { destruct (is_valid_variable_start c); [| by apply Hret]. unfold expand_simple_var.
      pose proof (scan_name_length (String c s')). destruct (scan_name _) as [name rest].
      eapply conv_bind; [apply conv_lookup |]. intros [v|] _; [by apply conv_ret | conv]. }
    destruct c as [[] [] [] [] [] [] [] []]; first [exact Hvar | by apply Hparen | by apply Hbrace]. }
  destruct (Ascii.eqb a "`").
  { unfold expand_backtick_subst.
    destruct (scan_backtick "" s) as [content [rest|]] eqn:E; [| apply conv_ret; simpl; lia].
    apply scan_backtick_length in E. simpl in *.
    eapply conv_bind; [apply conv_substituted; lia |]. intros ? _. apply conv_ret. simpl. lia. }
  destruct (Ascii.eqb a "\"); [| by apply Hret].
  destruct s as [|c s']; [by apply Hret |]. simpl in *.
  destruct (_ || _); [apply Hret; simpl; lia |]. destruct (Ascii.eqb c newline); apply Hret; simpl; lia.
Qed.

Lemma conv_expand_text fuel body result s :
  (String.length s ≤ fuel)%nat → (String.length s ≤ k)%nat →
  converges any (λ n, expand_text (sub n) fuel body result s).
Proof.
  revert body result s. induction fuel as [|fuel IH]; intros body result [|a s] Hf Hk; simpl in *;
    try (conv; fail); [lia |].
  eapply conv_bind; [apply (conv_piece (λ n text, expand_text (sub n) fuel text "" text)); [lia |] |].
  - intros t Ht. apply IH; lia.
  - intros piece Hp. simpl in Hp. apply IH; lia.
Qed.

(** A text is looked into as deep as it is long. *)
Lemma conv_heredoc_body body :
  (String.length body ≤ k)%nat → converges any (λ n, expand_heredoc_body (sub n) body).
Proof. intros H. by apply conv_expand_text. Qed.

(** ** Words *)

Definition good_part (p : WordPart) : Prop :=
  match p with
  | Part_Literal _ _ => True
  | Part_Variable _ modifier => match modifier with Some m => (String.length m ≤ k)%nat | None => True end
  | Part_Substitution body _ => converges any (λ n, sub n body)
  end.
Definition good_word (w : Word) : Prop := Forall good_part (wd_parts w).

Lemma conv_variable name modifier span :
  good_part (Part_Variable name modifier) →
  converges any (λ n, expand_variable (sub n) name modifier span).
Proof.
  intros H. unfold expand_variable. eapply conv_bind; [apply conv_context |]. intros c _. cbv zeta.
  destruct modifier as [m|]; [| conv]. simpl in H.
  apply (conv_apply_modifier (λ n, expand_heredoc_body (sub n))).
  intros t Ht. apply conv_heredoc_body. lia.
Qed.

Lemma conv_substitution body b :
  good_part (Part_Substitution body b) → converges any (λ n, expand_substitution (sub n) body).
Proof. intros H. unfold expand_substitution. eapply conv_bind; [exact H | intros ? _; conv]. Qed.
#[local] Hint Resolve conv_variable conv_substitution conv_heredoc_body : conv.

Lemma conv_parts span is_first parts result :
  Forall good_part parts → converges any (λ n, expand_parts (sub n) span is_first parts result).
Proof.
  intros H. revert is_first result. induction H as [|p parts Hp H IH]; intros is_first result; simpl; [conv |].
  eapply (conv_bind any); [| intros ? _; apply IH]. destruct p as [v [] | |]; conv.
Qed.

Lemma conv_word w : good_word w → converges any (λ n, expand_word (sub n) w).
Proof.
  intros H. unfold expand_word, expand_word_with_eligibility.
  eapply conv_bind; [by apply conv_parts | intros ? _; conv].
Qed.

Lemma conv_fields span is_first parts fields :
  Forall good_part parts → converges any (λ n, expand_fields (sub n) span is_first parts fields).
Proof.
  intros H. revert is_first fields. induction H as [|p parts Hp H IH]; intros is_first fields; simpl; [conv |].
  eapply (conv_bind any); [| intros ? _; apply IH]. destruct p as [v q| |]; conv.
Qed.

Lemma conv_glob_field config span field : converges any (λ _, glob_field config span field).
Proof.
  unfold glob_field. destruct (has_glob_pattern field); [| conv]. apply conv_const. intros sh.
  split; [| done]. unfold expand_glob_pattern. simpl. destruct (os_glob _ _); [done |].
  by destruct (sort_by _ _).
Qed.

Lemma conv_split_glob w config :
  good_word w → converges any (λ n, expand_word_split_glob (sub n) w config).
Proof.
  intros H. unfold expand_word_split_glob. destruct (is_fully_quoted w).
  - eapply conv_bind; [by apply conv_word | intros ? _; conv].
  - eapply conv_bind; [by apply conv_fields | intros parts _].
    eapply conv_bind; [apply conv_context | intros c _].
    eapply conv_bind; [| intros ? _; conv].
    apply conv_each with (f := λ _, glob_field config (wd_span w)). intros ? _. apply conv_glob_field.
Qed.

(** ** Redirections *)

Definition good_redirection (r : Redirection) : Prop :=
  match r with
  | Redir_Out _ word _ | Redir_In _ word | Redir_HereString _ word | Redir_Both _ word => good_word word
  | Redir_HereDoc _ _ body _ _ => (String.length body ≤ k)%nat
  | Redir_Duplicate _ _ _ => True
  end.

Lemma length_strip_suffix p s r : strip_suffix p s = Some r → (String.length r + String.length p = String.length s)%nat.
Proof.
  unfold strip_suffix. destruct (strip_prefix (rev_str p) (rev_str s)) as [t|] eqn:E; [| done].
  intros [= <-]. apply strip_prefix_Some in E. apply (f_equal String.length) in E.
  rewrite string_length_app, !length_rev_str in E. rewrite length_rev_str. lia.
Qed.

Lemma length_strip_tab s : (String.length (strip_tab s) ≤ String.length s)%nat.
Proof.
  unfold strip_tab. destruct (strip_prefix _ s) as [r|] eqn:E; simpl; [| lia].
  apply strip_prefix_Some in E as ->. rewrite string_length_app. lia.
Qed.

Lemma length_without_line_end s : (String.length (without_line_end s) ≤ String.length s)%nat.
Proof.
  unfold without_line_end. destruct (strip_suffix newline_str s) as [r|] eqn:E; [| lia].
  apply length_strip_suffix in E. destruct (strip_suffix cr_str r) as [r'|] eqn:E'; simpl; [| lia].
  apply length_strip_suffix in E'. lia.
Qed.

Lemma length_line_end l : (String.length (without_line_end (l +:+ newline_str)) ≤ String.length l)%nat.
Proof.
  unfold without_line_end. destruct (strip_suffix newline_str _) as [r|] eqn:E.
  - apply length_strip_suffix in E. rewrite string_length_app in E.
    destruct (strip_suffix cr_str r) as [r'|] eqn:E'; simpl; [| lia].
    apply length_strip_suffix in E'. lia.
  - exfalso. unfold strip_suffix in E. rewrite rev_str_app in E. by rewrite strip_prefix_app in E.
Qed.

(** Stripping tabs makes a text no longer. *)
Lemma length_strip_tabs body : (String.length (strip_tabs_of body) ≤ String.length body)%nat.
Proof.
  unfold strip_tabs_of, str_lines. remember (String.length body) as n eqn:Hn. revert body Hn.
  induction n as [n IH] using lt_wf_ind. intros body ->.
  destruct (split_once newline body) as [[l rest]|] eqn:E.
  - apply split_once_Some in E as [-> Hl]. rewrite raw_lines_cons by done.
    pose proof (length_line_end l). pose proof (length_strip_tab (without_line_end (l +:+ newline_str))).
    specialize (IH (String.length rest)). rewrite string_length_app. simpl.
    destruct (raw_lines rest) as [|r2 lines] eqn:Er; [simpl; lia |].
    assert (String.length rest < String.length (l +:+ String newline rest))%nat as Hlt
      by (rewrite string_length_app; simpl; lia).
    specialize (IH Hlt rest eq_refl). rewrite Er in IH.
    cbn [list_fmap] in IH |- *. rewrite string_length_app. simpl in *. lia.
  - apply split_once_None in E. rewrite raw_lines_last by done. destruct body as [|a body]; [done |].
    pose proof (length_without_line_end (String a body)).
    pose proof (length_strip_tab (without_line_end (String a body))). simpl in *. lia.
Qed.

Lemma conv_redirect_stream r st :
  good_redirection r → converges any (λ n, redirect_stream (sub n) r st).
Proof.
  intros H. destruct r as [fd w append|fd w|fd d body strip quoted|fd w|append w|source target output];
    simpl in H |- *; try (apply (conv_bind any); [by apply conv_word | intros path _; conv]).
  - pose proof (length_strip_tabs body). cbv zeta.
    apply (conv_bind any); [| intros ? _; conv]. destruct quoted; [conv |].
    apply conv_heredoc_body. destruct strip; lia.
  - destruct target; conv.
Qed.

Lemma conv_redirect_streams redirs st :
  Forall good_redirection redirs → converges any (λ n, redirect_streams (sub n) redirs st).
Proof.
  intros H. revert st. induction H as [|r redirs Hr H IH]; intros st; simpl; [conv |].
  apply (conv_bind any); [by apply conv_redirect_stream | intros ? _; apply IH].
Qed.

Lemma conv_open_read path cwd span : converges any (λ _, open_read path cwd span).
Proof. unfold open_read. conv. Qed.
Lemma conv_open_write path append cwd span : converges any (λ _, open_write path append cwd span).
Proof. unfold open_write. conv. Qed.
#[local] Hint Resolve conv_open_read conv_open_write : conv.

Lemma conv_apply_stdin cfg given cwd span : converges any (λ _, apply_stdin cfg given cwd span).
Proof. unfold apply_stdin. conv. Qed.
Lemma conv_apply_output cfg given cwd span : converges any (λ _, apply_output cfg given cwd span).
Proof. unfold apply_output. conv. Qed.
#[local] Hint Resolve conv_apply_stdin conv_apply_output : conv.

Lemma conv_apply_outputs out err cwd given_out given_err :
  converges any (λ _, apply_outputs out err cwd given_out given_err).
Proof. unfold apply_outputs. conv. Qed.
#[local] Hint Resolve conv_apply_outputs : conv.

Lemma conv_apply_redirections process redirs :
  Forall good_redirection redirs → converges any (λ n, apply_redirections (sub n) process redirs).
Proof.
  intros H. unfold apply_redirections. apply (conv_bind any); [by apply conv_redirect_streams |].
  intros st _. conv.
Qed.

Lemma conv_write_captured path data file span : converges any (λ _, write_captured path data file span).
Proof. unfold write_captured. conv. Qed.
#[local] Hint Resolve conv_write_captured : conv.

Lemma conv_captured redirs stdout stderr redirected :
  Forall good_redirection redirs →
  converges any (λ n, apply_captured_redirections (sub n) redirs stdout stderr redirected).
Proof.
  intros H. revert redirected. induction H as [|r redirs Hr H IH]; intros redirected; simpl; [conv |].
  apply (conv_bind any); [| intros ? _; apply IH].
  destruct r as [fd w append|fd w|fd d body strip quoted|fd w|append w|source target output]; simpl in Hr;
    try (conv; fail); (apply (conv_bind any); [by apply conv_word | intros path _; conv]).
Qed.

(** ** Commands *)

Definition good_simple (c : SimpleCommand) : Prop :=
  good_word (sc_name c) ∧ Forall good_word (sc_args c) ∧
  Forall (λ ea, good_word (ea_value ea)) (sc_env c) ∧ Forall good_redirection (sc_redirections c).

Lemma conv_expand_command c :
  good_simple c →
  converges (λ ec, Forall good_redirection (xc_redirections ec)) (λ n, expand_command (sub n) c).
Proof.
  intros (Hn & Ha & He & Hr). unfold expand_command.
  eapply conv_bind; [by apply conv_word | intros name _].
  eapply conv_bind.
  { apply (conv_each any). intros w Hw. apply conv_split_glob. by eapply Forall_forall in Ha. }
  intros args _. eapply conv_bind.
  { apply (conv_each any). intros ea Hea. unfold expand_assignment.
    eapply Forall_forall in He; [| exact Hea]. simpl in He.
    eapply conv_bind; [by apply conv_word | intros ? _; conv]. }
  intros env _. by apply conv_ret.
Qed.

Lemma conv_start_child stdin ec :
  Forall good_redirection (xc_redirections ec) →
  converges any (λ n, start_child (sub n) stdin ec).
Proof.
  intros H. unfold start_child. eapply conv_bind; [apply conv_context | intros c _].
  eapply conv_bind; [by apply conv_apply_redirections | intros [process data] _]. conv.
Qed.

Lemma conv_wait ec start child : converges any (λ _, wait_child ec start child).
Proof. unfold wait_child. conv. Qed.
#[local] Hint Resolve conv_start_child conv_wait : conv.

Lemma conv_simple c : good_simple c → converges any (λ n, execute_simple_command (sub n) c).
Proof.
  intros H. unfold execute_simple_command. eapply conv_bind; [apply conv_system | intros start _].
  eapply conv_bind; [by apply conv_expand_command | intros ec Hec]. simpl in Hec. conv.
Qed.

Lemma conv_spawn_all is_first ecs :
  Forall (λ ec, Forall good_redirection (xc_redirections ec)) ecs →
  converges any (λ n, spawn_all (sub n) is_first ecs).
Proof.
  intros H. revert is_first. induction H as [|ec ecs Hec H IH]; intros is_first; simpl; [conv |].
  eapply conv_bind; [apply conv_system | intros start _].
  eapply conv_bind; [by apply conv_start_child | intros child _].
  eapply conv_bind; [apply IH | intros ? _; conv].
Qed.

Lemma conv_relay children : converges any (λ _, relay_all children).
Proof.
  induction children as [|from [|to rest] IH]; simpl; [conv | conv |].
  apply (conv_bind any); [conv | intros ? _; exact IH].
Qed.

Lemma conv_job j :
  Forall good_simple (sj_commands j) → converges any (λ n, execute_job (sub n) j).
Proof.
  intros H. unfold execute_job. destruct (sj_commands j) as [|c cs]; [conv |].
  eapply conv_bind.
  { apply conv_each. intros x Hx. apply conv_expand_command. by eapply Forall_forall in H. }
  intros expanded Hx. eapply conv_bind; [by apply conv_spawn_all | intros spawned _].
  eapply conv_bind; [apply conv_relay | intros ? _].
  eapply (conv_bind any); [| intros ? _; conv].
  eapply conv_mono; [apply (conv_each any (λ _ s, wait_child s.1.1 s.1.2 s.2)) | done].
  intros. apply conv_wait.
Qed.

Lemma conv_redirect_group redirs ran :
  Forall good_redirection redirs → converges any (λ n, redirect_group (sub n) redirs ran).
Proof.
  intros H. unfold redirect_group. destruct redirs; [conv |].
  eapply conv_bind; [by apply conv_captured | intros ? _; conv].
Qed.

Lemma conv_in_clone {A} (Q : A → Prop) m : converges Q m → converges (W:=W) Q (λ n, in_clone (m n)).
Proof.
  apply (conv_around Q Q m _ (λ sh, sh) (λ sh r, (r.1, mkShell (sh_ctx sh) (sh_world r.2)))).
  - intros n sh. unfold in_clone. by destruct (m n sh).
  - done.
  - intros sh r [H _]. by split.
Qed.

Lemma conv_catch m : converges any m → converges (W:=W) any (λ n, catch_failed (m n)).
Proof.
  apply (conv_around any any m _ (λ sh, sh)
           (λ _ r, match r with
                   | (Ok output, sh) => (Ok (eo_exit_code output, eo_traces output), sh)
                   | (Err (Exec_CommandFailed _ exit_code _), sh) => (Ok (exit_code, []), sh)
                   | (Err e, sh) => (Err e, sh)
                   | (NoFuel, sh) => (NoFuel, sh)
                   end)).
  - intros n sh. unfold catch_failed. by destruct (m n sh) as [[|[]|]].
  - by intros sh [[|[]|] ?].
  - intros sh [[o|[]|] sh'] [H Hk]; by split.
Qed.

Lemma conv_with_limit {A} (Q : A → Prop) limit m :
  converges Q m → converges (W:=W) Q (λ n, with_limit limit (m n)).
Proof.
  apply (conv_around Q Q m _
           (λ sh, mkShell (cx_set_limit limit (sh_ctx sh)) (sh_world sh))
           (λ sh r, (r.1, mkShell (cx_set_limit (cx_snippet_limit (sh_ctx sh)) (sh_ctx r.2)) (sh_world r.2)))).
  - intros n sh. unfold with_limit. by destruct (m n _).
  - done.
  - intros sh r [H []]. split; [exact H | by constructor].
Qed.
End Expansion.


(** ** Lists inside lists *)

Section Size.
Fixpoint list_size (l : CommandList) : nat :=
  match l with mkCommandList commands _ => S (sum_list_with and_or_size commands) end
with and_or_size (l : AndOrList) : nat :=
  match l with mkAndOrList first rest _ => item_size first + sum_list_with (λ '(_, i), item_size i) rest end
with item_size (i : CommandItem) : nat :=
  match i with mkCommandItem c _ _ => command_size c end
with command_size (c : ShellCommand) : nat :=
  match c with
  | Cmd_Simple c => simple_size c
  | Cmd_Job (mkShellJob commands _) => sum_list_with simple_size commands
  | Cmd_Subshell (mkSubshell body redirs _) => list_size body + sum_list_with redirection_size redirs
  | Cmd_BraceGroup (mkBraceGroup body redirs _) => list_size body + sum_list_with redirection_size redirs
  end
with simple_size (c : SimpleCommand) : nat :=
  match c with
  | mkSimpleCommand env name args redirs _ =>
      word_size name + sum_list_with word_size args
      + sum_list_with (λ ea, match ea with mkEnvAssignment _ w _ => word_size w end) env
      + sum_list_with redirection_size redirs
  end
with redirection_size (r : Redirection) : nat :=
  match r with
  | Redir_Out _ w _ | Redir_In _ w | Redir_HereString _ w | Redir_Both _ w => word_size w
  | Redir_HereDoc _ _ _ _ _ | Redir_Duplicate _ _ _ => 0
  end
with word_size (w : Word) : nat :=
  match w with mkWord parts _ => sum_list_with part_size parts end
with part_size (p : WordPart) : nat :=
  match p with
  | Part_Substitution (Sub_Parsed body) _ => list_size body
  | _ => 0
  end.
End Size.

Lemma sum_with_in {A} (f : A → nat) x xs : x ∈ xs → (f x ≤ sum_list_with f xs)%nat.
Proof.
  induction xs as [|y xs IH]; intros H; [by apply elem_of_nil in H |]. simpl.
  apply elem_of_cons in H as [-> |H]; [lia |]. specialize (IH H). lia.
Qed.

(** What holds of the smaller parts holds of all elements. *)
Lemma forall_parts {A} (wf : A → bool) (size : A → nat) (good : A → Prop) m xs :
  (∀ x, wf x = true → (size x ≤ m)%nat → good x) →
  forallb wf xs = true → (sum_list_with size xs ≤ m)%nat → Forall good xs.
Proof.
  intros H Hwf Hm. apply Forall_forall. intros x Hx. apply H.
  - rewrite forallb_forall in Hwf. by apply Hwf, list_elem_of_In.
  - pose proof (sum_with_in size x xs Hx). lia.
Qed.

Section Lists.
Context {W : Type} `{OS : !ShellOS W}.
Abbreviation any := (λ _, True) (only parsing).
Abbreviation exec := (execute_command_list (W:=W)).
Abbreviation sub := (λ n, execute_substitution (exec n)).
Abbreviation runs l := (converges (λ o, eo_exit_code o = 0%Z) (λ n, exec n l)).

Lemma conv_ext {A} (Q : A → Prop) (m m' : nat → SX W A) :
  (∀ n sh, m' n sh = m n sh) → converges Q m → converges Q m'.
Proof. intros H. by apply (conv_around Q Q m m' (λ sh, sh) (λ _ r, r)). Qed.

Lemma conv_capture l : runs l → converges any (λ n, in_clone (execute_command_list_capture (exec n) l)).
Proof.
  intros H. apply conv_in_clone. unfold execute_command_list_capture.
  eapply conv_bind; [by apply conv_with_limit | intros ? _; conv].
Qed.

Section Level.
Context (k m : nat).
(** The texts of the level below, and the lists that are smaller. *)
Hypothesis text_runs : ∀ t l, (String.length t < k)%nat → wf_list (String.length t) l = true → runs l.
Hypothesis small_runs : ∀ l, wf_list k l = true → (list_size l ≤ m)%nat → runs l.

Lemma sub_text t : (String.length t < k)%nat → converges any (λ n, sub n (Sub_Unparsed t)).
Proof.
  intros Ht. cbv beta. cbn [execute_substitution].
  apply (conv_bind (λ l, wf_list (String.length t) l = true)).
  - apply conv_lift. pose proof (parse_post t) as H. by destruct (parse t).
  - intros l Hl. apply conv_capture. by eapply text_runs.
Qed.

Abbreviation good_part := (good_part sub k).
Abbreviation good_word := (good_word sub k).
Abbreviation good_redirection := (good_redirection sub k).
Abbreviation good_simple := (good_simple sub k).

Lemma good_parts p : wf_part k p = true → (part_size p ≤ m)%nat → good_part p.
Proof.
  destruct p as [v q|name [md|] | [t|l] b]; simpl; try done.
  - intros H%Nat.ltb_lt _. lia.
  - intros Hwf Hs. apply conv_capture. auto.
Qed.

Lemma good_words w :
  wf_word k w = true ∨ wd_parts w = [] → (word_size w ≤ m)%nat → good_word w.
Proof.
  destruct w as [parts span]. red. simpl. intros [[_ H]%andb_true_iff| ->] Hs; [| by constructor].
  by eapply forall_parts, Hs; [apply good_parts |].
Qed.

Lemma good_redirections r : wf_redirection k r = true → (redirection_size r ≤ m)%nat → good_redirection r.
Proof.
  destruct r; simpl; try (intros; apply good_words; auto; fail); [| done].
  intros H%Nat.ltb_lt _. lia.
Qed.

Lemma good_simples c : wf_simple k c = true → (simple_size c ≤ m)%nat → good_simple c.
Proof.
  destruct c as [env name args redirs span]. simpl. intros H Hs.
  repeat (apply andb_true_iff in H as [H ?]). split; [| split; [| split]]; simpl.
  - apply good_words; [| lia]. apply orb_true_iff in H0 as [?|H0]; [by left | right].
    repeat (apply andb_true_iff in H0 as [H0 _]). by destruct (wd_parts name).
  - eapply forall_parts; [| done |]; [intros; apply good_words; [by left | done] | lia].
  - eapply forall_parts with (size := λ ea, word_size (ea_value ea)) (m := m); [| done |].
    + intros [n v sp] Hwf ?. simpl in *. apply andb_true_iff in Hwf as [_ ?]. apply good_words; [by left | done].
    + etrans; [| apply Hs]. clear. induction env as [|[n v sp] env IH]; simpl in *; lia.
  - eapply forall_parts; [apply good_redirections | done | lia].
Qed.

Lemma conv_item i :
  wf_item k i = true → (item_size i ≤ m)%nat → converges any (λ n, execute_command_item (exec n) i).
Proof.
  destruct i as [c bg span]. simpl. intros Hwf Hs. unfold execute_command_item. simpl.
  destruct bg; [conv |]. destruct c as [c|[cs sp]|[body redirs sp]|[body redirs sp]]; simpl in Hwf, Hs.
  - eapply conv_bind; [apply (conv_simple _ _ sub_text); by apply good_simples | intros [] _; conv].
  - apply andb_true_iff in Hwf as [_ Hwf]. apply (conv_job _ _ sub_text). simpl.
    eapply forall_parts; [apply good_simples | done | lia].
  - apply andb_true_iff in Hwf as [Hb Hr]. unfold execute_subshell.
    eapply (conv_bind any).
    + apply conv_in_clone, conv_catch. eapply conv_mono; [apply small_runs; [done | simpl; lia] | done].
    + intros ran _. apply (conv_redirect_group _ _ sub_text). simpl.
      eapply forall_parts; [apply good_redirections | done | lia].
  - apply andb_true_iff in Hwf as [Hb Hr]. unfold execute_brace_group.
    eapply (conv_bind any).
    + apply conv_catch. eapply conv_mono; [apply small_runs; [done | simpl; lia] | done].
    + intros ran _. apply (conv_redirect_group _ _ sub_text). simpl.
      eapply forall_parts; [apply good_redirections | done | lia].
Qed.

Lemma conv_run_item i :
  wf_item k i = true → (item_size i ≤ m)%nat → converges any (λ n, run_item (exec n) i).
Proof.
  intros Hwf Hs. unfold run_item. eapply conv_bind; [by apply conv_item | intros ran _].
  eapply conv_bind; [apply conv_upd; by constructor | intros ? _; conv].
Qed.

Lemma conv_and_or l :
  wf_and_or k l = true → (and_or_size l ≤ m)%nat → converges any (λ n, execute_and_or_list (exec n) l).
Proof.
  destruct l as [first rest span]. simpl. intros [[Hf Hr]%andb_true_iff _]%andb_true_iff Hs.
  unfold execute_and_or_list. simpl. eapply conv_bind; [apply conv_run_item; [done | lia] | intros ran _].
  assert (sum_list_with (λ '(_, i), item_size i) rest ≤ m)%nat as Hs' by lia. clear Hs Hf. revert ran.
  induction rest as [|[op i] rest IH]; intros ran; simpl in *; [conv |].
  apply andb_true_iff in Hr as [Hi Hr].
  destruct (should_run op ran.1); [| apply IH; [done | lia]].
  eapply conv_bind; [apply conv_run_item; [done | lia] | intros next _]. apply IH; [done | lia].
Qed.

Lemma conv_commands commands traces :
  forallb (wf_and_or k) commands = true → (sum_list_with and_or_size commands ≤ m)%nat →
  converges (λ o, eo_exit_code o = 0%Z) (λ n, run_commands (exec n) commands (0%Z, traces)).
Proof.
  revert traces. induction commands as [|l commands IH]; intros traces Hwf Hs; simpl in *;
    [by apply conv_ret |].
  apply andb_true_iff in Hwf as [Hl Hwf].
  eapply conv_bind; [apply conv_and_or; [done | lia] | intros [code cmd_traces] _].
  destruct (Z.eqb_spec code 0) as [-> |Hne]; [apply IH; [done | lia] |]. by apply conv_fail.
Qed.
End Level.

(** Every list of a script converges, to a success only with exit code 0. *)
Lemma conv_list k l : wf_list k l = true → runs l.
Proof.
  revert l. induction k as [k IHk] using lt_wf_ind.
  assert (∀ m l, wf_list k l = true → (list_size l ≤ m)%nat → runs l) as H; [| eauto].
  induction m as [|m IHm]; intros [commands span]; simpl; [lia |]. intros Hwf Hs.
  eapply conv_ext; [| apply conv_succ, (conv_commands k m)]; [by intros [] | eauto | done | done | exact (le_S_n _ _ Hs)].
Qed.
End Lists.


(** ** Fields of a value *)

(** A list cut at its separators; [cur] is the piece so far. *)
Fixpoint cut {A} (sep : A → bool) (cur : list A) (xs : list A) : list (list A) :=
  match xs with
  | [] => [cur]
  | x :: xs => if sep x then cur :: cut sep [] xs else cut sep (cur ++ [x]) xs
  end.

Definition text_of (cs : list string) : string := foldr String.append "" cs.
Definition plain_field (cs : list string) : GlobEligibility :=
  mkGlob (text_of cs) (repeat false (String.length (text_of cs))).

Lemma text_of_snoc cs c : text_of (cs ++ [c]) = text_of cs +:+ c.
Proof.
  induction cs as [|c' cs IH]; simpl; [by rewrite string_app_nil_r |]. by rewrite IH, string_app_assoc.
Qed.

Lemma plain_field_push cs c : push_ineligible c (plain_field cs) = plain_field (cs ++ [c]).
Proof.
  unfold push_ineligible, push_marked, plain_field. simpl. rewrite text_of_snoc, string_length_app.
  by rewrite repeat_app.
Qed.

Lemma plain_field_no_glob cs : has_glob_pattern (plain_field cs) = false.
Proof.
  unfold has_glob_pattern, plain_field. simpl. generalize (text_of cs).
  intros t. induction t as [|a t IH]; [done |]. simpl. by rewrite IH, andb_false_r.
Qed.

(** The fields when the loop ends. *)
Definition all_fields (st : Splitting) : list GlobEligibility :=
  let '(fields, current, has_content) := st in
  if open_field current has_content then (fields ++ [current])%list else fields.

Lemma split_chars_cut ifs skipping cs fields cur :
  (skipping = true → cur = []) →
  all_fields (split_chars ifs skipping cs (fields, plain_field cur, negb (bool_decide (cur = []))))
  = (fields ++ (plain_field <$> filter (λ p, p ≠ []) (cut (in_ifs ifs) cur cs)))%list.
Proof.
  revert skipping fields cur. induction cs as [|c cs IH]; intros skipping fields cur Hsk; simpl.
  - unfold open_field. rewrite filter_cons, filter_nil. destruct cur as [|c cur]; simpl.
    + by rewrite app_nil_r.
    + by rewrite orb_true_r.
  - destruct (in_ifs ifs c).
    + rewrite filter_cons. destruct cur as [|c' cur].
      * rewrite decide_False by naive_solver.
        specialize (IH true fields [] (λ _, eq_refl)). simpl in IH. by destruct skipping.
      * destruct skipping; [by specialize (Hsk eq_refl) |]. rewrite decide_True by done.
        unfold open_field. simpl. rewrite orb_true_r.
        rewrite (IH true _ [] (λ _, eq_refl)). by rewrite <- app_assoc.
    + rewrite plain_field_push. specialize (IH false fields (cur ++ [c])%list).
      rewrite bool_decide_eq_false_2 in IH by (by destruct cur). by apply IH.
Qed.

(** The value of an unquoted variable, or the output of an unquoted
    substitution, becomes the fields that are left when it is cut at every
    character of [IFS] and empty pieces are dropped; none of them is ever a
    pattern for file names. *)
Theorem value_splits_into_fields ifs text :
  ifs ≠ "" →
  let fields := split_fields_with_eligibility [field_splittable text] ifs in
  ge_text <$> fields = text_of <$> filter (λ p, p ≠ []) (cut (in_ifs ifs) [] (chars text)) ∧
  Forall (λ field, has_glob_pattern field = false) fields.
Proof.
  intros Hifs fields.
  assert (fields = plain_field <$> filter (λ p, p ≠ []) (cut (in_ifs ifs) [] (chars text))) as ->.
  { subst fields. unfold split_fields_with_eligibility.
    assert (is_empty ifs = false) as -> by (by destruct ifs). simpl.
    exact (split_chars_cut ifs false (chars text) [] [] (λ H, match diff_false_true H with end)). }
  split; [by rewrite <- list_fmap_compose |]. apply Forall_fmap, Forall_forall. intros; apply plain_field_no_glob.
Qed.


(** ** Literals *)

Lemma chars_recoded s : all_chars (λ a, negb (a =c "\")) s = true →
  process_glob_escapes s = (s, repeat true (length (chars s))).
Proof.
  unfold process_glob_escapes. intros H.
  assert (∀ cs, Forall (λ c, c ≠ "\") cs → process_glob_chars cs = (text_of cs, repeat true (length cs))) as Hcs.
  { induction cs as [|c cs IH]; intros Hc; [done |]. inversion Hc as [|? ? Hne Hc']; subst.
    specialize (IH Hc'). cbn [process_glob_chars]. destruct cs as [|c2 cs]; [simpl; by rewrite string_app_nil_r |].
    apply String.eqb_neq in Hne. by rewrite Hne, IH. }
  assert (text_of (chars s) = s ∧ Forall (λ c, c ≠ "\") (chars s)) as [Ht Hf].
  { induction s as [|a s IH]; [done |]. simpl in H. apply andb_true_iff in H as [Ha H].
    destruct (IH H) as [IH1 IH2]. cbn [chars].
    destruct (chars s) as [|c cs] eqn:E; simpl in IH1.
    - subst s. simpl. split; [done |]. repeat constructor. by intros [= ->].
    - destruct s as [|b s]; [discriminate E |]. inversion IH2; subst.
      destruct (is_cont b); simpl; rewrite IH1 || idtac.
      + split; [by rewrite <- IH1 |]. constructor; [| done]. intros [= -> ->]. done.
      + split; [by rewrite <- IH1 |]. constructor; [by intros [= ->] |]. by constructor. }
  rewrite Hcs by done. by rewrite Ht.
Qed.

(** The text of a literal after [push_bytes]: every byte is taken for a character. *)
Fixpoint recoded (s : string) : string :=
  match s with EmptyString => "" | String a s' => byte_as_char a +:+ recoded s' end.

Lemma push_bytes_text s eligible g : ge_text (push_bytes s eligible g) = ge_text g +:+ recoded s.
Proof.
  revert eligible g. induction s as [|a s IH]; intros eligible g; simpl; [by rewrite string_app_nil_r |].
  rewrite IH. simpl. by rewrite string_app_assoc.
Qed.

Lemma recoded_ascii s : all_chars (λ a, (byte a <? 128)%N) s = true → recoded s = s.
Proof.
  induction s as [|a s IH]; simpl; [done |]. intros [Ha H]%andb_true_iff.
  unfold byte_as_char. rewrite Ha. simpl. by rewrite IH.
Qed.

Lemma byte_as_char_length a : (1 ≤ String.length (byte_as_char a))%nat.
Proof. unfold byte_as_char. destruct (byte a <? 128)%N; simpl; lia. Qed.

Lemma recoded_length s : (String.length s ≤ String.length (recoded s))%nat.
Proof.
  induction s as [|a s IH]; simpl; [done |]. rewrite string_length_app.
  pose proof (byte_as_char_length a). lia.
Qed.

(** Only ASCII survives. *)
Lemma recoded_same s : recoded s = s ↔ all_chars (λ a, (byte a <? 128)%N) s = true.
Proof.
  split; [| apply recoded_ascii]. induction s as [|a s IH]; [done |]. simpl.
  unfold byte_as_char. destruct (byte a <? 128)%N eqn:E; simpl.
  - intros [= H]. auto.
  - intros H. apply (f_equal String.length) in H. simpl in H. pose proof (recoded_length s). lia.
Qed.

Definition not_meta (a : ascii) : bool := negb (is_glob_meta a).

Lemma no_meta_no_glob s eligible : all_chars not_meta s = true → has_glob_in s eligible = false.
Proof.
  revert eligible. induction s as [|a s IH]; intros eligible; [done |]. simpl.
  intros [Ha H]%andb_true_iff. unfold not_meta in Ha. apply negb_true_iff in Ha. by rewrite Ha, IH.
Qed.

Lemma recoded_no_meta s : all_chars not_meta s = true → all_chars not_meta (recoded s) = true.
Proof.
  induction s as [|a s IH]; [done |]. simpl. intros [Ha H]%andb_true_iff.
  rewrite all_chars_app, IH by done. unfold byte_as_char.
  destruct (byte a <? 128)%N eqn:E; simpl; [by rewrite Ha |]. clear. by destruct a as [[] [] [] [] [] [] [] []].
Qed.

(** A literal alone is one field. *)
Lemma one_literal_field v eligible ifs :
  v ≠ "" →
  split_fields_with_eligibility [mkField v eligible false] ifs = [push_bytes v eligible GlobEligibility_new].
Proof.
  intros Hv. unfold split_fields_with_eligibility. cbn [foldl fd_text fd_glob_eligible].
  destruct (is_empty ifs).
  - rewrite push_bytes_text. simpl. pose proof (recoded_length v).
    destruct (recoded v); [destruct v; simpl in *; [done | lia] | done].
  - unfold split_part, open_field. simpl. by rewrite orb_true_r.
Qed.

(** A character of an unquoted literal that stands for itself. *)
Definition literal_char (a : ascii) : bool := not_meta a && negb (a =c "\").

Section Words.
Context {W : Type} `{OS : !ShellOS W}.
Context (sub : SubstitutionBody → SX W string).

(** An unquoted word without special characters becomes one argument, in which
    every byte of the literal is taken for a character of its own: it is the
    literal only if the literal is ASCII. *)
Theorem unquoted_literal_recoded v span config (sh : Shell W) :
  v ≠ "" → starts_with "~" v = false → all_chars literal_char v = true →
  expand_word_split_glob sub (mkWord [part_literal v] span) config sh = (Ok [recoded v], sh) ∧
  (recoded v = v ↔ all_chars (λ a, (byte a <? 128)%N) v = true).
Proof.
  intros Hv Ht Hl. split; [| apply recoded_same].
  assert (all_chars not_meta v = true ∧ all_chars (λ a, negb (a =c "\")) v = true) as [Hm Hb].
  { clear -Hl. induction v as [|a v IH]; [done |]. simpl in *. apply andb_true_iff in Hl as [Ha Hl].
    unfold literal_char in Ha. apply andb_true_iff in Ha as [-> ->]. destruct (IH Hl) as [-> ->]. done. }
  unfold expand_word_split_glob, part_literal. cbn [is_fully_quoted wd_parts forallb is_unquoted_literal negb andb].
  cbn [expand_fields wd_parts wd_span expand_literal andb]. rewrite Ht.
  unfold field_literal. rewrite chars_recoded, bool_decide_eq_true_2 by done.
  set (eligible := repeat true _). unfold mbind, sx_bind, mret, sx_ret, context.
  cbn [app]. rewrite one_literal_field by done. cbn [collect_each].
  unfold glob_field, has_glob_pattern. rewrite push_bytes_text. simpl.
  by rewrite no_meta_no_glob by by apply recoded_no_meta.
Qed.

(** A double-quoted literal is one argument, as it is. *)
Lemma quoted_literal v span config (sh : Shell W) :
  expand_word_split_glob sub (mkWord [part_double_quoted v] span) config sh = (Ok [v], sh).
Proof. done. Qed.

(** A plain name is expanded to itself. *)
Lemma plain_name_expanded name span (sh : Shell W) :
  plain_name name = true → starts_with "~" name = false →
  expand_word sub (mkWord [part_literal name] span) sh = (Ok name, sh).
Proof.
  intros [_ Hp]%andb_true_iff Ht. unfold expand_word, expand_word_with_eligibility.
  cbn [wd_parts wd_span expand_parts part_literal expand_literal andb]. rewrite Ht.
  unfold push_eligible_with_escapes. rewrite chars_recoded; [done |].
  clear Ht. induction name as [|a name IH]; [done |]. simpl in *. apply andb_true_iff in Hp as [Ha Hp].
  apply plain_not_special in Ha as (_ & -> & _). by apply IH.
Qed.

Lemma sx_bind_ok {A B} (m : SX W A) (k : A → SX W B) sh a sh1 :
  m sh = (Ok a, sh1) → (m ≫= k) sh = k a sh1.
Proof. intros H. unfold mbind, sx_bind. by rewrite H. Qed.

Lemma quoted_command_expanded name v s1 s2 s3 (sh : Shell W) :
  plain_name name = true → starts_with "~" name = false →
  expand_command sub (mkSimpleCommand [] (mkWord [part_literal name] s1) [mkWord [part_double_quoted v] s2] [] s3) sh
  = (Ok (mkExpanded name [v] [] s3 []), sh).
Proof.
  intros Hn Ht. unfold expand_command. cbn [sc_name sc_args sc_env sc_span sc_redirections].
  by rewrite (sx_bind_ok _ _ _ _ _ (plain_name_expanded _ _ _ Hn Ht)).
Qed.

(** Without redirections, a child is spawned as it is. *)
Lemma start_plain_child ec (sh : Shell W) :
  xc_redirections ec = [] →
  start_child sub Io_Inherit ec sh
  = (try_system (command_spawn_failed ec) (os_spawn (process_of (sh_ctx sh) Io_Inherit ec)) ≫= λ pid,
     mret (mkChild pid false true true)) sh.
Proof. intros H. unfold start_child. rewrite H. by destruct ec. Qed.
End Words.

(** ** Snippets *)

Fixpoint conts (s : string) : bool :=
  match s with EmptyString => true | String a s' => is_cont a && conts s' end.

(** The bytes that were read of a character go on to a character. *)
Definition goes_on (read : string) (lo hi : N) (more : nat) : Prop :=
  ∀ a bytes rest, in_range lo hi a = true → conts bytes = true → String.length bytes = more →
    utf8_valid (read +:+ String a (bytes +:+ rest)) = utf8_valid rest.

Definition state_ok (state : Decoding) : Prop :=
  match state with Between => True | Inside read lo hi more => goes_on read lo hi more end.

Lemma cont_range a : in_range 128 191 a = is_cont a.
Proof. done. Qed.

Lemma start_char_ok a :
  (∀ rest, utf8_valid ((start_char a).1 +:+ rest) = utf8_valid rest) ∧ state_ok (start_char a).2.
Proof.
  unfold start_char. destruct (byte a <? 128)%N eqn:Ea; [by split; [intros; simpl; rewrite Ea |] |].
  unfold utf8_second.
  destruct (in_range 194 223 a) eqn:E2.
  { split; [done |]. intros b bytes rest Hb _ Hl. destruct bytes; [| done].
    simpl. rewrite Ea, E2. unfold is_cont. by rewrite Hb. }
  destruct (in_range 224 239 a) eqn:E3.
  { split; [done |]. intros b bytes rest Hb Hc Hl.
    destruct bytes as [|c [|]]; try done. simpl in *. rewrite Ea, E2, E3. rewrite andb_true_r in Hc. rewrite Hc.
    unfold in_range, byte, is_cont in *.
    destruct (N.eqb_spec (Ascii.N_of_ascii a) 224) as [Ha|Ha], (N.eqb_spec (Ascii.N_of_ascii a) 237) as [Ha'|Ha'];
      try lia; unfold in_range, byte; by rewrite Hb. }
  destruct (in_range 240 244 a) eqn:E4; [| done].
  split; [done |]. intros b bytes rest Hb Hc Hl.
  destruct bytes as [|c [|d [|]]]; try done. simpl in *. rewrite Ea, E2, E3, E4.
  apply andb_true_iff in Hc as [Hc Hd]. rewrite andb_true_r in Hd. rewrite Hc, Hd.
  unfold in_range, byte, is_cont in *.
  destruct (N.eqb_spec (Ascii.N_of_ascii a) 240) as [Ha|Ha], (N.eqb_spec (Ascii.N_of_ascii a) 244) as [Ha'|Ha'];
    try lia; unfold in_range, byte; by rewrite Hb.
Qed.

Lemma lossy_valid state s : state_ok state → utf8_valid (lossy_from state s) = true.
Proof.
  revert state. induction s as [|a s IH]; intros state Hs; simpl; [by destruct state |].
  destruct (start_char_ok a) as [Hout Hst]. destruct (start_char a) as [out st]. simpl in Hout, Hst.
  destruct state as [|read lo hi more]; [by rewrite Hout, IH |].
  destruct (in_range lo hi a) eqn:Ea.
  - destruct more as [|more].
    + pose proof (Hs a "" (lossy_from Between s) Ea eq_refl eq_refl) as H. simpl in H.
      rewrite H. by apply IH.
    + apply IH. intros b bytes rest Hb Hc Hl. rewrite string_app_assoc. simpl.
      apply (Hs a (String b bytes) rest Ea); simpl; [by rewrite <- cont_range, Hb | by rewrite Hl].
  - transitivity (utf8_valid (out +:+ lossy_from st s)); [done |]. rewrite Hout. by apply IH.
Qed.

(** Text that is cut before a character is text. *)
Lemma not_boundary a s : is_cont a = true → is_char_boundary (String a s) 0 = false.
Proof.
  unfold is_cont, is_char_boundary, in_range, byte. simpl. intros [H1 H2]%andb_true_iff.
  apply N.leb_le in H1, H2. apply orb_false_iff. split; [apply N.ltb_ge; lia | apply N.leb_gt; lia].
Qed.

Lemma second_cont a : in_range 160 191 a = true ∨ in_range 128 159 a = true ∨ in_range 144 191 a = true
  ∨ in_range 128 143 a = true ∨ is_cont a = true → is_cont a = true.
Proof. unfold is_cont, in_range. rewrite !andb_true_iff, !N.leb_le. lia. Qed.

Lemma utf8_take s n : utf8_valid s = true → is_char_boundary s n = true → utf8_valid (take_str n s) = true.
Proof.
  remember (String.length s) as len eqn:Hlen. revert s n Hlen.
  induction len as [len IH] using lt_wf_ind. intros [|a s1] n ->; [by destruct n |].
  assert (∀ s' k, (String.length s' < S (String.length s1))%nat → utf8_valid s' = true →
            is_char_boundary s' k = true → utf8_valid (take_str k s') = true) as Hrec by eauto.
  destruct n as [|n]; [done |]. cbn [utf8_valid]. intros Hv Hb.
  change (is_char_boundary s1 n = true) in Hb. cbn [take_str utf8_valid].
  destruct (byte a <? 128)%N; [apply Hrec; [lia | done | done] |].
  destruct s1 as [|b s2]; [done |]. destruct (in_range 194 223 a).
  { apply andb_true_iff in Hv as [Hc Hv]. destruct n as [|n]; [by rewrite not_boundary in Hb |].
    change (is_char_boundary s2 n = true) in Hb. cbn [take_str].
    rewrite Hc. apply Hrec; [simpl; lia | done | done]. }
  destruct s2 as [|c s3]; [done |]. destruct (in_range 224 239 a).
  { apply andb_true_iff in Hv as [Hv Hv3]. apply andb_true_iff in Hv as [Hv2 Hc].
    assert (is_cont b = true) as Hb2 by (apply second_cont; repeat destruct (_ =? _)%N; auto).
    destruct n as [|n]; [by rewrite not_boundary in Hb |]. change (is_char_boundary (String c s3) n = true) in Hb.
    destruct n as [|n]; [by rewrite not_boundary in Hb |]. change (is_char_boundary s3 n = true) in Hb.
    cbn [take_str]. rewrite Hv2, Hc. apply Hrec; [simpl; lia | done | done]. }
  destruct s3 as [|d s4]; [done |].
  apply andb_true_iff in Hv as [Hv Hv4]. apply andb_true_iff in Hv as [Hv Hd].
  apply andb_true_iff in Hv as [Hv Hc]. apply andb_true_iff in Hv as [Ha Hv2].
  assert (is_cont b = true) as Hb2 by (apply second_cont; repeat destruct (_ =? _)%N; auto).
  destruct n as [|n]; [by rewrite not_boundary in Hb |]. change (is_char_boundary (String c (String d s4)) n = true) in Hb.
  destruct n as [|n]; [by rewrite not_boundary in Hb |]. change (is_char_boundary (String d s4) n = true) in Hb.
  destruct n as [|n]; [by rewrite not_boundary in Hb |]. change (is_char_boundary s4 n = true) in Hb.
  cbn [take_str]. rewrite Ha, Hv2, Hc, Hd. apply Hrec; [simpl; lia | done | done].
Qed.

Lemma boundary_before_ok s n :
  utf8_valid s = true → (boundary_before s n ≤ n)%nat ∧ utf8_valid (take_str (boundary_before s n) s) = true.
Proof.
  intros Hs. induction n as [|n [IH1 IH2]]; [done |]. cbn [boundary_before].
  destruct (is_char_boundary s (S n)) eqn:E; [by split; [| apply utf8_take] |]. by split; [lia |].
Qed.

(** Text is not changed. *)
Lemma lossy_text s : utf8_valid s = true → from_utf8_lossy s = s.
Proof.
  unfold from_utf8_lossy. remember (String.length s) as len eqn:Hlen. revert s Hlen.
  induction len as [len IH] using lt_wf_ind. intros [|a s1] ->; [done |].
  assert (∀ s', (String.length s' < S (String.length s1))%nat → utf8_valid s' = true →
            lossy_from Between s' = s') as Hrec by eauto.
  cbn [utf8_valid lossy_from]. unfold start_char, utf8_second. intros Hv.
  destruct (byte a <? 128)%N; [simpl; by rewrite Hrec by (done || lia) |].
  destruct s1 as [|b s2]; [done |]. destruct (in_range 194 223 a).
  { apply andb_true_iff in Hv as [Hc Hv]. simpl. unfold is_cont in Hc. rewrite Hc.
    by rewrite Hrec by (done || simpl; lia). }
  destruct s2 as [|c s3]; [done |]. destruct (in_range 224 239 a) eqn:E3.
  { apply andb_true_iff in Hv as [Hv Hv3]. apply andb_true_iff in Hv as [Hv2 Hc].
    assert (in_range (if (byte a =? 224)%N then 160%N else 128%N) (if (byte a =? 237)%N then 159%N else 191%N) b = true)
      as Hr by (destruct (byte a =? 224)%N eqn:E1, (byte a =? 237)%N eqn:E2; try done; apply N.eqb_eq in E1, E2; lia).
    cbn [lossy_from String.append]. rewrite Hr. unfold is_cont in Hc. cbn [lossy_from]. rewrite Hc. simpl.
    by rewrite Hrec by (done || simpl; lia). }
  destruct s3 as [|d s4]; [done |].
  apply andb_true_iff in Hv as [Hv Hv4]. apply andb_true_iff in Hv as [Hv Hd].
  apply andb_true_iff in Hv as [Hv Hc]. apply andb_true_iff in Hv as [-> Hv2].
  assert (in_range (if (byte a =? 240)%N then 144%N else 128%N) (if (byte a =? 244)%N then 143%N else 191%N) b = true)
    as Hr by (destruct (byte a =? 240)%N eqn:E1, (byte a =? 244)%N eqn:E2; try done; apply N.eqb_eq in E1, E2; lia).
  cbn [lossy_from String.append]. rewrite Hr. unfold is_cont in Hc, Hd. cbn [lossy_from]. rewrite Hc.
  cbn [lossy_from]. rewrite Hd. simpl. by rewrite Hrec by (done || simpl; lia).
Qed.

(** C37. A snippet of captured output is text, not longer than the limit, whatever
    bytes the process wrote: the output itself if that is text that fits, and
    otherwise a start of it with a mark for what is no text. *)
Theorem snippet_is_text bytes limit :
  (0 ≤ limit)%Z →
  match truncate_snippet bytes limit with
  | Some t =>
      utf8_valid t = true ∧ (Z.of_nat (String.length t) ≤ limit)%Z ∧
      starts_with t (from_utf8_lossy bytes) = true ∧
      (utf8_valid bytes = true → (Z.of_nat (String.length bytes) ≤ limit)%Z → t = bytes)
  | None => bytes = ""
  end.
Proof.
  intros Hl. unfold truncate_snippet. destruct (is_empty bytes) eqn:Ee; [by destruct bytes |].
  assert (utf8_valid (from_utf8_lossy bytes) = true) as Hv by by apply lossy_valid.
  destruct (Z.leb_spec (Z.of_nat (String.length (from_utf8_lossy bytes))) limit) as [Hle|Hlt].
  - split_and!; [done | done | | by intros ?%lossy_text].
    apply starts_with_spec. exists "". by rewrite string_app_nil_r.
  - rewrite Z.min_l by lia. destruct (boundary_before_ok _ (Z.to_nat limit) Hv) as [Hb Ht].
    split_and!; [done | | |].
    + rewrite length_take_str. lia.
    + apply starts_with_spec. exists (drop_str (boundary_before (from_utf8_lossy bytes) (Z.to_nat limit)) (from_utf8_lossy bytes)).
      by rewrite take_str_drop.
    + intros Hvb Hfit. rewrite lossy_text in Hlt by done. lia.
Qed.

(** ** Pipelines *)

Lemma sx_bind_inv {W A B} (m : SX W A) (k : A → SX W B) sh b sh' :
  (m ≫= k) sh = (Ok b, sh') → ∃ a sh1, m sh = (Ok a, sh1) ∧ k a sh1 = (Ok b, sh').
Proof. unfold mbind, sx_bind. destruct (m sh) as [[a|e|] sh1]; [eauto | done | done]. Qed.

Lemma collect_each_length {W A B} (f : A → SX W B) xs sh ys sh' :
  collect_each f xs sh = (Ok ys, sh') → length ys = length xs.
Proof.
  revert sh ys sh'. induction xs as [|x xs IH]; intros sh ys sh'; simpl; [by intros [= <- _] |].
  intros (y & sh1 & _ & (ys' & sh2 & H & [= <- _])%sx_bind_inv)%sx_bind_inv. simpl. by rewrite (IH _ _ _ H).
Qed.

Lemma spawn_all_length {W} `{OS : !ShellOS W} sub is_first ecs (sh : Shell W) spawned sh' :
  spawn_all sub is_first ecs sh = (Ok spawned, sh') → length spawned = length ecs.
Proof.
  revert is_first sh spawned sh'. induction ecs as [|ec ecs IH]; intros is_first sh spawned sh'; simpl; [by intros [= <- _] |].
  intros (start & sh1 & _ & (child & sh2 & _ & (rest & sh3 & H & [= <- _])%sx_bind_inv)%sx_bind_inv)%sx_bind_inv.
  simpl. by rewrite (IH _ _ _ _ H).
Qed.

Lemma take_ends_length is_first spawned : length (take_ends is_first spawned) = length spawned.
Proof. revert is_first. induction spawned as [|[[ec s] c] rest IH]; intros; simpl; [done | by rewrite IH]. Qed.

Lemma last_cons_code t traces l :
  default (ct_exit_code t) (ct_exit_code <$> last traces) = default l (ct_exit_code <$> last (t :: traces)).
Proof.
  destruct traces as [|t' traces]; [done |]. cbn [last]. fold (last (t' :: traces)).
  destruct (last (t' :: traces)) eqn:E; [done |]. by apply last_None in E.
Qed.

Lemma job_codes_spec traces last_exit failure :
  (job_codes traces last_exit failure).1 = default last_exit (ct_exit_code <$> last traces) ∧
  (job_codes traces last_exit failure).2
  = match filter (λ t, ct_exit_code t ≠ 0%Z) traces with
    | [] => failure
    | failed => ct_exit_code <$> last failed
    end.
Proof.
  revert last_exit failure. induction traces as [|t traces IH]; intros l f; [done |]. cbn [job_codes].
  destruct (IH (ct_exit_code t) (if (ct_exit_code t =? 0)%Z then f else Some (ct_exit_code t))) as [-> ->].
  split; [apply last_cons_code |]. rewrite filter_cons.
  destruct (Z.eqb_spec (ct_exit_code t) 0) as [E|E].
  - by rewrite decide_False by auto.
  - rewrite decide_True by done. by destruct (filter _ traces).
Qed.

(** A pipeline that comes to its end has a trace for each of its commands; its
    exit code is that of the last command, and with [pipefail] that of the
    last command that failed, so that it is zero exactly if none failed. *)
Theorem pipeline_exit_code {W} `{OS : !ShellOS W} sub job (sh sh' : Shell W) code traces :
  execute_job sub job sh = (Ok (code, traces), sh') →
  length traces = length (sj_commands job) ∧
  if cx_pipefail (sh_ctx sh')
  then code = default 0%Z (ct_exit_code <$> last (filter (λ t, ct_exit_code t ≠ 0%Z) traces)) ∧
       (code = 0%Z ↔ Forall (λ t, ct_exit_code t = 0%Z) traces)
  else code = default 0%Z (ct_exit_code <$> last traces).
Proof.
  unfold execute_job. destruct (sj_commands job) as [|cmd commands].
  { intros [= <- <- <-]. split; [done |]. by destruct (cx_pipefail _). }
  intros (expanded & sh1 & H1 & H)%sx_bind_inv. apply sx_bind_inv in H as (spawned & sh2 & H2 & H).
  apply sx_bind_inv in H as ([] & sh3 & _ & H). apply sx_bind_inv in H as (ts & sh4 & H4 & H).
  apply sx_bind_inv in H as (c & sh5 & [= <- <-] & [= <- <- <-]).
  split.
  { rewrite (collect_each_length _ _ _ _ _ H4), take_ends_length, (spawn_all_length _ _ _ _ _ _ H2).
    exact (collect_each_length _ _ _ _ _ H1). }
  unfold job_exit_code. destruct (job_codes_spec ts 0 None) as [Hl Hf].
  destruct (job_codes ts 0 None) as [l f]. simpl in Hl, Hf. subst l f.
  destruct (cx_pipefail _); [| done].
  assert (Forall (λ t, ct_exit_code t ≠ 0%Z) (filter (λ t, ct_exit_code t ≠ 0%Z) ts)) as Hall
    by (apply Forall_forall; intros t Ht; by apply list_elem_of_filter in Ht as [? _]).
  assert (filter (λ t, ct_exit_code t ≠ 0%Z) ts = [] ↔ Forall (λ t, ct_exit_code t = 0%Z) ts) as Hnil.
  { clear. induction ts as [|t ts IH]; [by split |]. rewrite filter_cons, Forall_cons.
    destruct (Z.eq_dec (ct_exit_code t) 0%Z) as [E|E].
    - rewrite decide_False by auto. rewrite IH. split; [by split | by intros [_ ?]].
    - rewrite decide_True by done. split; [done | by intros [? _]]. }
  destruct (filter _ ts) as [|t failed] eqn:E; [simpl; naive_solver |].
  split; [done |]. rewrite <- Hnil. split; [| done]. intros Hz. exfalso.
  destruct (last (t :: failed)) as [u|] eqn:El; [| by apply last_None in El].
  apply last_Some_elem_of in El. eapply Forall_forall in Hall; [| exact El]. by simpl in Hz.
Qed.

(** ** Promises *)

Section Promises.
Context {W : Type} `{OS : !ShellOS W}.

(** C24. The execution of every script comes to an end, if the system calls do: with
    enough fuel it has a result, which more fuel does not change, and no amount
    of fuel gives another one. *)
Theorem script_ends x script (w : W) :
  ∃ r, r.1 ≠ NoFuel ∧
    (∀ n, (execute_str n x script w).1 = NoFuel ∨ execute_str n x script w = r) ∧
    ∃ n, ∀ n', (n ≤ n')%nat → execute_str n' x script w = r.
Proof.
  unfold execute_str. pose proof (parse_post script) as Hp.
  destruct (parse script) as [ast|e|]; simpl in Hp; [| by eexists; split; [| split; [right | by exists 0]] |done].
  unfold shell_execute. destruct (executor_context x w) as [c|e|] eqn:E;
    [| by eexists; split; [| split; [right | by exists 0]] |].
  - destruct (conv_list _ ast Hp (mkShell c w)) as ([r sh] & [Hr _] & Hor & n & Hn).
    exists (r, sh_world sh). split; [by destruct r |]. split.
    + intros n'. destruct (Hor n') as [Hno| ->]; [| by right]. left.
      destruct (execute_command_list n' ast (mkShell c w)). exact Hno.
    + exists n. intros n' Hn'. by rewrite Hn.
  - exfalso. unfold executor_context in E. destruct (se_cwd x); [done |]. by destruct (os_current_dir w).
Qed.

(** C26. Whatever a script does, its execution leaves the directory, the environment,
    the capture limit, [pipefail] and the default separators of the context as
    they were, also when it fails midway, and unsets no variable; it succeeds
    only with exit code 0, and a failed command is reported with another one. *)
Theorem execution_keeps_context n k l (sh sh' : Shell W) r :
  wf_list k l = true → execute_command_list n l sh = (r, sh') → r ≠ NoFuel →
  keeps (sh_ctx sh) (sh_ctx sh') ∧
  match r with
  | Ok o => eo_exit_code o = 0%Z
  | Err (Exec_CommandFailed _ code _) => code ≠ 0%Z
  | _ => True
  end.
Proof.
  intros Hwf E Hr. destruct (conv_list _ l Hwf sh) as (r' & [He Hk] & Hor & _).
  destruct (Hor n) as [Hno|Heq]; rewrite E in *; [by simpl in Hno |]. subst r'. simpl in *.
  split; [done |]. by destruct r as [o|[]|].
Qed.

(** What a single command does. *)
Definition spawn_and_wait (spec : ProcessSpec) (limit : Z) (span list_span : Span) (w : W) :
    Res ExecError ExecOutput * W :=
  let failed e := Exec_SpawnFailed (pr_program spec) e span in
  let '(start, w) := os_instant w in
  match os_spawn spec w with
  | (inl e, w) => (Err (failed e), w)
  | (inr pid, w) =>
      match os_wait pid w with
      | (inl e, w) => (Err (failed e), w)
      | (inr out, w) =>
          let '(end_, w) := os_instant w in
          let code := default (-1)%Z (ex_code out) in
          if (code =? 0)%Z
          then (Ok (mkExecOutput code
                      [mkTrace (pr_program spec) (pr_args spec) code (end_ - start)
                         (truncate_snippet (ex_stdout out) limit) (truncate_snippet (ex_stderr out) limit)
                         span]), w)
          else (Err (Exec_CommandFailed (pr_program spec) code list_span), w)
      end
  end.

(** C25. The execution of a command whose value was escaped and put between double
    quotes starts one process, the named program with this value as its only
    argument, whatever the value holds and whatever variables there are, and
    does nothing else. *)
Theorem escaped_value_is_one_argument n x name v (w : W) c :
  plain_name name = true → starts_with "~" name = false → executor_context x w = Ok c →
  ∃ span list_span,
    execute_str (S n) x (quoted_command name v) w
    = spawn_and_wait (mkProcess name [v] (cx_cwd c) (cx_env c) Io_Inherit Io_Piped Io_Piped)
        (cx_snippet_limit c) span list_span w.
Proof.
  intros Hn Ht Hc. destruct (parse_quoted_command name v Hn) as (s1 & s2 & s3 & s4 & s5 & s6 & Hp).
  exists s3, s5. unfold execute_str. rewrite Hp. unfold shell_execute. rewrite Hc.
  cbn [execute_command_list cl_commands run_commands].
  unfold execute_and_or_list, run_item, execute_command_item.
  cbn [ao_first ao_rest ci_background ci_command run_chain ao_span].
  unfold spawn_and_wait, execute_simple_command. cbn [pr_program pr_args].
  unfold mbind at 1 2 3 4 5 6, sx_bind at 1 2 3 4 5 6, system at 1. cbn [sh_world sh_ctx].
  destruct (os_instant w) as [start w1]. cbn [sh_world sh_ctx].
  rewrite (sx_bind_ok _ _ _ _ _ (quoted_command_expanded _ name v s1 s2 s3 _ Hn Ht)).
  assert (is_empty name = false) as He by (by destruct name). cbn [xc_name]. rewrite He.
  unfold mbind at 1, sx_bind at 1. rewrite start_plain_child by done.
  unfold mbind at 1, sx_bind at 1, try_system at 1. cbn [sh_world sh_ctx].
  unfold process_of. cbn [xc_name xc_args xc_env foldl].
  destruct (os_spawn _ w1) as [[e|pid] w2]; [done |].
  unfold wait_child, mret, sx_ret, mbind, sx_bind, try_system, system, context. cbn [sh_world sh_ctx ch_pid].
  destruct (os_wait pid w2) as [[e|out] w3]; [done |]. cbn [sh_world sh_ctx].
  destruct (os_instant w3) as [end_ w4]. simpl.
  by destruct (default (-1)%Z (ex_code out) =? 0)%Z.
Qed.
End Promises.


(** ** A system that records its processes

    Every command writes its arguments; [false] fails. *)

Definition echo_os : ShellOS (list ProcessSpec) := {|
  os_current_dir := λ _, inr "/w";
  os_home_dir := Some "/home/me";
  os_user := Some "me";
  os_pid := 7;
  os_instant := λ w, (0%Z, w);
  os_glob := λ _ _, inr [inr "/w/b.txt"; inr "/w/.h"; inr "/w/a.txt"];
  os_open_read := λ _ w, (inr 0, w);
  os_open_write := λ _ _ w, (inr 1, w);
  os_try_clone := λ n w, (inr n, w);
  os_write_all := λ _ _ w, (None, w);
  os_spawn := λ p w, (inr (length w), (w ++ [p])%list);
  os_write_stdin := λ _ _ w, (None, w);
  os_relay := λ _ _ w, w;
  os_wait := λ n w,
    (inr (match w !! n with
          | Some p => mkExit (Some (if String.eqb (pr_program p) "false" then 1%Z else 0%Z))
                        (String.concat " " (pr_args p) +:+ newline_str) ""
          | None => mkExit None "" ""
          end), w)
|}.
#[local] Existing Instance echo_os.

Definition sample_executor : ShellExecutor := mkExecutor None ∅ {["X" := "a b"]} 8192 true.
Definition sample_context : ExecContext :=
  mkContext "/w" ∅ {["X" := "a b"]} 8192 true (String " " (String "009" (String newline ""))) 0.
Definition sample_shell : Shell (list ProcessSpec) := mkShell sample_context [].

(** What a script does: the arguments of its commands, or an error. *)
Definition args_of (script : string) : list (list string) + option ExecError :=
  match execute_str 9 sample_executor script [] with
  | (Ok o, _) => inl (ct_args <$> eo_traces o)
  | (Err e, _) => inr (Some e)
  | (NoFuel, _) => inr None
  end.

Definition sample_script : CommandList :=
  match parse "echo $X *.txt ${Y:=c} | cat; (false || echo $?) && echo $(echo x)" with
  | Ok l => l
  | _ => mkCommandList [] (mkSpan 0 0)
  end.

Lemma execution_keeps_context_witness :
  ∃ sh' o, wf_list 100 sample_script = true ∧
    execute_command_list 9 sample_script sample_shell = (Ok o, sh') ∧
    keeps sample_context (sh_ctx sh') ∧ eo_exit_code o = 0%Z.
Proof.
  destruct (execute_command_list 9 sample_script sample_shell) as [r sh'] eqn:E.
  assert (wf_list 100 sample_script = true) as Hwf by (vm_compute; reflexivity).
  assert (match r with Ok _ => true | _ => false end = true) as Hok
    by (change r with (fst (r, sh')); rewrite <- E; vm_compute; reflexivity).
  destruct r as [o|e|]; [| discriminate | discriminate].
  exists sh', o. split; [exact Hwf |]. split; [reflexivity |].
  apply (execution_keeps_context 9 100 sample_script sample_shell sh' (Ok o) Hwf E). discriminate.
Defined.

Lemma value_splits_into_fields_witness :
  let fields := split_fields_with_eligibility [field_splittable " a  *b "] " " in
  ge_text <$> fields = ["a"; "*b"] ∧ Forall (λ field, has_glob_pattern field = false) fields.
Proof.
  intros fields. destruct (value_splits_into_fields " " " a  *b " ltac:(discriminate)) as [H1 H2].
  split; [exact H1 | exact H2].
Defined.

Definition e_acute : string := String "195" (String "169" "").

Lemma unquoted_literal_recoded_witness :
  expand_word_split_glob (λ _, mret "") (mkWord [part_literal ("caf" +:+ e_acute)] (mkSpan 0 5))
    GlobConfig_default sample_shell
  = (Ok ["caf" +:+ String "195" (String "131" (String "194" (String "169" "")))], sample_shell).
Proof.
  refine (proj1 (unquoted_literal_recoded (λ _, mret "") ("caf" +:+ e_acute) (mkSpan 0 5)
                   GlobConfig_default sample_shell _ _ _)); [discriminate | reflexivity | vm_compute; reflexivity].
Defined.

Lemma escaped_value_is_one_argument_witness :
  ∃ span list_span,
    execute_str 1 sample_executor (quoted_command "echo" "$X; `rm` *") []
    = spawn_and_wait (mkProcess "echo" ["$X; `rm` *"] "/w" ∅ Io_Inherit Io_Piped Io_Piped) 8192
        span list_span [].
Proof.
  apply (escaped_value_is_one_argument 0 sample_executor "echo" "$X; `rm` *" [] sample_context);
    reflexivity.
Defined.

Lemma snippet_is_text_witness :
  truncate_snippet (e_acute +:+ String "255" "") 4 = Some e_acute ∧ utf8_valid e_acute = true.
Proof.
  pose proof (snippet_is_text (e_acute +:+ String "255" "") 4 ltac:(lia)) as H.
  assert (truncate_snippet (e_acute +:+ String "255" "") 4 = Some e_acute) as E by (vm_compute; reflexivity).
  rewrite E in H. split; [reflexivity | exact (proj1 H)].
Defined.

Definition sample_pipeline : ShellJob :=
  let cmd name := mkSimpleCommand [] (mkWord [part_literal name] (mkSpan 0 0)) [] [] (mkSpan 0 0) in
  mkShellJob [cmd "false"; cmd "cat"] (mkSpan 0 0).

Lemma pipeline_exit_code_witness :
  ∃ traces sh', execute_job (λ _, mret "") sample_pipeline sample_shell = (Ok (1%Z, traces), sh') ∧
    length traces = 2.
Proof.
  destruct (execute_job (λ _, mret "") sample_pipeline sample_shell) as [r sh'] eqn:E.
  assert (fmap (M:=Res ExecError) fst r = Ok 1%Z) as Hr
    by (change r with (fst (r, sh')); rewrite <- E; vm_compute; reflexivity).
  destruct r as [[code traces]|e|]; try discriminate. injection Hr as ->.
  exists traces, sh'. split; [reflexivity |].
  exact (proj1 (pipeline_exit_code (λ _, mret "") sample_pipeline sample_shell sh' 1%Z traces E)).
Defined.

(** A quoted variable behind an unquoted literal is split. *)
Lemma quoted_variable_split :
  args_of ("echo --o=" +:+ String "034" ("$X" +:+ String "034" "")) = inl [["--o=a"; "b"]].
Proof. vm_compute. reflexivity. Qed.

(** A name that does not start with an ASCII letter makes the execution panic. *)
Lemma modifier_panics : args_of ("echo ${X" +:+ e_acute +:+ "}") = inr (Some Exec_Panic).
Proof. vm_compute. reflexivity. Qed.

(** A list that is not the last of a chain fails the script. *)
Lemma chain_fails_fast : ∃ span, args_of "false && echo 1; echo 2" = inr (Some (Exec_CommandFailed "false" 1 span)).
Proof. eexists. vm_compute. reflexivity. Qed.

(** What a group wrote before its last command failed is in no trace. *)
Lemma failed_group_is_silent : args_of "(echo 1; false) || echo 2" = inl [["2"]].
Proof. vm_compute. reflexivity. Qed.

(** A pattern behind a character of two bytes is not expanded. *)
Lemma glob_behind_character :
  args_of "echo e*" = inl [["a.txt"; "b.txt"]] ∧ args_of ("echo " +:+ e_acute +:+ "*") = inl [[recoded e_acute +:+ "*"]].
Proof. split; vm_compute; reflexivity. Qed.

Local Close Scope string_scope.
