(* ===== verification/QueueSpec.v ===== *)
(** What the prunes delete, what a dry run shows, and what the queue requests
    and the options of a decision do. *)

From S2P Require Import Prelude Ids Runbook Bytes Slug Vars Entities Job Event State Runtime WorkerQueue.
From S2P Require Import DecisionBuilder RuntimeWitness Wal Engine RunbookParse RunbookSpec Protocol.
From S2P Require Import Breadcrumb Suggest Listener Mutations ListenRun ListenQueues Query ListenRequest.
From S2P Require Import RequestSpec.

Local Open Scope string_scope.

Lemma elem_of_collect {X A} (judge : X → Verdict A) xs a :
  a ∈ (collect judge xs).1 ↔ ∃ x, x ∈ xs ∧ judge x = Prune a.
Proof.
  induction xs as [|x xs IH]; simpl.
  { split; [by intros ?%not_elem_of_nil | by intros (? & ?%not_elem_of_nil & _)]. }
  assert ((∃ y, y ∈ x :: xs ∧ judge y = Prune a) ↔
          judge x = Prune a ∨ ∃ y, y ∈ xs ∧ judge y = Prune a) as ->.
  { setoid_rewrite elem_of_cons. naive_solver. }
  rewrite <- IH. destruct (collect judge xs) as [pruned skipped].
  destruct (judge x) as [| |b]; simpl; [naive_solver | naive_solver |].
  rewrite elem_of_cons. split; (intros [H|H]; [left; congruence | by right]).
Qed.

Section Ended.
Context {Value : Type}.
Implicit Types (s : MaterializedState Value).

(** A session is of no live job, and, without a job, of no live agent run: the
    one found for it, if any, has ended. *)
Definition session_ended s (x : Session) : Prop :=
  match jobs s !! session_job_id x with
  | Some j => Job_is_terminal j = true
  | None => (∃ k ar, agent_runs s !! k = Some ar ∧ run_session_id ar = Some (session_id x) ∧
                     AgentRun_is_terminal ar = true)
            ∨ ∀ k ar, agent_runs s !! k = Some ar → run_session_id ar ≠ Some (session_id x)
  end.

(** A deletion of what has ended or been stopped. *)
Definition deletes_ended s (ev : Event Value) : Prop :=
  match ev with
  | JobDeleted id => ∃ k j, jobs s !! k = Some j ∧ job_id j = id ∧ Job_is_terminal j = true
  | AgentRunDeleted id =>
      ∃ k ar, agent_runs s !! k = Some ar ∧ run_id ar = id ∧ AgentRun_is_terminal ar = true
  | WorkerDeleted name ns =>
      ∃ k r, workers s !! k = Some r ∧ worker_name r = name ∧ worker_namespace r = ns ∧
             worker_status r = "stopped"
  | CronDeleted name ns =>
      ∃ k c, crons s !! k = Some c ∧ cron_rec_name c = name ∧ cron_rec_namespace c = ns ∧
             cron_rec_status c = "stopped"
  | SessionDeleted id =>
      ∃ k x, sessions s !! k = Some x ∧ session_id x = id ∧ session_ended s x
  | _ => False
  end.

(** ** What the judges let through *)

Lemma judged_job now flags failed (j : Job) e :
  judge_job now flags failed j = Prune e → je_id e = job_id j ∧ Job_is_terminal j = true.
Proof.
  unfold judge_job. destruct (Job_is_terminal j); simpl; repeat case_match; by intros [= <-].
Qed.

Lemma judged_agents_job now flags (j : Job) a :
  judge_agents_job now flags j = Prune a → a.1 = job_id j ∧ Job_is_terminal j = true.
Proof.
  unfold judge_agents_job. destruct (Job_is_terminal j); simpl; repeat case_match; by intros [= <-].
Qed.

Lemma judged_run now flags (r : AgentRun) a :
  judge_agent_run now flags r = Prune a → a.1 = run_id r ∧ AgentRun_is_terminal r = true.
Proof.
  unfold judge_agent_run. destruct (AgentRun_is_terminal r); simpl; repeat case_match; by intros [= <-].
Qed.

Lemma judged_worker flags (r : WorkerRecord) e :
  judge_worker flags r = Prune e →
  wke_name e = worker_name r ∧ wke_namespace e = worker_namespace r ∧ worker_status r = "stopped".
Proof.
  unfold judge_worker. destruct (outside _ _); [done |].
  destruct (String.eqb_spec (worker_status r) "stopped"); simpl; [| done]. by intros [= <-].
Qed.

Lemma judged_cron (c : CronRecord) e :
  judge_cron c = Prune e →
  ce_name e = cron_rec_name c ∧ ce_namespace e = cron_rec_namespace c ∧ cron_rec_status c = "stopped".
Proof.
  unfold judge_cron. destruct (String.eqb_spec (cron_rec_status c) "stopped"); simpl; [| done].
  by intros [= <-].
Qed.

Lemma judged_session env now flags s (x : Session) e :
  judge_session env now flags s x = Prune e → se_id e = session_id x ∧ session_ended s x.
Proof.
  unfold judge_session, session_owner, session_ended.
  destruct (jobs s !! session_job_id x) as [j|].
  { destruct (Job_is_terminal j); simpl; repeat case_match; by intros [= <-]. }
  destruct (List.find _ _) as [ar|] eqn:Hf.
  - apply find_some in Hf as [(k & Hk)%list_elem_of_In%elem_of_table_values Hs].
    apply bool_decide_eq_true in Hs.
    destruct (AgentRun_is_terminal ar) eqn:Ht; simpl; repeat case_match; try done.
    all: intros [= <-]; split; [done | left; eauto].
  - intros He. assert (se_id e = session_id x) as ->.
    { revert He. simpl. repeat case_match; by intros [= <-]. }
    split; [done |]. right. intros k ar Hk Hs.
    assert (ar ∈ table_values env TAgentRuns (agent_runs s)) as Hin%list_elem_of_In
      by (apply elem_of_table_values; eauto).
    apply (find_none _ _ Hf) in Hin. by apply bool_decide_eq_false in Hin.
Qed.
End Ended.

Section Prunes.
Context {Value W : Type} `{RIO : !RuntimeIO Value W} `{LIO : !ListenIO W} `{EC : !Codec (Event Value)}.
Context `{FL : !Files W}.
Abbreviation L := (Listen Value W) (only parsing).
Implicit Types (l : L) (s : MaterializedState Value).

(** What a judge let through comes from an entry of the table. *)
Lemma collected {A B} (judge : A → Verdict B) env t (m : gmap string A) b pruned skipped :
  collect judge (table_values env t m) = (pruned, skipped) → b ∈ pruned →
  ∃ k a, m !! k = Some a ∧ judge a = Prune b.
Proof.
  intros Hc Hb. assert (b ∈ (collect judge (table_values env t m)).1) as H by by rewrite Hc.
  apply elem_of_collect in H as (a & [k Hk]%elem_of_table_values & Hj). eauto.
Qed.

Lemma sends_now_bind {B} P (k : Z → LM Value W B) l :
  sends P (k (clock (ls_envs l 0) 0)) (ls_skip_env l) → sends P (now_ms ≫= k) l.
Proof. intros H. apply sends_bind; [by apply sends_none |]. by intros a l' [= <- <-]. Qed.

Lemma sends_ret_bind {A B} P (a : A) (k : A → LM Value W B) l :
  sends P (k a) l → sends P (mret a ≫= k) l.
Proof. done. Qed.

(** The entry that a deletion is for. *)
Ltac judged H := first
  [apply judged_job in H | apply judged_agents_job in H | apply judged_run in H
  | apply judged_worker in H | apply judged_cron in H | apply judged_session in H].
Ltac spared :=
  match goal with
  | Hc : collect _ _ = _, Hx : _ ∈ _ |- _ =>
      destruct (collected _ _ _ _ _ _ _ Hc Hx) as (? & ? & ? & Hj); judged Hj; simpl; naive_solver
  end.

Lemma spares_jobs flags failed orphans l :
  sends (deletes_ended (ls_view l)) (handle_job_prune flags failed orphans) l.
Proof.
  unfold handle_job_prune, prune_orphans. apply sends_now_bind.
  destruct (_ || negb orphans).
  - apply sends_lock. change (ls_view (ls_skip_env l)) with (ls_view l). sends_auto; spared.
  - apply sends_ret_bind. sends_auto; set_solver.
Qed.

Lemma spares_agents flags l : sends (deletes_ended (ls_view l)) (handle_agent_prune flags) l.
Proof.
  unfold handle_agent_prune, agents_to_prune. apply sends_now_bind, sends_lock.
  change (ls_view (ls_skip_env l)) with (ls_view l).
  destruct (collect (judge_agents_job _ _) _) as [js skipped] eqn:Hjs.
  destruct (collect (judge_agent_run _ _) _) as [runs skipped'] eqn:Hruns.
  sends_auto; spared.
Qed.

Lemma spares_workers flags l : sends (deletes_ended (ls_view l)) (handle_worker_prune flags) l.
Proof. unfold handle_worker_prune. apply sends_lock. sends_auto; spared. Qed.

Lemma spares_crons flags l : sends (deletes_ended (ls_view l)) (handle_cron_prune flags) l.
Proof. unfold handle_cron_prune. apply sends_lock. sends_auto; spared. Qed.

Lemma spares_sessions flags l : sends (deletes_ended (ls_view l)) (handle_session_prune flags) l.
Proof.
  unfold handle_session_prune. apply sends_now_bind, sends_lock.
  change (ls_view (ls_skip_env l)) with (ls_view l). sends_auto; spared.
Qed.
End Prunes.

(** ** The prunes of entities of the state *)

Definition prunes_state {Value} (r : Request Value) : bool :=
  match r with
  | Req_JobPrune _ _ _ _ _ | Req_AgentPrune _ _ | Req_WorkerPrune _ _ _ | Req_CronPrune _ _
  | Req_SessionPrune _ _ _ => true
  | _ => false
  end.

Section Requests.
Context {Value W : Type} `{RIO : !RuntimeIO Value W} `{LIO : !ListenIO W} `{CIO : !CronIO W}.
Context `{FL : !Files W} `{EC : !Codec (Event Value)} `{HO : !HashOrder} `{JI : !JsonItem Value}.
Implicit Types (l : Listen Value W).

(** C16. A prune deletes only what has ended: the jobs, agent runs, workers,
    crons and sessions it deletes are, in the state that the prune sees, jobs
    and runs that are terminal, workers and crons that are stopped, and
    sessions of no live owner, with all flags, and also when the log fails
    midway.  It sends no other events. *)
Theorem prune_spares_the_live (r : Request Value) l :
  prunes_state r = true →
  ∃ evs, ls_wal (handle_request r l).2 = send_all evs (ls_wal l) ∧
         Forall (deletes_ended (ls_view l)) evs.
Proof.
  intros Hr. assert (sends (deletes_ended (ls_view l)) (handle_request r) l) as H;
    [| by eapply H, surjective_pairing].
  destruct r; try done; simpl;
    auto using spares_jobs, spares_agents, spares_workers, spares_crons, spares_sessions.
Qed.

(** ** Dry runs *)

(** The same prune without its effects. *)
Definition dry (r : Request Value) : option (Request Value) :=
  match r with
  | Req_JobPrune all failed orphans _ ns => Some (Req_JobPrune all failed orphans true ns)
  | Req_AgentPrune all _ => Some (Req_AgentPrune all true)
  | Req_WorkspacePrune all _ ns => Some (Req_WorkspacePrune all true ns)
  | Req_WorkerPrune all _ ns => Some (Req_WorkerPrune all true ns)
  | Req_CronPrune all _ => Some (Req_CronPrune all true)
  | Req_SessionPrune all _ ns => Some (Req_SessionPrune all true ns)
  | Req_QueuePrune root ns name all _ => Some (Req_QueuePrune root ns name all true)
  | _ => None
  end.

(** The second operation answers what the first one does when it succeeds. *)
Definition previews {A} (m m' : LM Value W A) l : Prop :=
  ∀ a l', m l = (inr a, l') → (m' l).1 = inr a.

Lemma previews_bind {A B} (m : LM Value W A) (k k' : A → LM Value W B) l :
  (∀ a l', m l = (inr a, l') → previews (k a) (k' a) l') → previews (m ≫= k) (m ≫= k') l.
Proof.
  intros H b l' (a & l1 & E & Hk)%bind_answers. unfold mbind, lm_bind. rewrite E. by eapply H.
Qed.

Lemma previews_same {A} (m : LM Value W A) l : previews m m l.
Proof. intros a l' E. by rewrite E. Qed.

(** The effects are before the answer. *)
Lemma previews_skip {A} (m : LM Value W unit) (a : A) l : previews (m;; mret a) (mret tt;; mret a) l.
Proof. intros b l' ([] & l1 & _ & [= <- <-])%bind_answers. done. Qed.

Lemma previews_if {A} (b : bool) (m : LM Value W unit) (a : A) l :
  previews ((if b then mret tt else m);; mret a) (mret tt;; mret a) l.
Proof. destruct b; [apply previews_same | apply previews_skip]. Qed.

(** Deleting does not touch the orphans. *)
Lemma each_do_orphans {A} (f : A → LM Value W unit) xs l l' :
  (∀ x l1 l2, f x l1 = (inr tt, l2) → ls_orphans l2 = ls_orphans l1) →
  each_do f xs l = (inr tt, l') → ls_orphans l' = ls_orphans l.
Proof.
  intros H. revert l. induction xs as [|x xs IH]; intros l; simpl; [by intros [= <-] |].
  intros ([] & l1 & E & E')%bind_answers. rewrite (IH _ E'). by eapply H.
Qed.

Lemma previews_jobs flags failed orphans l :
  previews (handle_job_prune flags failed orphans)
    (handle_job_prune (mkPruneFlags (prune_all flags) true (prune_namespace flags)) failed orphans) l.
Proof.
  unfold handle_job_prune. simpl. apply previews_bind. intros now l1 _. apply previews_bind.
  intros [to_prune skipped] l2 _ resp l' H. apply bind_answers in H as ([] & l3 & Hdel & H).
  apply bind_answers in H as (orphaned & l4 & Horph & [= <- <-]).
  assert (ls_orphans l3 = ls_orphans l2) as Hsame.
  { destruct (prune_dry_run flags); [by injection Hdel as <- |].
    revert Hdel. apply each_do_orphans. intros e la lb ([] & lc & ->%emit_ok & [= <-])%bind_answers. done. }
  destruct orphans; [| by injection Horph as <- <-].
  unfold prune_orphans in *. apply bind_answers in Horph as (os & l5 & [= <- <-] & H).
  apply bind_answers in H as ([] & l6 & _ & [= <- <-]). simpl. unfold mbind, lm_bind. simpl. by rewrite Hsame.
Qed.

(** A prune that reads, then deletes unless dry, then answers. *)
Ltac preview :=
  repeat first
    [ apply previews_if
    | apply previews_same
    | apply previews_bind; intros ? ? _
    | match goal with |- previews (let '(_, _) := ?x in _) _ _ => destruct x end
    | match goal with |- previews (match ?x with _ => _ end) _ _ => destruct x end ].

Lemma previews_queue root ns name all dry_run l :
  previews (handle_queue_prune root ns name all dry_run) (handle_queue_prune root ns name all true) l.
Proof.
  unfold handle_queue_prune, with_persisted_queue, with_queue, or_return, or_answer. preview.
Qed.

(** C35. A dry run shows what the prune would do: for every kind of prune, when
    the real one succeeds, the dry run on the same state answers the same. *)
Theorem dry_run_previews (r r' : Request Value) l resp l' :
  dry r = Some r' → handle_request r l = (inr resp, l') →
  (handle_request r' l).1 = inr resp.
Proof.
  intros Hr. revert resp l'. change (previews (handle_request r) (handle_request r') l).
  destruct r; simplify_eq/=;
    try solve [apply (previews_jobs (mkPruneFlags _ _ _)) | apply previews_queue];
    unfold handle_agent_prune, handle_worker_prune, handle_cron_prune, handle_session_prune,
      handle_workspace_prune, workspace_prune_inner; simpl; preview.
Qed.
End Requests.

(** ** Witnesses *)

#[local] Existing Instances quiet_io quiet_listen quiet_crons no_files name_codec plain_order object_json.

Definition job_at (id step : string) : Job :=
  Job_new_with_epoch_ms (env_at 0) (builder_build (JobConfig_builder id "build" step)) 0.

(** A job that has ended and one that has not. *)
Definition ended_listen : Listen unit unit :=
  sample_listen
    (upd_jobs (λ _, {["d" := job_at "d" "done"; "j" := job_at "j" "test"]})
       MaterializedState_default) [].

Definition sample_prune : Request unit := Req_JobPrune true false false false None.

Lemma prune_spares_the_live_witness :
  prunes_state sample_prune = true ∧
  (handle_request sample_prune ended_listen).1 = inr (Resp_JobsPruned [mkJobEntry "d" "d" "done"] 1) ∧
  ∃ evs, ls_wal (handle_request sample_prune ended_listen).2 = send_all evs (ls_wal ended_listen) ∧
         Forall (deletes_ended (ls_view ended_listen)) evs.
Proof.
  split; [reflexivity |]. split; [vm_compute; reflexivity |].
  apply (prune_spares_the_live sample_prune ended_listen). reflexivity.
Defined.

Lemma dry_run_previews_witness :
  (handle_request (Req_JobPrune (Value:=unit) true false false true None) ended_listen).1 =
    inr (Resp_JobsPruned [mkJobEntry "d" "d" "done"] 1).
Proof.
  apply (dry_run_previews sample_prune _ ended_listen _ (handle_request sample_prune ended_listen).2).
  - reflexivity.
  - vm_compute. reflexivity.
Defined.

Local Close Scope string_scope.

(** What the answers to a decision do: [decisions.rs] against the options that
    [decision_builder.rs] offers. *)

Local Open Scope string_scope.

(** ** The options *)

(** What an option says it does, from its label. *)
Definition label_action (label : string) : option ResolvedAction :=
  if String.eqb label "Nudge" then Some Nudge
  else if String.eqb label "Done" || String.eqb label "Skip" then Some Complete
  else if String.eqb label "Cancel" then Some Cancel
  else if String.eqb label "Dismiss" then Some Dismiss
  else if String.eqb label "Retry" then Some Retry
  else if String.eqb label "Approve" then Some Approve
  else if String.eqb label "Deny" then Some Deny
  else None.

Definition is_question (t : EscalationTrigger) : bool :=
  match t with Esc_Question _ _ => true | _ => false end.

(** The action that choice [c] of the options of an escalation stands for: an
    answer is given to a question by every option but the last, which cancels. *)
Definition promised (t : EscalationTrigger) (c : nat) : option ResolvedAction :=
  if is_question t then
    if (c <? length (build_options t))%nat then Some Answer else Some Cancel
  else build_options t !! (c - 1) ≫= λ o, label_action (option_label o).

(** C18. The two ends of an escalation agree.  Whatever escalated, the choice of
    an option that was offered is resolved to the action of its label; in a
    question every option of the agent is an answer and the last one, added by
    the builder, cancels, also when the agent's options have such labels. *)
Theorem choices_mean_their_options (t : EscalationTrigger) (c : nat) :
  (1 ≤ c ≤ length (build_options t))%nat →
  Some (resolve_decision_action (to_source t) (Some (N.of_nat c)) (build_options t)) = promised t c.
Proof.
  intros Hc. unfold promised. destruct (is_question t) eqn:Hq.
  - destruct t; try done. unfold to_source, resolve_decision_action.
    destruct (N.eqb_spec (N.of_nat c) (N.of_nat (length (build_options (Esc_Question question_data assistant_context)))));
      destruct (Nat.ltb_spec c (length (build_options (Esc_Question question_data assistant_context))));
      (done || lia).
  - destruct t; try done; simpl in *;
      (do 5 (destruct c as [|c]; [try lia; reflexivity |]); lia).
Qed.

Lemma choices_mean_their_options_witness :
  Some (resolve_decision_action Source_Idle (Some 2%N) (build_options (Esc_Idle None))) = Some Complete.
Proof. apply (choices_mean_their_options (Esc_Idle None) 2). simpl. lia. Defined.

(** Queues: a push does not repeat an item that is waiting, and a retry
    accounts for every item it was asked about. *)

Local Open Scope string_scope.

(** An item found by its id or by a prefix. *)
Lemma resolve_item_spec queue wanted items id :
  resolve_item queue wanted items = inr id →
  (∃ i, i ∈ items ∧ item_id i = id) ∧
  (id = wanted ∨
   (∀ i, i ∈ items → item_id i ≠ wanted) ∧ starts_with wanted id = true ∧
   ∀ i, i ∈ items → starts_with wanted (item_id i) = true → item_id i = id).
Proof.
  unfold resolve_item. destruct (List.find _ items) as [i|] eqn:Hf.
  - intros [= <-]. apply find_some in Hf as [Hi%list_elem_of_In Heq%String.eqb_eq]. eauto.
  - destruct (List.filter _ items) as [|i [|]] eqn:Hp; [done | | done]. intros [= <-].
    assert (∀ k, k ∈ items → starts_with wanted (item_id k) = true → k = i) as Honly.
    { intros k Hk%list_elem_of_In Hs. assert (In k [i]) as [<-|[]]; [| done].
      rewrite <- Hp. by apply (filter_In (λ i, starts_with wanted (item_id i))). }
    assert (In i items ∧ starts_with wanted (item_id i) = true) as [Hi Hs].
    { apply (filter_In (λ i, starts_with wanted (item_id i))). rewrite Hp. by left. }
    split; [exists i; by rewrite list_elem_of_In |]. right. split_and!; [| done | naive_solver].
    intros k Hk%list_elem_of_In Heq. pose proof (find_none _ _ Hf k Hk) as Hn. simpl in Hn.
    by rewrite Heq, String.eqb_refl in Hn.
Qed.

(** The same data again, after the push has been applied. *)
Lemma pushed_item_found {Value} env (s : MaterializedState Value) ns queue id data now :
  same_item data (items_of s ns queue) = None →
  (∀ i, i ∈ items_of s ns queue → item_id i ≠ id) →
  same_item data (items_of (apply_event env (QueuePushed queue id data now ns) s) ns queue) = Some id.
Proof.
  intros Hnone Hfresh. unfold items_of in *. simpl. unfold apply_QueuePushed. simpl.
  rewrite lookup_insert_eq. simpl.
  destruct (existsb _ _) eqn:He.
  { apply existsb_exists in He as (i & Hi%list_elem_of_In & Heq%String.eqb_eq). by destruct (Hfresh i Hi). }
  unfold same_item in *. revert Hnone.
  generalize (default [] (queue_items s !! scoped_name ns queue)) as items.
  intros items. induction items as [|i items IH]; simpl; [by rewrite bool_decide_eq_true_2 |].
  destruct (item_has _ i && _); [done | exact IH].
Qed.

Section Push.
Context {Value W : Type} `{RIO : !RuntimeIO Value W} `{LIO : !ListenIO W} `{CIO : !CronIO W}.
Context `{FL : !Files W} `{EC : !Codec (Event Value)} `{HO : !HashOrder} `{JI : !JsonItem Value}.
Implicit Types (l : Listen Value W).

Lemma wake_sends root ns queue rb l l' :
  wake_attached_workers root ns queue rb l = (inr tt, l') →
  ∃ evs, ls_wal l' = send_all evs (ls_wal l) ∧ Forall (starts_worker (Value:=Value) ns) evs.
Proof. intros E. by apply (sends_wake root ns queue rb l (inr tt)). Qed.

(** The state as the [i]-th lock from here on finds it. *)
Fixpoint seen (i : nat) l : MaterializedState Value :=
  match i with O => ls_view l | S i => seen i (ls_locked l) end.

Lemma seen_same i l1 l2 : ls_engine l1 = ls_engine l2 → ls_state l1 = ls_state l2 → seen i l1 = seen i l2.
Proof.
  revert l1 l2. induction i as [|i IH]; intros l1 l2 He Hs; simpl.
  - unfold ls_view. by rewrite He, Hs.
  - apply IH; unfold ls_locked, ls_view; simpl; by rewrite He, ?Hs.
Qed.

(** What is sent to wake a worker that runs, or to start one that does not. *)
Definition wake_events root ns rb (running : bool) (nw : string * WorkerDef) : list (Event Value) :=
  if running then [WorkerWake nw.1 ns]
  else match hash_runbook rb with
       | inr (json, hash) => [RunbookLoaded hash 1 json; worker_started_event nw.1 root hash nw.2 ns]
       | inl _ => []
       end.

Lemma wake_worker_sends root ns rb nw l l' :
  wake_worker root ns rb nw l = (inr tt, l') →
  ls_wal l' = send_all (wake_events root ns rb (worker_running (ls_view l) (scoped_name ns nw.1)) nw) (ls_wal l) ∧
  ∀ i, seen i l' = seen (S i) l.
Proof.
  unfold wake_worker, wake_events. intros (running & l1 & [= <- <-] & H)%bind_answers.
  destruct (worker_running _ _).
  - apply emit_ok in H as ->. split; [done |]. intros i. by apply (seen_same i _ (ls_locked l)).
  - apply bind_answers in H as (hash & l2 & H & ->%emit_ok). unfold hash_and_emit_runbook in H.
    destruct (hash_runbook rb) as [e|[json h]]; [done |].
    apply bind_answers in H as ([] & l3 & ->%emit_ok & [= <- <-]). split; [done |].
    intros i. by apply (seen_same i _ (ls_locked l)).
Qed.

Lemma wake_all_sends root ns rb nws : ∀ l l',
  each_do (wake_worker root ns rb) nws l = (inr tt, l') →
  ls_wal l' = send_all (concat (imap (λ i nw,
    wake_events root ns rb (worker_running (seen i l) (scoped_name ns nw.1)) nw) nws)) (ls_wal l).
Proof.
  induction nws as [|nw nws IH]; intros l l'; simpl; [by intros [= <-] |].
  intros ([] & l1 & [Hw Hseen]%wake_worker_sends & H)%bind_answers. apply IH in H.
  rewrite H, Hw, <-send_all_app. do 2 f_equal. f_equal. apply imap_ext. intros i x _. simpl.
  by rewrite Hseen.
Qed.

(** C17. A push that succeeds does not repeat an item.  When the queue, as the
    push sees it, has a pending or active item with the same data, the answer
    is its id and nothing is pushed; otherwise the answer is a fresh id, the
    item is pushed under it, and on every state where the id is new, once the
    push is applied, the same data is found under that id.  In both cases every
    worker of the runbook that takes from the queue is woken after it, if it runs
    in the state as the push then finds it, and is otherwise started, by loading
    the runbook and starting the worker; and nothing else is sent. *)
Theorem push_deduplicates root ns queue rb data l resp l' :
  push_new_item root ns queue rb data l = (inr resp, l') →
  ∃ pushed,
    ls_wal l' = send_all (pushed ++ concat (imap (λ i nw,
        wake_events root ns rb (worker_running (seen (S i) l) (scoped_name ns nw.1)) nw)
        (attached_workers queue rb))) (ls_wal l) ∧
    match same_item data (items_of (ls_view l) ns queue) with
    | Some id => resp = Resp_QueuePushed queue id ∧ pushed = []
    | None =>
        resp = Resp_QueuePushed queue (ls_ids l 0) ∧
        ∃ ev, pushed = [ev] ∧
          ∀ env s, same_item data (items_of s ns queue) = None →
            (∀ i, i ∈ items_of s ns queue → item_id i ≠ ls_ids l 0) →
            same_item data (items_of (apply_event env ev s) ns queue) = Some (ls_ids l 0)
    end.
Proof.
  unfold push_new_item. intros (o & l1 & [= <- <-] & H)%bind_answers.
  destruct (same_item data _) as [id|].
  - apply bind_answers in H as ([] & l2 & Hw%wake_all_sends & [= <- <-]).
    exists []. by split_and!.
  - apply bind_answers in H as (id & l2 & [= <- <-] & H).
    apply bind_answers in H as (now & l3 & [= <- <-] & H).
    apply bind_answers in H as ([] & l4 & ->%emit_ok & H).
    apply bind_answers in H as ([] & l5 & Hw%wake_all_sends & [= <- <-]).
    eexists [_]. split_and!.
    + rewrite Hw. cbn [app send_all]. f_equal. f_equal. apply imap_ext. intros i nw _. simpl.
      by rewrite (seen_same i _ (ls_locked l)).
    + done.
    + eexists. split; [reflexivity |]. intros env s. apply pushed_item_found.
Qed.

(** ** Retries *)

Lemma retry_each_ok ns queue wanted retried already missing l r a m l' :
  retry_each ns queue wanted retried already missing l = (inr (r, a, m), l') →
  ∃ ids, r = (retried ++ ids)%list ∧
    ls_wal l' = send_all ((λ id, QueueItemRetry queue id ns) <$> ids) (ls_wal l) ∧
    length r + length a + length m
      = length retried + length already + length missing + length wanted.
Proof.
  revert retried already missing l.
  induction wanted as [|w wanted IH]; intros retried already missing l; simpl.
  - intros [= <- <- <- <-]. exists []. rewrite app_nil_r. split_and!; [done | done | lia].
  - intros (x & l1 & Hx & H)%bind_answers.
    assert (ls_wal l1 = ls_wal l) as Hw1.
    { destruct (sends_resolve (λ _, False) ns queue w l _ _ Hx) as ([|ev evs] & Hw & HF); [done |].
      by apply Forall_cons in HF as [[] _]. }
    destruct x as [resp|id].
    { apply IH in H as (ids & -> & Hw & Hlen). exists ids. rewrite Hw1 in Hw.
      split_and!; [done | done | rewrite ?length_app in *; simpl in *; lia]. }
    apply bind_answers in H as (st & l2 & [= _ <-] & H). change (ls_wal l1) with (ls_wal (ls_locked l1)) in Hw1.
    destruct st as [[]|].
    4, 5: apply bind_answers in H as ([] & l3 & ->%emit_ok & H);
      apply IH in H as (ids & -> & Hw & Hlen); exists (id :: ids); simpl in Hw;
      rewrite <- app_assoc in *; simpl in *;
      rewrite Hw1 in Hw; (split_and!; [done | done | rewrite ?length_app in *; simpl in *; lia]).
    all: apply IH in H as (ids & -> & Hw & Hlen); exists ids; rewrite Hw1 in Hw;
      (split_and!; [done | done | rewrite ?length_app in *; simpl in *; lia]).
Qed.

(** A retry of several items that succeeds accounts for every one of them:
    the retried ones, those in another status and those not found are as many
    as were asked for, and exactly the retried ones are sent to the log, in
    their order, before any worker is woken. *)
Theorem retry_accounts_for_all root ns queue wanted rb l retried already missing l' :
  retry_many root ns queue wanted rb l = (inr (Resp_QueueItemsRetried queue retried already missing), l') →
  length retried + length already + length missing = length wanted ∧
  ∃ woken, Forall (starts_worker (Value:=Value) ns) woken ∧
    ls_wal l' = send_all (((λ id, QueueItemRetry queue id ns) <$> retried) ++ woken) (ls_wal l).
Proof.
  unfold retry_many. intros ([[r a] m] & l1 & (ids & -> & Hw & Hlen)%retry_each_ok & H)%bind_answers.
  apply bind_answers in H as ([] & l2 & Hwake & [= <- <- <- <-]). simpl in *. split; [lia |].
  destruct ids as [|id ids].
  - injection Hwake as <-. by exists [].
  - apply wake_sends in Hwake as (woken & Hw2 & HF). exists woken. split; [done |].
    by rewrite send_all_app, <- Hw.
Qed.
End Push.

(** ** Witnesses *)

#[local] Existing Instances quiet_io quiet_listen quiet_crons no_files name_codec plain_order object_json.

(** A queue with a dead item, a pending one, and one that another client took. *)
Definition queue_listen : Listen unit unit :=
  sample_listen
    (upd_queue_items (λ _,
       {["issues" := [mkQueueItem "a1" "issues" ∅ Item_Dead None 0 2;
                      mkQueueItem "b1" "issues" {["title" := "none"]} Item_Pending None 0 0]]})
       MaterializedState_default) [].

Definition sample_data : gmap string string := {["title" := "none"]}.

Lemma push_deduplicates_witness :
  ls_wal (push_new_item "/p" "" "issues" queue_runbook sample_data queue_listen).2
  = send_all (concat (imap (λ i nw,
      wake_events "/p" "" queue_runbook
        (worker_running (seen (S i) queue_listen) (scoped_name "" nw.1)) nw)
      (attached_workers "issues" queue_runbook))) (ls_wal queue_listen).
Proof.
  destruct (push_deduplicates "/p" "" "issues" queue_runbook sample_data queue_listen
    (Resp_QueuePushed "issues" "b1")
    (push_new_item "/p" "" "issues" queue_runbook sample_data queue_listen).2) as (pushed & Hw & _ & Hp).
  - vm_compute. reflexivity.
  - rewrite Hw, Hp. reflexivity.
Defined.

Lemma retry_accounts_for_all_witness :
  length ["a1"] + length ["b1"] + length ["c"] = length ["a"; "b1"; "c"] ∧
  ∃ woken, Forall (starts_worker (Value:=unit) "") woken ∧
    ls_wal (retry_many "/p" "" "issues" ["a"; "b1"; "c"] queue_runbook queue_listen).2
      = send_all (((λ id, QueueItemRetry "issues" id "") <$> ["a1"]) ++ woken) (ls_wal queue_listen).
Proof.
  apply (retry_accounts_for_all "/p" "" "issues" ["a"; "b1"; "c"] queue_runbook queue_listen).
  vm_compute. reflexivity.
Defined.

Local Close Scope string_scope.
