(* ===== verification/RestartSpec.v ===== *)
(** A job that was lost is found by its breadcrumb, shown, and rebuilt; an agent
    that died while the daemon was down is heard of. *)

From S2P Require Import Prelude Ids Runbook Bytes Vars Slug Entities Job Timer Event State RunbookImport.
From S2P Require Import RunbookFind Scheduler Effect Executor Runtime WorkerQueue DecisionBuilder JobRun.
From S2P Require Import JobRunSpec JobCreate Monitor AgentRuns JobAgents AgentHandlers Cron HandleEvent.
From S2P Require Import RuntimeWitness EventSpec Wal Engine Protocol Breadcrumb Suggest Listener.
From S2P Require Import Mutations Query Reconcile ListenRequest.

Local Open Scope string_scope.

(** The status a breadcrumb carries reads back as the kind of the status. *)
Lemma status_kind_roundtrip st :
  parse_step_status_kind (StepStatus_display st) = StepStatusKind_from st.
Proof. by destruct st. Qed.

(** What is kept of a job in its breadcrumb. *)
Definition same_job (j j' : Job) : Prop :=
  job_id j' = job_id j ∧ job_kind j' = job_kind j ∧ job_name j' = job_name j ∧
  job_namespace j' = job_namespace j ∧ job_vars j' = job_vars j ∧
  job_runbook_hash j' = job_runbook_hash j ∧ job_cwd j' = job_cwd j.

(** ** The lists of jobs *)

(** A lost job is shown as it was when its breadcrumb was written: the list
    of jobs has it as orphaned at its step, with the time of the breadcrumb to
    the second, and the list of orphans tells the status of its step.  Reading
    the breadcrumb's date never panics, up to the end of the year 9999. *)
Theorem orphan_shown dir (secs : Z) (j : Job) :
  (0 ≤ secs)%Z → ((days_to_civil (secs / 86400)).1.1 < 10000)%Z →
  let bc := build_breadcrumb dir secs j in
  orphan_job bc =
    Some (mkJobSummary (job_id j) (job_name j) (job_kind j) (job_step j) Kind_Orphaned
            (secs * 1000) (secs * 1000) (job_namespace j) 0) ∧
  os_step_status (orphan_summary bc) = StepStatusKind_from (job_step_status j) ∧
  (oa_agent_id <$> os_agents (orphan_summary bc)) = omap step_agent_id (job_step_history j).
Proof.
  intros Hs Hy bc. split_and!.
  - unfold orphan_job. change (bc_updated_at bc) with (format_utc secs).
    rewrite timestamp_roundtrip by done. reflexivity.
  - apply status_kind_roundtrip.
  - unfold orphan_summary. cbn [os_agents bc bc_agents build_breadcrumb]. unfold breadcrumb_agents.
    induction (job_step_history j) as [|r h IH]; [done |]. cbn.
    destruct (step_agent_id r); cbn; [by f_equal | done].
Qed.

Lemma orphan_shown_witness :
  let j := Job_new_with_epoch_ms (env_at 0) (builder_build (JobConfig_builder "j" "build" "test")) 0 in
  ((days_to_civil (1700000000 / 86400)).1.1 < 10000)%Z ∧
  js_updated_at_ms <$> orphan_job (build_breadcrumb "logs" 1700000000 j) = Some 1700000000000%Z.
Proof.
  set (j := Job_new_with_epoch_ms _ _ _). split; [vm_compute; reflexivity |].
  destruct (orphan_shown "logs" 1700000000 j) as [-> _]; [lia | vm_compute; reflexivity | reflexivity].
Defined.

(** ** Resumption *)

Section Rebuild.
Context {Value : Type}.
Implicit Types (s : MaterializedState Value).

(** The job that the events of [rebuild_orphan] leave. *)
Lemma rebuilt_job dir now (j : Job) env1 env2 s :
  job_step j ≠ "failed" →
  ∃ j', jobs (replay (zip [env1; env2] (rebuild_orphan (build_breadcrumb dir now j))) s)
          !! job_id j = Some j' ∧
        same_job j j' ∧ job_step j' = "failed" ∧ last_failed_step j' = Some (job_step j) ∧
        job_session_id j' = None ∧ job_workspace_path j' = None.
Proof.
  intros Hstep. unfold rebuild_orphan, build_breadcrumb. simpl.
  unfold apply_JobCreated, apply_JobAdvanced. simpl. rewrite lookup_insert_eq.
  unfold advance_skips. simpl. rewrite (proj2 (String.eqb_neq _ _)) by done. simpl.
  rewrite lookup_insert_eq. eexists. split; [reflexivity |].
  unfold enter_step, same_job, last_failed_step. simpl.
  by destruct (Job_is_terminal _).
Qed.
End Rebuild.

Section Resume.
Context {Value W : Type} `{AD : !Adapters Value W} `{RIO : !RuntimeIO Value W} `{JI : !JsonItem Value}
  `{TR : !TemplateRegex} `{JB : !JsonBuild Value} `{AI : !AgentIO W} `{SI : !SpawnIO W}
  `{EC : !Codec (Event Value)}.
Abbreviation L := (Listen Value W) (only parsing).
Implicit Types (l : L) (r : Rt Value W).

(** A job at [failed] is resumed at the step of its last failure. *)
Lemma resumed_at_last_failure id (j : Job) step message vars kill r evs r' :
  get_job (rt_state r) id = Some j → job_step j = "failed" → last_failed_step j = Some step →
  AgentHandlers.handle_job_resume id message vars kill r = (inr evs, r') →
  ∃ rest, evs = JobAdvanced id step :: rest.
Proof.
  intros Hj Hstep Hlast. unfold AgentHandlers.handle_job_resume, require_job.
  intros (job & r1 & H1 & H)%bind_inr. apply bind_inr in H1 as (o & r2 & [= <- <-] & H1).
  rewrite Hj in H1. injection H1 as <- <-. cbv zeta in H. rewrite Hstep, Hlast in H.
  apply bind_inr in H as (st & r3 & Hst & H). injection Hst as <- <-.
  apply bind_inr in H as (rb & r4 & _ & H). apply bind_inr in H as (def & r5 & _ & H).
  apply bind_inr in H as (sd & r6 & _ & H). apply bind_inr in H as (msg & r7 & _ & H).
  apply bind_inr in H as (reset & r8 & Hreset & H).
  assert (reset = [JobAdvanced id step]) as -> by (by injection Hreset).
  apply bind_inr in H as (u & r9 & _ & H). apply bind_inr in H as (events & r10 & _ & H).
  injection H as <- <-. by exists events.
Qed.

Lemma remove_orphan_found id pre bc post :
  bc_job_id bc = id → Forall (λ b, bc_job_id b ≠ id) pre →
  remove_orphan id (pre ++ bc :: post)%list = (pre ++ post)%list.
Proof.
  intros Hid. induction 1 as [|b pre Hb Hpre IH]; simpl.
  - by rewrite Hid, String.eqb_refl.
  - rewrite (proj2 (String.eqb_neq _ _) Hb). by f_equal.
Qed.

Lemma find_first {A} (p : A → bool) pre x post :
  Forall (λ a, p a = false) pre → p x = true → List.find p (pre ++ x :: post)%list = Some x.
Proof. intros Hp Hx. induction Hp as [|a pre Ha Hp IH]; simpl; [by rewrite Hx | by rewrite Ha]. Qed.

(** C15. A lost job comes back from its breadcrumb.  A request to resume, by the id
    of the job or a prefix of it, whose job is not in the state and for which the
    job is the first match among the orphans, and which succeeds, has logged
    three events; replayed, in any environments and on any state, the first two
    give a job with the id, kind, name, project, variables, runbook and directory
    of the lost one, at [failed], whose last failed step is the step it was lost
    at.  An engine with this state that handles the third, if it succeeds, first
    moves the job back to that step.  The workspace and the session are not
    restored.  This breadcrumb, and no other, is no longer an orphan.  It takes
    that the job was not lost at [failed]. *)
Theorem orphan_resumed dir secs (j : Job) id message vars kill pre post l l' :
  job_step j ≠ "failed" →
  get_job (ls_view l) id = None →
  ls_orphans l = (pre ++ build_breadcrumb dir secs j :: post)%list →
  id_matches id (job_id j) = true → Forall (λ bc, id_matches id (bc_job_id bc) = false) pre →
  Mutations.handle_job_resume id message vars kill l = (inr Resp_Ok, l') →
  ∃ created advanced,
    ls_wal l' = send_all [created; advanced; JobResume (job_id j) message vars kill] (ls_wal l) ∧
    ls_orphans l' = (pre ++ post)%list ∧
    ∀ env1 env2 s, ∃ j',
      let s' := replay [(env1, created); (env2, advanced)] s in
      jobs s' !! job_id j = Some j' ∧
      same_job j j' ∧ job_step j' = "failed" ∧ last_failed_step j' = Some (job_step j) ∧
      job_session_id j' = None ∧ job_workspace_path j' = None ∧
      ∀ r evs r', rt_state r = s' →
        AgentHandlers.handle_job_resume (job_id j) message vars kill r = (inr evs, r') →
        ∃ rest, evs = JobAdvanced (job_id j) (job_step j) :: rest.
Proof.
  intros Hstep Hjob Horphans Hmatch Hpre. unfold Mutations.handle_job_resume.
  intros (info & l1 & [= <- <-] & H)%bind_answers. rewrite Hjob in H. simpl in H.
  unfold resume_orphan in H. apply bind_answers in H as (os & l2 & [= <- <-] & H).
  unfold ls_locked in H. cbn [ls_orphans] in H.
  rewrite Horphans, find_first in H by done. simpl in H.
  destruct (is_empty (job_runbook_hash j)); [done |].
  apply bind_answers in H as (av & l3 & [= <- <-] & H). destruct (is_some _); simpl in H; [| done].
  apply bind_answers in H as ([] & l4 & Hemit%emit_all_ok & H). subst l4.
  apply bind_answers in H as (os & l5 & [= <- <-] & H). simpl in H.
  apply bind_answers in H as ([] & l6 & [= <-] & [= <-]).
  eexists _, _. split; [reflexivity |]. split.
  { cbn in Horphans |- *. rewrite ?Horphans. apply remove_orphan_found; [done |].
    eapply Forall_impl; [exact Hpre |]. cbv beta. intros b Hb Heq. rewrite Heq in Hb. congruence. }
  intros env1 env2 s. destruct (rebuilt_job dir secs j env1 env2 s Hstep) as (j' & Hj' & H).
  exists j'. cbv zeta. split; [exact Hj' |]. destruct H as (Hs & Hf & Hl & Hn & Hw).
  split_and!; try done. intros r evs r' Hr. apply (resumed_at_last_failure _ j'); [| done..].
  assert (jobs (rt_state r) !! job_id j = Some j') as Hr' by (rewrite Hr; exact Hj').
  unfold get_job, get_by_prefix. by rewrite Hr'.
Qed.
End Resume.

#[local] Existing Instances quiet_io name_codec.

Definition lost_job : Job :=
  Job_new_with_epoch_ms (env_at 0)
    (builder_build (builder_set_runbook_hash "hash" (JobConfig_builder "j" "build" "test"))) 0.

Definition other_lost : Job :=
  Job_new_with_epoch_ms (env_at 0)
    (builder_build (builder_set_runbook_hash "hash" (JobConfig_builder "k" "build" "test"))) 0.

Definition two_lost : Listen unit unit :=
  sample_listen (upd_runbooks <[("hash" : string) := mkStoredRunbook unit 1%Z tt]> MaterializedState_default)
    [build_breadcrumb "/logs" 0 other_lost; build_breadcrumb "/logs" 0 lost_job].

Lemma orphan_resumed_witness :
  (Mutations.handle_job_resume "j" None ∅ false two_lost).1 = inr Resp_Ok ∧
  ∃ created advanced,
    ls_wal (Mutations.handle_job_resume "j" None ∅ false two_lost).2 =
      send_all [created; advanced; JobResume "j" None ∅ false] (ls_wal two_lost) ∧
    ls_orphans (Mutations.handle_job_resume "j" None ∅ false two_lost).2
    = [build_breadcrumb "/logs" 0 other_lost] ∧
    ∀ env1 env2 s, ∃ j',
      jobs (replay [(env1, created); (env2, advanced)] s) !! "j" = Some j' ∧
      last_failed_step j' = Some "test".
Proof.
  split; [vm_compute; reflexivity |].
  destruct (orphan_resumed (AD := quiet_adapters) (JI := unit_json) (TR := no_regex) (JB := unit_build)
    (AI := quiet_agents) (SI := quiet_spawns) "/logs" 0 lost_job "j" None ∅ false
    [build_breadcrumb "/logs" 0 other_lost] [] two_lost
    (Mutations.handle_job_resume "j" None ∅ false two_lost).2)
    as (created & advanced & Hw & Ho & H).
  - discriminate.
  - reflexivity.
  - reflexivity.
  - reflexivity.
  - by repeat constructor.
  - vm_compute. reflexivity.
  - exists created, advanced. split; [exact Hw |]. split; [exact Ho |]. intros env1 env2 s.
    destruct (H env1 env2 s) as (j' & Hj & _ & _ & Hl & _). by exists j'.
Defined.

Local Close Scope string_scope.

(** What the engine makes of the events of a restart. *)

Local Open Scope string_scope.

(** Both ways of the code to find the agent of the current step agree. *)
Lemma find_last {A} (p : A → bool) (P : A → Prop) `{!∀ a, base.Decision (P a)} l :
  (∀ a, p a = true ↔ P a) → List.find p (rev l) = last (filter P l).
Proof.
  intros Hp. induction l as [|a l IH] using rev_ind; [done |].
  rewrite rev_app_distr, filter_app. simpl. rewrite filter_cons, filter_nil.
  destruct (p a) eqn:E.
  - rewrite decide_True by by apply Hp. by rewrite last_snoc.
  - rewrite decide_False by (rewrite <- Hp, E; done). by rewrite app_nil_r, IH.
Qed.

Lemma current_step_agent_eq (j : Job) : current_step_agent j = step_agent j.
Proof.
  unfold current_step_agent, step_agent. f_equal. apply find_last. intros r. apply String.eqb_eq.
Qed.

Section Heard.
Context {Value W : Type} `{AD : !Adapters Value W} `{RIO : !RuntimeIO Value W} `{JI : !JsonItem Value}
  `{TR : !TemplateRegex} `{PR : !Processes W} `{JB : !JsonBuild Value} `{AI : !AgentIO W}
  `{SI : !SpawnIO W} `{CI : !CronIO W} `{LIO : !ListenIO W}.
Implicit Types (r : Rt Value W).

(** A job that has not ended, with a session and an agent, that the state has. *)
Record watched (j : Job) (session : SessionId) (aid : AgentId) r : Prop := {
  watched_state : jobs (rt_state r) !! job_id j = Some j;
  watched_live : Job_is_terminal j = false;
  watched_session : job_session_id j = Some session;
  watched_agent : current_step_agent j = Some aid
}.

(** What is sent for an agent that is not alive. *)
Definition death_of (l : Liveness) (aid : AgentId) (id : JobId) : Event Value :=
  match l with
  | Session_Dead => AgentGone aid (Owner_Job id)
  | _ => AgentExited aid None (Owner_Job id)
  end.

(** C19. What reconciliation does about an agent that died while the daemon was
    down, for a job that has not ended, with a session and an agent of its
    current step, when the session or the agent's process is gone.  A job that
    waits for a decision is skipped: nothing is sent or registered.  For any
    other job exactly one event of the agent is sent, that it is gone or that it
    has exited, and the agent is registered before: when the event is handled,
    the job is found as its owner, so it is not dropped as stale.  The state is
    not changed. *)
Theorem dead_agent_heard (j : Job) session aid r :
  watched j session aid r → liveness_of session (ex_world (rt_exec r)) ≠ Agent_Alive →
  match job_step_status j with
  | Waiting _ => reconcile_job j r = (inr [], r)
  | _ =>
      let ev := death_of (liveness_of session (ex_world (rt_exec r))) aid (job_id j) in
      ∃ r', reconcile_job j r = (inr [ev], r') ∧ event_agent ev = Some aid ∧
        rt_state r' = rt_state r ∧ rt_owners r' !! aid = Some (Owner_Job (job_id j)) ∧
        get_owner_context aid r' = (inr (Ctx_Job j (job_id j)), r')
  end.
Proof.
  intros [Hs Hl Hses Ha] Hdead. unfold reconcile_job. rewrite Hses.
  destruct (job_step_status j) eqn:Hst; try done.
  all: unfold death_of.
  all: erewrite bind_ok by reflexivity; unfold agent_died; rewrite Ha;
    destruct (liveness_of session (ex_world (rt_exec r))) eqn:Hlive; try done.
  all: eexists; split_and!; [reflexivity | reflexivity | reflexivity | apply lookup_insert_eq |].
  all: unfold get_owner_context, get_agent_owner; erewrite bind_ok by reflexivity; simpl.
  all: rewrite lookup_insert_eq; unfold rt_get_job, lock_state; erewrite bind_ok by reflexivity.
  all: unfold rt_state, get_job, get_by_prefix in *; simpl; rewrite Hs, Hl.
  all: by rewrite bool_decide_eq_true_2 by by rewrite <- current_step_agent_eq.
Qed.

(** A job whose session and agent process are alive, but whose current step
    has no agent in its history, is lost to the engine.  Its reconnection
    fails, and the event sent instead carries an id made of the job and the
    step, which nobody has registered: handling it does nothing, so the job
    stays as it is, without a watch. *)
Theorem unnamed_agent_ignored (j : Job) session r :
  job_session_id j = Some session → (∀ d, job_step_status j ≠ Waiting d) →
  current_step_agent j = None → liveness_of session (ex_world (rt_exec r)) = Agent_Alive →
  rt_owners r !! (job_id j +:+ "-" +:+ job_step j) = None →
  ∃ ev, reconcile_job j r = (inr [ev], r) ∧ handle_event ev r = (inr [], r).
Proof.
  intros Hses Hw Ha Hlive Howner. unfold reconcile_job. rewrite Hses.
  exists (AgentGone (job_id j +:+ "-" +:+ job_step j) (Owner_Job (job_id j))). split.
  - destruct (job_step_status j) eqn:Hst; try by destruct (Hw decision_id).
    all: erewrite bind_ok by reflexivity; rewrite Hlive, Ha; unfold or_send, recover_agent.
    all: rewrite <- current_step_agent_eq, Ha; reflexivity.
  - cbn [handle_event as_agent_state]. unfold handle_agent_state_changed, get_owner_context, get_agent_owner.
    erewrite bind_ok; [| erewrite bind_ok by reflexivity; rewrite Howner; reflexivity]. done.
Qed.
End Heard.

(** ** Witnesses *)

(** Agents whose sessions are gone. *)
Definition dead_agents : AgentIO unit := {|
  agent_state_of := λ _ _, None;
  session_log_size := λ _ _, None;
  last_assistant_message := λ _ _, None;
  session_alive := λ _ _, false;
  process_running := λ _ _ _, false;
  find_session_log := λ _ _ _, None;
  reconnect := λ _ _ _ _ _ w, (Some "gone", w);
  append_agent_pointer := λ _ _ _ w, w;
  append_agent_error := λ _ _ w, w;
  copy_session_log := λ _ _ w, w;
  append_fenced := λ _ _ _ _ w, w;
  queue_log := λ _ _ _ w, w
|}.

#[local] Existing Instances quiet_adapters quiet_io unit_json no_regex no_processes unit_build
  quiet_agents quiet_spawns quiet_crons quiet_listen.

(** The sample job with the agent ["x"] at its step. *)
Definition agent_job : Job := set_current_step_agent_id "x" run_job.

Lemma dead_agent_heard_witness :
  ∃ r', reconcile_job (AI := dead_agents) agent_job (sample_rt agent_job)
        = (inr [AgentGone "x" (Owner_Job "j")], r') ∧
    get_owner_context "x" r' = (inr (Ctx_Job agent_job "j"), r').
Proof.
  destruct (dead_agent_heard (AI := dead_agents) agent_job "sess" "x" (sample_rt agent_job))
    as (r' & H & _ & _ & _ & Ho).
  - split; [vm_compute; reflexivity | reflexivity | reflexivity | reflexivity].
  - discriminate.
  - exists r'. split; [exact H | exact Ho].
Defined.

Lemma unnamed_agent_ignored_witness :
  ∃ ev, reconcile_job (AI := quiet_agents) run_job (sample_rt run_job) = (inr [ev], sample_rt run_job) ∧
        handle_event ev (sample_rt run_job) = (inr [], sample_rt run_job).
Proof.
  apply (unnamed_agent_ignored (AI := quiet_agents) run_job "sess" (sample_rt run_job)).
  - reflexivity.
  - discriminate.
  - reflexivity.
  - reflexivity.
  - vm_compute. reflexivity.
Defined.

Local Close Scope string_scope.
