(* ===== verification/QuerySpec.v ===== *)
(** What queries answer. *)

From S2P Require Import Prelude Ids Runbook Bytes Vars Slug Entities Job Event State RunbookImport.
From S2P Require Import RunbookFind Runtime RuntimeWitness JobCreate Breadcrumb Suggest Protocol.
From S2P Require Import Listener Mutations ListenRun ListenQueues Query ListenRequest.

Local Open Scope string_scope.

(** ** Groups *)

Lemma grouped_cons {A} ns (p : string * A) l :
  grouped ns (p :: l) = ((if String.eqb p.1 ns then [p.2] else []) ++ grouped ns l)%list.
Proof. unfold grouped. simpl. by destruct (String.eqb p.1 ns). Qed.

Lemma elem_of_grouped {A} ns (l : list (string * A)) a : a ∈ grouped ns l ↔ (ns, a) ∈ l.
Proof.
  induction l as [|[m b] l IH]; [unfold grouped; simpl; set_solver |].
  rewrite grouped_cons, elem_of_app, IH, elem_of_cons. simpl.
  destruct (String.eqb_spec m ns) as [->|Hne]; set_solver.
Qed.

(** One pair goes to one group. *)
Lemma one_group {A} names n (a : A) :
  NoDup names → n ∈ names → (names ≫= λ ns, if String.eqb n ns then [a] else []) = [a].
Proof.
  induction 1 as [|m names Hm Hnd IH]; [by intros ?%not_elem_of_nil |].
  intros [->|Hn]%elem_of_cons; simpl.
  - rewrite String.eqb_refl. simpl. f_equal. clear IH Hnd.
    induction names as [|k names IH]; [done |]. simpl.
    destruct (String.eqb_spec m k) as [->|_]; [set_solver |]. apply IH. set_solver.
  - destruct (String.eqb_spec n m) as [->|_]; [done |]. simpl. by apply IH.
Qed.

Lemma bind_app_perm {A B} (f g : A → list B) l :
  (l ≫= λ x, (f x ++ g x)%list) ≡ₚ ((l ≫= f) ++ (l ≫= g))%list.
Proof.
  induction l as [|x l IH]; [done |]. simpl. rewrite IH, <- !app_assoc.
  apply Permutation_app_head, Permutation_app_swap_app.
Qed.

(** Groups under all the names are the whole list. *)
Lemma grouped_all {A} names (l : list (string * A)) :
  NoDup names → (∀ x, x ∈ l.*1 → x ∈ names) → (names ≫= λ ns, grouped ns l) ≡ₚ l.*2.
Proof.
  intros Hnd. induction l as [|p l IH]; intros Hin.
  - clear Hnd Hin. induction names as [|n names IH]; [done | exact IH].
  - erewrite list_bind_ext; [| intros ns; apply grouped_cons | done].
    rewrite bind_app_perm, one_group, IH; [done | | done |]; set_solver.
Qed.

Lemma namespace_names_NoDup l : NoDup (namespace_names l).
Proof. unfold namespace_names. rewrite sort_by_perm. apply NoDup_elements. Qed.

Lemma elem_of_namespace_names l n : n ∈ namespace_names l ↔ n ∈ l.
Proof. unfold namespace_names. rewrite sort_by_perm. set_solver. Qed.

Lemma length_bind {A B} (f : A → list B) l : length (l ≫= f) = sum_list ((λ x, length (f x)) <$> l).
Proof. induction l as [|x l IH]; csimpl; [done |]. by rewrite length_app, IH. Qed.

(** ** The overview *)

Section Overview.
Context {Value : Type}.
Implicit Types (s : MaterializedState Value).

Lemma status_jobs_all now env s :
  ((status_jobs false now env s).*2 ++ (status_jobs true now env s).*2)%list
    ≡ₚ job_entry_of now s <$> live_jobs env s.
Proof.
  unfold status_jobs, live_jobs. induction (table_values env TJobs (jobs s)) as [|j l IH]; [done |].
  simpl. destruct (Job_is_terminal j); simpl; [done |].
  destruct (is_waiting (job_step_status j)); simpl; rewrite <- IH; [| done].
  by rewrite <- Permutation_middle.
Qed.

Lemma elem_of_status_jobs waiting now env s n e :
  (n, e) ∈ status_jobs waiting now env s →
  ∃ k j, jobs s !! k = Some j ∧ Job_is_terminal j = false ∧ job_namespace j = n ∧
         e = job_entry_of now s j.
Proof.
  unfold status_jobs. intros (j & Heq & [Hj Hlive]%list_elem_of_In%filter_In)%list_elem_of_fmap.
  simplify_eq. apply list_elem_of_In, elem_of_table_values in Hj as [k Hk].
  destruct (Job_is_terminal j) eqn:Ht; [done |]. eauto 10.
Qed.

(** C20. The overview of the status loses nothing and shows nothing twice.  No
    project is listed twice; over all projects the active and the escalated
    jobs together are exactly the jobs that have not ended, the workers are all
    workers, and the decisions that are counted are all that are not resolved;
    and every job is listed under its own project. *)
Theorem overview_complete uptime now orphans health env s u nss h :
  handle_status_overview uptime now orphans health env s = Some (Resp_StatusOverview u nss h) →
  NoDup (nst_namespace <$> nss) ∧
  ((nss ≫= nst_active_jobs) ++ (nss ≫= nst_escalated_jobs))%list
    ≡ₚ job_entry_of now s <$> live_jobs env s ∧
  (nss ≫= nst_workers) ≡ₚ worker_summary s <$> table_values env TWorkers (workers s) ∧
  sum_list (nst_pending_decisions <$> nss) = length (pending_decisions env s) ∧
  ∀ n e, n ∈ nss → e ∈ nst_active_jobs n ∨ e ∈ nst_escalated_jobs n →
    ∃ k j, jobs s !! k = Some j ∧ Job_is_terminal j = false ∧ job_namespace j = nst_namespace n ∧
           e = job_entry_of now s j.
Proof.
  unfold handle_status_overview. destruct (mapM _ orphans) as [lost|]; simpl; [| done].
  set (names := namespace_names _). intros [= <- <- <-].
  assert (NoDup names) as Hnd by apply namespace_names_NoDup.
  assert (∀ x, x ∈ names ↔ _) as Hin by (intros x; apply elem_of_namespace_names).
  clearbody names.
  assert (∀ A (l : list (string * A)), (∀ x, x ∈ l.*1 → x ∈ names) →
            (names ≫= λ ns, grouped ns l) ≡ₚ l.*2) as Hall by (intros; by apply grouped_all).
  split_and!.
  - rewrite <- list_fmap_compose. by rewrite list_fmap_id.
  - rewrite !list_fmap_bind. unfold compose. simpl. rewrite <- status_jobs_all.
    rewrite !Hall; [done | |]; intros x Hx; apply Hin; rewrite !elem_of_app; tauto.
  - rewrite list_fmap_bind. unfold compose. simpl. rewrite Hall.
    + unfold status_workers. by rewrite <- list_fmap_compose.
    + intros x Hx. apply Hin. rewrite !elem_of_app. tauto.
  - rewrite <- list_fmap_compose. unfold compose. simpl. rewrite <- length_bind.
    rewrite Hall; [by rewrite length_fmap |]. intros x Hx. apply Hin. rewrite !elem_of_app. tauto.
  - intros n e (ns & -> & _)%list_elem_of_fmap He. simpl in *. rewrite !elem_of_grouped in He.
    destruct He as [He|He]; by apply elem_of_status_jobs in He.
Qed.
End Overview.

(** ** Filters *)

(** The filter of agents by job does not hide agent runs.  A filter by job
    asks for the agents of jobs; it leaves out the standalone agents of the map
    of agents, but then takes their runs for untracked ones and lists them all:
    whatever the filter, every agent run is in the answer, unless an agent of a
    job has its id. *)
Theorem job_filter_shows_runs {Value W} `{LIO : !ListenIO W} `{FL : !Files W} prefix env
    (s : MaterializedState Value) (w : W) agents k ar :
  handle_list_agents (Some prefix) None env s w = Resp_Agents agents →
  agent_runs s !! k = Some ar →
  (∀ a r jid, State.agents s !! a = Some r → rec_owner r = Owner_Job jid → rec_agent_id r ≠ run_known_as ar) →
  run_summary ar ∈ agents.
Proof.
  unfold handle_list_agents. intros [= <-] Hk Hfree. unfold latest_first. rewrite sort_by_perm.
  rewrite !elem_of_app. right. right. apply (list_elem_of_fmap_2 run_summary). apply list_elem_of_In, filter_In.
  split; [by apply list_elem_of_In, elem_of_table_values; exists k |].
  rewrite andb_true_r. apply negb_true_iff. apply not_true_iff_false.
  intros (id & (r & -> & Hr)%list_elem_of_In%list_elem_of_fmap & Heq%String.eqb_eq)%existsb_exists.
  unfold listed_records in Hr. apply list_elem_of_In, filter_In in Hr as [Hr Hw].
  apply list_elem_of_In, elem_of_table_values in Hr as [a Ha].
  destruct (rec_owner r) as [jid|] eqn:Ho; [| done]. by eapply Hfree.
Qed.

(** ** Panics *)

(** A text of type [str] starts with a character. *)
Lemma utf8_starts c : utf8_valid c = true → c ≠ "" → is_char_boundary c 0 = true.
Proof.
  destruct c as [|a c]; [done |]. unfold is_char_boundary. simpl. fold (byte a).
  intros H _. destruct (byte a <? 128)%N; [done |]. simpl. apply N.leb_le.
  unfold in_range in H.
  destruct c as [|b c]; [done |].
  destruct (N.leb_spec 194 (byte a)); simpl in H; [lia |].
  destruct (N.leb_spec 224 (byte a)); simpl in H; [lia |].
  destruct (N.leb_spec 240 (byte a)); simpl in H; [lia |].
  by destruct c as [|c1 [|d c]].
Qed.

Lemma decision_summary_None {Value} (s : MaterializedState Value) d :
  utf8_valid (decision_context d) = true →
  decision_summary s d = None ↔
    80 < String.length (decision_context d) ∧ is_char_boundary (decision_context d) 77 = false.
Proof.
  intros Hu. unfold decision_summary, decision_brief, slice.
  destruct (Nat.ltb_spec 80 (String.length (decision_context d))); simpl; [| naive_solver lia].
  rewrite utf8_starts; [| done | by intros Hc; rewrite Hc in *; simpl in *; lia].
  destruct (is_char_boundary (decision_context d) 77); simpl; naive_solver.
Qed.

(** The list of decisions panics on a long text only: when every context is
    UTF-8, exactly when a decision that is not resolved has a context of more
    than 80 bytes whose 77th byte is inside a character, in whatever project it
    is. *)
Theorem list_decisions_panics {Value} env (s : MaterializedState Value)
    (Hutf8 : ∀ k d, decisions s !! k = Some d → utf8_valid (decision_context d) = true) :
  query_list_decisions env s = None ↔
  ∃ k d, decisions s !! k = Some d ∧ Decision_is_resolved d = false ∧
         80 < String.length (decision_context d) ∧
         is_char_boundary (decision_context d) 77 = false.
Proof.
  unfold query_list_decisions.
  destruct (mapM _ _) as [ds|] eqn:Hm; simpl.
  - split; [done |]. intros (k & d & Hk & Hr & Hbad).
    apply (decision_summary_None s) in Hbad; [| by eapply Hutf8].
    apply mapM_Some in Hm. assert (d ∈ List.filter (λ d, negb (Decision_is_resolved d))
      (table_values env TDecisions (decisions s))) as [i Hi]%list_elem_of_lookup.
    { apply list_elem_of_In, filter_In. rewrite Hr. split; [| done].
      apply list_elem_of_In, elem_of_table_values. by exists k. }
    eapply Forall2_lookup_l in Hi as (? & _ & ?); [| done]. congruence.
  - split; [| done]. intros _. apply mapM_None, Exists_exists in Hm as (d & Hin & Hbad).
    apply list_elem_of_In, filter_In in Hin as [[k Hk]%list_elem_of_In%elem_of_table_values Hr].
    apply decision_summary_None in Hbad; [| by eapply Hutf8].
    exists k, d. split; [done |]. split; [by destruct (Decision_is_resolved d) | done].
Qed.

(** ** Witnesses *)

#[local] Existing Instances quiet_listen no_files.

Definition waiting_job : Job :=
  Job_new_with_epoch_ms (env_at 0) (mkJobConfig "j" "n" "k" ∅ "h" "/" "run" "app" None) 0.

(** A context of 76 letters and a character of two bytes on their border. *)
Definition long_context : string :=
  "0123456789012345678901234567890123456789012345678901234567890123456789012345" +:+
  String "195" (String "169" "012345").

Definition long_decision : Decision :=
  mkDecision "d" "j" None (Owner_Job "j") Source_Idle long_context [] None None 0 None None "app".

Definition audit_run : AgentRun :=
  mkAgentRun "r" "coder" "audit" "app" "/" "h" Run_Running (Some "a") None None 0 0
    ActionTracker_default ∅ None None.

Definition query_state : MaterializedState unit :=
  upd_jobs <["j" := waiting_job]> (upd_decisions <["d" := long_decision]>
    (upd_agent_runs <["r" := audit_run]> MaterializedState_default)).

Lemma overview_complete_witness :
  ∃ ns,
    handle_status_overview 0 10 [] (mkMetricsHealth 0 0 None []) (env_at 10) query_state
      = Some (Resp_StatusOverview 0 [ns] (Some (health_summary (mkMetricsHealth 0 0 None [])))) ∧
    nst_active_jobs ns = [job_entry_of 10 query_state waiting_job] ∧
    sum_list (nst_pending_decisions <$> [ns]) = length (pending_decisions (env_at 10) query_state).
Proof.
  eexists. split; [reflexivity |]. split; [reflexivity |].
  eapply (overview_complete 0 10 [] (mkMetricsHealth 0 0 None []) (env_at 10) query_state).
  reflexivity.
Defined.

Lemma job_filter_shows_runs_witness :
  ∃ agents, handle_list_agents (Some "nothing") None (env_at 10) query_state tt = Resp_Agents agents ∧
            run_summary audit_run ∈ agents.
Proof.
  eexists. split; [reflexivity |].
  apply (job_filter_shows_runs "nothing" (env_at 10) query_state tt _ "r" audit_run); [done | done |].
  intros a r jid Ha. change (State.agents query_state) with (∅ : gmap string AgentRecord) in Ha.
  by rewrite lookup_empty in Ha.
Defined.

Lemma list_decisions_panics_witness : query_list_decisions (env_at 10) query_state = None.
Proof.
  apply list_decisions_panics.
  - intros k d Hd. change (decisions query_state) with ({["d" := long_decision]} : gmap string Decision) in Hd.
    apply lookup_singleton_Some in Hd as [_ <-]. by vm_compute.
  - exists "d", long_decision. split_and!; [done | done | vm_compute; lia | by vm_compute].
Defined.

Local Close Scope string_scope.
