(* ===== verification/Lifecycle.v ===== *)
(** The life of the daemon: [crates/daemon/src/lifecycle/mod.rs] ([Config],
    [startup], [shutdown]), the files [main.rs] keeps about a start, and the
    command line's side of it ([crates/cli/src/daemon_process.rs] and
    [client_lifecycle.rs]).

    Daemons and clients are processes that take turns on one [Disk], a call of
    the system at a time: a daemon is a [Phase], a client a [Client].  Calls may
    fail, with the message the step is given.  Of the lock on the PID file, a
    third-party crate, only the class [FileLocks] is known. *)

From S2P Require Import Prelude Ids Runbook Bytes Vars Slug Entities Job Event State Runtime WorkerQueue.
From S2P Require Import Scheduler Effect Executor Monitor Cron HandleEvent Engine.
From S2P Require Import JobCreate JobAgents Breadcrumb StateEquiv Wal WalSpec Checkpoint Recovery RunbookImport Reconcile.
From S2P Require Import RuntimeWitness ShellLexer Listener.

Local Open Scope string_scope.

(** ** Configuration and errors *)

Inductive LifecycleError :=
  | NoStateDir
  | LockFailed (e : string)
  | BindFailed (path : PathBuf) (e : string)
  | Life_Wal (e : string)
  | Life_Snapshot (e : string)
  | Life_Io (e : string)
  | Life_Runtime (e : string).

Definition LifecycleError_display (e : LifecycleError) : string :=
  match e with
  | NoStateDir => "Could not determine state directory"
  | LockFailed _ => "Failed to acquire lock: daemon already running?"
  | BindFailed path e => "Failed to bind socket at " +:+ path +:+ ": " +:+ e
  | Life_Wal e => "WAL error: " +:+ e
  | Life_Snapshot e => "Snapshot error: " +:+ e
  | Life_Io e => "IO error: " +:+ e
  | Life_Runtime e => "Runtime error: " +:+ e
  end.

(** [state_dir] of [env.rs], from [std::env::var]. *)
Definition state_dir (env_var : string → option string) : LifecycleError + PathBuf :=
  match env_var "OJ_STATE_DIR" with
  | Some dir => inr dir
  | None =>
      match env_var "XDG_STATE_HOME" with
      | Some xdg => inr (path_join xdg "oj")
      | None =>
          match env_var "HOME" with
          | Some home => inr (path_join home ".local/state/oj")
          | None => inl NoStateDir
          end
      end
  end.

Record Config := mkConfig {
  cfg_state_dir : PathBuf;
  socket_path : PathBuf;
  lock_path : PathBuf;
  version_path : PathBuf;
  log_path : PathBuf;
  wal_path : PathBuf;
  snapshot_path : PathBuf;
  workspaces_path : PathBuf;
  logs_path : PathBuf
}.

Definition Config_of (dir : PathBuf) : Config := {|
  cfg_state_dir := dir;
  socket_path := path_join dir "daemon.sock";
  lock_path := path_join dir "daemon.pid";
  version_path := path_join dir "daemon.version";
  log_path := path_join dir "daemon.log";
  wal_path := path_join (path_join dir "wal") "events.wal";
  snapshot_path := path_join dir "snapshot.json";
  workspaces_path := path_join dir "workspaces";
  logs_path := path_join dir "logs"
|}.

Definition Config_load (env_var : string → option string) : LifecycleError + Config :=
  match state_dir env_var with
  | inl e => inl e
  | inr dir => inr (Config_of dir)
  end.

(** ** The disk *)

(** [fs2::FileExt]: exclusive locks on open files.  A file is a number, and so
    is a process. *)
Class FileLocks (L : Type) := {
  try_lock_exclusive : nat → nat → L → option string * L;
  (** When its files are closed, a process has no locks. *)
  release_locks : nat → L → L
}.

(** A lock has one holder, who got it when there was none. *)
Class FileLocksLaws (L : Type) `{!FileLocks L} := {
  holder : L → nat → option nat;
  try_lock_ok f p l g :
    (try_lock_exclusive f p l).1 = None →
    holder l f = None ∧
    holder (try_lock_exclusive f p l).2 g = if decide (g = f) then Some p else holder l g;
  try_lock_busy f p l e g :
    (try_lock_exclusive f p l).1 = Some e → holder (try_lock_exclusive f p l).2 g = holder l g;
  try_lock_free f p l : holder l f = None → (try_lock_exclusive f p l).1 = None;
  release_holder p l g :
    holder (release_locks p l) g = if decide (holder l g = Some p) then None else holder l g
}.

(** Names of files, their contents, the sockets that are listened on, and locks.
    A file whose name is removed lives on for those who have it open. *)
Record Disk {L : Type} := mkDisk {
  dk_links : gmap PathBuf nat;
  dk_data : gmap nat string;
  dk_listening : gmap nat nat;
  dk_locks : L;
  dk_next : nat
}.
Arguments Disk : clear implicits.
Arguments mkDisk {L}.

Section Disk.
Context {L : Type}.
Implicit Types (d : Disk L).

Definition on_links (f : gmap PathBuf nat → gmap PathBuf nat) d : Disk L :=
  mkDisk (f (dk_links d)) (dk_data d) (dk_listening d) (dk_locks d) (dk_next d).
Definition on_locks (f : L → L) d : Disk L :=
  mkDisk (dk_links d) (dk_data d) (dk_listening d) (f (dk_locks d)) (dk_next d).

(** [OpenOptions::create(true).truncate(false)]. *)
Definition open_create (path : PathBuf) d : nat * Disk L :=
  match dk_links d !! path with
  | Some f => (f, d)
  | None => (dk_next d,
             mkDisk (<[path := dk_next d]> (dk_links d)) (<[dk_next d := ""]> (dk_data d))
               (dk_listening d) (dk_locks d) (S (dk_next d)))
  end.

Definition set_data (f : nat) (s : string) d : Disk L :=
  mkDisk (dk_links d) (<[f := s]> (dk_data d)) (dk_listening d) (dk_locks d) (dk_next d).

(** [std::fs::write]. *)
Definition write_path (path : PathBuf) (s : string) d : Disk L :=
  let '(f, d) := open_create path d in set_data f s d.

(** [std::fs::remove_file]. *)
Definition unlink (path : PathBuf) d : Disk L := on_links (delete path) d.

Definition read_path (path : PathBuf) d : option string :=
  f ← dk_links d !! path; dk_data d !! f.

(** [UnixListener::bind]: the name must be new. *)
Definition bind_socket (path : PathBuf) (p : nat) d : option string * Disk L :=
  match dk_links d !! path with
  | Some _ => (Some "Address already in use (os error 98)", d)
  | None => (None,
             mkDisk (<[path := dk_next d]> (dk_links d)) (dk_data d)
               (<[dk_next d := p]> (dk_listening d)) (dk_locks d) (S (dk_next d)))
  end.

(** The end of a process closes its files and sockets. *)
Definition close_all `{!FileLocks L} (p : nat) d : Disk L :=
  mkDisk (dk_links d) (dk_data d) (filter (λ fp, fp.2 ≠ p) (dk_listening d))
    (release_locks p (dk_locks d)) (dk_next d).
End Disk.

(** ** A daemon *)

(** The calls of [startup_inner] after the lock is taken, in order; the others
    of its steps touch nothing that is shared. *)
Inductive Stage :=
  | St_Truncate | St_WritePid | St_SocketDir | St_WalDir | St_WorkspacesDir | St_WriteVersion
  | St_LoadSnapshot | St_OpenWal | St_ReadWal | St_RemoveSocket | St_Bind.

(** The number is the open lock file. *)
Inductive Phase :=
  | Ph_StateDir
  | Ph_OpenLock
  | Ph_TryLock (file : nat)
  | Ph_Locked (file : nat) (stage : Stage)
  | Ph_Running (file : nat)
  | Ph_DownSocket (file : nat)
  | Ph_DownLock (file : nat)
  | Ph_DownVersion (file : nat)
  | Ph_CleanSocket (e : LifecycleError)
  | Ph_CleanVersion (e : LifecycleError)
  | Ph_CleanLock (e : LifecycleError)
  | Ph_Exited (r : LifecycleError + unit).

(** [writeln!(lock_file, "{}", std::process::id())]. *)
Definition pid_line (p : nat) : string := pretty p +:+ newline_str.

Section Daemon.
Context {L : Type} `{!FileLocks L} (cfg : Config) (version : string).
Implicit Types (d : Disk L).

(** The next stage, [None] at the end, or the error.  A call that fails changes
    nothing. *)
Definition stage_step (p file : nat) (st : Stage) (fault : option string) d
    : (LifecycleError + option Stage) * Disk L :=
  let call (err : string → LifecycleError) (k : Stage) (d' : Disk L) :=
    match fault with Some e => (inl (err e), d) | None => (inr (Some k), d') end in
  match st with
  | St_Truncate => call Life_Io St_WritePid (set_data file "" d)
  | St_WritePid => call Life_Io St_SocketDir (set_data file (pid_line p) d)
  | St_SocketDir => call Life_Io St_WalDir d
  | St_WalDir => call Life_Io St_WorkspacesDir d
  | St_WorkspacesDir => call Life_Io St_WriteVersion d
  | St_WriteVersion => call Life_Io St_LoadSnapshot (write_path (version_path cfg) version d)
  | St_LoadSnapshot => call Life_Snapshot St_OpenWal d
  | St_OpenWal => call Life_Wal St_ReadWal d
  | St_ReadWal => call Life_Wal St_RemoveSocket d
  | St_RemoveSocket =>
      match dk_links d !! socket_path cfg with
      | Some _ => call Life_Io St_Bind (unlink (socket_path cfg) d)
      | None => (inr (Some St_Bind), d)
      end
  | St_Bind =>
      match fault with
      | Some e => (inl (BindFailed (socket_path cfg) e), d)
      | None => match bind_socket (socket_path cfg) p d with
                | (Some e, d) => (inl (BindFailed (socket_path cfg) e), d)
                | (None, d) => (inr None, d)
                end
      end
  end.

(** [startup] when [startup_inner] fails: its lock file is closed first, and
    only the failure to lock leaves the files alone. *)
Definition startup_failed (p : nat) (e : LifecycleError) d : Phase * Disk L :=
  (match e with LockFailed _ => Ph_Exited (inl e) | _ => Ph_CleanSocket e end, close_all p d).

(** [if path.exists() { let _ = remove_file(path); }]. *)
Definition try_unlink (fault : option string) (path : PathBuf) d : Disk L :=
  match fault with Some _ => d | None => unlink path d end.

(** A step of [startup], of [shutdown] once the loop of a running daemon has
    ended, or of [cleanup_on_failure]. *)
Definition daemon_step (p : nat) (fault : option string) (ph : Phase) d : Phase * Disk L :=
  match ph with
  | Ph_StateDir => match fault with
                   | Some e => startup_failed p (Life_Io e) d
                   | None => (Ph_OpenLock, d)
                   end
  | Ph_OpenLock => match fault with
                   | Some e => startup_failed p (Life_Io e) d
                   | None => let '(file, d) := open_create (lock_path cfg) d in (Ph_TryLock file, d)
                   end
  | Ph_TryLock file =>
      match fault with
      | Some e => startup_failed p (LockFailed e) d
      | None => match try_lock_exclusive file p (dk_locks d) with
                | (Some e, l) => startup_failed p (LockFailed e) (on_locks (λ _, l) d)
                | (None, l) => (Ph_Locked file St_Truncate, on_locks (λ _, l) d)
                end
      end
  | Ph_Locked file st => match stage_step p file st fault d with
                         | (inl e, d) => startup_failed p e d
                         | (inr (Some st), d) => (Ph_Locked file st, d)
                         | (inr None, d) => (Ph_Running file, d)
                         end
  | Ph_Running file => (Ph_DownSocket file, d)
  | Ph_DownSocket file => (Ph_DownLock file, try_unlink fault (socket_path cfg) d)
  | Ph_DownLock file => (Ph_DownVersion file, try_unlink fault (lock_path cfg) d)
  | Ph_DownVersion file => (Ph_Exited (inr tt), close_all p (try_unlink fault (version_path cfg) d))
  | Ph_CleanSocket e => (Ph_CleanVersion e, try_unlink fault (socket_path cfg) d)
  | Ph_CleanVersion e => (Ph_CleanLock e, try_unlink fault (version_path cfg) d)
  | Ph_CleanLock e => (Ph_Exited (inl e), close_all p (try_unlink fault (lock_path cfg) d))
  | Ph_Exited r => (Ph_Exited r, d)
  end.


End Daemon.

(** ** The command line *)

Inductive Client :=
  | Cl_Stop | Cl_Shutdown | Cl_ReadPid | Cl_Kill (pid : Z) | Cl_CleanPid
  | Cl_Stale | Cl_StaleRead | Cl_StaleCheck (pid : Z) | Cl_StaleSocket (then_pid : bool)
  | Cl_StalePid | Cl_Done.

Section Client.
Context {L : Type} `{!FileLocks L} (cfg : Config).
Implicit Types (d : Disk L).

(** [read_daemon_pid] of the file that was read. *)
Definition parse_pid (content : option string) : option Z := c ← content; parse_u32 (trim c).

(** [exists] follows the name, so a file it finds was there; what it says of a
    process is [alive].  The process to be killed is the second result. *)
Definition client_step (alive : Z → bool) (fault : option string) (c : Client) d
    : Client * option Z * Disk L :=
  let has path := bool_decide (is_Some (dk_links d !! path)) in
  let read := match fault with
              | Some _ => None
              | None => parse_pid (read_path (lock_path cfg) d)
              end in
  match c with
  (* daemon_stop *)
  | Cl_Stop => (if has (socket_path cfg) then Cl_Shutdown else Cl_CleanPid, None, d)
  (* client.shutdown(kill), whatever comes back *)
  | Cl_Shutdown => (Cl_ReadPid, None, d)
  (* wait_for_exit; stop_daemon_sync begins here *)
  | Cl_ReadPid => (match read with Some pid => Cl_Kill pid | None => Cl_CleanPid end, None, d)
  | Cl_Kill pid => (Cl_CleanPid, if alive pid then Some pid else None, d)
  (* cleanup_stale_pid *)
  | Cl_CleanPid => (Cl_Done, None, try_unlink fault (lock_path cfg) d)
  (* cleanup_stale_socket *)
  | Cl_Stale => (if has (lock_path cfg) then Cl_StaleRead else Cl_StaleSocket false, None, d)
  | Cl_StaleRead => (match read with
                     | Some pid => Cl_StaleCheck pid
                     | None => Cl_StaleSocket true
                     end, None, d)
  | Cl_StaleCheck pid => (if alive pid then Cl_Done else Cl_StaleSocket true, None, d)
  | Cl_StaleSocket then_pid =>
      (if then_pid then Cl_StalePid else Cl_Done, None, try_unlink fault (socket_path cfg) d)
  | Cl_StalePid => (Cl_Done, None, try_unlink fault (lock_path cfg) d)
  | Cl_Done => (Cl_Done, None, d)
  end.
End Client.

(** ** Processes together *)

Inductive Proc := P_Daemon (ph : Phase) | P_Client (c : Client).

Record Sys {L : Type} := mkSys { sys_procs : gmap nat Proc; sys_disk : Disk L }.
Arguments Sys : clear implicits.
Arguments mkSys {L}.

(** What may happen next: a process starts, makes its next step, or is killed. *)
Inductive Move :=
  | Mv_Start (p : nat) (pr : Proc) | Mv_Step (p : nat) (fault : option string) | Mv_Crash (p : nat).

Definition is_entry (pr : Proc) : bool :=
  match pr with
  | P_Daemon Ph_StateDir | P_Client Cl_Stop | P_Client Cl_ReadPid | P_Client Cl_Stale => true
  | _ => false
  end.

Definition is_alive (pr : option Proc) : bool :=
  match pr with
  | None | Some (P_Daemon (Ph_Exited _)) | Some (P_Client Cl_Done) => false
  | _ => true
  end.

Definition ended (pr : Proc) : Proc :=
  match pr with
  | P_Daemon _ => P_Daemon (Ph_Exited (inr tt))
  | P_Client _ => P_Client Cl_Done
  end.

Section Sys.
Context {L : Type} `{!FileLocks L} (cfg : Config) (version : string).
Implicit Types (s : Sys L).

Definition process_exists s (pid : Z) : bool := is_alive (sys_procs s !! Z.to_nat pid).

(** The end of a process that has not ended. *)
Definition crash (p : nat) s : Sys L :=
  match sys_procs s !! p with
  | Some pr =>
      if is_alive (Some pr)
      then mkSys (<[p := ended pr]> (sys_procs s)) (close_all p (sys_disk s))
      else s
  | None => s
  end.

Definition sys_move (m : Move) s : option (Sys L) :=
  match m with
  | Mv_Start p pr =>
      match sys_procs s !! p with
      | None => if is_entry pr then Some (mkSys (<[p := pr]> (sys_procs s)) (sys_disk s)) else None
      | Some _ => None
      end
  | Mv_Step p fault =>
      match sys_procs s !! p with
      | Some (P_Daemon ph) =>
          let '(ph, d) := daemon_step cfg version p fault ph (sys_disk s) in
          Some (mkSys (<[p := P_Daemon ph]> (sys_procs s)) d)
      | Some (P_Client c) =>
          let '(c, kill, d) := client_step cfg (process_exists s) fault c (sys_disk s) in
          let s := mkSys (<[p := P_Client c]> (sys_procs s)) d in
          Some (match kill with Some pid => crash (Z.to_nat pid) s | None => s end)
      | None => None
      end
  | Mv_Crash p => if is_alive (sys_procs s !! p) then Some (crash p s) else None
  end.

Definition sys_step s s' : Prop := ∃ m, sys_move m s = Some s'.

Fixpoint sys_run (ms : list Move) s : option (Sys L) :=
  match ms with
  | [] => Some s
  | m :: ms => s ← sys_move m s; sys_run ms s
  end.
End Sys.

(** ** One daemon at a time *)

(** The lock file a phase has locked. *)
Definition locks_file (ph : Phase) : option nat :=
  match ph with
  | Ph_Locked f _ | Ph_Running f | Ph_DownSocket f | Ph_DownLock f | Ph_DownVersion f => Some f
  | _ => None
  end.

(** The lock file of a daemon that starts or runs. *)
Definition serves (ph : Phase) : option nat :=
  match ph with
  | Ph_TryLock f | Ph_Locked f _ | Ph_Running f => Some f
  | _ => None
  end.

Section exclusion.
Context {L : Type} `{!FileLocks L} `{!FileLocksLaws L} (cfg : Config) (version : string).
Implicit Types (s : Sys L) (d : Disk L).

Definition is_daemon s (p : nat) (ph : Phase) : Prop := sys_procs s !! p = Some (P_Daemon ph).

(** Who has the lock file locked holds its lock, and a daemon that starts or runs
    has the file that has the name. *)
Definition lock_inv s : Prop :=
  (∀ p ph f, is_daemon s p ph → locks_file ph = Some f → holder (dk_locks (sys_disk s)) f = Some p) ∧
  (∀ p ph f, is_daemon s p ph → serves ph = Some f → dk_links (sys_disk s) !! lock_path cfg = Some f).

(** The step takes the name of the PID file from a daemon that starts or runs. *)
Definition steals_lock_file s s' : Prop :=
  ∃ p ph f, is_daemon s' p ph ∧ serves ph = Some f ∧
    dk_links (sys_disk s) !! lock_path cfg = Some f ∧ dk_links (sys_disk s') !! lock_path cfg ≠ Some f.

Definition fair_step s s' : Prop := sys_step cfg version s s' ∧ ¬ steals_lock_file s s'.

Lemma holder_close_all p q f d :
  q ≠ p → holder (dk_locks d) f = Some q → holder (dk_locks (close_all p d)) f = Some q.
Proof. intros Hne Hh. simpl. rewrite release_holder, Hh. case_decide; congruence. Qed.

Lemma locks_write_path path text d : dk_locks (write_path path text d) = dk_locks d.
Proof. unfold write_path, open_create. by destruct (dk_links d !! path). Qed.

Lemma locks_bind path p d : dk_locks (bind_socket path p d).2 = dk_locks d.
Proof. unfold bind_socket. by destruct (dk_links d !! path). Qed.

Lemma locks_try_unlink fault path d : dk_locks (try_unlink fault path d) = dk_locks d.
Proof. by destruct fault. Qed.

Lemma stage_step_locks p file st fault d :
  dk_locks (stage_step cfg version p file st fault d).2 = dk_locks d.
Proof.
  destruct st; simpl; try by destruct fault.
  - destruct fault; [done |]. apply locks_write_path.
  - destruct (_ !! _); [by destruct fault | done].
  - destruct fault; [done |]. generalize (locks_bind (socket_path cfg) p d).
    by destruct (bind_socket _ _ _) as [[e|] d'].
Qed.

(** A process does not touch the locks of others. *)
Lemma daemon_step_others p q fault ph d f :
  q ≠ p → holder (dk_locks d) f = Some q →
  holder (dk_locks (daemon_step cfg version p fault ph d).2) f = Some q.
Proof.
  intros Hne Hh. destruct ph; simpl; try done;
    rewrite ?locks_try_unlink; try done.
  - destruct fault; [by apply holder_close_all | done].
  - destruct fault; [by apply holder_close_all |]. unfold open_create. by destruct (dk_links d !! _).
  - destruct fault; [by apply holder_close_all |].
    destruct (try_lock_exclusive _ _ _) as [[e|] l] eqn:E; simpl.
    + generalize (try_lock_busy file p (dk_locks d) e f); rewrite E; simpl. intros Hb.
      by rewrite release_holder, Hb, Hh, decide_False by congruence.
    + generalize (try_lock_ok file p (dk_locks d) f); rewrite E; simpl.
      intros [Hfree ->]; [done |]. case_decide; congruence.
  - generalize (stage_step_locks p file stage fault d).
    destruct (stage_step _ _ _ _ _ _ _) as [[e|[st|]] d']; simpl; intros ->; try done.
    by rewrite release_holder, decide_False by congruence.
  - rewrite release_holder. rewrite decide_False; [by destruct fault | destruct fault; simpl; congruence].
  - rewrite release_holder. rewrite decide_False; [by destruct fault | destruct fault; simpl; congruence].
Qed.

Lemma daemon_step_own p fault ph d f :
  locks_file (daemon_step cfg version p fault ph d).1 = Some f →
  (locks_file ph = Some f → holder (dk_locks d) f = Some p) →
  holder (dk_locks (daemon_step cfg version p fault ph d).2) f = Some p.
Proof.
  intros Hl Hh. destruct ph; simpl in *; try done;
    rewrite ?locks_try_unlink; try by auto.
  - by destruct fault.
  - destruct fault; [done |]. by destruct (open_create _ _).
  - destruct fault; [done |].
    destruct (try_lock_exclusive _ _ _) as [[e|] l] eqn:E; simpl in *; [done |]. simplify_eq.
    generalize (try_lock_ok f p (dk_locks d) f); rewrite E; simpl.
    intros [_ ->]; [done |]. by rewrite decide_True.
  - generalize (stage_step_locks p file stage fault d).
    destruct (stage_step _ _ _ _ _ _ _) as [[e|[st|]] d']; simpl in *; try (by destruct e); intros ->; auto.
Qed.

Lemma daemon_step_serves p fault ph d f :
  serves (daemon_step cfg version p fault ph d).1 = Some f →
  serves ph = Some f ∨
  dk_links (daemon_step cfg version p fault ph d).2 !! lock_path cfg = Some f.
Proof.
  destruct ph; simpl; try done; try by auto.
  - by destruct fault.
  - destruct fault; [done |]. unfold open_create.
    destruct (dk_links d !! _) eqn:E; simpl; intros; simplify_eq; [by auto |].
    right. apply lookup_insert_eq.
  - destruct fault; [done |]. destruct (try_lock_exclusive _ _ _) as [[e|] l]; simpl; auto. done.
  - destruct (stage_step _ _ _ _ _ _ _) as [[e|[st|]] d']; simpl; auto. by destruct e.
Qed.

Lemma client_step_locks al fault c d : dk_locks (client_step cfg al fault c d).2 = dk_locks d.
Proof. destruct c; simpl; try done; apply locks_try_unlink. Qed.

Lemma is_daemon_insert s p pr d q ph :
  is_daemon (mkSys (<[p := pr]> (sys_procs s)) d) q ph ↔
  (q = p ∧ pr = P_Daemon ph) ∨ (q ≠ p ∧ is_daemon s q ph).
Proof.
  unfold is_daemon. simpl. destruct (decide (q = p)) as [->|Hne].
  - rewrite lookup_insert_eq. naive_solver.
  - rewrite lookup_insert_ne by done. naive_solver.
Qed.

(** The first half of the invariant, over a step of anyone. *)
Definition locks_held s : Prop :=
  ∀ p ph f, is_daemon s p ph → locks_file ph = Some f → holder (dk_locks (sys_disk s)) f = Some p.

(** Whoever serves after the step did before it, or has just found the name. *)
Definition serves_on s s' : Prop :=
  ∀ p ph f, is_daemon s' p ph → serves ph = Some f →
    (∃ ph0, is_daemon s p ph0 ∧ serves ph0 = Some f) ∨
    dk_links (sys_disk s') !! lock_path cfg = Some f.

Lemma crash_links p s : dk_links (sys_disk (crash p s)) = dk_links (sys_disk s).
Proof. unfold crash. destruct (sys_procs s !! p) as [pr|]; [|done]. by destruct (is_alive (Some pr)). Qed.

Lemma crash_ok p s : locks_held s → locks_held (crash p s) ∧ serves_on s (crash p s).
Proof.
  intros Hl. unfold crash. destruct (sys_procs s !! p) as [pr|]; [|split; [done | intros ????; eauto]].
  destruct (is_alive _); [|split; [done | intros ????; eauto]].
  split.
  - intros q ph f [[_ ?]|[Hne Hq]]%is_daemon_insert Hf; [by destruct pr; simplify_eq/= |].
    apply holder_close_all; [done |]. by eapply Hl.
  - intros q ph f [[_ ?]|[Hne Hq]]%is_daemon_insert Hf; [by destruct pr; simplify_eq/= | eauto].
Qed.

Lemma sys_step_ok s s' : locks_held s → sys_step cfg version s s' → locks_held s' ∧ serves_on s s'.
Proof.
  intros Hl [m Hm]. destruct m as [p pr|p fault|p]; simpl in Hm.
  - destruct (sys_procs s !! p); [done |]. destruct (is_entry pr) eqn:Ee; simplify_eq.
    split; intros q ph f [[_ ->]|[_ Hq]]%is_daemon_insert Hf; eauto; by destruct ph.
  - destruct (sys_procs s !! p) as [[ph|c]|] eqn:Ep; [| |done].
    + generalize (daemon_step_own p fault ph (sys_disk s)), (daemon_step_serves p fault ph (sys_disk s)),
        (λ q, daemon_step_others p q fault ph (sys_disk s)).
      destruct (daemon_step _ _ _ _ _ _) as [ph' d']; simpl. intros Hown Hserves Hothers. simplify_eq.
      split; intros q ph1 f [[-> ?]|[Hne Hq]]%is_daemon_insert Hf; simplify_eq; eauto.
      destruct (Hserves f Hf); eauto.
    + generalize (client_step_locks (process_exists s) fault c (sys_disk s)).
      destruct (client_step _ _ _ _ _) as [[c' kill] d']; simpl. intros Hd.
      set (s1 := mkSys _ d') in Hm.
      assert (locks_held s1 ∧ serves_on s s1) as [Hl1 Hs1].
      { split; intros q ph1 f [[-> ?]|[Hne Hq]]%is_daemon_insert Hf; simplify_eq; eauto.
        subst s1. simpl. rewrite Hd. eauto. }
      destruct kill as [pid|]; simplify_eq; [|done].
      destruct (crash_ok (Z.to_nat pid) s1 Hl1) as [Hl2 Hs2]. split; [done |].
      intros q ph1 f Hq Hf. destruct (Hs2 q ph1 f Hq Hf) as [(ph0 & Hq0 & Hf0)|]; [|by right].
      destruct (Hs1 q ph0 f Hq0 Hf0) as [|Hlink]; [by left | right].
      by rewrite crash_links.
  - destruct (is_alive _); simplify_eq. by apply crash_ok.
Qed.

Lemma lock_inv_step s s' : lock_inv s → fair_step s s' → lock_inv s'.
Proof.
  intros [Hl Hs] [Hstep Hfair]. destruct (sys_step_ok s s' Hl Hstep) as [Hl' Hs'].
  split; [done |]. intros p ph f Hp Hf.
  destruct (Hs' p ph f Hp Hf) as [(ph0 & Hp0 & Hf0)|]; [|done].
  destruct (decide (dk_links (sys_disk s') !! lock_path cfg = Some f)); [done |].
  destruct Hfair. exists p, ph, f. eauto.
Qed.

Lemma lock_inv_steps s s' : rtc fair_step s s' → lock_inv s → lock_inv s'.
Proof. induction 1; [done |]. intros Hi. eauto using lock_inv_step. Qed.

(** No process yet. *)
Lemma lock_inv_init d : lock_inv (mkSys ∅ d).
Proof. by split; intros p ph f Hp. Qed.

(** ** Who can take the name away *)

Definition removes_lock_file (pr : Proc) : bool :=
  match pr with
  | P_Daemon (Ph_DownLock _) | P_Daemon (Ph_CleanLock _) => true
  | P_Client Cl_CleanPid | P_Client Cl_StalePid => true
  | _ => false
  end.

(** A name survives every call on other files. *)
Lemma link_stays path other f (d : Disk L) :
  path ≠ other → dk_links d !! path = Some f →
  (∀ fault, dk_links (try_unlink fault other d) !! path = Some f) ∧
  (∀ text, dk_links (write_path other text d) !! path = Some f) ∧
  (∀ p, dk_links (bind_socket other p d).2 !! path = Some f) ∧
  dk_links (open_create other d).2 !! path = Some f.
Proof.
  intros Hne Hf. split_and!.
  - intros []; simpl; [done |]. by rewrite lookup_delete_ne.
  - intros text. unfold write_path, open_create.
    destruct (dk_links d !! other); simpl; [done |]. by rewrite lookup_insert_ne.
  - intros p. unfold bind_socket. destruct (dk_links d !! other); simpl; [done |].
    by rewrite lookup_insert_ne.
  - unfold open_create. destruct (dk_links d !! other); simpl; [done |]. by rewrite lookup_insert_ne.
Qed.

Lemma open_create_same path f (d : Disk L) :
  dk_links d !! path = Some f → open_create path d = (f, d).
Proof. unfold open_create. by intros ->. Qed.

Section names.
Context (Hsocket : lock_path cfg ≠ socket_path cfg) (Hversion : lock_path cfg ≠ version_path cfg).

Lemma stage_step_link p file st fault (d : Disk L) f :
  dk_links d !! lock_path cfg = Some f →
  dk_links (stage_step cfg version p file st fault d).2 !! lock_path cfg = Some f.
Proof.
  intros Hf. destruct (link_stays _ _ f d Hsocket Hf) as (Hu & _ & Hb & _).
  destruct (link_stays _ _ f d Hversion Hf) as (_ & Hw & _).
  destruct st; simpl; try by destruct fault.
  - destruct fault; [done |]. apply Hw.
  - destruct (_ !! socket_path cfg); [|done]. destruct fault; [done |]. apply (Hu None).
  - destruct fault; [done |]. generalize (Hb p). by destruct (bind_socket _ _ _) as [[e|] d'].
Qed.

Lemma daemon_step_link p fault ph (d : Disk L) f :
  dk_links d !! lock_path cfg = Some f → removes_lock_file (P_Daemon ph) = false →
  dk_links (daemon_step cfg version p fault ph d).2 !! lock_path cfg = Some f.
Proof.
  intros Hf Hr. destruct (link_stays _ _ f d Hsocket Hf) as (Hus & _).
  destruct (link_stays _ _ f d Hversion Hf) as (Huv & _).
  destruct ph; simpl in *; try done; auto.
  - by destruct fault.
  - destruct fault; [done |]. by rewrite (open_create_same _ f).
  - destruct fault; [done |]. by destruct (try_lock_exclusive _ _ _) as [[e|] l].
  - generalize (stage_step_link p file stage fault d f Hf).
    by destruct (stage_step _ _ _ _ _ _ _) as [[e|[st|]] d'].
Qed.

(** Only a daemon that ends or cleans up, and a client that cleans up, take the
    name of the PID file away. *)
Lemma steals_by s s' :
  sys_step cfg version s s' → steals_lock_file s s' →
  ∃ p pr, sys_procs s !! p = Some pr ∧ removes_lock_file pr = true.
Proof.
  intros [m Hm] (p0 & ph0 & f & _ & _ & Hf & Hn). destruct m as [p pr|p fault|p]; simpl in Hm.
  - destruct (sys_procs s !! p); [done |]. by destruct (is_entry pr); simplify_eq.
  - destruct (sys_procs s !! p) as [pr|] eqn:Ep; [|done]. exists p, pr. split; [done |].
    destruct (removes_lock_file pr) eqn:Er; [done | exfalso].
    destruct pr as [ph|c].
    + generalize (daemon_step_link p fault ph _ f Hf Er).
      destruct (daemon_step _ _ _ _ _ _) as [ph' d']. by simplify_eq.
    + destruct (link_stays _ _ f _ Hsocket Hf) as (Hus & _).
      assert (dk_links (client_step cfg (process_exists s) fault c (sys_disk s)).2 !! lock_path cfg = Some f) as Hl.
      { destruct c; simpl in *; done || auto. }
      destruct (client_step _ _ _ _ _) as [[c' kill] d']. simplify_eq. apply Hn.
      destruct kill as [pid|]; [|done]. by rewrite crash_links.
  - destruct (is_alive _); simplify_eq. destruct Hn. by rewrite crash_links.
Qed.
End names.
End exclusion.

(** Past the lock, and not on the way out. *)
Definition is_up (ph : Phase) : bool :=
  match ph with Ph_Locked _ _ | Ph_Running _ => true | _ => false end.

(** C0. At most one daemon is up, whatever daemons and commands do and whichever
    calls fail or processes are killed, as long as nobody removes the PID file of
    a daemon that starts or runs; and only the end of another daemon, a failed
    start, and the commands that clean up can do that. *)
Theorem single_daemon {L : Type} `{!FileLocks L} `{!FileLocksLaws L} (cfg : Config) (version : string)
    (d : Disk L) (s : Sys L) (p q : nat) (php phq : Phase) :
  lock_path cfg ≠ socket_path cfg → lock_path cfg ≠ version_path cfg →
  rtc (fair_step cfg version) (mkSys ∅ d) s →
  is_daemon s p php → is_daemon s q phq → is_up php = true → is_up phq = true →
  p = q ∧
  ∀ s', sys_step cfg version s s' → steals_lock_file cfg s s' →
    ∃ r pr, sys_procs s !! r = Some pr ∧ removes_lock_file pr = true.
Proof.
  intros Hsocket Hversion Hs Hp Hq Hup Huq. split; [|intros; by eapply steals_by].
  destruct (lock_inv_steps cfg version _ _ Hs (lock_inv_init cfg d)) as [Hl Hn].
  destruct (locks_file php) as [f|] eqn:Ef; [|by destruct php].
  destruct (locks_file phq) as [g|] eqn:Eg; [|by destruct phq].
  assert (dk_links (sys_disk s) !! lock_path cfg = Some f) as Hf.
  { apply (Hn p php); [done |]. by destruct php. }
  assert (dk_links (sys_disk s) !! lock_path cfg = Some g) as Hg.
  { apply (Hn q phq); [done |]. by destruct phq. }
  assert (f = g) as -> by congruence.
  generalize (Hl p php g Hp Ef), (Hl q phq g Hq Eg). congruence.
Qed.

(** ** Locks as a map *)

Definition toy_locks : Type := gmap nat nat.

#[local] Instance toy_file_locks : FileLocks toy_locks := {
  try_lock_exclusive f p l := match l !! f with
                              | Some _ => (Some "Resource temporarily unavailable (os error 11)", l)
                              | None => (None, <[f := p]> l)
                              end;
  release_locks p l := filter (λ fp, fp.2 ≠ p) l
}.

#[local] Instance toy_file_locks_laws : FileLocksLaws toy_locks.
Proof.
  refine {| holder := λ l f, l !! f |}; simpl.
  - intros f p l g. destruct (l !! f) eqn:E; [done |]. simpl. intros _. split; [done |].
    case_decide; subst; [apply lookup_insert_eq | by apply lookup_insert_ne].
  - intros f p l e g. by destruct (l !! f).
  - intros f p l ->. done.
  - intros p l g. case_decide as Hd.
    + apply map_lookup_filter_None. right. intros q Hq Hne. apply Hne. simpl. cbv [toy_locks] in *. congruence.
    + destruct (l !! g) as [q|] eqn:E.
      * apply map_lookup_filter_Some. split; [done |]. simpl. congruence.
      * apply map_lookup_filter_None. by left.
Defined.

Definition sample_cfg : Config := Config_of "/state".
Definition sample_version : string := "0.2.0+abc".
Definition empty_disk : Disk toy_locks := mkDisk ∅ ∅ ∅ ∅ 0.
Definition sample_sys : Sys toy_locks := mkSys ∅ empty_disk.

Definition steps (n p : nat) : list Move := repeat (Mv_Step p None) n.
Definition starts (p : nat) : list Move := Mv_Start p (P_Daemon Ph_StateDir) :: steps 14 p.

Definition phase_of (s : option (Sys toy_locks)) (p : nat) : option Phase :=
  match s ≫= (λ s, sys_procs s !! p) with Some (P_Daemon ph) => Some ph | _ => None end.

Example a_start_runs :
  phase_of (sys_run sample_cfg sample_version (starts 1) sample_sys) 1 = Some (Ph_Running 0).
Proof. vm_compute. reflexivity. Qed.

Example a_second_start_exits :
  let s := sys_run sample_cfg sample_version (starts 1 ++ starts 2)%list sample_sys in
  phase_of s 1 = Some (Ph_Running 0) ∧
  phase_of s 2 = Some (Ph_Exited (inl (LockFailed "Resource temporarily unavailable (os error 11)"))).
Proof. vm_compute. auto. Qed.

(** [oj daemon stop] while a daemon starts: there is no socket yet, so the
    command cleans up a PID file that is not stale, and the next start finds
    nothing locked.  Both daemons run, on one log. *)
Example two_daemons :
  let s := sys_run sample_cfg sample_version
             (Mv_Start 1 (P_Daemon Ph_StateDir) :: steps 8 1 ++
              Mv_Start 2 (P_Client Cl_Stop) :: steps 2 2 ++ starts 3 ++ steps 6 1)%list sample_sys in
  phase_of s 1 = Some (Ph_Running 0) ∧ phase_of s 3 = Some (Ph_Running 1).
Proof. vm_compute. auto. Qed.

(** A start that fails before it comes to the lock cleans up after a daemon that
    runs: nothing of its names is left. *)
Example failed_start_cleans_up_the_running :
  let s := sys_run sample_cfg sample_version
             (starts 1 ++ [Mv_Start 2 (P_Daemon Ph_StateDir); Mv_Step 2 None;
                           Mv_Step 2 (Some "Too many open files (os error 24)")] ++ steps 3 2)%list
             sample_sys in
  phase_of s 1 = Some (Ph_Running 0) ∧
  (λ s, map_to_list (dk_links (sys_disk s))) <$> s = Some [].
Proof. vm_compute. auto. Qed.

Local Close Scope string_scope.

(** ** How a start ends *)




Section outcome.
Context {L : Type} `{!FileLocks L} `{!FileLocksLaws L} (cfg : Config) (version : string).
Context (Hsocket : lock_path cfg ≠ socket_path cfg) (Hversion : lock_path cfg ≠ version_path cfg)
  (Hother : socket_path cfg ≠ version_path cfg).
Implicit Types (d : Disk L).



















End outcome.

(** ** Witnesses *)

Section fair_run.
Context {L : Type} `{!FileLocks L} (cfg : Config) (version : string).

(** A run in which the PID file keeps its name. *)
Fixpoint quiet_run (ms : list Move) (s : Sys L) : option (Sys L) :=
  match ms with
  | [] => Some s
  | m :: ms =>
      s' ← sys_move cfg version m s;
      if bool_decide (dk_links (sys_disk s) !! lock_path cfg = None ∨
                      dk_links (sys_disk s') !! lock_path cfg = dk_links (sys_disk s) !! lock_path cfg)
      then quiet_run ms s' else None
  end.

Lemma quiet_run_fair ms : ∀ s s', quiet_run ms s = Some s' → rtc (fair_step cfg version) s s'.
Proof.
  induction ms as [|m ms IH]; intros s s'; simpl; [intros; simplify_eq; apply rtc_refl |].
  destruct (sys_move cfg version m s) as [s1|] eqn:Em; simpl; [|done].
  case_bool_decide as Hd; [|done]. intros Hr%IH. eapply rtc_l; [|done].
  split; [by exists m |]. intros (p & ph & f & _ & _ & Hf & Hn). destruct Hd; congruence.
Qed.
End fair_run.

(** Daemon 1 runs, the start of daemon 2 ends at the lock. *)
Definition one_up : Sys toy_locks :=
  default sample_sys (quiet_run sample_cfg sample_version (starts 1 ++ starts 2) sample_sys).

Lemma single_daemon_witness :
  lock_path sample_cfg ≠ socket_path sample_cfg ∧ lock_path sample_cfg ≠ version_path sample_cfg ∧
  rtc (fair_step sample_cfg sample_version) sample_sys one_up ∧
  is_daemon one_up 1 (Ph_Running 0) ∧ is_up (Ph_Running 0) = true ∧
  (∀ p ph, is_daemon one_up p ph → is_up ph = true → p = 1).
Proof.
  assert (lock_path sample_cfg ≠ socket_path sample_cfg) as H1 by done.
  assert (lock_path sample_cfg ≠ version_path sample_cfg) as H2 by done.
  assert (rtc (fair_step sample_cfg sample_version) sample_sys one_up) as H3.
  { apply quiet_run_fair with (ms := (starts 1 ++ starts 2)%list). vm_compute. reflexivity. }
  assert (is_daemon one_up 1 (Ph_Running 0)) as H4 by (vm_compute; reflexivity).
  refine (conj H1 (conj H2 (conj H3 (conj H4 (conj eq_refl _))))). intros p ph Hp Hup.
  exact (proj1 (single_daemon sample_cfg sample_version empty_disk one_up p 1 ph (Ph_Running 0)
                  H1 H2 H3 Hp H4 Hup eq_refl)).
Defined.






(** ** The log of starts *)

Local Open Scope string_scope.

Definition STARTUP_MARKER_PREFIX : string := "--- ojd: starting (pid: ".

(** What [write_startup_marker] and [write_startup_error] append to the log. *)
Definition startup_marker (p : nat) : string :=
  STARTUP_MARKER_PREFIX +:+ pretty p +:+ ") ---" +:+ newline_str +:+ newline_str.

Definition startup_error_line (e : LifecycleError) : string :=
  "ERROR Failed to start daemon: " +:+ LifecycleError_display e.

(** [str::rfind]: the text from the last occurrence on. *)
Fixpoint rfind_str (p s : string) : option string :=
  match s with
  | EmptyString => if starts_with p "" then Some "" else None
  | String _ s' => match rfind_str p s' with
                   | Some r => Some r
                   | None => if starts_with p s then Some s else None
                   end
  end.

Definition is_error_line (line : string) : bool :=
  contains " ERROR " line || contains "Failed to start" line.

Definition parse_startup_error (content : string) : option string :=
  startup_log ← rfind_str STARTUP_MARKER_PREFIX content;
  let errors := List.filter is_error_line (str_lines startup_log) in
  match errors with
  | [] => None
  | _ =>
      match omap (λ line, snd <$> find_str ": " line) errors with
      | [] => Some (String.concat newline_str errors)
      | error_messages => Some (String.concat newline_str error_messages)
      end
  end.

(** The last 100 KB of the log; bytes that are no text are an error. *)
Definition TAIL_SIZE : nat := 100 * 1024.
Definition read_startup_error (log : option string) : option string :=
  content ← log;
  let tail := if (TAIL_SIZE <? String.length content)%nat
              then drop_str (String.length content - TAIL_SIZE) content else content in
  if utf8_valid tail then parse_startup_error tail else None.

(** *** Searching *)

Lemma contains_lacks c p s : has_char c p = true → has_char c s = false → contains p s = false.
Proof.
  intros Hp. induction s as [|a s IH]; intros Hs; simpl.
  - rewrite orb_false_r. apply not_true_iff_false. intros [r Hr]%starts_with_spec.
    destruct p; done.
  - simpl in Hs. apply orb_false_iff in Hs as [Ha Hs]. rewrite (IH Hs), orb_false_r.
    apply not_true_iff_false. intros [r Hr]%starts_with_spec.
    assert (has_char c (String a s) = true) as Hc by (by rewrite Hr, has_char_app, Hp).
    simpl in Hc. by rewrite Ha, Hs in Hc.
Qed.

(** An occurrence of [p] begins at a character of [s] that can begin it. *)
Lemma contains_skip c p a s : has_char c a = false → contains (String c p) (a +:+ s) = contains (String c p) s.
Proof.
  induction a as [|b a IH]; [done |]. intros [Hb Ha]%orb_false_iff.
  change (String b a +:+ s) with (String b (a +:+ s)). cbn [contains]. rewrite (IH Ha).
  cbv [starts_with strip_prefix]. by rewrite Ascii.eqb_sym, Hb.
Qed.

(** A pattern without a newline is in one line or in the rest. *)
Lemma contains_line p l s :
  has_char newline p = false → p ≠ "" →
  contains p (l +:+ String newline s) = contains p l || contains p s.
Proof.
  intros Hp Hne.
  assert (∀ l, starts_with p (l +:+ String newline s) = starts_with p l) as Hst.
  { clear l Hne. induction p as [|a p IH]; [by destruct l |]. intros [|b l].
    - apply orb_false_iff in Hp as [Ha _]. cbv [starts_with strip_prefix String.append].
      by rewrite Ha.
    - apply orb_false_iff in Hp as [_ Hp]. specialize (IH Hp l). revert IH.
      cbv [starts_with]. simpl. by destruct (Ascii.eqb a b). }
  induction l as [|a l IH]; cbn [contains String.append].
  - pose proof (Hst "") as H0. simpl in H0. rewrite H0. by destruct p.
  - pose proof (Hst (String a l)) as H0. simpl in H0. rewrite H0, IH. by rewrite orb_assoc.
Qed.

Lemma rfind_str_None p s : p ≠ "" → contains p s = false → rfind_str p s = None.
Proof.
  intros Hne. induction s as [|a s IH]; cbn [contains rfind_str]; intros [Ha Hs]%orb_false_iff.
  - by rewrite Ha.
  - by rewrite (IH Hs), Ha.
Qed.

(** The last occurrence is found behind any text. *)
Lemma rfind_str_last c p a s :
  contains (String c p) (p +:+ s) = false →
  rfind_str (String c p) (a +:+ String c p +:+ s) = Some (String c p +:+ s).
Proof.
  intros Hs. induction a as [|b a IH]; cbn [String.append rfind_str].
  - rewrite rfind_str_None by done.
    pose proof (starts_with_app (String c p) s) as Hst. cbn [String.append] in Hst. by rewrite Hst.
  - cbn [String.append] in IH. by rewrite IH.
Qed.

(** *** Lines *)

(** A line of the log. *)
Definition one_line (l : string) : Prop := has_char newline l = false ∧ strip_suffix cr_str l = None.

(** ... that does not mark another start. *)
Definition log_line (l : string) : Prop := one_line l ∧ contains STARTUP_MARKER_PREFIX l = false.

Definition write_log (ls : list string) : string :=
  foldr (λ l rest, l +:+ String newline rest) "" ls.

Lemma write_log_cons l ls : write_log (l :: ls) = l +:+ String newline (write_log ls).
Proof. done. Qed.

Lemma strip_suffix_app p s : strip_suffix p (s +:+ p) = Some s.
Proof.
  unfold strip_suffix. rewrite rev_str_app, strip_prefix_app. simpl. by rewrite rev_str_involutive.
Qed.

Lemma without_line_end_line l : strip_suffix cr_str l = None → without_line_end (l +:+ newline_str) = l.
Proof. intros Hcr. unfold without_line_end. by rewrite strip_suffix_app, Hcr. Qed.

Lemma no_cr l : has_char "013" l = false → strip_suffix cr_str l = None.
Proof.
  intros Hcr. destruct (strip_suffix cr_str l) as [r|] eqn:E; [|done]. exfalso.
  unfold strip_suffix in E. apply fmap_Some in E as (x & Hx%strip_prefix_Some & _).
  assert (l = rev_str x +:+ cr_str) as ->.
  { by rewrite <-(rev_str_involutive l), Hx, rev_str_app. }
  by rewrite has_char_app, orb_true_r in Hcr.
Qed.

Lemma str_lines_write_log ls : Forall one_line ls → str_lines (write_log ls) = ls.
Proof.
  unfold str_lines. induction 1 as [|l ls (Hn & Hr) _ IH]; [done |].
  rewrite write_log_cons, raw_lines_cons, fmap_cons, without_line_end_line by done.
  f_equal. exact IH.
Qed.

Lemma contains_write_log p ls :
  has_char newline p = false → p ≠ "" → Forall (λ l, contains p l = false) ls →
  contains p (write_log ls) = false.
Proof.
  intros Hp Hne. induction 1 as [|l ls Hl _ IH].
  - by destruct p.
  - by rewrite write_log_cons, contains_line, Hl, IH.
Qed.

Lemma pretty_lacks c (p : nat) : decimal c = false → has_char c (pretty p) = false.
Proof.
  intros Hc. unfold pretty, pretty_nat. generalize (N.of_nat p). intros n.
  assert (all_chars decimal (pretty n) = true) as Hd.
  { unfold pretty, pretty_N. destruct (decide (n = 0)%N); [done |].
    apply all_chars_go; [|done]. intros d Hd. by apply digit_char. }
  revert Hd. generalize (pretty n). intros s. induction s as [|a s IH]; [done |]. simpl.
  intros [Ha Hs]%andb_true_iff. rewrite (IH Hs), orb_false_r.
  destruct (Ascii.eqb_spec a c) as [->|]; [congruence | done].
Qed.

(** The text of a start, as lines. *)
Lemma startup_log_lines (p : nat) ls :
  startup_marker p +:+ write_log ls =
  write_log ((STARTUP_MARKER_PREFIX +:+ pretty p +:+ ") ---") :: "" :: ls).
Proof. unfold startup_marker. rewrite !write_log_cons, !string_app_assoc. done. Qed.

Lemma marker_line (p : nat) : is_error_line (STARTUP_MARKER_PREFIX +:+ pretty p +:+ ") ---") = false.
Proof.
  unfold is_error_line. rewrite (contains_lacks "R" " ERROR "), (contains_lacks "F"); try done;
    rewrite !has_char_app, pretty_lacks; done.
Qed.

(** The lines that [parse_startup_error] looks at are those after the last
    marker. *)
Lemma last_start log p ls :
  Forall log_line ls →
  parse_startup_error (log +:+ startup_marker p +:+ write_log ls) =
  match List.filter is_error_line ls with
  | [] => None
  | errors => match omap (λ line, snd <$> find_str ": " line) errors with
              | [] => Some (String.concat newline_str errors)
              | error_messages => Some (String.concat newline_str error_messages)
              end
  end.
Proof.
  intros Hls. unfold parse_startup_error.
  assert (contains STARTUP_MARKER_PREFIX (") ---" +:+ String newline (String newline (write_log ls))) = false)
    as Hrest.
  { change (String newline (write_log ls)) with ("" +:+ String newline (write_log ls)).
    rewrite !contains_line, (contains_write_log _ ls); try done.
    apply (Forall_impl _ _ _ Hls). by intros l (_ & ?). }
  assert (rfind_str STARTUP_MARKER_PREFIX (log +:+ startup_marker p +:+ write_log ls) =
          Some (startup_marker p +:+ write_log ls)) as ->.
  { unfold startup_marker. rewrite !string_app_assoc.
    apply (rfind_str_last "-" "-- ojd: starting (pid: ").
    assert (∀ s, contains STARTUP_MARKER_PREFIX ("-- ojd: starting (pid: " +:+ s) =
                 contains STARTUP_MARKER_PREFIX s) as Hs by done.
    rewrite Hs. unfold STARTUP_MARKER_PREFIX at 1. rewrite contains_skip; [exact Hrest |].
    by apply pretty_lacks. }
  cbn [mbind option_bind]. rewrite startup_log_lines, str_lines_write_log.
  - cbn [List.filter]. rewrite marker_line. change (is_error_line "") with false. by destruct (List.filter is_error_line ls).
  - constructor; [|constructor; [done |]].
    + split; [|apply no_cr]; by rewrite !has_char_app, pretty_lacks.
    + apply (Forall_impl _ _ _ Hls). by intros l [? _].
Qed.

(** C0. Whatever the log holds, the command line reports the error that the last
    start has written, also behind other lines of it, and nothing for a start
    that has written none, even if earlier ones failed. *)
Theorem startup_error_reported (log : string) (p : nat) (before : list string) (e : LifecycleError) :
  Forall (λ l, log_line l ∧ is_error_line l = false) before → log_line (startup_error_line e) →
  parse_startup_error (log +:+ startup_marker p +:+ write_log (before ++ [startup_error_line e])%list)
    = Some (LifecycleError_display e) ∧
  parse_startup_error (log +:+ startup_marker p +:+ write_log before) = None.
Proof.
  intros Hbefore He.
  assert (Forall log_line before) as Hlines by (apply (Forall_impl _ _ _ Hbefore); naive_solver).
  assert (List.filter is_error_line before = []) as Hno.
  { clear -Hbefore. induction Hbefore as [|l ls [_ Hl] _ IH]; [done |]. simpl. by rewrite Hl. }
  split; rewrite last_start; [| | by rewrite Hno | done].
  - assert (is_error_line (startup_error_line e) = true) as Herr.
    { unfold is_error_line. apply orb_true_iff. by right. }
    rewrite List.filter_app, Hno. cbn [List.filter app]. by rewrite Herr.
  - apply Forall_app. by split; [|constructor].
Qed.

Lemma startup_error_reported_witness :
  let before := ["2026-01-01T00:00:00Z  INFO ojd: Starting user-level daemon"] in
  let e := BindFailed "/state/daemon.sock" "Address already in use (os error 98)" in
  log_line (startup_error_line e) ∧
  parse_startup_error ((startup_marker 7 +:+ write_log [startup_error_line NoStateDir]) +:+
                       startup_marker 8 +:+ write_log (before ++ [startup_error_line e])%list)
    = Some "Failed to bind socket at /state/daemon.sock: Address already in use (os error 98)".
Proof.
  assert (log_line (startup_error_line
    (BindFailed "/state/daemon.sock" "Address already in use (os error 98)"))) as H by (vm_compute; auto).
  split; [exact H |].
  refine (proj1 (startup_error_reported _ 8 ["2026-01-01T00:00:00Z  INFO ojd: Starting user-level daemon"]
                   _ _ H)).
  repeat constructor; vm_compute; auto.
Defined.

(** The tail of the log may begin inside a character; then no error is found. *)
Example cut_character_hides_error :
  let log := Nat.iter TAIL_SIZE (λ s, "é" +:+ s)
               (startup_marker 17 +:+ write_log [startup_error_line NoStateDir]) in
  parse_startup_error log = Some "Could not determine state directory" ∧
  read_startup_error (Some log) = None.
Proof. vm_compute. auto. Qed.

Local Close Scope string_scope.

(** ** Rotation of logs *)

Section Rotation.
Context {L : Type}.
Implicit Types (d : Disk L).

(** [std::fs::rename], its error ignored. *)
Definition rename_path (from to : PathBuf) d : Disk L :=
  match dk_links d !! from with
  | Some f => on_links (λ m, <[to := f]> (delete from m)) d
  | None => d
  end.

Definition MAX_LOG_SIZE : Z := 10 * 1024 * 1024.
Definition MAX_ROTATED_LOGS : nat := 3.

(** [format!("{path}.{i}")]. *)
Definition rotated (path : PathBuf) (i : nat) : PathBuf := path +:+ String "." (pretty i).

Definition rotate_files (path : PathBuf) d : Disk L :=
  rename_path path (rotated path 1)
    (foldl (λ d i, rename_path (rotated path i) (rotated path (S i)) d) d
       (reverse (seq 1 (MAX_ROTATED_LOGS - 1)))).

Definition rotate_log_if_needed (path : PathBuf) d : Disk L :=
  match read_path path d with
  | None => d
  | Some content =>
      if (Z.of_nat (String.length content) <? MAX_LOG_SIZE)%Z then d else rotate_files path d
  end.

Lemma links_rename from to d path :
  from ≠ to →
  dk_links (rename_path from to d) !! path =
  match dk_links d !! from with
  | Some f => if decide (path = to) then Some f
              else if decide (path = from) then None else dk_links d !! path
  | None => dk_links d !! path
  end.
Proof.
  intros Hne. unfold rename_path. destruct (dk_links d !! from) as [f|] eqn:E; [|done]. simpl.
  case_decide; [subst; apply lookup_insert_eq |]. rewrite lookup_insert_ne by done.
  case_decide; [subst; apply lookup_delete_eq | by apply lookup_delete_ne].
Qed.

Lemma rotated_inj path i j : rotated path i = rotated path j → i = j.
Proof. intros H%(inj (String.append path)). injection H as H. by apply (inj pretty) in H. Qed.

Lemma rotated_not path i : rotated path i ≠ path.
Proof.
  unfold rotated. intros H. apply (f_equal String.length) in H.
  rewrite string_length_app in H. simpl in H. lia.
Qed.

(** A log of 10 MB or more becomes the first old log, the old logs move on, and
    the third is dropped if there is a second; contents and other files stay.
    Any other log is left as it is. *)
Theorem rotation_shifts path d :
  let d' := rotate_log_if_needed path d in
  dk_data d' = dk_data d ∧ dk_locks d' = dk_locks d ∧
  if default false ((λ text, (MAX_LOG_SIZE <=? Z.of_nat (String.length text))%Z) <$> read_path path d)
  then
    dk_links d' !! path = None ∧
    dk_links d' !! rotated path 1 = dk_links d !! path ∧
    dk_links d' !! rotated path 2 = dk_links d !! rotated path 1 ∧
    dk_links d' !! rotated path 3 =
      match dk_links d !! rotated path 2 with Some f => Some f | None => dk_links d !! rotated path 3 end ∧
    ∀ other, other ∉ [path; rotated path 1; rotated path 2; rotated path 3] →
      dk_links d' !! other = dk_links d !! other
  else d' = d.
Proof.
  intros d'. subst d'. unfold rotate_log_if_needed.
  assert (∀ from to d, dk_data (rename_path from to d) = dk_data d ∧
                       dk_locks (rename_path from to d) = dk_locks d) as Hsame.
  { intros from to d0. unfold rename_path. by destruct (dk_links d0 !! from). }
  destruct (read_path path d) as [text|] eqn:Hr; [|done]. cbn [fmap option_fmap option_map default].
  rewrite Z.leb_antisym. destruct (_ <? _)%Z; cbn [negb]; [done |].
  assert (is_Some (dk_links d !! path)) as [f Hf].
  { unfold read_path in Hr. destruct (dk_links d !! path); [by eexists | done]. }
  unfold rotate_files. change (reverse (seq 1 (MAX_ROTATED_LOGS - 1))) with [2; 1]. cbn [foldl].
  split; [by rewrite !(proj1 (Hsame _ _ _)) |]. split; [by rewrite !(proj2 (Hsame _ _ _)) |].
  assert (∀ i j, i ≠ j → rotated path i ≠ rotated path j) as Hij by (by intros i j Hn ?%rotated_inj).
  pose proof (rotated_not path) as Hp. pose proof (λ i, not_eq_sym (Hp i)) as Hp'.
  pose proof (Hij 1 2 ltac:(done)). pose proof (Hij 2 3 ltac:(done)).
  pose proof (Hij 1 3 ltac:(done)). pose proof (Hij 2 1 ltac:(done)).
  pose proof (Hij 3 2 ltac:(done)). pose proof (Hij 3 1 ltac:(done)).
  split_and!; intros; rewrite !links_rename by auto; rewrite !Hf.
  all: try match goal with H : _ ∉ _ |- _ => apply not_elem_of_cons in H as [? H];
    do 3 (apply not_elem_of_cons in H as [? H]) end.
  all: repeat (rewrite decide_False by congruence).
  all: destruct (dk_links d !! rotated path 2) eqn:E2, (dk_links d !! rotated path 1) eqn:E1.
  all: repeat case_decide; congruence.
Qed.
End Rotation.

(** ** The data of a shutdown and of the next start *)

Section Storage.
Context {Value W : Type} `{!Codec (Event Value)} `{!CheckpointWriter W}.
Context (to_json : Snapshot Value → option string)
        (zstd_encode : Z → string → string + string)
        (with_tmp_extension : PathBuf → PathBuf) (parent : PathBuf → option PathBuf).

(** [shutdown] up to the removal of the files: the log is flushed, and the state
    saved if an event has been processed.  Failures are only logged. *)
Definition shutdown_storage (now : Z) (io : FlushIO) (state : MaterializedState Value)
    (snapshot_path : PathBuf) (w : W) (wal : Wal) : W * Wal :=
  let wal := (flush now io wal).2 in
  let seq := processed_seq wal in
  (if (0 <? seq)%Z
   then (checkpoint_blocking to_json zstd_encode with_tmp_extension parent now seq state
          snapshot_path 3 w).1.2
   else w, wal).
End Storage.

Section restart.
Context {Value W : Type} `{!Codec (Event Value)} `{!CodecLaws (Event Value)}.
Context `{!CheckpointWriter W}.
Context (to_json : Snapshot Value → option string)
        (zstd_encode : Z → string → string + string)
        (with_tmp_extension : PathBuf → PathBuf) (parent : PathBuf → option PathBuf)
        (snapshot_path dir : PathBuf)
        `{!WriterLaws W (with_tmp_extension snapshot_path) snapshot_path dir}
        (Hparent : parent snapshot_path = Some dir).
Context (load : string → option (Snapshot Value)).

(** What the final snapshot can leave: what was there, or itself. *)
Lemma shutdown_snapshot now state w seq data :
  snapshot_bytes to_json zstd_encode now seq state 3 = Some data →
  ∀ c, after_crash (checkpoint_blocking to_json zstd_encode with_tmp_extension parent now seq state
                      snapshot_path 3 w).1.2 c →
    after_crash w c ∨ c = Some data.
Proof.
  intros Hd c. pose proof (checkpoint_run_ok to_json zstd_encode with_tmp_extension parent
    snapshot_path dir Hparent w data seq now state 3 w (λ c Hc, or_introl Hc) Hd) as Hrun.
  destruct (checkpoint_blocking _ _ _ _ _ _ _ _ _ _) as [[r w'] ws].
  destruct Hrun as [Hws _]. apply Forall_cons in Hws as [Hs _]. apply Hs.
Qed.

(** C0. What a shutdown leaves restores, at the next start, the state that the whole
    history had built, also events that were not yet processed or not yet on the
    disk, whether or not the final snapshot succeeds and wherever a crash
    interrupts it.  It takes that the log is flushed, that the state holds what
    is processed and at most the next event ([saved_at]), and that no agent
    signal of the history finds two jobs or two runs. *)
Theorem restart_restores_state now now' envs state at_seq hist w wal data s c :
  covers load at_seq hist w wal → increasing hist → Forall (λ e, (0 < e.1)%Z) hist →
  snapshot_bytes to_json zstd_encode now (processed_seq wal) state 3 = Some data →
  load data = Some s → snapshot_seq s = processed_seq wal → snapshot_state s = state →
  saved_at at_seq hist (processed_seq wal) state → history_clear at_seq hist →
  let '(w', wal') := shutdown_storage to_json zstd_encode with_tmp_extension parent now io_ok state
                       snapshot_path w wal in
  after_crash w' c →
  (recover now' envs (c ≫= load) (file wal')).1.1 ≡ live at_seq hist MaterializedState_default.
Proof.
  intros (m & L & HR & Hes & Hm & Hc) Hinc Hpos Hd Hload Hseq Hst Hlive He.
  destruct (flush_refines now wal L HR) as (wal' & Hfl & HR').
  unfold shutdown_storage. rewrite Hfl. cbn [snd].
  assert (processed_seq wal' = processed_seq wal) as Hp.
  { rewrite (rep_done _ _ HR), (rep_done _ _ HR'). done. }
  rewrite Hp. destruct HR' as [(ls & Hls & Hfile & _) _ _ _ _]. cbn [log_flush log_entries] in Hls.
  rewrite Hes in Hls. intros Hcrash. rewrite Hfile.
  assert (∃ n, (m ≤ n + 1)%Z ∧ snapshot_of at_seq hist (c ≫= load) n) as (n & Hmn & Hsnap).
  { assert (∀ c, after_crash w c → ∃ n, (m ≤ n + 1)%Z ∧ snapshot_of at_seq hist (c ≫= load) n) as Hold.
    { intros c0 Hc0. destruct (Hc c0 Hc0) as (n & ? & _ & ?). by exists n. }
    destruct (0 <? processed_seq wal)%Z; [|by apply Hold].
    apply (shutdown_snapshot _ _ _ _ _ Hd) in Hcrash as [?| ->]; [by apply Hold |].
    exists (processed_seq wal). split; [done |]. simpl. rewrite Hload. simpl. by rewrite Hst. }
  by eapply (recovery_restores now' envs at_seq hist _ n m ls).
Qed.
End restart.

(** A log whose second entry is only in the buffer. *)
Definition pending_log : Wal := mkWal (write_lines ["{1}"%string]) 2 1 ["{2}"%string] 0 4.

Lemma pending_covers (load : string → option (Snapshot unit)) :
  covers load (λ _, env_at 0) sample_history (Checkpoint.mkDisk None None None) pending_log.
Proof.
  exists 1%Z, (mkLog [(1%Z, sample_event)] [(2%Z, sample_event)] 1 2%Z 1%Z). split_and!.
  - split; try done; [| by repeat constructor].
    exists ["{1}"%string]. split_and!; [repeat constructor | done | done].
  - done.
  - simpl. lia.
  - intros c [->|(d & Hd & _)]; [| done]. exists 0%Z. split_and!; [lia | simpl; lia | done].
Qed.

Lemma restart_restores_state_witness :
  let to_json := λ _ : Snapshot unit, Some "json"%string in
  let zstd := λ (_ : Z) (j : string), (inr (String.append "z" j) : string + string) in
  let load := λ s : string, if String.eqb s "zjson" then Some sample_snapshot else None in
  let '(w', wal') := shutdown_storage to_json zstd (λ p, String.append p ".tmp") (λ _, Some "/"%string) 0
                       io_ok (snapshot_state sample_snapshot) "s" (Checkpoint.mkDisk None None None)
                       pending_log in
  after_crash w' (Some "zjson"%string) ∧
  (recover 5 (λ _, env_at 9) (load "zjson"%string) (file wal')).1.1
    ≡ live (λ _, env_at 0) sample_history MaterializedState_default.
Proof.
  assert (increasing sample_history) as H1 by (repeat constructor).
  assert (Forall (λ e, (0 < e.1)%Z) sample_history) as H2 by (repeat constructor).
  pose proof (restart_restores_state (λ _ : Snapshot unit, Some "json"%string)
    (λ (_ : Z) (j : string), (inr (String.append "z" j) : string + string))
    (λ p, String.append p ".tmp") (λ _, Some "/"%string) "s" "/" eq_refl
    (λ s : string, if String.eqb s "zjson" then Some sample_snapshot else None)
    0 5 (λ _, env_at 9) (snapshot_state sample_snapshot) (λ _, env_at 0) sample_history
    (Checkpoint.mkDisk None None None) pending_log "zjson" sample_snapshot (Some "zjson"%string)
    (pending_covers _) H1 H2 eq_refl eq_refl eq_refl eq_refl (or_introl (reflexivity _))
    ltac:(repeat split)) as H.
  assert (after_crash (shutdown_storage (λ _ : Snapshot unit, Some "json"%string)
    (λ (_ : Z) (j : string), (inr (String.append "z" j) : string + string))
    (λ p, String.append p ".tmp") (λ _, Some "/"%string) 0 io_ok (snapshot_state sample_snapshot) "s"
    (Checkpoint.mkDisk None None None) pending_log).1 (Some "zjson"%string)) as Hc by (left; reflexivity).
  exact (conj Hc (H Hc)).
Defined.

(** ** Reconciliation after a start *)

Section Reconciliation.
Context {Value : Type}.
Implicit Types (s : MaterializedState Value).

(** The counts of [ReconcileCtx]. *)
Definition job_count s : nat := size (filter (λ kj, Job_is_terminal kj.2 = false) (jobs s)).
Definition worker_count s : nat :=
  size (filter (λ kw, String.eqb (worker_status kw.2) "running" = true) (workers s)).
Definition cron_count s : nat :=
  size (filter (λ kc, String.eqb (cron_rec_status kc.2) "running" = true) (crons s)).
Definition agent_run_count s : nat :=
  size (filter (λ ka, AgentRun_is_terminal ka.2 = false) (agent_runs s)).

(** Whether [main] starts the reconciliation. *)
Definition needs_reconcile s : bool :=
  (0 <? job_count s) || (0 <? worker_count s) || (0 <? cron_count s) || (0 <? agent_run_count s).

Lemma none_in_table {V} (P : string * V → Prop) `{!∀ x, base.Decision (P x)} (q : V → bool) e t
    (m : gmap string V) :
  (0 <? size (filter P m)) = false → (∀ k v, ¬ P (k, v) → q v = false) →
  List.filter q (table_values e t m) = [].
Proof.
  intros Hsize%Nat.ltb_ge HP.
  assert (filter P m = ∅) as Hempty by (apply map_size_empty_iff; lia).
  assert (∀ v, v ∈ table_values e t m → q v = false) as Hall.
  { intros v [k Hk]%elem_of_table_values. apply (HP k). intros Hp.
    apply (map_filter_empty_not_lookup P m k v Hempty Hp) in Hk. done. }
  revert Hall. generalize (table_values e t m). intros l. induction l as [|v l IH]; [done |].
  intros Hall. simpl. rewrite Hall by left. apply IH. intros v' Hv'. apply Hall. by right.
Qed.
End Reconciliation.

Section Skip.
Context {Value W : Type} `{AD : !Adapters Value W} `{RIO : !RuntimeIO Value W} `{!JsonItem Value}
  `{!TemplateRegex} `{!Processes W} `{!JsonBuild Value} `{AI : !AgentIO W} `{!SpawnIO W}
  `{LIO : !ListenIO W}.

(** When [main] does not start the reconciliation, all that it would have done is
    the pruning of sessions. *)
Lemma skipped_reconciliation (env : Env) (s : MaterializedState Value) (r : Rt Value W) :
  needs_reconcile s = false → reconcile_state env s r = reconcile_sessions env s r.
Proof.
  unfold needs_reconcile. intros [[[Hj Hw]%orb_false_iff Hc]%orb_false_iff Ha]%orb_false_iff.
  unfold reconcile_state, resumed_workers, resumed_crons.
  rewrite (none_in_table _ _ env TJobs _ Hj), (none_in_table _ _ env TWorkers _ Hw),
    (none_in_table _ _ env TCrons _ Hc), (none_in_table _ _ env TAgentRuns _ Ha).
  - cbn [reconcile_each fmap list_fmap]. unfold mbind, rt_bind.
    destruct (reconcile_sessions env s r) as [[e|deleted] r']; [done |].
    unfold mret. cbn. by rewrite !app_nil_r.
  - intros k v Hn. simpl in Hn. by destruct (AgentRun_is_terminal v).
  - intros k v Hn. simpl in Hn. by destruct (String.eqb _ _).
  - intros k v Hn. simpl in Hn. by destruct (String.eqb _ _).
  - intros k v Hn. simpl in Hn. by destruct (Job_is_terminal v).
Qed.
End Skip.

(** A session of nobody, the only thing in the state: it ought to go, but nothing
    looks for it. *)
Example orphan_session_stays :
  let s : MaterializedState unit := apply_event (env_at 0) (SessionCreated "oj-gone" (Owner_Job "gone"))
             MaterializedState_default in
  needs_reconcile s = false ∧
  existsb (should_prune (env_at 0) s) (table_values (env_at 0) TSessions (sessions s)) = true.
Proof. vm_compute. auto. Qed.
