(* ===== verification/UsageMetrics.v ===== *)
(** The usage metrics of [crates/engine/src/usage_metrics.rs]: the collector, its
    records and their file, and the sessions of tmux that nobody knows.

    A cycle is a function of the agents and jobs of the state and of the world;
    the task that runs cycles forever is the sequence of them.  The order in
    which hash maps are iterated comes from [Env].  Files, tmux, the clock and
    JSON are the class [MetricsIO]. *)

From S2P Require Import Prelude Ids Runbook Bytes Vars Slug Entities Job Event State Runtime JobCreate.
From S2P Require Import Effect Executor WorkerQueue RunbookImport Breadcrumb SessionLog SessionLogSpec.
From S2P Require Import ClaudeAgent ClaudeAgentSpec Listener.

Local Open Scope string_scope.

(** Ten megabytes, three old files, and a look for ghosts every tenth cycle. *)
Definition MAX_METRICS_SIZE : Z := 10 * 1024 * 1024.
Definition MAX_ROTATED_FILES : nat := 3.
Definition GHOST_CHECK_EVERY_N : Z := 10.

Record UsageRecord := mkUsageRecord {
  ur_timestamp : string;
  ur_agent_id : string;
  ur_session_id : string;
  ur_agent_kind : option string;
  ur_job_id : option string;
  ur_job_kind : option string;
  ur_job_step : option string;
  ur_namespace : option string;
  ur_status : string;
  ur_input_tokens : Z;
  ur_output_tokens : Z;
  ur_cache_creation_input_tokens : Z;
  ur_cache_read_input_tokens : Z;
  ur_model : option string
}.

Definition MetricsHealth_default : MetricsHealth := mkMetricsHealth 0 0 None [].

(** [SessionParseState]: the offset, and the five totals. *)
Record SessionParseState := mkParse { ps_offset : nat; ps_totals : UsageDeltas }.
Definition SessionParseState_zero : SessionParseState := mkParse 0 UsageDeltas_zero.

Record AgentMeta := mkMeta {
  am_agent_kind : option string;
  am_job_id : option string;
  am_job_kind : option string;
  am_job_step : option string;
  am_namespace : option string;
  am_status : string
}.

Record UsageMetricsCollector := mkCollector {
  uc_metrics_dir : PathBuf;
  uc_sessions : gmap string SessionParseState;
  uc_agent_meta : gmap string AgentMeta;
  uc_health : MetricsHealth;
  uc_cycle_count : Z
}.

(** [spawn_collector], before the first cycle. *)
Definition UsageMetricsCollector_new (metrics_dir : PathBuf) : UsageMetricsCollector :=
  mkCollector metrics_dir ∅ ∅ MetricsHealth_default 0.

(** An error is its text; [None] is success. *)
Class MetricsIO (W : Type) := {
  um_size : PathBuf → W → option Z;
  um_create_dir_all : PathBuf → W → option string * W;
  um_open_append : PathBuf → W → option string * W;
  um_write_line : PathBuf → string → W → option string * W;
  um_sync_all : PathBuf → W → option string * W;
  (** [fs::rename], its error ignored. *)
  um_rename : PathBuf → PathBuf → W → W;
  (** [serde_json::to_string]. *)
  um_to_string : UsageRecord → option string;
  (** The output of [tmux list-sessions], made text, if it succeeds. *)
  um_list_sessions : W → option string;
  (** The clock, in milliseconds since the epoch. *)
  um_now_ms : W → Z
}.

(** [iso_now], of the seconds since the epoch. *)
Definition iso_now (secs : Z) : string :=
  let days := (secs / 86400)%Z in
  let day_secs := (secs mod 86400)%Z in
  let hour := (day_secs / 3600)%Z in
  let min := ((day_secs mod 3600) / 60)%Z in
  let sec := (day_secs mod 60)%Z in
  let z := (days + 719468)%Z in
  let era := (Z.quot (if (0 <=? z)%Z then z else z - 146096) 146097)%Z in
  let doe := (z - era * 146097)%Z in
  let yoe := ((doe - doe / 1460 + doe / 36524 - doe / 146096) / 365)%Z in
  let y := (yoe + era * 400)%Z in
  let doy := (doe - (365 * yoe + yoe / 4 - yoe / 100))%Z in
  let mp := ((5 * doy + 2) / 153)%Z in
  let d := (doy - (153 * mp + 2) / 5 + 1)%Z in
  let m := if (mp <? 10)%Z then (mp + 3)%Z else (mp - 9)%Z in
  let y := if (m <=? 2)%Z then (y + 1)%Z else y in
  pad0 4 y +:+ "-" +:+ pad0 2 m +:+ "-" +:+ pad0 2 d +:+ "T" +:+ pad0 2 hour +:+ ":" +:+ pad0 2 min
  +:+ ":" +:+ pad0 2 sec +:+ "Z".

(** [total += delta] of the four counts; a model replaces the one before. *)
Definition add_deltas (t d : UsageDeltas) : UsageDeltas :=
  mkUsage (input_tokens t +u64 input_tokens d)%oj
          (output_tokens t +u64 output_tokens d)%oj
          (cache_creation_input_tokens t +u64 cache_creation_input_tokens d)%oj
          (cache_read_input_tokens t +u64 cache_read_input_tokens d)%oj
          (match usage_model d with Some m => Some m | None => usage_model t end).

Section Collector.
Context {Value W : Type} `{JV : !JsonValue Value} `{JI : !JsonItem Value} `{SJ : !SessionJson Value}
  `{AH : !AgentHost W} `{MIO : !MetricsIO W}.
Implicit Types (c : UsageMetricsCollector) (w : W).

(** What the metadata of an agent says, with the job as the state has it now. *)
Definition agent_meta_of (jobs : gmap JobId Job) (record : AgentRecord) : AgentMeta :=
  let '(job_id, job_kind, job_step) :=
    match rec_owner record with
    | Owner_Job jid =>
        let job := jobs !! jid in
        (Some jid, job_kind <$> job, job_step <$> job)
    | Owner_AgentRun _ => (None, None, None)
    end in
  mkMeta (Some (rec_agent_name record)) job_id job_kind job_step (Some (rec_namespace record))
    (AgentRecordStatus_display (rec_status record)).

(** The part of an agent's session log that is new. *)
Definition parse_session (id : string) (log : option string)
    (sessions : gmap string SessionParseState) : gmap string SessionParseState :=
  let parse_state := default SessionParseState_zero (sessions !! id) in
  let '(deltas, new_offset) := parse_session_usage (Value:=Value) log (ps_offset parse_state) in
  <[id := mkParse new_offset (add_deltas (ps_totals parse_state) deltas)]> sessions.

(** The loop over the agents. *)
Definition collect_agent (jobs : gmap JobId Job) w (acc : gmap string AgentMeta * gmap string SessionParseState)
    (record : AgentRecord) : gmap string AgentMeta * gmap string SessionParseState :=
  let '(meta, sessions) := acc in
  (<[rec_agent_id record := agent_meta_of jobs record]> meta,
   match find_session_log (rec_workspace_path record) (rec_agent_id record) w with
   | Some log_path => parse_session (rec_agent_id record) (ah_open log_path w) sessions
   | None => sessions
   end).

(** The names of tmux with the prefix [oj-] that are no session of an agent. *)
Definition detect_ghost_sessions (agents : list AgentRecord) w : list string :=
  match um_list_sessions w with
  | None => []
  | Some stdout =>
      let known_sessions := omap rec_session_id agents in
      List.filter (λ name, negb (bool_decide (name ∈ known_sessions)))
        (List.filter (starts_with "oj-") (str_lines stdout))
  end.

Definition usage_record (now : string) (meta : gmap string AgentMeta)
    (entry : string * SessionParseState) : UsageRecord :=
  let '(agent_id, parse) := entry in
  let m := meta !! agent_id in
  mkUsageRecord now agent_id agent_id
    (m ← m; am_agent_kind m) (m ← m; am_job_id m) (m ← m; am_job_kind m) (m ← m; am_job_step m)
    (m ← m; am_namespace m) (default "gone" (am_status <$> m))
    (input_tokens (ps_totals parse)) (output_tokens (ps_totals parse))
    (cache_creation_input_tokens (ps_totals parse)) (cache_read_input_tokens (ps_totals parse))
    (usage_model (ps_totals parse)).

(** The sessions, in the order [env] iterates a map of theirs. *)
Definition usage_records (env : Env) c w : list UsageRecord :=
  usage_record (iso_now (um_now_ms w / 1000)) (uc_agent_meta c)
    <$> table_entries env TSessions (uc_sessions c).

Fixpoint write_lines_to (path : PathBuf) (records : list UsageRecord) w : option string * W :=
  match records with
  | [] => um_sync_all path w
  | record :: records =>
      match um_to_string record with
      | None => write_lines_to path records w
      | Some line =>
          match um_write_line path line w with
          | (Some e, w) => (Some e, w)
          | (None, w) => write_lines_to path records w
          end
      end
  end.

Definition write_records (metrics_dir : PathBuf) (records : list UsageRecord) w : option string * W :=
  let path := path_join metrics_dir "usage.jsonl" in
  match um_create_dir_all metrics_dir w with
  | (Some e, w) => (Some e, w)
  | (None, w) =>
      match um_open_append path w with
      | (Some e, w) => (Some e, w)
      | (None, w) => write_lines_to path records w
      end
  end.

Definition rotated_path (path : PathBuf) (i : nat) : PathBuf := path +:+ "." +:+ pretty i.

(** The current file becomes the first old one, and all totals are written to the
    new one. *)
Definition rotate_if_needed (env : Env) c w : W :=
  let path := path_join (uc_metrics_dir c) "usage.jsonl" in
  match um_size path w with
  | None => w
  | Some size =>
      if (size <? MAX_METRICS_SIZE)%Z then w
      else
        let w := foldl (λ w i, um_rename (rotated_path path i) (rotated_path path (S i)) w) w
                   (reverse (seq 1 (MAX_ROTATED_FILES - 1))) in
        let w := um_rename path (rotated_path path 1) w in
        (write_records (uc_metrics_dir c) (usage_records env c w) w).2
  end.

(** A cycle, on a copy of the agents and jobs of the state. *)
Definition collect_once (env : Env) (agents : gmap string AgentRecord) (jobs : gmap JobId Job) c w
    : UsageMetricsCollector * W :=
  let cycle_count := (uc_cycle_count c +u64 1)%oj in
  let records := table_values env TAgents agents in
  let '(meta, sessions) := foldl (collect_agent jobs w) (∅, uc_sessions c) records in
  let ghost_sessions :=
    if (cycle_count mod GHOST_CHECK_EVERY_N =? 0)%Z then detect_ghost_sessions records w
    else mh_ghost_sessions (uc_health c) in
  let c := mkCollector (uc_metrics_dir c) sessions meta (uc_health c) cycle_count in
  let records := usage_records env c w in
  let '(write_result, w) :=
    match records with
    | [] => (None, w)
    | _ => write_records (uc_metrics_dir c) records (rotate_if_needed env c w)
    end in
  (mkCollector (uc_metrics_dir c) sessions meta
     (mkMetricsHealth (um_now_ms w) (size sessions) write_result ghost_sessions) cycle_count, w).
End Collector.

Local Close Scope string_scope.

(** The two clocks of the repository write the same dates. *)
Lemma iso_now_format secs : iso_now secs = format_utc secs.
Proof. unfold iso_now, format_utc, days_to_civil. done. Qed.

(** ** Totals *)

Definition in_u64 (d : UsageDeltas) : Prop :=
  is_u64 (input_tokens d) ∧ is_u64 (output_tokens d) ∧
  is_u64 (cache_creation_input_tokens d) ∧ is_u64 (cache_read_input_tokens d).

Lemma add_deltas_assoc a b c : add_deltas (add_deltas a b) c = add_deltas a (add_deltas b c).
Proof.
  unfold add_deltas. simpl. f_equal; [.. | by destruct (usage_model c)].
  all: unfold u64_wrap; by rewrite Zplus_mod_idemp_l, Zplus_mod_idemp_r, Z.add_assoc.
Qed.

Lemma add_deltas_zero a : in_u64 a → add_deltas a UsageDeltas_zero = a.
Proof.
  destruct a as [i o cc cr m]. intros (Hi & Ho & Hcc & Hcr). unfold add_deltas. simpl in *.
  rewrite !Z.add_0_r, !u64_wrap_small by done. done.
Qed.

Section Totals.
Context {Value : Type} `{JV : !JsonValue Value} `{JI : !JsonItem Value} `{SJ : !SessionJson Value}.
Implicit Types (json : Value).

(** A record adds the same to every total. *)
Lemma count_usage_add json acc :
  in_u64 acc →
  ∃ d, count_usage json UsageDeltas_zero = Some d ∧ in_u64 d ∧
    count_usage json acc = Some (add_deltas acc d).
Proof.
  intros Hacc. unfold count_usage. destruct (negb _).
  { eexists. split_and!; [done | by split_and! | by rewrite add_deltas_zero]. }
  destruct (json_get "message" json) as [message|].
  - eexists. split_and!; [done | split_and!; apply u64_wrap_range |].
    f_equal. unfold add_deltas. simpl.
    f_equal; [.. | by destruct (get_str message "model")].
    all: unfold u64_wrap; by rewrite Zplus_mod_idemp_r.
  - eexists. split_and!; [done | by split_and! | by rewrite add_deltas_zero].
Qed.

Lemma add_deltas_in_u64 a b : in_u64 (add_deltas a b).
Proof. split_and!; apply u64_wrap_range. Qed.

Lemma run_count (js : list Value) : ∀ acc,
  in_u64 acc →
  ∃ d, run_records count_usage js UsageDeltas_zero = Some d ∧ in_u64 d ∧
    run_records count_usage js acc = Some (add_deltas acc d).
Proof.
  induction js as [|json js IH]; intros acc Hacc.
  { exists UsageDeltas_zero. split_and!; [done | by split_and! | by rewrite add_deltas_zero]. }
  destruct (count_usage_add json acc Hacc) as (d1 & H1 & Hd1 & Ha).
  destruct (IH (add_deltas acc d1) (add_deltas_in_u64 _ _)) as (d2 & H2 & Hd2 & Hb).
  destruct (IH d1 Hd1) as (d2' & H2' & _ & Hc). assert (d2' = d2) as -> by congruence.
  exists (add_deltas d1 d2). split_and!; [| apply add_deltas_in_u64 |].
  - cbn [run_records]. rewrite H1. exact Hc.
  - cbn [run_records]. rewrite Ha. cbn [mbind option_bind]. by rewrite Hb, add_deltas_assoc.
Qed.

(** A state of the parser that has read the complete lines of [c]. *)
Definition follows_usage (c : string) (ps : SessionParseState) : Prop :=
  ∃ full v, c = cat full +:+ v ∧ Forall Whole full ∧ has_char newline v = false ∧
    ps_offset ps = String.length (cat full) ∧ in_u64 (ps_totals ps) ∧
    run_records count_usage (log_records (Value:=Value) full) UsageDeltas_zero = Some (ps_totals ps).

Lemma follows_zero : follows_usage "" SessionParseState_zero.
Proof. exists [], "". by split_and!. Qed.

(** ... has read what a reading of the whole file counts. *)
Lemma follows_whole c ps :
  readable_log c → follows_usage c ps →
  ps = mkParse (complete_bytes c) (parse_session_usage (Value:=Value) (Some c) 0).1.
Proof.
  intros Hr (full & v & -> & Hf & Hv & Ho & _ & Hrun). rewrite complete_bytes_whole by done.
  unfold parse_session_usage. cbn [drop_str]. rewrite each_record_text by done. rewrite Hrun.
  destruct ps. simpl in *. by rewrite Ho.
Qed.

(** Reading what is new keeps up with the log. *)
Lemma parse_session_follows id c x (m : gmap string SessionParseState) :
  readable_log (c +:+ x) → follows_usage c (default SessionParseState_zero (m !! id)) →
  follows_usage (c +:+ x)
    (default SessionParseState_zero (parse_session (Value:=Value) id (Some (c +:+ x)) m !! id)).
Proof.
  intros Hr (full & v & -> & Hf & Hv & Ho & Hu & Hrun).
  destruct (log_shape (v +:+ x)) as (full2 & v2 & Hw & Hf2 & Hv2).
  unfold parse_session. rewrite Ho. unfold parse_session_usage.
  rewrite string_app_assoc, drop_str_app, Hw.
  assert (readable_log (cat full2 +:+ v2)) as Hr2.
  { rewrite string_app_assoc in Hr. rewrite <- Hw. unfold readable_log in *.
    rewrite raw_lines_whole in Hr by done. by apply Forall_app in Hr as [_ ?]. }
  rewrite each_record_text by done.
  destruct (run_count (log_records full2) (ps_totals (default SessionParseState_zero (m !! id))) Hu)
    as (d & Hd & _ & Hsum).
  rewrite Hd. cbn [fmap option_fmap option_map from_option]. unfold Datatypes.id. rewrite lookup_insert_eq. cbn [from_option]. unfold Datatypes.id.
  exists (full ++ full2)%list, v2. split_and!; [| by apply Forall_app | done | | |].
  - by rewrite cat_app, !string_app_assoc.
  - simpl. by rewrite cat_app, string_length_app.
  - apply add_deltas_in_u64.
  - unfold log_records. rewrite omap_app, run_records_app.
    fold (log_records (Value:=Value) full) (log_records (Value:=Value) full2). rewrite Hrun. exact Hsum.
Qed.
End Totals.

(** ** Cycles *)

Section Cycles.
Context {Value W : Type} `{JV : !JsonValue Value} `{JI : !JsonItem Value} `{SJ : !SessionJson Value}
  `{AH : !AgentHost W} `{MIO : !MetricsIO W}.
Implicit Types (m : gmap string SessionParseState).

(** What a cycle is given. *)
Record Cycle := mkCycle {
  cy_env : Env;
  cy_agents : gmap string AgentRecord;
  cy_jobs : gmap JobId Job;
  cy_world : W
}.

Definition run_cycles (cs : list Cycle) (c : UsageMetricsCollector) : UsageMetricsCollector :=
  foldl (λ c cy, (collect_once (Value:=Value) (cy_env cy) (cy_agents cy) (cy_jobs cy) c (cy_world cy)).1) c cs.

(** The logs a cycle reads: the agent, and the bytes if the file can be opened. *)
Definition reads (cy : Cycle) : list (string * option string) :=
  omap (λ record, (λ path, (rec_agent_id record, ah_open path (cy_world cy)))
                    <$> find_session_log (rec_workspace_path record) (rec_agent_id record) (cy_world cy))
    (table_values (cy_env cy) TAgents (cy_agents cy)).

(** What is read of an agent's log, in order. *)
Definition contents_of (id : string) (rs : list (string * option string)) : list string :=
  omap (λ r, if decide (r.1 = id) then r.2 else None) rs.

Definition read_all (rs : list (string * option string)) m : gmap string SessionParseState :=
  foldl (λ m r, parse_session (Value:=Value) r.1 r.2 m) m rs.

Lemma collect_agents_sessions jobs w records : ∀ acc,
  (foldl (collect_agent (Value:=Value) jobs w) acc records).2 =
  read_all (omap (λ record, (λ path, (rec_agent_id record, ah_open path w))
      <$> find_session_log (rec_workspace_path record) (rec_agent_id record) w) records) acc.2.
Proof.
  induction records as [|record records IH]; intros [meta m]; [done |]. cbn [foldl]. rewrite IH.
  unfold collect_agent at 1. cbn [omap list_omap snd].
  destruct (find_session_log _ _ w) as [path|]; [done | reflexivity].
Qed.

Lemma collect_once_sessions cy c :
  uc_sessions (collect_once (Value:=Value) (cy_env cy) (cy_agents cy) (cy_jobs cy) c (cy_world cy)).1 =
  read_all (reads cy) (uc_sessions c).
Proof.
  unfold collect_once. pose proof (collect_agents_sessions (cy_jobs cy) (cy_world cy)
    (table_values (cy_env cy) TAgents (cy_agents cy)) (∅, uc_sessions c)) as H. simpl in H.
  destruct (foldl _ _ _) as [meta sessions]. simpl in H. subst sessions.
  by case_match.
Qed.

Lemma run_cycles_sessions cs : ∀ c,
  uc_sessions (run_cycles cs c) = read_all (flat_map reads cs) (uc_sessions c).
Proof.
  induction cs as [|cy cs IH]; intros c; [done |]. cbn [run_cycles foldl flat_map].
  unfold read_all. rewrite foldl_app. fold (run_cycles cs).
  etransitivity; [apply IH |]. by rewrite collect_once_sessions.
Qed.

Lemma parse_session_other id id' log m :
  id' ≠ id → parse_session (Value:=Value) id log m !! id' = m !! id'.
Proof.
  intros Hne. unfold parse_session. destruct (parse_session_usage _ _). by apply lookup_insert_ne.
Qed.

Lemma parse_session_tracked id id' log m :
  is_Some (m !! id') → is_Some (parse_session (Value:=Value) id log m !! id').
Proof.
  intros H. destruct (decide (id' = id)) as [->|Hne]; [|by rewrite parse_session_other].
  unfold parse_session. destruct (parse_session_usage _ _). rewrite lookup_insert_eq. by eexists.
Qed.

(** A file that cannot be opened changes no totals. *)
Lemma parse_session_nothing id c m :
  follows_usage (Value:=Value) c (default SessionParseState_zero (m !! id)) →
  default SessionParseState_zero (parse_session (Value:=Value) id None m !! id)
  = default SessionParseState_zero (m !! id).
Proof.
  intros (full & v & _ & _ & _ & _ & Hu & _). unfold parse_session, parse_session_usage.
  rewrite lookup_insert_eq, add_deltas_zero by done. simpl. by destruct (default _ _).
Qed.

Lemma read_all_tracked rs id : ∀ m, is_Some (m !! id) → is_Some (read_all rs m !! id).
Proof. induction rs as [|r rs IH]; intros m H; [done |]. apply IH. by apply parse_session_tracked. Qed.

Lemma read_all_follows rs id : ∀ c m,
  Grows c (contents_of id rs) → follows_usage (Value:=Value) c (default SessionParseState_zero (m !! id)) →
  follows_usage (Value:=Value) (final c (contents_of id rs))
    (default SessionParseState_zero (read_all rs m !! id)) ∧
  (contents_of id rs ≠ [] → is_Some (read_all rs m !! id)).
Proof.
  induction rs as [|[i log] rs IH]; intros c m Hg Hm; [done |].
  cbn [read_all foldl fst snd]. unfold contents_of in *. cbn [omap list_omap fst snd] in *.
  destruct (decide (i = id)) as [->|Hne].
  - destruct log as [content|].
    + inversion Hg as [|? x l Hr Hg' [Hc Hl]]; subst.
      destruct (IH (c +:+ x) (parse_session (Value:=Value) id (Some (c +:+ x)) m)) as [H1 H2];
        [done | by apply parse_session_follows |].
      split; [exact H1 |]. intros _. apply read_all_tracked.
      unfold parse_session. destruct (parse_session_usage _ _). rewrite lookup_insert_eq. by eexists.
    + apply IH; [done |]. by rewrite (parse_session_nothing id c).
  - apply IH; [done |]. by rewrite parse_session_other.
Qed.

(** C39. Over any cycles of the collector, with any agents, jobs and worlds, in which
    what is read of an agent's session log only grows, by whole characters (at
    every read each line, the last one too, is UTF-8), the totals of the agent are
    those of one reading of the whole log, sums modulo [2^64] as in a release
    build, and the offset is the number of bytes of its complete lines: no line is
    counted twice or left out, however the pieces fall.  An agent whose log has
    been read once keeps its totals. *)
Theorem totals_follow_log (cs : list Cycle) (dir : PathBuf) (id : string) :
  Grows ""%string (contents_of id (flat_map reads cs)) →
  let log := final ""%string (contents_of id (flat_map reads cs)) in
  let sessions := uc_sessions (run_cycles cs (UsageMetricsCollector_new dir)) in
  (contents_of id (flat_map reads cs) ≠ [] → is_Some (sessions !! id)) ∧
  ∀ st, sessions !! id = Some st →
    st = mkParse (complete_bytes log) (parse_session_usage (Value:=Value) (Some log) 0).1.
Proof.
  intros Hg log sessions. subst sessions. rewrite run_cycles_sessions.
  destruct (read_all_follows (flat_map reads cs) id ""%string ∅) as [H1 H2];
    [done | apply follows_zero |].
  split; [exact H2 |]. intros st Hst. cbn [UsageMetricsCollector_new uc_sessions] in Hst.
  rewrite Hst in H1. apply follows_whole; [subst log | exact H1].
  destruct (Grows_final _ _ Hg) as (y & -> & ?); [constructor | done].
Qed.
End Cycles.

(** ** Records and ghosts *)

Section Reports.
Context {Value W : Type} `{JV : !JsonValue Value} `{JI : !JsonItem Value} `{SJ : !SessionJson Value}
  `{AH : !AgentHost W} `{MIO : !MetricsIO W}.

(** Each cycle reports every agent whose log has been read, once, with its totals;
    an agent that the state has lost is gone. *)
Lemma reported_once (env : Env) (c : UsageMetricsCollector) (w : W) id :
  omap (λ r, if decide (ur_agent_id r = id) then Some (ur_input_tokens r, ur_output_tokens r, ur_status r)
             else None) (usage_records env c w)
  = match uc_sessions c !! id with
    | Some st => [(input_tokens (ps_totals st), output_tokens (ps_totals st),
                   default "gone"%string (am_status <$> uc_agent_meta c !! id))]
    | None => []
    end.
Proof.
  unfold usage_records. set (f := usage_record _ _).
  assert (∀ es : list (string * SessionParseState), NoDup es.*1 →
    omap (λ r, if decide (ur_agent_id r = id) then Some (ur_input_tokens r, ur_output_tokens r, ur_status r)
               else None) (f <$> es)
    = match (list_to_map es : gmap string SessionParseState) !! id with
      | Some st => [(input_tokens (ps_totals st), output_tokens (ps_totals st),
                     default "gone"%string (am_status <$> uc_agent_meta c !! id))]
      | None => []
      end) as Hes.
  { induction es as [|[i st] es IH]; [done |]. cbn [fmap list_fmap fst]. intros [Hi Hnd]%NoDup_cons.
    specialize (IH Hnd). cbn [omap list_omap list_to_map foldr uncurry fst snd].
    unfold f at 1, usage_record at 1. cbn [ur_agent_id].
    destruct (decide (i = id)) as [->|Hne].
    - rewrite lookup_insert_eq. cbn [ur_input_tokens ur_output_tokens ur_status].
      rewrite (not_elem_of_list_to_map_1 _ _ Hi) in IH. f_equal. exact IH.
    - rewrite lookup_insert_ne by done. exact IH. }
  rewrite Hes by apply table_entries_NoDup.
  assert ((list_to_map (table_entries env TSessions (uc_sessions c)) : gmap string SessionParseState) !! id
          = uc_sessions c !! id) as ->; [|done].
  apply option_eq. intros st.
  rewrite <-elem_of_list_to_map by apply table_entries_NoDup. apply elem_of_table_entries.
Qed.

(** A ghost is a session of tmux with the prefix that is of no agent. *)
Lemma ghosts (agents : list AgentRecord) (w : W) name :
  name ∈ detect_ghost_sessions agents w ↔
  ∃ stdout, um_list_sessions w = Some stdout ∧ name ∈ str_lines stdout ∧
    starts_with "oj-"%string name = true ∧ ∀ record, record ∈ agents → rec_session_id record ≠ Some name.
Proof.
  unfold detect_ghost_sessions. destruct (um_list_sessions w) as [stdout|]; [|split; [by intros ?%elem_of_nil | naive_solver]].
  rewrite !list_elem_of_In, !filter_In, <-list_elem_of_In, negb_true_iff, bool_decide_eq_false,
    list_elem_of_omap.
  naive_solver.
Qed.
End Reports.

(** ** Witness *)

Section witness.
Local Open Scope string_scope.
#[local] Existing Instances json_value json_item session_json desk_host.

#[local] Instance desk_metrics : MetricsIO Desk := {
  um_size _ _ := None;
  um_create_dir_all _ w := (None, w);
  um_open_append _ w := (None, w);
  um_write_line _ line w := (None, noted line w);
  um_sync_all _ w := (None, w);
  um_rename _ _ w := w;
  um_to_string r := Some (ur_agent_id r +:+ " " +:+ pretty (ur_output_tokens r));
  um_list_sessions _ := Some ("oj-a" +:+ newline_str +:+ "oj-b" +:+ newline_str +:+ "other" +:+ newline_str);
  um_now_ms _ := 0%Z
}.

Definition desk_agent : AgentRecord :=
  mkAgentRecord "a" "coder" (Owner_AgentRun "r") "" "/p" (Some "oj-a") Record_Running 0 0.

Definition desk_cycle (log : string) : Cycle (W:=Desk) :=
  mkCycle (env_at 0) {["a" := desk_agent]} ∅ (with_log log desk).

(** The second answer is half written when the log is read first. *)
Definition desk_cycles : list (Cycle (W:=Desk)) :=
  [desk_cycle (log_of ["U"; "E"] +:+ "E"); desk_cycle (log_of ["U"; "E"; "E"; "U"])].

Lemma totals_follow_log_witness :
  Grows "" (contents_of "a" (flat_map reads desk_cycles)) ∧
  ∃ st, uc_sessions (run_cycles (Value:=Json) desk_cycles (UsageMetricsCollector_new "/m")) !! "a" = Some st ∧
    output_tokens (ps_totals st) = 24%Z ∧ ps_offset st = 8.
Proof.
  assert (contents_of "a" (flat_map reads desk_cycles)
          = [log_of ["U"; "E"] +:+ "E"; log_of ["U"; "E"; "E"; "U"]]) as Hc by (vm_compute; reflexivity).
  assert (Grows "" (contents_of "a" (flat_map reads desk_cycles))) as Hg.
  { rewrite Hc.
    apply (Grows_more "" (log_of ["U"; "E"] +:+ "E")); [apply readable_log_by; vm_compute; reflexivity |].
    apply (Grows_more (log_of ["U"; "E"] +:+ "E") (newline_str +:+ log_of ["U"]));
      [apply readable_log_by; vm_compute; reflexivity |]. constructor. }
  split; [exact Hg |].
  destruct (totals_follow_log (Value:=Json) desk_cycles "/m" "a" Hg) as [Htracked Htotals].
  destruct Htracked as [st Hst]; [rewrite Hc; discriminate |].
  exists st. rewrite (Htotals st Hst), Hc. split; [rewrite <-Hc, <-(Htotals st Hst); exact Hst |].
  vm_compute. auto.
Defined.

Example a_ghost : detect_ghost_sessions [desk_agent] desk = ["oj-b"].
Proof. vm_compute. reflexivity. Qed.
End witness.
