(* ===== verification/AgentFiles.v ===== *)
(** The files of the engine: the variables of [crates/engine/src/env.rs] and the
    commands of [crates/cli/src/commands/env.rs] on them, the settings, hooks and
    scripts of an agent of [workspace.rs] with [PrimeDef] of
    [crates/runbook/src/agent.rs], and the lines of [activity_logger.rs] and
    [agent_logger.rs].

    Files are the class [StateFiles] on a world, JSON the classes [JsonItem],
    [JsonBuild] and [SettingsJson]; [files_spawn_io] puts the operations in the place of what
    [Monitor] takes as the class [SpawnIO]. *)

From S2P Require Import Prelude Ids Runbook Bytes Vars Slug Entities Job Event State Scheduler Effect.
From S2P Require Import Executor Runtime WorkerQueue JobCreate Monitor RunbookImport Breadcrumb SessionLog.
From S2P Require Import Lifecycle SessionLogSpec.

Local Open Scope string_scope.

(** [std::io::Error]: the file is not there, or a text. *)
Inductive IoError := Io_NotFound | Io_Other (msg : string).

Definition IoError_display (e : IoError) : string :=
  match e with Io_NotFound => "No such file or directory (os error 2)" | Io_Other msg => msg end.

Class StateFiles (W : Type) := {
  sf_read : PathBuf → W → IoError + string;
  sf_write : PathBuf → string → W → option IoError * W;
  sf_remove : PathBuf → W → option IoError * W;
  sf_create_dir_all : PathBuf → W → option IoError * W;
  sf_exists : PathBuf → W → bool;
  (** [set_permissions]. *)
  sf_set_mode : PathBuf → Z → W → option IoError * W;
  (** A file opened for appending, and one write to it. *)
  sf_append : PathBuf → string → W → option IoError * W;
  sf_copy : PathBuf → PathBuf → W → option IoError * W;
  (** The bytes of a file name in [read_dir], made text. *)
  sf_read_dir : PathBuf → W → option (list string)
}.

(** What is written is read; what is removed is not there; other files stay. *)
Class StateFilesLaws (W : Type) `{!StateFiles W} := {
  read_written path text w :
    (sf_write path text w).1 = None → sf_read path (sf_write path text w).2 = inr text;
  read_other_written path other text w :
    other ≠ path → sf_read other (sf_write path text w).2 = sf_read other w;
  read_removed path w :
    (sf_remove path w).1 = None ∨ (sf_remove path w).1 = Some Io_NotFound →
    sf_read path (sf_remove path w).2 = inl Io_NotFound;
  read_other_removed path other w :
    other ≠ path → sf_read other (sf_remove path w).2 = sf_read other w;
  read_dir_made path other w : sf_read other (sf_create_dir_all path w).2 = sf_read other w;
  read_mode_set path mode other w : sf_read other (sf_set_mode path mode w).2 = sf_read other w
}.

(** [Path::parent]. *)
Definition path_parent (path : PathBuf) : option PathBuf :=
  match split_once "/" (rev_str path) with
  | Some (_, r) => Some (if is_empty r then "/" else rev_str r)
  | None => if is_empty path then None else Some ""
  end.

(** ** Variables *)

Definition global_env_path (state_dir : PathBuf) : PathBuf := path_join state_dir "env".
Definition project_env_path (state_dir : PathBuf) (project : string) : PathBuf :=
  path_join state_dir ("env." +:+ project).

(** A line of the file. *)
Definition parse_env_line (vars : gmap string string) (line : string) : gmap string string :=
  let trimmed := trim line in
  if is_empty trimmed || starts_with "#" trimmed then vars
  else match split_once "=" trimmed with
       | Some (key, value) => let key := trim key in if is_empty key then vars else <[key := value]> vars
       | None => vars
       end.

Definition parse_env (content : string) : gmap string string :=
  foldl parse_env_line ∅ (str_lines content).

(** The order of a [BTreeMap]: that of the bytes of the keys. *)
Definition key_le {V} (a b : string * V) : Prop := String.leb a.1 b.1 = true.
#[export] Instance key_le_dec {V} : RelDecision (@key_le V).
Proof. intros a b. unfold key_le. apply bool_eq_dec. Defined.

Definition btree_iter {V} (m : gmap string V) : list (string * V) := merge_sort key_le (map_to_list m).

Section Env.
Context {W : Type} `{SF : !StateFiles W}.
Implicit Types (w : W).

Definition read_env_file (path : PathBuf) w : IoError + gmap string string :=
  match sf_read path w with
  | inr content => inr (parse_env content)
  | inl Io_NotFound => inr ∅
  | inl e => inl e
  end.

Definition env_text (vars : gmap string string) : string :=
  String.concat newline_str ((λ kv, kv.1 +:+ "=" +:+ kv.2) <$> btree_iter vars) +:+ newline_str.

Definition write_env_file (path : PathBuf) (vars : gmap string string) w : option IoError * W :=
  if decide (vars = ∅) then
    match sf_remove path w with
    | (Some Io_NotFound, w) => (None, w)
    | (r, w) => (r, w)
    end
  else
    match path_parent path with
    | Some parent =>
        match sf_create_dir_all parent w with
        | (Some e, w) => (Some e, w)
        | (None, w) => sf_write path (env_text vars) w
        end
    | None => sf_write path (env_text vars) w
    end.

(** The global variables, and over them those of the project; a file that cannot
    be read counts as empty. *)
Definition merged_env (state_dir : PathBuf) (namespace : string) w : gmap string string :=
  let global := match read_env_file (global_env_path state_dir) w with inr g => g | inl _ => ∅ end in
  let project :=
    if is_empty namespace then ∅
    else match read_env_file (project_env_path state_dir namespace) w with inr p => p | inl _ => ∅ end in
  project ∪ global.

(** *** [oj env] *)

Definition resolve_scope (state_dir : PathBuf) (global : bool) (project : option string)
    : string + PathBuf :=
  match global, project with
  | true, _ => inr (global_env_path state_dir)
  | false, Some name => inr (project_env_path state_dir name)
  | false, None => inl "one of --global or --project is required"
  end.

(** [handle_set] and [handle_unset]: the error of the command. *)
Definition update_env (f : gmap string string → gmap string string) (state_dir : PathBuf) (global : bool)
    (project : option string) w : option string * W :=
  match resolve_scope state_dir global project with
  | inl msg => (Some msg, w)
  | inr path =>
      match read_env_file path w with
      | inl e => (Some (IoError_display e), w)
      | inr vars =>
          let '(r, w) := write_env_file path (f vars) w in (IoError_display <$> r, w)
      end
  end.

Definition env_set (state_dir : PathBuf) (key value : string) (global : bool) (project : option string) w
    : option string * W :=
  update_env <[key := value]> state_dir global project w.

Definition env_unset (state_dir : PathBuf) (key : string) (global : bool) (project : option string) w
    : option string * W :=
  update_env (delete key) state_dir global project w.

(** The projects [oj env list] finds, by name. *)
Definition listed_projects (state_dir : PathBuf) w : list (string * gmap string string) :=
  merge_sort key_le
    (omap (λ name,
       project_name ← strip_prefix "env." name;
       if is_empty project_name then None
       else match read_env_file (path_join state_dir name) w with
            | inr vars => if decide (vars = ∅) then None else Some (project_name, vars)
            | inl _ => None
            end) (default [] (sf_read_dir state_dir w))).

(** *** What a variable must look like to be read back *)

Definition env_entry (kv : string * string) : bool :=
  let line := kv.1 +:+ "=" +:+ kv.2 in
  negb (is_empty kv.1) && String.eqb (trim kv.1) kv.1 && negb (has_char "=" kv.1)
  && negb (starts_with "#" kv.1) && String.eqb (trim line) line
  && negb (has_char newline line) && negb (ends_with cr_str line).

Lemma str_lines_concat ls :
  Forall one_line ls → ls ≠ [] → str_lines (String.concat newline_str ls +:+ newline_str) = ls.
Proof.
  intros Hls Hne. rewrite <-(str_lines_write_log ls Hls) at 2. f_equal. clear Hls.
  induction ls as [|l ls IH]; [done |]. destruct ls as [|l' ls]; [done |].
  rewrite write_log_cons, <-IH by done.
  change (String.concat newline_str (l :: l' :: ls)) with
    (l +:+ newline_str +:+ String.concat newline_str (l' :: ls)).
  by rewrite !string_app_assoc.
Qed.

Lemma starts_with_char c a s : starts_with (String c "") (String a s) = Ascii.eqb c a.
Proof. cbv [starts_with strip_prefix]. by destruct (Ascii.eqb c a). Qed.

Lemma entry_line kv :
  env_entry kv = true →
  one_line (kv.1 +:+ "=" +:+ kv.2) ∧
  ∀ vars, parse_env_line vars (kv.1 +:+ "=" +:+ kv.2) = <[kv.1 := kv.2]> vars.
Proof.
  destruct kv as [k v]. unfold env_entry. cbn [fst snd].
  rewrite !andb_true_iff, !negb_true_iff, !String.eqb_eq.
  intros [[[[[[Hk Htk] Heq] Hhash] Htl] Hn] Hcr]. split.
  - split; [done |]. unfold ends_with, starts_with in Hcr. unfold strip_suffix.
    by destruct (strip_prefix _ _).
  - intros vars. unfold parse_env_line. rewrite Htl. destruct k as [|a k]; [done |].
    assert (starts_with "#" ((String a k) +:+ "=" +:+ v) = starts_with "#" (String a k)) as ->.
    { cbn [String.append]. by rewrite !starts_with_char. }
    rewrite Hhash. cbn [is_empty String.append orb].
    pose proof (split_once_app "=" (String a k) v Heq) as Hs. cbn [String.append] in Hs.
    change ("=" +:+ v) with (String "=" v). rewrite Hs, Htk. done.
Qed.
End Env.

Lemma foldl_insert {V} (l : list (string * V)) (m : gmap string V) :
  NoDup l.*1 → foldl (λ m kv, <[kv.1 := kv.2]> m) m l = list_to_map l ∪ m.
Proof.
  revert m. induction l as [|[k v] l IH]; intros m; [simpl; by rewrite (left_id_L ∅ (∪)) |].
  cbn [foldl fst snd fmap list_fmap]. intros [Hk Hl]%NoDup_cons. rewrite IH by done.
  cbn [list_to_map foldr uncurry fst snd]. rewrite <-insert_union_r; [by rewrite <-insert_union_l |].
  by apply not_elem_of_list_to_map_1.
Qed.

Lemma btree_iter_perm {V} (m : gmap string V) : btree_iter m ≡ₚ map_to_list m.
Proof. apply merge_sort_Permutation. Qed.

Lemma NoDup_fst_btree {V} (m : gmap string V) : NoDup (btree_iter m).*1.
Proof. rewrite btree_iter_perm. apply NoDup_fst_map_to_list. Qed.

Section EnvSpec.
Context {W : Type} `{SF : !StateFiles W} `{SL : !StateFilesLaws W}.
Implicit Types (w : W) (vars : gmap string string).

Definition env_ok vars : Prop := ∀ k v, vars !! k = Some v → env_entry (k, v) = true.

(** The text of variables reads back as them. *)
Lemma parse_env_text vars : vars ≠ ∅ → env_ok vars → parse_env (env_text vars) = vars.
Proof.
  intros Hne Hok. unfold parse_env, env_text.
  assert (∀ kv, kv ∈ btree_iter vars → env_entry kv = true) as Hall.
  { intros [k v] Hkv. rewrite btree_iter_perm, elem_of_map_to_list in Hkv. by apply Hok. }
  rewrite str_lines_concat.
  - assert (∀ l m, (∀ kv, kv ∈ l → env_entry kv = true) →
      foldl parse_env_line m ((λ kv : string * string, kv.1 +:+ "=" +:+ kv.2) <$> l)
      = foldl (λ m kv, <[kv.1 := kv.2]> m) m l) as Hf.
    { induction l as [|kv l IH]; intros m Hl; [done |]. cbn [fmap list_fmap foldl].
      rewrite (proj2 (entry_line kv (Hl kv ltac:(left)))). apply IH. intros kv' Hkv'. apply Hl. by right. }
    rewrite Hf, foldl_insert by (done || apply NoDup_fst_btree).
    rewrite (right_id_L ∅ (∪)).
    rewrite (list_to_map_proper _ _ (NoDup_fst_btree vars) (btree_iter_perm vars)).
    apply list_to_map_to_list.
  - apply Forall_fmap, Forall_forall. intros kv Hkv. by apply entry_line, Hall.
  - intros Hnil. apply fmap_nil_inv in Hnil. apply Hne, map_to_list_empty_iff.
    apply Permutation_nil_r. by rewrite <-btree_iter_perm, Hnil.
Qed.

Lemma write_env_reads path vars w :
  env_ok vars → (write_env_file path vars w).1 = None →
  read_env_file path (write_env_file path vars w).2 = inr vars ∧
  ∀ other, other ≠ path → sf_read other (write_env_file path vars w).2 = sf_read other w.
Proof.
  intros Hok. unfold write_env_file. case_decide as Hempty.
  - pose proof (read_removed path w) as Hr. pose proof (λ other, read_other_removed path other w) as Ho.
    subst vars. unfold read_env_file. destruct (sf_remove path w) as [r w']. cbn [fst snd] in Hr, Ho.
    destruct r as [[|msg]|]; cbn [fst snd]; intros; simplify_eq; rewrite Hr by auto; done.
  - assert (∀ w, (sf_write path (env_text vars) w).1 = None →
      read_env_file path (sf_write path (env_text vars) w).2 = inr vars ∧
      ∀ other, other ≠ path → sf_read other (sf_write path (env_text vars) w).2 = sf_read other w) as Hw.
    { intros w0 H0. split; [|intros; by apply read_other_written].
      unfold read_env_file. by rewrite read_written, parse_env_text. }
    destruct (path_parent path) as [parent|]; [|apply Hw].
    pose proof (λ other, read_dir_made parent other w) as Hd.
    destruct (sf_create_dir_all parent w) as [[e|] w']; [done |]. cbn [snd] in Hd. intros H1.
    destruct (Hw w' H1) as [Ha Hb]. split; [exact Ha |]. intros other Hne. by rewrite Hb, Hd.
Qed.

Lemma path_join_inj base a b : path_join base a = path_join base b → a = b.
Proof.
  unfold path_join. destruct (is_empty base); [done |].
  assert (∀ c d x y : string, x = y → c +:+ x = d +:+ y → c = d → x = y) as _ by done.
  destruct (rev_str base) as [|c r]; [by intros H%(inj (String.append base))%(inj (String.append "/")) |].
  destruct c as [[] [] [] [] [] [] [] []]; intros H%(inj (String.append base));
    (exact H || by apply (inj (String.append "/")) in H).
Qed.

Lemma global_not_project state_dir project : global_env_path state_dir ≠ project_env_path state_dir project.
Proof. intros H%path_join_inj. discriminate H. Qed.

Lemma read_env_same path w w' : sf_read path w' = sf_read path w → read_env_file path w' = read_env_file path w.
Proof. unfold read_env_file. by intros ->. Qed.

(** C0. A variable that the command line sets is what a process of the project gets:
    one set for the project in any case, one set globally unless the project has
    its own; other variables and other projects get what they had.  It takes that
    the variables of the file can be written on lines of their own, and that no
    file operation fails. *)
Theorem env_set_reaches_agents state_dir key value global project path vars w :
  resolve_scope state_dir global project = inr path →
  read_env_file path w = inr vars → env_ok (<[key := value]> vars) →
  (env_set state_dir key value global project w).1 = None →
  let w' := (env_set state_dir key value global project w).2 in
  ∀ namespace k,
    merged_env state_dir namespace w' !! k =
    if bool_decide (k = key) then
      if global then
        match (if is_empty namespace then None
               else match read_env_file (project_env_path state_dir namespace) w with
                    | inr p => p !! k
                    | inl _ => None
                    end) with
        | Some v => Some v
        | None => Some value
        end
      else if bool_decide (project = Some namespace ∧ namespace ≠ "") then Some value
      else merged_env state_dir namespace w !! k
    else merged_env state_dir namespace w !! k.
Proof.
  intros Hscope Hread Hok Hset w'. subst w'. unfold env_set, update_env in *.
  rewrite Hscope, Hread in Hset |- *.
  pose proof (write_env_reads path (<[key := value]> vars) w Hok) as Hw.
  destruct (write_env_file path (<[key := value]> vars) w) as [[e|] w1]; [done |]. cbn [fst snd] in *.
  destruct (Hw eq_refl) as [Hnew Hother]. clear Hw Hset. intros namespace k. unfold merged_env.
  destruct global; simpl in Hscope.
  - simplify_eq.
    rewrite (read_env_same (project_env_path state_dir namespace) w w1)
      by (apply Hother; intros H; by apply (global_not_project state_dir namespace)).
    rewrite Hnew, Hread. rewrite !lookup_union. case_bool_decide as Hk.
    + subst k. rewrite lookup_insert_eq. destruct (is_empty namespace); [by rewrite lookup_empty |].
      destruct (read_env_file (project_env_path state_dir namespace) w) as [e|p].
      { done. }
      by destruct (p !! key).
    + by rewrite lookup_insert_ne by done.
  - destruct project as [name|]; [|done]. simplify_eq.
    rewrite (read_env_same (global_env_path state_dir) w w1) by (apply Hother, global_not_project).
    rewrite !lookup_union. destruct (decide (namespace = name)) as [->|Hne].
    + destruct name as [|a name]; simpl.
      * repeat case_bool_decide; done || naive_solver.
      * rewrite Hnew, Hread. case_bool_decide as Hk.
        -- subst k. rewrite bool_decide_eq_true_2 by done. rewrite lookup_insert_eq.
           by destruct (match _ with inl _ => _ | inr _ => _ end !! key).
        -- by rewrite lookup_insert_ne by done.
    + rewrite (read_env_same (project_env_path state_dir namespace) w w1).
      2: { apply Hother. intros H%path_join_inj. apply Hne. by apply (inj (String.append "env.")) in H. }
      rewrite (bool_decide_eq_false_2 (Some name = Some namespace ∧ _)) by naive_solver.
      by case_bool_decide.
Qed.
End EnvSpec.

(** ** An agent's scripts, settings and configuration *)

(** [Value::Array], and [to_string_pretty] and [to_string]. *)
Class SettingsJson (Value : Type) := {
  json_array : list Value → Value;
  json_pretty : Value → option string;
  json_compact : Value → option string
}.

(** An object has the fields it was made of. *)
Class JsonObjectLaws (Value : Type) `{!JsonItem Value} `{!JsonBuild Value} :=
  as_object_of : ∀ m : gmap string Value, json_as_object (json_object m) = Some m.

Section Agent.
Context {Value W : Type} `{SF : !StateFiles W} `{JI : !JsonItem Value} `{JB : !JsonBuild Value}
  `{SJ : !SettingsJson Value} `{PJ : !SessionJson Value} `{TR : !TemplateRegex} (env_var : EnvVars).
(** The order in which a hash map is iterated. *)
Context (iter : ∀ V, gmap string V → list (string * V)).
Arguments iter {V}.
Implicit Types (w : W).

(** [PrimeDef::render]; [None] is its panic on a map. *)
Definition render (prime : PrimeDef) (vars : gmap string string) : option string :=
  match prime with
  | Prime_Script s => Some (interpolate env_var s vars)
  | Prime_Commands cmds =>
      Some (String.concat newline_str ((λ cmd, interpolate env_var cmd vars) <$> cmds))
  | Prime_PerSource _ => None
  end.

Definition render_per_source (prime : PrimeDef) (vars : gmap string string)
    : option (gmap string string) :=
  match prime with
  | Prime_PerSource defs =>
      if forallb (λ sd : string * PrimeDef, match sd.2 with Prime_PerSource _ => false | _ => true end)
           (map_to_list defs)
      then Some (omap (λ def, render def vars) defs) else None
  | other => (λ s, {["" := s]}) <$> render other vars
  end.

Definition prepare_for_agent (workspace_path : PathBuf) w : option IoError * W :=
  match sf_create_dir_all workspace_path w with
  | (Some e, w) => (Some e, w)
  | (None, w) => sf_create_dir_all (path_join workspace_path ".claude") w
  end.

Definition agent_dir (agent_id : string) (state_dir : PathBuf) : PathBuf :=
  path_join (path_join state_dir "agents") agent_id.

Definition agent_state_dir (agent_id : string) (state_dir : PathBuf) w : (IoError + PathBuf) * W :=
  match sf_create_dir_all (agent_dir agent_id state_dir) w with
  | (Some e, w) => (inl e, w)
  | (None, w) => (inr (agent_dir agent_id state_dir), w)
  end.

Definition prime_filename (source : string) : string :=
  if is_empty source then "prime.sh" else "prime-" +:+ source +:+ ".sh".

Definition prime_script (content : string) : string :=
  "#!/usr/bin/env bash" +:+ newline_str +:+ "set -euo pipefail" +:+ newline_str +:+ content +:+ newline_str.

Fixpoint write_scripts (dir : PathBuf) (rendered : list (string * string)) w
    : (IoError + gmap string PathBuf) * W :=
  match rendered with
  | [] => (inr ∅, w)
  | (source, content) :: rendered =>
      let path := path_join dir (prime_filename source) in
      match sf_write path (prime_script content) w with
      | (Some e, w) => (inl e, w)
      | (None, w) =>
          match sf_set_mode path 493 w with
          | (Some e, w) => (inl e, w)
          | (None, w) =>
              match write_scripts dir rendered w with
              | (inr paths, w) => (inr (<[source := path]> paths), w)
              | (inl e, w) => (inl e, w)
              end
          end
      end
  end.

(** [None] is a panic. *)
Definition prepare_agent_prime (agent_id : string) (prime : PrimeDef) (vars : gmap string string)
    (state_dir : PathBuf) w : option ((IoError + gmap string PathBuf) * W) :=
  match agent_state_dir agent_id state_dir w with
  | (inl e, w) => Some (inl e, w)
  | (inr dir, w) =>
      rendered ← render_per_source prime vars;
      Some (write_scripts dir (iter rendered) w)
  end.

Definition write_agent_config (agent_id on_stop : string) (state_dir : PathBuf) w : option IoError * W :=
  match agent_state_dir agent_id state_dir w with
  | (inl e, w) => (Some e, w)
  | (inr dir, w) =>
      sf_write (path_join dir "config.json")
        (default "" (json_compact (json_object {["on_stop" := json_text on_stop]}))) w
  end.

(** An entry of the hooks: [json!({"matcher": .., "hooks": [..]})]. *)
Definition hook_entry (matcher command : string) : Value :=
  json_object {["matcher" := json_text matcher;
                "hooks" := json_array [json_object {["type" := json_text "command";
                                                     "command" := json_text command]}]]}.

Definition object_or_new (v : option Value) : gmap string Value := default ∅ (v ≫= json_as_object).

Definition inject_hooks (settings : Value) (agent_id : string) (prime_paths : gmap string PathBuf) : Value :=
  let settings_obj := object_or_new (Some settings) in
  let hooks_obj := object_or_new (settings_obj !! "hooks") in
  let hooks_obj :=
    <["Stop" := json_array [hook_entry "" ("oj agent hook stop " +:+ agent_id)]]> hooks_obj in
  let hooks_obj :=
    <["Notification" := json_array [hook_entry "idle_prompt|permission_prompt"
        ("oj agent hook notify --agent-id " +:+ agent_id)]]> hooks_obj in
  let hooks_obj :=
    <["PreToolUse" := json_array [hook_entry "ExitPlanMode|AskUserQuestion|EnterPlanMode"
        ("oj agent hook pretooluse " +:+ agent_id)]]> hooks_obj in
  let hooks_obj :=
    if decide (prime_paths = ∅) then hooks_obj
    else <["SessionStart" := json_array ((λ mp : string * PathBuf, hook_entry mp.1 ("bash " +:+ mp.2))
                                           <$> iter prime_paths)]> hooks_obj in
  json_object (<["hooks" := json_object hooks_obj]> settings_obj).

Definition prepare_agent_settings (agent_id : string) (workspace_path : PathBuf)
    (prime_paths : gmap string PathBuf) (state_dir : PathBuf) w : (IoError + PathBuf) * W :=
  match agent_state_dir agent_id state_dir w with
  | (inl e, w) => (inl e, w)
  | (inr dir, w) =>
      let settings_path := path_join dir "claude-settings.json" in
      let project_settings := path_join workspace_path ".claude/settings.json" in
      let write (settings : Value) :=
        match sf_write settings_path
                (default "{}" (json_pretty (inject_hooks settings agent_id prime_paths))) w with
        | (Some e, w) => (inl e, w)
        | (None, w) => (inr settings_path, w)
        end in
      if sf_exists project_settings w then
        match sf_read project_settings w with
        | inl e => (inl e, w)
        | inr content => write (default (json_object ∅) (json_from_str content))
        end
      else write (json_object ∅)
  end.

(** The operations in the place of the class the runtime takes; a prime that is a
    map of maps, which parsing refuses, would be a panic and is an error here. *)
Definition files_spawn_io (state_dir : PathBuf) (prompt_file : PathBuf → W → string + string)
    (exe : option PathBuf) : SpawnIO W := {|
  Runtime.read_prompt_file := prompt_file;
  Runtime.prepare_for_agent path w :=
    let '(r, w) := prepare_for_agent path w in (IoError_display <$> r, w);
  Runtime.prepare_agent_prime agent_id prime vars w :=
    match prepare_agent_prime agent_id prime vars state_dir w with
    | Some (inr paths, w) => (inr paths, w)
    | Some (inl e, w) => (inl (IoError_display e), w)
    | None => (inl "internal error: entered unreachable code", w)
    end;
  Runtime.prepare_agent_settings agent_id workspace_path prime_paths w :=
    let '(r, w) := prepare_agent_settings agent_id workspace_path prime_paths state_dir w in
    (match r with inl e => inl (IoError_display e) | inr path => inr path end, w);
  Runtime.write_agent_config agent_id on_stop w :=
    let '(r, w) := write_agent_config agent_id on_stop state_dir w in (IoError_display <$> r, w);
  Runtime.current_exe := exe
|}.
End Agent.

(** ** Activity logs *)

Section Logs.
Context {W : Type} `{SF : !StateFiles W}.
Implicit Types (w : W) (now : Z).

(** A timestamped line. *)
Definition log_text now (label message : string) : string :=
  format_utc now +:+ " [" +:+ label +:+ "] " +:+ message +:+ newline_str.

Definition append_text (path : PathBuf) (text : string) w : option IoError * W :=
  match path_parent path with
  | Some parent => match sf_create_dir_all parent w with
                   | (Some e, w) => (Some e, w)
                   | (None, w) => sf_append path text w
                   end
  | None => sf_append path text w
  end.

Definition write_line (path : PathBuf) now (label message : string) w : option IoError * W :=
  append_text path (log_text now label message) w.

(** [JobLogger]; failures are only logged. *)
Definition job_append (log_dir : PathBuf) now (job_id step message : string) w : W :=
  (write_line (job_log_path log_dir job_id) now step message w).2.

Definition append_agent_pointer (log_dir : PathBuf) now (job_id step agent_id : string) w : W :=
  job_append log_dir now job_id step ("agent log: " +:+ agent_log_path log_dir agent_id) w.

Definition copy_session_log (log_dir : PathBuf) (agent_id : string) (source : PathBuf) w : W :=
  let dest_dir := agent_session_log_dir log_dir agent_id in
  match sf_create_dir_all dest_dir w with
  | (Some _, w) => w
  | (None, w) => (sf_copy source (path_join dest_dir "session.jsonl") w).2
  end.

Definition fence : string := "```".

(** The block of [write_fenced]; the clock is read twice. *)
Definition fenced_text now now' (step label content : string) : string :=
  log_text now step (fence +:+ label)
  +:+ content +:+ (if ends_with newline_str content then "" else newline_str)
  +:+ log_text now' step fence.

Definition append_fenced (log_dir : PathBuf) now now' (job_id step label content : string) w : W :=
  (append_text (job_log_path log_dir job_id) (fenced_text now now' step label content) w).2.

Definition append_agent_error (log_dir : PathBuf) now (agent_id message : string) w : W :=
  (append_text (agent_log_path log_dir agent_id)
     (format_utc now +:+ " error: " +:+ message +:+ newline_str) w).2.

(** [WorkerLogger] and [QueueLogger]; the short id may panic. *)
Definition worker_append (log_dir : PathBuf) now (worker_name message : string) w : W :=
  (write_line (worker_log_path log_dir worker_name) now "worker" message w).2.

Definition queue_append (log_dir : PathBuf) now (queue_name item_id message : string) w : option W :=
  prefix ← short item_id 8;
  Some (write_line (queue_log_path log_dir queue_name) now prefix message w).2.

(** [AgentLogger::append_entries], with one write for each entry. *)
Fixpoint append_each (path : PathBuf) (entries : list AgentLogEntry) w : option IoError * W :=
  match entries with
  | [] => (None, w)
  | entry :: entries =>
      match sf_append path (AgentLogEntry_display entry +:+ newline_str) w with
      | (Some e, w) => (Some e, w)
      | (None, w) => append_each path entries w
      end
  end.

Definition append_entries (log_dir : PathBuf) (agent_id : string) (entries : list AgentLogEntry) w : W :=
  match entries with
  | [] => w
  | _ =>
      let path := agent_log_path log_dir agent_id in
      match path_parent path with
      | None => w
      | Some dir => match sf_create_dir_all dir w with
                    | (Some _, w) => w
                    | (None, w) => (append_each path entries w).2
                    end
      end
  end.

(** [spawn_writer]: the messages of the channel, in order. *)
Definition write_messages (log_dir : PathBuf) (messages : list (string * list AgentLogEntry)) w : W :=
  foldl (λ w m, append_entries log_dir m.1 m.2 w) w messages.
End Logs.

(** ** What an agent finds *)

Section AgentSpec.
Context {Value W : Type} `{SF : !StateFiles W} `{SL : !StateFilesLaws W} `{JI : !JsonItem Value}
  `{JB : !JsonBuild Value} `{SJ : !SettingsJson Value} `{PJ : !SessionJson Value}
  `{JL : !JsonObjectLaws Value} `{TR : !TemplateRegex} (env_var : EnvVars).
Context (iter : ∀ V, gmap string V → list (string * V))
  (iter_perm : ∀ V (m : gmap string V), iter V m ≡ₚ map_to_list m).

(** The hooks the engine sets. *)
Definition engine_hooks (primes : bool) : list string :=
  ["Stop"; "Notification"; "PreToolUse"] ++ (if primes then ["SessionStart"] else []).

(** C0. The settings of an agent are those of the project but for its hooks, and the
    hooks those of the project but for the ones the engine sets; the stop hook is
    one command of [oj] for the agent, and with prime scripts the start hooks are
    one command for each of them. *)
Theorem hooks_injected settings agent_id (primes : gmap string PathBuf) :
  ∃ fields hooks,
    json_as_object (inject_hooks iter settings agent_id primes) = Some fields ∧
    fields !! "hooks" = Some (json_object hooks) ∧
    (∀ k, k ≠ "hooks" → fields !! k = object_or_new (Some settings) !! k) ∧
    (∀ k, k ∉ engine_hooks (bool_decide (primes ≠ ∅)) →
       hooks !! k = object_or_new (object_or_new (Some settings) !! "hooks") !! k) ∧
    hooks !! "Stop" = Some (json_array [hook_entry "" ("oj agent hook stop " +:+ agent_id)]) ∧
    (primes ≠ ∅ → ∃ entries,
       hooks !! "SessionStart" = Some (json_array entries) ∧
       entries ≡ₚ (λ mp : string * PathBuf, hook_entry mp.1 ("bash " +:+ mp.2)) <$> map_to_list primes).
Proof.
  unfold inject_hooks. rewrite as_object_of. eexists _, _. split; [done |].
  split; [apply lookup_insert_eq |]. split.
  { intros k Hk. by rewrite lookup_insert_ne by done. }
  case_decide as Hp.
  - rewrite bool_decide_eq_false_2 by auto. split_and!; [| by simplify_map_eq | done].
    intros k Hk. cbn [engine_hooks app] in Hk. rewrite !not_elem_of_cons in Hk.
    by rewrite !lookup_insert_ne by naive_solver.
  - rewrite bool_decide_eq_true_2 by done. split_and!; [| by simplify_map_eq |].
    + intros k Hk. cbn [engine_hooks app] in Hk. rewrite !not_elem_of_cons in Hk.
      by rewrite !lookup_insert_ne by naive_solver.
    + intros _. eexists. split; [apply lookup_insert_eq |]. by rewrite iter_perm.
Qed.

Lemma prime_filename_inj a b : prime_filename a = prime_filename b → a = b.
Proof.
  unfold prime_filename. destruct a as [|x a], b as [|y b]; cbn [is_empty]; [done | discriminate.. |].
  intros H%(inj (String.append "prime-")). revert H. generalize (String x a), (String y b). clear.
  intros a. induction a as [|x a IH]; intros b H.
  - destruct b as [|y b]; [done |]. apply (f_equal String.length) in H.
    simpl in H. rewrite ?string_length_app in H. simpl in H. lia.
  - destruct b as [|y b].
    + apply (f_equal String.length) in H. simpl in H.
      rewrite ?string_length_app in H. simpl in H. lia.
    + injection H as -> H. by rewrite (IH b H).
Qed.

Lemma write_scripts_spec dir rendered : ∀ w paths w',
  NoDup rendered.*1 → write_scripts dir rendered w = (inr paths, w') →
  (∀ source, is_Some (paths !! source) ↔ source ∈ rendered.*1) ∧
  (∀ source content, (source, content) ∈ rendered →
     paths !! source = Some (path_join dir (prime_filename source)) ∧
     sf_read (path_join dir (prime_filename source)) w' = inr (prime_script content)) ∧
  (∀ other, (∀ source, source ∈ rendered.*1 → other ≠ path_join dir (prime_filename source)) →
     sf_read other w' = sf_read other w).
Proof.
  induction rendered as [|[source content] rendered IH]; intros w paths w'; cbn [write_scripts].
  { intros _ [= <- <-]. split_and!; [| by intros ? ? ?%elem_of_nil | done].
    intros source. rewrite lookup_empty. split; [by intros [] | by intros ?%elem_of_nil]. }
  intros [Hnew Hnd]%NoDup_cons.
  set (path := path_join dir (prime_filename source)).
  pose proof (read_written path (prime_script content) w) as Hread.
  pose proof (λ other, read_other_written path other (prime_script content) w) as Hother.
  destruct (sf_write path (prime_script content) w) as [[e|] w1]; [done |]. cbn [fst snd] in *.
  pose proof (λ other, read_mode_set path 493 other w1) as Hmode.
  destruct (sf_set_mode path 493 w1) as [[e|] w2]; [done |]. cbn [snd] in Hmode.
  destruct (write_scripts dir rendered w2) as [[e|paths1] w3] eqn:E; [done |]. intros [= <- <-].
  destruct (IH w2 paths1 w3 Hnd E) as (Hdom & Hall & Hrest).
  assert (∀ source', source' ∈ rendered.*1 → path ≠ path_join dir (prime_filename source')) as Hne.
  { intros source' Hs' Heq%path_join_inj%prime_filename_inj. by subst. }
  split_and!.
  - intros source'. cbn [fmap list_fmap fst]. rewrite elem_of_cons, <-Hdom.
    destruct (decide (source' = source)) as [->|Hs].
    + rewrite lookup_insert_eq. split; [by left | by eexists].
    + rewrite lookup_insert_ne by done. naive_solver.
  - intros source' content' [[= -> ->]|Hin]%elem_of_cons.
    + rewrite lookup_insert_eq. split; [done |]. etrans; [exact (Hrest path Hne) |].
      rewrite Hmode. by apply Hread.
    + assert (source' ∈ rendered.*1) as Hs' by (apply list_elem_of_fmap; by exists (source', content')).
      rewrite lookup_insert_ne by (intros ->; by apply Hnew). by apply Hall.
  - intros other Ho. rewrite Hrest, Hmode, Hother; [done | |].
    + apply Ho. cbn. by left.
    + intros source' Hs'. apply Ho. cbn. by right.
Qed.

(** C0. When the prime of an agent has been prepared, there is one script for each
    of its sources, at a path of its own, with the rendered commands behind a
    line that makes bash stop at the first error. *)
Theorem prime_scripts_written agent_id prime vars state_dir w rendered paths w' :
  render_per_source env_var prime vars = Some rendered →
  prepare_agent_prime env_var iter agent_id prime vars state_dir w = Some (inr paths, w') →
  dom paths = dom rendered ∧
  (∀ a b path, paths !! a = Some path → paths !! b = Some path → a = b) ∧
  ∀ source content, rendered !! source = Some content →
    ∃ path, paths !! source = Some path ∧ sf_read path w' = inr (prime_script content).
Proof.
  unfold prepare_agent_prime. intros Hr. destruct (agent_state_dir agent_id state_dir w) as [[e|dir] w1].
  { by intros [= ]. }
  rewrite Hr. cbn [mbind option_bind]. intros [= Hw].
  assert (NoDup (iter _ rendered).*1) as Hnd by (rewrite iter_perm; apply NoDup_fst_map_to_list).
  destruct (write_scripts_spec dir (iter _ rendered) w1 paths w' Hnd Hw) as (Hdom & Hall & _).
  assert (∀ source content, rendered !! source = Some content → (source, content) ∈ iter _ rendered) as Hin.
  { intros source content H. by rewrite iter_perm, elem_of_map_to_list. }
  split_and!.
  - apply set_eq. intros source. rewrite !elem_of_dom, Hdom, iter_perm.
    rewrite list_elem_of_fmap. split.
    + intros ([s c] & -> & Hs%elem_of_map_to_list). by exists c.
    + intros [c Hc]. exists (source, c). by rewrite elem_of_map_to_list.
  - assert (∀ a path, paths !! a = Some path → path = path_join dir (prime_filename a)) as Hpath.
    { intros a path Ha.
      assert (a ∈ (iter _ rendered).*1) as [[s c] [-> Hs]]%list_elem_of_fmap by (apply Hdom; by exists path).
      destruct (Hall s c Hs) as [Hp _]. cbn [fst] in Ha. rewrite Ha in Hp. by injection Hp. }
    intros a b path Ha Hb. apply Hpath in Ha. apply Hpath in Hb. subst path.
    by apply path_join_inj, prime_filename_inj in Hb.
  - intros source content H%Hin. destruct (Hall source content H) as [Hp Hc]. by eexists.
Qed.
End AgentSpec.

(** ** Examples *)

#[local] Existing Instances json_value json_item session_json.

(** Files in memory; every operation but the removal of what is not there
    succeeds. *)
#[local] Instance memory_files : StateFiles (gmap string string) := {
  sf_read path w := match w !! path with Some text => inr text | None => inl Io_NotFound end;
  sf_write path text w := (None, <[path := text]> w);
  sf_remove path w := (if bool_decide (is_Some (w !! path)) then None else Some Io_NotFound, delete path w);
  sf_create_dir_all _ w := (None, w);
  sf_exists path w := bool_decide (is_Some (w !! path));
  sf_set_mode _ _ w := (None, w);
  sf_append path text w := (None, <[path := default "" (w !! path) +:+ text]> w);
  sf_copy source path w :=
    match w !! source with Some text => (None, <[path := text]> w) | None => (Some Io_NotFound, w) end;
  sf_read_dir _ w := Some ((λ kv, default kv.1 (strip_prefix "/s/" kv.1)) <$> map_to_list w)
}.

#[local] Instance memory_files_laws : StateFilesLaws (gmap string string).
Proof.
  split; cbn; intros.
  - by rewrite lookup_insert_eq.
  - by rewrite lookup_insert_ne by auto.
  - by rewrite lookup_delete_eq.
  - by rewrite lookup_delete_ne by auto.
  - done.
  - done.
Qed.

#[local] Instance json_build : JsonBuild Json := {
  json_object m := Json_Obj (map_to_list m); json_text := Json_Str; json_null := Json_Null
}.
#[local] Instance settings_json : SettingsJson Json := {
  json_array := Json_Arr; json_pretty _ := Some "pretty"; json_compact _ := Some "compact"
}.
#[local] Instance json_objects : JsonObjectLaws Json.
Proof. intros m. cbn. by rewrite list_to_map_to_list. Qed.

(** Templates without variables. *)
#[local] Instance plain_templates : TemplateRegex := {
  replace_env _ template := template; replace_var _ template := template
}.

Definition map_iter (V : Type) (m : gmap string V) : list (string * V) := map_to_list m.

Definition env_files : gmap string string :=
  {["/s/env" := "# shared" +:+ newline_str +:+ "A=1" +:+ newline_str;
    "/s/env.web" := "A=2" +:+ newline_str]}.

(** The project has its own value of the variable set globally; others get the new one. *)
Lemma env_set_reaches_agents_witness :
  let w' := (env_set "/s" "A" "3" true None env_files).2 in
  merged_env "/s" "web" w' !! "A" = Some "2" ∧ merged_env "/s" "api" w' !! "A" = Some "3".
Proof.
  assert (env_ok (<["A" := "3"]> {["A" := "1"]})) as Hok.
  { intros k v [[<- <-]|[Hk Hv]]%lookup_insert_Some; [by vm_compute |].
    apply lookup_singleton_Some in Hv as [<- <-]. by destruct Hk. }
  assert (read_env_file "/s/env" env_files = inr {["A" := "1"]}) as Hread by (vm_compute; reflexivity).
  assert ((env_set "/s" "A" "3" true None env_files).1 = None) as Hset by (vm_compute; reflexivity).
  pose proof (env_set_reaches_agents "/s" "A" "3" true None "/s/env" {["A" := "1"]} env_files
                eq_refl Hread Hok Hset) as H.
  cbv zeta in H. intros w'. split; unfold w'; rewrite H; vm_compute; reflexivity.
Defined.

(** What is set is not always what is read: blanks at the end of a value are
    lost, the rest of a value behind a line end is an entry of its own or
    nothing, and a key with an equals sign is cut there. *)
Definition set_and_read (key value : string) : gmap string string :=
  merged_env "/s" "" (env_set "/s" key value true None (∅ : gmap string string)).2.

Example blanks_lost : set_and_read "PS1" "> " = {["PS1" := ">"]}.
Proof. vm_compute. reflexivity. Qed.

Example lines_split :
  set_and_read "KEY" ("a" +:+ newline_str +:+ "B=c") = {["KEY" := "a"; "B" := "c"]}.
Proof. vm_compute. reflexivity. Qed.

Example key_cut : set_and_read "A=B" "c" = {["A" := "B=c"]}.
Proof. vm_compute. reflexivity. Qed.

(** A key like a comment is stored, and never read. *)
Example comment_key : set_and_read "#A" "1" = ∅.
Proof. vm_compute. reflexivity. Qed.

Example projects_listed :
  listed_projects "/s" (<["/s/env.bad" := "no entries"]> env_files) = [("web", {["A" := "2"]})].
Proof. vm_compute. reflexivity. Qed.

Definition two_sources : PrimeDef :=
  Prime_PerSource {["startup" := Prime_Script "git status"; "compact" := Prime_Commands ["a"; "b"]]}.

Definition two_scripts : option ((IoError + gmap string PathBuf) * gmap string string) :=
  prepare_agent_prime (λ _, None) map_iter "a1" two_sources ∅ "/s" ∅.

Lemma prime_scripts_written_witness :
  ∃ paths w', two_scripts = Some (inr paths, w') ∧
    paths !! "startup" = Some "/s/agents/a1/prime-startup.sh" ∧
    sf_read "/s/agents/a1/prime-startup.sh" w' = inr (prime_script "git status").
Proof.
  assert (∃ paths w', two_scripts = Some (inr paths, w') ∧
            paths !! "startup" = Some "/s/agents/a1/prime-startup.sh") as (paths & w' & E & Hq).
  { eexists _, _. split; vm_compute; reflexivity. }
  assert (render_per_source (λ _, None) two_sources ∅
          = Some {["startup" := "git status"; "compact" := "a" +:+ newline_str +:+ "b"]}) as Hr
    by (vm_compute; reflexivity).
  destruct (prime_scripts_written (λ _, None) map_iter (λ _ _, reflexivity _) "a1" two_sources ∅ "/s" ∅
    _ paths w' Hr E) as (_ & _ & H).
  exists paths, w'. split_and!; [done | done |].
  destruct (H "startup" "git status") as (path & Hp & Hread); [vm_compute; reflexivity |].
  rewrite Hq in Hp. by injection Hp as <-.
Defined.

Lemma hooks_injected_witness :
  let settings := Json_Obj [("model", Json_Str "opus")] in
  ∃ fields hooks,
    json_as_object (inject_hooks map_iter settings "a1" ∅) = Some fields ∧
    fields !! "model" = Some (Json_Str "opus") ∧
    fields !! "hooks" = Some (json_object hooks) ∧
    hooks !! "Stop" = Some (json_array [hook_entry "" "oj agent hook stop a1"]).
Proof.
  intros settings.
  destruct (hooks_injected map_iter (λ _ _, reflexivity _) settings "a1" ∅)
    as (fields & hooks & Ho & Hh & Hk & _ & Hs & _).
  exists fields, hooks. split_and!; [done | | done | done].
  rewrite Hk by done. vm_compute. reflexivity.
Defined.

(** An item whose eighth byte is inside a character makes the queue's log panic. *)
Example queue_log_panics :
  queue_append "/s/logs" 0 "q" (of_bytes (repeat 97%N 7 ++ [195; 169]%N)%list) "pushed"
    (∅ : gmap string string) = None.
Proof. vm_compute. reflexivity. Qed.

(** The blocks of an output without a line end. *)
Example fenced_output :
  fenced_text 0 0 "build" "stdout" "done"
  = cat (["1970-01-01T00:00:00Z [build] ```stdout"; newline_str; "done"; newline_str;
          "1970-01-01T00:00:00Z [build] ```"; newline_str]).
Proof. vm_compute. reflexivity. Qed.
